(* ===== verification/_CoqProject ===== *)
-Q . S2P
Prelude.v
Numbers.v
Bytes.v
Header.v
TextCodec.v
Encoder.v
Decoder.v
Codec.v
Objects.v
InsertableStreams.v
KeyManagement.v
KeySafety.v
FrameSecurity.v
Assignments.v
InsertableCodec.v
CodecWorker.v
Actions.v
World.v
Logic.v
Streams.v
StreamsInv.v
StreamsOps.v
StreamsSafety.v
StreamsLocal.v
StreamsFresh.v
Peers.v
PeersSafety.v
Media.v
Users.v
Notices.v
Ws.v
Async.v
Store.v
PeerActions.v
CallActions.v
Chat.v
CallSafety.v
Session.v
SessionSafety.v
PageRules.v
Promises.v
Capture.v
Devices.v
JoinForm.v
JoinSafety.v
Videos.v
Screen.v
ScreenSafety.v
CallMedia.v
UiSession.v
Desk.v
WellFormed.v
PageFrames.v
EncoderShim.v
ChatLine.v
RecordPeer.v
ServerRoom.v
Mesh.v
MeshPages.v
MeshCalm.v
MeshRoom.v
MeshCall.v
Signalling.v
Dom.v
Views.v
Display.v
ViewsSafety.v
ChatScreen.v
Tiles.v
