(* ===== verification/Prelude.v ===== *)
(** * A verification of the peer-to-peer meeting client

    The program is the browser client under [src/client/] (TypeScript): a page
    joins a room, the page of each participant is connected to the page of each
    other one over WebRTC (package simple-peer), and a Redux store holds what the
    page shows.  Chat messages and files go over the data channels of the peers,
    cut into chunks; audio and video frames may be encrypted end to end by a
    worker that rewrites the encoded frames; a WebSocket carries the signalling,
    through a room of the server (Go, [src/server/]), which tells the pages of each
    other.

    Paths below are relative to [src/client/], those of the server excepted, which
    begin with [server/].

    ** The files

    - [Prelude] (this file): completions of JavaScript calls ([result], [Ok] or
      [Throw]), the notation of the error monad, generic lemmas on lists and
      options, and the automation every file shares.
    - [Numbers], [Bytes]: the JavaScript numbers and typed arrays the codec uses
      ([Uint8Array], [DataView] getters and setters with their [RangeError]s,
      big-endian integers of 16 and 32 bits with their wrap-around).
    - [Header], [TextCodec], [Encoder], [Decoder], [Codec]: [codec/]: the chunk
      header ([header.ts]), [Encoder] and [Decoder] with their counters and the
      table of unfinished messages; [Codec] puts the two ends together.
      [EncoderShim]: class [WorkerShim], with which the encoder does without a worker.
    - [Objects]: JavaScript objects used as maps, and the order of their keys.
    - [InsertableStreams]: the worker of [insertable-streams/index.ts], one
      definition per function of the worker scope, its state ([WorkerState]) and
      its messages.  [KeyManagement] and [KeySafety] are its invariants and the
      behaviour of every message on them, [FrameSecurity] the theorems.
    - [InsertableCodec]: class [InsertableStreamsCodec] of the same file: which
      sender and receiver streams are handed to the worker, and what is posted.
      [CodecWorker]: the worker at the other end, as an account of the calls.
    - [Actions]: the actions of [actions/] as one inductive type, shared by the
      reducers, and their types in [constants.ts].
    - [World]: what the reducers reach beyond their own state: tracks of media
      streams, recording arrays, object URLs, the encryption codec, calls on
      peers; a state and exception monad [eff] over it, and the classes
      [Platform] and [Lodash] of the operations that are not the program's.
    - [Streams]: [reducers/streams.ts], every operation.  [StreamsInv] has the
      frame lemmas and the invariant, [StreamsOps] its preservation by each
      operation, [StreamsSafety] and [StreamsLocal] the theorems on remote and on
      local streams.
    - [Peers], [PeersSafety]: [reducers/peers.ts] and its theorems.
    - [Media], [Users], [Notices]: [reducers/media.ts]; [reducers/nicknames.ts] and
      [nickname.ts]; [reducers/notifications.ts], [actions/NotifyActions.ts],
      [reducers/messages.ts] and [reducers/windowStates.ts].
    - [Ws]: [ws/index.ts], the reconnecting WebSocket client, as a transition
      system driven by the browser.
    - [Async]: [async/]: actions that are promises, their middleware and the cases
      of a reducer.
    - [Store]: the page ([Page]): the store's state with all reducers combined, the
      messaging middleware with the encoder ([store.ts], [reducers/index.ts],
      [middlewares.ts], [messaging.ts]), the promises whose callbacks are due, the
      socket's listeners, the handlers of peers.
    - [PeerActions]: [actions/PeerActions.ts], making peers and handling their
      events and those of their tracks.
    - [CallActions]: [actions/SocketActions.ts], [actions/CallActions.ts]: the
      server's messages, dialling, hanging up, and the emitter that calls the
      listeners.  [CallSafety] has the theorems on calls.
    - [Chat]: [actions/ChatActions.ts] and a message from page to page.  [ChatLine]: two
      pages in their sessions and the data channel between them.
    - [Logic]: rules for "every run of this operation keeps that invariant"
      ([keeps]); [PageRules]: the same for all events of a page, be the invariant one
      of its world, of its state, or a frame, what is as it was at the beginning;
      [PageFrames]: what each event leaves alone, from these rules.
    - [Session]: everything that can happen to a page, as events ([PageEvent]), the
      contract of the browser ([valid_event]) and the states that can be reached
      ([session]).  [Promises]: the promises of a page in a session; [WellFormed]:
      the shape of its state.  [StreamsFresh] (the streams made for display are not those that
      are shared) and [SessionSafety] have the invariant.
    - [Assignments], [CallMedia]: the abstract account of which user's frames are
      expected on which [mid], and frames from page to page.
    - [Capture]: [actions/MediaActions.ts]: asynchronous functions as trees of steps
      and requests ([task]), and how they settle ([settles]).
    - [Devices]: [components/DeviceDropdown.tsx].  [JoinForm], [JoinSafety]:
      [components/Media.tsx], the form that joins a call.  [Videos]:
      [components/Videos.tsx] and [Video.tsx].  [Screen], [ScreenSafety]:
      [components/App.tsx], [Toolbar.tsx], [Input.tsx]: their states and handlers.
      [UiSession]: what the user presses and types, as events.  [Desk]: sessions of
      the page with all of these parts and the functions that wait for the browser.
    - [RecordPeer]: the peer connected to the recording server
      ([reducers/streams.ts], [initializePeer]).
    - [ServerRoom]: the server's part of a call ([server/mesh.go],
      [server/memoryadapter.go], [server/wssub.go]): the shared room, and one handler
      per client that stops wherever a lock is taken or given back.  [Mesh]: any
      number of pages, the server, and the sockets between them, as one transition
      function on a list of events.  [MeshPages]: what a page makes of the server's
      list of users; [MeshCalm]: the events of a page that leave its connections as they
      are; [MeshRoom]: the state of a room that users join and leave, and
      what keeps it; [MeshCall]: how its calls form; [Signalling]: what holds in
      every room.
    - [Dom]: trees of elements with the handlers of their events, what a click or a
      key reaches, the small components ([ToolbarButton.tsx], [Backdrop.tsx],
      [Dropdown.tsx], [Alerts.tsx], [Message.tsx], [Unsupported.tsx]) and
      [features.ts].  [Views]: the [render] function of every other component, from
      [Toolbar.tsx] to [App.tsx].  [Display]: the page as its user has it, with the
      tiles that are mounted, and what the rendered elements let the user do.
      [ViewsSafety], [Tiles], [ChatScreen]: the theorems on what is rendered.

    ** How the parts interact

    A component dispatches an action; the store runs every reducer on it; the
    streams and peers reducers have effects besides, on the tracks and peers of
    [World] and on the codec, and through the codec on the worker, which is why
    they are written in [eff].  The other reducers are pure functions.  Media
    frames go through the worker without touching the store.  Text and files go
    through [Encoder] into the data channel of each peer, and through the
    [Decoder] of that peer at the other end.

    An operation of the page runs to its end, or to an exception, before the next
    one starts; what it leaves for later (a promise's callbacks, a timer, the
    encoder's worker) is a separate event.  A theorem about a session therefore
    holds for every interleaving of these events.  In a room the events of all pages,
    the steps of all handlers of the server and the arrival of messages interleave
    freely too; only the order on each socket is kept.  The handlers in rendered
    elements are lists of commands, which [Display] runs on the same page the other
    files speak of.  An [async] function of a
    component is cut at its [await]s ([JoinForm]), or is a [task] ([Capture]).

    ** What the theorems show

    - Sessions ([SessionSafety], [WellFormed], [Desk], [Videos]): in every state a session can
      reach the tracks on display are those associated with a user, each shown once
      and on one tile; the streams of every sender that [addTrack] of a peer returns are
      taken from the browser, if it gives them, and handed to the worker for
      encryption; what the page shares is not among what it displays; and the state
      has its shape.
    - Rooms ([MeshCall], [Signalling]): from any state of a room that users join one
      after the other, and leave when they like by hanging up or closing the page,
      and in which no connection between two who stay closes or fails, the server and
      the pages come by themselves to where every two of those still there are
      connected, with one initiator each, and have each other's tile; two that join
      at the same time may be left with two initiators or none, two whose connection
      was lost are left with none when someone else joins, and one that comes back
      before the others have noticed is left with no connection; and signals are
      passed on once, in order and under the right name.
    - The screen ([ViewsSafety], [Tiles], [ChatScreen]): what the elements on the
      screen let a user do is what is written down as allowed, and no more; when the
      toolbar shows the closed lock no frame leaves in clear from a worker that has
      handled what it was posted; the [video] element of each tile plays its stream,
      as long as the tiles' keys differ; what is typed in the text area of one
      page is in the chat of the other; and the button that sends a file also sends
      what is in the text area.
    - Chat ([ChatLine], [ChatScreen], [EncoderShim]): between two pages that are
      connected, whatever else they do, the chat is a queue: messages are shown in
      order and each once, and while the channel is open what has been sent arrives;
      and where the browser has no worker the encoder does the same without one.
    - The recording peer ([RecordPeer]): only the first of its signals reaches the
      recording server, whose answer reaches it.
    - Chunked messages ([Codec]): headers decode what was encoded and encode what
      was decoded; every message of less than 2^32 chunks is delivered once, whole
      and in order of completion, whatever the interleaving of senders, and the
      worker that runs the codec answers each request once.
    - Encrypted frames ([FrameSecurity]): a frame sent under a password comes out
      as it was for a receiver with the password; with a password set no frame
      goes out in clear; the keys in use are those of the current password and of
      the peers that are known; what happens to frames that race with a change of
      password, and one case in which a key outlives its password.
      [Assignments]: the worker's contexts implement an abstract account of its
      messages.  [CallMedia]: frames from page to page, and the connections whose
      numbers collide.
    - The codec object ([InsertableCodec], [CodecWorker]): each stream is handed over
      once; the worker's password, pipes and users are those of the page's calls; and
      the swallowed failure.
    - Streams on display ([StreamsSafety], [StreamsLocal]): in every reachable
      state the tracks shown are those associated with a user, each shown once;
      metadata, removals and departures change exactly what they name; hanging up
      stops everything; local streams are replaced; and the two ways in which the
      toggled recording flag goes wrong.
    - Peers ([PeersSafety]): a new stream reaches every peer; switching a track.
    - Calls ([CallSafety], [JoinSafety]): who is connected to whom after the server's
      list of users; what becomes of a dial; joining a call from the form to the
      tracks sent to everyone; what a second click on the button does; recordings
      that start again, and are toggled when they should be set.
    - Capture and devices ([Capture], [Devices]): the stream asked for to learn the
      devices' names is released; what choosing a device does, and the choice that
      is shown but not sent.
    - The screen ([ScreenSafety]): unread messages, and the camera that stays on.
    - The page's own state ([Media], [Users], [Notices]) and the socket ([Ws]).

    ** Conventions

    - A JavaScript object used as a map is a [gmap]; inherited keys (such as
      [constructor]) are not modelled, and an entry whose value is [undefined] is
      left out where the code does not tell the two apart.  The order in which
      [Object.keys] and lodash's [forEach] visit keys is a parameter wherever it
      can matter.
    - Reducer states have value semantics; what is shared and mutated (tracks of a
      [MediaStream], arrays of recorders, the module variables of
      [reducers/streams.ts]) lives in [World] and is referred to by identity.
    - Lengths, counters and sizes that are stored in 16 or 32 bits wrap as they do
      in the code; other JavaScript numbers are [Z] (the values stay far below
      2^53).
    - Fuel: only [Encoder.encode] needs it; it is given one unit more than the
      number of bytes to send, and every chunk sends at least one byte, so that it
      never runs out (proved with the totality of the worker).

    ** Parameters

    What is not under [src/] is an argument of the definitions that use it:
    [crypto.subtle] and the random initialisation vectors; [TextEncoder] and
    [TextDecoder]; lodash; [RTCRtpSender.createEncodedStreams]; simple-peer and the
    media interfaces of the browser (class [Platform]); JSON (class [JSON]); the
    formatting of dates, and the room, user and exception messages of the document
    (class [Window]); which media interfaces the browser has ([Navigator], [Browser])
    and what it answers to a request, which is a relation; [btoa]; the packages
    classnames, react-transition-group and screenfull (classes [ClassNames] and
    [Packages]); the order in which Go iterates over a map ([GoMaps]); the answers of
    the recording service.  A theorem that depends on what
    one of them does has it as a hypothesis (decryption inverts encryption; decoding
    inverts encoding; calls on peers succeed; a data channel that has closed stays
    closed, and to send something does not close it) and a witness in which a concrete
    function satisfies it.

    ** Not modelled

    The containers and entry point ([containers/], [index.tsx]), which connect modelled
    parts to libraries; a test page and a TURN test the bundle does not contain
    ([index-simple.tsx], [debug/]); focus, scrolling, transitions and the
    sizes of tiles, which the browser computes; logging; the type declarations and
    the mocks; and the rest of the Go server: its HTTP handlers, the forwarding unit,
    the Redis adapter, which a mesh call does not need.

    ** What could come next

    [CallMedia] and [ChatLine] speak of two pages that are connected, not of how they
    came to be so in a room ([MeshCall]).  The general theorems on the rooms of
    [MeshCall] let connections be lost with users who have gone only: of one that
    closes between two who stay there is one run ([lost_connection]), and no
    statement for every such room. *)

From Stdlib Require Export ZArith Lia Strings.Byte Strings.Ascii.
From stdpp Require Export prelude numbers pretty strings gmap list.

#[export] Set Default Proof Using "Type".

(** * Scope and notation *)
Declare Scope meeting_scope.
Delimit Scope meeting_scope with meeting.
Open Scope meeting_scope.

(** * JavaScript completions: a value, or an exception *)
Inductive js_error :=
  | RangeError
  | TypeError
  | Error (message : string).

Inductive result (A : Type) :=
  | Ok (a : A)
  | Throw (e : js_error).
Arguments Ok {A} a.
Arguments Throw {A} e.

#[export] Instance js_error_eq_dec : EqDecision js_error.
Proof. solve_decision. Defined.
#[export] Instance result_eq_dec `{EqA : EqDecision A} : EqDecision (result A).
Proof. intros x y. unfold Decision. decide equality; [apply EqA|apply js_error_eq_dec]. Defined.

#[export] Instance result_ret : MRet result := fun A a => Ok a.
#[export] Instance result_bind : MBind result := fun A B f m =>
  match m with Ok a => f a | Throw e => Throw e end.
#[export] Instance result_fmap : FMap result := fun A B f m =>
  match m with Ok a => Ok (f a) | Throw e => Throw e end.

Lemma bind_Ok {A B} (a : A) (f : A → result B) : Ok a ≫= f = f a.
Proof. done. Qed.
Lemma bind_Throw {A B} e (f : A → result B) : Throw e ≫= f = Throw e.
Proof. done. Qed.

Lemma result_bind_ok {A B} (m : result A) (f : A → result B) b :
  m ≫= f = Ok b ↔ ∃ a, m = Ok a ∧ f a = Ok b.
Proof. destruct m; cbn; split; [by eauto|by intros (?&[= ->]&?)|done|by intros (?&?&?)]. Qed.

(** * Lists *)

(** [n] distinct numbers below [n] are all of them. *)
Lemma NoDup_bounded_full (l : list nat) n :
  NoDup l → (∀ j, j ∈ l → j < n) → length l = n → ∀ i, i < n → i ∈ l.
Proof.
  intros Hnd Hlt Hlen i Hi.
  assert (l ≡ₚ seq 0 n) as ->.
  { apply submseteq_length_Permutation.
    - apply NoDup_submseteq; [done|]. intros j Hj.
      apply elem_of_seq. specialize (Hlt j Hj). lia.
    - rewrite length_seq. lia. }
  apply elem_of_seq. lia.
Qed.

(** Removing one entry keeps the others. *)
Lemma elem_of_concat_map {A B} (f : A → list B) l x :
  x ∈ concat (map f l) ↔ ∃ y, y ∈ l ∧ x ∈ f y.
Proof.
  induction l as [|z l IH]; cbn; [set_solver|]. rewrite elem_of_app, IH. set_solver.
Qed.

Lemma elem_of_delete {A} (l : list A) i x : x ∈ delete i l → x ∈ l.
Proof. intros Hx. eapply elem_of_sublist; [done|]. apply sublist_delete. Qed.

Lemma elem_of_delete_ne {A} (l : list A) i x y :
  l !! i = Some y → x ≠ y → x ∈ l → x ∈ delete i l.
Proof.
  intros Hi Hne Hx. rewrite (delete_Permutation l i y Hi) in Hx.
  by apply elem_of_cons in Hx as [->|?].
Qed.

(** An invariant of the steps is one of the loop. *)
Lemma foldl_invariant {A B} (P : B → Prop) (f : B → A → B) l b :
  (∀ b x, x ∈ l → P b → P (f b x)) → P b → P (foldl f b l).
Proof.
  revert b. induction l as [|x l IH]; intros b Hf Hb; [done|]. cbn.
  apply IH; [|by apply Hf; [left|]]. intros b' y Hy. apply Hf. by right.
Qed.

(** * Strings *)

Fixpoint has_char (c : Ascii.ascii) (s : string) : bool :=
  match s with
  | EmptyString => false
  | String c' s => bool_decide (c = c') || has_char c s
  end.

Lemma string_app_cons x s t : String x s +:+ t = String x (s +:+ t).
Proof. done. Qed.
Lemma string_app_nil t : EmptyString +:+ t = t.
Proof. done. Qed.

Lemma has_char_middle c s a : has_char c (s +:+ String c a) = true.
Proof.
  induction s as [|x s IH].
  - rewrite string_app_nil. cbn [has_char]. by rewrite bool_decide_true.
  - rewrite string_app_cons. cbn [has_char]. by rewrite IH, orb_true_r.
Qed.

(** What follows the last separator determines the split. *)
Lemma last_separator_inj c s1 s2 t1 t2 :
  has_char c t1 = false → has_char c t2 = false →
  s1 +:+ String c t1 = s2 +:+ String c t2 → s1 = s2 ∧ t1 = t2.
Proof.
  intros H1 H2. revert s2.
  induction s1 as [|x s1 IH]; intros [|y s2]; intros Heq;
    rewrite ?string_app_cons, ?string_app_nil in Heq.
  - by injection Heq.
  - injection Heq as -> Heq. subst. by rewrite has_char_middle in H1.
  - injection Heq as -> Heq. subst. by rewrite has_char_middle in H2.
  - injection Heq as -> Heq. destruct (IH s2 Heq) as [-> ->]. done.
Qed.

Definition is_digit (c : Ascii.ascii) : bool :=
  let n := Ascii.nat_of_ascii c in (48 <=? n) && (n <=? 57).

Lemma has_char_pretty_N_char c x : is_digit c = false → c ≠ pretty_N_char x.
Proof. intros Hc ->. revert Hc. unfold pretty_N_char. by repeat case_match. Qed.

(** Decimal numerals contain nothing but digits. *)
Lemma has_char_pretty_N c (n : N) :
  is_digit c = false →
  has_char c (pretty n) = false.
Proof.
  intros Hc.
  assert (∀ n s, has_char c s = false → has_char c (pretty_N_go n s) = false) as Hgo.
  { intros x. induction (N.lt_wf_0 x) as [x _ IH]; intros s Hs.
    assert (x = 0 ∨ 0 < x)%N as [->|Hx] by lia; [done|].
    rewrite pretty_N_go_step by done. apply IH; [by apply N.div_lt|].
    cbn. rewrite Hs, orb_false_r. apply bool_decide_false.
    by apply has_char_pretty_N_char. }
  unfold pretty, pretty_N. case_decide; [|by apply Hgo].
  cbn. rewrite orb_false_r. apply bool_decide_false.
  by apply (has_char_pretty_N_char c 0).
Qed.

Lemma has_char_pretty_Z c (z : Z) :
  is_digit c = false → (0 <= z)%Z →
  has_char c (pretty z) = false.
Proof.
  intros Hc Hz. destruct z as [|p|p]; [|exact (has_char_pretty_N c (Npos p) Hc)|lia].
  exact (has_char_pretty_N c 0 Hc).
Qed.
