(* ===== verification/Numbers.v ===== *)
(** JavaScript numbers as the code uses them: the 32-bit bitwise operators
    ([&], [|], [<<], [>>]), which convert their operands with ToInt32, and
    [Math.ceil] of a quotient of integers.  A JS number that the code keeps
    integral is a [Z]. *)

From S2P Require Import Prelude.

#[local] Open Scope Z_scope.

(** ToInt32: the signed 32-bit integer congruent to [z] modulo [2^32]. *)
Definition to_int32 (z : Z) : Z := (z + 2 ^ 31) mod 2 ^ 32 - 2 ^ 31.

Definition js_and (a b : Z) : Z := Z.land (to_int32 a) (to_int32 b).
Definition js_or (a b : Z) : Z := Z.lor (to_int32 a) (to_int32 b).
Definition js_shl (a n : Z) : Z := to_int32 (Z.shiftl (to_int32 a) (n mod 32)).
Definition js_shr (a n : Z) : Z := Z.shiftr (to_int32 a) (n mod 32).

(** [Math.ceil(a / b)] for integers [0 <= a < 2^53] and [0 < b]: in that range
    the rounding of the floating-point quotient never crosses an integer. *)
Definition math_ceil_div (a b : Z) : Z := - ((- a) / b).

(** ** ToInt32 *)

Lemma to_int32_small z : - 2 ^ 31 <= z < 2 ^ 31 → to_int32 z = z.
Proof. intros H. unfold to_int32. rewrite Z.mod_small; lia. Qed.

Lemma to_int32_range z : - 2 ^ 31 <= to_int32 z < 2 ^ 31.
Proof.
  unfold to_int32. pose proof (Z.mod_pos_bound (z + 2 ^ 31) (2 ^ 32)). lia.
Qed.

Lemma to_int32_mod z n : 0 <= n <= 32 → to_int32 z mod 2 ^ n = z mod 2 ^ n.
Proof.
  intros Hn. unfold to_int32.
  rewrite Zminus_mod, Z.mod_mod_divide, <-Zminus_mod.
  - f_equal. lia.
  - exists (2 ^ (32 - n)). rewrite <-Z.pow_add_r by lia. f_equal. lia.
Qed.

(** ToInt32 agrees with its argument on the low 32 bits. *)
Lemma to_int32_testbit z i : 0 <= i < 32 → Z.testbit (to_int32 z) i = Z.testbit z i.
Proof.
  intros Hi. rewrite <-(Z.mod_pow2_bits_low (to_int32 z) 32 i), to_int32_mod by lia.
  apply Z.mod_pow2_bits_low. lia.
Qed.

(** Masking with a non-negative 31-bit constant only sees the low bits. *)
Lemma js_and_mask z m :
  0 <= m < 2 ^ 31 → js_and z m = Z.land z m.
Proof.
  intros Hm. unfold js_and. rewrite (to_int32_small m) by lia.
  apply Z.bits_inj'. intros i Hi. rewrite !Z.land_spec.
  destruct (decide (i < 32)).
  - by rewrite to_int32_testbit by lia.
  - assert (Z.testbit m i = false) as ->.
    { apply Z.bits_above_log2; [lia|]. destruct (decide (m = 0)) as [->|]; [simpl; lia|].
      apply Z.log2_lt_pow2; [lia|]. pose proof (Z.pow_le_mono_r 2 31 i). lia. }
    by rewrite !andb_false_r.
Qed.

(** [a | b] of numbers with no bit in common is their sum. *)
Lemma lor_disjoint a b k :
  0 <= k → a mod 2 ^ k = 0 → 0 <= b < 2 ^ k → Z.lor a b = a + b.
Proof.
  intros Hk Ha Hb. symmetry. apply Z.add_nocarry_lor.
  apply Z.bits_inj'. intros i Hi. rewrite Z.land_spec, Z.testbit_0_l.
  destruct (decide (i < k)).
  - rewrite <-(Z.mod_pow2_bits_low a k), Ha by lia. by rewrite Z.testbit_0_l.
  - rewrite <-(Z.mod_small b (2 ^ k)), Z.mod_pow2_bits_high by lia.
    by rewrite andb_false_r.
Qed.

(** The shift and the disjunction are exact when nothing reaches the sign bit. *)
Lemma js_shl_small b n :
  0 <= n < 32 → 0 <= b < 2 ^ 31 → b * 2 ^ n < 2 ^ 31 → js_shl b n = b * 2 ^ n.
Proof.
  intros Hn Hb Hbn. unfold js_shl.
  rewrite (Z.mod_small n), Z.shiftl_mul_pow2, (to_int32_small b) by lia.
  apply to_int32_small. pose proof (Z.pow_pos_nonneg 2 n). nia.
Qed.

Lemma js_or_small a b n :
  0 <= n → a mod 2 ^ n = 0 → 0 <= b < 2 ^ n → 0 <= a < 2 ^ 31 → b < 2 ^ 31 →
  js_or a b = a + b.
Proof.
  intros. unfold js_or. rewrite !to_int32_small by lia. by apply (lor_disjoint _ _ n).
Qed.

(** ** Ceiling division *)

Lemma math_ceil_div_spec a b :
  0 < b → b * (math_ceil_div a b - 1) < a <= b * math_ceil_div a b.
Proof.
  intros Hb. unfold math_ceil_div.
  pose proof (Z.div_mod (- a) b). pose proof (Z.mod_pos_bound (- a) b). nia.
Qed.

Lemma math_ceil_div_unique a b q :
  0 < b → b * (q - 1) < a <= b * q → math_ceil_div a b = q.
Proof. intros Hb Hq. pose proof (math_ceil_div_spec a b Hb). nia. Qed.

Lemma math_ceil_div_pos a b : 0 < b → 0 < a → 0 < math_ceil_div a b.
Proof. intros Hb Ha. pose proof (math_ceil_div_spec a b Hb). nia. Qed.
