(* ===== verification/Bytes.v ===== *)
(** [Uint8Array] as the code uses it: a fixed-length list of bytes, stores that
    convert with ToUint8, reads that give [undefined] (0 under a bitwise
    operator) out of range, and the [slice] and [set] methods. *)

From S2P Require Import Prelude Numbers.

#[local] Open Scope Z_scope.

Abbreviation u8array := (list byte).

(** ** Bytes and numbers *)

(** The number an element read gives. *)
Definition u8_to_Z (b : byte) : Z := Z.of_N (Byte.to_N b).

(** The byte a store keeps (ToUint8: modulo 256). *)
Definition u8_of_Z (z : Z) : byte :=
  default x00 (Byte.of_N (Z.to_N (z mod 256))).

Lemma u8_to_Z_range b : 0 <= u8_to_Z b < 256.
Proof. unfold u8_to_Z. pose proof (Byte.to_N_bounded b). lia. Qed.

Lemma u8_to_of_Z z : u8_to_Z (u8_of_Z z) = z mod 256.
Proof.
  unfold u8_to_Z, u8_of_Z.
  pose proof (Z.mod_pos_bound z 256 ltac:(lia)) as Hb.
  destruct (Byte.of_N (Z.to_N (z mod 256))) as [b|] eqn:E; cbn.
  - apply Byte.to_of_N in E. lia.
  - apply Byte.of_N_None_iff in E. lia.
Qed.

Lemma u8_of_to_Z b : u8_of_Z (u8_to_Z b) = b.
Proof.
  unfold u8_of_Z, u8_to_Z. pose proof (Byte.to_N_bounded b).
  rewrite Z.mod_small by lia. by rewrite N2Z.id, Byte.of_to_N.
Qed.

#[export] Instance u8_to_Z_inj : Inj (=) (=) u8_to_Z.
Proof. intros a b H. by rewrite <-(u8_of_to_Z a), H, u8_of_to_Z. Qed.

#[export] Instance byte_eq_dec : EqDecision byte := Byte.byte_eq_dec.

(** ** Typed-array operations *)

(** [a.length]. *)
Definition u8_length (a : u8array) : Z := Z.of_nat (length a).

(** [new Uint8Array(n)]: zeroed; a negative length is a RangeError. *)
Definition u8_new (n : Z) : result u8array :=
  if decide (n < 0) then Throw RangeError else Ok (replicate (Z.to_nat n) x00).

(** [a[i]] as the operand of a bitwise operator: [undefined] converts to 0. *)
Definition u8_get (a : u8array) (i : nat) : Z := from_option u8_to_Z 0 (a !! i).

(** A relative index of [slice]: negative counts from the end, clamped. *)
Definition rel_index (len i : Z) : Z :=
  if decide (i < 0) then Z.max (len + i) 0 else Z.min i len.

(** [a.slice(start, end)]. *)
Definition u8_slice (a : u8array) (start stop : Z) : u8array :=
  let s := rel_index (u8_length a) start in
  let e := rel_index (u8_length a) stop in
  take (Z.to_nat (e - s)) (drop (Z.to_nat s) a).

(** [a.slice(start)]. *)
Definition u8_slice_from (a : u8array) (start : Z) : u8array :=
  u8_slice a start (u8_length a).

(** [a.set(src, offset)]: RangeError when the source does not fit. *)
Definition u8_set (a src : u8array) (offset : Z) : result u8array :=
  if decide (offset < 0 ∨ u8_length a < offset + u8_length src)
  then Throw RangeError
  else Ok (take (Z.to_nat offset) a ++ src
             ++ drop (Z.to_nat offset + length src) a).

(** ** Laws *)

Lemma u8_length_nonneg a : 0 <= u8_length a.
Proof. unfold u8_length. lia. Qed.

Lemma u8_new_ok n : 0 <= n → u8_new n = Ok (replicate (Z.to_nat n) x00).
Proof. intros. unfold u8_new. by rewrite decide_False by lia. Qed.

Lemma u8_slice_nonneg (a : u8array) (s e : nat) :
  (s <= e)%nat →
  u8_slice a (Z.of_nat s) (Z.of_nat e) = take (e - s) (drop s a).
Proof.
  intros Hse. unfold u8_slice, rel_index, u8_length.
  rewrite !decide_False by lia.
  destruct (decide (s <= length a)%nat) as [Hs|Hs].
  - rewrite (Z.min_l (Z.of_nat s)) by lia. rewrite Nat2Z.id.
    destruct (decide (e <= length a)%nat).
    + rewrite Z.min_l by lia. f_equal. lia.
    + rewrite Z.min_r by lia.
      rewrite !take_ge by (rewrite length_drop; lia). done.
  - rewrite !Z.min_r by lia. rewrite !drop_ge by lia. by rewrite !take_nil.
Qed.

Lemma u8_slice_from_nonneg (a : u8array) (s : nat) :
  u8_slice_from a (Z.of_nat s) = drop s a.
Proof.
  unfold u8_slice_from. destruct (decide (s <= length a)%nat).
  - unfold u8_length at 1. rewrite u8_slice_nonneg by lia.
    apply take_ge. rewrite length_drop. lia.
  - unfold u8_slice, rel_index, u8_length. rewrite !decide_False by lia.
    rewrite !Z.min_r by lia. by rewrite !drop_ge, take_nil by lia.
Qed.

(** A store that fits: the length is kept, and every element is either the
    source's or the old one. *)
Lemma u8_set_ok (a src : u8array) (off : nat) :
  (off + length src <= length a)%nat →
  u8_set a src (Z.of_nat off)
  = Ok (take off a ++ src ++ drop (off + length src) a).
Proof.
  intros H. unfold u8_set, u8_length.
  rewrite decide_False by lia. by rewrite Nat2Z.id.
Qed.

Lemma u8_set_length a src off a' :
  u8_set a src off = Ok a' → length a' = length a.
Proof.
  unfold u8_set, u8_length. case_decide; [done|]. intros [= <-].
  rewrite !length_app, length_take, length_drop. lia.
Qed.

Lemma u8_write_lookup (a src : u8array) (off p : nat) :
  (off + length src <= length a)%nat →
  (take off a ++ src ++ drop (off + length src) a) !! p
  = if decide (off <= p < off + length src)%nat then src !! (p - off)%nat
    else a !! p.
Proof.
  intros H. assert (length (take off a) = off) as Hlen.
  { rewrite length_take. lia. }
  case_decide.
  - rewrite lookup_app_r by lia. rewrite lookup_app_l by lia. by rewrite Hlen.
  - destruct (decide (p < off)%nat).
    + rewrite lookup_app_l by lia. by apply lookup_take_lt.
    + rewrite lookup_app_r, lookup_app_r, lookup_drop by lia.
      f_equal. lia.
Qed.

(** Writing just behind what has been written so far. *)
Lemma u8_set_append (a src : u8array) n off :
  off = u8_length a → (length src <= n)%nat →
  u8_set (a ++ replicate n x00) src off
  = Ok ((a ++ src) ++ replicate (n - length src) x00).
Proof.
  intros -> H. unfold u8_length.
  rewrite u8_set_ok by (rewrite length_app, length_replicate; lia).
  rewrite take_app_length, drop_app_ge, drop_replicate by lia.
  rewrite <-app_assoc. do 4 f_equal. lia.
Qed.

Lemma u8_set_append_nil (src : u8array) n :
  (length src <= n)%nat →
  u8_set (replicate n x00) src 0 = Ok (src ++ replicate (n - length src) x00).
Proof. intros. by apply (u8_set_append [] src n). Qed.
