(* ===== verification/Header.v ===== *)
(** The chunk header of the data-channel codec
    ([src/client/codec/header.ts]): sixteen bytes, big-endian, four 16-bit
    fields and two 31-bit ones. *)

From S2P Require Import Prelude Numbers Bytes.

#[local] Open Scope Z_scope.

Definition headerSizeBytes : Z := 16.

Record Header := {
  messageId : Z;
  chunkNum : Z;
  totalChunks : Z;
  senderIdSizeBytes : Z;
  chunkSizeBytes : Z;
  totalSizeBytes : Z;
}.

#[export] Instance Header_eq_dec : EqDecision Header.
Proof. solve_decision. Defined.

(** [data[i] = v] for [i = 0 .. 15] on a fresh [Uint8Array(16)]. *)
Definition encodeHeader (h : Header) : u8array :=
  map u8_of_Z [
    js_shr (js_and (messageId h) 0xFF00) 8;
    js_and (messageId h) 0x00FF;
    js_shr (js_and (chunkNum h) 0xFF00) 8;
    js_and (chunkNum h) 0x00FF;
    js_shr (js_and (totalChunks h) 0xFF00) 8;
    js_and (totalChunks h) 0x00FF;
    js_shr (js_and (senderIdSizeBytes h) 0xFF00) 8;
    js_and (senderIdSizeBytes h) 0x00FF;
    js_shr (js_and (chunkSizeBytes h) 0x7F000000) 24;
    js_shr (js_and (chunkSizeBytes h) 0x00FF0000) 16;
    js_shr (js_and (chunkSizeBytes h) 0x0000FF00) 8;
    js_and (chunkSizeBytes h) 0x000000FF;
    js_shr (js_and (totalSizeBytes h) 0x7F000000) 24;
    js_shr (js_and (totalSizeBytes h) 0x00FF0000) 16;
    js_shr (js_and (totalSizeBytes h) 0x0000FF00) 8;
    js_and (totalSizeBytes h) 0x000000FF ].

Definition decodeHeader (data : u8array) : Header :=
  let d := u8_get data in
  {| messageId := js_or (js_shl (d 0%nat) 8) (d 1%nat);
     chunkNum := js_or (js_shl (d 2%nat) 8) (d 3%nat);
     totalChunks := js_or (js_shl (d 4%nat) 8) (d 5%nat);
     senderIdSizeBytes := js_or (js_shl (d 6%nat) 8) (d 7%nat);
     chunkSizeBytes :=
       js_or (js_or (js_or (js_shl (d 8%nat) 24) (js_shl (d 9%nat) 16))
                    (js_shl (d 10%nat) 8)) (d 11%nat);
     totalSizeBytes :=
       js_or (js_or (js_or (js_shl (d 12%nat) 24) (js_shl (d 13%nat) 16))
                    (js_shl (d 14%nat) 8)) (d 15%nat) |}.

#[global] Arguments encodeHeader : simpl never.
#[global] Arguments decodeHeader : simpl never.

(** What survives of a header: the 16-bit fields modulo [2^16], the sizes
    modulo [2^31]. *)
Definition truncate_header (h : Header) : Header :=
  {| messageId := messageId h mod 2 ^ 16;
     chunkNum := chunkNum h mod 2 ^ 16;
     totalChunks := totalChunks h mod 2 ^ 16;
     senderIdSizeBytes := senderIdSizeBytes h mod 2 ^ 16;
     chunkSizeBytes := chunkSizeBytes h mod 2 ^ 31;
     totalSizeBytes := totalSizeBytes h mod 2 ^ 31 |}.

(** The headers the format can represent. *)
Definition header_fits (h : Header) : Prop :=
  0 <= messageId h < 2 ^ 16 ∧ 0 <= chunkNum h < 2 ^ 16 ∧
  0 <= totalChunks h < 2 ^ 16 ∧ 0 <= senderIdSizeBytes h < 2 ^ 16 ∧
  0 <= chunkSizeBytes h < 2 ^ 31 ∧ 0 <= totalSizeBytes h < 2 ^ 31.

#[export] Instance header_fits_dec h : Decision (header_fits h).
Proof. unfold header_fits. apply _. Defined.

(** ** Field arithmetic *)

(** Taking a byte of a number: [(z & (mask << k)) >> k]. *)
Lemma js_byte_mask z w k :
  0 <= w <= 8 → 0 <= k → k + w <= 31 →
  js_shr (js_and z (Z.shiftl (Z.ones w) k)) k = (z / 2 ^ k) mod 2 ^ w.
Proof.
  intros Hw Hk Hkw.
  assert (2 ^ k * 2 ^ w <= 2 ^ 31) as Hp.
  { rewrite <-Z.pow_add_r by lia. apply Z.pow_le_mono_r; lia. }
  pose proof (Z.pow_pos_nonneg 2 k). pose proof (Z.pow_pos_nonneg 2 w).
  pose proof (Z.mod_pos_bound (z / 2 ^ k) (2 ^ w)) as Hb.
  assert (Z.land z (Z.shiftl (Z.ones w) k) = (z / 2 ^ k) mod 2 ^ w * 2 ^ k) as Hl.
  { rewrite <-Z.shiftr_div_pow2, <-Z.land_ones, <-Z.shiftl_mul_pow2 by lia.
    apply Z.bits_inj'. intros i Hi.
    rewrite Z.land_spec, !Z.shiftl_spec, Z.land_spec by lia.
    destruct (decide (i < k)).
    - rewrite !(Z.testbit_neg_r _ (i - k)) by lia. by rewrite andb_false_r.
    - rewrite Z.shiftr_spec by lia. do 2 f_equal. lia. }
  assert (0 <= Z.shiftl (Z.ones w) k < 2 ^ 31).
  { rewrite Z.shiftl_mul_pow2, Z.ones_equiv by lia. nia. }
  assert (0 <= (z / 2 ^ k) mod 2 ^ w * 2 ^ k < 2 ^ 31).
  { assert ((z / 2 ^ k) mod 2 ^ w * 2 ^ k <= (2 ^ w - 1) * 2 ^ k)
      by (apply Z.mul_le_mono_nonneg_r; lia).
    split; [apply Z.mul_nonneg_nonneg; lia | lia]. }
  unfold js_shr. rewrite js_and_mask, Hl, to_int32_small, (Z.mod_small k 32) by lia.
  by rewrite Z.shiftr_div_pow2, Z.div_mul by lia.
Qed.

Lemma js_low_byte z : js_and z 0xFF = z mod 2 ^ 8.
Proof. rewrite js_and_mask by lia. by apply (Z.land_ones z 8). Qed.

(** Reading two bytes back. *)
Lemma js_be16 b1 b0 :
  0 <= b1 < 2 ^ 8 → 0 <= b0 < 2 ^ 8 → js_or (js_shl b1 8) b0 = b1 * 2 ^ 8 + b0.
Proof.
  intros H1 H0. rewrite js_shl_small by lia.
  apply (js_or_small _ _ 8); try lia; Z.div_mod_to_equations; lia.
Qed.

(** Reading four bytes back, the sign bit being clear. *)
Lemma js_be32 b3 b2 b1 b0 :
  0 <= b3 < 2 ^ 7 → 0 <= b2 < 2 ^ 8 → 0 <= b1 < 2 ^ 8 → 0 <= b0 < 2 ^ 8 →
  js_or (js_or (js_or (js_shl b3 24) (js_shl b2 16)) (js_shl b1 8)) b0
  = b3 * 2 ^ 24 + b2 * 2 ^ 16 + b1 * 2 ^ 8 + b0.
Proof.
  intros H3 H2 H1 H0. rewrite !js_shl_small by lia.
  rewrite (js_or_small (b3 * 2 ^ 24) _ 24),
    (js_or_small (b3 * 2 ^ 24 + b2 * 2 ^ 16) _ 16), (js_or_small _ b0 8);
    try lia; Z.div_mod_to_equations; lia.
Qed.

Lemma u8_get_list (l : list Z) i z :
  l !! i = Some z → u8_get (map u8_of_Z l) i = z mod 256.
Proof.
  intros H. unfold u8_get. change (map u8_of_Z l) with (u8_of_Z <$> l).
  rewrite list_lookup_fmap, H. apply u8_to_of_Z.
Qed.

(** ** Round trips *)

Lemma encodeHeader_length h : length (encodeHeader h) = 16%nat.
Proof. reflexivity. Qed.

(** A 16-bit field, written as two bytes and read back. *)
Lemma field16_roundtrip z :
  js_or (js_shl (js_shr (js_and z 0xFF00) 8 mod 256) 8) (js_and z 0x00FF mod 256)
  = z mod 2 ^ 16.
Proof.
  pose proof (js_byte_mask z 8 8 ltac:(lia) ltac:(lia) ltac:(lia)) as H1.
  change (Z.shiftl (Z.ones 8) 8) with 0xFF00 in H1.
  rewrite H1, js_low_byte. change 256 with (2 ^ 8). rewrite !Z.mod_mod by lia.
  rewrite js_be16 by (apply Z.mod_pos_bound; lia).
  Z.div_mod_to_equations. lia.
Qed.

(** A 31-bit field, written as four bytes and read back. *)
Lemma field32_roundtrip z :
  js_or (js_or (js_or (js_shl (js_shr (js_and z 0x7F000000) 24 mod 256) 24)
                      (js_shl (js_shr (js_and z 0x00FF0000) 16 mod 256) 16))
               (js_shl (js_shr (js_and z 0x0000FF00) 8 mod 256) 8))
        (js_and z 0x000000FF mod 256)
  = z mod 2 ^ 31.
Proof.
  pose proof (js_byte_mask z 7 24 ltac:(lia) ltac:(lia) ltac:(lia)) as H3.
  pose proof (js_byte_mask z 8 16 ltac:(lia) ltac:(lia) ltac:(lia)) as H2.
  pose proof (js_byte_mask z 8 8 ltac:(lia) ltac:(lia) ltac:(lia)) as H1.
  change (Z.shiftl (Z.ones 7) 24) with 0x7F000000 in H3.
  change (Z.shiftl (Z.ones 8) 16) with 0x00FF0000 in H2.
  change (Z.shiftl (Z.ones 8) 8) with 0x0000FF00 in H1.
  rewrite H1, H2, H3, js_low_byte. change 256 with (2 ^ 8). rewrite !Z.mod_mod by lia.
  rewrite (Z.mod_small ((z / 2 ^ 24) mod 2 ^ 7) (2 ^ 8))
    by (pose proof (Z.mod_pos_bound (z / 2 ^ 24) (2 ^ 7)); lia).
  rewrite js_be32 by (apply Z.mod_pos_bound; lia).
  Z.div_mod_to_equations. lia.
Qed.

(** Decoding an encoded header gives the header back with its fields truncated
    to their widths: nothing else is lost, whatever the field values. *)
Theorem decodeHeader_encodeHeader h :
  decodeHeader (encodeHeader h) = truncate_header h.
Proof.
  unfold decodeHeader, encodeHeader, truncate_header. cbv zeta.
  repeat (erewrite u8_get_list by reflexivity).
  by rewrite !field16_roundtrip, !field32_roundtrip.
Qed.

Lemma truncate_header_fits h : header_fits h → truncate_header h = h.
Proof.
  unfold header_fits, truncate_header. intros (?&?&?&?&?&?).
  rewrite !Z.mod_small by done. by destruct h.
Qed.

(** A header whose fields fit survives the trip unchanged. *)
Lemma header_roundtrip h :
  header_fits h → decodeHeader (encodeHeader h) = h.
Proof. intros H. by rewrite decodeHeader_encodeHeader, truncate_header_fits. Qed.

(** Only the first sixteen bytes are read. *)
Lemma decodeHeader_app h rest :
  decodeHeader (encodeHeader h ++ rest) = decodeHeader (encodeHeader h).
Proof. reflexivity. Qed.

(** ** The other direction: every sixteen bytes with the two sign bits clear are
    the encoding of the header they decode to. *)

Lemma be16_bytes b1 b0 :
  0 <= b1 < 2 ^ 8 → 0 <= b0 < 2 ^ 8 →
  js_shr (js_and (js_or (js_shl b1 8) b0) 0xFF00) 8 = b1 ∧
  js_and (js_or (js_shl b1 8) b0) 0x00FF = b0.
Proof.
  intros H1 H0. rewrite js_be16, js_low_byte by done.
  pose proof (js_byte_mask (b1 * 2 ^ 8 + b0) 8 8 ltac:(lia) ltac:(lia) ltac:(lia)) as Hm.
  change (Z.shiftl (Z.ones 8) 8) with 0xFF00 in Hm. rewrite Hm.
  split; Z.div_mod_to_equations; lia.
Qed.

Lemma be32_bytes b3 b2 b1 b0 :
  0 <= b3 < 2 ^ 7 → 0 <= b2 < 2 ^ 8 → 0 <= b1 < 2 ^ 8 → 0 <= b0 < 2 ^ 8 →
  let z := js_or (js_or (js_or (js_shl b3 24) (js_shl b2 16)) (js_shl b1 8)) b0 in
  js_shr (js_and z 0x7F000000) 24 = b3 ∧ js_shr (js_and z 0x00FF0000) 16 = b2 ∧
  js_shr (js_and z 0x0000FF00) 8 = b1 ∧ js_and z 0x000000FF = b0.
Proof.
  intros H3 H2 H1 H0 z. subst z. rewrite js_be32, js_low_byte by done.
  set (z := b3 * _ + _ + _ + _).
  pose proof (js_byte_mask z 7 24 ltac:(lia) ltac:(lia) ltac:(lia)) as E3.
  pose proof (js_byte_mask z 8 16 ltac:(lia) ltac:(lia) ltac:(lia)) as E2.
  pose proof (js_byte_mask z 8 8 ltac:(lia) ltac:(lia) ltac:(lia)) as E1.
  change (Z.shiftl (Z.ones 7) 24) with 0x7F000000 in E3.
  change (Z.shiftl (Z.ones 8) 16) with 0x00FF0000 in E2.
  change (Z.shiftl (Z.ones 8) 8) with 0x0000FF00 in E1.
  rewrite E1, E2, E3. subst z.
  split_and!; Z.div_mod_to_equations; lia.
Qed.

Theorem encodeHeader_decodeHeader (d : u8array) :
  length d = 16%nat → u8_get d 8 < 128 → u8_get d 12 < 128 →
  encodeHeader (decodeHeader d) = d.
Proof.
  intros Hlen H8 H12.
  do 17 (destruct d as [|? d]; [try done|]); [|done].
  unfold encodeHeader, decodeHeader, u8_get in *; cbn [lookup list_lookup
    from_option messageId chunkNum totalChunks senderIdSizeBytes chunkSizeBytes
    totalSizeBytes] in *.
  repeat match goal with
  | |- context [js_or (js_shl (u8_to_Z ?a) 8) (u8_to_Z ?b)] =>
      destruct (be16_bytes (u8_to_Z a) (u8_to_Z b)) as [-> ->];
      [apply u8_to_Z_range..|]
  end.
  repeat match goal with
  | |- context [js_or (js_or (js_or (js_shl (u8_to_Z ?a) 24) (js_shl (u8_to_Z ?b) 16))
        (js_shl (u8_to_Z ?c) 8)) (u8_to_Z ?e)] =>
      destruct (be32_bytes (u8_to_Z a) (u8_to_Z b) (u8_to_Z c) (u8_to_Z e))
        as (-> & -> & -> & ->);
      [pose proof (u8_to_Z_range a); lia|apply u8_to_Z_range..|]
  end.
  simpl. by rewrite !u8_of_to_Z.
Qed.
