(* ===== verification/TextCodec.v ===== *)
(** The text codec ([src/client/textcodec.ts]) is the browser's [TextEncoder] and
    [TextDecoder] or a polyfill: code outside the repository, so a parameter.
    What the program relies on is that decoding undoes encoding on well-formed
    text (strings without lone surrogates). *)

From Stdlib Require Import Strings.String.
From S2P Require Import Prelude Bytes.

Class TextCodec := {
  text_encode : string → u8array;
  text_decode : u8array → string;
  well_formed : string → Prop;
  text_decode_encode s : well_formed s → text_decode (text_encode s) = s;
}.

(** A concrete codec: one byte per character, as both are on ASCII text. *)
Definition ascii_codec : TextCodec := {|
  text_encode := list_byte_of_string;
  text_decode := string_of_list_byte;
  well_formed _ := True;
  text_decode_encode s _ := string_of_list_byte_of_string s;
|}.
