(* ===== verification/Encoder.v ===== *)
(** The sending half of the data-channel codec ([src/client/codec/index.ts],
    [workerFunc] and [class Encoder]): a message is cut into chunks, each a
    header, the sender's id and a slice of the data. *)

From S2P Require Import Prelude Numbers Bytes Header TextCodec.

#[local] Open Scope Z_scope.

Definition maxMessageId : Z := 2 ^ 16.

(** ** Data *)

Record DataContainer := {
  dc_senderId : string;
  dc_data : u8array;
}.

Record WorkerPayload := {
  wp_messageId : Z;
  wp_maxMessageSizeBytes : Z;
  wp_data : u8array;
  wp_senderId : string;
  wp_senderIdBytes : u8array;
}.

(** The events the worker posts ([ChunkEvent | DoneEvent | ErrorEvent]). *)
Inductive EncoderEvent :=
  | ChunkEvent (messageId chunkNum totalChunks : Z) (senderId : string)
      (chunk : u8array)
  | DoneEvent (messageId : Z) (senderId : string)
  | ErrorEvent (messageId : Z) (senderId : string) (error : js_error).

#[export] Instance EncoderEvent_eq_dec : EqDecision EncoderEvent.
Proof. solve_decision. Defined.

Definition event_messageId (e : EncoderEvent) : Z :=
  match e with
  | ChunkEvent mid _ _ _ _ | DoneEvent mid _ | ErrorEvent mid _ _ => mid
  end.

(** ** The worker *)

(** One iteration of the loop: the chunk at [readOffset], and how many data
    bytes it took. *)
Definition build_chunk (p : WorkerPayload) (maxChunkSize totalChunks chunkNum
    readOffset : Z) : result (u8array * Z) :=
  let input := wp_data p in
  let totalSizeBytes := u8_length input in
  let senderIdSizeBytes := u8_length (wp_senderIdBytes p) in
  let chunkSizeBytes :=
    Z.min maxChunkSize (senderIdSizeBytes + totalSizeBytes - readOffset) in
  let readSize := chunkSizeBytes - senderIdSizeBytes in
  let headerBytes := encodeHeader {|
    messageId := wp_messageId p; chunkNum := chunkNum; totalChunks := totalChunks;
    senderIdSizeBytes := senderIdSizeBytes; chunkSizeBytes := chunkSizeBytes;
    totalSizeBytes := totalSizeBytes |} in
  chunk ← u8_new (u8_length headerBytes + chunkSizeBytes);
  let writeOffset := 0 in
  chunk ← u8_set chunk headerBytes 0;
  let writeOffset := writeOffset + u8_length headerBytes in
  chunk ← u8_set chunk (wp_senderIdBytes p) writeOffset;
  let writeOffset := writeOffset + senderIdSizeBytes in
  chunk ← u8_set chunk (u8_slice input readOffset (readOffset + readSize)) writeOffset;
  Ok (chunk, readSize).

(** [for (let chunkNum = 0; readOffset < totalSizeBytes; chunkNum++)].  The
    result is the events posted so far and how the loop ended; [None] is out of
    fuel. *)
Fixpoint chunk_loop (fuel : nat) (p : WorkerPayload) (maxChunkSize totalChunks
    chunkNum readOffset : Z) (posted : list EncoderEvent)
    : option (list EncoderEvent * result unit) :=
  match fuel with
  | O => None
  | S fuel =>
    if decide (readOffset < u8_length (wp_data p)) then
      match build_chunk p maxChunkSize totalChunks chunkNum readOffset with
      | Throw e => Some (posted, Throw e)
      | Ok (chunk, readSize) =>
        chunk_loop fuel p maxChunkSize totalChunks (chunkNum + 1)
          (readOffset + readSize)
          (posted ++ [ChunkEvent (wp_messageId p) chunkNum totalChunks
                        (wp_senderId p) chunk])
      end
    else Some (posted, Ok tt)
  end.

(** [self.onmessage]: the events posted for one payload. *)
Definition workerFunc (fuel : nat) (p : WorkerPayload)
    : option (list EncoderEvent * result unit) :=
  let totalSizeBytes := u8_length (wp_data p) in
  let maxChunkSize := wp_maxMessageSizeBytes p - headerSizeBytes in
  let dataBytesInChunk := maxChunkSize - u8_length (wp_senderIdBytes p) in
  if decide (dataBytesInChunk <= 0) then
    Some ([ErrorEvent (wp_messageId p) (wp_senderId p)
             (Error "Not enough space for data.")], Ok tt)
  else
    let totalChunks := math_ceil_div totalSizeBytes dataBytesInChunk in
    match chunk_loop fuel p maxChunkSize totalChunks 0 0 [] with
    | Some (posted, Ok tt) =>
        Some (posted ++ [DoneEvent (wp_messageId p) (wp_senderId p)], Ok tt)
    | r => r
    end.

(** Every iteration reads at least one byte. *)
Definition encode_fuel (p : WorkerPayload) : nat := S (length (wp_data p)).

(** ** The emitter side: [class Encoder] *)

Record EncoderState := {
  counter : Z;
  maxMessageSizeBytes : Z;
  (** the [setTimeout] callbacks not yet run, in order *)
  scheduled : list WorkerPayload;
}.

Definition new_Encoder (maxMessageSizeBytes : Z) : result EncoderState :=
  if decide (maxMessageSizeBytes <= headerSizeBytes)
  then Throw (Error "maxMessageSizeBytes should be greater than headerSize")
  else Ok {| counter := 0; maxMessageSizeBytes := maxMessageSizeBytes;
             scheduled := [] |}.

Definition default_maxMessageSizeBytes : Z := 2 ^ 16 - 1.

Definition next_counter (c : Z) : Z :=
  let c := c + 1 in if decide (maxMessageId <= c) then 1 else c.

Section encoder.
Context `{TextCodec}.

Definition encode (st : EncoderState) (d : DataContainer) : EncoderState * Z :=
  let senderIdBytes := text_encode (dc_senderId d) in
  let messageId := next_counter (counter st) in
  let payload := {|
    wp_messageId := messageId;
    wp_maxMessageSizeBytes := maxMessageSizeBytes st;
    wp_data := dc_data d;
    wp_senderId := dc_senderId d;
    wp_senderIdBytes := senderIdBytes |} in
  ({| counter := messageId;
      maxMessageSizeBytes := maxMessageSizeBytes st;
      scheduled := scheduled st ++ [payload] |}, messageId).
End encoder.

(** [waitFor(messageId)]: settles on the first ['done'] or ['error'] of the
    message among the events emitted after the call; [None] while pending. *)
Fixpoint waitFor (messageId : Z) (events : list EncoderEvent) : option (result Z) :=
  match events with
  | [] => None
  | DoneEvent mid _ :: events =>
      if decide (mid = messageId) then Some (Ok mid) else waitFor messageId events
  | ErrorEvent mid _ error :: events =>
      if decide (mid = messageId) then Some (Throw error) else waitFor messageId events
  | ChunkEvent _ _ _ _ _ :: events => waitFor messageId events
  end.

(** * What the worker posts *)

(** The data bytes per chunk; the number of chunks; the [i]-th piece of the
    data, its header and its chunk. *)
Definition capacity (p : WorkerPayload) : nat :=
  Z.to_nat (wp_maxMessageSizeBytes p - headerSizeBytes - u8_length (wp_senderIdBytes p)).

Definition n_chunks (p : WorkerPayload) : nat :=
  Z.to_nat (math_ceil_div (u8_length (wp_data p)) (Z.of_nat (capacity p))).

Definition piece (p : WorkerPayload) (i : nat) : u8array :=
  take (capacity p) (drop (i * capacity p) (wp_data p)).

Definition chunk_header (p : WorkerPayload) (i : nat) : Header := {|
  messageId := wp_messageId p;
  chunkNum := Z.of_nat i;
  totalChunks := Z.of_nat (n_chunks p);
  senderIdSizeBytes := u8_length (wp_senderIdBytes p);
  chunkSizeBytes := u8_length (wp_senderIdBytes p) + u8_length (piece p i);
  totalSizeBytes := u8_length (wp_data p) |}.

Definition chunk_bytes (p : WorkerPayload) (i : nat) : u8array :=
  encodeHeader (chunk_header p i) ++ wp_senderIdBytes p ++ piece p i.

Definition chunk_event (p : WorkerPayload) (i : nat) : EncoderEvent :=
  ChunkEvent (wp_messageId p) (Z.of_nat i) (Z.of_nat (n_chunks p))
    (wp_senderId p) (chunk_bytes p i).

Definition done_event (p : WorkerPayload) : EncoderEvent :=
  DoneEvent (wp_messageId p) (wp_senderId p).

(** The data as the worker sees it: the chunks of the message, in order. *)
Definition chunks (p : WorkerPayload) : list u8array :=
  chunk_bytes p <$> seq 0 (n_chunks p).

(** ** Sizes *)

Lemma n_chunks_bounds p :
  (0 < capacity p)%nat →
  (length (wp_data p) <= n_chunks p * capacity p)%nat ∧
  (∀ i, (i < n_chunks p)%nat → (i * capacity p < length (wp_data p))%nat).
Proof.
  intros Hc. unfold n_chunks.
  set (q := math_ceil_div _ _).
  assert (Z.of_nat (capacity p) * (q - 1) < u8_length (wp_data p)
          <= Z.of_nat (capacity p) * q) as Hq by (apply math_ceil_div_spec; lia).
  unfold u8_length in *. split; [nia|]. intros i Hi. nia.
Qed.

Lemma n_chunks_le p :
  (0 < capacity p)%nat → (n_chunks p <= length (wp_data p))%nat.
Proof.
  intros Hc. destruct (n_chunks_bounds p Hc) as [_ H].
  destruct (n_chunks p) as [|n]; [lia|]. specialize (H n ltac:(lia)). nia.
Qed.

Lemma length_piece p i :
  length (piece p i) = (capacity p `min` (length (wp_data p) - i * capacity p))%nat.
Proof. unfold piece. by rewrite length_take, length_drop. Qed.

Lemma length_chunk_bytes p i :
  length (chunk_bytes p i)
  = (16 + length (wp_senderIdBytes p) + length (piece p i))%nat.
Proof. unfold chunk_bytes. rewrite !length_app, encodeHeader_length. lia. Qed.

(** No chunk is larger than the limit the encoder was created with. *)
Lemma chunk_bytes_size p i :
  (0 < capacity p)%nat →
  u8_length (chunk_bytes p i) <= wp_maxMessageSizeBytes p.
Proof.
  intros Hc. unfold u8_length. rewrite length_chunk_bytes, length_piece.
  unfold capacity, headerSizeBytes, u8_length in *. lia.
Qed.

(** The pieces make up the data. *)
Lemma concat_pieces p n :
  (length (wp_data p) <= n * capacity p)%nat →
  concat (piece p <$> seq 0 n) = wp_data p.
Proof.
  intros Hn.
  assert (∀ k i, concat (piece p <$> seq i k)
            = take (k * capacity p) (drop (i * capacity p) (wp_data p))) as Hgen.
  { induction k as [|k IH]; intros i; [done|]. cbn [seq fmap list_fmap concat].
    rewrite IH. unfold piece. replace (S i * capacity p)%nat
      with (i * capacity p + capacity p)%nat by lia.
    rewrite <-drop_drop, take_take_drop. done. }
  rewrite Hgen. by rewrite Nat.mul_0_l, drop_0, take_ge.
Qed.

(** ** The loop *)

Lemma piece_slice p i :
  u8_slice (wp_data p) (Z.of_nat (i * capacity p))
    (Z.of_nat (i * capacity p) + u8_length (piece p i)) = piece p i.
Proof.
  unfold u8_length. rewrite <-Nat2Z.inj_add, u8_slice_nonneg by lia.
  rewrite Nat.add_comm, Nat.add_sub, length_piece. unfold piece.
  destruct (decide (capacity p <= length (wp_data p) - i * capacity p)%nat).
  - by rewrite Nat.min_l by done.
  - rewrite Nat.min_r by lia. rewrite !take_ge; rewrite ?length_drop; done || lia.
Qed.

Lemma build_chunk_spec p i :
  (0 < capacity p)%nat → (i * capacity p < length (wp_data p))%nat →
  build_chunk p (wp_maxMessageSizeBytes p - headerSizeBytes) (Z.of_nat (n_chunks p))
    (Z.of_nat i) (Z.of_nat (i * capacity p))
  = Ok (chunk_bytes p i, u8_length (piece p i)).
Proof.
  intros Hc Hi. unfold build_chunk.
  assert (Z.min (wp_maxMessageSizeBytes p - headerSizeBytes)
    (u8_length (wp_senderIdBytes p) + u8_length (wp_data p) - Z.of_nat (i * capacity p))
    = u8_length (wp_senderIdBytes p) + u8_length (piece p i)) as ->.
  { unfold u8_length. rewrite length_piece.
    unfold capacity, u8_length, headerSizeBytes in *. lia. }
  rewrite !Z.add_simpl_l, piece_slice.
  change {| messageId := _ |} with (chunk_header p i).
  set (hdr := encodeHeader (chunk_header p i)).
  assert (length hdr = 16%nat) as Hhdr by reflexivity.
  set (n := (16 + length (wp_senderIdBytes p) + length (piece p i))%nat).
  rewrite u8_new_ok by (unfold u8_length; lia).
  replace (Z.to_nat _) with n by (unfold n, u8_length; lia).
  rewrite bind_Ok, (u8_set_append [] hdr n), bind_Ok by (done || lia).
  rewrite u8_set_append, bind_Ok by (unfold u8_length; lia || done).
  rewrite u8_set_append, bind_Ok
    by (unfold u8_length; rewrite ?length_app; simpl; lia).
  replace (_ - _ - _)%nat with O by lia.
  simpl replicate. by rewrite app_nil_r, <-!app_assoc.
Qed.

Lemma chunk_loop_spec p k : ∀ i fuel posted,
  (0 < capacity p)%nat → (i + k = n_chunks p)%nat → (k < fuel)%nat →
  chunk_loop fuel p (wp_maxMessageSizeBytes p - headerSizeBytes)
    (Z.of_nat (n_chunks p)) (Z.of_nat i)
    (Z.of_nat ((i * capacity p) `min` length (wp_data p))) posted
  = Some (posted ++ (chunk_event p <$> seq i k), Ok tt).
Proof.
  induction k as [|k IH]; intros i fuel posted Hc Hik Hf;
    (destruct fuel as [|fuel]; [lia|]); cbn [chunk_loop];
    destruct (n_chunks_bounds p Hc) as [Hle Hlt]; unfold u8_length.
  - assert (i = n_chunks p) as -> by lia.
    rewrite decide_False by lia. by rewrite app_nil_r.
  - specialize (Hlt i ltac:(lia)). rewrite decide_True by lia.
    rewrite Nat.min_l by lia. rewrite build_chunk_spec by done.
    replace (Z.of_nat (i * capacity p) + u8_length (piece p i))
      with (Z.of_nat ((S i * capacity p) `min` length (wp_data p)))
      by (unfold u8_length; rewrite length_piece; lia).
    replace (Z.of_nat i + 1) with (Z.of_nat (S i)) by lia.
    rewrite IH by lia. by rewrite <-app_assoc.
Qed.

(** With any fuel beyond the data's length the worker terminates normally: it
    posts the chunks of the message in order and then ['done']. *)
Lemma workerFunc_spec p fuel :
  (0 < capacity p)%nat → (encode_fuel p <= fuel)%nat →
  workerFunc fuel p
  = Some ((chunk_event p <$> seq 0 (n_chunks p)) ++ [done_event p], Ok tt).
Proof.
  intros Hc Hf. unfold workerFunc.
  rewrite decide_False by (unfold capacity in Hc; lia).
  pose proof (chunk_loop_spec p (n_chunks p) 0 fuel [] Hc) as Hl.
  pose proof (n_chunks_le p Hc). unfold encode_fuel in Hf.
  replace (math_ceil_div _ _) with (Z.of_nat (n_chunks p)).
  2:{ unfold n_chunks. rewrite Z2Nat.id.
      - f_equal. unfold capacity in *. lia.
      - pose proof (math_ceil_div_spec (u8_length (wp_data p)) (Z.of_nat (capacity p))).
        pose proof (u8_length_nonneg (wp_data p)). nia. }
  rewrite Nat.mul_0_l, Nat.min_0_l in Hl. change (Z.of_nat 0) with 0 in Hl.
  by rewrite Hl by lia.
Qed.

(** No room for data beside the header and the sender's id: an error and
    nothing else, whatever the fuel. *)
Lemma workerFunc_no_space p fuel :
  capacity p = 0%nat →
  workerFunc fuel p
  = Some ([ErrorEvent (wp_messageId p) (wp_senderId p)
             (Error "Not enough space for data.")], Ok tt).
Proof. intros Hc. unfold workerFunc. unfold capacity in Hc. by rewrite decide_True by lia. Qed.
