(* ===== verification/Decoder.v ===== *)
(** The receiving half of the data-channel codec ([src/client/codec/index.ts],
    [class Decoder]): chunks are collected per sender and message id until the
    message is complete.  The end of the file relates it to the encoder. *)

From S2P Require Import Prelude Numbers Bytes Header TextCodec Encoder.

#[local] Open Scope Z_scope.

Record ChunkContainer := {
  cc_senderId : string;
  cc_data : u8array;
  cc_chunksReceived : Z;
  cc_totalChunks : Z;
}.

(** [chunksByMessageId]. *)
Abbreviation DecoderState := (gmap string ChunkContainer).

(** [senderId + '_' + header.messageId]. *)
Definition chunk_id (senderId : string) (mid : Z) : string :=
  senderId +:+ "_" +:+ pretty mid.

(** A numeral has no underscore, so the key determines sender and message. *)
Lemma chunk_id_inj s1 s2 m1 m2 :
  0 <= m1 → 0 <= m2 → chunk_id s1 m1 = chunk_id s2 m2 → s1 = s2 ∧ m1 = m2.
Proof.
  intros H1 H2 Heq.
  destruct (last_separator_inj "_"%char s1 s2 (pretty m1) (pretty m2)) as [? Hm];
    [by apply has_char_pretty_Z..|done|].
  split; [done|]. by apply (inj pretty) in Hm.
Qed.

Section decoder.
Context `{TextCodec}.

(** The header of an incoming buffer and the sender id that follows it. *)
Definition packet_header (input : u8array) : Header := decodeHeader input.

Definition packet_senderId (input : u8array) : string :=
  let header := packet_header input in
  text_decode
    (u8_slice input headerSizeBytes (headerSizeBytes + senderIdSizeBytes header)).

Definition packet_id (input : u8array) : string :=
  chunk_id (packet_senderId input) (messageId (packet_header input)).

(** [this.chunksByMessageId[id] || { ... }]. *)
Definition container_for (st : DecoderState) (input : u8array)
    : result ChunkContainer :=
  let header := packet_header input in
  match st !! packet_id input with
  | Some container => Ok container
  | None =>
    data ← u8_new (totalSizeBytes header);
    Ok {| cc_senderId := packet_senderId input;
          cc_data := data;
          cc_chunksReceived := 0;
          cc_totalChunks := totalChunks header |}
  end.

(** [decode(data)]: the new state, and the container, [null] ([None]) or the
    exception. *)
Definition decode (st : DecoderState) (input : u8array)
    : DecoderState * result (option DataContainer) :=
  let header := packet_header input in
  let dataStart := headerSizeBytes + senderIdSizeBytes header in
  let dataSize := chunkSizeBytes header - senderIdSizeBytes header in
  let id := packet_id input in
  match container_for st input with
  | Throw e => (st, Throw e)
  | Ok container =>
    let st := <[id := container]> st in
    let isLastChunk := bool_decide (chunkNum header = totalChunks header - 1) in
    let offset := if isLastChunk
      then u8_length (cc_data container) - dataSize
      else chunkNum header * dataSize in
    match u8_set (cc_data container) (u8_slice_from input dataStart) offset with
    | Throw e => (st, Throw e)
    | Ok data =>
      let container := {|
        cc_senderId := cc_senderId container;
        cc_data := data;
        cc_chunksReceived := cc_chunksReceived container + 1;
        cc_totalChunks := cc_totalChunks container |} in
      if decide (cc_chunksReceived container = cc_totalChunks container) then
        (delete id st,
         Ok (Some {| dc_senderId := cc_senderId container;
                     dc_data := cc_data container |}))
      else (<[id := container]> st, Ok None)
    end
  end.

(** A sequence of incoming buffers, with the result of each call. *)
Fixpoint decode_all (st : DecoderState) (inputs : list u8array)
    : DecoderState * list (result (option DataContainer)) :=
  match inputs with
  | [] => (st, [])
  | input :: inputs =>
    let '(st, r) := decode st input in
    let '(st, rs) := decode_all st inputs in
    (st, r :: rs)
  end.

(** ** What a message must satisfy to survive the trip *)

Definition message_ok (p : WorkerPayload) : Prop :=
  wp_senderIdBytes p = text_encode (wp_senderId p) ∧
  well_formed (wp_senderId p) ∧
  (0 < capacity p)%nat ∧
  0 <= wp_messageId p < 2 ^ 16 ∧
  u8_length (wp_senderIdBytes p) < 2 ^ 16 ∧
  Z.of_nat (n_chunks p) < 2 ^ 16 ∧
  wp_maxMessageSizeBytes p < 2 ^ 31 ∧
  u8_length (wp_data p) < 2 ^ 31.

Definition message_key (p : WorkerPayload) : string :=
  chunk_id (wp_senderId p) (wp_messageId p).

Definition message_container (p : WorkerPayload) : DataContainer :=
  {| dc_senderId := wp_senderId p; dc_data := wp_data p |}.

(** A container that holds exactly the chunks of [p] whose numbers are in
    [got]. *)
Definition holds (p : WorkerPayload) (got : list nat) (c : ChunkContainer) : Prop :=
  cc_senderId c = wp_senderId p ∧
  length (cc_data c) = length (wp_data p) ∧
  cc_chunksReceived c = Z.of_nat (length got) ∧
  cc_totalChunks c = Z.of_nat (n_chunks p) ∧
  (∀ i k : nat, i ∈ got → (k < length (piece p i))%nat →
     cc_data c !! (i * capacity p + k)%nat = piece p i !! k).

(** ** Reading a chunk back *)

Lemma chunk_header_fits p i :
  message_ok p → (i < n_chunks p)%nat → header_fits (chunk_header p i).
Proof.
  intros (_ & _ & Hc & Hm & Hid & Hn & Hmax & Hd) Hi.
  pose proof (length_piece p i). pose proof (u8_length_nonneg (wp_data p)).
  unfold header_fits, chunk_header, capacity, u8_length, headerSizeBytes in *.
  simpl. lia.
Qed.

Lemma packet_header_chunk p i :
  message_ok p → (i < n_chunks p)%nat →
  packet_header (chunk_bytes p i) = chunk_header p i.
Proof.
  intros Hp Hi. unfold packet_header, chunk_bytes.
  rewrite decodeHeader_app. by apply header_roundtrip, chunk_header_fits.
Qed.

Lemma packet_senderId_chunk p i :
  message_ok p → (i < n_chunks p)%nat →
  packet_senderId (chunk_bytes p i) = wp_senderId p.
Proof.
  intros Hp Hi. unfold packet_senderId. rewrite packet_header_chunk by done.
  destruct Hp as (Hb & Hw & _). simpl. unfold u8_length, headerSizeBytes.
  change 16 with (Z.of_nat 16). rewrite <-Nat2Z.inj_add.
  rewrite u8_slice_nonneg by lia.
  unfold chunk_bytes. rewrite drop_app_length' by done.
  rewrite Nat.add_comm, Nat.add_sub, take_app_length.
  rewrite Hb. by apply text_decode_encode.
Qed.

Lemma packet_id_chunk p i :
  message_ok p → (i < n_chunks p)%nat →
  packet_id (chunk_bytes p i) = message_key p.
Proof.
  intros. unfold packet_id.
  by rewrite packet_senderId_chunk, packet_header_chunk by done.
Qed.

Lemma chunk_payload p i :
  message_ok p → (i < n_chunks p)%nat →
  u8_slice_from (chunk_bytes p i)
    (headerSizeBytes + senderIdSizeBytes (chunk_header p i)) = piece p i.
Proof.
  intros _ _. simpl. unfold u8_length, headerSizeBytes.
  change 16 with (Z.of_nat 16). rewrite <-Nat2Z.inj_add, u8_slice_from_nonneg.
  unfold chunk_bytes. rewrite app_assoc. apply drop_app_length'.
  by rewrite length_app, encodeHeader_length.
Qed.

(** ** One chunk *)

Lemma piece_lookup p i k :
  (k < length (piece p i))%nat →
  piece p i !! k = wp_data p !! (i * capacity p + k)%nat.
Proof.
  rewrite length_piece. intros Hk. unfold piece.
  rewrite lookup_take_lt by lia. apply lookup_drop.
Qed.

(** The whole of the data is the union of its pieces. *)
Lemma holds_complete p got c :
  message_ok p → holds p got c →
  (∀ i, (i < n_chunks p)%nat → i ∈ got) → cc_data c = wp_data p.
Proof.
  intros (_ & _ & Hc & _) (_ & Hlen & _ & _ & Hgot) Hall.
  apply list_eq_same_length with (length (wp_data p)); [done..|].
  intros q x y Hq Hx Hy.
  destruct (n_chunks_bounds p Hc) as [Hn _].
  set (i := (q `div` capacity p)%nat). set (k := (q `mod` capacity p)%nat).
  assert (q = i * capacity p + k)%nat as Hqik
    by (unfold i, k; pose proof (Nat.div_mod_eq q (capacity p)); lia).
  assert (k < capacity p)%nat by (apply Nat.mod_upper_bound; lia).
  assert (i < n_chunks p)%nat by (apply Nat.Div0.div_lt_upper_bound; lia).
  assert (k < length (piece p i))%nat by (rewrite length_piece; lia).
  rewrite Hqik, Hgot, piece_lookup, <-Hqik in Hx by auto. congruence.
Qed.

(** Writing piece [i] of [p] where it belongs. *)
Lemma holds_write p got c i :
  message_ok p → (i < n_chunks p)%nat → i ∉ got → holds p got c →
  ∃ data,
    u8_set (cc_data c) (piece p i) (Z.of_nat (i * capacity p)) = Ok data ∧
    holds p (i :: got)
      {| cc_senderId := cc_senderId c; cc_data := data;
         cc_chunksReceived := cc_chunksReceived c + 1;
         cc_totalChunks := cc_totalChunks c |}.
Proof.
  intros Hp Hi Hnew (Hs & Hlen & Hr & Ht & Hgot).
  destruct Hp as (_ & _ & Hc & _).
  destruct (n_chunks_bounds p Hc) as [_ Hlt].
  assert (i * capacity p + length (piece p i) <= length (cc_data c))%nat as Hfit.
  { rewrite Hlen, length_piece. specialize (Hlt i Hi). lia. }
  eexists. split; [by apply u8_set_ok|].
  split_and!; simpl; try done.
  - rewrite !length_app, length_take, length_drop. lia.
  - lia.
  - intros j k Hj Hk. rewrite u8_write_lookup by done.
    pose proof (length_piece p i). pose proof (length_piece p j).
    destruct (decide (i = j)) as [->|Hij].
    + rewrite decide_True by lia. f_equal. lia.
    + rewrite decide_False; [apply elem_of_cons in Hj as [->|]; [done|by apply Hgot]|].
      intros Hov. destruct (decide (i < j)%nat); nia.
Qed.

(** The offset the decoder computes, counting the last chunk from the end. *)
Lemma chunk_offset p i c :
  message_ok p → (i < n_chunks p)%nat → length (cc_data c) = length (wp_data p) →
  (if bool_decide (chunkNum (chunk_header p i) = totalChunks (chunk_header p i) - 1)
   then u8_length (cc_data c) -
        (chunkSizeBytes (chunk_header p i) - senderIdSizeBytes (chunk_header p i))
   else chunkNum (chunk_header p i) *
        (chunkSizeBytes (chunk_header p i) - senderIdSizeBytes (chunk_header p i)))
  = Z.of_nat (i * capacity p).
Proof.
  intros (_ & _ & Hc & _) Hi Hlen.
  destruct (n_chunks_bounds p Hc) as [Hle Hlt].
  simpl. rewrite Z.add_simpl_l. unfold u8_length. rewrite Hlen, length_piece.
  case_bool_decide as Hlast.
  - specialize (Hlt i Hi). assert (n_chunks p = S i) as Hn by lia.
    rewrite Hn in Hle. lia.
  - specialize (Hlt (S i) ltac:(lia)). rewrite Nat.min_l by lia. lia.
Qed.

Lemma holds_fresh p :
  holds p [] {| cc_senderId := wp_senderId p;
                cc_data := replicate (length (wp_data p)) x00;
                cc_chunksReceived := 0;
                cc_totalChunks := Z.of_nat (n_chunks p) |}.
Proof.
  split_and!; simpl; try done.
  - apply length_replicate.
  - intros i k Hi. by apply not_elem_of_nil in Hi.
Qed.

(** What the table has for the message: nothing before its first chunk. *)
Definition receiving (p : WorkerPayload) (got : list nat) (st : DecoderState) : Prop :=
  match st !! message_key p with
  | None => got = []
  | Some c => holds p got c
  end.

(** One new chunk of a message being received: [null] while others are
    missing, the message when it was the last, the rest of the table left alone. *)
Lemma decode_chunk p got st i :
  message_ok p → (i < n_chunks p)%nat → i ∉ got → NoDup got →
  (∀ j, j ∈ got → (j < n_chunks p)%nat) → receiving p got st →
  if decide (S (length got) = n_chunks p)
  then decode st (chunk_bytes p i)
       = (delete (message_key p) st, Ok (Some (message_container p)))
  else ∃ c, decode st (chunk_bytes p i) = (<[message_key p := c]> st, Ok None) ∧
            holds p (i :: got) c.
Proof.
  intros Hp Hi Hnew Hnd Hin Hrec.
  assert (∃ c, container_for st (chunk_bytes p i) = Ok c ∧ holds p got c)
    as (c & Hc & Hholds).
  { unfold container_for, receiving in *. rewrite packet_id_chunk by done.
    destruct (st !! message_key p); [by eauto|]. subst got.
    rewrite packet_senderId_chunk, packet_header_chunk by done.
    rewrite u8_new_ok, bind_Ok by apply u8_length_nonneg.
    eexists; split; [done|]. simpl. unfold u8_length. rewrite Nat2Z.id.
    apply holds_fresh. }
  unfold decode. rewrite Hc, packet_id_chunk, packet_header_chunk by done.
  rewrite chunk_offset, chunk_payload by (done || apply Hholds).
  destruct (holds_write p got c i) as (data & -> & Hw); [done..|].
  pose proof Hw as (_ & _ & Hr & Ht & _). simpl in Hr, Ht.
  cbn [cc_chunksReceived cc_totalChunks].
  destruct (decide (S (length got) = n_chunks p)) as [Hlast|Hmore].
  - rewrite decide_True by lia. rewrite delete_insert_eq.
    do 3 f_equal. unfold message_container. simpl. f_equal; [apply Hholds|].
    apply (holds_complete p (i :: got) _ Hp Hw).
    apply NoDup_bounded_full; [by constructor| |done].
    intros j [->|]%elem_of_cons; auto.
  - rewrite decide_False by lia. rewrite insert_insert_eq.
    eexists. split; [done|exact Hw].
Qed.

(** ** Runs *)

Lemma decode_all_remaining p ks : ∀ got st,
  message_ok p → NoDup (ks ++ got) →
  (∀ j, j ∈ ks ++ got → (j < n_chunks p)%nat) →
  (length ks + length got = n_chunks p)%nat → ks ≠ [] → receiving p got st →
  decode_all st (chunk_bytes p <$> ks)
  = (delete (message_key p) st,
     replicate (length ks - 1) (Ok None) ++ [Ok (Some (message_container p))]).
Proof.
  induction ks as [|i ks IH]; intros got st Hp Hnd Hlt Hlen Hne Hrec; [done|].
  simpl in Hnd, Hlen. apply NoDup_cons in Hnd as [Hi Hnd].
  apply not_elem_of_app in Hi as [Hi1 Hi2].
  pose proof (decode_chunk p got st i Hp (Hlt i ltac:(left)) Hi2) as Hd.
  specialize (Hd ltac:(by apply NoDup_app in Hnd as (_ & _ & ?))).
  specialize (Hd ltac:(intros j Hj; apply Hlt; right; apply elem_of_app; by right)).
  specialize (Hd Hrec). cbn [fmap list_fmap decode_all].
  destruct ks as [|i' ks].
  - rewrite decide_True in Hd by (simpl in Hlen; lia). by rewrite Hd.
  - rewrite decide_False in Hd by (simpl in Hlen; lia).
    destruct Hd as (c & -> & Hc).
    rewrite (IH (i :: got)); [|done|..].
    + rewrite delete_insert_eq. simpl. by rewrite Nat.sub_0_r.
    + rewrite <-Permutation_middle. apply NoDup_cons. split; [|done].
      by rewrite not_elem_of_app.
    + intros j Hj. apply Hlt. revert Hj. rewrite <-Permutation_middle. done.
    + simpl in *. lia.
    + done.
    + unfold receiving. by rewrite lookup_insert_eq.
Qed.

(** The chunks of a message, in any order: every call but the last gives
    [null], the last gives the message, and the table ks as before. *)
Lemma decode_all_permuted p order st :
  message_ok p → wp_data p ≠ [] → order ≡ₚ chunks p →
  st !! message_key p = None →
  decode_all st order
  = (st, replicate (n_chunks p - 1) (Ok None) ++ [Ok (Some (message_container p))]).
Proof.
  intros Hp Hd Horder Hst. pose proof Hp as (_ & _ & Hc & _).
  destruct (n_chunks_bounds p Hc) as [Hle _].
  unfold chunks in Horder.
  apply Permutation_map_inv in Horder as (ks & -> & His).
  assert (length ks = n_chunks p) as Hlen by (by rewrite <-His, length_seq).
  change (map ?f ks) with (f <$> ks).
  rewrite (decode_all_remaining p ks [] st Hp); rewrite ?app_nil_r.
  - by rewrite Hlen, delete_id.
  - rewrite <-His. apply NoDup_seq.
  - intros j. rewrite <-His, elem_of_seq. lia.
  - simpl. lia.
  - intros ->. destruct (wp_data p); simpl in *; [done|lia].
  - unfold receiving. by rewrite Hst.
Qed.

(** ** Interleaving *)

(** A call reads and writes the entry of its own message only. *)
Lemma decode_other st input k :
  k ≠ packet_id input → (decode st input).1 !! k = st !! k.
Proof.
  intros Hk. unfold decode.
  repeat case_match; simpl; by rewrite ?lookup_delete_ne, ?lookup_insert_ne by done.
Qed.

Lemma decode_local st st' input :
  st !! packet_id input = st' !! packet_id input →
  (decode st input).2 = (decode st' input).2 ∧
  (decode st input).1 !! packet_id input = (decode st' input).1 !! packet_id input.
Proof.
  intros Heq. unfold decode.
  assert (container_for st input = container_for st' input) as ->.
  { unfold container_for. by rewrite Heq. }
  repeat case_match; simpl;
    by rewrite ?lookup_delete_eq, ?lookup_insert_eq.
Qed.

(** The results of the calls that were about message [k]. *)
Definition results_for (k : string) (inputs : list u8array)
    (results : list (result (option DataContainer))) :=
  (filter (λ x, packet_id x.1 = k) (zip inputs results)).*2.

Lemma decode_all_project k inputs : ∀ st st',
  st !! k = st' !! k →
  results_for k inputs (decode_all st inputs).2
  = (decode_all st' (filter (λ b, packet_id b = k) inputs)).2 ∧
  (decode_all st inputs).1 !! k
  = (decode_all st' (filter (λ b, packet_id b = k) inputs)).1 !! k.
Proof.
  induction inputs as [|b inputs IH]; intros st st' Heq; [done|].
  unfold results_for in *. cbn [decode_all].
  destruct (decode st b) as [st1 r1] eqn:E1.
  destruct (decode_all st1 inputs) as [st2 rs2] eqn:E2. cbn [fst snd zip zip_with].
  destruct (decide (packet_id b = k)) as [<-|Hne].
  - rewrite !filter_cons_True by done. cbn [fmap list_fmap decode_all].
    destruct (decode st' b) as [st1' r1'] eqn:E1'.
    destruct (decode_local st st' b Heq) as [Hr Hl].
    rewrite E1, E1' in Hr, Hl. simpl in Hr, Hl. subst.
    destruct (IH _ _ Hl) as [Hrs Hl']. rewrite E2 in Hrs, Hl'.
    destruct (decode_all st1' _). simpl in *. by rewrite Hrs.
  - rewrite !filter_cons_False by done.
    destruct (IH st1 st') as [Hrs Hl'].
    { rewrite <-Heq. pose proof (decode_other st b k ltac:(done)) as Ho.
      by rewrite E1 in Ho. }
    by rewrite E2 in Hrs, Hl'.
Qed.
End decoder.
