(* ===== verification/Codec.v ===== *)
(** The data-channel codec end to end: what [Encoder.encode] schedules, the
    worker posts and the peers' [Decoder]s make of it. *)

From S2P Require Import Prelude Numbers Bytes Header TextCodec Encoder Decoder.

#[local] Open Scope Z_scope.

(** The buffers that go out on the wire: the ['data'] events' chunks. *)
Definition wire (posted : list EncoderEvent) : list u8array :=
  omap (λ e, match e with ChunkEvent _ _ _ _ chunk => Some chunk | _ => None end) posted.

Lemma wire_chunks p (n : nat) e :
  wire [e] = [] → wire ((chunk_event p <$> seq 0 n) ++ [e]) = chunk_bytes p <$> seq 0 n.
Proof.
  intros He. unfold wire in *. rewrite omap_app, He, app_nil_r.
  generalize (seq 0 n). intros l. induction l as [|i l IH]; [done|].
  cbn. by rewrite IH.
Qed.

(** The payload [encode] schedules. *)
Definition payload_of `{TextCodec} (st : EncoderState) (d : DataContainer) : WorkerPayload :=
  {| wp_messageId := next_counter (counter st);
     wp_maxMessageSizeBytes := maxMessageSizeBytes st;
     wp_data := dc_data d;
     wp_senderId := dc_senderId d;
     wp_senderIdBytes := text_encode (dc_senderId d) |}.

Definition counter_ok (c : Z) : Prop := 0 <= c < maxMessageId.

Lemma next_counter_range c : counter_ok c → 1 <= next_counter c < maxMessageId.
Proof. unfold counter_ok, next_counter, maxMessageId. intros H. case_decide; lia. Qed.

(** What a message must satisfy for its chunks to fit the header's fields. *)
Definition encodable `{TextCodec} (st : EncoderState) (d : DataContainer) : Prop :=
  let idlen := u8_length (text_encode (dc_senderId d)) in
  let room := maxMessageSizeBytes st - headerSizeBytes - idlen in
  well_formed (dc_senderId d) ∧ idlen < 2 ^ 16 ∧ 0 < room ∧
  maxMessageSizeBytes st < 2 ^ 31 ∧ u8_length (dc_data d) < 2 ^ 31 ∧
  math_ceil_div (u8_length (dc_data d)) room < 2 ^ 16.

Lemma encodable_message_ok `{TextCodec} st d :
  counter_ok (counter st) → encodable st d → message_ok (payload_of st d).
Proof.
  intros Hc (Hw & Hid & Hroom & Hmax & Hd & Hn).
  pose proof (next_counter_range _ Hc). unfold maxMessageId in *.
  set (p := payload_of st d).
  set (room := maxMessageSizeBytes st - headerSizeBytes
                 - u8_length (text_encode (dc_senderId d))) in *.
  assert (Z.of_nat (capacity p) = room) as Hcap by (apply Z2Nat.id; lia).
  assert (Z.of_nat (n_chunks p) < 2 ^ 16).
  { unfold n_chunks. rewrite Hcap.
    change (wp_data p) with (dc_data d).
    pose proof (math_ceil_div_spec (u8_length (dc_data d)) _ Hroom).
    pose proof (u8_length_nonneg (dc_data d)). rewrite Z2Nat.id; [done|]. nia. }
  unfold message_ok. simpl. split_and!; done || lia.
Qed.

(** ** Successive message ids *)

(** The id given [n + 1] calls after the counter was [c]. *)
Lemma next_counter_iter c n :
  1 <= c < maxMessageId →
  Nat.iter n next_counter c = (c - 1 + Z.of_nat n) mod (maxMessageId - 1) + 1.
Proof.
  intros Hc. unfold maxMessageId in *. induction n as [|n IH].
  - cbn [Nat.iter nat_rect]. rewrite Z.add_0_r, Z.mod_small; lia.
  - rewrite Nat.iter_succ, IH. unfold next_counter, maxMessageId.
    case_decide; Z.div_mod_to_equations; lia.
Qed.

(** The default limit leaves room for any sender id up to 32000 bytes and any
    data below 2 GiB. *)
Lemma default_encodable `{TextCodec} st d :
  maxMessageSizeBytes st = default_maxMessageSizeBytes →
  well_formed (dc_senderId d) → u8_length (text_encode (dc_senderId d)) <= 32000 →
  u8_length (dc_data d) < 2 ^ 31 → encodable st d.
Proof.
  intros Hmax Hw Hid Hd. unfold encodable. rewrite Hmax.
  unfold default_maxMessageSizeBytes, headerSizeBytes in *.
  pose proof (u8_length_nonneg (text_encode (dc_senderId d))).
  pose proof (u8_length_nonneg (dc_data d)).
  split_and!; try done; try lia.
  set (room := 2 ^ 16 - 1 - 16 - _).
  pose proof (math_ceil_div_spec (u8_length (dc_data d)) room). nia.
Qed.

(** * Properties *)

Section properties.
Context `{TextCodec}.

(** C2. End-to-end delivery.  Encoding a message that fits the header's fields
    schedules one payload, for which the worker terminates normally.  Whatever
    else arrives in between, from any sender, and in whatever order the chunks
    of the message arrive, a decoder that holds nothing for its id answers
    [null] to all of them but the last, gives back exactly the sender and the
    data on the last, and holds nothing for the id afterwards. *)
Theorem codec_delivery (st : EncoderState) (d : DataContainer) :
  counter_ok (counter st) → encodable st d → dc_data d ≠ [] →
  let '(st', mid) := encode st d in
  let p := payload_of st d in
  let key := chunk_id (dc_senderId d) mid in
  scheduled st' = scheduled st ++ [p] ∧
  ∃ posted,
    workerFunc (encode_fuel p) p = Some (posted, Ok tt) ∧
    ∀ (dst : DecoderState) (arrivals : list u8array),
      dst !! key = None →
      filter (λ b, packet_id b = key) arrivals ≡ₚ wire posted →
      results_for key arrivals (decode_all dst arrivals).2
        = replicate (length (wire posted) - 1) (Ok None) ++ [Ok (Some d)] ∧
      (decode_all dst arrivals).1 !! key = None.
Proof.
  intros Hc He Hd. pose proof (encodable_message_ok st d Hc He) as Hp.
  simpl. split; [done|]. set (p := payload_of st d) in *.
  exists ((chunk_event p <$> seq 0 (n_chunks p)) ++ [done_event p]).
  split; [by apply workerFunc_spec; [apply Hp|]|].
  rewrite wire_chunks, length_fmap, length_seq by done.
  intros dst arrivals Hdst Harr. set (k := chunk_id _ _) in *.
  pose proof (decode_all_permuted p _ (delete k dst) Hp Hd Harr
                ltac:(apply lookup_delete_eq)) as Hrun.
  destruct (decode_all_project k arrivals dst (delete k dst)) as [-> ->];
    [by rewrite lookup_delete_eq|].
  rewrite Hrun. cbn [fst snd]. split; [by destruct d|apply lookup_delete_eq].
Qed.

(** C23. The worker always terminates, without an exception: it posts the chunks
    of the message in order, none larger than the encoder's limit, whose data
    parts make up the data, and then ['done']; when the limit leaves no room
    for data it posts a single ['error']. *)
Theorem worker_total (p : WorkerPayload) :
  ∃ posted, workerFunc (encode_fuel p) p = Some (posted, Ok tt) ∧
    ((∃ cs, posted = cs ++ [DoneEvent (wp_messageId p) (wp_senderId p)] ∧
            length cs = n_chunks p ∧
            Forall (λ b, u8_length b <= wp_maxMessageSizeBytes p) (wire posted) ∧
            concat (drop (16 + length (wp_senderIdBytes p)) <$> wire posted) = wp_data p) ∨
     (posted = [ErrorEvent (wp_messageId p) (wp_senderId p)
                  (Error "Not enough space for data.")] ∧
      wp_maxMessageSizeBytes p <= headerSizeBytes + u8_length (wp_senderIdBytes p))).
Proof.
  destruct (decide (capacity p = 0%nat)) as [Hc|Hc].
  { eexists. split; [by apply workerFunc_no_space|]. right. split; [done|].
    unfold capacity in Hc. lia. }
  eexists. split; [apply workerFunc_spec; [lia|done]|]. left.
  eexists. split; [done|]. split; [by rewrite length_fmap, length_seq|].
  rewrite wire_chunks by done. split.
  - apply Forall_fmap, Forall_forall. intros i _. apply chunk_bytes_size. lia.
  - rewrite <-list_fmap_compose.
    rewrite (list_fmap_ext _ (piece p)).
    2:{ intros _ i _. unfold compose, chunk_bytes. rewrite app_assoc.
        apply drop_app_length'. by rewrite length_app, encodeHeader_length. }
    apply concat_pieces. destruct (n_chunks_bounds p) as [Hle _]; lia.
Qed.

(** C33. Reading a header back gives each field modulo its width: two bytes for
    the four counters, 31 bits for the two sizes; whatever follows the header
    is ignored. *)
Theorem header_decode_encode (h : Header) (rest : u8array) :
  decodeHeader (encodeHeader h ++ rest) = truncate_header h.
Proof. rewrite decodeHeader_app. apply decodeHeader_encodeHeader. Qed.

(** Every sixteen bytes whose two size words have their sign bit clear are
    the encoding of the header they decode to. *)
Theorem header_encode_decode (d : u8array) :
  length d = 16%nat → u8_get d 8 < 128 → u8_get d 12 < 128 →
  encodeHeader (decodeHeader d) = d.
Proof. apply encodeHeader_decodeHeader. Qed.

(** C34. Message ids stay between 1 and 65535 and do not repeat within 65535
    consecutive messages, so the messages of one sender that are in flight
    together have different keys in the decoder's table. *)
Theorem message_ids_distinct (c : Z) (i j : nat) (s : string) :
  counter_ok c → (i < j)%nat → Z.of_nat (j - i) < maxMessageId - 1 →
  let mid n := Nat.iter (S n) next_counter c in
  1 <= mid i < maxMessageId ∧ chunk_id s (mid i) ≠ chunk_id s (mid j).
Proof.
  intros Hc Hij Hd mid. subst mid. cbv beta. pose proof (next_counter_range c Hc) as Hn.
  rewrite !Nat.iter_succ_r, !next_counter_iter by done. unfold maxMessageId in *.
  split; [Z.div_mod_to_equations; lia|].
  intros [_ Heq]%chunk_id_inj; Z.div_mod_to_equations; lia.
Qed.
End properties.

(** * Witnesses: the properties on a concrete message, cut in three chunks. *)

Definition ex_encoder : EncoderState :=
  {| counter := 65535; maxMessageSizeBytes := 21; scheduled := [] |}.

Definition ex_message : DataContainer :=
  {| dc_senderId := "ab"; dc_data := u8_of_Z <$> [1; 2; 3; 4; 5; 6; 7] |}.

(** A chunk of another message, and the chunks of [ex_message] out of order. *)
Definition ex_arrivals (l : list u8array) : list u8array :=
  match l with
  | [c0; c1; c2] => [c2; encodeHeader {| messageId := 9; chunkNum := 0;
      totalChunks := 2; senderIdSizeBytes := 0; chunkSizeBytes := 1;
      totalSizeBytes := 2 |} ++ [x01]; c0; c1]
  | _ => []
  end.

Lemma codec_delivery_witness :
  let _ := ascii_codec in
  ∃ posted, workerFunc 8 (payload_of ex_encoder ex_message) = Some (posted, Ok tt) ∧
    results_for "ab_1" (ex_arrivals (wire posted))
      (decode_all ∅ (ex_arrivals (wire posted))).2
    = [Ok None; Ok None; Ok (Some ex_message)].
Proof.
  intros codec.
  destruct (codec_delivery (H := codec) ex_encoder ex_message) as (_ & posted & Hw & Hall).
  - vm_compute. split; congruence.
  - vm_compute. split_and!; congruence || done.
  - vm_compute. discriminate.
  - exists posted. split; [exact Hw|].
    vm_compute in Hw. injection Hw as <-.
    apply (Hall ∅); [reflexivity|]. vm_compute.
    by apply (Permutation_cons_append [_; _]).
Defined.

Lemma header_encode_decode_witness :
  encodeHeader (decodeHeader (u8_of_Z <$> [1; 2; 3; 4; 5; 6; 7; 8; 127; 10; 11; 12; 13; 14; 15; 255]))
  = u8_of_Z <$> [1; 2; 3; 4; 5; 6; 7; 8; 127; 10; 11; 12; 13; 14; 15; 255].
Proof. apply header_encode_decode; vm_compute; reflexivity. Defined.

Lemma message_ids_distinct_witness :
  1 <= Nat.iter 2 next_counter 65534 < maxMessageId ∧
  chunk_id "ab" (Nat.iter 2 next_counter 65534) ≠ chunk_id "ab" (Nat.iter 5 next_counter 65534).
Proof.
  apply (message_ids_distinct 65534 1 4 "ab"); [split; vm_compute; congruence|lia|].
  vm_compute. reflexivity.
Defined.
