(* ===== verification/Objects.v ===== *)
(** JavaScript objects used as dictionaries.  Where only the contents matter an
    object is a [gmap string]; the order in which its keys are visited depends
    on how it was built, which a [gmap] does not record, so it is a parameter:
    every result holds for every order. *)

From S2P Require Import Prelude.

(** [Object.keys]: the own keys, each once, in some order. *)
Class ObjectKeys := {
  object_keys {V} : gmap string V → list string;
  object_keys_perm {V} (m : gmap string V) : object_keys m ≡ₚ elements (dom m);
}.

(** One such order. *)
Program Definition some_object_keys : ObjectKeys :=
  {| object_keys V m := elements (dom m) |}.
Solve Obligations with done.

Section keys.
Context `{ObjectKeys}.

Lemma elem_of_object_keys {V} (m : gmap string V) k :
  k ∈ object_keys m ↔ is_Some (m !! k).
Proof. by rewrite object_keys_perm, elem_of_elements, elem_of_dom. Qed.

Lemma NoDup_object_keys {V} (m : gmap string V) : NoDup (object_keys m).
Proof. rewrite object_keys_perm. apply NoDup_elements. Qed.

(** [Object.entries] / lodash's [forEach] over an object. *)
Definition object_entries {V} (m : gmap string V) : list (string * V) :=
  omap (λ k, (k,.) <$> m !! k) (object_keys m).

Lemma elem_of_object_entries {V} (m : gmap string V) k v :
  (k, v) ∈ object_entries m ↔ m !! k = Some v.
Proof.
  unfold object_entries. rewrite list_elem_of_omap. split.
  - intros (k' & _ & Hk). destruct (m !! k') eqn:E; cbn in Hk; congruence.
  - intros Hm. exists k. rewrite elem_of_object_keys, Hm. by eauto.
Qed.

Lemma object_entries_perm {V} (m : gmap string V) : object_entries m ≡ₚ map_to_list m.
Proof.
  apply NoDup_Permutation.
  - unfold object_entries. pose proof (NoDup_object_keys m) as Hnd.
    induction (object_keys m) as [|k l IH]; [constructor|].
    apply NoDup_cons in Hnd as [Hk Hnd]. cbn.
    destruct (m !! k) as [v|]; cbn; [|by apply IH].
    apply NoDup_cons. split; [|by apply IH].
    intros (k' & Hk' & Heq)%list_elem_of_omap.
    destruct (m !! k'); cbn in Heq; congruence.
  - apply NoDup_map_to_list.
  - intros [k v]. by rewrite elem_of_object_entries, elem_of_map_to_list.
Qed.

Lemma object_entries_keys {V} (m : gmap string V) : NoDup (object_entries m).*1.
Proof.
  rewrite object_entries_perm. apply NoDup_fst_map_to_list.
Qed.

Lemma object_entries_key {V} (m : gmap string V) k :
  k ∈ (object_entries m).*1 ↔ is_Some (m !! k).
Proof.
  rewrite list_elem_of_fmap. split.
  - intros ([k' v] & -> & Hin%elem_of_object_entries). by exists v.
  - intros [v Hv]. exists (k, v). by rewrite elem_of_object_entries.
Qed.

Lemma list_to_map_object_entries {V} (m : gmap string V) :
  list_to_map (object_entries m) = m.
Proof.
  rewrite <-(list_to_map_to_list m) at 2.
  apply list_to_map_proper; [apply object_entries_keys|apply object_entries_perm].
Qed.
End keys.
