(* ===== verification/InsertableStreams.v ===== *)
(** The end-to-end encryption worker ([src/client/insertable-streams/index.ts],
    [workerFunc]): key management and the frame transforms.  The platform's
    [crypto.subtle] is a parameter. *)

From S2P Require Import Prelude Numbers Bytes TextCodec Objects.

#[local] Open Scope Z_scope.

(** ** The platform: PBKDF2 key derivation and AES-GCM *)

Class SubtleCrypto := {
  CryptoKey : Type;
  (** [importKey] and [deriveKey] with the constants of [createKey]: PBKDF2,
      150000 iterations, SHA-1, to a 256-bit AES-GCM key *)
  deriveKey : u8array → u8array → CryptoKey;
  (** AES-GCM with a 128-bit tag: key, iv, additional data, input *)
  aes_encrypt : CryptoKey → u8array → u8array → u8array → u8array;
  (** [None] is the OperationError of a failed authentication *)
  aes_decrypt : CryptoKey → u8array → u8array → u8array → option u8array;
  aes_decrypt_encrypt k iv aad d :
    aes_decrypt k iv aad (aes_encrypt k iv aad d) = Some d;
}.

Definition ivByteLength : Z := 16.

(** ** Data *)

Record TrackMetadata := {
  tm_mid : string;
  tm_kind : string;
  tm_userId : string;
  tm_streamId : string;
}.

Inductive FrameType := FrameKey | FrameDelta | FrameEmpty.

(** An encoded frame; audio frames have no [type]. *)
Record Frame := {
  frame_type : option FrameType;
  frame_data : u8array;
}.

(** The ends of an encoded stream are only handed over to pipes. *)
Definition StreamPair := nat.

Inductive WorkerMessage :=
  | InitEvent (url userId : string)
  | PasswordEvent (password : string)
  | MetadataEvent (metadata : list TrackMetadata)
  | EncryptStreamEvent (streams : StreamPair)
  | DecryptStreamEvent (mid userId : string) (streams : option StreamPair).

Inductive Pipe :=
  | EncryptPipe (streams : StreamPair)
  | DecryptPipe (mid : string) (streams : StreamPair).

Section worker.
Context `{TextCodec} `{SubtleCrypto} `{ObjectKeys}.

(** [ref] is the identity of the object, for the [===] test after the key has
    been derived. *)
Record DecryptContext := {
  dctx_ref : nat;
  dctx_key : option CryptoKey;
  dctx_userId : string;
  dctx_password : string;
}.

Record EncryptContext := {
  ectx_key : option CryptoKey;
  ectx_password : string;
}.

(** A key derivation under way, with what its continuation has captured. *)
Inductive Pending :=
  | PendingDecrypt (mid : string) (ref : nat) (password url userId : string)
  (** [refresh]: started by [handlePassword], which goes on with the decryption
      contexts once the encryption key is there *)
  | PendingEncrypt (password url userId : string) (refresh : bool).

Record Worker := {
  params_url : string;
  params_userId : string;
  metadataByMid : gmap string TrackMetadata;
  password : string;
  decryptContextByMid : gmap string DecryptContext;
  encryptContext : EncryptContext;
  pending : list Pending;
  pipes : list Pipe;
  next_ref : nat;
}.

Definition new_worker : Worker := {|
  params_url := ""; params_userId := "";
  metadataByMid := ∅;
  password := "";
  decryptContextByMid := ∅;
  encryptContext := {| ectx_key := None; ectx_password := "" |};
  pending := []; pipes := []; next_ref := 0 |}.

(** ** Field updates *)

Definition with_contexts (f : gmap string DecryptContext → gmap string DecryptContext)
    (w : Worker) : Worker :=
  {| params_url := params_url w; params_userId := params_userId w;
     metadataByMid := metadataByMid w; password := password w;
     decryptContextByMid := f (decryptContextByMid w);
     encryptContext := encryptContext w; pending := pending w; pipes := pipes w;
     next_ref := next_ref w |}.

Definition with_encryptContext (e : EncryptContext) (w : Worker) : Worker :=
  {| params_url := params_url w; params_userId := params_userId w;
     metadataByMid := metadataByMid w; password := password w;
     decryptContextByMid := decryptContextByMid w;
     encryptContext := e; pending := pending w; pipes := pipes w;
     next_ref := next_ref w |}.

Definition with_pending (f : list Pending → list Pending) (w : Worker) : Worker :=
  {| params_url := params_url w; params_userId := params_userId w;
     metadataByMid := metadataByMid w; password := password w;
     decryptContextByMid := decryptContextByMid w;
     encryptContext := encryptContext w; pending := f (pending w); pipes := pipes w;
     next_ref := next_ref w |}.

Definition with_pipe (p : Pipe) (w : Worker) : Worker :=
  {| params_url := params_url w; params_userId := params_userId w;
     metadataByMid := metadataByMid w; password := password w;
     decryptContextByMid := decryptContextByMid w;
     encryptContext := encryptContext w; pending := pending w;
     pipes := pipes w ++ [p]; next_ref := next_ref w |}.

(** A fresh object identity. *)
Definition new_ref (w : Worker) : nat * Worker :=
  (next_ref w,
   {| params_url := params_url w; params_userId := params_userId w;
      metadataByMid := metadataByMid w; password := password w;
      decryptContextByMid := decryptContextByMid w;
      encryptContext := encryptContext w; pending := pending w; pipes := pipes w;
      next_ref := S (next_ref w) |}).

(** ** Key management *)

Definition getUserId (w : Worker) (mid userId : string) : string :=
  match metadataByMid w !! mid with
  | None => userId
  | Some metadata => tm_userId metadata
  end.

(** The salt: the url, a zero byte, the user id. *)
Definition key_salt (url userId : string) : result u8array :=
  let urlBytes := text_encode url in
  let userIdBytes := text_encode userId in
  salt ← u8_new (u8_length urlBytes + 1 + u8_length userIdBytes);
  salt ← u8_set salt urlBytes 0;
  u8_set salt userIdBytes (u8_length urlBytes + 1).

(** What the promise of [createKey] is settled with. *)
Definition createKey (password url userId : string) : result CryptoKey :=
  salt ← key_salt url userId;
  Ok (deriveKey (text_encode password) salt).

Definition updateDecryptContext (mid userId : string) (w : Worker) : Worker :=
  let password := password w in
  let url := params_url w in
  let userId := getUserId w mid userId in
  let unchanged :=
    match decryptContextByMid w !! mid with
    | Some c => bool_decide (dctx_userId c = userId ∧ dctx_password c = password)
    | None => false
    end in
  if unchanged then w
  else
    let '(ref, w) := new_ref w in
    let c := {| dctx_ref := ref; dctx_key := None; dctx_userId := userId;
                dctx_password := password |} in
    let w := with_contexts (insert mid c) w in
    if decide (password = "") then w
    else with_pending (λ ps, ps ++ [PendingDecrypt mid ref password url userId]) w.

(** The continuation of a derivation started by [updateDecryptContext]. *)
Definition decryptKeyReady (mid : string) (ref : nat) (key : CryptoKey)
    (w : Worker) : Worker :=
  with_contexts
    (alter (λ c, if decide (dctx_ref c = ref)
                 then {| dctx_ref := ref; dctx_key := Some key;
                         dctx_userId := dctx_userId c;
                         dctx_password := dctx_password c |}
                 else c) mid) w.

(** The boolean: whether a derivation was started (otherwise the promise
    returned is already resolved). *)
Definition updateEncryptContext (refresh : bool) (w : Worker) : Worker * bool :=
  let password := password w in
  if decide (ectx_password (encryptContext w) = password) then (w, false)
  else if decide (password = "") then
    (with_encryptContext
       {| ectx_key := None; ectx_password := ectx_password (encryptContext w) |} w,
     false)
  else
    let w := with_encryptContext
      {| ectx_key := ectx_key (encryptContext w); ectx_password := password |} w in
    (with_pending
       (λ ps, ps ++ [PendingEncrypt password (params_url w) (params_userId w) refresh]) w,
     true).

Definition encryptKeyReady (password : string) (key : CryptoKey) (w : Worker) : Worker :=
  if decide (ectx_password (encryptContext w) = password)
  then with_encryptContext
         {| ectx_key := Some key; ectx_password := ectx_password (encryptContext w) |} w
  else w.

(** The second half of [handlePassword]: all decryption contexts. *)
Definition refreshDecryptContexts (w : Worker) : Worker :=
  foldl (λ w mid,
    match decryptContextByMid w !! mid with
    | Some decryptContext => updateDecryptContext mid (dctx_userId decryptContext) w
    | None => w
    end) w (object_keys (decryptContextByMid w)).

(** ** Message handlers *)

Definition handleMetadata (metadata : list TrackMetadata) (w : Worker) : Worker :=
  let w :=
    {| params_url := params_url w; params_userId := params_userId w;
       metadataByMid := foldl (λ obj m, <[tm_mid m := m]> obj) ∅ metadata;
       password := password w; decryptContextByMid := decryptContextByMid w;
       encryptContext := encryptContext w; pending := pending w; pipes := pipes w;
       next_ref := next_ref w |} in
  foldl (λ w mid,
    match metadataByMid w !! mid with
    | None => with_contexts (delete mid) w
    | Some m => updateDecryptContext mid (tm_userId m) w
    end) w (object_keys (decryptContextByMid w)).

Definition handlePassword (msg_password : string) (w : Worker) : Worker :=
  let w :=
    {| params_url := params_url w; params_userId := params_userId w;
       metadataByMid := metadataByMid w; password := msg_password;
       decryptContextByMid := decryptContextByMid w;
       encryptContext := encryptContext w; pending := pending w; pipes := pipes w;
       next_ref := next_ref w |} in
  let '(w, started) := updateEncryptContext true w in
  if started then w else refreshDecryptContexts w.

Definition handleEncrypt (streams : StreamPair) (w : Worker) : Worker :=
  (updateEncryptContext false (with_pipe (EncryptPipe streams) w)).1.

Definition handleDecrypt (mid userId : string) (streams : option StreamPair)
    (w : Worker) : Worker :=
  let w := match streams with
           | Some s => with_pipe (DecryptPipe mid s) w
           | None => w
           end in
  updateDecryptContext mid userId w.

Definition onmessage (msg : WorkerMessage) (w : Worker) : Worker :=
  match msg with
  | InitEvent url userId =>
    {| params_url := url; params_userId := userId;
       metadataByMid := metadataByMid w; password := password w;
       decryptContextByMid := decryptContextByMid w;
       encryptContext := encryptContext w; pending := pending w; pipes := pipes w;
       next_ref := next_ref w |}
  | PasswordEvent password => handlePassword password w
  | MetadataEvent metadata => handleMetadata metadata w
  | EncryptStreamEvent streams => handleEncrypt streams w
  | DecryptStreamEvent mid userId streams => handleDecrypt mid userId streams w
  end.

(** ** The event loop *)

(** A posted message, or one of the derivations under way getting its key. *)
Inductive WorkerEvent :=
  | Posted (msg : WorkerMessage)
  | KeyReady (i : nat).

Definition keyReady (p : Pending) (w : Worker) : result Worker :=
  match p with
  | PendingDecrypt mid ref password url userId =>
    key ← createKey password url userId;
    Ok (decryptKeyReady mid ref key w)
  | PendingEncrypt password url userId refresh =>
    key ← createKey password url userId;
    let w := encryptKeyReady password key w in
    Ok (if refresh then refreshDecryptContexts w else w)
  end.

Definition worker_step (e : WorkerEvent) (w : Worker) : option Worker :=
  match e with
  | Posted msg => Some (onmessage msg w)
  | KeyReady i =>
    p ← pending w !! i;
    match keyReady p (with_pending (delete i) w) with
    | Ok w => Some w
    | Throw _ => None
    end
  end.

Fixpoint worker_run (es : list WorkerEvent) (w : Worker) : option Worker :=
  match es with
  | [] => Some w
  | e :: es => w ← worker_step e w; worker_run es w
  end.

(** ** Frames *)

Definition isVideoFrame (f : Frame) : bool := bool_decide (is_Some (frame_type f)).

(** [frameTypeToCryptoOffset]: bytes left in the clear, per frame type. *)
Definition frameTypeToCryptoOffset (t : option FrameType) : Z :=
  match t with
  | Some FrameKey => 10
  | Some FrameDelta => 3
  | Some FrameEmpty => 1
  | None => 1
  end.

Definition getCryptoOffset (f : Frame) : Z :=
  if isVideoFrame f then frameTypeToCryptoOffset (frame_type f)
  else frameTypeToCryptoOffset None.

(** [new Uint8Array(buffer, offset, length)] and [new Uint8Array(buffer, offset)]. *)
Definition u8_view (buffer : u8array) (offset len : Z) : result u8array :=
  if decide (offset < 0 ∨ len < 0 ∨ u8_length buffer < offset + len)
  then Throw RangeError
  else Ok (take (Z.to_nat len) (drop (Z.to_nat offset) buffer)).

Definition u8_view_from (buffer : u8array) (offset : Z) : result u8array :=
  u8_view buffer offset (u8_length buffer - offset).

(** The encryption transform: the frames enqueued for one incoming frame, with
    the random [iv] drawn for it; an exception errors the stream. *)
Definition encrypt (w : Worker) (iv : u8array) (frame : Frame) : result (list Frame) :=
  match ectx_key (encryptContext w) with
  | None => Ok (if decide (password w = "") then [frame] else [])
  | Some key =>
    let cryptoOffset := getCryptoOffset frame in
    additionalData ← u8_view (frame_data frame) 0 cryptoOffset;
    dataToEncrypt ← u8_view_from (frame_data frame) cryptoOffset;
    let encryptedData := aes_encrypt key iv additionalData dataToEncrypt in
    newData ← u8_new (u8_length additionalData + u8_length encryptedData + u8_length iv);
    let offset := 0 in
    newData ← u8_set newData additionalData offset;
    let offset := offset + u8_length additionalData in
    newData ← u8_set newData encryptedData offset;
    let offset := offset + u8_length encryptedData in
    newData ← u8_set newData iv offset;
    Ok [{| frame_type := frame_type frame; frame_data := newData |}]
  end.

(** The decryption proper; any exception leaves the frame as it came. *)
Definition decrypt_data (key : CryptoKey) (frame : Frame) : result u8array :=
  let cryptoOffset := getCryptoOffset frame in
  let offset := 0 in
  additionalData ← u8_view (frame_data frame) offset cryptoOffset;
  let offset := offset + u8_length additionalData in
  encryptedData ← u8_view (frame_data frame) offset
    (u8_length (frame_data frame) - offset - ivByteLength);
  let offset := offset + u8_length encryptedData in
  iv ← u8_view_from (frame_data frame) offset;
  match aes_decrypt key iv additionalData encryptedData with
  | None => Throw (Error "OperationError")
  | Some decryptedData =>
    data ← u8_new (u8_length additionalData + u8_length decryptedData);
    data ← u8_set data additionalData 0;
    u8_set data decryptedData (u8_length additionalData)
  end.

(** The decryption transform: the frames enqueued for one incoming frame. *)
Definition decrypt (w : Worker) (mid : string) (frame : Frame) : list Frame :=
  match decryptContextByMid w !! mid with
  | None => [frame]
  | Some ctx =>
    match dctx_key ctx with
    | None => [frame]
    | Some key =>
      match decrypt_data key frame with
      | Ok data => [{| frame_type := frame_type frame; frame_data := data |}]
      | Throw _ => [frame]
      end
    end
  end.
End worker.
