(* ===== verification/KeyManagement.v ===== *)
(** Key management of the encryption worker: the invariant of its state under
    every interleaving of messages and key derivations. *)

From S2P Require Import Prelude Numbers Bytes TextCodec Objects InsertableStreams.

#[local] Open Scope Z_scope.

Section keys.
Context `{TextCodec} `{SubtleCrypto} `{ObjectKeys}.

(** * Keys *)

(** The key of a password, a page and a user. *)
Definition derived (password url userId : string) : CryptoKey :=
  deriveKey (text_encode password) (text_encode url ++ [x00] ++ text_encode userId).

Lemma key_salt_spec url userId :
  key_salt url userId = Ok (text_encode url ++ [x00] ++ text_encode userId).
Proof.
  unfold key_salt. set (u := text_encode url). set (v := text_encode userId).
  rewrite u8_new_ok, bind_Ok by (unfold u8_length; lia).
  replace (Z.to_nat _) with (length u + S (length v))%nat by (unfold u8_length; lia).
  rewrite (u8_set_append [] u (length u + S (length v))), bind_Ok by (done || lia).
  replace (_ - length u)%nat with (S (length v)) by lia.
  change (replicate (S (length v)) x00) with ([x00] ++ replicate (length v) x00).
  rewrite app_nil_l, (app_assoc u), u8_set_append
    by (unfold u8_length; rewrite ?length_app; simpl; lia).
  by rewrite Nat.sub_diag, app_nil_r, <-app_assoc.
Qed.

Lemma createKey_ok password url userId :
  createKey password url userId = Ok (derived password url userId).
Proof. unfold createKey. by rewrite key_salt_spec. Qed.

(** * The state invariant *)

Definition contexts_ok (url : string) (w : Worker) : Prop :=
  ∀ mid c, decryptContextByMid w !! mid = Some c →
    (dctx_ref c < next_ref w)%nat ∧
    match dctx_key c with
    | Some k => dctx_password c ≠ "" ∧ k = derived (dctx_password c) url (dctx_userId c)
    | None => dctx_password c = "" ∨
        PendingDecrypt mid (dctx_ref c) (dctx_password c) url (dctx_userId c) ∈ pending w
    end.

Definition pending_ok (url userId : string) (w : Worker) : Prop :=
  ∀ p, p ∈ pending w →
    match p with
    | PendingDecrypt mid ref pw u uid =>
        u = url ∧ pw ≠ "" ∧ (ref < next_ref w)%nat ∧
        ∀ c, decryptContextByMid w !! mid = Some c → dctx_ref c = ref →
          pw = dctx_password c ∧ uid = dctx_userId c
    | PendingEncrypt pw u uid _ => u = url ∧ uid = userId ∧ pw ≠ ""
    end.

(** A context is for the user the metadata names, when there is metadata. *)
Definition users_ok (w : Worker) : Prop :=
  ∀ mid c m, decryptContextByMid w !! mid = Some c → metadataByMid w !! mid = Some m →
    dctx_userId c = tm_userId m.

Definition encrypt_key_ok (url userId : string) (w : Worker) : Prop :=
  ∀ k, ectx_key (encryptContext w) = Some k → ∃ pw, pw ≠ "" ∧ k = derived pw url userId.

Record worker_inv (url userId : string) (w : Worker) : Prop := {
  inv_url : params_url w = url;
  inv_userId : params_userId w = userId;
  inv_contexts : contexts_ok url w;
  inv_pending : pending_ok url userId w;
  inv_users : users_ok w;
  inv_encrypt_key : encrypt_key_ok url userId w;
}.

(** Every decryption context is for the current password. *)
Definition all_current (w : Worker) : Prop :=
  ∀ mid c, decryptContextByMid w !! mid = Some c → dctx_password c = password w.

(** ... or a continuation that will see to it is under way. *)
Definition current_or_refresh (w : Worker) : Prop :=
  all_current w ∨ ∃ pw u uid, PendingEncrypt pw u uid true ∈ pending w.

(** ** Primitive updates *)

Lemma updateDecryptContext_lookup_ne mid uid w mid' :
  mid ≠ mid' →
  decryptContextByMid (updateDecryptContext mid uid w) !! mid'
  = decryptContextByMid w !! mid'.
Proof.
  intros Hne. unfold updateDecryptContext. simpl.
  repeat case_match; simplify_eq; simpl; by rewrite ?lookup_insert_ne.
Qed.

(** The context of [mid] is for the current password and user afterwards. *)
Lemma updateDecryptContext_lookup mid uid w :
  ∃ c, decryptContextByMid (updateDecryptContext mid uid w) !! mid = Some c ∧
    dctx_password c = password w ∧ dctx_userId c = getUserId w mid uid.
Proof.
  unfold updateDecryptContext. simpl.
  destruct (decryptContextByMid w !! mid) as [c|] eqn:Hc; [case_bool_decide as Heq|].
  - exists c. by destruct Heq.
  - case_decide; simpl; rewrite lookup_insert_eq; by eexists.
  - case_decide; simpl; rewrite lookup_insert_eq; by eexists.
Qed.

(** The rest of the state: untouched, and derivations only get added. *)
Lemma updateDecryptContext_frame mid uid w :
  let w' := updateDecryptContext mid uid w in
  params_url w' = params_url w ∧ params_userId w' = params_userId w ∧
  metadataByMid w' = metadataByMid w ∧ password w' = password w ∧
  encryptContext w' = encryptContext w ∧ pending w ⊆ pending w'.
Proof.
  unfold updateDecryptContext. simpl.
  repeat case_match; simplify_eq; simpl; split_and!; done || set_solver.
Qed.

(** A new context for [mid], with its derivation when there is a password. *)
Definition renew_context (mid uid : string) (w : Worker) : Worker :=
  with_pending
    (λ ps, ps ++ if decide (password w = "") then []
                 else [PendingDecrypt mid (next_ref w) (password w) (params_url w) uid])
    (with_contexts
       (insert mid {| dctx_ref := next_ref w; dctx_key := None; dctx_userId := uid;
                      dctx_password := password w |}) (new_ref w).2).

Lemma updateDecryptContext_cases mid uid w :
  (∃ c, decryptContextByMid w !! mid = Some c ∧ dctx_password c = password w ∧
        dctx_userId c = getUserId w mid uid ∧ updateDecryptContext mid uid w = w) ∨
  updateDecryptContext mid uid w = renew_context mid (getUserId w mid uid) w.
Proof.
  unfold updateDecryptContext, renew_context. simpl.
  destruct (decryptContextByMid w !! mid) as [c|]; [case_bool_decide as Heq|].
  - left. exists c. by destruct Heq.
  - right. case_decide; [|done]. unfold with_pending; simpl. by rewrite app_nil_r.
  - right. case_decide; [|done]. unfold with_pending; simpl. by rewrite app_nil_r.
Qed.

Lemma renew_context_contexts url mid uid w :
  params_url w = url → contexts_ok url w → contexts_ok url (renew_context mid uid w).
Proof.
  intros Hu Hw mid' c. simpl. rewrite lookup_insert. case_decide as Hm.
  - intros [= <-]. simpl. split; [lia|].
    case_decide; [by left|]. right. subst. apply elem_of_app. right. by left.
  - intros [Hr Hk]%Hw. split; [lia|]. destruct (dctx_key c); [done|].
    destruct Hk; [by left|right]. apply elem_of_app. by left.
Qed.

Lemma renew_context_pending url userId mid uid w :
  params_url w = url → pending_ok url userId w →
  pending_ok url userId (renew_context mid uid w).
Proof.
  intros Hu Hp p. simpl. intros [Hin|Hin]%elem_of_app.
  - specialize (Hp p Hin). destruct p as [mid' ref pw u v|]; [|done].
    destruct Hp as (-> & Hpw & Hr & Hc). split_and!; [done|done|lia|].
    intros c. rewrite lookup_insert. case_decide; [|by apply Hc].
    intros [= <-]. simpl. lia.
  - case_decide as Hpw; [by apply not_elem_of_nil in Hin|].
    apply list_elem_of_singleton in Hin as ->. split_and!; [done|done|simpl; lia|].
    intros c. simpl. rewrite lookup_insert_eq. by intros [= <-].
Qed.

Lemma updateDecryptContext_inv url userId mid uid w :
  worker_inv url userId w → worker_inv url userId (updateDecryptContext mid uid w).
Proof.
  intros [Hu Hi Hc Hp Hus He].
  destruct (updateDecryptContext_cases mid uid w) as [(c & _ & _ & _ & ->)| ->];
    [by split|].
  split; [done|done|by apply renew_context_contexts|by apply renew_context_pending| |done].
  intros mid' c m. simpl. rewrite lookup_insert. case_decide as Hm; [|by apply Hus].
  intros [= <-] Hmd. subst mid'. simpl. unfold getUserId. by rewrite Hmd.
Qed.

Lemma delete_context_inv url userId mid w :
  worker_inv url userId w → worker_inv url userId (with_contexts (delete mid) w).
Proof.
  intros [Hu Hi Hc Hp Hus He]. split; [done|done| | | |done].
  - intros mid' c. simpl. intros [_ Hl]%lookup_delete_Some. by apply Hc.
  - intros p Hin. specialize (Hp p Hin). destruct p; [|done].
    destruct Hp as (?&?&?&Hcs). split_and!; [done..|].
    intros c. simpl. intros [_ Hl]%lookup_delete_Some. by apply Hcs.
  - intros mid' c m. simpl. intros [_ Hl]%lookup_delete_Some. by apply Hus.
Qed.

(** ** The loop over all contexts *)

Lemma refresh_inv url userId w :
  worker_inv url userId w → worker_inv url userId (refreshDecryptContexts w).
Proof.
  intros Hw. unfold refreshDecryptContexts. apply foldl_invariant; [|done].
  intros w' mid _ Hw'. case_match; [by apply updateDecryptContext_inv|done].
Qed.

(** A loop of context updates: what it leaves alone, and that derivations are
    only added. *)
Definition extends (w w' : Worker) : Prop :=
  password w' = password w ∧ encryptContext w' = encryptContext w ∧
  pending w ⊆ pending w'.

#[export] Instance extends_preorder : PreOrder extends.
Proof.
  split; [intros x; by repeat split|].
  intros x y z (?&?&?) (?&?&?). repeat split; [congruence..|]. by etrans.
Qed.

Lemma updateDecryptContext_extends mid uid w : extends w (updateDecryptContext mid uid w).
Proof.
  destruct (updateDecryptContext_frame mid uid w) as (_ & _ & _ & ? & ? & ?). done.
Qed.

Lemma refresh_extends w : extends w (refreshDecryptContexts w).
Proof.
  unfold refreshDecryptContexts. apply foldl_invariant; [|reflexivity].
  intros w' mid _ Hw'. etrans; [exact Hw'|].
  case_match; [apply updateDecryptContext_extends|reflexivity].
Qed.

(** Once a context has been visited it stays current; the others are the keys
    still to come. *)
Lemma refresh_loop ks : ∀ w,
  (∀ mid c, decryptContextByMid w !! mid = Some c →
     dctx_password c = password w ∨ mid ∈ ks) →
  all_current (foldl (λ w mid,
    match decryptContextByMid w !! mid with
    | Some c => updateDecryptContext mid (dctx_userId c) w
    | None => w
    end) w ks).
Proof.
  induction ks as [|mid ks IH]; intros w Hw.
  - intros mid c Hc. destruct (Hw mid c Hc) as [?|Hin]; [done|].
    by apply not_elem_of_nil in Hin.
  - cbn. apply IH. intros mid' c.
    destruct (decryptContextByMid w !! mid) as [c0|] eqn:Hold.
    + destruct (updateDecryptContext_lookup mid (dctx_userId c0) w)
        as (c' & Hc' & Hpw & _).
      destruct (updateDecryptContext_extends mid (dctx_userId c0) w) as (-> & _).
      destruct (decide (mid = mid')) as [<-|Hne].
      * rewrite Hc'. intros [= <-]. by left.
      * rewrite updateDecryptContext_lookup_ne by done. intros Hl.
        destruct (Hw _ _ Hl) as [?|[->|?]%elem_of_cons]; by auto.
    + intros Hl. destruct (Hw _ _ Hl) as [?|[->|?]%elem_of_cons]; auto. congruence.
Qed.

Lemma refresh_all_current w : all_current (refreshDecryptContexts w).
Proof.
  unfold refreshDecryptContexts. apply refresh_loop.
  intros mid c Hc. right. apply elem_of_object_keys. eauto.
Qed.

(** ** The encryption context *)

Lemma updateEncryptContext_inv url userId refresh w :
  worker_inv url userId w → worker_inv url userId (updateEncryptContext refresh w).1.
Proof.
  intros [Hu Hi Hc Hp Hus He]. unfold updateEncryptContext.
  case_decide; [by split|]. case_decide as Hpw; [by split|]. simpl.
  split; [done|done| | |done|done].
  - intros mid c Hl. destruct (Hc mid c Hl) as [Hr Hk]. split; [done|].
    destruct (dctx_key c); [done|]. destruct Hk; [by left|right].
    apply elem_of_app. by left.
  - intros p [Hin| ->%list_elem_of_singleton]%elem_of_app; [by apply Hp|done].
Qed.

Lemma updateEncryptContext_pending refresh w :
  pending w ⊆ pending (updateEncryptContext refresh w).1 ∧
  decryptContextByMid (updateEncryptContext refresh w).1 = decryptContextByMid w ∧
  password (updateEncryptContext refresh w).1 = password w ∧
  ((updateEncryptContext refresh w).2 = true →
   ∃ pw u uid, PendingEncrypt pw u uid refresh ∈ pending (updateEncryptContext refresh w).1).
Proof.
  unfold updateEncryptContext.
  case_decide; [done|]. case_decide; [done|]. simpl. split_and!; [set_solver|done|done|].
  intros _. do 3 eexists. apply elem_of_app. right. by left.
Qed.

Lemma encryptKeyReady_inv url userId pw w :
  pw ≠ "" → worker_inv url userId w →
  worker_inv url userId (encryptKeyReady pw (derived pw url userId) w).
Proof.
  intros Hpw [Hu Hi Hc Hp Hus He]. unfold encryptKeyReady.
  case_decide; [|by split]. split; try done.
  intros k [= <-]. by exists pw.
Qed.

(** ** Settling a derivation *)

(** Before its continuation runs, the settled derivation is forgotten. *)
Lemma pending_ok_delete url userId i w :
  pending_ok url userId w → pending_ok url userId (with_pending (delete i) w).
Proof. intros Hp p Hin. by apply Hp, (elem_of_delete _ i). Qed.

Lemma settle_decrypt_inv url userId i mid ref pw uid w :
  worker_inv url userId w → pending w !! i = Some (PendingDecrypt mid ref pw url uid) →
  worker_inv url userId
    (decryptKeyReady mid ref (derived pw url uid) (with_pending (delete i) w)).
Proof.
  intros [Hu Hi Hc Hp Hus He] Hpi.
  assert (Hin := list_elem_of_lookup_2 _ _ _ Hpi).
  destruct (Hp _ Hin) as (_ & Hpw & Hr & Hcap).
  unfold decryptKeyReady. split; [done|done| | | |done].
  - intros mid' c. simpl. rewrite lookup_alter. case_decide as Hm.
    + subst mid'. destruct (decryptContextByMid w !! mid) as [c0|] eqn:Hold; [|done].
      simpl. intros [= <-]. destruct (Hc _ _ Hold) as [Hr0 Hk0].
      case_decide as Href; simpl; [by destruct (Hcap c0) as [<- <-]|].
      split; [done|]. destruct (dctx_key c0); [done|].
      destruct Hk0 as [?|Hk0]; [by left|right].
      eapply elem_of_delete_ne; [done| |done]. congruence.
    + intros Hl. destruct (Hc _ _ Hl) as [Hr0 Hk0]. split; [done|].
      destruct (dctx_key c); [done|]. destruct Hk0 as [?|Hk0]; [by left|right].
      eapply elem_of_delete_ne; [done| |done]. congruence.
  - intros p Hpd. specialize (pending_ok_delete _ _ i _ Hp p Hpd).
    destruct p as [mid' ref' pw' u' uid'|]; [|done]. simpl.
    intros (? & ? & ? & Hcs). split_and!; [done..|].
    intros c. rewrite lookup_alter. case_decide; [|by apply Hcs]. subst mid'.
    destruct (decryptContextByMid w !! mid) as [c0|] eqn:Hold; [|done].
    simpl. intros [= <-]. case_decide; simpl; intros; apply Hcs; congruence.
  - intros mid' c m. simpl. rewrite lookup_alter. case_decide; [|by apply Hus].
    subst mid'. destruct (decryptContextByMid w !! mid) as [c0|] eqn:Hold; [|done].
    simpl. intros [= <-] Hm. case_decide; simpl; by eapply Hus.
Qed.

Lemma settle_encrypt_inv url userId i pw refresh w :
  worker_inv url userId w → pending w !! i = Some (PendingEncrypt pw url userId refresh) →
  worker_inv url userId (with_pending (delete i) w).
Proof.
  intros [Hu Hi Hc Hp Hus He] Hpi. split; try done; [|by apply pending_ok_delete].
  intros mid c Hl. destruct (Hc _ _ Hl) as [Hr0 Hk0]. split; [done|].
  destruct (dctx_key c); [done|]. destruct Hk0 as [?|Hk0]; [by left|right].
  by eapply elem_of_delete_ne.
Qed.

(** * The message handlers and the event loop *)

Definition set_metadata (m : gmap string TrackMetadata) (w : Worker) : Worker :=
  {| params_url := params_url w; params_userId := params_userId w;
     metadataByMid := m; password := password w;
     decryptContextByMid := decryptContextByMid w;
     encryptContext := encryptContext w; pending := pending w; pipes := pipes w;
     next_ref := next_ref w |}.

(** The loop of [handleMetadata], visiting [ks]. *)
Definition metadata_visit (mid : string) (w : Worker) : Worker :=
  match metadataByMid w !! mid with
  | None => with_contexts (delete mid) w
  | Some m => updateDecryptContext mid (tm_userId m) w
  end.
Definition metadata_loop (ks : list string) (w : Worker) : Worker :=
  foldl (λ w mid, metadata_visit mid w) w ks.

Lemma metadata_loop_cons k ks w :
  metadata_loop (k :: ks) w = metadata_loop ks (metadata_visit k w).
Proof. done. Qed.

Lemma metadata_loop_lookup ks : ∀ w mid,
  NoDup ks →
  metadataByMid (metadata_loop ks w) = metadataByMid w ∧
  password (metadata_loop ks w) = password w ∧
  (mid ∉ ks → decryptContextByMid (metadata_loop ks w) !! mid
              = decryptContextByMid w !! mid) ∧
  (mid ∈ ks →
    match metadataByMid w !! mid with
    | None => decryptContextByMid (metadata_loop ks w) !! mid = None
    | Some m => ∃ c, decryptContextByMid (metadata_loop ks w) !! mid = Some c ∧
        dctx_password c = password w ∧ dctx_userId c = tm_userId m
    end).
Proof.
  induction ks as [|k ks IH]; intros w mid Hnd.
  { split_and!; [done..|]. by intros ?%not_elem_of_nil. }
  apply NoDup_cons in Hnd as [Hk Hnd]. rewrite metadata_loop_cons.
  set (w' := metadata_visit k w).
  destruct (IH w' mid Hnd) as (Hm & Hp & Hout & Hin).
  destruct (updateDecryptContext_frame k (default "" (tm_userId <$> metadataByMid w !! k)) w)
    as (_ & _ & Hfm & Hfp & _ & _).
  assert (metadataByMid w' = metadataByMid w) as Hm'.
  { unfold w', metadata_visit. by destruct (metadataByMid w !! k). }
  assert (password w' = password w) as Hp'.
  { unfold w', metadata_visit. by destruct (metadataByMid w !! k). }
  assert (∀ mid', mid' ≠ k →
    decryptContextByMid w' !! mid' = decryptContextByMid w !! mid') as Hne.
  { intros mid' Hn. unfold w', metadata_visit. destruct (metadataByMid w !! k).
    - by rewrite updateDecryptContext_lookup_ne.
    - simpl. by rewrite lookup_delete_ne. }
  rewrite Hm, Hp, Hm', Hp'. rewrite Hm', Hp' in Hin. split_and!; [done|done| |].
  - intros [Hn Hn']%not_elem_of_cons. rewrite Hout by done. by apply Hne.
  - intros [->|Hmid]%elem_of_cons; [|by apply Hin].
    rewrite Hout by done. unfold w', metadata_visit. destruct (metadataByMid w !! k) as [m|] eqn:Hmk.
    + destruct (updateDecryptContext_lookup k (tm_userId m) w) as (c & Hc & Hcp & Hcu).
      exists c. split_and!; [done..|]. rewrite Hcu. unfold getUserId. by rewrite Hmk.
    + simpl. by rewrite lookup_delete_eq.
Qed.

Lemma handleMetadata_loop metadata w :
  handleMetadata metadata w
  = metadata_loop (object_keys (decryptContextByMid w))
      (set_metadata (foldl (λ obj m, <[tm_mid m := m]> obj) ∅ metadata) w).
Proof. done. Qed.

Lemma handleMetadata_all_current metadata w : all_current (handleMetadata metadata w).
Proof.
  intros mid c. rewrite handleMetadata_loop.
  set (w' := set_metadata _ w).
  destruct (metadata_loop_lookup (object_keys (decryptContextByMid w)) w' mid)
    as (_ & -> & Hout & Hin); [apply NoDup_object_keys|].
  destruct (decide (mid ∈ object_keys (decryptContextByMid w))) as [Hk|Hk].
  - specialize (Hin Hk). destruct (metadataByMid w' !! mid).
    + destruct Hin as (c' & -> & Hc' & _). by intros [= <-].
    + by rewrite Hin.
  - rewrite (Hout Hk). simpl. intros Hc. destruct Hk. apply elem_of_object_keys. eauto.
Qed.

(** Between the new metadata and the loop over the contexts [users_ok] is
    broken; the rest of the invariant holds all along. *)
Record worker_inv_pre (url userId : string) (w : Worker) : Prop := {
  pre_url : params_url w = url;
  pre_userId : params_userId w = userId;
  pre_contexts : contexts_ok url w;
  pre_pending : pending_ok url userId w;
  pre_encrypt_key : encrypt_key_ok url userId w;
}.

Lemma metadata_loop_pre url userId ks w :
  worker_inv_pre url userId w → worker_inv_pre url userId (metadata_loop ks w).
Proof.
  intros Hw. unfold metadata_loop. apply foldl_invariant; [|done].
  intros w' mid _ [Hu Hi Hc Hp He].
  unfold metadata_visit. case_match.
  - edestruct (updateDecryptContext_cases mid) as [(c & _ & _ & _ & ->)| ->]; [by split|].
    split; [done|done|by apply renew_context_contexts|by apply renew_context_pending|done].
  - assert (worker_inv url userId
      (with_contexts (delete mid) (set_metadata ∅ w'))) as [? ? ? ? ? ?]; [|by split].
    apply delete_context_inv. by split.
Qed.

Lemma handleMetadata_inv url userId metadata w :
  worker_inv url userId w → worker_inv url userId (handleMetadata metadata w).
Proof.
  intros [Hu Hi Hc Hp Hus He]. rewrite handleMetadata_loop.
  set (w' := set_metadata _ w). set (ks := object_keys _).
  assert (worker_inv_pre url userId (metadata_loop ks w')) as [? ? ? ? ?].
  { by apply metadata_loop_pre. }
  split; [done..| |done].
  intros mid c m. destruct (metadata_loop_lookup ks w' mid)
    as (-> & _ & Hout & Hin); [apply NoDup_object_keys|].
  intros Hl Hm. rewrite Hm in Hin.
  destruct (decide (mid ∈ ks)) as [Hk|Hk].
  - destruct (Hin Hk) as (c' & Hc' & _ & Hu'). congruence.
  - rewrite Hout in Hl by done. destruct Hk. apply elem_of_object_keys. eauto.
Qed.

Lemma handlePassword_inv url userId pw w :
  worker_inv url userId w → worker_inv url userId (handlePassword pw w).
Proof.
  intros Hw. unfold handlePassword.
  match goal with |- context [updateEncryptContext true ?x] => set (w' := x) end.
  assert (worker_inv url userId w') as Hw' by by destruct Hw.
  apply (updateEncryptContext_inv _ _ true) in Hw'.
  destruct (updateEncryptContext true w') as [w'' []]; [done|]. by apply refresh_inv.
Qed.

Lemma onmessage_inv url userId msg w :
  (∀ u v, msg ≠ InitEvent u v) →
  worker_inv url userId w → worker_inv url userId (onmessage msg w).
Proof.
  intros Hmsg Hw. destruct msg as [u v|pw|md|s|mid uid s]; simpl.
  - by destruct (Hmsg u v).
  - by apply handlePassword_inv.
  - by apply handleMetadata_inv.
  - apply updateEncryptContext_inv. by destruct Hw.
  - apply updateDecryptContext_inv. destruct s; [by destruct Hw|done].
Qed.

(** The continuation of a derivation, in terms of the key it gets. *)
Lemma keyReady_inv url userId i p w :
  worker_inv url userId w → pending w !! i = Some p →
  ∃ w', keyReady p (with_pending (delete i) w) = Ok w' ∧ worker_inv url userId w'.
Proof.
  intros Hw Hi. assert (Hp := list_elem_of_lookup_2 _ _ _ Hi).
  apply (inv_pending _ _ _ Hw) in Hp. destruct p as [mid ref pw u uid|pw u uid refresh].
  - destruct Hp as (-> & _). eexists. split.
    + unfold keyReady. by rewrite createKey_ok, bind_Ok.
    + by apply settle_decrypt_inv.
  - destruct Hp as (-> & -> & Hpw). eexists. split.
    + unfold keyReady. by rewrite createKey_ok, bind_Ok.
    + assert (worker_inv url userId
        (encryptKeyReady pw (derived pw url userId) (with_pending (delete i) w))).
      { apply encryptKeyReady_inv; [done|]. by eapply settle_encrypt_inv. }
      destruct refresh; [by apply refresh_inv|done].
Qed.
End keys.
