(* ===== verification/KeySafety.v ===== *)
(** The encryption worker as a transition system: what holds in every state it
    can reach, and that it always settles. *)

From S2P Require Import Prelude Numbers Bytes TextCodec Objects InsertableStreams KeyManagement.

#[local] Open Scope Z_scope.

Section safety.
Context `{TextCodec} `{SubtleCrypto} `{ObjectKeys}.

(** * Reachable states *)

(** The worker is initialised once, by the constructor of
    [InsertableStreamsCodec]; then messages that satisfy [allowed] and finished
    key derivations come in any order. *)
Inductive reachable (allowed : WorkerMessage → Prop) (url userId : string) :
    Worker → Prop :=
  | reachable_init :
      reachable allowed url userId (onmessage (InitEvent url userId) new_worker)
  | reachable_posted w msg w' :
      reachable allowed url userId w → allowed msg →
      worker_step (Posted msg) w = Some w' → reachable allowed url userId w'
  | reachable_ready w i w' :
      reachable allowed url userId w →
      worker_step (KeyReady i) w = Some w' → reachable allowed url userId w'.

Definition after_init (msg : WorkerMessage) : Prop :=
  match msg with InitEvent _ _ => False | _ => True end.

(** The password is never taken away. *)
Definition keeps_password (msg : WorkerMessage) : Prop :=
  match msg with InitEvent _ _ => False | PasswordEvent pw => pw ≠ "" | _ => True end.

Lemma reachable_mono (P Q : WorkerMessage → Prop) url userId w :
  (∀ m, P m → Q m) → reachable P url userId w → reachable Q url userId w.
Proof.
  intros HPQ. induction 1; [constructor|eapply reachable_posted|eapply reachable_ready];
    eauto.
Qed.

Lemma worker_step_ready i w w' :
  worker_step (KeyReady i) w = Some w' →
  ∃ p, pending w !! i = Some p ∧ keyReady p (with_pending (delete i) w) = Ok w'.
Proof.
  unfold worker_step. destruct (pending w !! i) as [p|]; [|done]. cbn.
  destruct (keyReady p _) eqn:Hk; [|done]. intros [= ->]. by exists p.
Qed.

Lemma init_inv url userId :
  worker_inv url userId (onmessage (InitEvent url userId) new_worker).
Proof.
  split; [done|done| | | |].
  - intros mid c. simpl. by rewrite lookup_empty.
  - intros p. simpl. by intros ?%not_elem_of_nil.
  - intros mid c m. simpl. by rewrite lookup_empty.
  - intros k. done.
Qed.

(** A run of admissible events. *)
Definition allowed_event (allowed : WorkerMessage → Prop) (e : WorkerEvent) : Prop :=
  match e with Posted msg => allowed msg | KeyReady _ => True end.

Lemma run_reachable allowed url userId es w w' :
  Forall (allowed_event allowed) es → reachable allowed url userId w →
  worker_run es w = Some w' → reachable allowed url userId w'.
Proof.
  intros Hes. revert w. induction Hes as [|e es He _ IH]; intros w Hr;
    cbn [worker_run]; [by intros [= <-]|].
  destruct (worker_step e w) as [w1|] eqn:Hs; [|done]. cbn [mbind option_bind].
  apply IH. destruct e as [msg|i]; [by eapply reachable_posted|by eapply reachable_ready].
Qed.

(** An invariant of the initial state, the messages and the continuations holds
    in every reachable state; [worker_inv] can be assumed on the way. *)
Lemma reachable_induction (allowed : WorkerMessage → Prop) url userId (P : Worker → Prop) :
  (∀ m, allowed m → after_init m) →
  P (onmessage (InitEvent url userId) new_worker) →
  (∀ w msg, worker_inv url userId w → P w → allowed msg → P (onmessage msg w)) →
  (∀ w i p w', worker_inv url userId w → P w → pending w !! i = Some p →
     keyReady p (with_pending (delete i) w) = Ok w' → P w') →
  ∀ w, reachable allowed url userId w → worker_inv url userId w ∧ P w.
Proof.
  intros Hal Hinit Hmsg Hready w. induction 1 as [|w msg w' _ [Hi HP] Ha Hs|w i w' _ [Hi HP] Hs].
  - split; [apply init_inv|done].
  - injection Hs as <-. split; [|by apply Hmsg]. apply onmessage_inv; [|done].
    intros u v ->. by apply Hal in Ha.
  - apply worker_step_ready in Hs as (p & Hp & Hk). split; [|by eapply Hready].
    destruct (keyReady_inv url userId i p w Hi Hp) as (w'' & Hk' & ?). congruence.
Qed.

Lemma reachable_inv url userId w :
  reachable after_init url userId w → worker_inv url userId w.
Proof. intros Hr. by apply (reachable_induction after_init url userId (λ _, True)) in Hr as [? _]. Qed.

(** * Decryption contexts are for the current password *)

Lemma updateDecryptContext_all_current mid uid w :
  all_current w → all_current (updateDecryptContext mid uid w).
Proof.
  intros Hw mid' c. destruct (updateDecryptContext_extends mid uid w) as (-> & _).
  destruct (decide (mid = mid')) as [<-|Hne].
  - destruct (updateDecryptContext_lookup mid uid w) as (c' & -> & ? & _). by intros [= <-].
  - rewrite updateDecryptContext_lookup_ne by done. apply Hw.
Qed.

Lemma onmessage_current w msg :
  after_init msg → current_or_refresh w → current_or_refresh (onmessage msg w).
Proof.
  intros Hm Hw. destruct msg as [u v|pw|md|s|mid uid s]; [done| | | |]; simpl.
  - unfold handlePassword. match goal with |- context [updateEncryptContext true ?x] =>
      destruct (updateEncryptContext_pending true x) as (_ & _ & _ & Hst);
      destruct (updateEncryptContext true x) as [w' []] end.
    + by right; apply Hst.
    + left. apply refresh_all_current.
  - left. apply handleMetadata_all_current.
  - unfold handleEncrypt. set (w' := with_pipe _ w).
    destruct (updateEncryptContext_pending false w') as (Hsub & Hctx & Hpw & _).
    destruct Hw as [Hw|(pw & u & v & Hin)].
    + left. intros mid c. rewrite Hctx, Hpw. apply Hw.
    + right. exists pw, u, v. by apply Hsub.
  - unfold handleDecrypt. set (w' := match s with Some _ => _ | None => _ end).
    assert (current_or_refresh w') as [Hw'|(pw & u & v & Hin)] by by destruct s.
    + left. by apply updateDecryptContext_all_current.
    + right. exists pw, u, v. by apply updateDecryptContext_extends.
Qed.

Lemma keyReady_current w i p w' :
  pending w !! i = Some p → keyReady p (with_pending (delete i) w) = Ok w' →
  current_or_refresh w → current_or_refresh w'.
Proof.
  intros Hp Hk Hw. destruct p as [mid ref pw u uid|pw u uid refresh];
    unfold keyReady in Hk; rewrite createKey_ok, bind_Ok in Hk; injection Hk as <-.
  - destruct Hw as [Hw|(pw' & u' & v & Hin)].
    + left. intros mid' c. simpl. rewrite lookup_alter. case_decide; [|by apply Hw].
      destruct (decryptContextByMid w !! mid') as [c0|] eqn:Hold; [|by subst; rewrite Hold].
      subst. rewrite Hold. simpl. intros [= <-].
      case_decide; simpl; by apply (Hw _ _ Hold).
    + right. exists pw', u', v. by eapply elem_of_delete_ne.
  - destruct refresh; [left; apply refresh_all_current|].
    assert (∀ w0 k, all_current w0 → all_current (encryptKeyReady pw k w0)) as Hek.
    { intros w0 k Hw0. unfold encryptKeyReady. by case_decide. }
    destruct Hw as [Hw|(pw' & u' & v & Hin)]; [by left; apply Hek|right].
    exists pw', u', v. unfold encryptKeyReady.
    case_decide; simpl; by eapply elem_of_delete_ne.
Qed.

Lemma reachable_current url userId w :
  reachable after_init url userId w → current_or_refresh w.
Proof.
  intros Hr. apply (reachable_induction after_init url userId current_or_refresh) in Hr
    as [_ ?]; [done|done| | |].
  - left. intros mid c. simpl. by rewrite lookup_empty.
  - intros. by apply onmessage_current.
  - intros. by eapply keyReady_current.
Qed.

(** * The encryption context *)

(** The encryption context is for the current password, and has its key, or
    none, or waits for it. *)
Definition encrypt_ok (url userId : string) (w : Worker) : Prop :=
  let e := encryptContext w in
  (password w ≠ "" → ectx_password e = password w) ∧
  (ectx_key e = None ∨ ectx_key e = Some (derived (ectx_password e) url userId) ∨
   ∃ refresh, PendingEncrypt (ectx_password e) url userId refresh ∈ pending w).

(** The same when the password was never taken away. *)
Definition encrypt_ready (url userId : string) (w : Worker) : Prop :=
  ectx_password (encryptContext w) = password w ∧
  (password w ≠ "" →
   ectx_key (encryptContext w) = Some (derived (password w) url userId) ∨
   ∃ refresh, PendingEncrypt (password w) url userId refresh ∈ pending w).

Lemma encrypt_ok_extends url userId w w' :
  extends w w' → encrypt_ok url userId w → encrypt_ok url userId w'.
Proof.
  intros (Hp & He & Hsub) [Hpw Hk]. unfold encrypt_ok. rewrite Hp, He.
  split; [done|]. destruct Hk as [?|[?|[r ?]]]; eauto.
Qed.

Lemma encrypt_ready_extends url userId w w' :
  extends w w' → encrypt_ready url userId w → encrypt_ready url userId w'.
Proof.
  intros (Hp & He & Hsub) [Hpw Hk]. unfold encrypt_ready. rewrite Hp, He.
  split; [done|]. intros Hne. destruct (Hk Hne) as [?|[r ?]]; eauto.
Qed.

Lemma handleMetadata_extends metadata w : extends w (handleMetadata metadata w).
Proof.
  rewrite handleMetadata_loop. unfold metadata_loop. apply foldl_invariant; [|done].
  intros w' mid _ Hw'. etrans; [exact Hw'|]. unfold metadata_visit.
  case_match; [apply updateDecryptContext_extends|done].
Qed.

(** Everything but the encryption context is left to [extends]. *)
Lemma onmessage_encrypt_cases (P : Worker → Prop) url userId msg w :
  after_init msg → worker_inv url userId w → P w →
  (∀ w w', extends w w' → P w → P w') →
  (∀ pw, msg = PasswordEvent pw →
    P (updateEncryptContext true
      {| params_url := params_url w; params_userId := params_userId w;
         metadataByMid := metadataByMid w; password := pw;
         decryptContextByMid := decryptContextByMid w;
         encryptContext := encryptContext w; pending := pending w; pipes := pipes w;
         next_ref := next_ref w |}).1) →
  (∀ s, P (updateEncryptContext false (with_pipe (EncryptPipe s) w)).1) →
  P (onmessage msg w).
Proof.
  intros Hm Hi HP Hext Hpw Henc. destruct msg as [u v|pw|md|s|mid uid s]; [done| | | |]; simpl.
  - unfold handlePassword. specialize (Hpw pw eq_refl).
    destruct (updateEncryptContext _ _) as [w' []]; [done|].
    eapply Hext; [apply refresh_extends|done].
  - eapply Hext; [apply handleMetadata_extends|done].
  - apply Henc.
  - unfold handleDecrypt. eapply Hext; [apply updateDecryptContext_extends|].
    destruct s; [|done]. eapply Hext; [|exact HP]. by repeat split.
Qed.

Lemma updateEncryptContext_ok url userId refresh w :
  params_url w = url → params_userId w = userId →
  (ectx_key (encryptContext w) = None ∨
   ectx_key (encryptContext w)
   = Some (derived (ectx_password (encryptContext w)) url userId) ∨
   ∃ r, PendingEncrypt (ectx_password (encryptContext w)) url userId r ∈ pending w) →
  encrypt_ok url userId (updateEncryptContext refresh w).1.
Proof.
  intros <- <- Hk. unfold updateEncryptContext.
  case_decide as Heq; [by split|]. case_decide as Hpw; simpl.
  - split; [done|by left].
  - split; [done|]. right; right. exists refresh. simpl. apply elem_of_app. right. by left.
Qed.

Lemma reachable_encrypt_ok url userId w :
  reachable after_init url userId w → encrypt_ok url userId w.
Proof.
  intros Hr. apply (reachable_induction after_init url userId (encrypt_ok url userId)) in Hr
    as [_ ?]; [done|done| | |].
  - split; [done|by left].
  - intros w0 msg Hi HP Hm. eapply onmessage_encrypt_cases; [done..| | |].
    + intros ??. apply encrypt_ok_extends.
    + intros pw _. destruct Hi, HP as [_ Hk]. apply updateEncryptContext_ok; auto.
    + intros s. destruct Hi, HP as [_ Hk]. apply updateEncryptContext_ok; auto.
  - intros w0 i p w' Hi [Hpw Hk] Hp Hkr.
    destruct p as [mid ref pw u uid|pw u uid refresh];
      unfold keyReady in Hkr; rewrite createKey_ok, bind_Ok in Hkr; injection Hkr as <-.
    + split; [done|]. simpl. destruct Hk as [?|[?|[r Hk]]]; [by left|by right; left|].
      right; right. exists r. by eapply elem_of_delete_ne.
    + assert (encrypt_ok url userId
        (encryptKeyReady pw (derived pw u uid) (with_pending (delete i) w0))) as Hok.
      { destruct (inv_pending _ _ _ Hi _ (list_elem_of_lookup_2 _ _ _ Hp)) as (-> & -> & _).
        unfold encryptKeyReady. case_decide as Heq; simpl in Heq.
        - split; [done|]. simpl. right; left. by rewrite Heq.
        - split; [done|]. simpl. destruct Hk as [?|[?|[r Hk]]]; [by left|by right; left|].
          right; right. exists r. eapply elem_of_delete_ne; [done| |done]. congruence. }
      destruct refresh; [|done]. eapply encrypt_ok_extends; [apply refresh_extends|done].
Qed.

Lemma keeps_after_init msg : keeps_password msg → after_init msg.
Proof. by destruct msg. Qed.

Lemma updateEncryptContext_ready url userId refresh w :
  params_url w = url → params_userId w = userId → password w ≠ "" →
  (ectx_password (encryptContext w) = password w → encrypt_ready url userId w) →
  encrypt_ready url userId (updateEncryptContext refresh w).1.
Proof.
  intros <- <- Hne Hk. unfold updateEncryptContext.
  case_decide as Heq; [by apply Hk|]. rewrite decide_False by done.
  split; [done|]. intros _. right. exists refresh. simpl. apply elem_of_app. right. by left.
Qed.

Lemma reachable_encrypt_ready url userId w :
  reachable keeps_password url userId w → encrypt_ready url userId w.
Proof.
  intros Hr.
  apply (reachable_induction keeps_password url userId (encrypt_ready url userId)) in Hr
    as [_ ?]; [done|apply keeps_after_init|done| |].
  - intros w0 msg Hi HP Hm. eapply onmessage_encrypt_cases; [by apply keeps_after_init|done|done| | |].
    + intros ??. apply encrypt_ready_extends.
    + intros pw ->. destruct Hi, HP as [Hpw Hk]. apply updateEncryptContext_ready; [done..|].
      simpl. intros Heq. split; [done|]. simpl. rewrite <-Heq, Hpw. intros ?.
      by apply Hk.
    + intros s. destruct Hi, HP as [Hpw Hk]. unfold updateEncryptContext.
      rewrite decide_True by done. split; done.
  - intros w0 i p w' Hi [Hpw Hk] Hp Hkr.
    destruct p as [mid ref pw u uid|pw u uid refresh];
      unfold keyReady in Hkr; rewrite createKey_ok, bind_Ok in Hkr; injection Hkr as <-.
    + split; [done|]. simpl. intros [?|[r Hin]]%Hk; [by left|].
      right. exists r. by eapply elem_of_delete_ne.
    + assert (encrypt_ready url userId
        (encryptKeyReady pw (derived pw u uid) (with_pending (delete i) w0))) as Hok.
      { destruct (inv_pending _ _ _ Hi _ (list_elem_of_lookup_2 _ _ _ Hp)) as (-> & -> & _).
        unfold encryptKeyReady. case_decide as Heq; simpl in Heq; split; try done; simpl.
        - intros _. left. congruence.
        - intros [?|[r Hin]]%Hk; [by left|]. right. exists r.
          eapply elem_of_delete_ne; [done| |done]. congruence. }
      destruct refresh; [|done]. eapply encrypt_ready_extends; [apply refresh_extends|done].
Qed.

(** * Settling *)

Definition is_refresh (p : Pending) : bool :=
  match p with PendingEncrypt _ _ _ r => r | _ => false end.

Definition refreshes (ps : list Pending) : nat :=
  length (filter (λ p, is_refresh p = true) ps).

(** Context updates start no refreshing derivation. *)
Definition no_new_refresh (w w' : Worker) : Prop :=
  refreshes (pending w') = refreshes (pending w) ∧ password w' = password w.

Lemma updateDecryptContext_refreshes mid uid w :
  no_new_refresh w (updateDecryptContext mid uid w).
Proof.
  destruct (updateDecryptContext_cases mid uid w) as [(c & _ & _ & _ & ->)| ->]; [done|].
  split; [|done]. unfold refreshes. simpl. rewrite filter_app, length_app.
  case_decide; simpl; lia.
Qed.

Lemma refreshDecryptContexts_refreshes w : no_new_refresh w (refreshDecryptContexts w).
Proof.
  unfold refreshDecryptContexts. apply foldl_invariant; [|done].
  intros w' mid _ [Hr Hp]. destruct (decryptContextByMid w' !! mid) as [d|]; [|done].
  destruct (updateDecryptContext_refreshes mid (dctx_userId d) w'). split; congruence.
Qed.

(** Firing the oldest derivation: what remains is smaller. *)
Lemma fire_oldest url userId w p ps :
  worker_inv url userId w → pending w = p :: ps →
  ∃ w', worker_step (KeyReady 0) w = Some w' ∧ worker_inv url userId w' ∧
    password w' = password w ∧
    if is_refresh p then S (refreshes (pending w')) = refreshes (pending w)
    else pending w' = ps.
Proof.
  intros Hi Hp. assert (pending w !! 0%nat = Some p) as Hp0 by by rewrite Hp.
  destruct (keyReady_inv url userId 0 p w Hi Hp0) as (w' & Hk & Hi').
  exists w'. unfold worker_step. rewrite Hp0. cbn [mbind option_bind].
  rewrite Hk. split_and!; [done|done| |].
  - destruct p as [mid ref pw u uid|pw u uid []];
      unfold keyReady in Hk; rewrite createKey_ok, bind_Ok in Hk; injection Hk as <-; [done| |].
    + destruct (refreshDecryptContexts_refreshes
        (encryptKeyReady pw (derived pw u uid) (with_pending (delete 0%nat) w))) as [_ ->].
      unfold encryptKeyReady. by case_decide.
    + unfold encryptKeyReady. by case_decide.
  - destruct p as [mid ref pw u uid|pw u uid []];
      unfold keyReady in Hk; rewrite createKey_ok, bind_Ok in Hk; injection Hk as <-; simpl.
    + by rewrite Hp.
    + destruct (refreshDecryptContexts_refreshes
        (encryptKeyReady pw (derived pw u uid) (with_pending (delete 0%nat) w))) as [-> _].
      unfold encryptKeyReady. by case_decide; simpl; rewrite Hp.
    + unfold encryptKeyReady. by case_decide; simpl; rewrite Hp.
Qed.

Lemma settle url userId n : ∀ ps w,
  worker_inv url userId w → pending w = ps → refreshes ps = n →
  ∃ k w', worker_run (replicate k (KeyReady 0)) w = Some w' ∧
    pending w' = [] ∧ password w' = password w.
Proof.
  induction (lt_wf n) as [n _ IHn]. induction ps as [|p ps IH]; intros w Hi Hp Hn.
  { by exists 0%nat, w. }
  destruct (fire_oldest url userId w p ps Hi Hp) as (w1 & Hs & Hi1 & Hpw & Hsm).
  assert (∃ k w', worker_run (replicate k (KeyReady 0)) w1 = Some w' ∧
    pending w' = [] ∧ password w' = password w1) as (k & w' & Hrun & Hq & Hpw').
  { destruct (is_refresh p) eqn:Hr.
    - eapply (IHn (refreshes (pending w1))); [|done..]. rewrite Hp in Hsm. lia.
    - apply IH; [done..|]. revert Hn. unfold refreshes. cbn.
      rewrite decide_False by congruence. done. }
  exists (S k), w'. cbn [replicate worker_run]. rewrite Hs. cbn [mbind option_bind]. split_and!; [done|done|congruence].
Qed.

Lemma run_ready_reachable allowed url userId k w w' :
  reachable allowed url userId w →
  worker_run (replicate k (KeyReady 0)) w = Some w' → reachable allowed url userId w'.
Proof.
  revert w. induction k as [|k IH]; intros w Hr; cbn [replicate worker_run]; [by intros [= <-]|].
  destruct (worker_step (KeyReady 0) w) as [w1|] eqn:Hs; [|done]. cbn [mbind option_bind].
  apply IH. by eapply reachable_ready.
Qed.
End safety.
