(* ===== verification/FrameSecurity.v ===== *)
(** What the encryption worker guarantees for the frames that pass through it:
    end-to-end delivery, no cleartext once a password is set, keys that match
    their contexts, settling, and two sequences of password changes on which
    the encryption side does not follow the password. *)

From S2P Require Import Prelude Numbers Bytes TextCodec Objects InsertableStreams KeyManagement KeySafety.

#[local] Open Scope Z_scope.

(** A concrete [crypto.subtle] for the witnesses: a key is the password and the
    salt, a ciphertext the key followed by the plaintext. *)
Definition strip_prefix (p l : u8array) : option u8array :=
  if decide (take (length p) l = p) then Some (drop (length p) l) else None.

Program Definition toy_crypto : SubtleCrypto := {|
  CryptoKey := u8array;
  deriveKey password salt := password ++ salt;
  aes_encrypt k _ _ d := k ++ d;
  aes_decrypt k _ _ c := strip_prefix k c;
|}.
Next Obligation.
  cbn. intros k _ _ d. unfold strip_prefix.
  by rewrite take_app_length, drop_app_length, decide_True.
Qed.

Section frames.
Context `{TextCodec} `{SubtleCrypto} `{ObjectKeys}.

(** * The frame transforms *)

Definition clear_part (f : Frame) : u8array :=
  take (Z.to_nat (getCryptoOffset f)) (frame_data f).
Definition secret_part (f : Frame) : u8array :=
  drop (Z.to_nat (getCryptoOffset f)) (frame_data f).

(** The frame on the wire: clear bytes, ciphertext, iv. *)
Definition sealed (k : CryptoKey) (iv : u8array) (f : Frame) : Frame :=
  {| frame_type := frame_type f;
     frame_data := clear_part f ++ aes_encrypt k iv (clear_part f) (secret_part f) ++ iv |}.

Definition long_enough (f : Frame) : Prop := getCryptoOffset f <= u8_length (frame_data f).

Lemma getCryptoOffset_pos f : 1 <= getCryptoOffset f <= 10.
Proof. unfold getCryptoOffset, frameTypeToCryptoOffset. repeat case_match; lia. Qed.

Lemma u8_view_Ok buffer offset len r :
  u8_view buffer offset len = Ok r →
  0 <= offset ∧ 0 <= len ∧ offset + len <= u8_length buffer ∧ u8_length r = len ∧
  r = take (Z.to_nat len) (drop (Z.to_nat offset) buffer).
Proof.
  unfold u8_view. case_decide; [done|]. intros [= <-].
  unfold u8_length in *. split_and!; try lia; [|done].
  rewrite length_take_le; [lia|]. rewrite length_drop. lia.
Qed.

Lemma u8_view_clear f : long_enough f →
  u8_view (frame_data f) 0 (getCryptoOffset f) = Ok (clear_part f).
Proof.
  intros Hl. pose proof (getCryptoOffset_pos f). unfold long_enough in Hl.
  unfold u8_view. by rewrite decide_False by lia.
Qed.

Lemma u8_view_secret f : long_enough f →
  u8_view_from (frame_data f) (getCryptoOffset f) = Ok (secret_part f).
Proof.
  intros Hl. pose proof (getCryptoOffset_pos f). unfold long_enough, u8_length in Hl.
  unfold u8_view_from, u8_view, u8_length. rewrite decide_False by lia. f_equal.
  unfold secret_part. apply take_ge. rewrite length_drop. lia.
Qed.

(** Writing two parts, and three, one after the other. *)
Lemma write_two (a b : u8array) (n : nat) :
  n = (length a + length b)%nat →
  (d ← u8_set (replicate n x00) a 0; u8_set d b (u8_length a)) = Ok (a ++ b).
Proof.
  intros ->. rewrite (u8_set_append_nil a), bind_Ok by lia.
  rewrite (u8_set_append a b) by (done || lia).
  replace (_ - length a - length b)%nat with 0%nat by lia. by rewrite app_nil_r.
Qed.

Lemma write_three (a b c : u8array) (n : nat) :
  n = (length a + length b + length c)%nat →
  (d ← u8_set (replicate n x00) a 0;
   d ← u8_set d b (u8_length a);
   u8_set d c (u8_length a + u8_length b)) = Ok (a ++ b ++ c).
Proof.
  intros ->. rewrite (u8_set_append_nil a), bind_Ok by lia.
  rewrite (u8_set_append a b), bind_Ok by (done || lia).
  rewrite (u8_set_append (a ++ b) c) by (unfold u8_length; rewrite ?length_app; lia).
  replace (_ - length a - length b - length c)%nat with 0%nat by lia.
  by rewrite app_nil_r, <-app_assoc.
Qed.

Lemma encrypt_sealed w k iv f :
  ectx_key (encryptContext w) = Some k → long_enough f →
  encrypt w iv f = Ok [sealed k iv f].
Proof.
  intros Hk Hl. unfold encrypt. rewrite Hk, u8_view_clear, bind_Ok by done.
  rewrite u8_view_secret, bind_Ok by done.
  set (a := clear_part f). set (b := aes_encrypt _ _ _ _).
  rewrite u8_new_ok, bind_Ok by (unfold u8_length; lia).
  replace (Z.to_nat _) with (length a + length b + length iv)%nat
    by (unfold u8_length; lia).
  pose proof (write_three a b iv _ eq_refl) as Hw.
  apply result_bind_ok in Hw as (d1 & Hd1 & Hw).
  apply result_bind_ok in Hw as (d2 & Hd2 & Hw).
  cbv zeta. rewrite Z.add_0_l. by rewrite Hd1, bind_Ok, Hd2, bind_Ok, Hw, bind_Ok.
Qed.

(** A frame too short for its clear bytes errors the stream. *)
Lemma encrypt_short w k iv f :
  ectx_key (encryptContext w) = Some k → ¬ long_enough f →
  encrypt w iv f = Throw RangeError.
Proof.
  intros Hk Hl. unfold long_enough in Hl. unfold encrypt, u8_view. rewrite Hk.
  by rewrite decide_True by lia.
Qed.

Lemma getCryptoOffset_type f d :
  getCryptoOffset {| frame_type := frame_type f; frame_data := d |} = getCryptoOffset f.
Proof. done. Qed.

Lemma decrypt_data_sealed k k' iv f :
  long_enough f → u8_length iv = ivByteLength →
  decrypt_data k' (sealed k iv f) =
  match aes_decrypt k' iv (clear_part f) (aes_encrypt k iv (clear_part f) (secret_part f)) with
  | None => Throw (Error "OperationError")
  | Some d => Ok (clear_part f ++ d)
  end.
Proof.
  intros Hl Hiv. pose proof (getCryptoOffset_pos f) as Hpos.
  unfold decrypt_data, sealed. rewrite getCryptoOffset_type. cbn [frame_data].
  set (a := clear_part f). set (b := aes_encrypt _ _ _ _).
  assert (length a = Z.to_nat (getCryptoOffset f)) as Ha.
  { unfold a, clear_part. apply length_take_le. unfold long_enough, u8_length in Hl. lia. }
  unfold ivByteLength, u8_length in *.
  unfold u8_view_from, u8_view, u8_length. rewrite !length_app.
  rewrite decide_False, bind_Ok by lia. rewrite drop_0, <-Ha, take_app_length.
  rewrite decide_False, bind_Ok by lia.
  replace (Z.to_nat (0 + Z.of_nat (length a))) with (length a) by lia.
  rewrite drop_app_length.
  replace (Z.to_nat (_ - 16)) with (length b) by lia. rewrite take_app_length.
  rewrite decide_False, bind_Ok by lia.
  replace (Z.to_nat (0 + _ + _)) with (length (a ++ b)) by (rewrite length_app; lia).
  rewrite (app_assoc a b iv), drop_app_length.
  rewrite (take_ge iv) by lia. destruct (aes_decrypt k' iv a b) as [d|]; [|done].
  rewrite u8_new_ok, bind_Ok by (unfold u8_length; lia).
  by rewrite (write_two a d) by (unfold u8_length; lia).
Qed.

Lemma decrypt_sealed k iv f :
  long_enough f → u8_length iv = ivByteLength →
  decrypt_data k (sealed k iv f) = Ok (frame_data f).
Proof.
  intros Hl Hiv. rewrite decrypt_data_sealed, aes_decrypt_encrypt by done.
  unfold clear_part, secret_part. by rewrite take_drop.
Qed.

(** * Keys of settled workers *)

Definition settled_context (url : string) (w : Worker) (c : DecryptContext) : Prop :=
  dctx_password c = password w ∧
  dctx_key c = if decide (password w = "") then None
               else Some (derived (password w) url (dctx_userId c)).

Lemma settled_context_intro url userId w mid c :
  reachable after_init url userId w → pending w = [] →
  decryptContextByMid w !! mid = Some c → settled_context url w c.
Proof.
  intros Hr Hq Hc. pose proof (reachable_inv _ _ _ Hr) as Hi.
  destruct (reachable_current _ _ _ Hr) as [Hcur|(pw & u & v & Hin)];
    [|rewrite Hq in Hin; by apply not_elem_of_nil in Hin].
  specialize (Hcur _ _ Hc).
  destruct (inv_contexts _ _ _ Hi _ _ Hc) as [_ Hk]. rewrite Hcur in Hk.
  split; [done|]. destruct (dctx_key c) as [k|].
  - destruct Hk as [Hpw ->]. by rewrite decide_False.
  - destruct Hk as [->|Hin]; [done|]. rewrite Hq in Hin. by apply not_elem_of_nil in Hin.
Qed.

Lemma settled_encrypt_key url userId w :
  reachable keeps_password url userId w → pending w = [] → password w ≠ "" →
  ectx_key (encryptContext w) = Some (derived (password w) url userId).
Proof.
  intros Hr Hq Hpw. destruct (reachable_encrypt_ready _ _ _ Hr) as [_ Hk].
  destruct (Hk Hpw) as [?|[r Hin]]; [done|]. rewrite Hq in Hin.
  by apply not_elem_of_nil in Hin.
Qed.

(** * Theorems *)

(** What is emitted under a password. *)
Lemma encrypt_hides url userId w iv f out :
  reachable after_init url userId w → password w ≠ "" →
  encrypt w iv f = Ok out →
  out = [] ∨ ∃ pw, pw ≠ "" ∧ (pending w = [] → pw = password w) ∧
                   out = [sealed (derived pw url userId) iv f].
Proof.
  intros Hr Hpw Henc. destruct (ectx_key (encryptContext w)) as [k|] eqn:Hk.
  - right. destruct (decide (long_enough f)) as [Hl|Hl];
      [|by rewrite (encrypt_short _ _ _ _ Hk Hl) in Henc].
    rewrite (encrypt_sealed _ _ _ _ Hk Hl) in Henc. injection Henc as <-.
    destruct (reachable_encrypt_ok _ _ _ Hr) as [Hpe Hok].
    destruct (decide (pending w = [])) as [Hq|Hq].
    + exists (password w). split_and!; [done|done|].
      destruct Hok as [?|[Hok|[r Hin]]]; [congruence| |].
      * rewrite Hk, Hpe in Hok by done. by injection Hok as ->.
      * rewrite Hq in Hin. by apply not_elem_of_nil in Hin.
    + destruct (inv_encrypt_key _ _ _ (reachable_inv _ _ _ Hr) _ Hk) as (pw & ? & ->).
      by exists pw.
  - left. unfold encrypt in Henc. rewrite Hk, decide_False in Henc by done. congruence.
Qed.

(** End-to-end delivery: when both peers have entered the same password
    (the sender has never removed it) and neither has a key derivation under
    way, every frame the sender's worker emits for a long enough frame is turned
    back into that frame by the receiver's worker, whose decryption context is
    for the sender. *)
Theorem frame_delivery url userId userId' ws wr mid c iv f :
  reachable keeps_password url userId ws → pending ws = [] → password ws ≠ "" →
  reachable after_init url userId' wr → pending wr = [] →
  password wr = password ws →
  decryptContextByMid wr !! mid = Some c → dctx_userId c = userId →
  long_enough f → u8_length iv = ivByteLength →
  ∃ f', encrypt ws iv f = Ok [f'] ∧ decrypt wr mid f' = [f].
Proof.
  intros Hs Hsq Hpw Hr Hrq Heq Hc Hu Hl Hiv.
  pose proof (settled_encrypt_key _ _ _ Hs Hsq Hpw) as Hk.
  destruct (settled_context_intro _ _ _ _ _ Hr Hrq Hc) as [_ Hck].
  rewrite Heq, decide_False, Hu in Hck by done.
  eexists. split; [by apply encrypt_sealed|].
  unfold decrypt. rewrite Hc, Hck, decrypt_sealed by done. by destruct f.
Qed.

(** C4. No cleartext: while a password is set, in every reachable state, whatever
    is emitted for a frame is sealed with a key derived from a non-empty
    password, this page's url and this user's id; with no derivation under way,
    from the current password. *)
Theorem no_cleartext url userId w iv f out :
  reachable after_init url userId w → password w ≠ "" →
  encrypt w iv f = Ok out →
  out = [] ∨ ∃ pw, pw ≠ "" ∧ (pending w = [] → pw = password w) ∧
                   out = [sealed (derived pw url userId) iv f].
Proof. apply encrypt_hides. Qed.

(** C21. A key is never used for another user or password: in every reachable
    state a decryption context with a key has the one derived from its own
    password, the url and its own user id, and that user is the one the metadata
    names for its [mid]. *)
Theorem decrypt_keys_match url userId w mid c k :
  reachable after_init url userId w →
  decryptContextByMid w !! mid = Some c → dctx_key c = Some k →
  dctx_password c ≠ "" ∧ k = derived (dctx_password c) url (dctx_userId c) ∧
  dctx_userId c = getUserId w mid (dctx_userId c).
Proof.
  intros Hr Hc Hk. pose proof (reachable_inv _ _ _ Hr) as Hi.
  destruct (inv_contexts _ _ _ Hi _ _ Hc) as [_ Hkey]. rewrite Hk in Hkey.
  destruct Hkey as [? ->]. split_and!; [done|done|].
  unfold getUserId. destruct (metadataByMid w !! mid) eqn:Hm; [|done].
  by apply (inv_users _ _ _ Hi _ _ _ Hc Hm).
Qed.

(** C22. The worker settles: from every reachable state the derivations under way
    and those they start finish after finitely many continuations, without an
    exception; then every decryption context is for the current password and has
    its key exactly when that password is not empty. *)
Theorem worker_settles url userId w :
  reachable after_init url userId w →
  ∃ k w', worker_run (replicate k (KeyReady 0)) w = Some w' ∧
    pending w' = [] ∧ password w' = password w ∧
    ∀ mid c, decryptContextByMid w' !! mid = Some c → settled_context url w' c.
Proof.
  intros Hr. destruct (settle url userId _ _ w (reachable_inv _ _ _ Hr) eq_refl eq_refl)
    as (k & w' & Hrun & Hq & Hpw).
  exists k, w'. split_and!; [done..|]. intros mid c Hc.
  eapply settled_context_intro; [|done..]. by eapply run_ready_reachable.
Qed.

Lemma foldl_metadata_lookup metadata (obj : gmap string TrackMetadata) mid :
  foldl (λ obj m, <[tm_mid m := m]> obj) obj metadata !! mid
  = match last (filter (λ m, tm_mid m = mid) metadata) with
    | Some m => Some m
    | None => obj !! mid
    end.
Proof.
  revert obj. induction metadata as [|m ms IH]; intros obj; [done|]. cbn [foldl].
  rewrite IH, filter_cons. case_decide as Hm.
  - rewrite last_cons. destruct (last _); [done|]. by rewrite <-Hm, lookup_insert_eq.
  - destruct (last _); [done|]. by rewrite lookup_insert_ne.
Qed.

(** After a metadata message exactly the contexts it names remain, each for
    the user of the last entry with its [mid] and for the current password. *)
Theorem metadata_contexts metadata w mid :
  match last (filter (λ m, tm_mid m = mid) metadata), decryptContextByMid w !! mid with
  | Some m, Some _ =>
      ∃ c, decryptContextByMid (handleMetadata metadata w) !! mid = Some c ∧
        dctx_userId c = tm_userId m ∧ dctx_password c = password w
  | _, _ => decryptContextByMid (handleMetadata metadata w) !! mid = None
  end.
Proof.
  rewrite handleMetadata_loop. set (w' := set_metadata _ w).
  destruct (metadata_loop_lookup (object_keys (decryptContextByMid w)) w' mid)
    as (_ & _ & Hout & Hin); [apply NoDup_object_keys|].
  rewrite elem_of_object_keys in Hout, Hin.
  simpl in Hout, Hin. rewrite foldl_metadata_lookup, lookup_empty in Hin.
  destruct (decryptContextByMid w !! mid) as [c0|]; destruct (last _) as [m|].
  - destruct Hin as (c & ? & ? & ?); [by eexists|]. by exists c.
  - apply Hin. by eexists.
  - apply Hout. by intros [? ?].
  - apply Hout. by intros [? ?].
Qed.

Lemma split_three {A} (l : list A) (i j p n : nat) :
  p = (i + j)%nat → (i + j <= length l)%nat → (length l - p <= n)%nat →
  l = take i l ++ take j (drop i l) ++ take n (drop p l).
Proof.
  intros -> Hl Hn. rewrite (take_ge (drop (i + j)%nat l)) by (rewrite length_drop; lia).
  by rewrite <-drop_drop, take_drop, take_drop.
Qed.

(** What [decrypt_data] has taken apart and put together when it succeeds. *)
Lemma decrypt_data_Ok k f data :
  decrypt_data k f = Ok data →
  ∃ aad ct iv d, frame_data f = aad ++ ct ++ iv ∧
    u8_length aad = getCryptoOffset f ∧ u8_length iv = ivByteLength ∧
    aes_decrypt k iv aad ct = Some d ∧ data = aad ++ d.
Proof.
  unfold decrypt_data, u8_view_from. intros Hd.
  apply result_bind_ok in Hd as (aad & Haad & Hd).
  apply result_bind_ok in Hd as (ct & Hct & Hd).
  apply result_bind_ok in Hd as (iv & Hiv & Hd).
  destruct (aes_decrypt k iv aad ct) as [d|] eqn:Hdec; [|done].
  exists aad, ct, iv, d.
  apply u8_view_Ok in Haad as (_ & _ & Hla & Ha & Haad).
  apply u8_view_Ok in Hct as (_ & _ & Hlc & Hc & Hct).
  apply u8_view_Ok in Hiv as (_ & _ & Hli & Hi & Hiv).
  rewrite u8_new_ok, bind_Ok in Hd by (unfold u8_length; lia).
  rewrite (write_two aad d) in Hd by (unfold u8_length; lia).
  split_and!; [|done|lia|done|congruence].
  rewrite Z.add_0_l in *. rewrite drop_0 in Haad.
  rewrite Hiv, Hct, Haad at 1. rewrite Ha at 2.
  apply split_three; unfold u8_length in *; lia.
Qed.

(** Every incoming frame gives exactly one frame of the same type: itself,
    or, when the context of its [mid] has a key that authenticates it, its clear
    bytes followed by the decrypted rest. *)
Theorem decrypt_one_frame w mid f :
  ∃ f', decrypt w mid f = [f'] ∧ frame_type f' = frame_type f ∧
    (f' = f ∨ ∃ c k aad ct iv d,
       decryptContextByMid w !! mid = Some c ∧ dctx_key c = Some k ∧
       frame_data f = aad ++ ct ++ iv ∧
       u8_length aad = getCryptoOffset f ∧ u8_length iv = ivByteLength ∧
       aes_decrypt k iv aad ct = Some d ∧ frame_data f' = aad ++ d).
Proof.
  unfold decrypt. destruct (decryptContextByMid w !! mid) as [c|]; [|by exists f; auto].
  destruct (dctx_key c) as [k|] eqn:Hk; [|by exists f; auto].
  destruct (decrypt_data k f) as [data|] eqn:Hd; [|by exists f; auto].
  eexists. split_and!; [done|done|]. right. cbn [frame_data].
  apply decrypt_data_Ok in Hd as (aad & ct & iv & d & ? & ? & ? & ? & ?).
  by exists c, k, aad, ct, iv, d.
Qed.

(** * Password changes the encryption side does not follow *)

Lemma refresh_none w : decryptContextByMid w = ∅ → refreshDecryptContexts w = w.
Proof.
  intros Hw. unfold refreshDecryptContexts. rewrite Hw.
  assert (object_keys (∅ : gmap string DecryptContext) = []) as ->; [|done].
  apply Permutation_nil_r. by rewrite object_keys_perm, dom_empty_L, elements_empty.
Qed.

(** The state after the first password. *)
Definition deriving (url userId pw : string) : Worker := {|
  params_url := url; params_userId := userId; metadataByMid := ∅; password := pw;
  decryptContextByMid := ∅; encryptContext := {| ectx_key := None; ectx_password := pw |};
  pending := [PendingEncrypt pw url userId true]; pipes := []; next_ref := 0 |}.

Lemma first_password url userId pw :
  pw ≠ "" →
  onmessage (PasswordEvent pw) (onmessage (InitEvent url userId) new_worker)
  = deriving url userId pw.
Proof.
  intros Hpw. cbn [onmessage]. unfold handlePassword, updateEncryptContext. simpl.
  rewrite decide_False by congruence. by rewrite decide_False.
Qed.

(** C35. Setting a password, removing it and setting the same one again leaves
    the worker settled, with a password but no encryption key: it drops every
    frame (it never sends cleartext). *)
Theorem reset_password_drops_frames url userId pw :
  pw ≠ "" →
  ∃ w, worker_run [Posted (PasswordEvent pw); KeyReady 0;
                   Posted (PasswordEvent ""); Posted (PasswordEvent pw)]
         (onmessage (InitEvent url userId) new_worker) = Some w ∧
    pending w = [] ∧ password w = pw ∧ ∀ iv f, encrypt w iv f = Ok [].
Proof.
  intros Hpw. eexists. split; [|split_and!].
  - cbn [worker_run worker_step mbind option_bind].
    rewrite first_password by done. simpl. rewrite createKey_ok. simpl.
    unfold encryptKeyReady. simpl. rewrite decide_True, refresh_none by done.
    unfold handlePassword, updateEncryptContext. simpl.
    rewrite (decide_False (P := pw = "")), refresh_none by done. simpl.
    rewrite decide_True, refresh_none by done. reflexivity.
  - done.
  - done.
  - intros iv f. unfold encrypt. simpl. by rewrite decide_False.
Qed.

(** Removing the password while its key is being derived does not stop the
    key: it is installed when it arrives, although the password is empty. *)
Theorem late_key_after_clear url userId pw :
  pw ≠ "" →
  ∃ w, worker_run [Posted (PasswordEvent pw); Posted (PasswordEvent ""); KeyReady 0]
         (onmessage (InitEvent url userId) new_worker) = Some w ∧
    pending w = [] ∧ password w = "" ∧
    ectx_key (encryptContext w) = Some (derived pw url userId).
Proof.
  intros Hpw. eexists. split; [|split_and!].
  - cbn [worker_run worker_step mbind option_bind].
    rewrite first_password by done. simpl.
    unfold handlePassword, updateEncryptContext. simpl.
    rewrite (decide_False (P := pw = "")), refresh_none by done. simpl.
    rewrite createKey_ok. simpl. unfold encryptKeyReady. simpl.
    rewrite decide_True, refresh_none by done. reflexivity.
  - done.
  - done.
  - done.
Qed.
End frames.

(** * Instances *)

#[local] Existing Instance ascii_codec.
#[local] Existing Instance toy_crypto.
#[local] Existing Instance some_object_keys.

Definition after (userId : string) (es : list WorkerEvent) : Worker :=
  default new_worker
    (worker_run es (onmessage (InitEvent "https://host/call/room" userId) new_worker)).

Lemma after_reachable (allowed : WorkerMessage → Prop) userId es :
  Forall (allowed_event allowed) es →
  match worker_run es (onmessage (InitEvent "https://host/call/room" userId) new_worker) with
  | Some _ => true | None => false
  end = true →
  reachable allowed "https://host/call/room" userId (after userId es).
Proof.
  intros Hes Hrun. unfold after. destruct (worker_run _ _) as [w|] eqn:Hw; [|done]. simpl.
  eapply run_reachable; [done| |done]. constructor.
Qed.

Definition alice : Worker :=
  after "alice" [Posted (EncryptStreamEvent 0%nat); Posted (PasswordEvent "secret"); KeyReady 0].
Definition bob : Worker :=
  after "bob" [Posted (DecryptStreamEvent "1" "sfu" (Some 1%nat));
    Posted (MetadataEvent [{| tm_mid := "1"; tm_kind := "video"; tm_userId := "alice";
                              tm_streamId := "s" |}]);
    Posted (PasswordEvent "secret"); KeyReady 0; KeyReady 0].
Definition a_frame : Frame :=
  {| frame_type := Some FrameDelta; frame_data := [x01; x02; x03; x04; x05; x06] |}.

Lemma alice_reachable : reachable keeps_password "https://host/call/room" "alice" alice.
Proof. apply after_reachable; [repeat constructor; done|vm_compute; reflexivity]. Qed.
Lemma bob_reachable : reachable after_init "https://host/call/room" "bob" bob.
Proof. apply after_reachable; [repeat constructor; done|vm_compute; reflexivity]. Qed.

Lemma frame_delivery_witness :
  ∃ f', encrypt alice (replicate 16 x00) a_frame = Ok [f'] ∧ decrypt bob "1" f' = [a_frame].
Proof.
  eapply (frame_delivery _ "alice" "bob").
  - exact alice_reachable.
  - vm_compute. reflexivity.
  - vm_compute. discriminate.
  - exact bob_reachable.
  - vm_compute. reflexivity.
  - vm_compute. reflexivity.
  - vm_compute. reflexivity.
  - vm_compute. reflexivity.
  - vm_compute. discriminate.
  - vm_compute. reflexivity.
Defined.

Lemma no_cleartext_witness :
  (∃ out, encrypt alice (replicate 16 x00) a_frame = Ok out ∧
  (out = [] ∨ ∃ pw, pw ≠ "" ∧ (pending alice = [] → pw = password alice) ∧
    out = [sealed (derived pw "https://host/call/room" "alice") (replicate 16 x00) a_frame])).
Proof.
  eexists. split; [vm_compute; reflexivity|].
  apply no_cleartext.
  - eapply reachable_mono; [|exact alice_reachable]. apply keeps_after_init.
  - vm_compute. discriminate.
  - vm_compute. reflexivity.
Defined.

Lemma decrypt_keys_match_witness :
  ∃ c k, decryptContextByMid bob !! "1" = Some c ∧
  dctx_password c ≠ "" ∧ k = derived (dctx_password c) "https://host/call/room" (dctx_userId c) ∧
  dctx_userId c = getUserId bob "1" (dctx_userId c).
Proof.
  do 2 eexists. split; [vm_compute; reflexivity|].
  eapply (decrypt_keys_match _ "bob"); [exact bob_reachable|vm_compute; reflexivity|].
  vm_compute. reflexivity.
Defined.

Lemma worker_settles_witness :
  ∃ k w', worker_run (replicate k (KeyReady 0)) bob = Some w' ∧
    pending w' = [] ∧ password w' = password bob ∧
    ∀ mid c, decryptContextByMid w' !! mid = Some c →
      settled_context "https://host/call/room" w' c.
Proof. apply (worker_settles _ "bob"). exact bob_reachable. Defined.

Lemma reset_password_drops_frames_witness :
  ∃ w, worker_run [Posted (PasswordEvent "x"); KeyReady 0;
                   Posted (PasswordEvent ""); Posted (PasswordEvent "x")]
         (onmessage (InitEvent "u" "alice") new_worker) = Some w ∧
    pending w = [] ∧ password w = "x" ∧ ∀ iv f, encrypt w iv f = Ok [].
Proof. apply reset_password_drops_frames. discriminate. Defined.

Lemma late_key_after_clear_witness :
  ∃ w, worker_run [Posted (PasswordEvent "x"); Posted (PasswordEvent ""); KeyReady 0]
         (onmessage (InitEvent "u" "alice") new_worker) = Some w ∧
    pending w = [] ∧ password w = "" ∧
    ectx_key (encryptContext w) = Some (derived "x" "u" "alice").
Proof. apply late_key_after_clear. discriminate. Defined.
