(* ===== verification/Assignments.v ===== *)
(** Whose frames the encryption worker expects on each [mid]: an abstract account of
    the messages it has been posted, which the decryption contexts implement. *)

From S2P Require Import Prelude Numbers Bytes TextCodec Objects InsertableStreams KeyManagement KeySafety FrameSecurity.

(** * The specification *)

(** The users named by the last metadata, and the user expected on each [mid]. *)
Record Assignment := {
  named : gmap string string;
  assigned : gmap string string;
}.

Definition nobody : Assignment := {| named := ∅; assigned := ∅ |}.

(** A track is announced for a user, unless the metadata says otherwise; metadata
    reassigns what it names and drops the rest; nothing else matters. *)
Definition assign (a : Assignment) (msg : WorkerMessage) : Assignment :=
  match msg with
  | DecryptStreamEvent mid userId _ =>
    {| named := named a; assigned := <[mid := default userId (named a !! mid)]> (assigned a) |}
  | MetadataEvent metadata =>
    let names := foldl (λ n m, <[tm_mid m := tm_userId m]> n) ∅ metadata in
    {| named := names; assigned := map_imap (λ mid _, names !! mid) (assigned a) |}
  | InitEvent _ _ | PasswordEvent _ | EncryptStreamEvent _ => a
  end.

Definition assignment (ms : list WorkerMessage) : Assignment := foldl assign nobody ms.

Lemma assignment_app ms msg : assignment (ms ++ [msg]) = assign (assignment ms) msg.
Proof. unfold assignment. by rewrite foldl_app. Qed.

(** The messages among the events of a run. *)
Definition posted_of (e : WorkerEvent) : option WorkerMessage :=
  match e with Posted msg => Some msg | KeyReady _ => None end.

Section worker.
Context `{TextCodec} `{SubtleCrypto} `{ObjectKeys}.

(** * The worker implements it *)

Record implements (w : Worker) (a : Assignment) : Prop := {
  im_named mid : tm_userId <$> metadataByMid w !! mid = named a !! mid;
  im_assigned mid : dctx_userId <$> decryptContextByMid w !! mid = assigned a !! mid;
  im_agree mid u u' : assigned a !! mid = Some u → named a !! mid = Some u' → u = u';
}.

Lemma implements_new : implements new_worker nobody.
Proof. by split. Qed.

(** Who is expected where, as [implements] sees it. *)
Definition same_users (w w' : Worker) : Prop :=
  metadataByMid w' = metadataByMid w ∧
  ∀ mid, dctx_userId <$> decryptContextByMid w' !! mid = dctx_userId <$> decryptContextByMid w !! mid.

#[export] Instance same_users_preorder : PreOrder same_users.
Proof.
  split; [by split|]. intros w1 w2 w3 [Hm1 Hu1] [Hm2 Hu2]. split; [congruence|].
  intros mid. by rewrite Hu2.
Qed.

Lemma implements_same w w' a : same_users w w' → implements w a → implements w' a.
Proof. intros [Hm Hu] [Hn Ha Hg]. split; [by rewrite Hm|by intros; rewrite Hu|done]. Qed.

Lemma implements_getUserId w a mid uid :
  implements w a → getUserId w mid uid = default uid (named a !! mid).
Proof. intros [Hn _ _]. unfold getUserId. rewrite <-Hn. by destruct (metadataByMid w !! mid). Qed.

(** The user of a context that is renewed. *)
Lemma updateDecryptContext_users w mid uid mid' :
  dctx_userId <$> decryptContextByMid (updateDecryptContext mid uid w) !! mid' =
  if decide (mid = mid') then Some (getUserId w mid uid)
  else dctx_userId <$> decryptContextByMid w !! mid'.
Proof.
  case_decide as Hm; [subst mid'|by rewrite updateDecryptContext_lookup_ne].
  destruct (updateDecryptContext_lookup mid uid w) as (c & -> & _ & Hu). by rewrite <-Hu.
Qed.

(** Renewing the contexts leaves their users. *)
Lemma refresh_implements w a : implements w a → same_users w (refreshDecryptContexts w).
Proof.
  intros Hi. unfold refreshDecryptContexts.
  apply (foldl_invariant (same_users w)); [|reflexivity].
  intros w' mid _ Hs. destruct (decryptContextByMid w' !! mid) as [c|] eqn:Hc; [|done].
  pose proof (implements_same _ _ _ Hs Hi) as Hi'. etrans; [exact Hs|]. split.
  - by destruct (updateDecryptContext_frame mid (dctx_userId c) w') as (_ & _ & ? & _).
  - intros mid'. rewrite updateDecryptContext_users. case_decide as Hm; [subst mid'|done].
    rewrite Hc. simpl. f_equal. rewrite (implements_getUserId _ _ _ _ Hi').
    destruct (named a !! mid) as [u|] eqn:Hn; [|done]. simpl. symmetry.
    eapply (im_agree _ _ Hi'); [|done]. by rewrite <-(im_assigned _ _ Hi'), Hc.
Qed.

Lemma metadata_names metadata (obj : gmap string TrackMetadata) (n : gmap string string) :
  (∀ mid, tm_userId <$> obj !! mid = n !! mid) → ∀ mid,
  tm_userId <$> foldl (λ obj m, <[tm_mid m := m]> obj) obj metadata !! mid =
  foldl (λ n m, <[tm_mid m := tm_userId m]> n) n metadata !! mid.
Proof.
  revert obj n. induction metadata as [|m ms IH]; intros obj n Hn; [done|]. cbn [foldl].
  apply IH. intros mid. destruct (decide (tm_mid m = mid)) as [->|Hne].
  - by rewrite !lookup_insert_eq.
  - by rewrite !lookup_insert_ne.
Qed.

Lemma metadata_implements metadata w a :
  implements w a → implements (handleMetadata metadata w) (assign a (MetadataEvent metadata)).
Proof.
  intros [Hn Ha _]. rewrite handleMetadata_loop. set (w' := set_metadata _ w).
  set (names := foldl (λ n m, <[tm_mid m := tm_userId m]> n) (∅ : gmap string string) metadata).
  assert (∀ mid, tm_userId <$> metadataByMid w' !! mid = names !! mid) as Hnames
    by (apply metadata_names; intros mid; by rewrite !lookup_empty).
  split; cbn [assign named assigned]; fold names.
  - intros mid. destruct (metadata_loop_lookup (object_keys (decryptContextByMid w)) w' mid)
      as (-> & _); [apply NoDup_object_keys|apply Hnames].
  - intros mid. destruct (metadata_loop_lookup (object_keys (decryptContextByMid w)) w' mid)
      as (_ & _ & Hout & Hin); [apply NoDup_object_keys|]. rewrite elem_of_object_keys in Hout, Hin.
    rewrite map_lookup_imap, <-Ha, <-Hnames.
    destruct (decryptContextByMid w !! mid) as [c|] eqn:Hc; cbn [fmap option_fmap option_map mbind option_bind].
    + specialize (Hin (mk_is_Some _ _ eq_refl)). destruct (metadataByMid w' !! mid) as [m|].
      * destruct Hin as (c' & -> & _ & Hu). exact (f_equal Some Hu).
      * by rewrite Hin.
    + rewrite Hout by (by intros [? ?]). change (decryptContextByMid w') with (decryptContextByMid w). by rewrite Hc.
  - intros mid u u'. rewrite map_lookup_imap. destruct (assigned a !! mid); [|done].
    cbn [mbind option_bind]. intros Hu Hu'. congruence.
Qed.

Lemma decrypt_implements mid uid o w a :
  implements w a → implements (handleDecrypt mid uid o w) (assign a (DecryptStreamEvent mid uid o)).
Proof.
  intros Hi. unfold handleDecrypt.
  set (w1 := match o with Some s => with_pipe (DecryptPipe mid s) w | None => w end).
  assert (implements w1 a) as Hi1.
  { apply (implements_same w); [|done]. unfold w1. by destruct o. }
  split; cbn [assign named assigned].
  - intros mid'. destruct (updateDecryptContext_frame mid uid w1) as (_ & _ & -> & _).
    apply (im_named _ _ Hi1).
  - intros mid'. rewrite updateDecryptContext_users, (implements_getUserId _ a) by done.
    case_decide as Hm; [subst mid'; by rewrite lookup_insert_eq|].
    rewrite lookup_insert_ne by done. apply (im_assigned _ _ Hi1).
  - intros mid' u u'. destruct (decide (mid = mid')) as [<-|Hne].
    + rewrite lookup_insert_eq. intros [= <-] ->. done.
    + rewrite lookup_insert_ne by done. apply (im_agree _ _ Hi1).
Qed.

Lemma onmessage_implements msg w a : implements w a → implements (onmessage msg w) (assign a msg).
Proof.
  intros Hi. destruct msg as [u uid|pw|md|x|mid uid o]; cbn [onmessage].
  - by apply (implements_same w).
  - apply (implements_same w); [|done]. unfold handlePassword. set (w1 := {| params_url := params_url w |}).
    assert (same_users w (updateEncryptContext true w1).1) as Hs.
    { unfold updateEncryptContext. by repeat case_decide. }
    destruct (updateEncryptContext true w1) as [w2 started]. cbn [fst] in Hs.
    destruct started; [done|]. etrans; [exact Hs|].
    by apply (refresh_implements w2 a), (implements_same w).
  - by apply metadata_implements.
  - apply (implements_same w); [|done]. unfold handleEncrypt, updateEncryptContext.
    by repeat case_decide.
  - by apply decrypt_implements.
Qed.

Lemma keyReady_users i w w' : worker_step (KeyReady i) w = Some w' →
  ∀ a, implements w a → implements w' a.
Proof.
  intros (p & _ & Hp)%worker_step_ready a Hi.
  assert (implements (with_pending (delete i) w) a) as Hi1 by (by apply (implements_same w)).
  destruct p as [mid ref pw u uid|pw u uid refresh];
    cbn [keyReady] in Hp; rewrite createKey_ok in Hp; injection Hp as <-.
  - apply (implements_same (with_pending (delete i) w)); [|done]. split; [done|]. intros mid'. cbn.
    destruct (decide (mid = mid')) as [<-|Hne]; [|by rewrite lookup_alter_ne].
    rewrite lookup_alter_eq. destruct (decryptContextByMid w !! mid); [|done]. simpl. by case_decide.
  - assert (implements (encryptKeyReady pw (derived pw u uid) (with_pending (delete i) w)) a) as Hi2.
    { apply (implements_same (with_pending (delete i) w)); [|done].
      unfold encryptKeyReady. by case_decide. }
    destruct refresh; [|done]. apply (implements_same _ _ _ (refresh_implements _ _ Hi2) Hi2).
Qed.

Lemma run_implements es : ∀ w w' a,
  implements w a → worker_run es w = Some w' → implements w' (foldl assign a (omap posted_of es)).
Proof.
  induction es as [|e es IH]; intros w w' a Hi; [by intros [= <-]|]. cbn [worker_run].
  intros (w1 & Hs & Hrun)%bind_Some. destruct e as [msg|i]; simpl.
  - injection Hs as <-. eapply IH; [|done]. by apply onmessage_implements.
  - eapply IH; [|done]. by eapply keyReady_users.
Qed.

Lemma contexts_assigned es w :
  worker_run es new_worker = Some w →
  ∀ mid, dctx_userId <$> decryptContextByMid w !! mid = assigned (assignment (omap posted_of es)) !! mid.
Proof. intros Hrun. apply im_assigned, (run_implements _ _ _ _ implements_new Hrun). Qed.

(** C18. Whatever messages and keys reach the worker, in any order: the contexts with
    which it decrypts are for exactly the [mid]s of the abstract account of the
    messages, each for the user it assigns. *)
Theorem contexts_follow_messages es w :
  worker_run es new_worker = Some w →
  ∀ mid, dctx_userId <$> decryptContextByMid w !! mid = assigned (assignment (omap posted_of es)) !! mid.
Proof. apply contexts_assigned. Qed.

(** * Frames *)

(** Sealed under a key, opened with another: what AES-GCM promises, for the keys the
    two users derive. *)
Definition authentic (pw url u u' : string) : Prop :=
  ∀ iv aad d, aes_decrypt (derived pw url u') iv aad (aes_encrypt (derived pw url u) iv aad d) = None.

Lemma decrypt_data_foreign k k' iv f :
  long_enough f → u8_length iv = ivByteLength →
  (∀ iv aad d, aes_decrypt k' iv aad (aes_encrypt k iv aad d) = None) →
  decrypt_data k' (sealed k iv f) = Throw (Error "OperationError").
Proof.
  intros Hl Hiv Hauth. by rewrite decrypt_data_sealed, Hauth.
Qed.
End worker.
