(* ===== verification/InsertableCodec.v ===== *)
(** [InsertableStreamsCodec] ([src/client/insertable-streams/index.ts]): the
    page's side of the encryption worker. *)

From S2P Require Import Prelude Numbers Bytes TextCodec Objects InsertableStreams KeyManagement KeySafety FrameSecurity.

(** An [RTCRtpSender] or an [RTCRtpReceiver], each numbered by identity. *)
Inductive SenderReceiver :=
  | RTCRtpSender (n : nat)
  | RTCRtpReceiver (n : nat).

#[export] Instance SenderReceiver_eq_dec : EqDecision SenderReceiver.
Proof. solve_decision. Defined.

#[export] Instance SenderReceiver_countable : Countable SenderReceiver.
Proof.
  refine (inj_countable' (λ x, match x with RTCRtpSender n => inl n | RTCRtpReceiver n => inr n end)
    (λ y, match y with inl n => RTCRtpSender n | inr n => RTCRtpReceiver n end) _).
  by intros [].
Defined.

(** [createEncodedStreams] of the browser: [None] where it does not exist; else
    what a call returns, given the earlier calls of the page ([None]: it
    throws). *)
Class EncodedStreams := {
  createEncodedStreams :
    option (list (SenderReceiver * option StreamPair) → SenderReceiver → option StreamPair);
}.

Section codec.
Context `{EncodedStreams}.

Record InsertableStreamsCodec := {
  worker : bool;
  sendersReceivers : gset SenderReceiver;
  (** what the worker has been sent *)
  posted : list WorkerMessage;
  (** the calls of [createEncodedStreams] with their results *)
  stream_calls : list (SenderReceiver * option StreamPair);
}.

(** [constructor]: the page can make object URLs, senders and receivers have
    [createEncodedStreams], and [new Worker] succeeds. *)
Definition new_codec (has_URL has_insertable_streams worker_ok : bool)
    (url userId : string) : InsertableStreamsCodec :=
  let none := {| worker := false; sendersReceivers := ∅; posted := [];
                 stream_calls := [] |} in
  if negb has_URL then none
  else if negb has_insertable_streams then none
  else if negb worker_ok then none
  else {| worker := true; sendersReceivers := ∅; posted := [InitEvent url userId];
          stream_calls := [] |}.

Definition postMessage (message : WorkerMessage) (c : InsertableStreamsCodec) :
    bool * InsertableStreamsCodec :=
  if negb (worker c) then (false, c)
  else (true, {| worker := worker c; sendersReceivers := sendersReceivers c;
                 posted := posted c ++ [message]; stream_calls := stream_calls c |}).

Definition setPassword (password : string) (c : InsertableStreamsCodec) :=
  postMessage (PasswordEvent password) c.

Definition setTrackMetadata (metadata : list TrackMetadata) (c : InsertableStreamsCodec) :=
  postMessage (MetadataEvent metadata) c.

Definition getEncodedStreams (senderOrReceiver : SenderReceiver)
    (c : InsertableStreamsCodec) : option StreamPair * InsertableStreamsCodec :=
  match createEncodedStreams with
  | None => (None, c)
  | Some f =>
    let r := f (stream_calls c) senderOrReceiver in
    (r, {| worker := worker c; sendersReceivers := sendersReceivers c; posted := posted c;
           stream_calls := stream_calls c ++ [(senderOrReceiver, r)] |})
  end.

Definition add_seen (x : SenderReceiver) (c : InsertableStreamsCodec) :=
  {| worker := worker c; sendersReceivers := {[x]} ∪ sendersReceivers c;
     posted := posted c; stream_calls := stream_calls c |}.

Definition encrypt (sender : nat) (c : InsertableStreamsCodec) :
    bool * InsertableStreamsCodec :=
  if negb (worker c) then (false, c)
  else if decide (RTCRtpSender sender ∈ sendersReceivers c) then (true, c)
  else
    let c := add_seen (RTCRtpSender sender) c in
    let '(streams, c) := getEncodedStreams (RTCRtpSender sender) c in
    match streams with
    | None => (false, c)
    | Some streams => postMessage (EncryptStreamEvent streams) c
    end.

Definition decrypt (receiver : nat) (mid userId : string)
    (c : InsertableStreamsCodec) : bool * InsertableStreamsCodec :=
  if negb (worker c) then (false, c)
  else if decide (RTCRtpReceiver receiver ∈ sendersReceivers c)
  then postMessage (DecryptStreamEvent mid userId None) c
  else
    let '(encodedStreams, c) := getEncodedStreams (RTCRtpReceiver receiver) c in
    match encodedStreams with
    | None => (false, c)
    | Some streams =>
      let c := add_seen (RTCRtpReceiver receiver) c in
      postMessage (DecryptStreamEvent mid userId (Some streams)) c
    end.

(** * Sequences of calls *)

Inductive CodecCall :=
  | SetPassword (password : string)
  | SetTrackMetadata (metadata : list TrackMetadata)
  | Encrypt (sender : nat)
  | Decrypt (receiver : nat) (mid userId : string).

Definition codec_call (op : CodecCall) (c : InsertableStreamsCodec) :
    bool * InsertableStreamsCodec :=
  match op with
  | SetPassword password => setPassword password c
  | SetTrackMetadata metadata => setTrackMetadata metadata c
  | Encrypt sender => encrypt sender c
  | Decrypt receiver mid userId => decrypt receiver mid userId c
  end.

Definition codec_calls (ops : list CodecCall) (c : InsertableStreamsCodec) :
    InsertableStreamsCodec :=
  foldl (λ c op, (codec_call op c).2) c ops.

(** The senders and receivers whose streams were obtained. *)
Definition obtained (c : InsertableStreamsCodec) : list SenderReceiver :=
  omap (λ '(x, r), (λ _, x) <$> r) (stream_calls c).

(** The streams handed over to the worker. *)
Definition transferred (msg : WorkerMessage) : option StreamPair :=
  match msg with
  | EncryptStreamEvent streams => Some streams
  | DecryptStreamEvent _ _ streams => streams
  | _ => None
  end.

(** The browser, if it can, has been asked for the sender's streams; and what it
    gave has been posted to the worker, to be encrypted. *)
Definition handed_over (sender : nat) (c : InsertableStreamsCodec) : Prop :=
  createEncodedStreams = None ∨
  ∃ r, (RTCRtpSender sender, r) ∈ stream_calls c ∧
    ∀ streams, r = Some streams → EncryptStreamEvent streams ∈ posted c.

(** Streams are obtained once, and all of them are handed over, in order; those of
    the senders that were seen, to be encrypted. *)
Record codec_inv (url userId : string) (c : InsertableStreamsCodec) : Prop := {
  ci_obtained : NoDup (obtained c);
  ci_seen : ∀ x, x ∈ obtained c → x ∈ sendersReceivers c;
  ci_encrypted : ∀ n, RTCRtpSender n ∈ sendersReceivers c → handed_over n c;
  ci_transferred : omap transferred (posted c) = omap snd (stream_calls c);
  ci_posted : if worker c then ∃ ms, posted c = InitEvent url userId :: ms ∧ Forall after_init ms
              else posted c = [] ∧ stream_calls c = [];
}.

Lemma new_codec_inv a b d url userId : codec_inv url userId (new_codec a b d url userId).
Proof.
  unfold new_codec. destruct a, b, d; split; simpl; try done;
    try apply NoDup_nil_2; try (intros x Hx; by apply not_elem_of_nil in Hx).
  by exists [].
Qed.

(** What was handed over stays so. *)
Lemma handed_over_mono n c c' :
  posted c ⊆ posted c' → stream_calls c ⊆ stream_calls c' → handed_over n c → handed_over n c'.
Proof. intros Hp Hs [?|(r & Hr & Hm)]; [by left|right]. exists r. split; [by apply Hs|]. intros s Hs'. by apply Hp, Hm. Qed.

Lemma postMessage_inv url userId msg c :
  after_init msg → transferred msg = None →
  codec_inv url userId c → codec_inv url userId (postMessage msg c).2.
Proof.
  intros Hm Ht Hi. unfold postMessage. destruct (worker c) eqn:Hw; [|done].
  destruct Hi as [Ho Hs He Htr Hp]. rewrite Hw in Hp. split; [done|done| | |].
  - intros n Hn. apply (handed_over_mono n c); [apply list_subseteq_app_l; done|done|by apply He].
  - simpl. rewrite omap_app, Htr. simpl. by rewrite Ht, app_nil_r.
  - simpl. destruct Hp as (ms & -> & Hms). exists (ms ++ [msg]). split; [done|].
    apply Forall_app. by split; [|constructor].
Qed.

(** A call of [createEncodedStreams] for a new sender, and the message with
    what it returned. *)
Lemma obtain_inv url userId x f msg seen c :
  createEncodedStreams = Some f → worker c = true → x ∉ sendersReceivers c →
  codec_inv url userId c →
  sendersReceivers c ⊆ seen → (is_Some (f (stream_calls c) x) → x ∈ seen) →
  (∀ s, f (stream_calls c) x = Some s → after_init (msg s) ∧ transferred (msg s) = Some s) →
  (∀ n, RTCRtpSender n ∈ seen → RTCRtpSender n ∈ sendersReceivers c ∨
     x = RTCRtpSender n ∧ msg = EncryptStreamEvent) →
  let r := f (stream_calls c) x in
  codec_inv url userId
    {| worker := true; sendersReceivers := seen;
       posted := posted c ++ option_list (msg <$> r);
       stream_calls := stream_calls c ++ [(x, r)] |}.
Proof.
  intros Hf Hw Hx [Ho Hs He Htr Hp] Hsub Hin Hmsg Hsend r. rewrite Hw in Hp.
  assert (x ∉ obtained c) as Hx' by (by intros ?%Hs).
  split; unfold obtained; simpl.
  - rewrite omap_app. fold (obtained c). destruct r; simpl; [|by rewrite app_nil_r].
    apply NoDup_app. split_and!; [done| |apply NoDup_singleton].
    intros y Hy ->%list_elem_of_singleton. done.
  - intros y. rewrite omap_app, elem_of_app. intros [Hy|Hy]; [by apply Hsub, Hs|].
    fold r in Hin. destruct r; simpl in Hy; [|set_solver].
    apply list_elem_of_singleton in Hy as ->. eauto.
  - intros n [Hn|[-> ->]]%Hsend.
    + apply (handed_over_mono n c); [by apply list_subseteq_app_l..|by apply He].
    + right. exists r. split; [apply elem_of_app; right; by left|]. intros s ->.
      apply elem_of_app. right. by left.
  - rewrite !omap_app, Htr. f_equal. fold r in Hmsg. destruct r as [s|]; [|done]. simpl.
    by destruct (Hmsg s eq_refl) as [_ ->].
  - destruct Hp as (ms & -> & Hms). eexists. split; [done|].
    apply Forall_app. split; [done|]. fold r in Hmsg. destruct r as [s|]; [|done]. simpl.
    constructor; [|done]. by apply (Hmsg s).
Qed.

Lemma encrypt_inv url userId x c :
  codec_inv url userId c → codec_inv url userId (encrypt x c).2.
Proof.
  intros Hi. unfold encrypt. destruct (worker c) eqn:Hw; [|done]. simpl.
  case_decide as Hx; [done|]. unfold getEncodedStreams.
  destruct createEncodedStreams as [f|] eqn:Hf.
  - pose proof (obtain_inv url userId (RTCRtpSender x) f EncryptStreamEvent
      ({[RTCRtpSender x]} ∪ sendersReceivers c) c Hf Hw Hx Hi) as Ho. simpl in *.
    unfold postMessage. destruct (f (stream_calls c) (RTCRtpSender x)) as [s|]; simpl in *;
      rewrite Hw; simpl; [|rewrite app_nil_r in Ho];
      (apply Ho; [set_solver..|done|intros n [[= ->]%elem_of_singleton|?]%elem_of_union; auto]).
  - destruct Hi as [Ho Hs He Htr Hp]. split; try done; [intros y Hy; simpl; set_solver|].
    intros n _. by left.
Qed.

Lemma decrypt_inv url userId x mid uid c :
  codec_inv url userId c → codec_inv url userId (decrypt x mid uid c).2.
Proof.
  intros Hi. unfold decrypt. destruct (worker c) eqn:Hw; [|done]. simpl.
  case_decide as Hx; [by apply postMessage_inv|]. unfold getEncodedStreams.
  destruct createEncodedStreams as [f|] eqn:Hf; [|done].
  pose proof (obtain_inv url userId (RTCRtpReceiver x) f (DecryptStreamEvent mid uid ∘ Some)) as Ho.
  simpl. unfold postMessage.
  destruct (f (stream_calls c) (RTCRtpReceiver x)) as [s|] eqn:Hr; simpl; rewrite Hw; simpl.
  - specialize (Ho ({[RTCRtpReceiver x]} ∪ sendersReceivers c) c Hf Hw Hx Hi).
    rewrite Hr in Ho. apply Ho; [set_solver|set_solver|done|].
    intros n [?%elem_of_singleton|?]%elem_of_union; [done|by left].
  - specialize (Ho (sendersReceivers c) c Hf Hw Hx Hi). rewrite Hr in Ho. simpl in Ho.
    rewrite app_nil_r in Ho. apply Ho; [done|by intros [? ?]|done|by left].
Qed.

Lemma codec_calls_inv url userId ops c :
  codec_inv url userId c → codec_inv url userId (codec_calls ops c).
Proof.
  intros Hc. unfold codec_calls. apply foldl_invariant; [|done].
  intros c' [pw|md|x|x mid uid] _ Hc'; simpl.
  - by apply postMessage_inv.
  - by apply postMessage_inv.
  - by apply encrypt_inv.
  - by apply decrypt_inv.
Qed.

(** * Theorems *)

(** Whatever calls are made, the encoded streams of each sender or receiver
    are obtained at most once, exactly the streams obtained are handed over to
    the worker, in the order they were obtained, and the worker's messages are
    one [init] followed by others. *)
Theorem codec_streams_once a b d url userId ops :
  let c := codec_calls ops (new_codec a b d url userId) in
  NoDup (obtained c) ∧
  omap transferred (posted c) = omap snd (stream_calls c) ∧
  (posted c = [] ∨
   ∃ ms, posted c = InitEvent url userId :: ms ∧ Forall after_init ms).
Proof.
  intros c. assert (codec_inv url userId c) as [Ho _ _ Ht Hp]
    by apply codec_calls_inv, new_codec_inv.
  split_and!; [done..|]. destruct (worker c); [by right|by left; destruct Hp].
Qed.

(** A sender whose streams cannot be obtained is reported as a failure only
    the first time: [encrypt] has already recorded it, so a second call answers
    that all is well, and in neither case is the worker told. *)
Theorem encrypt_forgets_failure x c :
  worker c = true → RTCRtpSender x ∉ sendersReceivers c →
  (getEncodedStreams (RTCRtpSender x) (add_seen (RTCRtpSender x) c)).1 = None →
  (encrypt x c).1 = false ∧ (encrypt x (encrypt x c).2).1 = true ∧
  posted (encrypt x (encrypt x c).2).2 = posted c.
Proof.
  intros Hw Hx Hg. assert (RTCRtpSender x ∈ sendersReceivers (encrypt x c).2 ∧
    worker (encrypt x c).2 = true ∧ (encrypt x c).1 = false ∧
    posted (encrypt x c).2 = posted c) as (Hin & Hw' & Hf & Hp).
  { unfold encrypt. rewrite Hw, decide_False by done. revert Hg. unfold getEncodedStreams.
    destruct createEncodedStreams; simpl; [intros ->|]; simpl; set_solver. }
  split; [done|]. set (c' := (encrypt x c).2) in *. unfold encrypt.
  by rewrite Hw', decide_True by done.
Qed.
End codec.

(** ** With the worker at the other end *)

Section codec_and_worker.
Context `{TextCodec} `{SubtleCrypto} `{ObjectKeys} `{EncodedStreams}.

Lemma codec_call_worker op c : worker (codec_call op c).2 = worker c.
Proof.
  destruct op as [pw|md|x|x mid uid]; simpl;
    unfold setPassword, setTrackMetadata, encrypt, decrypt, getEncodedStreams, postMessage.
  all: repeat (case_match || (simpl in *; simplify_eq)); done.
Qed.

Lemma ready_new_worker i es : worker_run (KeyReady i :: es) new_worker = None.
Proof. done. Qed.

(** What a worker is that has been handed the posted messages, with key derivations
    finishing in between. *)
Lemma posted_reachable_as (allowed : WorkerMessage → Prop) url userId c es w :
  codec_inv url userId c → worker c = true →
  omap (λ e, match e with Posted msg => Some msg | KeyReady _ => None end) es = posted c →
  Forall (λ msg, after_init msg → allowed msg) (posted c) →
  worker_run es new_worker = Some w →
  reachable allowed url userId w.
Proof.
  intros [_ _ _ _ Hp] Hw Hes Hok Hrun. rewrite Hw in Hp. destruct Hp as (ms & Hms & Hall).
  rewrite Hms in Hes, Hok. apply Forall_cons in Hok as [_ Hok].
  destruct es as [|[msg|i] es]; [done| |by rewrite ready_new_worker in Hrun].
  injection Hes as -> Hes. cbn [worker_run worker_step mbind option_bind] in Hrun.
  eapply run_reachable; [|apply reachable_init|exact Hrun].
  subst ms. clear -Hall Hok. induction es as [|[msg|i] es IH]; [done| |].
  - cbn in Hall, Hok. apply Forall_cons in Hall as [Ha Hall], Hok as [Ho Hok].
    constructor; [by apply Ho|]. by apply IH.
  - constructor; [done|]. by apply IH.
Qed.

Lemma posted_reachable url userId c es w :
  codec_inv url userId c → worker c = true →
  omap (λ e, match e with Posted msg => Some msg | KeyReady _ => None end) es = posted c →
  worker_run es new_worker = Some w →
  reachable after_init url userId w.
Proof.
  intros Hc Hw Hes. apply (posted_reachable_as _ _ _ c); [done..|]. by apply Forall_true.
Qed.

End codec_and_worker.

(** * Instances *)

(** A browser where streams can be requested once, and not from sender 7. *)
Definition once_streams : EncodedStreams := {|
  createEncodedStreams := Some (λ calls x,
    if decide (x = RTCRtpSender 7 ∨ x ∈ calls.*1) then None
    else Some match x with RTCRtpSender n => 10 + n | RTCRtpReceiver n => 100 + n end)%nat;
|}.

Lemma encrypt_forgets_failure_witness :
  let _ := once_streams in
  let c := new_codec true true true "u" "alice" in
  (encrypt 7%nat c).1 = false ∧ (encrypt 7%nat (encrypt 7%nat c).2).1 = true ∧
  posted (encrypt 7%nat (encrypt 7%nat c).2).2 = posted c.
Proof.
  intros ? c. apply (encrypt_forgets_failure (H := once_streams) 7%nat c);
    [reflexivity|set_solver|vm_compute; reflexivity].
Defined.
