(* ===== verification/CodecWorker.v ===== *)
(** The page's codec object ([InsertableStreamsCodec]) and the worker it drives: what the worker
    holds is an account of the calls the page made. *)

From S2P Require Import Prelude Numbers Bytes TextCodec Objects InsertableStreams KeyManagement KeySafety FrameSecurity Assignments InsertableCodec.

(** * What a worker records of its messages *)

Definition password_after (pw : string) (msg : WorkerMessage) : string :=
  match msg with PasswordEvent pw' => pw' | _ => pw end.

Definition pipe_of (msg : WorkerMessage) : option Pipe :=
  match msg with
  | EncryptStreamEvent streams => Some (EncryptPipe streams)
  | DecryptStreamEvent mid _ (Some streams) => Some (DecryptPipe mid streams)
  | _ => None
  end.

(** The last password among messages to the worker. *)
Definition last_password (ms : list WorkerMessage) (password : string) : string :=
  foldl password_after password ms.

Lemma last_password_app ms ms' pw :
  last_password (ms ++ ms') pw = last_password ms' (last_password ms pw).
Proof. apply foldl_app. Qed.

Section records.
Context `{TextCodec} `{SubtleCrypto} `{ObjectKeys}.

(** The password and the pipes stay. *)
Definition same_records (w w' : Worker) : Prop := password w' = password w ∧ pipes w' = pipes w.

#[export] Instance same_records_preorder : PreOrder same_records.
Proof. split; [by split|]. intros w1 w2 w3 [? ?] [? ?]. split; congruence. Qed.

Lemma updateDecryptContext_records mid uid w : same_records w (updateDecryptContext mid uid w).
Proof. unfold updateDecryptContext. simpl. repeat case_match; by split. Qed.

Lemma updateEncryptContext_records refresh w : same_records w (updateEncryptContext refresh w).1.
Proof. unfold updateEncryptContext. repeat case_decide; by split. Qed.

Lemma refresh_records w : same_records w (refreshDecryptContexts w).
Proof.
  unfold refreshDecryptContexts. apply (foldl_invariant (same_records w)); [|reflexivity].
  intros w' mid _ Hs. destruct (decryptContextByMid w' !! mid); [|done].
  etrans; [done|apply updateDecryptContext_records].
Qed.

Lemma onmessage_records msg w :
  password (onmessage msg w) = password_after (password w) msg ∧
  pipes (onmessage msg w) = pipes w ++ option_list (pipe_of msg).
Proof.
  destruct msg as [u uid|pw|md|x|mid uid o]; cbn [onmessage password_after pipe_of option_list].
  - by rewrite app_nil_r.
  - unfold handlePassword. set (w1 := {| params_url := params_url w |}).
    pose proof (updateEncryptContext_records true w1) as Hs.
    destruct (updateEncryptContext true w1) as [w2 started]. cbn [fst] in Hs.
    assert (same_records w1 (if started then w2 else refreshDecryptContexts w2)) as [Hp Hi].
    { destruct started; [done|]. etrans; [done|apply refresh_records]. }
    rewrite app_nil_r. by split.
  - rewrite handleMetadata_loop, app_nil_r. set (w1 := set_metadata _ w).
    assert (same_records w1 (metadata_loop (object_keys (decryptContextByMid w)) w1)) as Hs; [|exact Hs].
    unfold metadata_loop. apply (foldl_invariant (same_records w1)); [|reflexivity].
    intros w' mid _ Hs. unfold metadata_visit. case_match; [|done].
    etrans; [done|apply updateDecryptContext_records].
  - apply (updateEncryptContext_records false (with_pipe (EncryptPipe x) w)).
  - unfold handleDecrypt. destruct o as [s|].
    + apply (updateDecryptContext_records mid uid (with_pipe (DecryptPipe mid s) w)).
    + simpl. rewrite app_nil_r. apply updateDecryptContext_records.
Qed.

Lemma keyReady_records i w w' : worker_step (KeyReady i) w = Some w' → same_records w w'.
Proof.
  intros (p & _ & Hp)%worker_step_ready.
  destruct p as [mid ref pw u uid|pw u uid refresh];
    cbn [keyReady] in Hp; rewrite createKey_ok in Hp; injection Hp as <-; [by split|].
  assert (same_records w (encryptKeyReady pw (derived pw u uid) (with_pending (delete i) w))) as Hs
    by (unfold encryptKeyReady; case_decide; by split).
  destruct refresh; [|done]. etrans; [done|apply refresh_records].
Qed.

Lemma run_records es : ∀ w w', worker_run es w = Some w' →
  password w' = last_password (omap posted_of es) (password w) ∧
  pipes w' = pipes w ++ omap pipe_of (omap posted_of es).
Proof.
  induction es as [|e es IH]; intros w w'; [intros [= <-]; by rewrite app_nil_r|]. cbn [worker_run].
  intros (w1 & Hs & Hrun)%bind_Some. destruct (IH _ _ Hrun) as [Hp Hi]. destruct e as [msg|i]; simpl.
  - injection Hs as <-. destruct (onmessage_records msg w) as [Hp1 Hi1].
    rewrite Hp, Hi, Hp1, Hi1, <-(assoc_L (++)). by destruct (pipe_of msg).
  - destruct (keyReady_records _ _ _ Hs) as [Hp1 Hi1]. by rewrite Hp, Hi, Hp1, Hi1.
Qed.

Lemma worker_run_password es w w' :
  worker_run es w = Some w' →
  password w' = last_password
    (omap (λ e, match e with Posted msg => Some msg | KeyReady _ => None end) es) (password w).
Proof. intros Hrun. apply (run_records _ _ _ Hrun). Qed.
End records.

(** * An account of the calls *)

Section account.
Context `{EncodedStreams}.

(** What the calls answer. *)
Fixpoint codec_answers (ops : list CodecCall) (c : InsertableStreamsCodec) : list bool :=
  match ops with
  | [] => []
  | op :: ops => (codec_call op c).1 :: codec_answers ops (codec_call op c).2
  end.

(** What a call is to tell the worker, of passwords and users: a track that cannot be
    decrypted is not announced. *)
Definition told (call : CodecCall * bool) : option WorkerMessage :=
  match call with
  | (SetPassword password, _) => Some (PasswordEvent password)
  | (SetTrackMetadata metadata, _) => Some (MetadataEvent metadata)
  | (Decrypt _ mid userId, true) => Some (DecryptStreamEvent mid userId None)
  | _ => None
  end.

Definition without_streams (msg : WorkerMessage) : option WorkerMessage :=
  match msg with
  | PasswordEvent _ | MetadataEvent _ => Some msg
  | DecryptStreamEvent mid userId _ => Some (DecryptStreamEvent mid userId None)
  | InitEvent _ _ | EncryptStreamEvent _ => None
  end.

(** The streams the browser gave, with whose they are. *)
Definition streams_given (c : InsertableStreamsCodec) : list (SenderReceiver * StreamPair) :=
  omap (λ '(x, r), (x,.) <$> r) (stream_calls c).

(** The pipe that the streams of a sender or receiver are for. *)
Definition opened_as (ops : list CodecCall) (x : SenderReceiver * StreamPair) (pipe : Pipe) : Prop :=
  match x, pipe with
  | (RTCRtpSender n, streams), EncryptPipe streams' => Encrypt n ∈ ops ∧ streams' = streams
  | (RTCRtpReceiver n, streams), DecryptPipe mid streams' =>
    (∃ userId, Decrypt n mid userId ∈ ops) ∧ streams' = streams
  | _, _ => False
  end.

(** What a call adds to the messages and to the requests for streams. *)
Inductive call_effect (c : InsertableStreamsCodec) :
    CodecCall → bool → list WorkerMessage → list (SenderReceiver * option StreamPair) → Prop :=
  | eff_password pw : call_effect c (SetPassword pw) true [PasswordEvent pw] []
  | eff_metadata md : call_effect c (SetTrackMetadata md) true [MetadataEvent md] []
  | eff_encrypt_seen n : RTCRtpSender n ∈ sendersReceivers c → call_effect c (Encrypt n) true [] []
  | eff_encrypt_unable n : createEncodedStreams = None → call_effect c (Encrypt n) false [] []
  | eff_encrypt n f r : createEncodedStreams = Some f → RTCRtpSender n ∉ sendersReceivers c →
      r = f (stream_calls c) (RTCRtpSender n) →
      call_effect c (Encrypt n) (bool_decide (is_Some r)) (option_list (EncryptStreamEvent <$> r))
        [(RTCRtpSender n, r)]
  | eff_decrypt_seen n mid u : RTCRtpReceiver n ∈ sendersReceivers c →
      call_effect c (Decrypt n mid u) true [DecryptStreamEvent mid u None] []
  | eff_decrypt_unable n mid u : createEncodedStreams = None → call_effect c (Decrypt n mid u) false [] []
  | eff_decrypt n mid u f r : createEncodedStreams = Some f → RTCRtpReceiver n ∉ sendersReceivers c →
      r = f (stream_calls c) (RTCRtpReceiver n) →
      call_effect c (Decrypt n mid u) (bool_decide (is_Some r))
        (option_list (DecryptStreamEvent mid u ∘ Some <$> r)) [(RTCRtpReceiver n, r)].

Lemma codec_call_effect op c : worker c = true →
  ∃ ms cs, call_effect c op (codec_call op c).1 ms cs ∧
    posted (codec_call op c).2 = posted c ++ ms ∧
    stream_calls (codec_call op c).2 = stream_calls c ++ cs ∧
    sendersReceivers c ⊆ sendersReceivers (codec_call op c).2 ∧
    ∀ n r, (RTCRtpSender n, r) ∈ cs → RTCRtpSender n ∈ sendersReceivers (codec_call op c).2.
Proof.
  intros Hw. assert (∀ n (r : option StreamPair), (RTCRtpSender n, r) ∉ []) as Hno
    by (intros ? ? ?%not_elem_of_nil; done).
  destruct op as [pw|md|n|n mid u]; cbn [codec_call].
  - unfold setPassword, postMessage. rewrite Hw. eexists _, [].
    split; [constructor|]. rewrite app_nil_r. split_and!; try done. by intros ? ? ?%Hno.
  - unfold setTrackMetadata, postMessage. rewrite Hw. eexists _, [].
    split; [constructor|]. rewrite app_nil_r. split_and!; try done. by intros ? ? ?%Hno.
  - unfold encrypt, getEncodedStreams, postMessage. rewrite Hw. simpl. case_decide as Hn.
    { exists [], []. split; [by constructor|]. rewrite !app_nil_r. split_and!; try done. by intros ? ? ?%Hno. }
    destruct createEncodedStreams as [f|] eqn:Hf.
    + pose proof (eff_encrypt c n f _ Hf Hn eq_refl) as He. simpl.
      destruct (f (stream_calls c) (RTCRtpSender n)); simpl; rewrite ?Hw; (eexists _, _; split; [exact He|]);
        rewrite ?app_nil_r; split_and!; try done; try set_solver.
    + exists [], []. split; [by constructor|]. rewrite !app_nil_r. split_and!; try done; [set_solver|].
      by intros ? ? ?%Hno.
  - unfold decrypt, getEncodedStreams, postMessage. rewrite Hw. simpl. case_decide as Hn.
    { eexists _, []. split; [by constructor|]. rewrite !app_nil_r. split_and!; try done. by intros ? ? ?%Hno. }
    destruct createEncodedStreams as [f|] eqn:Hf.
    + pose proof (eff_decrypt c n mid u f _ Hf Hn eq_refl) as He. simpl.
      destruct (f (stream_calls c) (RTCRtpReceiver n)); simpl; rewrite ?Hw; (eexists _, _; split; [exact He|]);
        rewrite ?app_nil_r; split_and!; try done; try set_solver.
    + exists [], []. split; [by constructor|]. rewrite !app_nil_r. split_and!; try done. by intros ? ? ?%Hno.
Qed.

(** The senders whose streams were asked for. *)
Definition asked_senders (cs : list (SenderReceiver * option StreamPair)) : list nat :=
  omap (λ '(x, _), match x with RTCRtpSender n => Some n | RTCRtpReceiver _ => None end) cs.

Lemma elem_of_asked n cs : n ∈ asked_senders cs ↔ ∃ r, (RTCRtpSender n, r) ∈ cs.
Proof.
  unfold asked_senders. rewrite list_elem_of_omap. split.
  - intros ([[m|m] r] & Hin & [= ->]). by exists r.
  - intros [r Hin]. by exists (RTCRtpSender n, r).
Qed.

Lemma codec_calls_snoc ops op c : codec_calls (ops ++ [op]) c = (codec_call op (codec_calls ops c)).2.
Proof. unfold codec_calls. by rewrite foldl_app. Qed.

Lemma codec_answers_snoc ops op c :
  codec_answers (ops ++ [op]) c = codec_answers ops c ++ [(codec_call op (codec_calls ops c)).1].
Proof. revert c. induction ops as [|op' ops IH]; intros c; [done|]. simpl. by rewrite IH. Qed.

Lemma codec_answers_length ops c : length (codec_answers ops c) = length ops.
Proof. revert c. induction ops; intros c; [done|]. simpl. by f_equal. Qed.

Lemma opened_as_more ops op x pipe : opened_as ops x pipe → opened_as (ops ++ [op]) x pipe.
Proof.
  destruct x as [[n|n] s], pipe as [s'|mid s']; simpl; try done.
  - intros [Hin ->]. split; [|done]. apply elem_of_app. by left.
  - intros [[u Hin] ->]. split; [|done]. exists u. apply elem_of_app. by left.
Qed.

(** What the codec is after some calls, in terms of them. *)
Record accounted (ops : list CodecCall) (c0 c : InsertableStreamsCodec) : Prop := {
  ac_worker : worker c = true;
  ac_told : omap without_streams (posted c) = omap told (zip ops (codec_answers ops c0));
  ac_pipes : Forall2 (opened_as ops) (streams_given c) (omap pipe_of (posted c));
  ac_once : NoDup (asked_senders (stream_calls c));
  ac_seen n : n ∈ asked_senders (stream_calls c) → RTCRtpSender n ∈ sendersReceivers c;
  ac_asked n : n ∈ asked_senders (stream_calls c) → Encrypt n ∈ ops;
  ac_given i x r : stream_calls c !! i = Some (x, r) →
    ∃ f, createEncodedStreams = Some f ∧ r = f (take i (stream_calls c)) x;
  ac_failed n mid u : (Decrypt n mid u, false) ∈ zip ops (codec_answers ops c0) →
    createEncodedStreams = None ∨ (RTCRtpReceiver n, None) ∈ stream_calls c;
}.

Lemma effect_told c op b ms cs :
  call_effect c op b ms cs → omap without_streams ms = option_list (told (op, b)).
Proof. by destruct 1 as [| | | |n f [|]| | |n mid u f [|]]. Qed.

Lemma effect_pipes ops c op b ms cs : call_effect c op b ms cs →
  Forall2 (opened_as (ops ++ [op])) (omap (λ '(x, r), (x,.) <$> r) cs) (omap pipe_of ms).
Proof.
  assert (op ∈ ops ++ [op]) as Hin by (apply elem_of_app; right; by left).
  destruct 1 as [| | | |n f [s|]| | |n mid u f [s|]]; simpl; repeat constructor; [done|by exists u].
Qed.

Lemma effect_asked c op b ms cs n :
  call_effect c op b ms cs → n ∈ asked_senders cs → op = Encrypt n ∧ asked_senders cs = [n].
Proof. destruct 1; simpl; intros Hn; try by apply not_elem_of_nil in Hn. by apply list_elem_of_singleton in Hn as ->. Qed.

Lemma effect_new c op b ms cs n :
  call_effect c op b ms cs → n ∈ asked_senders cs → RTCRtpSender n ∉ sendersReceivers c.
Proof. destruct 1; simpl; intros Hn; try by apply not_elem_of_nil in Hn. by apply list_elem_of_singleton in Hn as ->. Qed.

Lemma effect_given c op b ms cs i x r : call_effect c op b ms cs → cs !! i = Some (x, r) →
  i = 0%nat ∧ ∃ f, createEncodedStreams = Some f ∧ r = f (stream_calls c) x.
Proof. destruct 1; destruct i; simpl; try done; intros [= <- <-]; split; eauto. Qed.

Lemma effect_failed c n mid u b ms cs : call_effect c (Decrypt n mid u) b ms cs → b = false →
  createEncodedStreams = None ∨ (RTCRtpReceiver n, None) ∈ cs.
Proof. inversion 1; try done; [by left|]. destruct r; [done|]. right. by left. Qed.

Lemma accounted_call ops op c0 c : c = codec_calls ops c0 →
  accounted ops c0 c → accounted (ops ++ [op]) c0 (codec_call op c).2.
Proof.
  intros Hc [Hw Ht Hp Ho Hs Ha Hg Hf].
  destruct (codec_call_effect op c Hw) as (ms & cs & He & Hpost & Hcalls & Hsub & Hnew).
  split.
  - by rewrite codec_call_worker.
  - rewrite Hpost, omap_app, Ht, codec_answers_snoc, (zip_with_app _ ops) by (by rewrite codec_answers_length).
    rewrite omap_app, (effect_told _ _ _ _ _ He), <-Hc. cbn [zip_with omap list_omap]. by destruct (told (op, (codec_call op c).1)).
  - unfold streams_given. rewrite Hpost, Hcalls, !omap_app. apply Forall2_app; [|by eapply effect_pipes].
    eapply Forall2_impl; [exact Hp|apply opened_as_more].
  - rewrite Hcalls. unfold asked_senders. rewrite omap_app. apply NoDup_app. split_and!; [done| |].
    + intros n Hn Hn'. apply (effect_new _ _ _ _ _ n He Hn'). by apply Hs.
    + destruct (asked_senders cs) as [|n l] eqn:Hl; unfold asked_senders in Hl; rewrite Hl; [constructor|].
      destruct (effect_asked _ _ _ _ _ n He) as [_ Hl']; [unfold asked_senders; rewrite Hl; by left|].
      unfold asked_senders in Hl'. rewrite Hl in Hl'. rewrite Hl'. apply NoDup_singleton.
  - intros n. rewrite Hcalls, elem_of_asked. intros (r & [Hin|Hin]%elem_of_app); [|by eapply Hnew].
    apply Hsub, Hs, elem_of_asked. by exists r.
  - intros n. rewrite Hcalls. unfold asked_senders. rewrite omap_app, !elem_of_app.
    intros [Hn|Hn]; [left; by apply Ha|right]. destruct (effect_asked _ _ _ _ _ _ He Hn) as [-> _]. by left.
  - intros i x r. rewrite Hcalls. intros [Hi|[Hlen Hi]]%lookup_app_Some.
    + rewrite take_app_le by (apply lookup_lt_Some in Hi; lia). by apply (Hg i).
    + destruct (effect_given _ _ _ _ _ _ _ _ He Hi) as [Hz Hg'].
      rewrite take_app_ge by lia. rewrite Hz, app_nil_r. exact Hg'.
  - intros n mid u. rewrite codec_answers_snoc, (zip_with_app _ ops) by (by rewrite codec_answers_length).
    rewrite Hcalls, <-Hc. intros [Hin|Hin]%elem_of_app.
    + destruct (Hf _ _ _ Hin); [by left|right]. apply elem_of_app. by left.
    + apply list_elem_of_singleton in Hin as [= <- Hb].
      destruct (effect_failed _ _ _ _ _ _ _ He (eq_sym Hb)); [by left|right]. apply elem_of_app. by right.
Qed.

Lemma calls_accounted ops url userId :
  let c0 := new_codec true true true url userId in accounted ops c0 (codec_calls ops c0).
Proof.
  intros c0. induction ops as [|op ops IH] using rev_ind.
  - split; simpl; try done; [apply NoDup_nil_2|intros n Hn; by apply not_elem_of_nil in Hn..|].
    intros n mid u Hn. by apply not_elem_of_nil in Hn.
  - rewrite codec_calls_snoc. by apply accounted_call.
Qed.

(** A sender given to [encrypt] has been seen. *)
Lemma encrypt_seen n c : worker c = true → RTCRtpSender n ∈ sendersReceivers (encrypt n c).2.
Proof.
  unfold encrypt, postMessage, getEncodedStreams. intros Hw. rewrite Hw. simpl. case_decide; [done|].
  destruct createEncodedStreams as [f|]; simpl; [destruct (f _ _); simpl; rewrite ?Hw|]; set_solver.
Qed.

(** The codec forgets no sender. *)
Lemma codec_call_seen op c x :
  x ∈ sendersReceivers c → x ∈ sendersReceivers (codec_call op c).2.
Proof.
  intros Hx. destruct op; simpl; unfold setPassword, setTrackMetadata, encrypt, decrypt,
    postMessage, getEncodedStreams; repeat (case_match; simpl in *; simplify_eq); set_solver.
Qed.
End account.

(** * The worker is an account of the calls *)

Section codec_and_worker.
Context `{TextCodec} `{SubtleCrypto} `{ObjectKeys} `{EncodedStreams}.

Lemma without_streams_password pw ms :
  last_password (omap without_streams ms) pw = last_password ms pw.
Proof. unfold last_password. revert pw. induction ms as [|[] ms IH]; intros pw; simpl; auto. Qed.

Lemma without_streams_assign a ms : foldl assign a (omap without_streams ms) = foldl assign a ms.
Proof. revert a. induction ms as [|[] ms IH]; intros a; simpl; auto. Qed.

Lemma encrypted_seen ops n c :
  worker c = true → Encrypt n ∈ ops → RTCRtpSender n ∈ sendersReceivers (codec_calls ops c).
Proof.
  intros Hw Hn. apply list_elem_of_split in Hn as (ops1 & ops2 & ->).
  unfold codec_calls. rewrite foldl_app. cbn [foldl].
  apply (foldl_invariant (λ c, RTCRtpSender n ∈ sendersReceivers c)).
  - intros c' op _ Hc'. by apply codec_call_seen.
  - apply encrypt_seen. apply (foldl_invariant (λ c, worker c = true)); [|done].
    intros c' op _ Hc'. by rewrite codec_call_worker.
Qed.

Lemma streams_given_obtained c : (streams_given c).*1 = obtained c.
Proof. unfold streams_given, obtained. induction (stream_calls c) as [|[x [r|]] cs IH]; [done|simpl; by f_equal|exact IH]. Qed.

(** C28. The codec drives the worker as its calls say.  Whatever calls a page makes
    of its codec, once its worker has handled what was posted, with key
    derivations finishing at any point in between: the worker has the page's
    url and user, and the password set last; it decrypts, on each [mid], for the
    user that the calls name; it has one pipe for each pair of streams the browser
    gave, in their order, which encrypts those of senders that [encrypt] was
    called with, and decrypts those of receivers on a [mid] that [decrypt] was
    called with; no sender or receiver gave streams twice; a call of [decrypt] only
    fails where the browser gives no streams; and, where the browser can, the
    streams of exactly the senders that [encrypt] was called with were asked for,
    each once. *)
Theorem codec_drives_worker url userId ops es w :
  let c0 := new_codec true true true url userId in
  let c := codec_calls ops c0 in
  let account := omap told (zip ops (codec_answers ops c0)) in
  omap posted_of es = posted c → worker_run es new_worker = Some w →
  (params_url w = url ∧ params_userId w = userId ∧
   password w = last_password account "") ∧
  (∀ mid, dctx_userId <$> decryptContextByMid w !! mid = assigned (assignment account) !! mid) ∧
  Forall2 (opened_as ops) (streams_given c) (pipes w) ∧ NoDup (streams_given c).*1 ∧
  (∀ i x r, stream_calls c !! i = Some (x, r) →
     ∃ f, createEncodedStreams = Some f ∧ r = f (take i (stream_calls c)) x) ∧
  (∀ n mid u, (Decrypt n mid u, false) ∈ zip ops (codec_answers ops c0) →
     createEncodedStreams = None ∨ (RTCRtpReceiver n, None) ∈ stream_calls c) ∧
  NoDup (asked_senders (stream_calls c)) ∧
  (is_Some createEncodedStreams → ∀ n, n ∈ asked_senders (stream_calls c) ↔ Encrypt n ∈ ops).
Proof.
  intros c0 c account Hes Hrun.
  destruct (calls_accounted ops url userId) as [Hw Ht Hp Ho Hs Ha Hg Hf]. fold c0 c in Hw, Ht, Hp, Ho, Hs, Ha, Hg, Hf.
  fold account in Ht. assert (codec_inv url userId c) as Hc by apply codec_calls_inv, new_codec_inv.
  destruct (run_records _ _ _ Hrun) as [Hpw Hpi]. rewrite Hes in Hpw, Hpi.
  destruct (reachable_inv url userId w) as [Hu Hi _ _ _ _]; [by apply (posted_reachable _ _ c es)|].
  split_and!; try done.
  - by rewrite Hpw, <-Ht, without_streams_password.
  - intros mid. rewrite (contexts_assigned _ _ Hrun), Hes. unfold assignment.
    by rewrite <-Ht, without_streams_assign.
  - by rewrite Hpi.
  - rewrite streams_given_obtained. apply (ci_obtained _ _ _ Hc).
  - intros [f Hf'] n. split; [apply Ha|]. intros Hn. rewrite elem_of_asked.
    destruct (ci_encrypted _ _ _ Hc n (encrypted_seen ops n c0 eq_refl Hn))
      as [Hnone|(r & Hr & _)]; [congruence|].
    by exists r.
Qed.
End codec_and_worker.

(** * Instances *)

(** The page calls, meets a peer, whose track comes back on a new [mid], and names a
    user for the first; a second sender cannot be encrypted. *)
Definition demo_calls : list CodecCall :=
  [SetPassword "old"; Encrypt 1; Encrypt 1; SetPassword "x"; Decrypt 1 "0" "bob"; Encrypt 7;
   SetTrackMetadata [{| tm_mid := "0"; tm_userId := "carol"; tm_streamId := "s"; tm_kind := "audio" |}];
   Decrypt 1 "1" "bob"]%nat.

Lemma codec_drives_worker_witness :
  let _ := ascii_codec in let _ := toy_crypto in let _ := some_object_keys in
  let _ := once_streams in
  ∃ w, worker_run (Posted <$> posted (codec_calls demo_calls (new_codec true true true "u" "alice")))
      new_worker = Some w ∧
    password w = "x" ∧ pipes w = [EncryptPipe 11%nat; DecryptPipe "0" 101%nat] ∧
    dctx_userId <$> decryptContextByMid w !! "0" = Some "carol" ∧
    dctx_userId <$> decryptContextByMid w !! "1" = Some "bob".
Proof.
  intros. set (es := Posted <$> posted (codec_calls demo_calls (new_codec true true true "u" "alice"))).
  destruct (worker_run es new_worker) as [w|] eqn:Hrun; [|vm_compute in Hrun; discriminate].
  exists w. split; [reflexivity|].
  destruct (codec_drives_worker "u" "alice" demo_calls es w) as ((_ & _ & Hp) & Hu & _);
    [vm_compute; reflexivity|exact Hrun|].
  split_and!.
  - rewrite Hp. vm_compute. reflexivity.
  - assert (pipes <$> worker_run es new_worker = Some [EncryptPipe 11%nat; DecryptPipe "0" 101%nat]) as Hq
      by (vm_compute; reflexivity).
    rewrite Hrun in Hq. by injection Hq.
  - rewrite Hu. vm_compute. reflexivity.
  - rewrite Hu. vm_compute. reflexivity.
Defined.
