(* ===== verification/Actions.v ===== *)
(** The data of the client: media objects, peers, and the redux actions with
    their creators ([src/client/actions/*.ts], [async/action.ts],
    [constants.ts]). *)

From S2P Require Import Prelude Objects InsertableStreams.

(** * Constants ([constants.ts]) *)

Definition ME : string := "_me_".
Definition PEERCALLS : string := "[PeerCalls]".

Inductive DialState := DIAL_STATE_HUNG_UP | DIAL_STATE_DIALLING | DIAL_STATE_IN_CALL.

#[export] Instance DialState_eq_dec : EqDecision DialState.
Proof. solve_decision. Defined.

(** * Objects of the browser and of simple-peer

    A media object is named by a reference, its identity; what never changes of
    it is carried along. *)

Inductive MediaKind := audio | video.

#[export] Instance MediaKind_eq_dec : EqDecision MediaKind.
Proof. solve_decision. Defined.

Record MediaStreamTrack := {
  track_ref : nat;
  track_id : string;
  track_kind : MediaKind;
  track_label : string;
}.

Record MediaStream := {
  stream_ref : nat;
  stream_id : string;
}.

#[export] Instance MediaStreamTrack_eq_dec : EqDecision MediaStreamTrack.
Proof. solve_decision. Defined.
#[export] Instance MediaStream_eq_dec : EqDecision MediaStream.
Proof. solve_decision. Defined.

(** A [Peer.Instance] of simple-peer, by identity. *)
Definition PeerRef := nat.

(** * Asynchronous actions ([async/action.ts]) *)

Record JSError := {
  error_name : string;
  error_message : string;
}.

(** [AsyncAction<T, P>], seen by the reducers: the status and its payload. *)
Inductive AsyncAction (P : Type) :=
  | pending
  | resolved (payload : P)
  | rejected (payload : JSError).
Arguments pending {P}.
Arguments resolved {P} payload.
Arguments rejected {P} payload.

(** * Streams ([StreamActions.ts]) *)

Inductive StreamType := StreamTypeCamera | StreamTypeDesktop.

#[export] Instance StreamType_eq_dec : EqDecision StreamType.
Proof. solve_decision. Defined.

Record AddLocalStreamPayload := {
  als_type : StreamType;
  als_stream : MediaStream;
}.

Record RecordLocalStreamPayload := {
  recordUrl : string;
  roomID : string;
  userID : string;
}.

Record AddTrackPayload := {
  at_mid : string;
  at_streamId : string;
  at_userId : string;
  at_track : MediaStreamTrack;
}.

(** [MetadataPayload] of [SocketEvent.ts]. *)
Record MetadataPayload := {
  mp_userId : string;
  mp_metadata : list TrackMetadata;
}.

(** * Media ([MediaActions.ts]) *)

Record MediaDevice := {
  device_id : string;
  device_name : string;
  device_type : string;
}.

Inductive FacingMode := facing_user | facing_environment.

(** A [VideoConstraint] or an [AudioConstraint]: one is cast to the other where the
    code does not look; the object of a device may carry the name of the device,
    which the types know nothing of. *)
Inductive Constraint :=
  | device_constraint (deviceId : string) (name : option string)
  | flag_constraint (b : bool)
  | facing_constraint (facingMode : FacingMode)
  | exact_constraint (facingMode : FacingMode).

Definition VideoConstraint : Type := Constraint.
Definition AudioConstraint : Type := Constraint.

#[export] Instance FacingMode_eq_dec : EqDecision FacingMode.
Proof. solve_decision. Defined.
#[export] Instance Constraint_eq_dec : EqDecision Constraint.
Proof. solve_decision. Defined.

Record MediaTrackPayload := {
  mt_kind : MediaKind;
  mt_track : option MediaStreamTrack;
  mt_type : StreamType;
}.

(** * Notifications ([NotifyActions.ts]) *)

Inductive NotifyType := notify_info | notify_warning | notify_error.

Record Notification := {
  n_id : string;
  n_type : NotifyType;
  n_message : string;
}.

(** * Chat ([ChatActions.ts]) *)

Record Base64File := {
  file_name : string;
  file_size : Z;
  file_type : string;
  file_data : string;
}.

Inductive MessageType :=
  | TextMessage (userId payload timestamp : string)
  | FileMessage (userId : string) (payload : Base64File) (timestamp : string).

(** * All actions *)

Inductive Action :=
  (* StreamActions *)
  | RemoveLocalStreamAction (stream : MediaStream) (streamType : StreamType)
  | MinimizeToggleAction (userId : string) (streamId : option string)
  | RemoveTrackAction (track : MediaStreamTrack)
  | AddTrackAction (payload : AddTrackPayload)
  | RecordLocalStreamAction (payload : RecordLocalStreamPayload)
  | StopRecordLocalStreamAction
  | TracksMetadataAction (payload : MetadataPayload)
  (* MediaActions *)
  | MediaVideoConstraintAction (payload : VideoConstraint)
  | MediaAudioConstraintAction (payload : AudioConstraint)
  | MediaEnumerateAction (action : AsyncAction (list MediaDevice))
  | MediaStreamAction (action : AsyncAction AddLocalStreamPayload)
  | MediaTrackAction (action : AsyncAction MediaTrackPayload)
  | MediaTrackEnableAction (kind : MediaKind) (type : StreamType)
  | MediaPlayAction (action : AsyncAction unit)
  (* CallActions *)
  | ConnectedAction
  | DisconnectedAction
  | DialAction (action : AsyncAction unit)
  | HangUpAction
  | RecordAction (recordStatus : bool)
  (* PeerActions *)
  | AddPeerAction (userId : string) (peer : PeerRef)
  | RemovePeerAction (userId : string)
  | AddCreatorIdAction (creatorId : string)
  (* NicknameActions *)
  | NicknamesSetAction (payload : gmap string string)
  | NicknameRemoveAction (userId : string)
  (* NotifyActions *)
  | NotificationAddAction (payload : Notification)
  | NotificationDismissAction (id : string)
  | NotificationClearAction
  (* ChatActions *)
  | MessageAddAction (payload : MessageType)
  | MessageSendAction (payload : MessageType).

(** [isRejectedAction]: an action with the status ['rejected'] and its error. *)
Definition isRejectedAction (a : Action) : option JSError :=
  match a with
  | MediaEnumerateAction (rejected e) => Some e
  | MediaStreamAction (rejected e) => Some e
  | MediaTrackAction (rejected e) => Some e
  | MediaPlayAction (rejected e) => Some e
  | DialAction (rejected e) => Some e
  | _ => None
  end.

(** [action.type] ([constants.ts]), on which the reducers and middlewares switch: no two
    kinds of actions have the same, so that to switch on it is to match on the
    action. *)
Definition action_type (a : Action) : string :=
  match a with
  | RemoveLocalStreamAction _ _ => "PEER_STREAM_REMOVE"
  | MinimizeToggleAction _ _ => "MINIMIZE_TOGGLE"
  | RemoveTrackAction _ => "PEER_STREAM_TRACK_REMOVE"
  | AddTrackAction _ => "PEER_STREAM_TRACK_ADD"
  | RecordLocalStreamAction _ => "RECORD_LOCAL_STREAM"
  | StopRecordLocalStreamAction => "STOP_RECORD_LOCAL_STREAM"
  | TracksMetadataAction _ => "TRACKS_METADATA"
  | MediaVideoConstraintAction _ => "MEDIA_VIDEO_CONSTRAINT_SET"
  | MediaAudioConstraintAction _ => "MEDIA_AUDIO_CONSTRAINT_SET"
  | MediaEnumerateAction _ => "MEDIA_ENUMERATE"
  | MediaStreamAction _ => "MEDIA_STREAM"
  | MediaTrackAction _ => "MEDIA_TRACK"
  | MediaTrackEnableAction _ _ => "MEDIA_TRACK_ENABLE"
  | MediaPlayAction _ => "MEDIA_PLAY"
  | ConnectedAction => "SOCKET_CONNECTED"
  | DisconnectedAction => "SOCKET_DISCONNECTED"
  | DialAction _ => "DIAL"
  | HangUpAction => "HANG_UP"
  | RecordAction _ => "CALL_RECORD"
  | AddPeerAction _ _ => "PEER_ADD"
  | RemovePeerAction _ => "PEER_REMOVE"
  | AddCreatorIdAction _ => "CREATOR_ID_ADD"
  | NicknamesSetAction _ => "NICKNAMES_SET"
  | NicknameRemoveAction _ => "NICKNAME_REMOVE"
  | NotificationAddAction _ => "NOTIFY"
  | NotificationDismissAction _ => "NOTIFY_DISMISS"
  | NotificationClearAction => "NOTIFY_CLEAR"
  | MessageAddAction _ => "MESSAGE_ADD"
  | MessageSendAction _ => "MESSAGE_SEND"
  end.

(** The constructor of an action, by its place in the declaration. *)
Definition action_index (a : Action) : nat :=
  match a with
  | RemoveLocalStreamAction _ _ => 0 | MinimizeToggleAction _ _ => 1 | RemoveTrackAction _ => 2
  | AddTrackAction _ => 3 | RecordLocalStreamAction _ => 4 | StopRecordLocalStreamAction => 5
  | TracksMetadataAction _ => 6 | MediaVideoConstraintAction _ => 7 | MediaAudioConstraintAction _ => 8
  | MediaEnumerateAction _ => 9 | MediaStreamAction _ => 10 | MediaTrackAction _ => 11
  | MediaTrackEnableAction _ _ => 12 | MediaPlayAction _ => 13 | ConnectedAction => 14
  | DisconnectedAction => 15 | DialAction _ => 16 | HangUpAction => 17 | RecordAction _ => 18
  | AddPeerAction _ _ => 19 | RemovePeerAction _ => 20 | AddCreatorIdAction _ => 21
  | NicknamesSetAction _ => 22 | NicknameRemoveAction _ => 23 | NotificationAddAction _ => 24
  | NotificationDismissAction _ => 25 | NotificationClearAction => 26 | MessageAddAction _ => 27
  | MessageSendAction _ => 28
  end.

Lemma action_type_index a b : action_type a = action_type b → action_index a = action_index b.
Proof. destruct a, b; (reflexivity || discriminate). Qed.
