(* ===== verification/World.v ===== *)
(** Effects: the objects of the browser the client works on, the calls it makes
    into simple-peer, and the module-level variables of the reducers, with a
    state and exception monad over them. *)

From S2P Require Import Prelude Bytes Objects InsertableCodec Actions.

(** * A state and exception monad *)

Definition eff (W A : Type) : Type := W → result A * W.

#[export] Instance eff_ret W : MRet (eff W) := λ A a w, (Ok a, w).
#[export] Instance eff_bind W : MBind (eff W) := λ A B f m w,
  match m w with
  | (Ok a, w) => f a w
  | (Throw e, w) => (Throw e, w)
  end.

Definition gets {W A} (f : W → A) : eff W A := λ w, (Ok (f w), w).
Definition modify {W} (f : W → W) : eff W unit := λ w, (Ok tt, f w).
Definition throw {W A} (e : js_error) : eff W A := λ w, (Throw e, w).
(** [try { m } catch (err) { h(err) }] *)
Definition catch {W A} (m : eff W A) (h : js_error → eff W A) : eff W A := λ w,
  match m w with
  | (Ok a, w) => (Ok a, w)
  | (Throw e, w) => h e w
  end.

(** [xs.forEach(f)]: the first exception ends the loop. *)
Fixpoint for_each {W A} (f : A → eff W unit) (xs : list A) : eff W unit :=
  match xs with
  | [] => mret tt
  | x :: xs => f x ≫= λ _, for_each f xs
  end.

(** A loop that reassigns a variable. *)
Fixpoint for_fold {W A B} (f : B → A → eff W B) (b : B) (xs : list A) : eff W B :=
  match xs with
  | [] => mret b
  | x :: xs => f b x ≫= λ b, for_fold f b xs
  end.

(** [xs.map(f)] with an effectful [f]. *)
Fixpoint for_map {W A B} (f : A → eff W B) (xs : list A) : eff W (list B) :=
  match xs with
  | [] => mret []
  | x :: xs => f x ≫= λ y, for_map f xs ≫= λ ys, mret (y :: ys)
  end.

(** Going past an operation that has run to its end. *)
Lemma bind_runs {W A B} (m : eff W A) (f : A → eff W B) w a w1 :
  m w = (Ok a, w1) → (m ≫= f) w = f a w1.
Proof. intros Hm. unfold mbind, eff_bind. by rewrite Hm. Qed.

Lemma catch_runs {W A} (m : eff W A) h w a w1 : m w = (Ok a, w1) → catch m h w = (Ok a, w1).
Proof. intros Hm. unfold catch. by rewrite Hm. Qed.

(** * Third parties *)

(** The calls the client makes on a peer of simple-peer. *)
Inductive PeerCall :=
  | p_addTrack (track : MediaStreamTrack) (stream : MediaStream)
  | p_removeTrack (track : MediaStreamTrack) (stream : MediaStream)
  | p_replaceTrack (oldTrack newTrack : MediaStreamTrack) (stream : MediaStream)
  | p_addStream (stream : MediaStream)
  | p_removeStream (stream : MediaStream)
  | p_signal (signal : string)
  | p_send (chunk : u8array)
  | p_destroy.

(** The messages the client sends over the socket ([SocketEvent.ts]); signals are
    simple-peer's and not looked into. *)
Inductive SocketMessage :=
  | sent_signal (userId signal : string)
  | sent_ready (room nickname userId : string)
  | sent_hangUp (userId : string)
  | sent_create_room (room userId : string)
  | sent_record (recordStatus : bool).

(** What the page does to the outside world, in order. *)
Inductive Effect :=
  | TrackStopped (track : MediaStreamTrack)
  | TrackHandlersCleared (track : MediaStreamTrack)
  | TrackEnabled (track : MediaStreamTrack) (enabled : bool)
  | ObjectURLRevoked (url : string)
  | PeerCreated (peer : PeerRef) (initiator : bool) (stream : option MediaStream)
  | PeerCalled (peer : PeerRef) (call : PeerCall)
  (** [setTimeout(() => forEach(state, peer => peer.destroy()))] *)
  | DestroyScheduled (peers : list PeerRef)
  (** [track.onmute = ...], [track.onunmute = ...]: what the handler dispatches *)
  | OnMuteSet (track : MediaStreamTrack)
  | OnUnmuteSet (track : MediaStreamTrack) (payload : AddTrackPayload)
  | SocketSent (message : SocketMessage)
  | ClipboardWritten (text : string).

(** The browser and simple-peer; their answers may depend on everything the page
    has done so far. *)
Class Platform := {
  (** the id of the n-th [new MediaStream()] *)
  new_stream_id : nat → string;
  (** [window.URL.createObjectURL] of a stream; [None] where it throws *)
  createObjectURL : MediaStream → option string;
  (** the outcome of a call on a peer: a number ([addTrack]: the sender) or an
      exception *)
  peer_call : list Effect → PeerRef → PeerCall → result nat;
  (** the [streams] property of a peer *)
  peer_streams : list Effect → PeerRef → list MediaStream;
}.

(** lodash's [omit], [keyBy], as documented. *)
Class Lodash := {
  omit {V} : gmap string V → list string → gmap string V;
  omit_lookup {V} (m : gmap string V) ks k :
    omit m ks !! k = if decide (k ∈ ks) then None else m !! k;
  keyBy {V} : list V → (V → string) → gmap string V;
  keyBy_lookup {V} (l : list V) f k :
    keyBy l f !! k = last (filter (λ v, f v = k) l);
}.

(** * The world *)

Record World := {
  (** the tracks of each [MediaStream] *)
  stream_tracks : gmap nat (list MediaStreamTrack);
  next_stream : nat;
  next_peer : nat;
  effects : list Effect;
  (** [localRecorders] arrays, by identity *)
  recorder_arrays : gmap nat (list string);
  next_array : nat;
  (** [reducers/streams.ts]: [peerInstance], [isRecording] *)
  peerInstance : option PeerRef;
  isRecording_var : bool;
  (** [reducers/peers.ts]: [localStreams] *)
  shared_streams : StreamType → option MediaStream;
  (** [insertableStreamsCodec] *)
  codec : InsertableStreamsCodec;
  (** lodash's [uniqueId] counter *)
  unique_ids : N;
}.

(** ** Field updates *)

Definition set_stream_tracks (f : gmap nat (list MediaStreamTrack) → gmap nat (list MediaStreamTrack))
    (w : World) : World :=
  {| stream_tracks := f (stream_tracks w); next_stream := next_stream w;
     next_peer := next_peer w; effects := effects w;
     recorder_arrays := recorder_arrays w; next_array := next_array w;
     peerInstance := peerInstance w; isRecording_var := isRecording_var w;
     shared_streams := shared_streams w; codec := codec w; unique_ids := unique_ids w |}.
Definition set_next_stream (n : nat) (w : World) : World :=
  {| stream_tracks := stream_tracks w; next_stream := n;
     next_peer := next_peer w; effects := effects w;
     recorder_arrays := recorder_arrays w; next_array := next_array w;
     peerInstance := peerInstance w; isRecording_var := isRecording_var w;
     shared_streams := shared_streams w; codec := codec w; unique_ids := unique_ids w |}.
Definition set_next_peer (n : nat) (w : World) : World :=
  {| stream_tracks := stream_tracks w; next_stream := next_stream w;
     next_peer := n; effects := effects w;
     recorder_arrays := recorder_arrays w; next_array := next_array w;
     peerInstance := peerInstance w; isRecording_var := isRecording_var w;
     shared_streams := shared_streams w; codec := codec w; unique_ids := unique_ids w |}.
Definition set_effects (f : list Effect → list Effect) (w : World) : World :=
  {| stream_tracks := stream_tracks w; next_stream := next_stream w;
     next_peer := next_peer w; effects := f (effects w);
     recorder_arrays := recorder_arrays w; next_array := next_array w;
     peerInstance := peerInstance w; isRecording_var := isRecording_var w;
     shared_streams := shared_streams w; codec := codec w; unique_ids := unique_ids w |}.
Definition set_recorder_arrays (f : gmap nat (list string) → gmap nat (list string)) (n : nat)
    (w : World) : World :=
  {| stream_tracks := stream_tracks w; next_stream := next_stream w;
     next_peer := next_peer w; effects := effects w;
     recorder_arrays := f (recorder_arrays w); next_array := n;
     peerInstance := peerInstance w; isRecording_var := isRecording_var w;
     shared_streams := shared_streams w; codec := codec w; unique_ids := unique_ids w |}.
Definition set_peerInstance (p : option PeerRef) (w : World) : World :=
  {| stream_tracks := stream_tracks w; next_stream := next_stream w;
     next_peer := next_peer w; effects := effects w;
     recorder_arrays := recorder_arrays w; next_array := next_array w;
     peerInstance := p; isRecording_var := isRecording_var w;
     shared_streams := shared_streams w; codec := codec w; unique_ids := unique_ids w |}.
Definition set_isRecording_var (b : bool) (w : World) : World :=
  {| stream_tracks := stream_tracks w; next_stream := next_stream w;
     next_peer := next_peer w; effects := effects w;
     recorder_arrays := recorder_arrays w; next_array := next_array w;
     peerInstance := peerInstance w; isRecording_var := b;
     shared_streams := shared_streams w; codec := codec w; unique_ids := unique_ids w |}.
Definition set_shared_streams (f : StreamType → option MediaStream) (w : World) : World :=
  {| stream_tracks := stream_tracks w; next_stream := next_stream w;
     next_peer := next_peer w; effects := effects w;
     recorder_arrays := recorder_arrays w; next_array := next_array w;
     peerInstance := peerInstance w; isRecording_var := isRecording_var w;
     shared_streams := f; codec := codec w; unique_ids := unique_ids w |}.
Definition set_codec (c : InsertableStreamsCodec) (w : World) : World :=
  {| stream_tracks := stream_tracks w; next_stream := next_stream w;
     next_peer := next_peer w; effects := effects w;
     recorder_arrays := recorder_arrays w; next_array := next_array w;
     peerInstance := peerInstance w; isRecording_var := isRecording_var w;
     shared_streams := shared_streams w; codec := c; unique_ids := unique_ids w |}.
Definition set_unique_ids (n : N) (w : World) : World :=
  {| stream_tracks := stream_tracks w; next_stream := next_stream w;
     next_peer := next_peer w; effects := effects w;
     recorder_arrays := recorder_arrays w; next_array := next_array w;
     peerInstance := peerInstance w; isRecording_var := isRecording_var w;
     shared_streams := shared_streams w; codec := codec w; unique_ids := n |}.

(** ** Media streams *)

Definition emit (e : Effect) : eff World unit := modify (set_effects (λ es, es ++ [e])).

Definition tracks_of (w : World) (s : MediaStream) : list MediaStreamTrack :=
  default [] (stream_tracks w !! stream_ref s).

(** [stream.getTracks()], and by kind. *)
Definition getTracks (s : MediaStream) : eff World (list MediaStreamTrack) :=
  gets (λ w, tracks_of w s).
Definition getTracksOf (kind : MediaKind) (s : MediaStream) : eff World (list MediaStreamTrack) :=
  gets (λ w, filter (λ t, track_kind t = kind) (tracks_of w s)).

(** [stream.addTrack(track)]: a stream holds a track once. *)
Definition stream_addTrack (s : MediaStream) (t : MediaStreamTrack) : eff World unit :=
  modify (λ w, set_stream_tracks
    (insert (stream_ref s)
       (if decide (t ∈ tracks_of w s) then tracks_of w s else tracks_of w s ++ [t])) w).

(** [stream.removeTrack(track)] *)
Definition stream_removeTrack (s : MediaStream) (t : MediaStreamTrack) : eff World unit :=
  modify (λ w, set_stream_tracks
    (insert (stream_ref s) (filter (λ t', t' ≠ t) (tracks_of w s))) w).

(** ** simple-peer *)

Section calls.
Context `{Platform}.

(** [new MediaStream()] *)
Definition new_MediaStream : eff World MediaStream :=
  n ← gets next_stream;
  modify (λ w, set_next_stream (S n) (set_stream_tracks (insert n []) w)) ≫= λ _,
  mret {| stream_ref := n; stream_id := new_stream_id n |}.

(** A call on a peer; it is attempted even when it throws. *)
Definition call_peer (p : PeerRef) (c : PeerCall) : eff World nat := λ w,
  let r := peer_call (effects w) p c in
  (r, set_effects (λ es, es ++ [PeerCalled p c]) w).

(** [new Peer({initiator, stream, ...})] *)
Definition new_Peer (initiator : bool) (stream : option MediaStream) : eff World PeerRef :=
  n ← gets next_peer;
  modify (set_next_peer (S n)) ≫= λ _,
  emit (PeerCreated n initiator stream) ≫= λ _,
  mret n.
End calls.

(** ** The encryption codec *)

Section codec.
Context `{EncodedStreams}.

(** A call of [insertableStreamsCodec]. *)
Definition codec_op (op : CodecCall) : eff World bool := λ w,
  let '(r, c) := codec_call op (codec w) in (Ok r, set_codec c w).
End codec.

(** * Instances *)

Program Definition some_lodash : Lodash := {|
  omit V m ks := filter (λ kv, kv.1 ∉ ks) m;
  keyBy V l f := foldl (λ m v, <[f v := v]> m) ∅ l;
|}.
Next Obligation.
  intros V m ks k. simpl. case_decide as Hk.
  - apply map_lookup_filter_None. right. intros v _ Hn. by destruct Hn.
  - destruct (m !! k) as [v|] eqn:Hl.
    + by apply map_lookup_filter_Some.
    + apply map_lookup_filter_None. by left.
Qed.
Next Obligation.
  intros V l f k. simpl.
  assert (∀ m : gmap string V, foldl (λ m v, <[f v := v]> m) m l !! k =
    match last (filter (λ v, f v = k) l) with Some v => Some v | None => m !! k end) as Hg.
  { induction l as [|v l IH]; intros m; [done|]. cbn [foldl]. rewrite IH, filter_cons.
    case_decide as Hv.
    - rewrite last_cons. destruct (last _); [done|]. by rewrite <-Hv, lookup_insert_eq.
    - destruct (last _); [done|]. by rewrite lookup_insert_ne. }
  rewrite Hg. by destruct (last _).
Qed.

(** A browser in which every call succeeds; a peer's streams are those it was
    given. *)
Definition some_platform : Platform := {|
  new_stream_id n := "stream" +:+ pretty (N.of_nat n);
  createObjectURL s := Some ("blob:" +:+ stream_id s);
  peer_call log _ _ := Ok (length log);
  peer_streams log p := omap (λ e, match e with
    | PeerCreated p' _ s => if decide (p = p') then s else None
    | PeerCalled p' (p_addStream s) => if decide (p = p') then Some s else None
    | _ => None
    end) log;
|}.

Definition empty_world : World := {|
  stream_tracks := ∅; next_stream := 100; next_peer := 0; effects := [];
  recorder_arrays := ∅; next_array := 1; peerInstance := None; isRecording_var := false;
  shared_streams := λ _, None; codec := new_codec false false false "" "";
  unique_ids := 0 |}.
