(* ===== verification/Logic.v ===== *)
(** Reasoning about operations: what an invariant of the world becomes when an
    operation runs, whether it ends normally or in an exception, and what is known
    of its result. *)

From S2P Require Import Prelude Actions World.

(** From a world with [I] the operation ends in one, and [Q] holds of its result,
    if there is one. *)
Definition ensures {W A} (I : W → Prop) (Q : A → Prop) (m : eff W A) : Prop :=
  ∀ w r w', I w → m w = (r, w') → I w' ∧ ∀ a, r = Ok a → Q a.

Definition true_of {A} (_ : A) : Prop := True.

(** Without a claim about the result. *)
Definition keeps {W} (I : W → Prop) {A} (m : eff W A) : Prop :=
  ∀ w r w', I w → m w = (r, w') → I w'.

Section rules.
Context {W : Type} (I : W → Prop).

Lemma keeps_ensures {A} (m : eff W A) : keeps I m → ensures I true_of m.
Proof. intros Hm w r w' Hw Hrun. split; [by eapply Hm|done]. Qed.

Lemma ensures_keeps {A} (Q : A → Prop) (m : eff W A) : ensures I Q m → keeps I m.
Proof. intros Hm w r w' Hw Hrun. by destruct (Hm w r w' Hw Hrun). Qed.

Lemma ensures_weaken {A} (P Q : A → Prop) (m : eff W A) :
  ensures I P m → (∀ a, P a → Q a) → ensures I Q m.
Proof. intros Hm HPQ w r w' Hw Hrun. destruct (Hm w r w' Hw Hrun). split; eauto. Qed.

Lemma ensures_ret {A} (Q : A → Prop) (a : A) : Q a → ensures I Q (mret a).
Proof. intros HQ w r w' Hw [= <- <-]. split; [done|]. by intros a' [= <-]. Qed.

Lemma ensures_throw {A} (Q : A → Prop) e : ensures I Q (throw e).
Proof. by intros w r w' Hw [= <- <-]. Qed.

Lemma ensures_gets {A} (Q : A → Prop) (f : W → A) : (∀ w, I w → Q (f w)) → ensures I Q (gets f).
Proof. intros HQ w r w' Hw [= <- <-]. split; [done|]. intros a [= <-]. by apply HQ. Qed.

Lemma ensures_bind {A B} (P : A → Prop) (Q : B → Prop) (m : eff W A) (f : A → eff W B) :
  ensures I P m → (∀ a, P a → ensures I Q (f a)) → ensures I Q (m ≫= f).
Proof.
  intros Hm Hf w r w' Hw. unfold mbind, eff_bind.
  destruct (m w) as [[a|e] w1] eqn:Hrun; destruct (Hm _ _ _ Hw Hrun) as [Hw1 HP].
  - intros Hrun'. by apply (Hf a (HP a eq_refl) w1).
  - intros [= <- <-]. by split.
Qed.

Lemma ensures_for_each {A} (f : A → eff W unit) xs :
  (∀ x, x ∈ xs → keeps I (f x)) → ensures I true_of (for_each f xs).
Proof.
  induction xs as [|x xs IH]; intros Hf; [by apply ensures_ret|].
  apply (ensures_bind true_of); [apply keeps_ensures, Hf; left|].
  intros [] _. apply IH. intros y Hy. apply Hf. by right.
Qed.

Lemma ensures_for_fold {A B} (Q : B → Prop) (f : B → A → eff W B) xs : ∀ b,
  Q b → (∀ b x, Q b → ensures I Q (f b x)) → ensures I Q (for_fold f b xs).
Proof.
  induction xs as [|x xs IH]; intros b Hb Hf; [by apply ensures_ret|].
  apply (ensures_bind Q); [by apply Hf|]. intros b' Hb'. by apply IH.
Qed.

Lemma keeps_ret {A} (a : A) : keeps I (mret a).
Proof. by intros w r w' Hw [= <- <-]. Qed.

Lemma keeps_throw {A} e : keeps I (throw (A := A) e).
Proof. by intros w r w' Hw [= <- <-]. Qed.

Lemma keeps_gets {A} (f : W → A) : keeps I (gets f).
Proof. by intros w r w' Hw [= <- <-]. Qed.

Lemma keeps_bind {A B} (m : eff W A) (f : A → eff W B) :
  keeps I m → (∀ a, keeps I (f a)) → keeps I (m ≫= f).
Proof.
  intros Hm Hf. apply (ensures_keeps true_of), (ensures_bind true_of); [by apply keeps_ensures|].
  intros a _. by apply keeps_ensures.
Qed.

Lemma keeps_catch {A} (m : eff W A) h :
  keeps I m → (∀ e, keeps I (h e)) → keeps I (catch m h).
Proof.
  intros Hm Hf w r w' Hw. unfold catch.
  destruct (m w) as [[a|e] w1] eqn:Hrun.
  - intros [= <- <-]. by eapply Hm.
  - intros Hrun'. eapply (Hf e w1); [by eapply Hm|done].
Qed.

Lemma keeps_for_each {A} (f : A → eff W unit) xs :
  (∀ x, keeps I (f x)) → keeps I (for_each f xs).
Proof. intros Hf. apply (ensures_keeps true_of), ensures_for_each. auto. Qed.

Lemma keeps_for_fold {A B} (f : B → A → eff W B) xs b :
  (∀ b x, keeps I (f b x)) → keeps I (for_fold f b xs).
Proof.
  intros Hf. apply (ensures_keeps true_of), ensures_for_fold; [done|].
  intros b' x _. by apply keeps_ensures.
Qed.

Lemma keeps_for_map {A B} (f : A → eff W B) xs : (∀ x, keeps I (f x)) → keeps I (for_map f xs).
Proof.
  intros Hf. induction xs; [apply keeps_ret|]. apply keeps_bind; [done|]. intros y.
  apply keeps_bind; [done|]. intros ys. apply keeps_ret.
Qed.

Lemma keeps_modify f : (∀ w, I w → I (f w)) → keeps I (modify f).
Proof. intros Hf w r w' Hw [= <- <-]. by apply Hf. Qed.
End rules.

(** ** From one invariant to another *)

Definition leads {W} (I : W → Prop) {A} (m : eff W A) (J : W → Prop) : Prop :=
  ∀ w r w', I w → m w = (r, w') → J w'.

(** The first operation stays with [I], and [J] is weaker; or it establishes [J]. *)
Lemma leads_bind_after {W} (I J : W → Prop) {A B} (m : eff W A) (f : A → eff W B) :
  keeps I m → (∀ w, I w → J w) → (∀ a, leads I (f a) J) → leads I (m ≫= f) J.
Proof.
  intros Hm HIJ Hf w r w' Hw. unfold mbind, eff_bind. destruct (m w) as [[a|e] w1] eqn:Hrun.
  - intros Hrun'. apply (Hf a w1 r w'); [by eapply Hm|done].
  - intros [= <- <-]. apply HIJ. by eapply Hm.
Qed.

Lemma leads_bind_first {W} (I J : W → Prop) {A B} (m : eff W A) (f : A → eff W B) :
  leads I m J → (∀ a, keeps J (f a)) → leads I (m ≫= f) J.
Proof.
  intros Hm Hf w r w' Hw. unfold mbind, eff_bind. destruct (m w) as [[a|e] w1] eqn:Hrun.
  - intros Hrun'. apply (Hf a w1 r w'); [by eapply Hm|done].
  - intros [= <- <-]. by eapply Hm.
Qed.

(** The operations that are the same whatever the invariant. *)
Create HintDb keeps.
#[export] Hint Resolve keeps_ret keeps_throw keeps_gets : keeps.

(** Goes through the code of an operation; what is left are the operations the
    database knows nothing of. *)
Ltac keeps_step :=
  first
    [ progress eauto with keeps
    | apply keeps_bind; [|intros ?]
    | apply keeps_catch; [|intros ?]
    | apply keeps_for_each; intros ?
    | apply keeps_for_fold; intros ? ?
    | apply keeps_for_map; intros ?
    | case_match ].
