(* ===== verification/Streams.v ===== *)
(** The streams reducer ([src/client/reducers/streams.ts]): local media, the
    streams of the other users, and the association of remote tracks with users
    by the metadata of the server.

    State objects and arrays are values, except where the code updates one in
    place and the old one is still in use: the tracks of a [MediaStream] and the
    [localRecorders] arrays live in the [World]. *)

From S2P Require Import Prelude Objects InsertableStreams InsertableCodec Actions World.

(** * State *)

Record StreamWithURL := {
  stream : MediaStream;
  streamId : string;
  url : option string;
}.

Record LocalStream := {
  ls_stream : StreamWithURL;
  ls_type : StreamType;
  ls_mirror : bool;
}.

Record UserStreams := {
  us_userId : string;
  us_streams : list StreamWithURL;
}.

Record TrackAssociation := {
  ta_streamId : string;
  ta_userId : string;
}.

Record TrackInfo := {
  ti_track : MediaStreamTrack;
  ti_mid : string;
  ti_association : option TrackAssociation;
}.

Record StreamsState := {
  localStreams : gmap string LocalStream;
  streamsByUserId : gmap string UserStreams;
  metadataByPeerIdMid : gmap string TrackMetadata;
  trackIdToPeerIdMid : gmap string string;
  tracksByPeerIdMid : gmap string TrackInfo;
  (** the identity of an array of stream ids *)
  localRecorders : nat;
  streamsRecordUrl : string;
  isRecording : bool;
}.

#[export] Instance StreamWithURL_eq_dec : EqDecision StreamWithURL.
Proof. solve_decision. Defined.
#[export] Instance TrackAssociation_eq_dec : EqDecision TrackAssociation.
Proof. solve_decision. Defined.

(** The keys of [localStreams]. *)
Definition stream_type_key (t : StreamType) : string :=
  match t with StreamTypeCamera => "camera" | StreamTypeDesktop => "desktop" end.

(** Array 0 is the one of [defaultState]. *)
Definition defaultState : StreamsState := {|
  localStreams := ∅; streamsByUserId := ∅; metadataByPeerIdMid := ∅;
  trackIdToPeerIdMid := ∅; tracksByPeerIdMid := ∅;
  localRecorders := 0; streamsRecordUrl := ""; isRecording := false |}.

(** ** Copies with some fields replaced *)

Definition with_localStreams (l : gmap string LocalStream) (r : nat) (s : StreamsState) :=
  {| localStreams := l; streamsByUserId := streamsByUserId s;
     metadataByPeerIdMid := metadataByPeerIdMid s;
     trackIdToPeerIdMid := trackIdToPeerIdMid s; tracksByPeerIdMid := tracksByPeerIdMid s;
     localRecorders := r; streamsRecordUrl := streamsRecordUrl s; isRecording := isRecording s |}.
Definition with_tracks (us : gmap string UserStreams) (ids : gmap string string)
    (ts : gmap string TrackInfo) (s : StreamsState) :=
  {| localStreams := localStreams s; streamsByUserId := us;
     metadataByPeerIdMid := metadataByPeerIdMid s;
     trackIdToPeerIdMid := ids; tracksByPeerIdMid := ts;
     localRecorders := localRecorders s; streamsRecordUrl := streamsRecordUrl s;
     isRecording := isRecording s |}.
Definition with_metadata (m : gmap string TrackMetadata) (s : StreamsState) :=
  {| localStreams := localStreams s; streamsByUserId := streamsByUserId s;
     metadataByPeerIdMid := m;
     trackIdToPeerIdMid := trackIdToPeerIdMid s; tracksByPeerIdMid := tracksByPeerIdMid s;
     localRecorders := localRecorders s; streamsRecordUrl := streamsRecordUrl s;
     isRecording := isRecording s |}.
Definition with_recording (r : nat) (u : string) (b : bool) (s : StreamsState) :=
  {| localStreams := localStreams s; streamsByUserId := streamsByUserId s;
     metadataByPeerIdMid := metadataByPeerIdMid s;
     trackIdToPeerIdMid := trackIdToPeerIdMid s; tracksByPeerIdMid := tracksByPeerIdMid s;
     localRecorders := r; streamsRecordUrl := u; isRecording := b |}.

(** * Helpers *)

Definition peerIdMidSeparator : string := "::".

Definition getPeerIdMid (userId mid : string) : string :=
  userId +:+ peerIdMidSeparator +:+ mid.

(** An object looked up with a key that may be [undefined]. *)
Definition lookup_key {V} (m : gmap string V) (k : option string) : option V :=
  m !! default "undefined" k.

(** [xs.find(p)] *)
Definition js_find {A} (P : A → Prop) `{∀ x, Decision (P x)} (xs : list A) : option A :=
  head (filter P xs).

Definition lower (c : Ascii.ascii) : Ascii.ascii :=
  let n := Ascii.nat_of_ascii c in
  if bool_decide (65 ≤ n ∧ n ≤ 90) then Ascii.ascii_of_nat (n + 32) else c.

Fixpoint lower_string (s : string) : string :=
  match s with EmptyString => EmptyString | String c s => String (lower c) (lower_string s) end.

(** [notMirroredRegexp.test], for /back/i. *)
Fixpoint contains (p s : string) : bool :=
  String.prefix p s || match s with EmptyString => false | String _ s => contains p s end.
Definition notMirroredRegexp_test (label : string) : bool := contains "back" (lower_string label).

(** [getUserId]: the user and stream the metadata names for the track, or those
    the peer gave. *)
Definition getUserId (state : StreamsState) (userId streamId mid : string) : TrackAssociation :=
  match metadataByPeerIdMid state !! getPeerIdMid userId mid with
  | Some metadata => {| ta_streamId := tm_streamId metadata; ta_userId := tm_userId metadata |}
  | None => {| ta_streamId := streamId; ta_userId := userId |}
  end.

Section reducer.
Context `{Platform} `{Lodash} `{ObjectKeys}.

Definition safeCreateObjectURL (s : MediaStream) : option string := createObjectURL s.

(** [s.url && revokeObjectURL(s.url)] *)
Definition revoke_url (s : StreamWithURL) : eff World unit :=
  match url s with
  | Some u => if decide (u = "") then mret tt else emit (ObjectURLRevoked u)
  | None => mret tt
  end.

Definition stopStream (s : StreamWithURL) : eff World unit :=
  tracks ← getTracks (stream s);
  for_each (λ t, emit (TrackStopped t) ≫= λ _, emit (TrackHandlersCleared t)) tracks ≫= λ _,
  revoke_url s.

Definition stopAllTracks (streams : list StreamWithURL) : eff World unit :=
  for_each stopStream streams.

(** * Recording *)

(** The handlers it registers only log, and exchange the connection data with
    the recording server. *)
Definition initializePeer (stream : MediaStream) : eff World PeerRef :=
  new_Peer true (Some stream).

(** Using [peerInstance] while it is undefined is a TypeError. *)
Definition need_peerInstance : eff World PeerRef :=
  p ← gets peerInstance;
  match p with Some p => mret p | None => throw TypeError end.

Definition initializeMediaRecorder (roomID userID : string) (s : MediaStream) :
    eff World string :=
  (if decide (roomID = "" ∧ userID = "") then
     p ← need_peerInstance;
     existing ← gets (λ w, peer_streams (effects w) p);
     match js_find (λ s', stream_id s' = stream_id s) existing with
     | Some _ => mret tt
     | None => call_peer p (p_addStream s) ≫= λ _, mret tt
     end
   else
     p ← initializePeer s;
     modify (set_peerInstance (Some p))) ≫= λ _,
  mret (stream_id s).

Definition recordAdditionalStream (s : LocalStream) : eff World string :=
  initializeMediaRecorder "" "" (stream (ls_stream s)).

(** A new array, and [push]. *)
Definition new_array (ids : list string) : eff World nat :=
  n ← gets next_array;
  modify (set_recorder_arrays (insert n ids) (S n)) ≫= λ _, mret n.
Definition array_push (r : nat) (id : string) : eff World unit :=
  n ← gets next_array;
  modify (set_recorder_arrays (λ a, insert r (default [] (a !! r) ++ [id]) a) n).

Definition recordLocalStream (state : StreamsState) (payload : RecordLocalStreamPayload) :
    eff World StreamsState :=
  mediaRecorders ← for_map (λ '(_, s),
      initializeMediaRecorder (roomID payload) (userID payload) (stream (ls_stream s)))
    (object_entries (localStreams state));
  recorders ← new_array mediaRecorders;
  modify (set_isRecording_var true) ≫= λ _,
  mret (with_recording recorders (recordUrl payload) (negb (isRecording state)) state).

(** [peerInstance?.destroy()] *)
Definition destroy_peerInstance : eff World unit :=
  p ← gets peerInstance;
  match p with
  | Some p => call_peer p p_destroy ≫= λ _, mret tt
  | None => mret tt
  end.

Definition stopRecordLocalStream (state : StreamsState) : eff World StreamsState :=
  destroy_peerInstance ≫= λ _,
  modify (set_isRecording_var false) ≫= λ _,
  mret (with_recording (localRecorders state) (streamsRecordUrl state)
          (negb (isRecording state)) state).

Definition stopRecordAdditionalStream (recorders : nat) (s : LocalStream) :
    eff World (list string) :=
  p ← need_peerInstance;
  call_peer p (p_removeStream (stream (ls_stream s))) ≫= λ _,
  ids ← gets (λ w, default [] (recorder_arrays w !! recorders));
  mret (filter (λ id, streamId (ls_stream s) ≠ id) ids).

(** * Local streams *)

Definition addLocalStream (state : StreamsState) (payload : AddLocalStreamPayload) :
    eff World StreamsState :=
  let type := als_type payload in
  videoTracks ← getTracksOf video (als_stream payload);
  let streamWithURL := {|
    ls_stream := {| stream := als_stream payload; streamId := stream_id (als_stream payload);
                    url := safeCreateObjectURL (als_stream payload) |};
    ls_type := type;
    ls_mirror := bool_decide (type = StreamTypeCamera) &&
      match js_find (λ t, notMirroredRegexp_test (track_label t) = false) videoTracks with
      | Some _ => true | None => false
      end |} in
  (match localStreams state !! stream_type_key type with
   | Some existingStream => stopStream (ls_stream existingStream)
   | None => mret tt
   end) ≫= λ _,
  (if isRecording state then
     id ← recordAdditionalStream streamWithURL;
     array_push (localRecorders state) id
   else mret tt) ≫= λ _,
  mret (with_localStreams (<[stream_type_key type := streamWithURL]> (localStreams state))
          (localRecorders state) state).

Definition removeLocalStream (state : StreamsState) (streamType : StreamType) :
    eff World StreamsState :=
  match localStreams state !! stream_type_key streamType with
  | None => mret state
  | Some existing =>
    ids ← (if isRecording state
           then stopRecordAdditionalStream (localRecorders state) existing
           else mret []);
    newLocalRecorders ← new_array ids;
    mret (with_localStreams (omit (localStreams state) [stream_type_key streamType])
            newLocalRecorders state)
  end.

Definition setLocalStreamMirror (state : StreamsState) (payload : MediaTrackPayload) :
    StreamsState :=
  let type := mt_type payload in
  match mt_track payload, localStreams state !! stream_type_key type with
  | Some track, Some existingStream =>
    if decide (track_kind track = video ∧ type = StreamTypeCamera) then
      with_localStreams
        (<[stream_type_key type :=
            {| ls_stream := ls_stream existingStream; ls_type := ls_type existingStream;
               ls_mirror := negb (notMirroredRegexp_test (track_label track)) |}]>
           (localStreams state)) (localRecorders state) state
    else state
  | _, _ => state
  end.

(** * Remote tracks *)

Definition removeTrack (state : StreamsState) (track : MediaStreamTrack) :
    eff World StreamsState :=
  let peerIdMid := trackIdToPeerIdMid state !! track_id track in
  match lookup_key (tracksByPeerIdMid state) peerIdMid with
  | None => mret state
  | Some t =>
  match ti_association t with
  | None => mret state
  | Some association =>
  let userId := ta_userId association in
  match streamsByUserId state !! userId with
  | None => mret state
  | Some userStreams =>
  match js_find (λ s, streamId s = ta_streamId association) (us_streams userStreams) with
  | None => mret state
  | Some s =>
    stream_removeTrack (stream s) track ≫= λ _,
    left ← getTracks (stream s);
    streams ← (if decide (left = []) then
                 revoke_url s ≫= λ _,
                 mret (filter (λ s', s' ≠ s) (us_streams userStreams))
               else mret (us_streams userStreams));
    let tracks := <[default "undefined" peerIdMid :=
      {| ti_track := track; ti_mid := ti_mid t; ti_association := None |}]>
      (tracksByPeerIdMid state) in
    mret (with_tracks
      (if decide (streams = []) then omit (streamsByUserId state) [userId]
       else <[userId := {| us_userId := us_userId userStreams; us_streams := streams |}]>
              (streamsByUserId state))
      (trackIdToPeerIdMid state) tracks state)
  end end end end.

Definition addTrack (state : StreamsState) (payload : AddTrackPayload) :
    eff World StreamsState :=
  let peerIdMid := getPeerIdMid (at_userId payload) (at_mid payload) in
  let a := getUserId state (at_userId payload) (at_streamId payload) (at_mid payload) in
  let track := at_track payload in
  let userStreams := default {| us_userId := ta_userId a; us_streams := [] |}
                       (streamsByUserId state !! ta_userId a) in
  streams ← (match js_find (λ s, streamId s = ta_streamId a) (us_streams userStreams) with
             | Some existing =>
               stream_addTrack (stream existing) track ≫= λ _, mret (us_streams userStreams)
             | None =>
               s ← new_MediaStream;
               stream_addTrack s track ≫= λ _,
               mret (us_streams userStreams ++
                     [{| stream := s; streamId := ta_streamId a; url := safeCreateObjectURL s |}])
             end);
  mret (with_tracks
    (<[ta_userId a := {| us_userId := us_userId userStreams; us_streams := streams |}]>
       (streamsByUserId state))
    (<[track_id track := peerIdMid]> (trackIdToPeerIdMid state))
    (<[peerIdMid := {| ti_track := track; ti_mid := at_mid payload;
                       ti_association := Some a |}]> (tracksByPeerIdMid state)) state).

(** The tracks of a user who leaves, by their peer and [mid]. *)
Definition unassociateUserTracks (state : StreamsState) (userId : string) :
    eff World StreamsState :=
  match streamsByUserId state !! userId with
  | None => mret state
  | Some userStreams =>
    tracks ← for_fold (λ tracks s,
        ts ← getTracks (stream s);
        for_fold (λ tracks track,
          let peerIdMid := trackIdToPeerIdMid state !! track_id track in
          match lookup_key (tracksByPeerIdMid state) peerIdMid with
          | None => throw TypeError
          | Some t =>
            stream_removeTrack (stream s) track ≫= λ _,
            mret (<[default "undefined" peerIdMid :=
              {| ti_track := track; ti_mid := ti_mid t; ti_association := None |}]> tracks)
          end) tracks ts) (∅ : gmap string TrackInfo) (us_streams userStreams);
    mret (with_tracks (omit (streamsByUserId state) [userId]) (trackIdToPeerIdMid state)
            (tracks ∪ tracksByPeerIdMid state) state)
  end.

(** One entry of the metadata: the track it names is associated with its user
    and stream. *)
Definition associate (state : StreamsState) (peer : string) (newState : StreamsState)
    (m : TrackMetadata) : eff World StreamsState :=
  match tracksByPeerIdMid state !! getPeerIdMid peer (tm_mid m) with
  | None => mret newState
  | Some t =>
    match ti_association t with
    | None =>
      addTrack newState {| at_mid := tm_mid m; at_streamId := tm_streamId m;
                           at_userId := peer; at_track := ti_track t |}
    | Some a =>
      if decide (ta_streamId a = tm_streamId m ∧ ta_userId a = tm_userId m)
      then mret newState
      else
        newState ← removeTrack newState (ti_track t);
        addTrack newState {| at_mid := tm_mid m; at_streamId := ta_streamId a;
                             at_userId := peer; at_track := ti_track t |}
    end
  end.

Definition setMetadata (state : StreamsState) (payload : MetadataPayload) :
    eff World StreamsState :=
  let metadata := keyBy (mp_metadata payload)
                    (λ m, getPeerIdMid (mp_userId payload) (tm_mid m)) in
  newState ← for_fold (λ newState '(peerIdMid, t),
      match metadata !! peerIdMid, ti_association t with
      | None, Some _ => removeTrack newState (ti_track t)
      | _, _ => mret newState
      end) state (object_entries (tracksByPeerIdMid state));
  for_fold (associate state (mp_userId payload)) (with_metadata metadata newState)
    (mp_metadata payload).

Definition removePeer (state : StreamsState) (userId : string) : eff World StreamsState :=
  let keysToRemove := filter
    (λ key, String.prefix (userId +:+ peerIdMidSeparator) key = true)
    (object_keys (tracksByPeerIdMid state)) in
  newState ← for_fold (λ newState key,
      match tracksByPeerIdMid state !! key with
      | None => mret newState
      | Some t =>
        newState ← (match ti_association t with
                    | Some _ => removeTrack newState (ti_track t)
                    | None => mret newState
                    end);
        (* [delete], on the object all these states share *)
        mret (with_tracks (streamsByUserId newState)
                (delete (track_id (ti_track t)) (trackIdToPeerIdMid newState))
                (tracksByPeerIdMid newState) newState)
      end) state keysToRemove;
  mret (with_tracks (streamsByUserId newState) (trackIdToPeerIdMid newState)
          (omit (tracksByPeerIdMid state) keysToRemove) newState).

(** * The reducer *)

Definition hangUp (state : StreamsState) : eff World StreamsState :=
  destroy_peerInstance ≫= λ _,
  for_each (λ '(_, ls), stopStream (ls_stream ls)) (object_entries (localStreams state)) ≫= λ _,
  for_each (λ '(_, us), stopAllTracks (us_streams us)) (object_entries (streamsByUserId state))
    ≫= λ _,
  mret defaultState.

Definition streams (state : StreamsState) (action : Action) : eff World StreamsState :=
  match action with
  | RemoveLocalStreamAction _ streamType => removeLocalStream state streamType
  | AddTrackAction payload => addTrack state payload
  | RemoveTrackAction track => removeTrack state track
  | RecordLocalStreamAction payload => recordLocalStream state payload
  | StopRecordLocalStreamAction => stopRecordLocalStream state
  | NicknameRemoveAction userId => unassociateUserTracks state userId
  | TracksMetadataAction payload => setMetadata state payload
  | RemovePeerAction userId => removePeer state userId
  | HangUpAction => hangUp state
  | MediaStreamAction (resolved payload) => addLocalStream state payload
  | MediaTrackAction (resolved payload) => mret (setLocalStreamMirror state payload)
  | _ => mret state
  end.
End reducer.
