(* ===== verification/StreamsInv.v ===== *)
(** The streams reducer: the invariant that ties what is displayed to the
    associations of the tracks, and how each operation on remote tracks acts on
    the associations. *)

From S2P Require Import Prelude Objects InsertableStreams InsertableCodec Actions World Streams.

Section inv.
Context `{Platform} `{Lodash} `{ObjectKeys}.

(** * What is displayed *)

Definition streams_of (s : StreamsState) (u : string) : list StreamWithURL :=
  from_option us_streams [] (streamsByUserId s !! u).

Definition displayed (s : StreamsState) (w : World) (u sid : string)
    (t : MediaStreamTrack) : Prop :=
  ∃ sw, sw ∈ streams_of s u ∧ streamId sw = sid ∧ t ∈ tracks_of w (stream sw).

(** The track is associated with user [u] and stream [sid]. *)
Definition associated (ts : gmap string TrackInfo) (u sid : string)
    (t : MediaStreamTrack) : Prop :=
  ∃ key ti, ts !! key = Some ti ∧ ti_track ti = t ∧
    ti_association ti = Some {| ta_streamId := sid; ta_userId := u |}.

(** Each displayed stream belongs to one user, and has tracks. *)
Record streams_ok (s : StreamsState) (w : World) : Prop := {
  so_users u us : streamsByUserId s !! u = Some us → us_userId us = u ∧ us_streams us ≠ [];
  so_ids u : NoDup (streamId <$> streams_of s u);
  so_nonempty u sw : sw ∈ streams_of s u → tracks_of w (stream sw) ≠ [];
  so_fresh u sw : sw ∈ streams_of s u → stream_ref (stream sw) < next_stream w;
  so_refs u sw u' sw' :
    sw ∈ streams_of s u → sw' ∈ streams_of s u' →
    stream_ref (stream sw) = stream_ref (stream sw') → u = u' ∧ sw = sw';
}.

(** A track is known at one key, which is found by its id.  [D]: keys whose
    track id has been forgotten already, in [removePeer]. *)
Record maps_ok (D : gset string) (ids : gmap string string) (ts : gmap string TrackInfo) :
    Prop := {
  mo_ids id key :
    ids !! id = Some key ↔
    ((key ∉ D) ∧ ∃ ti, ts !! key = Some ti ∧ track_id (ti_track ti) = id);
  mo_unique k1 k2 t1 t2 :
    ts !! k1 = Some t1 → ts !! k2 = Some t2 →
    track_id (ti_track t1) = track_id (ti_track t2) → k1 = k2;
  mo_dropped key ti : key ∈ D → ts !! key = Some ti → ti_association ti = None;
}.

Record streams_inv (D : gset string) (s : StreamsState) (w : World) : Prop := {
  inv_streams : streams_ok s w;
  inv_maps : maps_ok D (trackIdToPeerIdMid s) (tracksByPeerIdMid s);
  inv_display u sid t :
    displayed s w u sid t ↔ associated (tracksByPeerIdMid s) u sid t;
}.

(** The parts of the state that operations on remote tracks leave alone. *)
Definition same_rest (s s' : StreamsState) : Prop :=
  localStreams s' = localStreams s ∧ localRecorders s' = localRecorders s ∧
  streamsRecordUrl s' = streamsRecordUrl s ∧ isRecording s' = isRecording s ∧
  metadataByPeerIdMid s' = metadataByPeerIdMid s.

Definition unassociated (ti : TrackInfo) : TrackInfo :=
  {| ti_track := ti_track ti; ti_mid := ti_mid ti; ti_association := None |}.

(** ** Streams and tracks *)

Lemma js_find_unique {A} (f : A → string) (l : list A) x :
  NoDup (f <$> l) → x ∈ l → js_find (λ y, f y = f x) l = Some x.
Proof.
  unfold js_find. induction l as [|y l IH]; [by intros _ ?%not_elem_of_nil|].
  cbn [fmap list_fmap]. intros [Hy Hnd]%NoDup_cons [->|Hx]%elem_of_cons.
  - by rewrite filter_cons_True.
  - rewrite filter_cons_False; [by apply IH|]. intros Heq. apply Hy.
    rewrite Heq. by apply list_elem_of_fmap_2.
Qed.

Lemma js_find_Some {A} (P : A → Prop) `{∀ x, Decision (P x)} l x :
  js_find P l = Some x → P x ∧ x ∈ l.
Proof.
  unfold js_find. intros Hh%head_Some_elem_of. by apply list_elem_of_filter in Hh.
Qed.

Lemma js_find_None {A} (P : A → Prop) `{∀ x, Decision (P x)} l x :
  js_find P l = None → x ∈ l → ¬ P x.
Proof.
  unfold js_find. intros Hh Hx HP.
  assert (x ∈ filter P l) as Hf by by apply list_elem_of_filter.
  destruct (filter P l); [by apply not_elem_of_nil in Hf|done].
Qed.

(** In a state where displays and associations agree a track is displayed in one
    place only. *)
Lemma associated_unique D ids ts u sid u' sid' t :
  maps_ok D ids ts → associated ts u sid t → associated ts u' sid' t →
  u = u' ∧ sid = sid'.
Proof.
  intros Hi (k & ti & Hk & Ht & Ha) (k' & ti' & Hk' & Ht' & Ha').
  assert (k = k') as <- by (eapply (mo_unique _ _ _ Hi); [done..|congruence]).
  simplify_eq. split; congruence.
Qed.

Lemma associated_insert_None ts key ti u sid t :
  ts !! key = Some ti →
  (∀ k' t', ts !! k' = Some t' → track_id (ti_track t') = track_id (ti_track ti) → k' = key) →
  associated (<[key := unassociated ti]> ts) u sid t ↔
  associated ts u sid t ∧ t ≠ ti_track ti.
Proof.
  intros Hk Huniq. split.
  - intros (k & ti' & Hl & Ht & Ha). apply lookup_insert_Some in Hl as [[<- <-]|[Hne Hl]]; [done|].
    split; [by exists k, ti'|]. intros ->. apply Hne. symmetry.
    by apply (Huniq _ _ Hl); congruence.
  - intros [(k & ti' & Hl & Ht & Ha) Hne]. exists k, ti'. split_and!; [|done..].
    rewrite lookup_insert_ne; [done|]. intros <-. congruence.
Qed.

(** ** One user's streams replaced *)

(** [us'] has the streams [l] for user [u] (no entry if there are none) and
    those of [us] for the others. *)
Definition user_streams_updated (us : gmap string UserStreams) (u : string)
    (l : list StreamWithURL) (us' : gmap string UserStreams) : Prop :=
  ∀ u', us' !! u' = if decide (u' = u)
                    then (if decide (l = []) then None
                          else Some {| us_userId := u; us_streams := l |})
                    else us !! u'.

Lemma streams_of_updated us u l us' ids ts s u' :
  user_streams_updated us u l us' → streamsByUserId s = us →
  streams_of (with_tracks us' ids ts s) u' = if decide (u' = u) then l else streams_of s u'.
Proof.
  intros Hu <-. unfold streams_of. simpl. rewrite Hu.
  case_decide; [|done]. by case_decide.
Qed.

Lemma updated_users us u l us' :
  user_streams_updated us u l us' →
  (∀ v x, us !! v = Some x → us_userId x = v ∧ us_streams x ≠ []) →
  ∀ v x, us' !! v = Some x → us_userId x = v ∧ us_streams x ≠ [].
Proof.
  intros Hu Hus v x. rewrite Hu. case_decide; [|by apply Hus].
  case_decide; [done|]. by intros [= <-].
Qed.

(** What the state needs to keep when the streams of one user and the tracks of
    one [MediaStream] change. *)
Lemma update_streams_ok s w w' u l us' ids ts sw g :
  streams_ok s w →
  user_streams_updated (streamsByUserId s) u l us' →
  let s' := with_tracks us' ids ts s in
  stream_tracks w' = <[stream_ref (stream sw) := g]> (stream_tracks w) →
  NoDup (streamId <$> l) →
  (∀ sw', sw' ∈ l → sw' ∈ streams_of s u ∨ (sw' = sw ∧ stream_ref (stream sw) = next_stream w)) →
  (sw ∈ l → g ≠ []) →
  (∀ v sw', sw' ∈ streams_of s' v →
     stream_ref (stream sw') = stream_ref (stream sw) → v = u ∧ sw' = sw) →
  next_stream w ≤ next_stream w' → stream_ref (stream sw) < next_stream w' →
  streams_ok s' w'.
Proof.
  intros Hi Hus s' Hw Hnd Hin Hg Href Hn1 Hn2.
  assert (∀ v, streams_of s' v = if decide (v = u) then l else streams_of s v) as Hs'.
  { intros v. by apply (streams_of_updated (streamsByUserId s)). }
  assert (∀ v sw', sw' ∈ streams_of s' v →
    sw' ∈ streams_of s v ∨ (sw' = sw ∧ v = u ∧ stream_ref (stream sw) = next_stream w)) as Hold.
  { intros v sw'. rewrite Hs'. case_decide; [|by left]. subst v. intros Hsw'.
    destruct (Hin sw' Hsw') as [?|[? ?]]; auto. }
  split.
  - eapply updated_users; [done|]. apply Hi.
  - intros v. rewrite Hs'. case_decide; [done|]. apply Hi.
  - intros v sw' Hsw'. unfold tracks_of. rewrite Hw.
    destruct (decide (stream_ref (stream sw') = stream_ref (stream sw))) as [Heq|Hne].
    + destruct (Href v sw' Hsw' Heq) as [-> ->]. rewrite lookup_insert_eq. simpl.
      apply Hg. rewrite Hs', decide_True in Hsw' by done. done.
    + rewrite lookup_insert_ne by done.
      destruct (Hold v sw' Hsw') as [Ho|(-> & _)]; [|done].
      apply (so_nonempty _ _ Hi _ _ Ho).
  - intros v sw' Hsw'. destruct (Hold v sw' Hsw') as [Ho|(-> & _)]; [|done].
    pose proof (so_fresh _ _ Hi _ _ Ho). lia.
  - intros v sw1 v' sw2 H1' H2' Heq.
    destruct (decide (stream_ref (stream sw1) = stream_ref (stream sw))) as [Heq1|Hne1].
    + destruct (Href v sw1 H1' Heq1) as [-> ->].
      destruct (Href v' sw2 H2') as [-> ->]; [congruence|done].
    + destruct (Hold v sw1 H1') as [Ho1|(-> & _)]; [|done].
      destruct (Hold v' sw2 H2') as [Ho2|(-> & _)]; [|congruence].
      by apply (so_refs _ _ Hi).
Qed.

(** The association of one key dropped. *)
Lemma maps_ok_unassociate D ids ts key ti :
  maps_ok D ids ts → ts !! key = Some ti →
  maps_ok D ids (<[key := unassociated ti]> ts).
Proof.
  intros [Hids Huniq Hdrop] Hti.
  assert (∀ k t0, <[key := unassociated ti]> ts !! k = Some t0 →
    ∃ t1, ts !! k = Some t1 ∧ ti_track t1 = ti_track t0) as Hex.
  { intros k t0. rewrite lookup_insert. destruct (decide (key = k)) as [<-|].
    - intros [= <-]; by exists ti.
    - intros. by exists t0. }
  split.
  - intros id k. rewrite Hids, lookup_insert. destruct (decide (key = k)) as [<-|]; [|done].
    split; intros [? (x & Hx & Hxid)]; (split; [done|]); simplify_eq; by eexists.
  - intros k1 k2 t1 t2 H1' H2' Heq.
    destruct (Hex _ _ H1') as (x1 & ? & Hx1), (Hex _ _ H2') as (x2 & ? & Hx2).
    eapply Huniq; [done..|congruence].
  - intros k t0 HkD. rewrite lookup_insert.
    destruct (decide (key = k)) as [<-|]; [by intros [= <-]|]. by apply Hdrop.
Qed.

(** ** Removing a track *)

Lemma tracks_of_insert w w' x g y :
  stream_tracks w' = <[stream_ref x := g]> (stream_tracks w) →
  tracks_of w' y = if decide (stream_ref y = stream_ref x) then g else tracks_of w y.
Proof.
  intros Hw. unfold tracks_of. rewrite Hw. case_decide as Hd.
  - by rewrite Hd, lookup_insert_eq.
  - by rewrite lookup_insert_ne.
Qed.

Lemma removed_user_streams us u usr l :
  us !! u = Some usr → us_userId usr = u →
  user_streams_updated us u l
    (if decide (l = []) then omit us [u]
     else <[u := {| us_userId := us_userId usr; us_streams := l |}]> us).
Proof.
  intros Hu <- v. case_decide.
  - rewrite omit_lookup. destruct (decide (v = us_userId usr)) as [->|Hne].
    + by rewrite decide_True by by apply list_elem_of_singleton.
    + by rewrite decide_False by by intros ->%list_elem_of_singleton.
  - rewrite lookup_insert. do 2 case_decide; congruence.
Qed.

(** The display after track [t] was taken out of stream [sw] of user [u]. *)
Lemma displayed_removed D s w w' u sw t l us' ts v sid x :
  streams_inv D s w → sw ∈ streams_of s u →
  stream_tracks w' = <[stream_ref (stream sw) := filter (λ t', t' ≠ t) (tracks_of w (stream sw))]>
                       (stream_tracks w) →
  user_streams_updated (streamsByUserId s) u l us' →
  (∀ sw', sw' ∈ l ↔ sw' ∈ streams_of s u ∧
     (sw' = sw → filter (λ t', t' ≠ t) (tracks_of w (stream sw)) ≠ [])) →
  displayed s w u (streamId sw) t →
  displayed (with_tracks us' (trackIdToPeerIdMid s) ts s) w' v sid x ↔
  displayed s w v sid x ∧ x ≠ t.
Proof.
  intros Hi Hsw Hw Hus Hl Ht.
  set (s' := with_tracks _ _ _ _).
  assert (∀ v, streams_of s' v = if decide (v = u) then l else streams_of s v) as Hs'.
  { intros v'. by apply (streams_of_updated (streamsByUserId s)). }
  split.
  - intros (sw' & Hin & <- & Hx). rewrite (tracks_of_insert _ _ _ _ _ Hw) in Hx.
    assert (sw' ∈ streams_of s v) as Hold.
    { rewrite Hs' in Hin. destruct (decide (v = u)) as [->|]; [|done].
      by apply Hl in Hin as [? _]. }
    case_decide as Href.
    + destruct (so_refs _ _ (inv_streams _ _ _ Hi) _ _ _ _ Hold Hsw Href) as [-> ->].
      apply list_elem_of_filter in Hx as [Hne Hx]. split; [|done]. by exists sw.
    + split; [by exists sw'|]. intros ->.
      destruct (associated_unique _ _ _ v (streamId sw') u (streamId sw) t (inv_maps _ _ _ Hi)) as [-> Hid].
      * apply (inv_display _ _ _ Hi). by exists sw'.
      * by apply (inv_display _ _ _ Hi).
      * apply Href. f_equal.
        pose proof (js_find_unique streamId _ _ (so_ids _ _ (inv_streams _ _ _ Hi) u) Hsw) as Hf.
        rewrite <-Hid in Hf.
        rewrite (js_find_unique streamId _ _ (so_ids _ _ (inv_streams _ _ _ Hi) u) Hold) in Hf.
        congruence.
  - intros [(sw' & Hin & <- & Hx) Hne]. exists sw'. split_and!; [|done|].
    + rewrite Hs'. destruct (decide (v = u)) as [->|]; [|done]. apply Hl. split; [done|]. intros ->.
      assert (x ∈ filter (λ t', t' ≠ t) (tracks_of w (stream sw))) as Hf
        by by apply list_elem_of_filter.
      intros Heq. rewrite Heq in Hf. by apply not_elem_of_nil in Hf.
    + rewrite (tracks_of_insert _ _ _ _ _ Hw). case_decide as Href; [|done].
      destruct (so_refs _ _ (inv_streams _ _ _ Hi) _ _ _ _ Hin Hsw Href) as [-> ->].
      by apply list_elem_of_filter.
Qed.

Lemma revoke_url_run x w :
  ∃ w', revoke_url x w = (Ok tt, w') ∧ stream_tracks w' = stream_tracks w ∧
    next_stream w' = next_stream w.
Proof. unfold revoke_url. destruct (url x); [case_decide|]; by eexists. Qed.

(** The streams left for the user. *)
Definition streams_left (left : list MediaStreamTrack) (sw : StreamWithURL)
    (l : list StreamWithURL) : list StreamWithURL :=
  if decide (left = []) then filter (λ s', s' ≠ sw) l else l.

Lemma streams_left_spec left sw l sw' :
  sw' ∈ streams_left left sw l ↔ sw' ∈ l ∧ (sw' = sw → left ≠ []).
Proof.
  unfold streams_left. case_decide as Hl.
  - rewrite list_elem_of_filter. split; intros [Ha Hb]; split; [done|by intros ->|..|done].
    by intros Heq%Hb.
  - split; [by intros|by intros [? _]].
Qed.

Lemma streams_left_ids left sw l :
  NoDup (streamId <$> l) → NoDup (streamId <$> streams_left left sw l).
Proof.
  unfold streams_left. case_decide; [|done]. intros Hnd.
  eapply sublist_NoDup; [done|]. apply fmap_sublist, sublist_filter.
Qed.

(** What [removeTrack] does to a track that is displayed. *)
Lemma removeTrack_run s w t key ti a usr sw :
  trackIdToPeerIdMid s !! track_id t = Some key →
  tracksByPeerIdMid s !! key = Some ti → ti_association ti = Some a →
  streamsByUserId s !! ta_userId a = Some usr →
  js_find (λ s, streamId s = ta_streamId a) (us_streams usr) = Some sw →
  let left := filter (λ t', t' ≠ t) (tracks_of w (stream sw)) in
  let l := streams_left left sw (us_streams usr) in
  ∃ w', removeTrack s t w =
    (Ok (with_tracks
       (if decide (l = []) then omit (streamsByUserId s) [ta_userId a]
        else <[ta_userId a := {| us_userId := us_userId usr; us_streams := l |}]>
               (streamsByUserId s))
       (trackIdToPeerIdMid s)
       (<[key := {| ti_track := t; ti_mid := ti_mid ti; ti_association := None |}]>
          (tracksByPeerIdMid s)) s), w') ∧
    stream_tracks w' = <[stream_ref (stream sw) := left]> (stream_tracks w) ∧
    next_stream w' = next_stream w.
Proof.
  intros Hid Hti Ha Hus Hf left l. unfold removeTrack, lookup_key.
  rewrite Hid. cbn [default from_option]. unfold id. rewrite Hti, Ha, Hus, Hf.
  set (w1 := set_stream_tracks (insert (stream_ref (stream sw)) left) w).
  erewrite bind_runs by reflexivity. cbv beta.
  assert (getTracks (stream sw) w1 = (Ok left, w1)) as Hg.
  { unfold getTracks, gets. by rewrite (tracks_of_insert w w1 (stream sw) left),
      decide_True by done. }
  rewrite (bind_runs _ _ _ _ _ Hg). unfold l, streams_left.
  destruct (decide (left = [])) as [Hl|Hl].
  - destruct (revoke_url_run sw w1) as (w2 & Hr & Hw2 & Hn2).
    exists w2. split; [|by rewrite Hw2, Hn2].
    rewrite (bind_runs (revoke_url sw ≫= _) _ w1 (filter (λ s', s' ≠ sw) (us_streams usr)) w2).
    + done.
    + by rewrite (bind_runs _ _ _ _ _ Hr).
  - exists w1. done.
Qed.

Lemma removeTrack_spec D s w key ti a :
  streams_inv D s w → tracksByPeerIdMid s !! key = Some ti →
  ti_association ti = Some a →
  ∃ s' w', removeTrack s (ti_track ti) w = (Ok s', w') ∧ streams_inv D s' w' ∧
    tracksByPeerIdMid s' = <[key := unassociated ti]> (tracksByPeerIdMid s) ∧
    trackIdToPeerIdMid s' = trackIdToPeerIdMid s ∧ same_rest s s'.
Proof.
  intros Hi Hti Ha. set (t := ti_track ti). set (u := ta_userId a).
  assert (key ∉ D) as HD by (intros Hin; pose proof (mo_dropped _ _ _ (inv_maps _ _ _ Hi) _ _ Hin Hti); congruence).
  assert (trackIdToPeerIdMid s !! track_id t = Some key) as Hid.
  { apply (mo_ids _ _ _ (inv_maps _ _ _ Hi)). split; [done|]. by exists ti. }
  assert (displayed s w u (ta_streamId a) t) as Hd.
  { apply (inv_display _ _ _ Hi). exists key, ti. split_and!; [done|done|]. by destruct a. }
  destruct Hd as (sw & Hsw & Hsid & Ht).
  unfold streams_of in Hsw. destruct (streamsByUserId s !! u) as [usr|] eqn:Hus;
    [|by apply not_elem_of_nil in Hsw]. cbn in Hsw.
  assert (streams_of s u = us_streams usr) as Hso by (unfold streams_of; by rewrite Hus).
  pose proof (so_ids _ _ (inv_streams _ _ _ Hi) u) as Hnd. rewrite Hso in Hnd.
  assert (js_find (λ s, streamId s = ta_streamId a) (us_streams usr) = Some sw) as Hf.
  { rewrite <-Hsid. by apply (js_find_unique streamId). }
  destruct (removeTrack_run s w t key ti a usr sw Hid Hti Ha Hus Hf) as (w' & Hrun & Hw & Hn).
  set (left := filter (λ t', t' ≠ t) (tracks_of w (stream sw))) in *.
  set (l := streams_left left sw (us_streams usr)) in *.
  destruct (so_users _ _ (inv_streams _ _ _ Hi) _ _ Hus) as [Huid _].
  pose proof (removed_user_streams _ _ _ l Hus Huid) as Hupd.
  match type of Hrun with _ = (Ok ?s0, _) => set (s' := s0) in * end.
  exists s', w'. split; [done|]. split; [|done].
  assert (∀ v sid x, displayed s' w' v sid x ↔ displayed s w v sid x ∧ x ≠ t) as Hdisp.
  { intros v sid x. eapply displayed_removed; [done| |exact Hw|exact Hupd| |].
    - by rewrite Hso.
    - intros sw'. rewrite Hso. apply streams_left_spec.
    - exists sw. by rewrite Hso. }
  assert (∀ k' t', tracksByPeerIdMid s !! k' = Some t' →
    track_id (ti_track t') = track_id (ti_track ti) → k' = key) as Huniq
    by (intros; by eapply (mo_unique _ _ _ (inv_maps _ _ _ Hi))).
  split; [|by apply maps_ok_unassociate; [apply Hi|]|].
  - apply (update_streams_ok s w w' u l _ _ _ sw left (inv_streams _ _ _ Hi) Hupd Hw).
    + by apply streams_left_ids.
    + intros sw' [Hin _]%streams_left_spec. left. by rewrite Hso.
    + by intros [_ Hne]%streams_left_spec; apply Hne.
    + intros v sw' Hin Href.
      eapply (so_refs _ _ (inv_streams _ _ _ Hi)); [|by rewrite Hso|done].
      revert Hin. rewrite (streams_of_updated _ _ _ _ _ _ _ _ Hupd eq_refl).
      destruct (decide (v = u)) as [->|]; [|by intros].
      rewrite Hso. by intros [? _]%streams_left_spec.
    + lia.
    + rewrite Hn. apply (so_fresh _ _ (inv_streams _ _ _ Hi) u). by rewrite Hso.
  - intros v sid x. rewrite Hdisp, (inv_display _ _ _ Hi). simpl.
    symmetry. by apply associated_insert_None.
Qed.

(** ** Adding a track *)

(** The browser's contract for a new or unmuted track: a [mid] of a peer has one
    track until the peer is removed, a track has one [mid]; a track announced
    while it is associated is announced for the same user and stream. *)
Record valid_add (s : StreamsState) (payload : AddTrackPayload) : Prop := {
  va_key ti :
    tracksByPeerIdMid s !! getPeerIdMid (at_userId payload) (at_mid payload) = Some ti →
    ti_track ti = at_track payload ∧
    ∀ a, ti_association ti = Some a →
      a = getUserId s (at_userId payload) (at_streamId payload) (at_mid payload);
  va_id key :
    trackIdToPeerIdMid s !! track_id (at_track payload) = Some key →
    key = getPeerIdMid (at_userId payload) (at_mid payload);
}.

Definition added (payload : AddTrackPayload) (a : TrackAssociation) : TrackInfo :=
  {| ti_track := at_track payload; ti_mid := at_mid payload; ti_association := Some a |}.

Lemma maps_ok_add ids ts key t ti :
  maps_ok ∅ ids ts →
  (∀ ti0, ts !! key = Some ti0 → ti_track ti0 = t) →
  (∀ k, ids !! track_id t = Some k → k = key) →
  ti_track ti = t →
  maps_ok ∅ (<[track_id t := key]> ids) (<[key := ti]> ts).
Proof.
  intros [Hids Huniq Hdrop] Hkey Hid Hti.
  assert (∀ k ti0, ts !! k = Some ti0 → track_id (ti_track ti0) = track_id t → k = key) as Hk.
  { intros k ti0 Hk Heq. apply Hid, Hids. split; [set_solver|]. by exists ti0. }
  split.
  - intros id k. rewrite !lookup_insert.
    destruct (decide (track_id t = id)) as [<-|Hne], (decide (key = k)) as [<-|Hnk].
    + split; [|done]. intros _. split; [set_solver|]. exists ti. by rewrite Hti.
    + split; [by intros [= ->]|]. intros (_ & ti0 & Hl & Hl'). destruct Hnk.
      symmetry. by eapply Hk.
    + rewrite Hids. split; intros [_ (ti0 & Hl & Hl')].
      * by rewrite (Hkey _ Hl) in Hl'.
      * injection Hl as <-. congruence.
    + apply Hids.
  - intros k1 k2 t1 t2. rewrite !lookup_insert.
    destruct (decide (key = k1)) as [<-|], (decide (key = k2)) as [<-|]; [done|..].
    + intros [= <-] Hl Heq. symmetry. eapply Hk; [done|]. congruence.
    + intros Hl [= <-] Heq. eapply Hk; [done|]. congruence.
    + apply Huniq.
  - set_solver.
Qed.

Lemma associated_insert_Some ts key t mid a u sid x :
  (∀ ti0, ts !! key = Some ti0 → ti_track ti0 = t ∧ ∀ a0, ti_association ti0 = Some a0 → a0 = a) →
  associated (<[key := {| ti_track := t; ti_mid := mid; ti_association := Some a |}]> ts) u sid x
  ↔ associated ts u sid x ∨ (a = {| ta_streamId := sid; ta_userId := u |} ∧ x = t).
Proof.
  intros Hkey. split.
  - intros (k & ti & Hl & <- & Ha).
    apply lookup_insert_Some in Hl as [[<- <-]|[Hne Hl]]; [|left; by exists k, ti].
    right. simpl in Ha. split; [congruence|done].
  - intros [(k & ti & Hl & <- & Ha)|[-> ->]].
    + destruct (decide (key = k)) as [<-|Hne].
      * destruct (Hkey _ Hl) as [Ht Ha']. eexists key, _. rewrite lookup_insert_eq.
        split_and!; [done|by rewrite Ht|]. simpl. by rewrite (Ha' _ Ha).
      * exists k, ti. by rewrite lookup_insert_ne.
    + eexists key, _. by rewrite lookup_insert_eq.
Qed.

(** What [addTrack] does to the streams of the user: the track is put into the
    stream [sw] with the id of the association, the old or a new one. *)
Lemma addTrack_run D s w payload :
  streams_inv D s w →
  let a := getUserId s (at_userId payload) (at_streamId payload) (at_mid payload) in
  let u := ta_userId a in
  let key := getPeerIdMid (at_userId payload) (at_mid payload) in
  let t := at_track payload in
  ∃ sw l w' us',
    addTrack s payload w =
      (Ok (with_tracks us' (<[track_id t := key]> (trackIdToPeerIdMid s))
             (<[key := added payload a]> (tracksByPeerIdMid s)) s), w') ∧
    user_streams_updated (streamsByUserId s) u l us' ∧
    sw ∈ l ∧ streamId sw = ta_streamId a ∧
    (∃ g, stream_tracks w' = <[stream_ref (stream sw) := g]> (stream_tracks w) ∧
       ∀ x, x ∈ g ↔ x = t ∨ (sw ∈ streams_of s u ∧ x ∈ tracks_of w (stream sw))) ∧
    next_stream w ≤ next_stream w' ∧
    ((l = streams_of s u ∧ sw ∈ streams_of s u) ∨
     (l = streams_of s u ++ [sw] ∧ stream_ref (stream sw) = next_stream w ∧
      next_stream w' = S (next_stream w) ∧
      ∀ sw', sw' ∈ streams_of s u → streamId sw' ≠ ta_streamId a)).
Proof.
  intros Hi a u key t. unfold addTrack. fold a. fold u. fold key. fold t.
  set (usr := default _ (streamsByUserId s !! u)).
  assert (us_streams usr = streams_of s u ∧ us_userId usr = u) as [Hl Hu].
  { unfold usr, streams_of. destruct (streamsByUserId s !! u) as [x|] eqn:Hx; [|done].
    split; [done|]. by destruct (so_users _ _ (inv_streams _ _ _ Hi) _ _ Hx) as [? _]. }
  rewrite Hl, Hu.
  assert (∀ l : list StreamWithURL, l ≠ [] → user_streams_updated (streamsByUserId s) u l
    (<[u := {| us_userId := u; us_streams := l |}]> (streamsByUserId s))) as Hupd.
  { intros l Hne v. rewrite lookup_insert. do 2 case_decide; (congruence || by rewrite decide_False). }
  destruct (js_find _ (streams_of s u)) as [sw|] eqn:Hf.
  - apply js_find_Some in Hf as [Hid Hin].
    exists sw, (streams_of s u). do 2 eexists.
    split; [reflexivity|]. split; [apply Hupd; intros Heq; rewrite Heq in Hin; by apply not_elem_of_nil in Hin|].
    split_and!; [done|done| |done|by left].
    eexists. split; [reflexivity|]. intros x. case_decide.
    + split; [by right|]. by intros [->|[_ ?]].
    + rewrite elem_of_app, list_elem_of_singleton.
      split; [intros [?| ->]; auto|intros [->|[_ ?]]; auto].
  - pose proof (λ x, js_find_None _ _ x Hf) as Hnone. clear Hf.
    set (ms := {| stream_ref := next_stream w; stream_id := new_stream_id (next_stream w) |}).
    set (sw := {| stream := ms; streamId := ta_streamId a; url := safeCreateObjectURL ms |}).
    exists sw, (streams_of s u ++ [sw]). do 2 eexists. split; [reflexivity|].
    split; [apply Hupd; by destruct (streams_of s u)|].
    split_and!; [apply elem_of_app; right; by left|done| |simpl; lia|by right].
    eexists. split; [simpl; rewrite insert_insert_eq; reflexivity|]. intros x.
    unfold tracks_of. simpl. rewrite lookup_insert_eq. simpl.
    rewrite list_elem_of_singleton.
    split; [by left|]. intros [?|[Hin _]]; [done|]. by destruct (Hnone sw Hin).
Qed.

(** The display after track [t] was put into stream [sw] of user [u], which the
    user had already, or which is new. *)
Lemma displayed_added s w w' u sw l us' ids ts t g v sid x :
  streams_ok s w →
  user_streams_updated (streamsByUserId s) u l us' →
  stream_tracks w' = <[stream_ref (stream sw) := g]> (stream_tracks w) →
  (∀ x, x ∈ g ↔ x = t ∨ (sw ∈ streams_of s u ∧ x ∈ tracks_of w (stream sw))) →
  (∀ sw', sw' ∈ l ↔ sw' ∈ streams_of s u ∨ sw' = sw) →
  (∀ v sw', sw' ∈ streams_of s v → stream_ref (stream sw') = stream_ref (stream sw) →
     v = u ∧ sw' = sw) →
  displayed (with_tracks us' ids ts s) w' v sid x ↔
  displayed s w v sid x ∨
    ({| ta_streamId := streamId sw; ta_userId := u |}
     = {| ta_streamId := sid; ta_userId := v |} ∧ x = t).
Proof.
  intros Hso Hus Hw Hg Hl Href. set (s' := with_tracks _ _ _ _).
  assert (∀ v, streams_of s' v = if decide (v = u) then l else streams_of s v) as Hs'.
  { intros v'. by apply (streams_of_updated (streamsByUserId s)). }
  split.
  - intros (sw' & Hin & <- & Hx). rewrite (tracks_of_insert _ _ _ _ _ Hw) in Hx.
    assert (sw' ∈ streams_of s v ∨ (v = u ∧ sw' = sw)) as Hold.
    { rewrite Hs' in Hin. destruct (decide (v = u)) as [->|]; [|by left].
      apply Hl in Hin as [?| ->]; auto. }
    case_decide as Hd.
    + assert (v = u ∧ sw' = sw) as [-> ->] by (destruct Hold; [by apply Href|done]).
      apply Hg in Hx as [->|[Hsw Hx]]; [by right|]. left. by exists sw.
    + left. exists sw'. split_and!; [|done..]. by destruct Hold as [?|[-> ->]].
  - intros [(sw' & Hin & <- & Hx)|[[= <- <-] ->]].
    + exists sw'. split_and!; [|done|].
      * rewrite Hs'. destruct (decide (v = u)) as [->|]; [|done]. apply Hl. by left.
      * rewrite (tracks_of_insert _ _ _ _ _ Hw). case_decide as Hd; [|done].
        destruct (Href _ _ Hin Hd) as [-> ->]. apply Hg. by right.
    + exists sw. split_and!; [|done|].
      * rewrite Hs', decide_True by done. apply Hl. by right.
      * rewrite (tracks_of_insert _ _ _ _ _ Hw), decide_True by done. apply Hg. by left.
Qed.

Lemma addTrack_spec s w payload :
  streams_inv ∅ s w → valid_add s payload →
  let key := getPeerIdMid (at_userId payload) (at_mid payload) in
  ∃ s' w', addTrack s payload w = (Ok s', w') ∧ streams_inv ∅ s' w' ∧
    tracksByPeerIdMid s' =
      <[key := added payload (getUserId s (at_userId payload) (at_streamId payload)
                                (at_mid payload))]> (tracksByPeerIdMid s) ∧
    trackIdToPeerIdMid s' = <[track_id (at_track payload) := key]> (trackIdToPeerIdMid s) ∧
    same_rest s s'.
Proof.
  intros Hi [Hkey Hid] key.
  destruct (addTrack_run ∅ s w payload Hi)
    as (sw & l & w' & us' & Hrun & Hupd & Hin & Hsid & (g & Hw & Hg) & Hn & Hcase).
  set (a := getUserId s (at_userId payload) (at_streamId payload) (at_mid payload)) in *.
  fold key in Hrun, Hkey, Hid.
  do 2 eexists. split; [exact Hrun|]. split; [|done].
  pose proof (inv_streams _ _ _ Hi) as Hso.
  assert (∀ sw', sw' ∈ l ↔ sw' ∈ streams_of s (ta_userId a) ∨ sw' = sw) as Hl.
  { intros sw'. destruct Hcase as [[-> Hsw]|[-> _]].
    - split; [by left|]. by intros [?| ->].
    - rewrite elem_of_app, list_elem_of_singleton. done. }
  assert (∀ v sw', sw' ∈ streams_of s v → stream_ref (stream sw') = stream_ref (stream sw) →
    v = ta_userId a ∧ sw' = sw) as Href.
  { intros v sw' Hsw' Heq. destruct Hcase as [[_ Hsw]|(_ & Hr & _)].
    - by apply (so_refs _ _ Hso).
    - pose proof (so_fresh _ _ Hso _ _ Hsw'). lia. }
  split.
  - apply (update_streams_ok s w w' (ta_userId a) l us' _ _ sw g Hso Hupd Hw); [..|done|].
    + destruct Hcase as [[-> _]|(-> & _ & _ & Hnone)]; [apply (so_ids _ _ Hso)|].
      rewrite fmap_app. apply NoDup_app. split_and!; [apply (so_ids _ _ Hso)| |apply NoDup_singleton].
      intros i (sw' & -> & Hsw')%list_elem_of_fmap Hs%list_elem_of_singleton.
      apply (Hnone _ Hsw'). congruence.
    + intros sw' Hsw'. apply Hl in Hsw' as [?| ->]; [by left|].
      destruct Hcase as [[_ Hsw]|(_ & Hr & _)]; [by left|by right].
    + intros _ Hnil. assert (at_track payload ∈ g) as Ht by (apply Hg; by left).
      rewrite Hnil in Ht. by apply not_elem_of_nil in Ht.
    + intros v sw'. rewrite (streams_of_updated _ _ _ _ _ _ _ _ Hupd eq_refl).
      destruct (decide (v = ta_userId a)) as [->|]; [|by apply Href].
      intros [?| ->]%Hl; [by apply Href|done].
    + destruct Hcase as [[_ Hsw]|(_ & Hr & Hn' & _)]; [|lia].
      pose proof (so_fresh _ _ Hso _ _ Hsw). lia.
  - apply maps_ok_add; [apply Hi| |done|done]. intros ti0 Hti0. by apply Hkey.
  - intros v sid x. rewrite (displayed_added s w w' (ta_userId a) sw l us' _ _ (at_track payload) g)
      by done.
    rewrite (inv_display _ _ _ Hi), Hsid. unfold added. simpl.
    rewrite associated_insert_Some by done. by destruct a.
Qed.
End inv.
