(* ===== verification/StreamsOps.v ===== *)
(** The streams reducer: the operations that go over many tracks - metadata, a
    user or a peer that leaves - keep the invariant, never throw, and change the
    associations as a function of the old ones. *)

From S2P Require Import Prelude Objects InsertableStreams InsertableCodec Actions World Streams StreamsInv.

Section ops.
Context `{Platform} `{Lodash} `{ObjectKeys}.

Lemma unassociated_id ti : ti_association ti = None → unassociated ti = ti.
Proof. destruct ti as [t m a]. simpl. by intros ->. Qed.

Lemma same_rest_trans s1 s2 s3 : same_rest s1 s2 → same_rest s2 s3 → same_rest s1 s3.
Proof. intros (?&?&?&?&?) (?&?&?&?&?). repeat split; congruence. Qed.

(** States with the same streams and the same maps. *)
Lemma streams_inv_ext D s s' w :
  streamsByUserId s' = streamsByUserId s →
  trackIdToPeerIdMid s' = trackIdToPeerIdMid s →
  tracksByPeerIdMid s' = tracksByPeerIdMid s →
  streams_inv D s w → streams_inv D s' w.
Proof.
  intros Hu Hid Ht [[H1' H2' H3' H4' H5'] Hm Hd].
  assert (∀ u, streams_of s' u = streams_of s u) as Hso
    by (intros u; unfold streams_of; by rewrite Hu).
  split; [split| |].
  - intros u us. rewrite Hu. apply H1'.
  - intros u. rewrite Hso. apply H2'.
  - intros u sw. rewrite Hso. apply H3'.
  - intros u sw. rewrite Hso. apply H4'.
  - intros u sw u' sw'. rewrite !Hso. apply H5'.
  - by rewrite Hid, Ht.
  - intros u sid t. rewrite Ht, <-Hd. unfold displayed. by setoid_rewrite Hso.
Qed.

(** * Metadata *)

(** The association an entry of the metadata stands for. *)
Definition assoc_of (m : TrackMetadata) : TrackAssociation :=
  {| ta_streamId := tm_streamId m; ta_userId := tm_userId m |}.

(** The first loop of [setMetadata]: tracks missing from the metadata. *)
Lemma drop_missing (md : gmap string TrackMetadata) (entries : list (string * TrackInfo)) :
  ∀ s w, streams_inv ∅ s w → NoDup entries.*1 →
  (∀ k ti, (k, ti) ∈ entries → tracksByPeerIdMid s !! k = Some ti) →
  ∃ s' w',
    for_fold (λ newState '(peerIdMid, t),
      match md !! peerIdMid, ti_association t with
      | None, Some _ => removeTrack newState (ti_track t)
      | _, _ => mret newState
      end) s entries w = (Ok s', w') ∧
    streams_inv ∅ s' w' ∧ same_rest s s' ∧
    ∀ k, tracksByPeerIdMid s' !! k =
      if decide (k ∈ entries.*1 ∧ md !! k = None)
      then unassociated <$> tracksByPeerIdMid s !! k else tracksByPeerIdMid s !! k.
Proof.
  induction entries as [|[key ti] entries IH]; intros s w Hi Hnd Hent.
  { exists s, w. split_and!; [done..|]. intros k. rewrite decide_False; [done|].
    intros [?%not_elem_of_nil _]; done. }
  cbn in Hnd. apply NoDup_cons in Hnd as [Hkey Hnd].
  assert (tracksByPeerIdMid s !! key = Some ti) as Hti by (apply Hent; by left).
  assert (∃ s1 w1,
    (match md !! key, ti_association ti with
     | None, Some _ => removeTrack s (ti_track ti)
     | _, _ => mret s
     end) w = (Ok s1, w1) ∧ streams_inv ∅ s1 w1 ∧ same_rest s s1 ∧
    ∀ k, tracksByPeerIdMid s1 !! k =
      if decide (k = key ∧ md !! k = None) then Some (unassociated ti)
      else tracksByPeerIdMid s !! k) as (s1 & w1 & Hrun & Hi1 & Hr1 & Ht1).
  { destruct (md !! key) eqn:Hmd; [|destruct (ti_association ti) as [a|] eqn:Ha].
    - exists s, w. split_and!; [done..|]. intros k. rewrite decide_False; [done|].
      intros [-> ?]; congruence.
    - destruct (removeTrack_spec ∅ s w key ti a Hi Hti Ha) as (s1 & w1 & ? & ? & Ht & _ & ?).
      exists s1, w1. split_and!; [done..|]. intros k. rewrite Ht, lookup_insert.
      destruct (decide (key = k)) as [<-|]; [by rewrite decide_True|].
      rewrite decide_False; [done|]. intros [-> _]; congruence.
    - exists s, w. split_and!; [done..|]. intros k.
      destruct (decide (k = key ∧ md !! k = None)) as [[-> _]|]; [|done].
      by rewrite unassociated_id. }
  destruct (IH s1 w1 Hi1 Hnd) as (s' & w' & Hrun' & Hi' & Hr' & Ht').
  { intros k ti' Hin. rewrite Ht1, decide_False.
    - apply Hent. by right.
    - intros [-> _]. apply Hkey. apply list_elem_of_fmap. by exists (key, ti'). }
  exists s', w'. split_and!; [|done|by eapply same_rest_trans|].
  { cbn [for_fold]. by rewrite (bind_runs _ _ _ _ _ Hrun). }
  intros k. rewrite Ht', Ht1. cbn.
  destruct (decide (k = key)) as [->|Hne].
  - rewrite (decide_False (P := key ∈ entries.*1 ∧ _)) by (by intros [? _]).
    destruct (decide (md !! key = None)).
    + rewrite !decide_True by (try split; (done || by left)). by rewrite Hti.
    + rewrite !decide_False by (by intros [_ ?]). done.
  - rewrite (decide_False (P := k = key ∧ _)) by (by intros [? _]).
    destruct (decide (k ∈ entries.*1 ∧ md !! k = None)) as [[Hk Hm]|Hno].
    + rewrite decide_True; [done|]. split; [by right|done].
    + rewrite decide_False; [done|]. intros [[?|?]%elem_of_cons ?]; [done|]. by apply Hno.
Qed.

(** During the second loop of [setMetadata], with [ms] still to come: the
    associations agree with the metadata, or are the old ones and will be seen
    to; [ex] is the key that is being dealt with. *)
Record aligning (s0 : StreamsState) (md : gmap string TrackMetadata)
    (ms : list TrackMetadata) (ex : option string) (s : StreamsState) (w : World) : Prop := {
  al_inv : streams_inv ∅ s w;
  al_metadata : metadataByPeerIdMid s = md;
  al_tracks key :
    ti_track <$> tracksByPeerIdMid s !! key = ti_track <$> tracksByPeerIdMid s0 !! key;
  al_known key m ti0 ti :
    ex ≠ Some key → md !! key = Some m → tracksByPeerIdMid s0 !! key = Some ti0 →
    tracksByPeerIdMid s !! key = Some ti →
    ti_association ti = Some (assoc_of m) ∨
    (ti_association ti = ti_association ti0 ∧ m ∈ ms);
  al_unknown key ti :
    md !! key = None → tracksByPeerIdMid s !! key = Some ti → ti_association ti = None;
}.

(** What the metadata promises: entries are found at their own key. *)
Definition metadata_keys (md : gmap string TrackMetadata) (peer : string)
    (ms : list TrackMetadata) : Prop :=
  (∀ key m, md !! key = Some m → getPeerIdMid peer (tm_mid m) = key) ∧
  (∀ m, m ∈ ms → is_Some (md !! getPeerIdMid peer (tm_mid m))).

(** Associating the track of an entry as the metadata says. *)
Lemma align_add s0 md peer m ms s w m' ti sid mid :
  aligning s0 md (m :: ms) (Some (getPeerIdMid peer mid)) s w →
  let key := getPeerIdMid peer mid in
  md !! key = Some m' → getPeerIdMid peer (tm_mid m) = key → metadata_keys md peer (m :: ms) →
  tracksByPeerIdMid s !! key = Some ti →
  (∀ a, ti_association ti = Some a → a = assoc_of m') →
  ∃ s' w', addTrack s {| at_mid := mid; at_streamId := sid; at_userId := peer;
                         at_track := ti_track ti |} w = (Ok s', w') ∧
    same_rest s s' ∧ aligning s0 md ms None s' w'.
Proof.
  intros [Hi Hmd Htr Hkn Hun] key Hm Hkey [Hk1 Hk2] Hti Ha.
  set (p := {| at_mid := mid; at_streamId := sid; at_userId := peer; at_track := ti_track ti |}).
  assert (getUserId s peer sid mid = assoc_of m') as Hg.
  { unfold getUserId. rewrite Hmd. fold key. by rewrite Hm. }
  assert (valid_add s p) as Hv.
  { split; simpl.
    - intros ti' Hti'. fold key in Hti'. simplify_eq. split; [done|]. rewrite Hg. apply Ha.
    - intros k Hid. apply (mo_ids _ _ _ (inv_maps _ _ _ Hi)) in Hid as [_ (ti' & Hti' & Heq)].
      by eapply (mo_unique _ _ _ (inv_maps _ _ _ Hi)). }
  destruct (addTrack_spec s w p Hi Hv) as (s' & w' & Hrun & Hi' & Ht' & _ & Hr').
  simpl in Ht'. rewrite Hg in Ht'. fold key in Ht'.
  exists s', w'. split_and!; [done..|].
  assert (∀ k, k ≠ key → tracksByPeerIdMid s' !! k = tracksByPeerIdMid s !! k) as Hne.
  { intros k Hn. by rewrite Ht', lookup_insert_ne. }
  split; [done|destruct Hr' as (_&_&_&_&Hr'); congruence|..].
  - intros k. rewrite <-Htr. destruct (decide (k = key)) as [->|Hn]; [|by rewrite Hne].
    by rewrite Ht', lookup_insert_eq, Hti.
  - intros k mk ti0 tik _ Hmk Hti0. destruct (decide (k = key)) as [->|Hn].
    + rewrite Ht', lookup_insert_eq. intros [= <-]. left. simpl. congruence.
    + rewrite Hne by done. intros Htik. destruct (Hkn k _ _ _ ltac:(by intros [= <-]) Hmk Hti0 Htik) as [?|[? Hin]];
        [by left|right]. split; [done|].
      apply elem_of_cons in Hin as [->|?]; [|done]. apply Hk1 in Hmk. congruence.
  - intros k tik Hmk. destruct (decide (k = key)) as [->|Hn]; [congruence|].
    rewrite Hne by done. by apply Hun.
Qed.

(** A step that changes nothing, when the head entry is dealt with. *)
Lemma align_skip s0 md peer m ms s w :
  aligning s0 md (m :: ms) None s w →
  (∀ ti0 ti, tracksByPeerIdMid s0 !! getPeerIdMid peer (tm_mid m) = Some ti0 →
     tracksByPeerIdMid s !! getPeerIdMid peer (tm_mid m) = Some ti →
     md !! getPeerIdMid peer (tm_mid m) = Some m → ti_association ti = ti_association ti0 →
     ti_association ti = Some (assoc_of m)) →
  (∀ key m, md !! key = Some m → getPeerIdMid peer (tm_mid m) = key) →
  aligning s0 md ms None s w.
Proof.
  intros [Hi Hmd Htr Hkn Hun] Hhead Hk. split; try done.
  intros key m' ti0 ti _ Hm' Hti0 Hti. destruct (Hkn _ _ _ _ ltac:(done) Hm' Hti0 Hti) as [?|[Heq Hin]]; [by left|].
  apply elem_of_cons in Hin as [->|?]; [left|by right].
  pose proof (Hk _ _ Hm') as <-. by apply (Hhead ti0).
Qed.

Lemma associate_step s0 md peer m ms s w :
  aligning s0 md (m :: ms) None s w → metadata_keys md peer (m :: ms) →
  ∃ s' w', associate s0 peer s m w = (Ok s', w') ∧ same_rest s s' ∧
    aligning s0 md ms None s' w'.
Proof.
  intros Hal Hmk. pose proof Hal as [Hi Hmd Htr Hkn Hun]. pose proof Hmk as [Hk1 Hk2].
  unfold associate. set (key := getPeerIdMid peer (tm_mid m)).
  destruct (tracksByPeerIdMid s0 !! key) as [t|] eqn:Ht0.
  2: { exists s, w. split_and!; [done|done|]. apply (align_skip _ _ peer m); [done| |done].
       intros ti0 ti Hti0. fold key in Hti0. congruence. }
  assert (∃ ti, tracksByPeerIdMid s !! key = Some ti ∧ ti_track ti = ti_track t) as (ti & Hti & Heq).
  { pose proof (Htr key) as Htk. rewrite Ht0 in Htk.
    destruct (tracksByPeerIdMid s !! key) as [ti|]; [|done].
    exists ti. split; [done|]. by injection Htk. }
  destruct (Hk2 m ltac:(by left)) as [m' Hm']. fold key in Hm'.
  pose proof (Hkn _ _ _ _ ltac:(done) Hm' Ht0 Hti) as Hcase.
  destruct (ti_association t) as [a|] eqn:Ha.
  - case_decide as Hd.
    + exists s, w. split_and!; [done|done|]. apply (align_skip _ _ peer m); [done| |done].
      intros ti0 ti1 Hti0 _ _ ->. fold key in Hti0. simplify_eq. rewrite Ha.
      destruct Hd as [Hd1 Hd2]. unfold assoc_of. rewrite <-Hd1, <-Hd2. by destruct a.
    + assert (∃ a', ti_association ti = Some a') as [a' Ha'].
      { destruct Hcase as [->|[-> _]]; by eexists. }
      destruct (removeTrack_spec ∅ s w key ti a' Hi Hti Ha')
        as (s1 & w1 & Hrun & Hi1 & Ht1 & _ & Hr1).
      rewrite Heq in Hrun. rewrite (bind_runs _ _ _ _ _ Hrun).
      assert (tracksByPeerIdMid s1 !! key = Some (unassociated ti)) as Hti1
        by by rewrite Ht1, lookup_insert_eq.
      assert (aligning s0 md (m :: ms) (Some key) s1 w1) as Hal1.
      { split; [done|destruct Hr1 as (_&_&_&_&?); congruence|..].
        - intros k. rewrite <-Htr, Ht1, lookup_insert. by case_decide; subst; rewrite ?Hti.
        - intros k mk ti0 tik Hne. rewrite Ht1, lookup_insert_ne by congruence.
          by apply Hkn.
        - intros k tik Hmk'. rewrite Ht1, lookup_insert_ne by congruence. by apply Hun. }
      destruct (align_add s0 md peer m ms s1 w1 m' (unassociated ti) (ta_streamId a) (tm_mid m)
        Hal1 Hm' eq_refl Hmk Hti1) as (s' & w' & Hrun' & Hr' & Hal'); [done|].
      exists s', w'. split_and!; [|by eapply same_rest_trans|done].
      rewrite <-Hrun'. simpl. by rewrite Heq.
  - rewrite <-Heq.
    apply (align_add s0 md peer m ms s w m' ti); try done.
    + split; try done. intros. by eapply Hkn.
    + intros a'. destruct Hcase as [->|[-> _]]; [by intros [= <-]|congruence].
Qed.

Lemma associate_loop s0 md peer ms : ∀ s w,
  aligning s0 md ms None s w → metadata_keys md peer ms →
  ∃ s' w', for_fold (associate s0 peer) s ms w = (Ok s', w') ∧ same_rest s s' ∧
    aligning s0 md [] None s' w'.
Proof.
  induction ms as [|m ms IH]; intros s w Hal Hmk; [by exists s, w|].
  destruct (associate_step s0 md peer m ms s w Hal Hmk) as (s1 & w1 & Hrun & Hr & Hal1).
  destruct (IH s1 w1 Hal1) as (s' & w' & Hrun' & Hr' & Hal').
  { destruct Hmk as [? Hk2]. split; [done|]. intros. apply Hk2. by right. }
  exists s', w'. split_and!; [|by eapply same_rest_trans|done].
  cbn [for_fold]. by rewrite (bind_runs _ _ _ _ _ Hrun).
Qed.

(** The associations the metadata asks for: those it names, and no others. *)
Definition aligned_with (md : gmap string TrackMetadata) (s s' : StreamsState) : Prop :=
  ∀ key,
    ti_track <$> tracksByPeerIdMid s' !! key = ti_track <$> tracksByPeerIdMid s !! key ∧
    ∀ ti, tracksByPeerIdMid s' !! key = Some ti →
      ti_association ti = assoc_of <$> md !! key.

Lemma keyBy_metadata_keys peer (metadata : list TrackMetadata) :
  metadata_keys (keyBy metadata (λ m, getPeerIdMid peer (tm_mid m))) peer metadata.
Proof.
  split.
  - intros key m. rewrite keyBy_lookup. intros Hl%last_Some_elem_of.
    by apply list_elem_of_filter in Hl as [? _].
  - intros m Hm. rewrite keyBy_lookup. apply last_is_Some. intros Hnil.
    assert (m ∈ filter (λ v, getPeerIdMid peer (tm_mid v) = getPeerIdMid peer (tm_mid m)) metadata)
      as Hin by by apply list_elem_of_filter.
    rewrite Hnil in Hin. by apply not_elem_of_nil in Hin.
Qed.

Lemma setMetadata_spec s w payload :
  streams_inv ∅ s w →
  let md := keyBy (mp_metadata payload) (λ m, getPeerIdMid (mp_userId payload) (tm_mid m)) in
  ∃ s' w', setMetadata s payload w = (Ok s', w') ∧ streams_inv ∅ s' w' ∧
    metadataByPeerIdMid s' = md ∧ aligned_with md s s'.
Proof.
  intros Hi md. unfold setMetadata. fold md.
  destruct (drop_missing md (object_entries (tracksByPeerIdMid s)) s w Hi)
    as (s1 & w1 & Hrun1 & Hi1 & Hr1 & Ht1).
  { apply object_entries_keys. }
  { intros k ti. apply elem_of_object_entries. }
  rewrite (bind_runs _ _ _ _ _ Hrun1).
  destruct (associate_loop s md (mp_userId payload) (mp_metadata payload)
    (with_metadata md s1) w1) as (s' & w' & Hrun' & Hr' & [Hi' Hmd' Htr' Hkn' Hun']).
  - assert (∀ k ti, tracksByPeerIdMid s1 !! k = Some ti → md !! k ≠ None →
      tracksByPeerIdMid s !! k = Some ti) as Hkept.
    { intros k ti. rewrite Ht1. case_decide as Hd; [by destruct Hd|done]. }
    split; [by eapply streams_inv_ext; [..|exact Hi1]|done|..]; simpl.
    + intros k. rewrite Ht1. case_decide; [|done]. by destruct (tracksByPeerIdMid s !! k).
    + intros k m ti0 ti _ Hm Hti0 Hti. right.
      rewrite (Hkept k ti) in Hti0 by (done || by rewrite Hm). injection Hti0 as ->.
      split; [done|]. unfold md in Hm. rewrite keyBy_lookup in Hm.
      apply last_Some_elem_of in Hm. by apply list_elem_of_filter in Hm as [_ ?].
    + intros k ti Hm. rewrite Ht1. case_decide as Hd.
      * destruct (tracksByPeerIdMid s !! k); [|done]. by intros [= <-].
      * intros Hti. destruct Hd. split; [|done]. apply object_entries_key. by exists ti.
  - apply keyBy_metadata_keys.
  - exists s', w'. split_and!; [done..|]. intros key. split; [done|].
    intros ti Hti. destruct (md !! key) as [m|] eqn:Hm; simpl; [|by apply (Hun' key)].
    pose proof (Htr' key) as Hk. rewrite Hti in Hk. simpl in Hk.
    destruct (tracksByPeerIdMid s !! key) as [ti0|] eqn:Hti0; [|done].
    destruct (Hkn' key m ti0 ti) as [?|[_ Hin]]; [done..|]. by apply not_elem_of_nil in Hin.
Qed.

(** * A peer is removed *)

(** Forgetting the id of a track that is not associated. *)
Lemma maps_ok_forget D ids ts key ti :
  maps_ok D ids ts → ts !! key = Some ti → ti_association ti = None → key ∉ D →
  maps_ok ({[key]} ∪ D) (delete (track_id (ti_track ti)) ids) ts.
Proof.
  intros [Hids Huniq Hdrop] Hti Ha HD. split; [|done|].
  - intros id k. rewrite lookup_delete_Some, Hids. split.
    + intros (Hne & Hk & t0 & Ht0 & Hid). split; [|by exists t0].
      intros [->%elem_of_singleton|?]%elem_of_union; [|done]. congruence.
    + intros [Hk (t0 & Ht0 & Hid)]. split_and!; [|by intros ?; apply Hk, elem_of_union; right|by exists t0].
      intros Heq. apply Hk. apply elem_of_union. left. apply elem_of_singleton.
      eapply Huniq; [done..|congruence].
  - intros k t0 [->%elem_of_singleton|Hk]%elem_of_union Ht0; [congruence|by eapply Hdrop].
Qed.

Lemma removePeer_loop s0 (ks : list string) : ∀ D s w,
  streams_inv D s w → NoDup ks → (∀ k, k ∈ ks → k ∉ D) →
  (∀ k, k ∈ ks → tracksByPeerIdMid s !! k = tracksByPeerIdMid s0 !! k) →
  (∀ k, k ∈ ks → is_Some (tracksByPeerIdMid s0 !! k)) →
  ∃ s' w',
    for_fold (λ newState key,
      match tracksByPeerIdMid s0 !! key with
      | None => mret newState
      | Some t =>
        newState ← (match ti_association t with
                    | Some _ => removeTrack newState (ti_track t)
                    | None => mret newState
                    end);
        mret (with_tracks (streamsByUserId newState)
                (delete (track_id (ti_track t)) (trackIdToPeerIdMid newState))
                (tracksByPeerIdMid newState) newState)
      end) s ks w = (Ok s', w') ∧
    streams_inv (list_to_set ks ∪ D) s' w' ∧ same_rest s s' ∧
    ∀ k, k ∉ ks → tracksByPeerIdMid s' !! k = tracksByPeerIdMid s !! k.
Proof.
  induction ks as [|key ks IH]; intros D s w Hi Hnd HD Hsame Hsome.
  { exists s, w. split_and!; [done| |done|done]. simpl.
    replace (∅ ∪ D) with D by set_solver. done. }
  apply NoDup_cons in Hnd as [Hkey Hnd].
  destruct (Hsome key ltac:(by left)) as [t Ht0].
  assert (tracksByPeerIdMid s !! key = Some t) as Ht by (rewrite Hsame; [done|by left]).
  assert (∃ s1 w1,
    (match ti_association t with
     | Some _ => removeTrack s (ti_track t)
     | None => mret s
     end) w = (Ok s1, w1) ∧ streams_inv D s1 w1 ∧ same_rest s s1 ∧
     tracksByPeerIdMid s1 = <[key := unassociated t]> (tracksByPeerIdMid s))
    as (s1 & w1 & Hrun & Hi1 & Hr1 & Ht1).
  { destruct (ti_association t) as [a|] eqn:Ha.
    - destruct (removeTrack_spec D s w key t a Hi Ht Ha) as (s1 & w1 & ? & ? & ? & _ & ?).
      by exists s1, w1.
    - exists s, w. split_and!; [done..|]. by rewrite unassociated_id, insert_id. }
  set (s2 := with_tracks (streamsByUserId s1) (delete (track_id (ti_track t))
               (trackIdToPeerIdMid s1)) (tracksByPeerIdMid s1) s1).
  assert (streams_inv ({[key]} ∪ D) s2 w1) as Hi2.
  { destruct Hi1 as [[? ? ? ? ?] Hm1 Hd1]. split; [by split| |done].
    apply (maps_ok_forget D _ _ key (unassociated t)); [done| |done|apply HD; by left].
    unfold s2. simpl. by rewrite Ht1, lookup_insert_eq. }
  assert (∀ k, k ≠ key → tracksByPeerIdMid s2 !! k = tracksByPeerIdMid s !! k) as Hs2.
  { intros k Hk. simpl. by rewrite Ht1, lookup_insert_ne. }
  destruct (IH ({[key]} ∪ D) s2 w1 Hi2 Hnd) as (s' & w' & Hrun' & Hi' & Hr' & Ht').
  - intros k Hk [->%elem_of_singleton|Hin]%elem_of_union; [done|].
    apply (HD k); [by right|done].
  - intros k Hk. rewrite Hs2 by (intros ->; done). apply Hsame. by right.
  - intros k Hk. apply Hsome. by right.
  - exists s', w'. split_and!.
    + cbn [for_fold]. rewrite Ht0.
      rewrite (bind_runs _ _ w s2 w1); [done|]. by rewrite (bind_runs _ _ _ _ _ Hrun).
    + replace (list_to_set (key :: ks) ∪ D) with (list_to_set ks ∪ ({[key]} ∪ D) : gset string);
        [done|]. simpl. set_solver.
    + eapply same_rest_trans; [exact Hr1|]. exact Hr'.
    + intros k [Hk1 Hk2]%not_elem_of_cons. by rewrite Ht', Hs2.
Qed.

Definition of_peer (userId key : string) : bool :=
  String.prefix (userId +:+ peerIdMidSeparator) key.

Lemma removePeer_spec s w userId :
  streams_inv ∅ s w →
  ∃ s' w', removePeer s userId w = (Ok s', w') ∧ streams_inv ∅ s' w' ∧ same_rest s s' ∧
    ∀ key, tracksByPeerIdMid s' !! key =
      if of_peer userId key then None else tracksByPeerIdMid s !! key.
Proof.
  intros Hi. unfold removePeer.
  set (ks := filter _ (object_keys (tracksByPeerIdMid s))).
  assert (∀ k, k ∈ ks ↔ of_peer userId k = true ∧ is_Some (tracksByPeerIdMid s !! k)) as Hks.
  { intros k. unfold ks. by rewrite list_elem_of_filter, elem_of_object_keys. }
  destruct (removePeer_loop s ks ∅ s w Hi) as (s1 & w1 & Hrun & Hi1 & Hr1 & Ht1).
  { apply NoDup_filter, NoDup_object_keys. }
  { set_solver. } { done. } { intros k Hk. by apply Hks in Hk as [_ ?]. }
  rewrite (bind_runs _ _ _ _ _ Hrun). rewrite union_empty_r_L in Hi1.
  do 2 eexists. split; [reflexivity|].
  assert (∀ k, omit (tracksByPeerIdMid s) ks !! k =
    if of_peer userId k then None else tracksByPeerIdMid s !! k) as Hom.
  { intros k. rewrite omit_lookup. destruct (of_peer userId k) eqn:Hp.
    - case_decide as Hk; [done|]. destruct (tracksByPeerIdMid s !! k) eqn:Hl; [|done].
      destruct Hk. apply Hks. by rewrite Hl.
    - case_decide as Hk; [|done]. apply Hks in Hk as [? _]. congruence. }
  assert (∀ k, k ∉ ks → omit (tracksByPeerIdMid s) ks !! k = tracksByPeerIdMid s1 !! k) as Hkeep.
  { intros k Hk. by rewrite omit_lookup, decide_False, Ht1. }
  destruct Hi1 as [Hso [Hids Huniq Hdrop] Hd1].
  split_and!; [|done|done].
  split; [by destruct Hso; split| |].
  - split; simpl.
    + intros id k. rewrite Hids. split; intros [Hk (ti & Hl & Hid)].
      * split; [set_solver|]. exists ti. rewrite Hkeep; [done|]. set_solver.
      * assert (k ∉ ks) by (intros Hin; rewrite omit_lookup, decide_True in Hl; done).
        rewrite Hkeep in Hl by done. split; [set_solver|by exists ti].
    + intros k1 k2 t1 t2. rewrite !omit_lookup. do 2 case_decide; try done.
      rewrite <-!Ht1 by done. apply Huniq.
    + set_solver.
  - intros u sid t. transitivity (associated (tracksByPeerIdMid s1) u sid t); [apply Hd1|].
    split; intros (k & ti & Hl & Ht & Ha); exists k, ti; (split; [|done]).
    + rewrite Hkeep; [done|]. intros Hk. rewrite (Hdrop k ti) in Ha; [done|set_solver|done].
    + simpl in Hl. rewrite <-Hkeep; [done|].
      intros Hin; rewrite omit_lookup, decide_True in Hl; done.
Qed.

(** * A user leaves *)

(** The keys of some tracks. *)
Definition keys_of (s : StreamsState) (ts : list MediaStreamTrack) : list string :=
  omap (λ t, trackIdToPeerIdMid s !! track_id t) ts.

(** [s.stream.removeTrack(track)] for one track, with its entry. *)
Definition unassociate_one (s : StreamsState) (sw : StreamWithURL)
    (tracks : gmap string TrackInfo) (track : MediaStreamTrack) :
    eff World (gmap string TrackInfo) :=
  let peerIdMid := trackIdToPeerIdMid s !! track_id track in
  match lookup_key (tracksByPeerIdMid s) peerIdMid with
  | None => throw TypeError
  | Some t =>
    stream_removeTrack (stream sw) track ≫= λ _,
    mret (<[default "undefined" peerIdMid :=
      {| ti_track := track; ti_mid := ti_mid t; ti_association := None |}]> tracks)
  end.

Definition known_track (s : StreamsState) (t : MediaStreamTrack) : Prop :=
  ∃ key ti, trackIdToPeerIdMid s !! track_id t = Some key ∧
    tracksByPeerIdMid s !! key = Some ti ∧ ti_track ti = t.

Lemma lookup_insert_unassociated s t key ti (acc : gmap string TrackInfo) k ts :
  trackIdToPeerIdMid s !! track_id t = Some key → tracksByPeerIdMid s !! key = Some ti →
  (if decide (k ∈ keys_of s ts) then unassociated <$> tracksByPeerIdMid s !! k
   else <[key := unassociated ti]> acc !! k)
  = if decide (k ∈ keys_of s (t :: ts)) then unassociated <$> tracksByPeerIdMid s !! k
    else acc !! k.
Proof.
  intros Hid Hti. unfold keys_of. cbn [omap list_omap]. rewrite Hid.
  destruct (decide (k = key)) as [->|Hne].
  - rewrite lookup_insert_eq, Hti. simpl.
    rewrite (decide_True (P := key ∈ key :: _)) by by left. by case_decide.
  - rewrite lookup_insert_ne by done. destruct (decide (k ∈ omap _ ts)) as [Hd|Hd].
    + rewrite decide_True; [done|]. by right.
    + rewrite decide_False; [done|]. by intros [?|?]%elem_of_cons.
Qed.

Lemma unassociate_stream s sw ts : ∀ (acc : gmap string TrackInfo) w,
  (∀ t, t ∈ ts → known_track s t) →
  ∃ acc' w', for_fold (unassociate_one s sw) acc ts w = (Ok acc', w') ∧
    (∀ k, acc' !! k = if decide (k ∈ keys_of s ts)
                      then unassociated <$> tracksByPeerIdMid s !! k else acc !! k) ∧
    (∀ ms, stream_ref ms ≠ stream_ref (stream sw) → tracks_of w' ms = tracks_of w ms) ∧
    next_stream w' = next_stream w.
Proof.
  induction ts as [|t ts IH]; intros acc w Hts.
  { exists acc, w. split_and!; [done| |done|done]. intros k. by rewrite decide_False by set_solver. }
  destruct (Hts t ltac:(by left)) as (key & ti & Hid & Hti & Htt).
  set (w1 := set_stream_tracks
    (insert (stream_ref (stream sw)) (filter (λ t', t' ≠ t) (tracks_of w (stream sw)))) w).
  destruct (IH (<[key := unassociated ti]> acc) w1) as (acc' & w' & Hrun & Hacc & Hw & Hn).
  { intros t' Ht'. apply Hts. by right. }
  exists acc', w'. split_and!.
  - cbn [for_fold].
    rewrite (bind_runs _ _ w (<[key := unassociated ti]> acc) w1); [done|].
    unfold unassociate_one, lookup_key. rewrite Hid. cbn [default from_option]. unfold id.
    rewrite Hti. unfold unassociated. by rewrite Htt.
  - intros k. by rewrite Hacc, (lookup_insert_unassociated s t key ti).
  - intros ms Hne. rewrite Hw by done.
    rewrite (tracks_of_insert w w1 (stream sw) _ ms eq_refl). by rewrite decide_False.
  - done.
Qed.

Lemma unassociate_streams s (l : list StreamWithURL) : ∀ (acc : gmap string TrackInfo) w,
  NoDup ((λ sw, stream_ref (stream sw)) <$> l) →
  (∀ sw t, sw ∈ l → t ∈ tracks_of w (stream sw) → known_track s t) →
  ∃ acc' w',
    for_fold (λ tracks sw, ts ← getTracks (stream sw);
                for_fold (unassociate_one s sw) tracks ts) acc l w = (Ok acc', w') ∧
    (∀ k, acc' !! k =
       if decide (k ∈ keys_of s (concat ((λ sw, tracks_of w (stream sw)) <$> l)))
       then unassociated <$> tracksByPeerIdMid s !! k else acc !! k) ∧
    (∀ ms, (∀ sw, sw ∈ l → stream_ref ms ≠ stream_ref (stream sw)) →
       tracks_of w' ms = tracks_of w ms) ∧
    next_stream w' = next_stream w.
Proof.
  induction l as [|sw l IH]; intros acc w Hnd Hts.
  { exists acc, w. split_and!; [done| |done|done]. intros k. by rewrite decide_False by set_solver. }
  cbn in Hnd. apply NoDup_cons in Hnd as [Hsw Hnd].
  assert (∀ sw', sw' ∈ l → stream_ref (stream sw') ≠ stream_ref (stream sw)) as Hne.
  { intros sw' Hin Heq. apply Hsw. rewrite <-Heq.
    apply (list_elem_of_fmap_2 (λ sw, stream_ref (stream sw))). done. }
  destruct (unassociate_stream s sw (tracks_of w (stream sw)) acc w)
    as (acc1 & w1 & Hrun1 & Hacc1 & Hw1 & Hn1).
  { intros t. apply Hts. by left. }
  destruct (IH acc1 w1 Hnd) as (acc' & w' & Hrun & Hacc & Hw & Hn).
  { intros sw' t Hin. rewrite Hw1 by by apply Hne. apply Hts. by right. }
  exists acc', w'. split_and!.
  - cbn [for_fold]. rewrite (bind_runs _ _ w acc1 w1); [done|].
    rewrite <-Hrun1. reflexivity.
  - intros k. rewrite Hacc, Hacc1. cbn [fmap list_fmap concat].
    assert ((λ sw', tracks_of w1 (stream sw')) <$> l = (λ sw', tracks_of w (stream sw')) <$> l)
      as ->.
    { apply list_fmap_ext. intros i sw' Hl. apply Hw1, Hne. by eapply list_elem_of_lookup_2. }
    set (rest := concat _). unfold keys_of. rewrite omap_app.
    repeat case_decide; try done; set_solver.
  - intros ms Hms. rewrite Hw by (intros sw' Hin; apply Hms; by right).
    apply Hw1, Hms. by left.
  - congruence.
Qed.

(** The tracks of user [u] lose their association. *)
Definition leave (u : string) (ti : TrackInfo) : TrackInfo :=
  match ti_association ti with
  | Some a => if decide (ta_userId a = u) then unassociated ti else ti
  | None => ti
  end.

Lemma leave_track u ti : ti_track (leave u ti) = ti_track ti.
Proof. unfold leave. by repeat case_match. Qed.

Lemma associated_leave (ts : gmap string TrackInfo) u v sid t :
  associated (leave u <$> ts) v sid t ↔ associated ts v sid t ∧ v ≠ u.
Proof.
  split.
  - intros (k & ti & Hl & <- & Ha). rewrite lookup_fmap_Some in Hl.
    destruct Hl as (ti0 & <- & Hl). rewrite leave_track.
    unfold leave in Ha. destruct (ti_association ti0) as [a|] eqn:Ha0; [|congruence].
    destruct (decide (ta_userId a = u)) as [|Hne]; [done|].
    rewrite Ha0 in Ha. injection Ha as ->. split; [by exists k, ti0|done].
  - intros [(k & ti & Hl & <- & Ha) Hne]. exists k, ti. split_and!; [|done|done].
    rewrite lookup_fmap, Hl. simpl. unfold leave. rewrite Ha. simpl. by rewrite decide_False.
Qed.

Lemma maps_ok_leave ids ts u : maps_ok ∅ ids ts → maps_ok ∅ ids (leave u <$> ts).
Proof.
  intros [Hids Huniq Hdrop]. split.
  - intros id k. rewrite Hids, lookup_fmap. split; intros [Hk (ti & Hl & Hid)]; (split; [done|]).
    + exists (leave u ti). by rewrite Hl, leave_track.
    + apply fmap_Some in Hl as (ti0 & Hl & ->). exists ti0. by rewrite leave_track in Hid.
  - intros k1 k2 t1 t2 (ti1 & <- & Hl1)%lookup_fmap_Some (ti2 & <- & Hl2)%lookup_fmap_Some.
    rewrite !leave_track. by apply Huniq.
  - intros k ti Hk. by apply not_elem_of_empty in Hk.
Qed.

(** The keys of the tracks a user displays are those associated with the user. *)
Lemma keys_of_user s w u k :
  streams_inv ∅ s w →
  k ∈ keys_of s (concat ((λ sw, tracks_of w (stream sw)) <$> streams_of s u)) ↔
  ∃ ti a, tracksByPeerIdMid s !! k = Some ti ∧ ti_association ti = Some a ∧ ta_userId a = u.
Proof.
  intros Hi. unfold keys_of. rewrite list_elem_of_omap. split.
  - intros (t & Ht & Hk). apply list_elem_of_In, in_concat in Ht as (ts & Hts & Ht).
    apply list_elem_of_In in Hts, Ht. apply list_elem_of_fmap in Hts as (sw & -> & Hsw).
    assert (displayed s w u (streamId sw) t) as Hd by by exists sw.
    apply (inv_display _ _ _ Hi) in Hd as (k' & ti & Hti & <- & Ha).
    apply (mo_ids _ _ _ (inv_maps _ _ _ Hi)) in Hk as [_ (ti' & Hti' & Hid)].
    assert (k = k') as -> by by eapply (mo_unique _ _ _ (inv_maps _ _ _ Hi)).
    by eexists _, _.
  - intros (ti & a & Hti & Ha & <-).
    assert (displayed s w (ta_userId a) (ta_streamId a) (ti_track ti)) as (sw & Hsw & _ & Ht).
    { apply (inv_display _ _ _ Hi). exists k, ti. split_and!; [done|done|]. by destruct a. }
    exists (ti_track ti). split.
    + apply list_elem_of_In, in_concat. eexists. split; apply list_elem_of_In; [|exact Ht].
      by apply (list_elem_of_fmap_2 (λ sw, tracks_of w (stream sw))).
    + apply (mo_ids _ _ _ (inv_maps _ _ _ Hi)). split; [set_solver|]. by exists ti.
Qed.

Lemma known_displayed s w u sw t :
  streams_inv ∅ s w → sw ∈ streams_of s u → t ∈ tracks_of w (stream sw) → known_track s t.
Proof.
  intros Hi Hsw Ht. assert (displayed s w u (streamId sw) t) as Hd by by exists sw.
  apply (inv_display _ _ _ Hi) in Hd as (k & ti & Hti & <- & Ha).
  exists k, ti. split_and!; [|done|done]. apply (mo_ids _ _ _ (inv_maps _ _ _ Hi)).
  split; [set_solver|]. by exists ti.
Qed.

Lemma NoDup_stream_refs s w u :
  streams_ok s w → NoDup ((λ sw, stream_ref (stream sw)) <$> streams_of s u).
Proof.
  intros Hso. pose proof (NoDup_fmap_1 _ _ (so_ids _ _ Hso u)) as Hnd.
  apply NoDup_fmap_2_strong; [|done].
  intros sw1 sw2 H1' H2' Heq. by apply (so_refs _ _ Hso u _ u).
Qed.

Lemma unassociateUserTracks_spec s w u :
  streams_inv ∅ s w →
  ∃ s' w', unassociateUserTracks s u w = (Ok s', w') ∧ streams_inv ∅ s' w' ∧
    same_rest s s' ∧ streams_of s' u = [] ∧
    tracksByPeerIdMid s' = leave u <$> tracksByPeerIdMid s.
Proof.
  intros Hi. pose proof (inv_streams _ _ _ Hi) as Hso.
  pose proof (λ k, keys_of_user s w u k Hi) as Hkeys.
  unfold unassociateUserTracks. destruct (streamsByUserId s !! u) as [usr|] eqn:Hus.
  2: { exists s, w. split_and!; [done..|unfold streams_of; by rewrite Hus|].
       apply map_eq. intros k. rewrite lookup_fmap.
       destruct (tracksByPeerIdMid s !! k) as [ti|] eqn:Hti; [|done]. simpl. f_equal.
       unfold leave. destruct (ti_association ti) as [a|] eqn:Ha; [|done].
       case_decide as Hu; [|done]. exfalso. unfold streams_of in Hkeys. rewrite Hus in Hkeys.
       eapply (not_elem_of_nil k), Hkeys. by eexists _, _. }
  assert (us_streams usr = streams_of s u) as Hl by (unfold streams_of; by rewrite Hus).
  rewrite Hl.
  destruct (unassociate_streams s (streams_of s u) ∅ w) as (acc & w' & Hrun & Hacc & Hw & Hn).
  { by apply NoDup_stream_refs with w. }
  { intros sw t Hsw Ht. by eapply known_displayed. }
  eexists _, w'. split; [rewrite (bind_runs _ _ w acc w'); [reflexivity|exact Hrun]|].
  assert (acc ∪ tracksByPeerIdMid s = leave u <$> tracksByPeerIdMid s) as Hts.
  { apply map_eq. intros k. rewrite lookup_union, Hacc, lookup_empty, lookup_fmap.
    destruct (tracksByPeerIdMid s !! k) as [ti|] eqn:Hti; [|by case_decide].
    case_decide as Hk; simpl.
    - apply Hkeys in Hk as (ti' & a & ? & Ha & Hu). simplify_eq. unfold leave.
      rewrite Ha. by rewrite decide_True.
    - unfold leave. destruct (ti_association ti) as [a|] eqn:Ha; [|done].
      rewrite decide_False; [done|]. intros Hu. apply Hk, Hkeys. by eexists _, _. }
  set (s' := with_tracks _ _ _ _).
  assert (∀ v, streams_of s' v = if decide (v = u) then [] else streams_of s v) as Hs'.
  { intros v. unfold streams_of. simpl. rewrite omit_lookup.
    destruct (decide (v = u)) as [->|Hne].
    - by rewrite decide_True by by apply list_elem_of_singleton.
    - by rewrite decide_False by by intros ->%list_elem_of_singleton. }
  assert (∀ v sw, sw ∈ streams_of s' v → sw ∈ streams_of s v ∧ v ≠ u) as Hin.
  { intros v sw. rewrite Hs'. case_decide; [by intros ?%not_elem_of_nil|done]. }
  assert (∀ v sw, sw ∈ streams_of s' v → tracks_of w' (stream sw) = tracks_of w (stream sw)) as Htr.
  { intros v sw [Hsw Hne]%Hin. apply Hw. intros sw' Hsw' Heq.
    by destruct (so_refs _ _ Hso _ _ _ _ Hsw Hsw' Heq). }
  split_and!; [|done|by rewrite Hs', decide_True|by rewrite <-Hts].
  split.
  - split.
    + intros v us. simpl. rewrite omit_lookup. case_decide; [done|]. apply Hso.
    + intros v. rewrite Hs'. case_decide; [constructor|]. apply Hso.
    + intros v sw Hsw. rewrite (Htr v) by done. apply (so_nonempty _ _ Hso v), Hin, Hsw.
    + intros v sw [Hsw _]%Hin. rewrite Hn. by apply (so_fresh _ _ Hso v).
    + intros v1 sw1 v2 sw2 [? _]%Hin [? _]%Hin. by apply Hso.
  - simpl. rewrite Hts. apply maps_ok_leave, Hi.
  - intros v sid t. simpl. rewrite Hts, associated_leave, <-(inv_display _ _ _ Hi). split.
    + intros (sw & Hsw & <- & Ht). rewrite (Htr v) in Ht by done.
      destruct (Hin v sw Hsw). split; [by exists sw|done].
    + intros [(sw & Hsw & <- & Ht) Hne].
      assert (sw ∈ streams_of s' v) as Hsw' by by rewrite Hs', decide_False.
      exists sw. by rewrite (Htr v).
Qed.
End ops.
