(* ===== verification/StreamsSafety.v ===== *)
(** The streams reducer as a transition system: what users see in every state it
    can reach. *)

From S2P Require Import Prelude Objects InsertableStreams InsertableCodec Actions World Streams StreamsInv StreamsOps.

Section safety.
Context `{Platform} `{Lodash} `{ObjectKeys}.

(** * Steps *)

(** The browser's contract for the actions about remote tracks. *)
Definition valid_action (s : StreamsState) (action : Action) : Prop :=
  match action with
  | AddTrackAction payload => valid_add s payload
  | RemoveTrackAction t =>
      ∀ key ti, trackIdToPeerIdMid s !! track_id t = Some key →
        tracksByPeerIdMid s !! key = Some ti → ti_track ti = t
  | _ => True
  end.

(** Something else happens: the streams on display are not touched. *)
Definition env_step (s : StreamsState) (w w' : World) : Prop :=
  next_stream w ≤ next_stream w' ∧
  ∀ u sw, sw ∈ streams_of s u → tracks_of w' (stream sw) = tracks_of w (stream sw).

(** The state after an action; an exception leaves it as it was. *)
Definition after_action (s : StreamsState) (r : result StreamsState) : StreamsState :=
  match r with Ok s' => s' | Throw _ => s end.

Inductive reachable : StreamsState → World → Prop :=
  | reachable_start w : reachable defaultState w
  | reachable_action s w action r w' :
      reachable s w → valid_action s action → streams s action w = (r, w') →
      reachable (after_action s r) w'
  | reachable_env s w w' : reachable s w → env_step s w w' → reachable s w'.

(** * The invariant is preserved *)

Definition known_keys (s : StreamsState) : Prop := tracksByPeerIdMid s !! "undefined" = None.

Definition state_ok (s : StreamsState) (w : World) : Prop :=
  streams_inv ∅ s w ∧ known_keys s.

(** What an operation may do to the world without touching the display. *)
Definition same_streams (w w' : World) : Prop :=
  stream_tracks w' = stream_tracks w ∧ next_stream w' = next_stream w.

Lemma streams_inv_env D s w w' : streams_inv D s w → env_step s w w' → streams_inv D s w'.
Proof.
  intros [[H1' H2' H3' H4' H5'] Hm Hd] [Hn Hw]. split; [split|done|]; try done.
  - intros u sw Hsw. rewrite (Hw u) by done. by apply (H3' u).
  - intros u sw Hsw. specialize (H4' u sw Hsw). lia.
  - intros u sid t. rewrite <-Hd. split; intros (sw & Hsw & Hid & Ht); exists sw;
      (split_and!; [done|done|]); [by rewrite <-(Hw u)|by rewrite (Hw u)].
Qed.

Lemma same_streams_env s w w' : same_streams w w' → env_step s w w'.
Proof. intros [Hw Hn]. split; [lia|]. intros u sw _. unfold tracks_of. by rewrite Hw. Qed.

Lemma getPeerIdMid_defined u mid : getPeerIdMid u mid ≠ "undefined".
Proof.
  intros Heq. pose proof (has_char_middle ":" u (String ":" mid)) as Hc.
  unfold getPeerIdMid, peerIdMidSeparator in Heq.
  rewrite !string_app_cons, string_app_nil in Heq. rewrite Heq in Hc. by vm_compute in Hc.
Qed.

(** ** Operations on local streams leave the display alone *)

(** [P] holds of the result, if there is one. *)
Definition quiet {A} (P : A → Prop) (m : eff World A) : Prop :=
  ∀ w r w', m w = (r, w') → same_streams w w' ∧ ∀ a, r = Ok a → P a.

Definition any {A} (_ : A) : Prop := True.

Lemma quiet_ret {A} (P : A → Prop) a : P a → quiet P (mret a).
Proof. intros HP w r w' [= <- <-]. split; [done|]. by intros a' [= <-]. Qed.

Lemma quiet_bind {A B} (Q : A → Prop) (P : B → Prop) (m : eff World A) f :
  quiet Q m → (∀ a, Q a → quiet P (f a)) → quiet P (m ≫= f).
Proof.
  intros Hm Hf w r w'. unfold mbind, eff_bind. destruct (m w) as [[a|e] w1] eqn:Hrun.
  - intros Hrun'. destruct (Hm _ _ _ Hrun) as [[? ?] HQ].
    destruct (Hf a (HQ _ eq_refl) _ _ _ Hrun') as [[? ?] HP]. split; [|done].
    split; congruence.
  - intros [= <- <-]. destruct (Hm _ _ _ Hrun) as [? _]. by split.
Qed.

Lemma quiet_gets {A} (f : World → A) : quiet any (gets f).
Proof. by intros w r w' [= <- <-]. Qed.
Lemma quiet_throw {A} (P : A → Prop) e : quiet P (throw e).
Proof. by intros w r w' [= <- <-]. Qed.
Lemma quiet_modify f : (∀ w, same_streams w (f w)) → quiet any (modify f).
Proof. intros Hf w r w' [= <- <-]. by split. Qed.
Lemma quiet_call p c : quiet any (call_peer p c).
Proof. by intros w r w' [= <- <-]. Qed.
Lemma quiet_new_Peer b o : quiet any (new_Peer b o).
Proof. by intros w r w' [= <- <-]. Qed.

Lemma quiet_for_each {A} (f : A → eff World unit) xs :
  (∀ x, quiet any (f x)) → quiet any (for_each f xs).
Proof.
  intros Hf. induction xs as [|x xs IH]; [by apply quiet_ret|].
  apply (quiet_bind any); [apply Hf|done].
Qed.

Lemma quiet_for_map {A B} (f : A → eff World B) xs :
  (∀ x, quiet any (f x)) → quiet any (for_map f xs).
Proof.
  intros Hf. induction xs as [|x xs IH]; [by apply quiet_ret|].
  apply (quiet_bind any); [apply Hf|intros y _].
  apply (quiet_bind any); [done|intros ys _]. by apply quiet_ret.
Qed.
End safety.

Create HintDb quiet.
#[export] Hint Resolve quiet_gets quiet_throw quiet_call quiet_new_Peer : quiet.
#[export] Hint Extern 1 (quiet any (modify _)) => apply quiet_modify; intros; by split : quiet.

(** Goes through the code of an operation. *)
Ltac quiet_step :=
  first
    [ progress eauto with quiet
    | eapply (quiet_bind any); [|intros ? _]
    | apply quiet_for_each; intros
    | apply quiet_for_map; intros
    | apply quiet_ret; by repeat split
    | case_match ].

Section steps.
Context `{Platform} `{Lodash} `{ObjectKeys}.

(** The maps of remote tracks are those of [s]. *)
Definition same_remote (s s' : StreamsState) : Prop :=
  streamsByUserId s' = streamsByUserId s ∧
  trackIdToPeerIdMid s' = trackIdToPeerIdMid s ∧
  tracksByPeerIdMid s' = tracksByPeerIdMid s.

Lemma stopStream_quiet x : quiet any (stopStream x).
Proof. unfold stopStream, revoke_url, getTracks, emit. repeat quiet_step. Qed.

Lemma initializeMediaRecorder_quiet roomID userID x :
  quiet any (initializeMediaRecorder roomID userID x).
Proof.
  unfold initializeMediaRecorder, need_peerInstance, initializePeer. repeat quiet_step.
Qed.

#[local] Hint Resolve stopStream_quiet initializeMediaRecorder_quiet : quiet.

Lemma addLocalStream_quiet s p : quiet (same_remote s) (addLocalStream s p).
Proof.
  unfold addLocalStream, getTracksOf, recordAdditionalStream, array_push. repeat quiet_step.
Qed.
Lemma removeLocalStream_quiet s t : quiet (same_remote s) (removeLocalStream s t).
Proof.
  unfold removeLocalStream, stopRecordAdditionalStream, need_peerInstance, new_array.
  repeat quiet_step.
Qed.
Lemma recordLocalStream_quiet s p : quiet (same_remote s) (recordLocalStream s p).
Proof. unfold recordLocalStream, new_array. repeat quiet_step. Qed.
Lemma stopRecordLocalStream_quiet s : quiet (same_remote s) (stopRecordLocalStream s).
Proof. unfold stopRecordLocalStream, destroy_peerInstance. repeat quiet_step. Qed.
Lemma hangUp_quiet s : quiet (λ s', s' = defaultState) (hangUp s).
Proof.
  unfold hangUp, destroy_peerInstance, stopAllTracks. repeat quiet_step.
Qed.
Lemma setLocalStreamMirror_quiet s p : same_remote s (setLocalStreamMirror s p).
Proof. unfold setLocalStreamMirror. by repeat case_match. Qed.

(** ** Operations on remote tracks *)

(** The association of the track with this id is dropped. *)
Definition drop_track (s : StreamsState) (t : MediaStreamTrack) : gmap string TrackInfo :=
  match trackIdToPeerIdMid s !! track_id t with
  | Some key => alter unassociated key (tracksByPeerIdMid s)
  | None => tracksByPeerIdMid s
  end.

Lemma removeTrack_any s w t :
  state_ok s w → valid_action s (RemoveTrackAction t) →
  ∃ s' w', removeTrack s t w = (Ok s', w') ∧ streams_inv ∅ s' w' ∧ same_rest s s' ∧
    tracksByPeerIdMid s' = drop_track s t.
Proof.
  intros [Hi Hk] Hv. unfold drop_track.
  destruct (trackIdToPeerIdMid s !! track_id t) as [key|] eqn:Hid.
  - pose proof Hid as [_ (ti & Hti & _)]%(mo_ids _ _ _ (inv_maps _ _ _ Hi)).
    assert (alter unassociated key (tracksByPeerIdMid s)
            = <[key := unassociated ti]> (tracksByPeerIdMid s)) as ->.
    { apply map_eq. intros k. destruct (decide (k = key)) as [->|].
      - by rewrite lookup_alter_eq, lookup_insert_eq, Hti.
      - by rewrite lookup_alter_ne, lookup_insert_ne. }
    rewrite <-(Hv _ _ Hid Hti). rewrite <-(Hv _ _ Hid Hti) in Hid.
    destruct (ti_association ti) as [a|] eqn:Ha.
    + destruct (removeTrack_spec ∅ s w key ti a Hi Hti Ha) as (s' & w' & ? & ? & ? & _ & ?).
      by exists s', w'.
    + exists s, w. split_and!; [|done|done|by rewrite unassociated_id, insert_id].
      unfold removeTrack, lookup_key. rewrite Hid. simpl. by rewrite Hti, Ha.
  - exists s, w. split_and!; [|done..].
    unfold removeTrack, lookup_key. rewrite Hid. simpl. by rewrite Hk.
Qed.

Lemma same_remote_ok s s' w : same_remote s s' → state_ok s w → state_ok s' w.
Proof.
  intros (Hu & Hid & Ht) [Hi Hk]. split; [by eapply streams_inv_ext|].
  unfold known_keys. by rewrite Ht.
Qed.

Lemma quiet_ok s w (m : eff World StreamsState) r w' :
  quiet (same_remote s) m → m w = (r, w') → state_ok s w → state_ok (after_action s r) w'.
Proof.
  intros Hq Hrun Hok. destruct (Hq _ _ _ Hrun) as [Hs HP].
  assert (state_ok s w') as Hok'.
  { destruct Hok as [Hi Hk]. split; [|done]. eapply streams_inv_env; [done|].
    by apply same_streams_env. }
  destruct r as [s'|e]; [|done]. simpl. eapply same_remote_ok; [by apply HP|done].
Qed.

Lemma defaultState_ok w : state_ok defaultState w.
Proof.
  assert (∀ u, streams_of defaultState u = []) as Hso by done.
  split; [|done]. split.
  - split; [done|intros; constructor|..]; intros u sw; rewrite ?Hso; try by intros ?%not_elem_of_nil.
    intros u' sw'. rewrite !Hso. by intros ?%not_elem_of_nil.
  - split; [|done|done]. intros id key. split; [done|]. by intros [_ (ti & ? & _)].
  - intros u sid t. split; [by intros (sw & ?%not_elem_of_nil & _)|by intros (k & ti & ? & _)].
Qed.

Lemma after_Ok s (m : eff World StreamsState) w s' w' r w'' :
  m w = (Ok s', w') → m w = (r, w'') → after_action s r = s' ∧ w'' = w'.
Proof. intros -> [= <- <-]. done. Qed.

Lemma streams_action_ok s w action r w' :
  state_ok s w → valid_action s action → streams s action w = (r, w') →
  state_ok (after_action s r) w'.
Proof.
  intros Hok Hv Hrun. pose proof Hok as [Hi Hk].
  destruct action; simpl in Hrun;
    try (injection Hrun as <- <-; done).
  - eapply quiet_ok; [apply removeLocalStream_quiet|done..].
  - destruct (removeTrack_any s w track Hok Hv) as (s' & w1 & Hr & Hi' & _ & Ht).
    destruct (after_Ok s _ _ _ _ _ _ Hr Hrun) as [-> ->]. split; [done|].
    unfold known_keys. rewrite Ht. unfold drop_track. case_match; [|done].
    rewrite lookup_alter. case_decide; [by subst; rewrite Hk|done].
  - destruct (addTrack_spec s w payload Hi Hv) as (s' & w1 & Hr & Hi' & Ht & _ & _).
    destruct (after_Ok s _ _ _ _ _ _ Hr Hrun) as [-> ->]. split; [done|].
    unfold known_keys. rewrite Ht, lookup_insert_ne; [done|]. apply getPeerIdMid_defined.
  - eapply quiet_ok; [apply recordLocalStream_quiet|done..].
  - eapply quiet_ok; [apply stopRecordLocalStream_quiet|done..].
  - destruct (setMetadata_spec s w payload Hi) as (s' & w1 & Hr & Hi' & _ & Ht).
    destruct (after_Ok s _ _ _ _ _ _ Hr Hrun) as [-> ->]. split; [done|].
    destruct (Ht "undefined") as [Ht' _]. rewrite Hk in Ht'. unfold known_keys.
    by destruct (tracksByPeerIdMid s' !! "undefined").
  - destruct action as [|p|e]; simpl in Hrun; try (injection Hrun as <- <-; done).
    eapply quiet_ok; [apply addLocalStream_quiet|done..].
  - destruct action as [|p|e]; simpl in Hrun; injection Hrun as <- <-; try done.
    simpl. eapply same_remote_ok; [apply setLocalStreamMirror_quiet|done].
  - destruct (hangUp_quiet s _ _ _ Hrun) as [Hs HP]. destruct r as [s'|e]; simpl.
    + rewrite (HP s' eq_refl). apply defaultState_ok.
    + split; [|done]. eapply streams_inv_env; [done|]. by apply same_streams_env.
  - destruct (removePeer_spec s w userId Hi) as (s' & w1 & Hr & Hi' & _ & Ht).
    destruct (after_Ok s _ _ _ _ _ _ Hr Hrun) as [-> ->]. split; [done|].
    unfold known_keys. rewrite Ht. by case_match.
  - destruct (unassociateUserTracks_spec s w userId Hi) as (s' & w1 & Hr & Hi' & _ & _ & Ht).
    destruct (after_Ok s _ _ _ _ _ _ Hr Hrun) as [-> ->]. split; [done|].
    unfold known_keys. by rewrite Ht, lookup_fmap, Hk.
Qed.

Lemma reachable_ok s w : reachable s w → state_ok s w.
Proof.
  induction 1 as [w|s w action r w' _ IH Hv Hrun|s w w' _ [Hi Hk] Henv].
  - apply defaultState_ok.
  - by eapply streams_action_ok.
  - split; [by eapply streams_inv_env|done].
Qed.

(** * Theorems *)

(** C14. In every reachable state a track is on display for a user, in a stream,
    exactly when it is associated with that user and stream; so it is displayed
    in at most one place, and no displayed stream or user entry is empty. *)
Theorem display_is_association s w :
  reachable s w →
  (∀ u sid t, displayed s w u sid t ↔ associated (tracksByPeerIdMid s) u sid t) ∧
  (∀ u sid u' sid' t, displayed s w u sid t → displayed s w u' sid' t → u = u' ∧ sid = sid') ∧
  (∀ u us, streamsByUserId s !! u = Some us →
     us_streams us ≠ [] ∧ ∀ sw, sw ∈ us_streams us → tracks_of w (stream sw) ≠ []).
Proof.
  intros [Hi _]%reachable_ok. split_and!; [apply Hi| |].
  - intros u sid u' sid' t. rewrite !(inv_display _ _ _ Hi).
    apply (associated_unique _ _ _ _ _ _ _ _ (inv_maps _ _ _ Hi)).
  - intros u us Hus. destruct (so_users _ _ (inv_streams _ _ _ Hi) _ _ Hus) as [_ Hne].
    split; [done|]. intros sw Hsw. apply (so_nonempty _ _ (inv_streams _ _ _ Hi) u).
    unfold streams_of. by rewrite Hus.
Qed.

(** C17. Metadata decides: in every reachable state a metadata action succeeds,
    and afterwards a track is displayed for a user in a stream exactly when it
    had been announced by some peer at some [mid] and the last metadata entry for
    that [mid] of that peer names that user and stream. *)
Theorem metadata_decides s w payload :
  reachable s w →
  ∃ s' w', streams s (TracksMetadataAction payload) w = (Ok s', w') ∧
    ∀ u sid t, displayed s' w' u sid t ↔
      ∃ key ti m,
        tracksByPeerIdMid s !! key = Some ti ∧ ti_track ti = t ∧
        last (filter (λ m, getPeerIdMid (mp_userId payload) (tm_mid m) = key)
                (mp_metadata payload)) = Some m ∧
        tm_userId m = u ∧ tm_streamId m = sid.
Proof.
  intros [Hi _]%reachable_ok.
  destruct (setMetadata_spec s w payload Hi) as (s' & w' & Hrun & Hi' & _ & Hal).
  exists s', w'. split; [done|]. intros u sid t. rewrite (inv_display _ _ _ Hi'). split.
  - intros (key & ti' & Hti' & <- & Ha). destruct (Hal key) as [Ht Ha'].
    rewrite (Ha' _ Hti'), keyBy_lookup in Ha. rewrite Hti' in Ht.
    destruct (tracksByPeerIdMid s !! key) as [ti|] eqn:Hti; [|done].
    destruct (last _) as [m|] eqn:Hm; [|done]. injection Ht as Ht.
    exists key, ti, m. unfold assoc_of in Ha. simpl in Ha. split_and!; congruence.
  - intros (key & ti & m & Hti & <- & Hm & <- & <-). destruct (Hal key) as [Ht Ha'].
    rewrite Hti in Ht. destruct (tracksByPeerIdMid s' !! key) as [ti'|] eqn:Hti'; [|done].
    injection Ht as Ht. exists key, ti'. split_and!; [done|done|].
    rewrite (Ha' _ eq_refl), keyBy_lookup, Hm. done.
Qed.

(** Removing a track takes exactly that track off display. *)
Theorem removed_track_gone s w t :
  reachable s w → valid_action s (RemoveTrackAction t) →
  ∃ s' w', streams s (RemoveTrackAction t) w = (Ok s', w') ∧
    ∀ u sid x, displayed s' w' u sid x ↔ displayed s w u sid x ∧ x ≠ t.
Proof.
  intros Hr Hv. pose proof (reachable_ok _ _ Hr) as [Hi Hk].
  destruct (removeTrack_any s w t (conj Hi Hk) Hv) as (s' & w' & Hrun & Hi' & _ & Ht).
  exists s', w'. split; [done|]. intros u sid x.
  rewrite (inv_display _ _ _ Hi'), (inv_display _ _ _ Hi), Ht. unfold drop_track.
  destruct (trackIdToPeerIdMid s !! track_id t) as [key|] eqn:Hid.
  - pose proof Hid as [_ (ti & Hti & _)]%(mo_ids _ _ _ (inv_maps _ _ _ Hi)).
    rewrite <-(Hv _ _ Hid Hti).
    rewrite <-(associated_insert_None _ key) by
      (done || by (intros; eapply (mo_unique _ _ _ (inv_maps _ _ _ Hi)))).
    unfold associated.
    split; intros (k & ti' & Hl & ?); exists k, ti'; (split; [|done]); revert Hl;
      rewrite lookup_alter, lookup_insert; case_decide; subst; try rewrite Hti; done.
  - split; [|by intros [? _]]. intros Ha. split; [done|]. intros ->.
    destruct Ha as (k & ti & Hti & <- & _).
    assert (trackIdToPeerIdMid s !! track_id (ti_track ti) = Some k); [|congruence].
    apply (mo_ids _ _ _ (inv_maps _ _ _ Hi)). split; [set_solver|by exists ti].
Qed.

(** When a user leaves, in every reachable state, the action succeeds, exactly
    that user's streams go off display, and every track stays known at its
    [mid], to be associated again by later metadata. *)
Theorem user_leaves s w u :
  reachable s w →
  ∃ s' w', streams s (NicknameRemoveAction u) w = (Ok s', w') ∧
    (∀ v sid t, displayed s' w' v sid t ↔ displayed s w v sid t ∧ v ≠ u) ∧
    (∀ key, ti_track <$> tracksByPeerIdMid s' !! key
            = ti_track <$> tracksByPeerIdMid s !! key).
Proof.
  intros [Hi _]%reachable_ok.
  destruct (unassociateUserTracks_spec s w u Hi) as (s' & w' & Hrun & Hi' & _ & _ & Ht).
  exists s', w'. split_and!; [done| |].
  - intros v sid t.
    by rewrite (inv_display _ _ _ Hi'), (inv_display _ _ _ Hi), Ht, associated_leave.
  - intros key. rewrite Ht, lookup_fmap.
    destruct (tracksByPeerIdMid s !! key); simpl; [by rewrite leave_track|done].
Qed.

(** C20. When a peer is removed, in every reachable state, the action succeeds,
    nothing is known about tracks at keys of that peer any more, and exactly
    their tracks go off display. *)
Theorem removed_peer_gone s w userId :
  reachable s w →
  ∃ s' w', streams s (RemovePeerAction userId) w = (Ok s', w') ∧
    (∀ key, of_peer userId key = true →
       tracksByPeerIdMid s' !! key = None ∧
       ∀ id, trackIdToPeerIdMid s' !! id ≠ Some key) ∧
    (∀ v sid t, displayed s' w' v sid t ↔
       displayed s w v sid t ∧
       ¬ ∃ key ti, of_peer userId key = true ∧
           tracksByPeerIdMid s !! key = Some ti ∧ ti_track ti = t).
Proof.
  intros [Hi _]%reachable_ok.
  destruct (removePeer_spec s w userId Hi) as (s' & w' & Hrun & Hi' & _ & Ht).
  exists s', w'. split_and!; [done| |].
  - intros key Hp. assert (tracksByPeerIdMid s' !! key = None) as Hn by by rewrite Ht, Hp.
    split; [done|]. intros id [_ (ti & Hti & _)]%(mo_ids _ _ _ (inv_maps _ _ _ Hi')). congruence.
  - intros v sid t. rewrite (inv_display _ _ _ Hi'), (inv_display _ _ _ Hi). split.
    + intros (key & ti & Hti & <- & Ha). rewrite Ht in Hti.
      destruct (of_peer userId key) eqn:Hp; [done|]. split; [by exists key, ti|].
      intros (key' & ti' & Hp' & Hti' & Heq).
      assert (key' = key) as ->; [|congruence].
      eapply (mo_unique _ _ _ (inv_maps _ _ _ Hi)); [done..|by rewrite Heq].
    + intros [(key & ti & Hti & <- & Ha) Hno]. exists key, ti. split_and!; [|done..].
      rewrite Ht. destruct (of_peer userId key) eqn:Hp; [|done]. destruct Hno. by exists key, ti.
Qed.
End steps.

(** * Instances *)

#[local] Existing Instance some_platform.
#[local] Existing Instance some_lodash.
#[local] Existing Instance some_object_keys.

Definition demo_track : MediaStreamTrack :=
  {| track_ref := 1; track_id := "t1"; track_kind := video; track_label := "" |}.

(** The SFU announces a track at [mid] 0. *)
Definition demo_add : Action :=
  AddTrackAction {| at_mid := "0"; at_streamId := "s"; at_userId := "sfu"; at_track := demo_track |}.
Definition demo_run := streams defaultState demo_add empty_world.
Definition demo_state : StreamsState := after_action defaultState demo_run.1.
Definition demo_world : World := demo_run.2.

Lemma demo_reachable : reachable demo_state demo_world.
Proof.
  apply (reachable_action defaultState empty_world demo_add).
  - apply reachable_start.
  - split; by intros.
  - apply surjective_pairing.
Qed.

Definition demo_metadata : MetadataPayload :=
  {| mp_userId := "sfu"; mp_metadata :=
      [{| tm_mid := "0"; tm_kind := "video"; tm_userId := "alice"; tm_streamId := "cam" |}] |}.

Lemma display_is_association_witness :
  (∀ u sid t, displayed demo_state demo_world u sid t ↔
     associated (tracksByPeerIdMid demo_state) u sid t) ∧
  (∀ u sid u' sid' t, displayed demo_state demo_world u sid t →
     displayed demo_state demo_world u' sid' t → u = u' ∧ sid = sid') ∧
  (∀ u us, streamsByUserId demo_state !! u = Some us →
     us_streams us ≠ [] ∧ ∀ sw, sw ∈ us_streams us → tracks_of demo_world (stream sw) ≠ []).
Proof. apply display_is_association. exact demo_reachable. Defined.

Lemma metadata_decides_witness :
  ∃ s' w', streams demo_state (TracksMetadataAction demo_metadata) demo_world = (Ok s', w') ∧
    ∀ u sid t, displayed s' w' u sid t ↔
      ∃ key ti m,
        tracksByPeerIdMid demo_state !! key = Some ti ∧ ti_track ti = t ∧
        last (filter (λ m, getPeerIdMid (mp_userId demo_metadata) (tm_mid m) = key)
                (mp_metadata demo_metadata)) = Some m ∧
        tm_userId m = u ∧ tm_streamId m = sid.
Proof. apply metadata_decides. exact demo_reachable. Defined.

Lemma removed_track_gone_witness :
  ∃ s' w', streams demo_state (RemoveTrackAction demo_track) demo_world = (Ok s', w') ∧
    ∀ u sid x, displayed s' w' u sid x ↔
      displayed demo_state demo_world u sid x ∧ x ≠ demo_track.
Proof.
  apply removed_track_gone; [exact demo_reachable|].
  intros key ti Hk Ht. vm_compute in Hk. injection Hk as <-.
  vm_compute in Ht. injection Ht as <-. reflexivity.
Defined.

Lemma user_leaves_witness :
  ∃ s' w', streams demo_state (NicknameRemoveAction "sfu") demo_world = (Ok s', w') ∧
    (∀ v sid t, displayed s' w' v sid t ↔
       displayed demo_state demo_world v sid t ∧ v ≠ "sfu") ∧
    (∀ key, ti_track <$> tracksByPeerIdMid s' !! key
            = ti_track <$> tracksByPeerIdMid demo_state !! key).
Proof. apply user_leaves. exact demo_reachable. Defined.

Lemma removed_peer_gone_witness :
  ∃ s' w', streams demo_state (RemovePeerAction "sfu") demo_world = (Ok s', w') ∧
    (∀ key, of_peer "sfu" key = true →
       tracksByPeerIdMid s' !! key = None ∧
       ∀ id, trackIdToPeerIdMid s' !! id ≠ Some key) ∧
    (∀ v sid t, displayed s' w' v sid t ↔
       displayed demo_state demo_world v sid t ∧
       ¬ ∃ key ti, of_peer "sfu" key = true ∧
           tracksByPeerIdMid demo_state !! key = Some ti ∧ ti_track ti = t).
Proof. apply removed_peer_gone. exact demo_reachable. Defined.
