(* ===== verification/StreamsLocal.v ===== *)
(** The streams reducer: local streams, hanging up and recording. *)

From S2P Require Import Prelude Objects InsertableStreams InsertableCodec Actions World Streams StreamsInv StreamsSafety.

Section local.
Context `{Platform} `{Lodash} `{ObjectKeys}.

(** * What stopping a stream does *)

Definition add_effects (es : list Effect) (w : World) : World := set_effects (λ l, l ++ es) w.

Lemma add_effects_app es1 es2 w :
  add_effects es2 (add_effects es1 w) = add_effects (es1 ++ es2) w.
Proof. unfold add_effects, set_effects. simpl. by rewrite (assoc_L (++)). Qed.

Lemma add_effects_nil w : add_effects [] w = w.
Proof. destruct w. unfold add_effects, set_effects. simpl. by rewrite app_nil_r. Qed.

(** An operation whose only effects are [e w]. *)
Definition emits (m : eff World unit) (e : World → list Effect) : Prop :=
  ∀ w, m w = (Ok tt, add_effects (e w) w).

(** [e] does not depend on the effects so far. *)
Definition steady (e : World → list Effect) : Prop := ∀ es w, e (add_effects es w) = e w.

Lemma emits_bind m1 m2 e1 e2 :
  emits m1 e1 → emits m2 e2 → steady e2 → emits (m1 ≫= λ _, m2) (λ w, e1 w ++ e2 w).
Proof.
  intros H1' H2' Hs w. rewrite (bind_runs _ _ _ _ _ (H1' w)), H2', Hs.
  by rewrite add_effects_app.
Qed.

Lemma emits_for_each {A} (f : A → eff World unit) (e : A → World → list Effect) xs :
  (∀ x, emits (f x) (e x)) → (∀ x, steady (e x)) →
  emits (for_each f xs) (λ w, concat ((λ x, e x w) <$> xs)).
Proof.
  intros Hf Hs. induction xs as [|x xs IH]; intros w; [cbn; by rewrite add_effects_nil|].
  cbn [for_each fmap list_fmap concat].
  rewrite (bind_runs _ _ _ _ _ (Hf x w)), IH.
  rewrite add_effects_app.
  assert ((λ y, e y (add_effects (e x w) w)) <$> xs = (λ y, e y w) <$> xs) as ->; [|done].
  apply list_fmap_ext. intros i y _. apply Hs.
Qed.

Definition revoke_effects (x : StreamWithURL) : list Effect :=
  match url x with
  | Some u => if decide (u = "") then [] else [ObjectURLRevoked u]
  | None => []
  end.

Definition stop_effects (x : StreamWithURL) (w : World) : list Effect :=
  concat ((λ t, [TrackStopped t; TrackHandlersCleared t]) <$> tracks_of w (stream x))
  ++ revoke_effects x.

Lemma stop_effects_steady x : steady (stop_effects x).
Proof. done. Qed.

Lemma stopStream_emits x : emits (stopStream x) (stop_effects x).
Proof.
  intros w. unfold stopStream. rewrite (bind_runs _ _ w (tracks_of w (stream x)) w) by done.
  assert (∀ t, emits (emit (TrackStopped t) ≫= λ _, emit (TrackHandlersCleared t))
                 (λ _, [TrackStopped t; TrackHandlersCleared t])) as Ht.
  { intros t w'. unfold emit, modify, mbind, eff_bind. unfold add_effects, set_effects.
    simpl. by rewrite <-(assoc_L (++)). }
  rewrite (bind_runs _ _ _ _ _ (emits_for_each _ (λ t _, _) _ Ht (λ _ _ _, eq_refl) w)).
  unfold revoke_url, stop_effects, revoke_effects. rewrite <-add_effects_app.
  destruct (url x) as [u|]; [case_decide|]; (reflexivity || by rewrite add_effects_nil).
Qed.

Lemma stop_effects_stopped x w t : t ∈ tracks_of w (stream x) → TrackStopped t ∈ stop_effects x w.
Proof.
  intros Ht. unfold stop_effects. apply elem_of_app. left.
  apply list_elem_of_In, in_concat. eexists. split; apply list_elem_of_In.
  - by apply (list_elem_of_fmap_2 (λ t, [TrackStopped t; TrackHandlersCleared t])).
  - by left.
Qed.

Lemma elem_of_concat_fmap {A B} (f : A → list B) (l : list A) a b :
  a ∈ l → b ∈ f a → b ∈ concat (f <$> l).
Proof.
  intros Ha Hb. apply list_elem_of_In, in_concat. exists (f a).
  split; apply list_elem_of_In; [by apply list_elem_of_fmap_2|done].
Qed.

(** * Hanging up *)

(** What stopping the local streams and the streams on display does. *)
Definition local_stops (s : StreamsState) (w : World) : list Effect :=
  concat ((λ x, stop_effects (ls_stream x.2) w) <$> object_entries (localStreams s)).
Definition remote_stops (s : StreamsState) (w : World) : list Effect :=
  concat ((λ x, concat ((λ sw, stop_effects sw w) <$> us_streams x.2)) <$>
          object_entries (streamsByUserId s)).

(** [peerInstance?.destroy()] *)
Definition destroy_effects (w : World) : list Effect :=
  match peerInstance w with Some p => [PeerCalled p p_destroy] | None => [] end.

Lemma hangUp_run s w :
  (∀ p, peerInstance w = Some p → ∃ n, peer_call (effects w) p p_destroy = Ok n) →
  hangUp s w = (Ok defaultState,
    add_effects (destroy_effects w ++ local_stops s w ++ remote_stops s w) w).
Proof.
  intros Hd. unfold hangUp.
  assert (destroy_peerInstance w = (Ok tt, add_effects (destroy_effects w) w)) as Hrun1.
  { unfold destroy_peerInstance, destroy_effects, gets, mbind, eff_bind.
    destruct (peerInstance w) as [p|] eqn:Hp; [|by rewrite add_effects_nil].
    destruct (Hd p eq_refl) as [n Hn]. unfold call_peer. by rewrite Hn. }
  assert (emits (for_each (λ '(_, ls), stopStream (ls_stream ls)) (object_entries (localStreams s)))
            (local_stops s)) as Hl.
  { apply (emits_for_each _ (λ x, stop_effects (ls_stream x.2)));
      [intros [k ls]; apply stopStream_emits|done]. }
  assert (emits (for_each (λ '(_, us), stopAllTracks (us_streams us))
                   (object_entries (streamsByUserId s))) (remote_stops s)) as Hu.
  { apply (emits_for_each _ (λ x w, concat ((λ sw, stop_effects sw w) <$> us_streams x.2)));
      [|done]. intros [k us].
    apply (emits_for_each stopStream stop_effects); [apply stopStream_emits|done]. }
  rewrite (bind_runs _ _ _ _ _ Hrun1), (bind_runs _ _ _ _ _ (Hl _)), (bind_runs _ _ _ _ _ (Hu _)).
  by rewrite !add_effects_app.
Qed.

Lemma local_stops_elem s w key ls t :
  localStreams s !! key = Some ls → t ∈ tracks_of w (stream (ls_stream ls)) →
  TrackStopped t ∈ local_stops s w.
Proof.
  intros Hls Ht. apply (elem_of_concat_fmap _ _ (key, ls)); [by apply elem_of_object_entries|].
  by apply stop_effects_stopped.
Qed.

Lemma remote_stops_elem s w u sid t : displayed s w u sid t → TrackStopped t ∈ remote_stops s w.
Proof.
  intros (sw & Hsw & _ & Ht). unfold streams_of in Hsw.
  destruct (streamsByUserId s !! u) as [us|] eqn:Hus; [|by apply not_elem_of_nil in Hsw].
  apply (elem_of_concat_fmap _ _ (u, us)); [by apply elem_of_object_entries|].
  apply (elem_of_concat_fmap (λ sw, stop_effects sw _) _ sw); [done|].
  by apply stop_effects_stopped.
Qed.

Lemma elem_of_concat_inv {A B} (f : A → list B) (l : list A) b :
  b ∈ concat (f <$> l) → ∃ a, a ∈ l ∧ b ∈ f a.
Proof.
  intros (x & Hx & Hb)%list_elem_of_In%in_concat. apply list_elem_of_In in Hx, Hb.
  apply list_elem_of_fmap in Hx as (a & -> & Ha). by exists a.
Qed.

Lemma stop_effects_inv x w t : TrackStopped t ∈ stop_effects x w → t ∈ tracks_of w (stream x).
Proof.
  unfold stop_effects, revoke_effects.
  intros [(t' & Ht' & Hin)%elem_of_concat_inv|Hin]%elem_of_app.
  - apply elem_of_cons in Hin as [[= ->]|[?|?%not_elem_of_nil]%elem_of_cons]; done.
  - destruct (url x); [case_decide|]; by repeat (apply elem_of_cons in Hin as [?|Hin] || apply not_elem_of_nil in Hin).
Qed.

Lemma remote_stops_inv s w t : TrackStopped t ∈ remote_stops s w → ∃ u sid, displayed s w u sid t.
Proof.
  intros ([u us] & Hus%elem_of_object_entries & (sw & Hsw & Ht%stop_effects_inv)%elem_of_concat_inv)
    %elem_of_concat_inv.
  exists u, (streamId sw), sw. split_and!; [|done|done]. unfold streams_of. by rewrite Hus.
Qed.

(** What adding a local stream does while nothing is recorded. *)
Definition new_local (w : World) (payload : AddLocalStreamPayload) : LocalStream := {|
  ls_stream := {| stream := als_stream payload; streamId := stream_id (als_stream payload);
                  url := safeCreateObjectURL (als_stream payload) |};
  ls_type := als_type payload;
  ls_mirror := bool_decide (als_type payload = StreamTypeCamera) &&
    match js_find (λ t, notMirroredRegexp_test (track_label t) = false)
            (filter (λ t, track_kind t = video) (tracks_of w (als_stream payload))) with
    | Some _ => true | None => false
    end |}.

Definition replaced_effects (s : StreamsState) (type : StreamType) (w : World) : list Effect :=
  match localStreams s !! stream_type_key type with
  | Some old => stop_effects (ls_stream old) w
  | None => []
  end.

Lemma addLocalStream_run s w payload :
  isRecording s = false →
  addLocalStream s payload w =
  (Ok (with_localStreams (<[stream_type_key (als_type payload) := new_local w payload]>
         (localStreams s)) (localRecorders s) s),
   add_effects (replaced_effects s (als_type payload) w) w).
Proof.
  intros Hrec. unfold addLocalStream.
  erewrite (bind_runs (getTracksOf _ _)) by reflexivity. unfold replaced_effects.
  destruct (localStreams s !! stream_type_key (als_type payload)) as [old|] eqn:Ho.
  - rewrite (bind_runs _ _ _ _ _ (stopStream_emits (ls_stream old) w)). by rewrite Hrec.
  - rewrite add_effects_nil, (bind_runs _ _ w tt w) by done. by rewrite Hrec.
Qed.

Lemma new_local_mirror w payload :
  ls_mirror (new_local w payload) = true ↔ als_type payload = StreamTypeCamera ∧
    ∃ t, t ∈ tracks_of w (als_stream payload) ∧ track_kind t = video ∧
         notMirroredRegexp_test (track_label t) = false.
Proof.
  unfold new_local. cbn [ls_mirror]. set (ts := filter _ _). destruct (js_find _ ts) as [t|] eqn:Hf.
  - apply js_find_Some in Hf as [Hb Ht]. apply list_elem_of_filter in Ht as [Hk Ht].
    rewrite andb_true_r, bool_decide_eq_true. split; [intros ->|by intros [? _]].
    split; [done|]. by exists t.
  - rewrite andb_false_r. split; [done|]. intros [_ (t & Ht & Hk & Hb)].
    destruct (js_find_None _ _ t Hf); [by apply list_elem_of_filter|done].
Qed.

(** * Theorems *)

(** Hanging up, unless destroying the recording peer fails, resets the state
    and stops every track of every local stream and every track on display. *)
Theorem hang_up_stops_tracks s w :
  (∀ p, peerInstance w = Some p → ∃ n, peer_call (effects w) p p_destroy = Ok n) →
  ∃ w', streams s HangUpAction w = (Ok defaultState, w') ∧
    (∀ key ls t, localStreams s !! key = Some ls → t ∈ tracks_of w (stream (ls_stream ls)) →
       TrackStopped t ∈ effects w') ∧
    (∀ u sid t, displayed s w u sid t → TrackStopped t ∈ effects w').
Proof.
  intros Hd. eexists. split; [by apply hangUp_run|]. split.
  - intros key ls t Hls Ht. simpl. rewrite !elem_of_app. right. right. left.
    by eapply local_stops_elem.
  - intros u sid t Ht. simpl. rewrite !elem_of_app. right. right. right.
    by eapply remote_stops_elem.
Qed.

(** While not recording, a new local stream always replaces the one of its
    type - whose tracks are stopped - and no other; it is mirrored if it is a
    camera with a video track that does not face back. *)
Theorem local_stream_replaced s w type m :
  isRecording s = false →
  ∃ s' w' ls, streams s (MediaStreamAction (resolved {| als_type := type; als_stream := m |})) w
      = (Ok s', w') ∧
    localStreams s' = <[stream_type_key type := ls]> (localStreams s) ∧
    stream (ls_stream ls) = m ∧ ls_type ls = type ∧
    (ls_mirror ls = true ↔ type = StreamTypeCamera ∧
       ∃ t, t ∈ tracks_of w m ∧ track_kind t = video ∧
            notMirroredRegexp_test (track_label t) = false) ∧
    (∀ old t, localStreams s !! stream_type_key type = Some old →
       t ∈ tracks_of w (stream (ls_stream old)) → TrackStopped t ∈ effects w').
Proof.
  intros Hrec. cbn [streams]. rewrite addLocalStream_run by done.
  eexists _, _, _. split_and!; [done..|exact (new_local_mirror w _)|].
  intros old t Hold Ht. unfold replaced_effects. cbn [als_type]. rewrite Hold. simpl.
  apply elem_of_app. right. by apply stop_effects_stopped.
Qed.

(** ** Recording is toggled, not set *)

(** The recording peers made for the local streams. *)
Definition recorders_made (base : nat) (ls : list (string * LocalStream)) : list Effect :=
  imap (λ i '(_, s), PeerCreated (base + i) true (Some (stream (ls_stream s)))) ls.

Lemma elem_of_recorders_made base ls k s :
  (k, s) ∈ ls → ∃ n, base ≤ n ∧ PeerCreated n true (Some (stream (ls_stream s))) ∈ recorders_made base ls.
Proof.
  intros [i Hi]%list_elem_of_lookup. exists (base + i). split; [lia|].
  apply elem_of_lookup_imap. by exists i, (k, s).
Qed.

(** Starting with a room: one peer per local stream, and the array of their ids. *)
Lemma recordLocalStream_run s w p :
  roomID p ≠ "" →
  ∃ s' w', recordLocalStream s p w = (Ok s', w') ∧
    isRecording s' = negb (isRecording s) ∧ localStreams s' = localStreams s ∧
    next_peer w' = next_peer w + length (object_entries (localStreams s)) ∧
    isRecording_var w' = true ∧ stream_tracks w' = stream_tracks w ∧
    effects w' = effects w ++ recorders_made (next_peer w) (object_entries (localStreams s)).
Proof.
  intros Hroom. unfold recordLocalStream.
  assert (∀ l : list (string * LocalStream), ∀ w0, ∃ ids w1,
    for_map (λ '(_, s), initializeMediaRecorder (roomID p) (userID p) (stream (ls_stream s))) l w0
    = (Ok ids, w1) ∧ next_peer w1 = next_peer w0 + length l ∧
      stream_tracks w1 = stream_tracks w0 ∧
      effects w1 = effects w0 ++ recorders_made (next_peer w0) l) as Hmap.
  { induction l as [|[k ls] l IH]; intros w0;
      [exists [], w0; split_and!; [done|simpl; lia|done|by rewrite app_nil_r]|].
    cbn [for_map]. unfold initializeMediaRecorder. rewrite decide_False by (by intros [? _]).
    match goal with |- context [for_map ?f l] => set (g := f) in * end.
    edestruct IH as (ids & w1 & Hids & Hn & Ht & He).
    eexists _, w1. split_and!.
    - erewrite bind_runs; [|reflexivity]. erewrite bind_runs; [|exact Hids]. reflexivity.
    - rewrite Hn. simpl. lia.
    - by rewrite Ht.
    - rewrite He. unfold recorders_made. cbn [imap]. rewrite Nat.add_0_r. simpl.
      rewrite <-(assoc_L (++)). do 2 f_equal. apply imap_ext.
      intros i [k' s'] _. simpl. by rewrite Nat.add_succ_r. }
  destruct (Hmap (object_entries (localStreams s)) w) as (ids & w1 & Hids & Hn & Ht & He).
  rewrite (bind_runs _ _ _ _ _ Hids).
  eexists _, _. split; [reflexivity|]. done.
Qed.

(** Starting a recording twice ends it: with two listeners for the server's
    message the state says "not recording" although a recording peer was created
    for each local stream, twice. *)
Theorem double_record_stops s w p :
  roomID p ≠ "" →
  ∃ s1 w1 s2 w2, streams s (RecordLocalStreamAction p) w = (Ok s1, w1) ∧
    streams s1 (RecordLocalStreamAction p) w1 = (Ok s2, w2) ∧
    isRecording s2 = isRecording s ∧ isRecording_var w2 = true ∧
    next_peer w2 = next_peer w + 2 * length (object_entries (localStreams s)).
Proof.
  intros Hroom.
  destruct (recordLocalStream_run s w p Hroom) as (s1 & w1 & H1' & Hr1 & Hl1 & Hn1 & _).
  destruct (recordLocalStream_run s1 w1 p Hroom) as (s2 & w2 & H2' & Hr2 & _ & Hn2 & Hv2 & _).
  exists s1, w1, s2, w2. split_and!; [done|done| |done|].
  - by rewrite Hr2, Hr1, negb_involutive.
  - rewrite Hn2, Hl1, Hn1. lia.
Qed.

(** A stop that arrives while nothing is recorded (and no recording was ever
    started) makes the state say "recording", and the next local stream is lost:
    the reducer throws. *)
Theorem stray_stop_breaks_local_streams s w p :
  isRecording s = false → peerInstance w = None →
  ∃ s1 w1 w2, streams s StopRecordLocalStreamAction w = (Ok s1, w1) ∧
    isRecording s1 = true ∧
    streams s1 (MediaStreamAction (resolved p)) w1 = (Throw TypeError, w2).
Proof.
  intros Hrec Hp. cbn [streams].
  assert (stopRecordLocalStream s w =
    (Ok (with_recording (localRecorders s) (streamsRecordUrl s) true s),
     set_isRecording_var false w)) as Hstop.
  { unfold stopRecordLocalStream, destroy_peerInstance, gets, mbind, eff_bind.
    rewrite Hp. simpl. by rewrite Hrec. }
  rewrite Hstop. set (s1 := with_recording _ _ _ _). set (w1 := set_isRecording_var _ _).
  assert (∃ w2, addLocalStream s1 p w1 = (Throw TypeError, w2)) as [w2 Hadd];
    [|by exists s1, w1, w2].
  unfold addLocalStream.
  rewrite (bind_runs _ _ w1 (filter (λ t, track_kind t = video) (tracks_of w1 (als_stream p))) w1)
    by done.
  match goal with |- context [match ?o with Some _ => _ | None => mret tt end ≫= _] =>
    assert (∃ w', (match o with Some x => stopStream (ls_stream x) | None => mret tt end) w1
            = (Ok tt, w') ∧ peerInstance w' = None) as (w' & Hrun & Hp') end.
  { change (localStreams s1) with (localStreams s).
    destruct (localStreams s !! _) as [old|]; [|by eexists].
    eexists. split; [apply stopStream_emits|done]. }
  rewrite (bind_runs _ _ _ _ _ Hrun). simpl.
  unfold recordAdditionalStream, initializeMediaRecorder. rewrite decide_True by done.
  unfold need_peerInstance, gets, mbind, eff_bind. rewrite Hp'. simpl. by eexists.
Qed.
End local.

(** * Instances *)

#[local] Existing Instance some_platform.
#[local] Existing Instance some_lodash.
#[local] Existing Instance some_object_keys.

Definition demo_payload : RecordLocalStreamPayload :=
  {| recordUrl := "url/room/me"; roomID := "room"; userID := "me" |}.

Lemma hang_up_stops_tracks_witness :
  ∃ w', streams demo_state HangUpAction demo_world = (Ok defaultState, w') ∧
    (∀ key ls t, localStreams demo_state !! key = Some ls →
       t ∈ tracks_of demo_world (stream (ls_stream ls)) → TrackStopped t ∈ effects w') ∧
    (∀ u sid t, displayed demo_state demo_world u sid t → TrackStopped t ∈ effects w').
Proof. apply hang_up_stops_tracks. intros p Hp. vm_compute in Hp. discriminate. Defined.

Lemma local_stream_replaced_witness :
  let m := {| stream_ref := 0; stream_id := "local" |} in
  ∃ s' w' ls, streams demo_state
      (MediaStreamAction (resolved {| als_type := StreamTypeCamera; als_stream := m |})) demo_world
      = (Ok s', w') ∧
    localStreams s' = <["camera" := ls]> (localStreams demo_state) ∧
    stream (ls_stream ls) = m ∧ ls_type ls = StreamTypeCamera ∧
    (ls_mirror ls = true ↔ StreamTypeCamera = StreamTypeCamera ∧
       ∃ t, t ∈ tracks_of demo_world m ∧ track_kind t = video ∧
            notMirroredRegexp_test (track_label t) = false) ∧
    (∀ old t, localStreams demo_state !! "camera" = Some old →
       t ∈ tracks_of demo_world (stream (ls_stream old)) → TrackStopped t ∈ effects w').
Proof. intros m. apply (local_stream_replaced demo_state demo_world StreamTypeCamera m). reflexivity. Defined.

Lemma double_record_stops_witness :
  ∃ s1 w1 s2 w2,
    streams demo_state (RecordLocalStreamAction demo_payload) demo_world = (Ok s1, w1) ∧
    streams s1 (RecordLocalStreamAction demo_payload) w1 = (Ok s2, w2) ∧
    isRecording s2 = isRecording demo_state ∧ isRecording_var w2 = true ∧
    next_peer w2 = next_peer demo_world + 2 * length (object_entries (localStreams demo_state)).
Proof. apply double_record_stops. discriminate. Defined.

Lemma stray_stop_breaks_local_streams_witness :
  let p := {| als_type := StreamTypeCamera;
              als_stream := {| stream_ref := 0; stream_id := "local" |} |} in
  ∃ s1 w1 w2, streams demo_state StopRecordLocalStreamAction demo_world = (Ok s1, w1) ∧
    isRecording s1 = true ∧
    streams s1 (MediaStreamAction (resolved p)) w1 = (Throw TypeError, w2).
Proof. intros p. apply stray_stop_breaks_local_streams; vm_compute; reflexivity. Defined.
