(* ===== verification/StreamsFresh.v ===== *)
(** The streams on display are objects the reducer has made itself: it never shows
    one of the streams the rest of the page works on. *)

From S2P Require Import Prelude Objects InsertableStreams Actions World Logic Streams StreamsInv StreamsSafety.

Section fresh.
Context `{Platform} `{Lodash} `{ObjectKeys}.
(** The streams of the rest of the page. *)
Context (L : nat → Prop).

(** They exist already. *)
Definition below (w : World) : Prop := ∀ r, L r → r < next_stream w.

(** None of them is on display. *)
Definition apart (s : StreamsState) : Prop :=
  ∀ u sw, sw ∈ streams_of s u → ¬ L (stream_ref (stream sw)).

Lemma keeps_below_modify f : (∀ w, next_stream w ≤ next_stream (f w)) → keeps below (modify f).
Proof. intros Hf. apply keeps_modify. intros w Hw r Hr. specialize (Hf w). specialize (Hw r Hr). lia. Qed.

Lemma keeps_below_call p c : keeps below (call_peer p c).
Proof. by intros w r w' Hw [= <- <-]. Qed.

Lemma keeps_below_new_Peer b o : keeps below (new_Peer b o).
Proof. by intros w r w' Hw [= <- <-]. Qed.
End fresh.

#[export] Hint Resolve keeps_below_call keeps_below_new_Peer : keeps.
#[export] Hint Extern 1 (keeps (below _) (modify _)) =>
  apply keeps_below_modify; intros; simpl; lia : keeps.

Section operations.
Context `{Platform} `{Lodash} `{ObjectKeys}.
Context (L : nat → Prop).

Lemma new_MediaStream_fresh :
  ensures (below L) (λ s, ¬ L (stream_ref s)) new_MediaStream.
Proof.
  intros w r w' Hw [= <- <-]. split.
  - intros x Hx. simpl. specialize (Hw x Hx). lia.
  - intros a [= <-] Hx. specialize (Hw _ Hx). simpl in Hw. lia.
Qed.

Lemma apart_insert s u usr l ids ts :
  apart L s → (∀ sw, sw ∈ l → ¬ L (stream_ref (stream sw))) →
  apart L (with_tracks (<[u := {| us_userId := usr; us_streams := l |}]> (streamsByUserId s)) ids ts s).
Proof.
  intros Hs Hl v sw. unfold streams_of. simpl. rewrite lookup_insert. case_decide; [apply Hl|].
  apply (Hs v).
Qed.

Lemma apart_omit s ks ids ts :
  apart L s → apart L (with_tracks (omit (streamsByUserId s) ks) ids ts s).
Proof.
  intros Hs v sw. unfold streams_of. simpl. rewrite omit_lookup. case_decide.
  - by intros ?%not_elem_of_nil.
  - apply (Hs v).
Qed.

(** States that show the same. *)
Lemma apart_same s s' : streamsByUserId s' = streamsByUserId s → apart L s → apart L s'.
Proof. intros Heq Hs u sw. unfold streams_of. rewrite Heq. apply Hs. Qed.

Lemma addTrack_apart s payload : apart L s → ensures (below L) (apart L) (addTrack s payload).
Proof.
  intros Hs. unfold addTrack. set (a := getUserId _ _ _ _).
  set (us := default _ (streamsByUserId s !! _)).
  assert (∀ sw, sw ∈ us_streams us → ¬ L (stream_ref (stream sw))) as Hus.
  { intros sw Hsw. apply (Hs (ta_userId a)). unfold streams_of. subst us.
    destruct (streamsByUserId s !! ta_userId a); [done|by apply not_elem_of_nil in Hsw]. }
  apply (ensures_bind _ (λ l, ∀ sw, sw ∈ l → ¬ L (stream_ref (stream sw)))).
  - case_match.
    + apply (ensures_bind _ true_of); [|intros _ _; by apply ensures_ret].
      apply keeps_ensures. unfold stream_addTrack. eauto with keeps.
    + eapply ensures_bind; [apply new_MediaStream_fresh|]. intros x Hx.
      apply (ensures_bind _ true_of); [apply keeps_ensures; unfold stream_addTrack; eauto with keeps|].
      intros _ _. apply ensures_ret. intros sw [Hsw| ->%list_elem_of_singleton]%elem_of_app; auto.
  - intros l Hl. apply ensures_ret. by apply apart_insert.
Qed.

Lemma removeTrack_apart s t : apart L s → ensures (below L) (apart L) (removeTrack s t).
Proof.
  intros Hs. unfold removeTrack. repeat (case_match; try by apply ensures_ret).
  apply (ensures_bind _ true_of); [apply keeps_ensures; unfold stream_removeTrack; eauto with keeps|].
  intros _ _. apply (ensures_bind _ true_of); [apply keeps_ensures; unfold getTracks; eauto with keeps|].
  intros left _.
  match goal with Hu : streamsByUserId s !! ?u = Some ?us |- _ =>
    assert (∀ sw, sw ∈ us_streams us → ¬ L (stream_ref (stream sw))) as Hus
      by (intros sw Hsw; apply (Hs u); unfold streams_of; by rewrite Hu) end.
  apply (ensures_bind _ (λ l, ∀ sw, sw ∈ l → ¬ L (stream_ref (stream sw)))).
  - case_decide; [|by apply ensures_ret].
    apply (ensures_bind _ true_of); [apply keeps_ensures; unfold revoke_url, emit; repeat keeps_step|].
    intros _ _. apply ensures_ret. intros sw [_ Hsw]%list_elem_of_filter. by apply Hus.
  - intros l Hl. apply ensures_ret. case_decide; [by apply apart_omit|by apply apart_insert].
Qed.

Lemma unassociateUserTracks_apart s u :
  apart L s → ensures (below L) (apart L) (unassociateUserTracks s u).
Proof.
  intros Hs. unfold unassociateUserTracks. case_match; [|by apply ensures_ret].
  apply (ensures_bind _ true_of); [|intros l _; by apply ensures_ret, apart_omit].
  apply keeps_ensures. unfold getTracks, stream_removeTrack. repeat keeps_step.
Qed.

Lemma associate_apart s peer s' m :
  apart L s' → ensures (below L) (apart L) (associate s peer s' m).
Proof.
  intros Hs. unfold associate. case_match; [|by apply ensures_ret].
  case_match; [|by apply addTrack_apart]. case_decide; [by apply ensures_ret|].
  eapply ensures_bind; [by apply removeTrack_apart|]. intros s1 Hs1. by apply addTrack_apart.
Qed.

Lemma setMetadata_apart s payload :
  apart L s → ensures (below L) (apart L) (setMetadata s payload).
Proof.
  intros Hs. unfold setMetadata. eapply ensures_bind.
  - apply (ensures_for_fold _ (apart L)); [done|]. intros s' [k t] Hs'.
    repeat case_match; try (by apply ensures_ret). by apply removeTrack_apart.
  - intros s1 Hs1. apply (ensures_for_fold _ (apart L)); [by apply (apart_same s1)|].
    intros s' m Hs'. by apply associate_apart.
Qed.

Lemma removePeer_apart s u : apart L s → ensures (below L) (apart L) (removePeer s u).
Proof.
  intros Hs. unfold removePeer. eapply ensures_bind.
  - apply (ensures_for_fold _ (apart L)); [done|]. intros s' k Hs'.
    case_match; [|by apply ensures_ret]. eapply (ensures_bind _ (apart L)).
    + case_match; [by apply removeTrack_apart|by apply ensures_ret].
    + intros s1 Hs1. apply ensures_ret. by apply (apart_same s1).
  - intros s1 Hs1. apply ensures_ret. by apply (apart_same s1).
Qed.

(** Operations that leave the streams of the world as they are. *)
Lemma quiet_ensures (P : StreamsState → Prop) m :
  quiet P m → (∀ s, P s → apart L s) → ensures (below L) (apart L) m.
Proof.
  intros Hq HP w r w' Hw Hrun. destruct (Hq _ _ _ Hrun) as [[_ Hn] Hr]. split.
  - intros x Hx. rewrite Hn. by apply Hw.
  - intros a Ha. by apply HP, Hr.
Qed.

Lemma same_remote_apart s s' : apart L s → same_remote s s' → apart L s'.
Proof. intros Hs (Hu & _). by apply (apart_same s). Qed.

(** Whatever the action, the reducer shows only streams it made. *)
Lemma streams_apart s action : apart L s → ensures (below L) (apart L) (streams s action).
Proof.
  intros Hs. pose proof (same_remote_apart s) as Hsame.
  destruct action; cbn [streams]; try (by apply ensures_ret).
  - eapply quiet_ensures; [apply removeLocalStream_quiet|eauto].
  - by apply removeTrack_apart.
  - by apply addTrack_apart.
  - eapply quiet_ensures; [apply recordLocalStream_quiet|eauto].
  - eapply quiet_ensures; [apply stopRecordLocalStream_quiet|eauto].
  - by apply setMetadata_apart.
  - case_match; try (by apply ensures_ret).
    eapply quiet_ensures; [apply addLocalStream_quiet|eauto].
  - case_match; try (by apply ensures_ret). apply ensures_ret.
    eapply same_remote_apart; [done|apply setLocalStreamMirror_quiet].
  - eapply quiet_ensures; [apply hangUp_quiet|]. intros s' -> u sw. by intros ?%not_elem_of_nil.
  - by apply removePeer_apart.
  - by apply unassociateUserTracks_apart.
Qed.
End operations.
