(* ===== verification/Peers.v ===== *)
(** The peers reducer ([src/client/reducers/peers.ts]): the peer connections, and
    the local tracks sent to them. *)

From S2P Require Import Prelude Objects InsertableStreams InsertableCodec Actions World.

Abbreviation PeersState := (gmap string PeerRef).

(** [defaultState] *)
Definition no_peers : PeersState := ∅.

(** [forEach(state, ...)]: the peers, in the order of the object. *)
Definition peer_list `{ObjectKeys} (state : PeersState) : list PeerRef :=
  (object_entries state).*2.

(** [localStreams[type]], and its assignment. *)
Definition get_local (type : StreamType) : eff World (option MediaStream) :=
  gets (λ w, shared_streams w type).
Definition set_local (type : StreamType) (s : MediaStream) : eff World unit :=
  modify (λ w, set_shared_streams
    (λ t, if decide (t = type) then Some s else shared_streams w t) w).

Section reducer.
Context `{Platform} `{Lodash} `{ObjectKeys} `{EncodedStreams}.

(** [peer.removeTrack], errors ignored. *)
Definition removeTrackFromPeer (peer : PeerRef) (track : MediaStreamTrack)
    (stream : MediaStream) : eff World unit :=
  catch (call_peer peer (p_removeTrack track stream) ≫= λ _, mret tt) (λ _, mret tt).

(** [peer.addTrack] and the encryption of the sender. *)
Definition addTrackToPeer (peer : PeerRef) (track : MediaStreamTrack)
    (stream : MediaStream) : eff World unit :=
  sender ← call_peer peer (p_addTrack track stream);
  codec_op (Encrypt sender) ≫= λ _, mret tt.

Definition handleRemoveLocalStream (state : PeersState) (stream : MediaStream) :
    eff World PeersState :=
  for_each (λ peer,
    tracks ← getTracks stream;
    for_each (λ track, removeTrackFromPeer peer track stream) tracks) (peer_list state) ≫= λ _,
  mret state.

Definition handleLocalMediaStream (state : PeersState)
    (action : AsyncAction AddLocalStreamPayload) : eff World PeersState :=
  match action with
  | resolved payload =>
    let streamType := als_type payload in
    for_each (λ peer,
      localStream ← get_local streamType;
      (match localStream with
       | Some localStream =>
         tracks ← getTracks localStream;
         for_each (λ track, removeTrackFromPeer peer track localStream) tracks
       | None => mret tt
       end) ≫= λ _,
      tracks ← getTracks (als_stream payload);
      for_each (λ track, addTrackToPeer peer track (als_stream payload)) tracks)
      (peer_list state) ≫= λ _,
    set_local streamType (als_stream payload) ≫= λ _,
    mret state
  | _ => mret state
  end.

Definition getTracksByKind (stream : MediaStream) (kind : MediaKind) :
    eff World (list MediaStreamTrack) := getTracksOf kind stream.

Definition handleLocalMediaTrack (state : PeersState)
    (action : AsyncAction MediaTrackPayload) : eff World PeersState :=
  match action with
  | resolved payload =>
    localStream ← get_local (mt_type payload);
    match localStream with
    | None => mret state
    | Some localStream =>
      tracks ← getTracksByKind localStream (mt_kind payload);
      match head tracks, mt_track payload with
      | Some oldTrack, Some newTrack =>
        for_each (λ peer,
          call_peer peer (p_replaceTrack oldTrack newTrack localStream) ≫= λ _, mret tt)
          (peer_list state) ≫= λ _,
        stream_removeTrack localStream oldTrack ≫= λ _,
        stream_addTrack localStream newTrack ≫= λ _,
        emit (TrackStopped oldTrack) ≫= λ _,
        mret state
      | Some oldTrack, None =>
        emit (TrackEnabled oldTrack false) ≫= λ _, mret state
      | None, Some newTrack =>
        for_each (λ peer, addTrackToPeer peer newTrack localStream) (peer_list state) ≫= λ _,
        stream_addTrack localStream newTrack ≫= λ _,
        mret state
      | None, None => mret state
      end
    end
  | _ => mret state
  end.

Definition handleLocalMediaTrackEnable (state : PeersState) (kind : MediaKind)
    (type : StreamType) : eff World PeersState :=
  localStream ← get_local type;
  match localStream with
  | None => mret state
  | Some localStream =>
    tracks ← getTracksByKind localStream kind;
    for_each (λ t, emit (TrackEnabled t true)) tracks ≫= λ _,
    mret state
  end.

Definition peers (state : PeersState) (action : Action) : eff World PeersState :=
  match action with
  | AddPeerAction userId peer => mret (<[userId := peer]> state)
  | RemovePeerAction userId => mret (omit state [userId])
  | HangUpAction =>
    modify (set_shared_streams (λ _, None)) ≫= λ _,
    emit (DestroyScheduled (peer_list state)) ≫= λ _,
    mret no_peers
  | RemoveLocalStreamAction stream _ => handleRemoveLocalStream state stream
  | MediaStreamAction action => handleLocalMediaStream state action
  | MediaTrackAction action => handleLocalMediaTrack state action
  | MediaTrackEnableAction kind type => handleLocalMediaTrackEnable state kind type
  | _ => mret state
  end.
End reducer.
