(* ===== verification/PeersSafety.v ===== *)
(** The peers reducer: every sender is given to the codec, and local tracks reach every
    peer. *)

From S2P Require Import Prelude Objects InsertableStreams InsertableCodec CodecWorker Actions World Logic StreamsInv Peers.

Section peers.
Context `{Platform} `{Lodash} `{ObjectKeys} `{EncodedStreams}.

(** * Senders *)

(** Every sender [addTrack] has ever returned has been given to the codec's
    [encrypt]. *)
Definition senders_seen (w : World) : Prop :=
  ∀ i p t s n,
    effects w !! i = Some (PeerCalled p (p_addTrack t s)) →
    peer_call (take i (effects w)) p (p_addTrack t s) = Ok n →
    worker (codec w) = true → RTCRtpSender n ∈ sendersReceivers (codec w).

(** What encryption they get: the browser, if it can, was asked for their streams,
    and those it gave were posted to the worker, to be encrypted. *)
Definition senders_encrypted (w : World) : Prop :=
  ∀ i p t s n,
    effects w !! i = Some (PeerCalled p (p_addTrack t s)) →
    peer_call (take i (effects w)) p (p_addTrack t s) = Ok n →
    worker (codec w) = true → handed_over n (codec w).

Lemma seen_encrypted url user w :
  codec_inv url user (codec w) → senders_seen w → senders_encrypted w.
Proof. intros Hc Hs i p t s n Hi Hn Hw. eapply ci_encrypted; [done|]. by eapply Hs. Qed.

Definition is_addTrack (e : Effect) : bool :=
  match e with PeerCalled _ (p_addTrack _ _) => true | _ => false end.

Lemma senders_seen_emit w w' e :
  codec w' = codec w → effects w' = effects w ++ [e] → is_addTrack e = false →
  senders_seen w → senders_seen w'.
Proof.
  intros Hc He Hne Hw i p t s n. rewrite He, Hc. intros Hi.
  apply lookup_app_Some in Hi as [Hi|[Hlen Hi]].
  - rewrite take_app_le by (apply lookup_lt_Some in Hi; lia). by apply Hw.
  - destruct (i - length (effects w)); [|done]. injection Hi as ->. done.
Qed.

Lemma keeps_call p c :
  is_addTrack (PeerCalled p c) = false → keeps senders_seen (call_peer p c).
Proof.
  intros Hc w r w' Hw [= <- <-]. by apply (senders_seen_emit w _ (PeerCalled p c)).
Qed.

Lemma keeps_emit e : is_addTrack e = false → keeps senders_seen (emit e).
Proof. intros He w r w' Hw [= <- <-]. by apply (senders_seen_emit w _ e). Qed.

Lemma keeps_same f :
  (∀ w, effects (f w) = effects w ∧ codec (f w) = codec w) → keeps senders_seen (modify f).
Proof.
  intros Hf. apply keeps_modify. intros w Hw i p t s n. destruct (Hf w) as [-> ->]. apply Hw.
Qed.

Lemma addTrackToPeer_keeps p t s : keeps senders_seen (addTrackToPeer p t s).
Proof.
  intros w r w' Hw. unfold addTrackToPeer, mbind, eff_bind, call_peer, codec_op.
  set (es := effects w ++ [PeerCalled p (p_addTrack t s)]).
  destruct (peer_call (effects w) p (p_addTrack t s)) as [n|e] eqn:Hcall.
  - pose proof (encrypt_seen n (codec w)) as Hn.
    pose proof (codec_call_worker (Encrypt n) (codec w)) as Hwk.
    pose proof (λ x, codec_call_seen (Encrypt n) (codec w) x) as Hold. cbn [codec_call] in Hwk, Hold. simpl.
    destruct (encrypt n (codec w)) as [b c'] eqn:Hc. simpl in *. intros [= <- <-].
    intros i p' t' s' n'. simpl. fold es. intros Hi Hr. rewrite Hwk. intros Hwk'.
    apply lookup_app_Some in Hi as [Hi|[Hlen Hi]].
    + unfold es in Hr. rewrite take_app_le in Hr by (apply lookup_lt_Some in Hi; lia).
      by apply Hold, (Hw i p' t' s').
    + destruct (i - length (effects w)) eqn:Hd; [|done]. injection Hi as <- <- <-.
      unfold es in Hr. rewrite take_app_ge in Hr by lia. rewrite Hd in Hr. simpl in Hr.
      rewrite app_nil_r in Hr. rewrite Hcall in Hr. injection Hr as <-. by apply Hn.
  - intros [= <- <-] i p' t' s' n'. simpl. intros Hi Hr.
    apply lookup_app_Some in Hi as [Hi|[Hlen Hi]].
    + rewrite take_app_le in Hr by (apply lookup_lt_Some in Hi; lia). by apply (Hw i p' t' s').
    + destruct (i - length (effects w)) eqn:Hd; [|done]. injection Hi as <- <- <-.
      rewrite take_app_ge, Hd in Hr by lia. simpl in Hr. rewrite app_nil_r in Hr. congruence.
Qed.
End peers.

#[export] Hint Resolve addTrackToPeer_keeps : keeps.
#[export] Hint Extern 1 (keeps senders_seen (call_peer _ _)) => apply keeps_call; reflexivity : keeps.
#[export] Hint Extern 1 (keeps senders_seen (emit _)) => apply keeps_emit; reflexivity : keeps.
#[export] Hint Extern 1 (keeps senders_seen (modify _)) =>
  apply keeps_same; intros; split; reflexivity : keeps.

(** ** The other calls of the codec, and new peers *)

Section codec.
Context `{Platform} `{EncodedStreams}.

Lemma codec_op_keeps_senders op : keeps senders_seen (codec_op op).
Proof.
  intros w r w' Hw. unfold codec_op. pose proof (codec_call_seen op (codec w)) as Hs.
  pose proof (codec_call_worker op (codec w)) as Hk.
  destruct (codec_call op (codec w)) as [b c]. intros [= <- <-] i p t x m. simpl in *.
  rewrite Hk. intros Hi Hr Hwk. by apply Hs, (Hw i p t x).
Qed.

Lemma new_Peer_keeps_senders b o : keeps senders_seen (new_Peer b o).
Proof. unfold new_Peer. repeat keeps_step. Qed.
End codec.

#[export] Hint Resolve codec_op_keeps_senders new_Peer_keeps_senders : keeps.

(** * Loops that run to the end *)

(** Media streams stay as they are and effects are only added. *)
Definition later (w w' : World) : Prop :=
  stream_tracks w' = stream_tracks w ∧ shared_streams w' = shared_streams w ∧
  effects w `prefix_of` effects w'.

#[export] Instance later_preorder : PreOrder later.
Proof.
  split; [intros w; by repeat split|].
  intros w1 w2 w3 (?&?&?) (?&?&?). repeat split; [congruence..|by etrans].
Qed.

Definition advances {A} (m : eff World A) : Prop := ∀ w r w', m w = (r, w') → later w w'.

Lemma advances_bind {A B} (m : eff World A) (f : A → eff World B) :
  advances m → (∀ a, advances (f a)) → advances (m ≫= f).
Proof.
  intros Hm Hf w r w'. unfold mbind, eff_bind. destruct (m w) as [[a|e] w1] eqn:Hrun.
  - intros Hrun'. etrans; [by eapply Hm|by eapply Hf].
  - intros [= <- <-]. by eapply Hm.
Qed.

Lemma advances_for_each {A} (f : A → eff World unit) xs :
  (∀ x, advances (f x)) → advances (for_each f xs).
Proof.
  intros Hf. induction xs; [by intros w r w' [= <- <-]|]. by apply advances_bind.
Qed.

(** When a loop has succeeded, so has each of its steps. *)
Lemma for_each_all {A} (f : A → eff World unit) xs : (∀ x, advances (f x)) → ∀ w w',
  for_each f xs w = (Ok tt, w') →
  ∀ x, x ∈ xs → ∃ w1 w2, f x w1 = (Ok tt, w2) ∧ later w w1 ∧ later w2 w'.
Proof.
  intros Hf. induction xs as [|y xs IH]; intros w w' Hrun x Hx; [by apply not_elem_of_nil in Hx|].
  cbn [for_each] in Hrun. unfold mbind, eff_bind in Hrun.
  destruct (f y w) as [[[]|e] w1] eqn:Hy; [|done].
  apply elem_of_cons in Hx as [->|Hx].
  - exists w, w1. split_and!; [done|done|]. by eapply advances_for_each.
  - destruct (IH _ _ Hrun x Hx) as (w2 & w3 & ? & ? & ?). exists w2, w3. split_and!; [done| |done].
    etrans; [|done]. by eapply Hf.
Qed.

Lemma bind_Ok_inv {A B} (m : eff World A) (f : A → eff World B) w b w' :
  (m ≫= f) w = (Ok b, w') → ∃ a w1, m w = (Ok a, w1) ∧ f a w1 = (Ok b, w').
Proof.
  unfold mbind, eff_bind. destruct (m w) as [[a|e] w1]; [|done]. intros. by exists a, w1.
Qed.

Section theorems.
Context `{Platform} `{Lodash} `{ObjectKeys} `{EncodedStreams}.

Lemma advances_call p c : advances (call_peer p c).
Proof. intros w r w' [= <- <-]. split_and!; [done..|]. by eexists. Qed.

Lemma advances_remove p t s : advances (removeTrackFromPeer p t s).
Proof.
  intros w r w'. unfold removeTrackFromPeer, catch, mbind, eff_bind, call_peer.
  destruct (peer_call _ _ _); intros [= <- <-]; (split_and!; [done..|]); by eexists.
Qed.

Lemma advances_add p t s : advances (addTrackToPeer p t s).
Proof.
  unfold addTrackToPeer. apply advances_bind; [apply advances_call|].
  intros n. apply advances_bind; [|by intros b w r w' [= <- <-]].
  intros w r w'. unfold codec_op. cbn [codec_call]. destruct (encrypt n (codec w)).
  intros [= <- <-]. by repeat split.
Qed.

Lemma addTrackToPeer_called p t s w w' :
  addTrackToPeer p t s w = (Ok tt, w') → PeerCalled p (p_addTrack t s) ∈ effects w'.
Proof.
  intros (n & w1 & Hcall & Hrest)%bind_Ok_inv. injection Hcall as _ <-.
  apply bind_Ok_inv in Hrest as (b & w2 & Hc & [= <-]).
  unfold codec_op in Hc. cbn [codec_call] in Hc.
  destruct (encrypt n _) as [b' c'] in Hc. injection Hc as _ <-. simpl.
  apply elem_of_app. right. by left.
Qed.

Lemma later_effect w w' e : later w w' → e ∈ effects w → e ∈ effects w'.
Proof. intros (_ & _ & [l ->]) He. apply elem_of_app. by left. Qed.

Lemma later_tracks w w' s : later w w' → tracks_of w' s = tracks_of w s.
Proof. intros (Hs & _). unfold tracks_of. by rewrite Hs. Qed.

Lemma peers_keep_senders state action : keeps senders_seen (peers state action).
Proof.
  destruct action; cbn [peers];
    unfold handleRemoveLocalStream, handleLocalMediaStream, handleLocalMediaTrack,
      handleLocalMediaTrackEnable, removeTrackFromPeer, getTracks, getTracksByKind, getTracksOf,
      get_local, set_local, stream_removeTrack, stream_addTrack;
    repeat keeps_step.
Qed.

Definition share_step (payload : AddLocalStreamPayload) (peer : PeerRef) : eff World unit :=
  localStream ← get_local (als_type payload);
  (match localStream with
   | Some localStream =>
     tracks ← getTracks localStream;
     for_each (λ track, removeTrackFromPeer peer track localStream) tracks
   | None => mret tt
   end) ≫= λ _,
  tracks ← getTracks (als_stream payload);
  for_each (λ track, addTrackToPeer peer track (als_stream payload)) tracks.

Lemma share_step_advances payload peer : advances (share_step payload peer).
Proof.
  unfold share_step. apply advances_bind; [by intros w r w' [= <- <-]|]. intros o.
  apply advances_bind.
  - destruct o as [s|]; [|by intros w r w' [= <- <-]].
    apply advances_bind; [by intros w r w' [= <- <-]|]. intros ts.
    apply advances_for_each. intros t. apply advances_remove.
  - intros _. apply advances_bind; [by intros w r w' [= <- <-]|]. intros ts.
    apply advances_for_each. intros t. apply advances_add.
Qed.

(** When a new local stream has been handled without an exception, every peer
    has been given each of its tracks, and it is the stream of its type that is
    shared from now on. *)
Theorem stream_shared_with_peers state payload w state' w' :
  peers state (MediaStreamAction (resolved payload)) w = (Ok state', w') →
  state' = state ∧ shared_streams w' (als_type payload) = Some (als_stream payload) ∧
  ∀ userId peer t, state !! userId = Some peer → t ∈ tracks_of w (als_stream payload) →
    PeerCalled peer (p_addTrack t (als_stream payload)) ∈ effects w'.
Proof.
  intros (u & w1 & Hloop & Hrest)%bind_Ok_inv. destruct u.
  apply bind_Ok_inv in Hrest as (u & w2 & Hset & Hret).
  injection Hret as <- <-. injection Hset as _ <-. split; [done|]. split.
  { simpl. by rewrite decide_True. }
  intros userId peer t Hpeer Ht. simpl.
  change (for_each (share_step payload) (peer_list state) w = (Ok tt, w1)) in Hloop.
  assert (peer ∈ peer_list state) as Hin.
  { unfold peer_list. apply list_elem_of_fmap. exists (userId, peer).
    split; [done|]. by apply elem_of_object_entries. }
  destruct (for_each_all _ _ (share_step_advances payload) _ _ Hloop peer Hin)
    as (w2 & w3 & Hstep & Hl2 & Hl3).
  eapply later_effect; [done|].
  apply bind_Ok_inv in Hstep as (o & w4 & [= <- <-] & Hstep).
  apply bind_Ok_inv in Hstep as ([] & w5 & Hrem & Hstep).
  assert (later w2 w5) as Hl5.
  { revert Hrem. destruct (shared_streams w2 _) as [s|]; [|by intros [= <-]].
    intros (ts & w6 & [= <- <-] & Hrem)%bind_Ok_inv.
    eapply advances_for_each; [|exact Hrem]. intros x. apply advances_remove. }
  apply bind_Ok_inv in Hstep as (ts & w6 & [= <- <-] & Hadd).
  rewrite (later_tracks w2 w5) in Hadd by done. rewrite (later_tracks w w2) in Hadd by done.
  destruct (for_each_all _ _ (λ x, advances_add peer x (als_stream payload)) _ _ Hadd t Ht)
    as (w7 & w8 & Hone & _ & Hl8).
  eapply later_effect; [done|]. by eapply addTrackToPeer_called.
Qed.

(** What becomes of the tracks of a kind in the shared stream [s]. *)
Definition track_switched (state : PeersState) (kind : MediaKind) (s : MediaStream)
    (new : option MediaStreamTrack) (w w' : World) : Prop :=
  match head (filter (λ t, track_kind t = kind) (tracks_of w s)), new with
  | Some old, Some t =>
      t ∈ tracks_of w' s ∧ (old ≠ t → old ∉ tracks_of w' s) ∧ TrackStopped old ∈ effects w' ∧
      ∀ userId peer, state !! userId = Some peer →
        PeerCalled peer (p_replaceTrack old t s) ∈ effects w'
  | Some old, None =>
      tracks_of w' s = tracks_of w s ∧ effects w' = effects w ++ [TrackEnabled old false]
  | None, Some t =>
      t ∈ tracks_of w' s ∧
      ∀ userId peer, state !! userId = Some peer →
        PeerCalled peer (p_addTrack t s) ∈ effects w'
  | None, None => w' = w
  end.

Lemma peers_switch_track state kind type new w state' w' s :
  shared_streams w type = Some s →
  peers state (MediaTrackAction (resolved {| mt_kind := kind; mt_track := new;
                                             mt_type := type |})) w = (Ok state', w') →
  state' = state ∧ track_switched state kind s new w w'.
Proof.
  unfold track_switched. intros Hs. cbn [peers handleLocalMediaTrack].
  intros (o & w1 & [= <- <-] & Hrun)%bind_Ok_inv. cbn [mt_type] in Hrun. rewrite Hs in Hrun.
  apply bind_Ok_inv in Hrun as (ts & w1 & [= <- <-] & Hrun). cbn [mt_kind mt_track] in Hrun.
  assert (∀ userId peer, state !! userId = Some peer → peer ∈ peer_list state) as Hin.
  { intros userId peer Hp. unfold peer_list. apply list_elem_of_fmap.
    exists (userId, peer). split; [done|]. by apply elem_of_object_entries. }
  destruct (head _) as [old|]; destruct new as [t|].
  - apply bind_Ok_inv in Hrun as ([] & w1 & Hloop & Hrun).
    apply bind_Ok_inv in Hrun as (u & w2 & [= _ <-] & Hrun).
    apply bind_Ok_inv in Hrun as (u' & w3 & [= _ <-] & Hrun).
    apply bind_Ok_inv in Hrun as (u'' & w4 & [= _ <-] & Hrun). injection Hrun as <- <-.
    split; [done|].
    unfold tracks_of. simpl. rewrite !lookup_insert_eq. simpl. split_and!.
    + case_decide; [done|]. apply elem_of_app. right. by left.
    + intros Hne Hold. revert Hold. case_decide.
      * by intros [? _]%list_elem_of_filter.
      * intros [[? _]%list_elem_of_filter|Heq%list_elem_of_singleton]%elem_of_app; done.
    + apply elem_of_app. right. by left.
    + intros userId peer Hp. apply elem_of_app. left.
      assert (∀ x, advances (call_peer x (p_replaceTrack old t s) ≫= λ _, mret tt)) as Hadv.
      { intros x. apply advances_bind; [apply advances_call|]. by intros ? ? ? ? [= <- <-]. }
      destruct (for_each_all _ _ Hadv _ _ Hloop peer (Hin _ _ Hp)) as (w5 & w6 & Hone & _ & Hl).
      eapply later_effect; [done|]. apply bind_Ok_inv in Hone as (n & w7 & Hc & [= <-]).
      injection Hc as _ <-. simpl. apply elem_of_app. right. by left.
  - apply bind_Ok_inv in Hrun as (u & w1 & [= _ <-] & [= <- <-]). done.
  - apply bind_Ok_inv in Hrun as ([] & w1 & Hloop & Hrun).
    apply bind_Ok_inv in Hrun as (u & w2 & [= _ <-] & [= <- <-]). split; [done|].
    unfold tracks_of at 1. simpl. rewrite lookup_insert_eq. simpl. split.
    + case_decide; [done|]. apply elem_of_app. right. by left.
    + intros userId peer Hp.
      destruct (for_each_all _ _ (λ x, advances_add x t s) _ _ Hloop peer (Hin _ _ Hp))
        as (w5 & w6 & Hone & _ & Hl).
      eapply later_effect; [done|]. by eapply addTrackToPeer_called.
  - injection Hrun as <- <-. done.
Qed.

(** Switching a local track: with a track of that kind in the shared stream
    and a new one, a successful action replaces it for every peer and in the
    stream, and stops it; with no new one the old track is disabled, not removed;
    with none before, every peer is given the new one. *)
Theorem local_track_switched state kind type new w state' w' s :
  shared_streams w type = Some s →
  peers state (MediaTrackAction (resolved {| mt_kind := kind; mt_track := new;
                                             mt_type := type |})) w = (Ok state', w') →
  state' = state ∧
  match head (filter (λ t, track_kind t = kind) (tracks_of w s)), new with
  | Some old, Some t =>
      t ∈ tracks_of w' s ∧ (old ≠ t → old ∉ tracks_of w' s) ∧ TrackStopped old ∈ effects w' ∧
      ∀ userId peer, state !! userId = Some peer →
        PeerCalled peer (p_replaceTrack old t s) ∈ effects w'
  | Some old, None =>
      tracks_of w' s = tracks_of w s ∧ effects w' = effects w ++ [TrackEnabled old false]
  | None, Some t =>
      t ∈ tracks_of w' s ∧
      ∀ userId peer, state !! userId = Some peer →
        PeerCalled peer (p_addTrack t s) ∈ effects w'
  | None, None => w' = w
  end.
Proof. apply peers_switch_track. Qed.
End theorems.

(** * Instances *)

#[local] Existing Instance some_platform.
#[local] Existing Instance some_lodash.
#[local] Existing Instance some_object_keys.
#[local] Existing Instance once_streams.

Definition cam : MediaStream := {| stream_ref := 0; stream_id := "cam" |}.
Definition cam_track : MediaStreamTrack :=
  {| track_ref := 1; track_id := "v"; track_kind := video; track_label := "front" |}.
Definition cam_track2 : MediaStreamTrack :=
  {| track_ref := 2; track_id := "v2"; track_kind := video; track_label := "back" |}.

(** A page with an encryption worker and a camera stream. *)
Definition cam_world : World :=
  set_codec (new_codec true true true "u" "me")
    (set_stream_tracks (insert 0 [cam_track]) empty_world).
Definition one_peer : PeersState := {["bob" := 3]}.
Definition cam_payload : AddLocalStreamPayload :=
  {| als_type := StreamTypeCamera; als_stream := cam |}.
Definition shared_world : World := (peers one_peer (MediaStreamAction (resolved cam_payload)) cam_world).2.

Lemma stream_shared_with_peers_witness :
  one_peer = one_peer ∧ shared_streams shared_world StreamTypeCamera = Some cam ∧
  ∀ userId peer t, one_peer !! userId = Some peer → t ∈ tracks_of cam_world cam →
    PeerCalled peer (p_addTrack t cam) ∈ effects shared_world.
Proof.
  apply (stream_shared_with_peers one_peer cam_payload cam_world one_peer shared_world).
  vm_compute. reflexivity.
Defined.

Definition switched_world : World := (peers one_peer (MediaTrackAction (resolved
  {| mt_kind := video; mt_track := Some cam_track2; mt_type := StreamTypeCamera |}))
  shared_world).2.

Lemma local_track_switched_witness :
  one_peer = one_peer ∧
  match head (filter (λ t, track_kind t = video) (tracks_of shared_world cam)), Some cam_track2 with
  | Some old, Some t =>
      t ∈ tracks_of switched_world cam ∧ (old ≠ t → old ∉ tracks_of switched_world cam) ∧
      TrackStopped old ∈ effects switched_world ∧
      ∀ userId peer, one_peer !! userId = Some peer →
        PeerCalled peer (p_replaceTrack old t cam) ∈ effects switched_world
  | Some old, None =>
      tracks_of switched_world cam = tracks_of shared_world cam ∧
      effects switched_world = effects shared_world ++ [TrackEnabled old false]
  | None, Some t =>
      t ∈ tracks_of switched_world cam ∧
      ∀ userId peer, one_peer !! userId = Some peer →
        PeerCalled peer (p_addTrack t cam) ∈ effects switched_world
  | None, None => switched_world = shared_world
  end.
Proof.
  apply (local_track_switched one_peer video StreamTypeCamera (Some cam_track2) shared_world
    one_peer switched_world cam); vm_compute; reflexivity.
Defined.
