(* ===== verification/Media.v ===== *)
(** The media reducer ([src/client/reducers/media.ts]): devices, constraints, the
    state of the call. *)

From S2P Require Import Prelude Objects InsertableStreams Actions.

Record MediaState := {
  socketConnected : bool;
  creatorId : string;
  devices : list MediaDevice;
  video_constraint : VideoConstraint;
  audio_constraint : AudioConstraint;
  dialState : DialState;
  loading : bool;
  error : string;
  autoplayError : bool;
  recordStatus : bool;
}.

Definition default_media : MediaState := {|
  socketConnected := false; creatorId := ""; devices := [];
  video_constraint := facing_constraint facing_user; audio_constraint := flag_constraint true;
  dialState := DIAL_STATE_HUNG_UP; loading := false; error := ""; autoplayError := false;
  recordStatus := false |}.

(** ** Copies with some fields replaced *)

Definition with_devices (l : bool) (d : list MediaDevice) (e : string) (s : MediaState) :=
  {| socketConnected := socketConnected s; creatorId := creatorId s; devices := d;
     video_constraint := video_constraint s; audio_constraint := audio_constraint s;
     dialState := dialState s; loading := l; error := e;
     autoplayError := autoplayError s; recordStatus := recordStatus s |}.
Definition with_constraints (v : VideoConstraint) (a : AudioConstraint) (s : MediaState) :=
  {| socketConnected := socketConnected s; creatorId := creatorId s; devices := devices s;
     video_constraint := v; audio_constraint := a;
     dialState := dialState s; loading := loading s; error := error s;
     autoplayError := autoplayError s; recordStatus := recordStatus s |}.
Definition with_autoplayError (b : bool) (s : MediaState) :=
  {| socketConnected := socketConnected s; creatorId := creatorId s; devices := devices s;
     video_constraint := video_constraint s; audio_constraint := audio_constraint s;
     dialState := dialState s; loading := loading s; error := error s;
     autoplayError := b; recordStatus := recordStatus s |}.
Definition with_call (c : bool) (i : string) (d : DialState) (r : bool) (s : MediaState) :=
  {| socketConnected := c; creatorId := i; devices := devices s;
     video_constraint := video_constraint s; audio_constraint := audio_constraint s;
     dialState := d; loading := loading s; error := error s;
     autoplayError := autoplayError s; recordStatus := r |}.

(** * Handlers *)

Definition handleEnumerate (state : MediaState) (action : AsyncAction (list MediaDevice)) :
    MediaState :=
  match action with
  | resolved payload => with_devices false payload (error state) state
  | pending => with_devices true (devices state) (error state) state
  | rejected _ =>
    with_devices false (devices state) "Could not retrieve media devices" state
  end.

Definition handleMediaStream (state : MediaState) (action : AsyncAction AddLocalStreamPayload) :
    MediaState :=
  match action with
  | resolved _ => state
  | rejected payload =>
    with_devices (loading state) (devices state) (error_message payload) state
  | pending => state
  end.

Definition handlePlay (state : MediaState) (action : AsyncAction unit) : MediaState :=
  match action with
  | pending | resolved _ => with_autoplayError false state
  | rejected payload =>
    if decide (error_name payload ≠ "NotAllowedError") then state
    else with_autoplayError true state
  end.

Definition set_dialState (d : DialState) (s : MediaState) : MediaState :=
  with_call (socketConnected s) (creatorId s) d (recordStatus s) s.

Definition handleDial (state : MediaState) (action : AsyncAction unit) : MediaState :=
  match action with
  | pending => set_dialState DIAL_STATE_DIALLING state
  | resolved _ => set_dialState DIAL_STATE_IN_CALL state
  | rejected _ => set_dialState DIAL_STATE_HUNG_UP state
  end.

Definition media (state : MediaState) (action : Action) : MediaState :=
  match action with
  | MediaEnumerateAction action => handleEnumerate state action
  | MediaAudioConstraintAction payload =>
      with_constraints (video_constraint state) payload state
  | MediaVideoConstraintAction payload =>
      with_constraints payload (audio_constraint state) state
  | MediaStreamAction action => handleMediaStream state action
  | MediaPlayAction action => handlePlay state action
  | RecordAction status =>
      with_call (socketConnected state) (creatorId state) (dialState state) status state
  | DialAction action => handleDial state action
  | AddCreatorIdAction id =>
      with_call (socketConnected state) id (dialState state) (recordStatus state) state
  | ConnectedAction =>
      with_call true (creatorId state) (dialState state) (recordStatus state) state
  | DisconnectedAction =>
      with_call false (creatorId state) (dialState state) (recordStatus state) state
  | HangUpAction => set_dialState DIAL_STATE_HUNG_UP state
  | _ => state
  end.

(** * The call as an automaton *)

(** What an action says about the call, the connection, the recording and the
    enumeration of devices; each field follows the last action about it. *)
Definition dial_outcome (a : Action) : option DialState :=
  match a with
  | DialAction pending => Some DIAL_STATE_DIALLING
  | DialAction (resolved _) => Some DIAL_STATE_IN_CALL
  | DialAction (rejected _) | HangUpAction => Some DIAL_STATE_HUNG_UP
  | _ => None
  end.
Definition connection_outcome (a : Action) : option bool :=
  match a with ConnectedAction => Some true | DisconnectedAction => Some false | _ => None end.
Definition record_outcome (a : Action) : option bool :=
  match a with RecordAction b => Some b | _ => None end.
Definition loading_outcome (a : Action) : option bool :=
  match a with
  | MediaEnumerateAction pending => Some true
  | MediaEnumerateAction _ => Some false
  | _ => None
  end.
Definition autoplay_outcome (a : Action) : option bool :=
  match a with
  | MediaPlayAction (rejected e) =>
      if decide (error_name e = "NotAllowedError") then Some true else None
  | MediaPlayAction _ => Some false
  | _ => None
  end.

(** A field that each action sets or leaves follows the last one that sets it. *)
Lemma last_write {A S B} (step : S → A → S) (field : S → B) (outcome : A → option B) :
  (∀ s a, field (step s a) = default (field s) (outcome a)) →
  ∀ l s, field (foldl step s l) = default (field s) (last (omap outcome l)).
Proof.
  intros Hstep l. induction l as [|a l IH]; intros s; [done|]. cbn [foldl].
  rewrite IH, Hstep. cbn [omap list_omap]. destruct (outcome a) as [b|]; [|done].
  rewrite last_cons. by destruct (last (omap outcome l)).
Qed.

(** After any sequence of actions the state of the call, of the connection,
    of the recording, of the device enumeration and the autoplay warning are
    what the last action about each of them says; an enumeration that fails keeps
    the devices found before. *)
Theorem media_follows_last_action (actions : list Action) s :
  let s' := foldl media s actions in
  dialState s' = default (dialState s) (last (omap dial_outcome actions)) ∧
  socketConnected s' = default (socketConnected s) (last (omap connection_outcome actions)) ∧
  recordStatus s' = default (recordStatus s) (last (omap record_outcome actions)) ∧
  loading s' = default (loading s) (last (omap loading_outcome actions)) ∧
  autoplayError s' = default (autoplayError s) (last (omap autoplay_outcome actions)) ∧
  devices s' = default (devices s) (last (omap (λ a, match a with
    | MediaEnumerateAction (resolved d) => Some d | _ => None end) actions)).
Proof.
  split_and!; apply last_write; intros st []; try done;
    match goal with a : AsyncAction _ |- _ => destruct a as [| |e] end; try done;
    unfold media, handlePlay, autoplay_outcome; by repeat case_decide.
Qed.
