(* ===== verification/Users.v ===== *)
(** Nicknames ([src/client/reducers/nicknames.ts], [nickname.ts]). *)

From S2P Require Import Prelude Objects InsertableStreams Actions World.

(** An entry with the value [undefined] is left out: lookups do not tell. *)

Abbreviation Nicknames := (gmap string string).

(** [localStorage.nickname], if there is one and it is not empty, else the
    nickname of the page. *)
Definition getLocalNickname (stored : option string) (nickname : string) : string :=
  match stored with
  | Some n => if decide (n = "") then nickname else n
  | None => nickname
  end.

Definition default_nicknames (stored : option string) (nickname : string) : Nicknames :=
  {[ME := getLocalNickname stored nickname]}.

(** [{[ME]: state[ME]}] *)
Definition only_me (state : Nicknames) : Nicknames :=
  match state !! ME with Some n => {[ME := n]} | None => ∅ end.

Definition removeNickname (state : Nicknames) (userId : string) : Nicknames :=
  if decide (userId ≠ ME) then delete userId state else state.

Section nicknames.
Context `{Lodash} `{ObjectKeys}.

(** [me]: the [userId] of this page. *)
Definition setNicknames (me : string) (state : Nicknames) (payload : Nicknames) : Nicknames :=
  foldl (λ obj '(key, value),
    if decide (key = me) then <[ME := value]> obj else <[key := value]> obj)
    (only_me state) (object_entries payload).

Definition nicknames (me : string) (state : Nicknames) (action : Action) : Nicknames :=
  match action with
  | RemovePeerAction userId => omit state [userId]
  | HangUpAction => only_me state
  | NicknameRemoveAction userId => removeNickname state userId
  | NicknamesSetAction payload => setNicknames me state payload
  | _ => state
  end.

Definition getNickname (names : Nicknames) (userId : string) : string :=
  match names !! userId with
  | Some n => if decide (n = "") then (if decide (userId = ME) then "You" else userId) else n
  | None => if decide (userId = ME) then "You" else userId
  end.

Lemma setNicknames_loop me (entries : list (string * string)) : ∀ (obj : Nicknames) k,
  NoDup entries.*1 → (∀ v, (ME, v) ∉ entries) →
  foldl (λ obj '(key, value),
    if decide (key = me) then <[ME := value]> obj else <[key := value]> obj) obj entries !! k =
  match (list_to_map entries : gmap string string) !! (if decide (k = ME) then me else k) with
  | Some v => if decide (k = me ∧ k ≠ ME) then obj !! k else Some v
  | None => obj !! k
  end.
Proof.
  induction entries as [|[key v] entries IH]; intros obj k Hnd HME.
  { cbn [foldl list_to_map foldr]. by rewrite lookup_empty. }
  cbn in Hnd. apply NoDup_cons in Hnd as [Hkey Hnd]. cbn [foldl].
  rewrite IH; [|done|intros v' ?; apply (HME v'); by right].
  assert (key ≠ ME) as Hn by (intros ->; apply (HME v); by left).
  assert ((list_to_map entries : gmap string string) !! key = None) as Hnone
    by by apply not_elem_of_list_to_map_1.
  change (list_to_map ((key, v) :: entries) : gmap string string)
    with (<[key := v]> (list_to_map entries : gmap string string)).
  set (m := list_to_map entries : gmap string string) in *. rewrite (lookup_insert m).
  destruct (decide (key = if decide (k = ME) then me else k)) as [Heq|Hne].
  - rewrite <-Heq, Hnone. destruct (decide (key = me)) as [->|Hme].
    + destruct (decide (k = ME)) as [->|Hk].
      * rewrite lookup_insert_eq. rewrite decide_False; [done|by intros [_ ?]].
      * subst k. rewrite lookup_insert_ne by done. by rewrite decide_True.
    + destruct (decide (k = ME)) as [->|Hk]; [congruence|]. subst k.
      rewrite lookup_insert_eq, decide_False; [done|by intros [? _]].
  - assert ((if decide (key = me) then <[ME := v]> obj else <[key := v]> obj) !! k = obj !! k) as Ho.
    { destruct (decide (key = me)) as [->|Hme]; apply lookup_insert_ne.
      - intros <-. by rewrite decide_True in Hne.
      - intros <-. rewrite decide_False in Hne; done. }
    destruct (_ !! _); rewrite ?Ho; done.
Qed.

(** After the server's nicknames have been set everyone it names has the
    nickname it gives, this page's user under the name "_me_" and not under the
    user id, nobody else is left, and without a new one the user keeps the
    nickname there was. *)
Theorem nicknames_after_set me state payload k :
  payload !! ME = None → me ≠ ME →
  nicknames me state (NicknamesSetAction payload) !! k =
  if decide (k = ME) then
    match payload !! me with Some n => Some n | None => state !! ME end
  else if decide (k = me) then None
  else payload !! k.
Proof.
  intros HME Hme. cbn [nicknames]. unfold setNicknames.
  rewrite setNicknames_loop.
  - rewrite list_to_map_object_entries.
    assert (∀ k, only_me state !! k = if decide (k = ME) then state !! ME else None) as Hme'.
    { intros k'. unfold only_me. destruct (state !! ME) as [n|].
      - rewrite lookup_singleton. repeat case_decide; congruence.
      - rewrite lookup_empty. by case_decide. }
    rewrite Hme'. destruct (decide (k = ME)) as [->|Hk].
    + destruct (payload !! me); [|done]. rewrite decide_False; [done|by intros [_ ?]].
    + destruct (decide (k = me)) as [->|Hkm].
      * destruct (payload !! me); [|done]. by rewrite decide_True.
      * destruct (payload !! k); [|done]. by rewrite decide_False by by intros [? _].
  - apply object_entries_keys.
  - intros v Hv%elem_of_object_entries. congruence.
Qed.
End nicknames.

Lemma nicknames_after_set_witness :
  let _ := some_lodash in let _ := some_object_keys in
  nicknames "me" {["_me_" := "Ann"]}
    (NicknamesSetAction {["me" := "Anna"; "bob" := "Bob"]}) !! "bob"
  = if decide ("bob" = ME) then
      match ({["me" := "Anna"; "bob" := "Bob"]} : gmap string string) !! "me" with
      | Some n => Some n
      | None => ({["_me_" := "Ann"]} : gmap string string) !! ME
      end
    else if decide ("bob" = "me") then None
    else ({["me" := "Anna"; "bob" := "Bob"]} : gmap string string) !! "bob".
Proof.
  intros ? ?. apply nicknames_after_set; [vm_compute; reflexivity|vm_compute; discriminate].
Defined.
