(* ===== verification/Notices.v ===== *)
(** Messages, notifications and window states
    ([src/client/reducers/{messages,notifications,windowStates}.ts]), and the
    creators of [NotifyActions.ts]. *)

From S2P Require Import Prelude Objects InsertableStreams Actions World.

(** * Notifications: the creators ([NotifyActions.ts]) *)

(** [String.prototype.replace] with a string pattern: the first occurrence of the
    pattern gives what is before and after it. *)
Fixpoint split_first (p s : string) : option (string * string) :=
  if String.prefix p s
  then Some (EmptyString, String.substring (String.length p) (String.length s - String.length p) s)
  else match s with
       | EmptyString => None
       | String c s' =>
         match split_first p s' with
         | Some (before, after) => Some (String c before, after)
         | None => None
         end
       end.

(** The replacement patterns: a dollar sign followed by a dollar sign, [&], a
    backquote or a quote; there are no groups. *)
Fixpoint expand (matched before after r : string) : string :=
  match r with
  | EmptyString => EmptyString
  | String "$" (String c r') =>
    if decide (c = "$"%char) then String "$" (expand matched before after r')
    else if decide (c = "&"%char) then matched +:+ expand matched before after r'
    else if decide (c = "`"%char) then before +:+ expand matched before after r'
    else if decide (c = "'"%char) then after +:+ expand matched before after r'
    else String "$" (String c (expand matched before after r'))
  | String c r' => String c (expand matched before after r')
  end.

Definition js_replace (s pattern replacement : string) : string :=
  match split_first pattern s with
  | Some (before, after) => before +:+ expand pattern before after replacement +:+ after
  | None => s
  end.

Definition format (string : string) (args : list String.string) : String.string :=
  foldl (λ s '(i, arg), js_replace s ("{" +:+ pretty (N.of_nat i) +:+ "}") arg)
    string (imap (λ i arg, (i, arg)) args).

(** lodash's [uniqueId]. *)
Definition uniqueId (prefix : string) : eff World string :=
  n ← gets unique_ids;
  modify (set_unique_ids (n + 1)) ≫= λ _,
  mret (prefix +:+ pretty (n + 1)%N).

Definition addNotification (payload : Notification) : Action := NotificationAddAction payload.

Definition notify (type : NotifyType) (args : list string) : eff World Action :=
  let string := default "" (head args) in
  let message := format string (drop 1 args) in
  id ← uniqueId "notification";
  mret (addNotification {| n_id := id; n_type := type; n_message := message |}).

Definition info (args : list string) := notify notify_info args.
Definition warning (args : list string) := notify notify_warning args.
Definition error (args : list string) := notify notify_error args.

(** * Notifications: the reducer *)

Abbreviation NotificationState := (gmap string Notification).

Definition handleNotifications (state : NotificationState) (action : Action) :
    NotificationState :=
  match action with
  | NotificationAddAction payload => <[n_id payload := payload]> state
  | NotificationDismissAction id => filter (λ kv, kv.1 ≠ id) state
  | NotificationClearAction => ∅
  | _ => state
  end.

(** ['' + err] *)
Definition error_to_string (e : JSError) : string :=
  if decide (error_message e = "") then error_name e
  else if decide (error_name e = "") then error_message e
  else error_name e +:+ ": " +:+ error_message e.

(** A rejected action becomes an error notification. *)
Definition notifications (state : NotificationState) (action : Action) :
    eff World NotificationState :=
  match isRejectedAction action with
  | Some e =>
    action ← error [error_to_string e];
    mret (handleNotifications state action)
  | None => mret (handleNotifications state action)
  end.

(** * Messages ([messages.ts]) *)

Record Message := {
  m_userId : string;
  m_message : string;
  m_timestamp : string;
  m_data : option string;
  m_image : option bool;
  m_system : option bool;
}.

Record MessagesState := {
  list : Datatypes.list Message;
  count : N;
}.

Definition default_messages : MessagesState := {| list := []; count := 0 |}.

(** [imageRegexp]: a data url of one of four image types, in base64. *)
Definition imageRegexp_test (s : string) : bool :=
  existsb (λ ext, String.prefix ("data:image/" +:+ ext +:+ ";base64") s)
    ["png"; "jpg"; "jpeg"; "gif"].

Section messages.
(** [new Date(timestamp).toLocaleString()], for a time given as a string and for
    the present. *)
Variables (toLocaleString : string → string) (now : string).

Definition convertNotificationToMessage (n : Notification) : Message :=
  {| m_userId := PEERCALLS; m_message := n_message n; m_timestamp := now;
     m_data := None; m_image := None; m_system := Some true |}.

Definition handleMessage (state : MessagesState) (payload : MessageType) : MessagesState :=
  match payload with
  | FileMessage userId file timestamp =>
    {| list := list state ++
         [{| m_userId := userId; m_message := file_name file;
             m_timestamp := toLocaleString timestamp; m_data := Some (file_data file);
             m_image := Some (imageRegexp_test (file_data file)); m_system := None |}];
       count := count state + 1 |}
  | TextMessage userId text timestamp =>
    {| list := list state ++
         [{| m_userId := userId; m_message := text; m_timestamp := toLocaleString timestamp;
             m_data := None; m_image := None; m_system := None |}];
       count := count state + 1 |}
  end.

Definition messages (state : MessagesState) (action : Action) : MessagesState :=
  match action with
  | NotificationAddAction n =>
    {| list := list state ++ [convertNotificationToMessage n]; count := count state |}
  | MessageAddAction payload => handleMessage state payload
  | _ => state
  end.

(** The list of messages only grows at its end, by one entry for each message
    and each notification, in their order; the count is that of the entries that
    are not from the system. *)
Theorem messages_grow (actions : Datatypes.list Action) s :
  let s' := foldl messages s actions in
  ∃ new, list s' = list s ++ new ∧
    map (λ m, (m_userId m, m_message m)) new = omap (λ a, match a with
      | NotificationAddAction n => Some (PEERCALLS, n_message n)
      | MessageAddAction (TextMessage u t _) => Some (u, t)
      | MessageAddAction (FileMessage u f _) => Some (u, file_name f)
      | _ => None
      end) actions ∧
    count s' = (count s + N.of_nat (length (filter (λ m, m_system m = None) new)))%N.
Proof.
  revert s. induction actions as [|a actions IH]; intros s; cbn [foldl].
  { exists []. rewrite app_nil_r. split_and!; [done|done|simpl; lia]. }
  destruct (IH (messages s a)) as (new & Hl & Hm & Hc).
  assert (∃ n, list (messages s a) = list s ++ n ∧
    map (λ m, (m_userId m, m_message m)) n = option_list (match a with
      | NotificationAddAction n => Some (PEERCALLS, n_message n)
      | MessageAddAction (TextMessage u t _) => Some (u, t)
      | MessageAddAction (FileMessage u f _) => Some (u, file_name f)
      | _ => None
      end) ∧
    count (messages s a) = (count s + N.of_nat (length (filter (λ m, m_system m = None) n)))%N)
    as (n & Hln & Hmn & Hcn).
  { destruct a; try (exists []; rewrite app_nil_r; split_and!; [done|done|simpl; lia]).
    - eexists. split_and!; [reflexivity|reflexivity|simpl; lia].
    - destruct payload; eexists; (split_and!; [reflexivity|reflexivity|simpl; lia]). }
  exists (n ++ new). rewrite Hl, Hln, <-(assoc_L (++)), map_app, Hmn, Hm, filter_app, length_app.
  split_and!; [done| |lia]. cbn [omap list_omap].
  destruct a; try done. by destruct payload.
Qed.
End messages.

(** * Window states ([windowStates.ts]): the streams that are minimized *)

Definition WindowStates : Type := gset string.

(** A stream id that is [undefined] reads "undefined". *)
Definition getStreamKey (userId : string) (streamId : option string) : string :=
  userId +:+ "_" +:+ default "undefined" streamId.

Definition unminimize (state : WindowStates) (key : string) : WindowStates := state ∖ {[key]}.
Definition minimize (state : WindowStates) (key : string) : WindowStates := {[key]} ∪ state.

Definition minimizeToggle (state : WindowStates) (userId : string) (streamId : option string) :
    WindowStates :=
  let key := getStreamKey userId streamId in
  if decide (key ∈ state) then unminimize state key else minimize state key.

Definition windowStates (state : WindowStates) (action : Action) : WindowStates :=
  match action with
  | MinimizeToggleAction userId streamId => minimizeToggle state userId streamId
  | _ => state
  end.

(** Toggling flips whether the stream is minimized and touches no other, and
    toggling again gives back the state there was. *)
Theorem minimize_toggle_flips state userId streamId :
  let key := getStreamKey userId streamId in
  let state' := windowStates state (MinimizeToggleAction userId streamId) in
  (key ∈ state' ↔ key ∉ state) ∧
  (∀ k, k ≠ key → k ∈ state' ↔ k ∈ state) ∧
  windowStates state' (MinimizeToggleAction userId streamId) = state.
Proof.
  cbn [windowStates]. unfold minimizeToggle, minimize, unminimize.
  set (key := getStreamKey userId streamId).
  destruct (decide (key ∈ state)) as [Hk|Hk]; split_and!.
  - set_solver.
  - set_solver.
  - rewrite decide_False by set_solver. apply set_eq. intros x.
    destruct (decide (x = key)); set_solver.
  - set_solver.
  - set_solver.
  - rewrite decide_True by set_solver. set_solver.
Qed.

(** * Notification ids *)

(** The notifications shown have been given their ids by [uniqueId]. *)
Definition ids_given (state : NotificationState) (w : World) : Prop :=
  ∀ k n, state !! k = Some n →
    n_id n = k ∧ ∃ i : N, (0 < i ≤ unique_ids w)%N ∧ k = "notification" +:+ pretty i.

Lemma notification_id_inj (i j : N) :
  "notification" +:+ pretty i = "notification" +:+ pretty j → i = j.
Proof. rewrite !string_app_cons, !string_app_nil. intros [= Heq]. by apply (inj pretty). Qed.

(** A new notification gets an id no other has: adding it overwrites none of
    those shown, and dismissing it gives back exactly those. *)
Theorem notification_added_and_dismissed state w type args :
  ids_given state w →
  ∃ n w', notify type args w = (Ok (NotificationAddAction n), w') ∧ n_type n = type ∧
    n_message n = format (default "" (head args)) (drop 1 args) ∧
    state !! n_id n = None ∧
    let state' := handleNotifications state (NotificationAddAction n) in
    ids_given state' w' ∧ state' !! n_id n = Some n ∧
    handleNotifications state' (NotificationDismissAction (n_id n)) = state.
Proof.
  intros Hids. eexists _, _. split; [reflexivity|]. split_and!; [done|done| |]; cbn [n_id].
  - set (id := "notification" +:+ _). destruct (state !! id) eqn:Hl; [|done].
    apply Hids in Hl as [_ (i & Hi & Heq)]. apply notification_id_inj in Heq. lia.
  - set (id := "notification" +:+ _). set (n := {| n_id := id |}).
    assert (state !! id = None) as Hnone.
    { destruct (state !! id) eqn:Hl; [|done].
      apply Hids in Hl as [_ (i & Hi & Heq)]. apply notification_id_inj in Heq. lia. }
    split_and!.
    + intros k x. simpl. intros [[<- <-]|[Hne Hl]]%lookup_insert_Some.
      * split; [done|]. exists (unique_ids w + 1)%N. split; [lia|done].
      * apply Hids in Hl as [? (i & Hi & ?)]. split; [done|]. exists i. split; [lia|done].
    + simpl. apply lookup_insert_eq.
    + simpl. apply map_eq. intros k. destruct (decide (k = id)) as [->|Hne].
      * rewrite Hnone. apply map_lookup_filter_None. right. intros x _ Hx. by apply Hx.
      * destruct (state !! k) as [x|] eqn:Hl.
        -- apply map_lookup_filter_Some. split; [|done]. by rewrite lookup_insert_ne.
        -- apply map_lookup_filter_None. left. by rewrite lookup_insert_ne.
Qed.

Lemma notification_added_and_dismissed_witness :
  ∃ n w', notify notify_info ["Connected users: {0}"; "2"] empty_world
      = (Ok (NotificationAddAction n), w') ∧ n_type n = notify_info ∧
    n_message n = format "Connected users: {0}" ["2"] ∧
    (∅ : NotificationState) !! n_id n = None ∧
    let state' := handleNotifications ∅ (NotificationAddAction n) in
    ids_given state' w' ∧ state' !! n_id n = Some n ∧
    handleNotifications state' (NotificationDismissAction (n_id n)) = ∅.
Proof.
  apply (notification_added_and_dismissed ∅ empty_world notify_info
    ["Connected users: {0}"; "2"]).
  intros k n. rewrite lookup_empty. discriminate.
Defined.

Example format_example : format "Connected users: {0}" ["2"] = "Connected users: 2".
Proof. reflexivity. Qed.
