(* ===== verification/Ws.v ===== *)
(** The WebSocket client ([src/client/ws/index.ts]): reconnection and pings, as a
    transition system driven by the browser's socket and timer events. *)

From S2P Require Import Prelude.

#[local] Open Scope Z_scope.

(** The life of a [WebSocket]. *)
Inductive SocketStatus := Connecting | Opened | Closed.

(** The payload of a message: [undefined], a [Blob], or any other value (by its
    JSON text). *)
Inductive Payload :=
  | Undefined
  | Data (json : string)
  | Blob (contents : string).

(** What the client makes visible: events for its listeners and messages sent,
    as text or as they are. *)
Inductive SocketOutput :=
  | Emitted (name : string) (payload : Payload)
  | Sent (socket : nat) (message : string)
  | SentBlob (socket : nat) (contents : string).

Record SocketClient := {
  connected : bool;
  reconnectTimeout : Z;
  pingIntervalTimeout : Z;
  (** [this.ws]: the last socket made *)
  ws : option nat;
  pingInterval : option nat;
  (** the browser: sockets, running intervals, pending [setTimeout]s *)
  sockets : gmap nat SocketStatus;
  intervals : gset nat;
  reconnects : nat;
  next_socket : nat;
  next_interval : nat;
  outputs : list SocketOutput;
}.

(** ** Field updates *)

Definition set_connected (b : bool) (c : SocketClient) : SocketClient :=
  {| connected := b; reconnectTimeout := reconnectTimeout c;
     pingIntervalTimeout := pingIntervalTimeout c; ws := ws c; pingInterval := pingInterval c;
     sockets := sockets c; intervals := intervals c; reconnects := reconnects c;
     next_socket := next_socket c; next_interval := next_interval c; outputs := outputs c |}.
Definition set_reconnect (t : Z) (n : nat) (c : SocketClient) : SocketClient :=
  {| connected := connected c; reconnectTimeout := t;
     pingIntervalTimeout := pingIntervalTimeout c; ws := ws c; pingInterval := pingInterval c;
     sockets := sockets c; intervals := intervals c; reconnects := n;
     next_socket := next_socket c; next_interval := next_interval c; outputs := outputs c |}.
Definition set_intervals (p : option nat) (active : gset nat) (n : nat) (c : SocketClient) :
    SocketClient :=
  {| connected := connected c; reconnectTimeout := reconnectTimeout c;
     pingIntervalTimeout := pingIntervalTimeout c; ws := ws c; pingInterval := p;
     sockets := sockets c; intervals := active; reconnects := reconnects c;
     next_socket := next_socket c; next_interval := n; outputs := outputs c |}.
Definition set_socket (i : nat) (st : SocketStatus) (c : SocketClient) : SocketClient :=
  {| connected := connected c; reconnectTimeout := reconnectTimeout c;
     pingIntervalTimeout := pingIntervalTimeout c; ws := ws c; pingInterval := pingInterval c;
     sockets := <[i := st]> (sockets c); intervals := intervals c; reconnects := reconnects c;
     next_socket := next_socket c; next_interval := next_interval c; outputs := outputs c |}.
Definition output (o : SocketOutput) (c : SocketClient) : SocketClient :=
  {| connected := connected c; reconnectTimeout := reconnectTimeout c;
     pingIntervalTimeout := pingIntervalTimeout c; ws := ws c; pingInterval := pingInterval c;
     sockets := sockets c; intervals := intervals c; reconnects := reconnects c;
     next_socket := next_socket c; next_interval := next_interval c;
     outputs := outputs c ++ [o] |}.

(** * Operations *)

(** [connect]: a new socket, with the three handlers. *)
Definition connect (c : SocketClient) : SocketClient :=
  {| connected := connected c; reconnectTimeout := reconnectTimeout c;
     pingIntervalTimeout := pingIntervalTimeout c;
     ws := Some (next_socket c); pingInterval := pingInterval c;
     sockets := <[next_socket c := Connecting]> (sockets c); intervals := intervals c;
     reconnects := reconnects c; next_socket := S (next_socket c);
     next_interval := next_interval c; outputs := outputs c |}.

(** [constructor], with the initial values of the fields. *)
Definition new_SocketClient : SocketClient :=
  connect {| connected := false; reconnectTimeout := 2000; pingIntervalTimeout := 5000;
             ws := None; pingInterval := None; sockets := ∅; intervals := ∅;
             reconnects := 0; next_socket := 0; next_interval := 1; outputs := [] |}.

Definition wsHandleClose (c : SocketClient) : SocketClient :=
  let c := if connected c
           then set_connected false (output (Emitted "disconnect" Undefined) c)
           else c in
  let c := match pingInterval c with
           | Some i => set_intervals (pingInterval c) (intervals c ∖ {[i]}) (next_interval c) c
           | None => c
           end in
  if decide (reconnectTimeout c = 0) then c
  else set_reconnect (reconnectTimeout c) (S (reconnects c)) c.

Definition wsHandleOpen (c : SocketClient) : SocketClient :=
  let c := output (Emitted "connect" Undefined) (set_connected true c) in
  if decide (pingIntervalTimeout c = 0) then c
  else set_intervals (Some (next_interval c)) ({[next_interval c]} ∪ intervals c)
         (S (next_interval c)) c.

Definition disconnect (c : SocketClient) : SocketClient :=
  wsHandleClose (set_reconnect 0 (reconnects c) c).

Section messages.
(** [JSON.stringify] of a message with a type and a payload, and [JSON.parse] of
    the text of one. *)
Context (stringify : string → Payload → string) (parse : string → option (string * Payload)).

(** [emit]: [send] throws while the socket is connecting. *)
Definition emit (name : string) (payload : Payload) (c : SocketClient) : result SocketClient :=
  match ws c with
  | None => Throw TypeError
  | Some i =>
    match sockets c !! i with
    | Some Connecting => Throw (Error "InvalidStateError")
    | Some Opened =>
      Ok (output (match payload with
                  | Blob contents => SentBlob i contents
                  | _ => Sent i (stringify name payload)
                  end) c)
    | _ => Ok c
    end
  end.

Definition ping (c : SocketClient) : result SocketClient := emit "ping" Undefined c.

Definition wsHandleMessage (data : string) (c : SocketClient) : result SocketClient :=
  match parse data with
  | Some (type, payload) => Ok (output (Emitted type payload) c)
  | None => Throw (Error "SyntaxError")
  end.

(** * Steps *)

Definition after (c : SocketClient) (r : result SocketClient) : SocketClient :=
  match r with Ok c' => c' | Throw _ => c end.

(** What the browser does; [Disconnect] and [Emit] are calls of the page. *)
Inductive step : SocketClient → SocketClient → Prop :=
  | step_open c i :
      sockets c !! i = Some Connecting → step c (wsHandleOpen (set_socket i Opened c))
  | step_close c i st :
      sockets c !! i = Some st → st ≠ Closed → step c (wsHandleClose (set_socket i Closed c))
  | step_message c i data :
      sockets c !! i = Some Opened → step c (after c (wsHandleMessage data c))
  | step_reconnect c n :
      reconnects c = S n → step c (connect (set_reconnect (reconnectTimeout c) n c))
  | step_ping c i : i ∈ intervals c → step c (after c (ping c))
  | step_emit c name payload : step c (after c (emit name payload c)).

Inductive reachable : SocketClient → Prop :=
  | reachable_new : reachable new_SocketClient
  | reachable_step c c' : reachable c → step c c' → reachable c'.

(** * The invariant *)

(** The state of the connection: the last socket is the only live one, or there
    is none and a reconnection is due. *)
Record client_inv (c : SocketClient) : Prop := {
  ci_ws : ws c = Some (Nat.pred (next_socket c)) ∧ (0 < next_socket c)%nat;
  ci_old i st : sockets c !! i = Some st → (i < next_socket c)%nat;
  ci_live i st : sockets c !! i = Some st → st ≠ Closed → i = Nat.pred (next_socket c);
  ci_current : ∃ st, sockets c !! Nat.pred (next_socket c) = Some st ∧
    (reconnects c = match st with Closed => 1 | _ => 0 end)%nat ∧
    connected c = (match st with Opened => true | _ => false end);
  ci_timeouts : reconnectTimeout c = 2000 ∧ pingIntervalTimeout c = 5000;
  ci_interval : intervals c = (if connected c
                               then match pingInterval c with Some i => {[i]} | None => ∅ end
                               else ∅) ∧
                (connected c = true → is_Some (pingInterval c));
}.

Lemma output_inv o c : client_inv c → client_inv (output o c).
Proof. intros [? ? ? ? ? ?]. by split. Qed.

Lemma emit_inv name payload c : client_inv c → client_inv (after c (emit name payload c)).
Proof.
  intros Hc. unfold emit. repeat case_match; try done; by apply output_inv.
Qed.

Lemma client_inv_step c c' : client_inv c → step c c' → client_inv c'.
Proof.
  intros Hc Hs. destruct Hs as [c i Hi|c i st Hi Hst|c i data Hi|c n Hn|c i Hi|c name payload].
  - destruct Hc as [[Hw1 Hw2] Hold Hlive (st & Hst & Hr & Hco) [Ht1 Ht2] [Hint _]].
    assert (i = Nat.pred (next_socket c)) as -> by by eapply Hlive.
    rewrite Hi in Hst. injection Hst as <-. rewrite Hco in Hint.
    unfold wsHandleOpen. rewrite decide_False by (simpl; lia). split; simpl.
    + done.
    + intros i st. rewrite lookup_insert. case_decide; [lia|apply Hold].
    + intros i st. rewrite lookup_insert. case_decide; [done|apply Hlive].
    + exists Opened. by rewrite lookup_insert_eq.
    + done.
    + split; [|by eexists]. rewrite Hint. set_solver.
  - destruct Hc as [[Hw1 Hw2] Hold Hlive (st' & Hst' & Hr & Hco) [Ht1 Ht2] [Hint Hping]].
    assert (i = Nat.pred (next_socket c)) as -> by by eapply Hlive.
    rewrite Hi in Hst'. injection Hst' as <-.
    assert (∀ c1, sockets c1 = <[Nat.pred (next_socket c) := Closed]> (sockets c) →
      next_socket c1 = next_socket c → ws c1 = ws c → reconnects c1 = 1%nat →
      connected c1 = false → reconnectTimeout c1 = 2000 → pingIntervalTimeout c1 = 5000 →
      intervals c1 = ∅ → client_inv c1) as Hcl.
    { intros c1 Hs1 Hn1 Hw Hr1 Hc1 Ht1' Ht2' Hi1. split; rewrite ?Hs1, ?Hn1, ?Hw, ?Hr1, ?Hc1, ?Hi1.
      - done.
      - intros i st0. rewrite lookup_insert. case_decide; [lia|apply Hold].
      - intros i st0. rewrite lookup_insert. case_decide; [done|apply Hlive].
      - exists Closed. by rewrite lookup_insert_eq.
      - done.
      - done. }
    unfold wsHandleClose.
    destruct st; [| |done]; rewrite Hco in Hint; simpl; rewrite Hco.
    + apply Hcl; simpl; destruct (pingInterval c); simpl; rewrite decide_False by (simpl; lia);
        simpl; try done; try lia. rewrite Hint. set_solver.
    + destruct (Hping Hco) as [p Hp]. rewrite Hp in *.
      apply Hcl; simpl; rewrite Hp; simpl; rewrite decide_False by (simpl; lia);
        simpl; try done; try lia. rewrite Hint. set_solver.
  - unfold wsHandleMessage. repeat case_match; try done. by apply output_inv.
  - destruct Hc as [[Hw1 Hw2] Hold Hlive (st & Hst & Hr & Hco) [Ht1 Ht2] [Hint Hping]].
    rewrite Hn in Hr. destruct st; try done. injection Hr as ->. split; simpl.
    + split; [done|lia].
    + intros i st. rewrite lookup_insert. case_decide; [lia|]. intros Hl%Hold. lia.
    + intros i st. rewrite lookup_insert. case_decide; [done|]. intros Hl Hne.
      specialize (Hlive _ _ Hl Hne). subst. congruence.
    + exists Connecting. by rewrite lookup_insert_eq.
    + done.
    + done.
  - by apply emit_inv.
  - by apply emit_inv.
Qed.

Lemma client_reachable_inv c : reachable c → client_inv c.
Proof.
  induction 1 as [|c c' _ IH Hs]; [|by eapply client_inv_step].
  split; simpl.
  - split; [done|lia].
  - intros i st. rewrite lookup_insert. case_decide; [lia|by rewrite lookup_empty].
  - intros i st. rewrite lookup_insert. case_decide; [done|by rewrite lookup_empty].
  - exists Connecting. by rewrite lookup_insert_eq.
  - done.
  - done.
Qed.

(** C30. One connection: as long as the page does not call [disconnect], whatever
    the network does, no socket but the last one is connecting or open; exactly
    when that one is closed a reconnection is due, and only one; [connected] says
    whether it is open; and pings are sent by exactly one timer while it is open
    and by none otherwise. *)
Theorem one_connection c :
  reachable c →
  ∃ i st, ws c = Some i ∧ sockets c !! i = Some st ∧
    (∀ j st', sockets c !! j = Some st' → st' ≠ Closed → j = i) ∧
    reconnects c = (match st with Closed => 1 | _ => 0 end)%nat ∧
    connected c = (match st with Opened => true | _ => false end) ∧
    size (intervals c) = (match st with Opened => 1 | _ => 0 end)%nat.
Proof.
  intros [[Hw _] _ Hlive (st & Hst & Hr & Hco) _ [Hint Hping]]%client_reachable_inv.
  exists (Nat.pred (next_socket c)), st. split_and!; [done..|].
  rewrite Hint, Hco. destruct st; try done. rewrite Hco in Hping.
  destruct (Hping eq_refl) as [p ->]. by rewrite size_singleton.
Qed.

(** [disconnect] tells the listeners and stops reconnecting, but the socket stays
    as it is: messages keep arriving. *)
Lemma disconnect_keeps_socket c : sockets (disconnect c) = sockets c.
Proof. unfold disconnect, wsHandleClose. by repeat case_match. Qed.
End messages.

Lemma one_connection_witness :
  let str := λ (t : string) (_ : Payload), t in
  let parse := λ _ : string, @None (string * Payload) in
  let c := wsHandleOpen (set_socket 0 Opened new_SocketClient) in
  ∃ i st, ws c = Some i ∧ sockets c !! i = Some st ∧
    (∀ j st', sockets c !! j = Some st' → st' ≠ Closed → j = i) ∧
    reconnects c = (match st with Closed => 1 | _ => 0 end)%nat ∧
    connected c = (match st with Opened => true | _ => false end) ∧
    size (intervals c) = (match st with Opened => 1 | _ => 0 end)%nat.
Proof.
  intros str parse c. apply (one_connection str parse).
  eapply reachable_step; [apply reachable_new|]. apply step_open. vm_compute. reflexivity.
Defined.

