(* ===== verification/Async.v ===== *)
(** Asynchronous actions ([src/client/async/*.ts]): an action that is also a
    promise is announced as pending, and dispatched again when it settles. *)

From S2P Require Import Prelude Objects InsertableStreams Actions World.

(** * The actions ([action.ts]) *)

(** The types of the asynchronous actions of the client, with their payloads. *)
Inductive AsyncType := MEDIA_ENUMERATE | MEDIA_STREAM | MEDIA_TRACK | MEDIA_PLAY | DIAL.

Definition payload_of (type : AsyncType) : Type :=
  match type with
  | MEDIA_ENUMERATE => list MediaDevice
  | MEDIA_STREAM => AddLocalStreamPayload
  | MEDIA_TRACK => MediaTrackPayload
  | MEDIA_PLAY | DIAL => unit
  end.

(** The action with a type, a status and the payload that goes with it. *)
Definition async_action (type : AsyncType) : AsyncAction (payload_of type) → Action :=
  match type with
  | MEDIA_ENUMERATE => MediaEnumerateAction
  | MEDIA_STREAM => MediaStreamAction
  | MEDIA_TRACK => MediaTrackAction
  | MEDIA_PLAY => MediaPlayAction
  | DIAL => DialAction
  end.

(** A promise that has settled: with a value, or with an error. *)
Record Settlement := settlement {
  s_type : AsyncType;
  s_outcome : payload_of s_type + JSError;
}.

(** [makeAction]: what the store is given is the promise of [impl], with its type
    and the status ['pending']. *)
Record PendingAction := {
  pa_type : AsyncType;
  pa_promise : nat;
}.

(** * The reducer's cases ([reducer.ts]) *)

Definition reduce {State P} (state : State) (action : AsyncAction P)
    (handlePending : State → State) (handleResolved : State → P → State)
    (handleRejected : State → JSError → State) : State :=
  match action with
  | pending => handlePending state
  | resolved payload => handleResolved state payload
  | rejected payload => handleRejected state payload
  end.

(** * The middleware ([middleware.ts]) *)

Section middleware.
(** The store's state, the next middleware, the store's [dispatch], and the error
    object of an exception. *)
Context {S : Type} (next dispatch : Action → eff S unit) (thrown : js_error → JSError).

(** What reaches the middleware. *)
Inductive Dispatched :=
  | plain (action : Action)
  | promised (action : PendingAction).

(** At once: other actions are passed on; of a promise, that it is pending. *)
Definition middleware (action : Dispatched) : eff S unit :=
  match action with
  | plain action => next action
  | promised action => next (async_action (pa_type action) pending)
  end.

(** The two callbacks on the promise: [.then(...)] and, for its outcome,
    [.catch(...)]. *)
Definition on_settled (s : Settlement) : eff S unit :=
  match s_outcome s with
  | inl payload =>
    catch (dispatch (async_action (s_type s) (resolved payload)))
      (λ err, dispatch (async_action (s_type s) (rejected (thrown err))))
  | inr err => dispatch (async_action (s_type s) (rejected err))
  end.
End middleware.
