(* ===== verification/Store.v ===== *)
(** The page: the store with its reducers and middlewares ([src/client/store.ts],
    [reducers/index.ts], [middlewares.ts], [messaging.ts]), the socket's listeners
    and the handlers of peers, over the world of [World]. *)

From S2P Require Import Prelude Bytes TextCodec Encoder Decoder Objects InsertableStreams InsertableCodec Actions World Streams Peers Media Users Notices Async.

#[local] Abbreviation list := Datatypes.list.

(** * Data *)

(** The state of the store ([combineReducers]). *)
Record State := {
  st_notifications : NotificationState;
  st_messages : MessagesState;
  st_media : MediaState;
  st_nicknames : Nicknames;
  st_peers : PeersState;
  st_streams : StreamsState;
  st_windowStates : WindowStates;
}.

(** A [PeerHandler] ([actions/PeerActions.ts]) and which of its listeners that are
    called once are still there. *)
Record PeerHandler := {
  ph_user : string;
  ph_decoder : DecoderState;
  ph_error : bool;
  ph_connect : bool;
  ph_close : bool;
}.

(** A [SocketHandler] ([actions/SocketActions.ts]). *)
Record SocketHandler := {
  sh_roomName : string;
  sh_stream : option MediaStream;
  sh_userId : string;
  sh_nickname : string;
}.

(** The functions that listen on the socket. *)
Inductive Listener :=
  | h_metadata (h : SocketHandler)
  | h_signal (h : SocketHandler)
  | h_users (h : SocketHandler)
  | h_hangUp (h : SocketHandler)
  | h_record_callback (h : SocketHandler)
  | h_stream_url (h : SocketHandler)
  | resolve_dial (promise : nat)
  | init_connect
  | init_disconnect
  | init_room_created.

Record Registration := {
  r_event : string;
  r_once : bool;
  r_listener : Listener;
}.

#[export] Instance SocketHandler_eq_dec : EqDecision SocketHandler.
Proof. solve_decision. Defined.
#[export] Instance Listener_eq_dec : EqDecision Listener.
Proof. solve_decision. Defined.
#[export] Instance Registration_eq_dec : EqDecision Registration.
Proof. solve_decision. Defined.

(** Promises of the page: the next one's number, those settled, the timeouts that
    reject one, and the settlements whose callbacks are due. *)
Record Promises := {
  next_promise : nat;
  settled : gset nat;
  dial_timeouts : list nat;
  reactions : list Settlement;
}.

Record Page := {
  state : State;
  world : World;
  (** [createMessagingMiddleware]: its encoder, and what the encoder's worker has
      posted and the page has not yet been given *)
  encoder : EncoderState;
  worker_events : list EncoderEvent;
  handlers : gmap PeerRef PeerHandler;
  listeners : list Registration;
  (** whether the [WebSocket] in use is still connecting *)
  connecting : bool;
  promises : Promises;
  (** [new Date()], as the page would show it *)
  now : string;
}.

(** ** Field updates *)

Definition set_state (s : State) (p : Page) : Page :=
  {| state := s; world := world p; encoder := encoder p; worker_events := worker_events p;
     handlers := handlers p; listeners := listeners p; connecting := connecting p;
     promises := promises p; now := now p |}.
Definition set_world (w : World) (p : Page) : Page :=
  {| state := state p; world := w; encoder := encoder p; worker_events := worker_events p;
     handlers := handlers p; listeners := listeners p; connecting := connecting p;
     promises := promises p; now := now p |}.
Definition set_encoder (e : EncoderState) (events : list EncoderEvent) (p : Page) : Page :=
  {| state := state p; world := world p; encoder := e; worker_events := events;
     handlers := handlers p; listeners := listeners p; connecting := connecting p;
     promises := promises p; now := now p |}.
Definition set_handlers (h : gmap PeerRef PeerHandler) (p : Page) : Page :=
  {| state := state p; world := world p; encoder := encoder p; worker_events := worker_events p;
     handlers := h; listeners := listeners p; connecting := connecting p;
     promises := promises p; now := now p |}.
Definition set_listeners (l : list Registration) (p : Page) : Page :=
  {| state := state p; world := world p; encoder := encoder p; worker_events := worker_events p;
     handlers := handlers p; listeners := l; connecting := connecting p;
     promises := promises p; now := now p |}.
Definition set_promises (ps : Promises) (p : Page) : Page :=
  {| state := state p; world := world p; encoder := encoder p; worker_events := worker_events p;
     handlers := handlers p; listeners := listeners p; connecting := connecting p;
     promises := ps; now := now p |}.

(** ** Updates of one part of the state *)

Definition with_messages (f : MessagesState → MessagesState) (s : State) : State :=
  {| st_notifications := st_notifications s; st_messages := f (st_messages s); st_media :=
     st_media s; st_nicknames := st_nicknames s; st_peers := st_peers s; st_streams :=
     st_streams s; st_windowStates := st_windowStates s |}.
Definition with_media (f : MediaState → MediaState) (s : State) : State :=
  {| st_notifications := st_notifications s; st_messages := st_messages s; st_media := f
     (st_media s); st_nicknames := st_nicknames s; st_peers := st_peers s; st_streams :=
     st_streams s; st_windowStates := st_windowStates s |}.
Definition with_nicknames (f : Nicknames → Nicknames) (s : State) : State :=
  {| st_notifications := st_notifications s; st_messages := st_messages s; st_media :=
     st_media s; st_nicknames := f (st_nicknames s); st_peers := st_peers s; st_streams :=
     st_streams s; st_windowStates := st_windowStates s |}.
Definition with_peers (f : PeersState → PeersState) (s : State) : State :=
  {| st_notifications := st_notifications s; st_messages := st_messages s; st_media :=
     st_media s; st_nicknames := st_nicknames s; st_peers := f (st_peers s); st_streams :=
     st_streams s; st_windowStates := st_windowStates s |}.
Definition with_streams (f : StreamsState → StreamsState) (s : State) : State :=
  {| st_notifications := st_notifications s; st_messages := st_messages s; st_media :=
     st_media s; st_nicknames := st_nicknames s; st_peers := st_peers s; st_streams := f
     (st_streams s); st_windowStates := st_windowStates s |}.

(** ** A new page *)

(** [createStore]: the reducers' default states. *)
Definition initial_state (stored : option string) (nickname : string) : State :=
  {| st_notifications := ∅; st_messages := default_messages; st_media := default_media;
     st_nicknames := default_nicknames stored nickname; st_peers := no_peers;
     st_streams := defaultState; st_windowStates := ∅ |}.

(** With the encoder of [createMessagingMiddleware]. *)
Definition new_page (stored : option string) (nickname : string) (w : World) : Page :=
  {| state := initial_state stored nickname; world := w;
     encoder := {| counter := 0; maxMessageSizeBytes := default_maxMessageSizeBytes;
                   scheduled := [] |};
     worker_events := []; handlers := ∅; listeners := []; connecting := true;
     promises := {| next_promise := 0; settled := ∅; dial_timeouts := []; reactions := [] |};
     now := "" |}.

(** * What is not the program's *)

(** The page's constants ([window.ts] reads them from the document), the
    formatting of dates, and the messages of the engine's own exceptions. *)
Class Window := {
  userId : string;
  callId : string;
  toLocaleString : string → string;
  exception_message : js_error → string;
}.

(** [JSON] on chat messages: parsing gives back what was stringified; the text has
    no lone surrogates and is not empty. *)
Class JSON `{TextCodec} := {
  stringify : MessageType → string;
  parse : string → option MessageType;
  parse_stringify m : parse (stringify m) = Some m;
  stringify_well_formed m : well_formed (stringify m);
  stringify_not_empty m : text_encode (stringify m) ≠ [];
}.

(** An operation of the world, for the page. *)
Definition lift {A} (m : eff World A) : eff Page A := λ p,
  let '(r, w) := m (world p) in (r, set_world w p).

(** The [Error] object of an exception. *)
Definition thrown `{Window} (e : js_error) : JSError :=
  match e with
  | Error message => {| error_name := "Error"; error_message := message |}
  | RangeError => {| error_name := "RangeError"; error_message := exception_message e |}
  | TypeError => {| error_name := "TypeError"; error_message := exception_message e |}
  end.

Section store.
Context `{Platform} `{Lodash} `{ObjectKeys} `{EncodedStreams} `{TextCodec} `{!JSON} `{Window}.

(** * The reducers ([reducers/index.ts]) *)

(** [combineReducers]: each reducer in turn; an exception of one ends it. *)
Definition reducers (time : string) (s : State) (action : Action) : eff World State :=
  n ← notifications (st_notifications s) action;
  let m := messages toLocaleString time (st_messages s) action in
  let md := media (st_media s) action in
  let nn := nicknames userId (st_nicknames s) action in
  ps ← peers (st_peers s) action;
  ss ← streams (st_streams s) action;
  let ws := windowStates (st_windowStates s) action in
  mret {| st_notifications := n; st_messages := m; st_media := md; st_nicknames := nn;
          st_peers := ps; st_streams := ss; st_windowStates := ws |}.

(** The store's own [dispatch]: the state changes only when the reducers end
    normally. *)
Definition store_reduce (action : Action) : eff Page unit :=
  s ← gets state;
  time ← gets now;
  s' ← lift (reducers time s action);
  modify (set_state s').

(** * Messaging ([messaging.ts]) *)

(** [{...payload, userId}] *)
Definition with_userId (userId : string) (m : MessageType) : MessageType :=
  match m with
  | TextMessage _ payload timestamp => TextMessage userId payload timestamp
  | FileMessage _ payload timestamp => FileMessage userId payload timestamp
  end.

Definition message_data (payload : MessageType) : DataContainer :=
  {| dc_senderId := userId; dc_data := text_encode (stringify payload) |}.

Definition messaging (next : Action → eff Page unit) (action : Action) : eff Page unit :=
  match action with
  | MessageSendAction payload =>
    modify (λ p, set_encoder (encode (encoder p) (message_data payload)).1 (worker_events p) p)
      ≫= λ _,
    next (MessageAddAction (with_userId ME payload))
  | _ => next action
  end.

(** * Dispatch ([middlewares.ts], [store.ts]) *)

(** Plain actions: the asynchronous middleware passes them on to messaging, which
    is next to the reducers. *)
Definition dispatch_plain (action : Action) : eff Page unit := messaging store_reduce action.

Definition dispatch (action : Dispatched) : eff Page unit := middleware dispatch_plain action.

(** [dispatch(NotifyActions....)] *)
Definition dispatch_notify (creator : list string → eff World Action) (args : list string) :
    eff Page unit :=
  action ← lift (creator args);
  dispatch_plain action.

(** ** Promises *)

Definition with_promises (f : Promises → Promises) : eff Page unit :=
  modify (λ p, set_promises (f (promises p)) p).

(** [resolve], [reject]: the first one counts. *)
Definition settle (promise : nat) (s : Settlement) : eff Page unit :=
  with_promises (λ ps,
    if decide (promise ∈ settled ps) then ps
    else {| next_promise := next_promise ps; settled := {[promise]} ∪ settled ps;
            dial_timeouts := dial_timeouts ps; reactions := reactions ps ++ [s] |}).

(** The next reaction that is due: the callbacks of the middleware. *)
Definition run_reaction : eff Page unit :=
  ps ← gets promises;
  match reactions ps with
  | [] => mret tt
  | s :: rest =>
    with_promises (λ ps, {| next_promise := next_promise ps; settled := settled ps;
                            dial_timeouts := dial_timeouts ps; reactions := rest |}) ≫= λ _,
    on_settled dispatch_plain thrown s
  end.

(** ** The encoder's events *)

(** The [setTimeout] of [encode]: the worker gets the next payload and posts its
    events; there is always enough fuel. *)
Definition run_encoder : eff Page unit :=
  modify (λ p,
    match scheduled (encoder p) with
    | [] => p
    | payload :: rest =>
      set_encoder {| counter := counter (encoder p);
                     maxMessageSizeBytes := maxMessageSizeBytes (encoder p);
                     scheduled := rest |}
        (worker_events p ++
         match workerFunc (encode_fuel payload) payload with
         | Some (posted, _) => posted
         | None => []
         end) p
    end).

(** The listener of the ['data'] events: a peer that throws is passed over. *)
Definition send_chunk (chunk : u8array) : eff Page unit :=
  ps ← gets (λ p, st_peers (state p));
  for_each (λ peer,
    catch (lift (call_peer peer (p_send chunk)) ≫= λ _, mret tt)
      (λ err, lift (error ["Error sending message to peer: {0}"; error_to_string (thrown err)])
              ≫= λ _, mret tt)) (peer_list ps).

(** The next message of the worker. *)
Definition run_worker_event : eff Page unit :=
  events ← gets worker_events;
  match events with
  | [] => mret tt
  | e :: rest =>
    modify (λ p, set_encoder (encoder p) rest p) ≫= λ _,
    match e with
    | ChunkEvent _ _ _ _ chunk => send_chunk chunk
    | ErrorEvent _ _ err =>
      dispatch_notify error ["Error sending file: {0}"; error_to_string (thrown err)]
    | DoneEvent _ _ => mret tt
    end
  end.
End store.

(** * Instances *)

(** The page of a user. *)
Definition some_window (user : string) : Window := {|
  userId := user; callId := "room"; toLocaleString t := t; exception_message _ := "";
|}.
