(* ===== verification/PeerActions.v ===== *)
(** Connections to peers ([src/client/actions/PeerActions.ts]): making a peer, and
    the handlers of its events; the mute handlers of its tracks. *)

From S2P Require Import Prelude Bytes TextCodec Encoder Decoder Objects InsertableStreams InsertableCodec Actions World Streams Peers Media Users Notices Async Store.

#[local] Abbreviation list := Datatypes.list.

(** The events of simple-peer that have a handler. *)
Inductive PeerEvent :=
  | peer_error
  | peer_connect
  | peer_close
  | peer_signal (signal : string)
  | peer_track (track : MediaStreamTrack) (muted : bool) (stream : MediaStream)
      (mid : string) (receiver : nat)
  | peer_data (buffer : u8array).

(** ** The handlers of a track, found in what the page has done: setting them, and
    clearing them when the track is stopped *)

Definition onmute_of (es : list Effect) (t : MediaStreamTrack) : bool :=
  foldl (λ h e, match e with
    | OnMuteSet t' => if decide (t' = t) then true else h
    | TrackHandlersCleared t' => if decide (t' = t) then false else h
    | _ => h
    end) false es.

Definition onunmute_of (es : list Effect) (t : MediaStreamTrack) : option AddTrackPayload :=
  foldl (λ h e, match e with
    | OnUnmuteSet t' payload => if decide (t' = t) then Some payload else h
    | TrackHandlersCleared t' => if decide (t' = t) then None else h
    | _ => h
    end) None es.

Section actions.
Context `{Platform} `{Lodash} `{ObjectKeys} `{EncodedStreams} `{TextCodec} `{!JSON} `{Window}.

Definition peer_of (user : string) : eff Page (option PeerRef) :=
  gets (λ p, st_peers (state p) !! user).

(** [socket.emit]: [send] throws while the socket is connecting. *)
Definition socket_emit (message : SocketMessage) : eff Page unit :=
  c ← gets connecting;
  if (c : bool) then throw (Error "InvalidStateError") else lift (World.emit (SocketSent message)).

(** * [class PeerHandler] *)

Section handler.
Variable user : string.

Definition handleError : eff Page unit :=
  dispatch_notify error ["A peer connection error occurred"] ≫= λ _,
  peer ← peer_of user;
  match peer with
  | Some peer => lift (call_peer peer p_destroy) ≫= λ _, mret tt
  | None => mret tt
  end ≫= λ _,
  dispatch_plain (RemovePeerAction user).

Definition handleSignal (signal : string) : eff Page unit :=
  socket_emit (sent_signal user signal).

(** The local streams are shared with the peer that has connected; a peer that is
    not in the state any more is [undefined]. *)
Definition handleConnect : eff Page unit :=
  dispatch_notify warning ["Peer connection established"] ≫= λ _,
  peer ← peer_of user;
  locals ← gets (λ p, localStreams (st_streams (state p)));
  for_each (λ '(_, s),
    tracks ← lift (getTracks (stream (ls_stream s)));
    for_each (λ track,
      match peer with
      | Some peer => lift (addTrackToPeer peer track (stream (ls_stream s)))
      | None => throw TypeError
      end) tracks) (object_entries locals).

Definition handleTrack (track : MediaStreamTrack) (muted : bool) (stream : MediaStream)
    (mid : string) (receiver : nat) : eff Page unit :=
  let payload := {| at_mid := mid; at_streamId := stream_id stream; at_userId := user;
                    at_track := track |} in
  lift (codec_op (Decrypt receiver mid user)) ≫= λ _,
  lift (World.emit (OnMuteSet track)) ≫= λ _,
  (if muted then mret tt else dispatch_plain (AddTrackAction payload)) ≫= λ _,
  lift (World.emit (OnUnmuteSet track payload)).

(** [handleData], the decoder's part: the decoder is the handler's. *)
Definition decode_buffer (peer : PeerRef) (buffer : u8array) :
    eff Page (option DataContainer) := λ p,
  match handlers p !! peer with
  | Some h =>
    let '(st, r) := decode (ph_decoder h) buffer in
    (r, set_handlers (<[peer := {| ph_user := ph_user h; ph_decoder := st;
                                   ph_error := ph_error h; ph_connect := ph_connect h;
                                   ph_close := ph_close h |}]> (handlers p)) p)
  | None => (Ok None, p)
  end.

(** Text that is not JSON makes [JSON.parse] throw. *)
Definition handleData (peer : PeerRef) (buffer : u8array) : eff Page unit :=
  dataContainer ← decode_buffer peer buffer;
  match dataContainer with
  | None => mret tt
  | Some container =>
    match parse (text_decode (dc_data container)) with
    | Some message => dispatch_plain (MessageAddAction message)
    | None => throw (Error "SyntaxError")
    end
  end.

Definition handleClose : eff Page unit :=
  dispatch_notify error ["Peer connection closed"] ≫= λ _,
  dispatch_plain (RemovePeerAction user).
End handler.

(** ** Events of a peer *)

(** Removes the listener of an event that is handled once, and says whether it
    was there. *)
Definition take_once (peer : PeerRef) (event : PeerEvent) : eff Page (option string) := λ p,
  match handlers p !! peer with
  | None => (Ok None, p)
  | Some h =>
    let put e c cl := set_handlers (<[peer := {| ph_user := ph_user h;
      ph_decoder := ph_decoder h; ph_error := e; ph_connect := c; ph_close := cl |}]>
      (handlers p)) p in
    match event with
    | peer_error =>
        (Ok (if ph_error h then Some (ph_user h) else None), put false (ph_connect h) (ph_close h))
    | peer_connect =>
        (Ok (if ph_connect h then Some (ph_user h) else None), put (ph_error h) false (ph_close h))
    | peer_close =>
        (Ok (if ph_close h then Some (ph_user h) else None), put (ph_error h) (ph_connect h) false)
    | _ => (Ok (Some (ph_user h)), p)
    end
  end.

(** [peer.emit(event)]: the handler [createPeer] registered. *)
Definition on_peer_event (peer : PeerRef) (event : PeerEvent) : eff Page unit :=
  user ← take_once peer event;
  match user with
  | None => mret tt
  | Some user =>
    match event with
    | peer_error => handleError user
    | peer_connect => handleConnect user
    | peer_close => handleClose user
    | peer_signal signal => handleSignal user signal
    | peer_track track muted stream mid receiver => handleTrack user track muted stream mid receiver
    | peer_data buffer => handleData peer buffer
    end
  end.

(** The track's [mute] and [unmute] events. *)
Definition on_track_event (t : MediaStreamTrack) (muted : bool) : eff Page unit :=
  es ← gets (λ p, effects (world p));
  if muted then
    (if onmute_of es t then dispatch_plain (RemoveTrackAction t) else mret tt)
  else match onunmute_of es t with
       | Some payload => dispatch_plain (AddTrackAction payload)
       | None => mret tt
       end.

(** * [createPeer] *)

Definition new_handler (user : string) : PeerHandler :=
  {| ph_user := user; ph_decoder := ∅; ph_error := true; ph_connect := true; ph_close := true |}.

Definition createPeer (user : string) (initiator : bool) (stream : option MediaStream) :
    eff Page unit :=
  dispatch_notify warning ["Connecting to peer..."] ≫= λ _,
  oldPeer ← peer_of user;
  match oldPeer with
  | Some oldPeer =>
    dispatch_notify info ["Cleaning up old connection..."] ≫= λ _,
    lift (call_peer oldPeer p_destroy) ≫= λ _,
    dispatch_plain (RemovePeerAction user)
  | None => mret tt
  end ≫= λ _,
  peer ← lift (new_Peer initiator stream);
  modify (λ p, set_handlers (<[peer := new_handler user]> (handlers p)) p) ≫= λ _,
  dispatch_plain (AddPeerAction user peer).
End actions.
