(* ===== verification/CallActions.v ===== *)
(** The call ([src/client/actions/SocketActions.ts], [actions/CallActions.ts]): the
    handlers of the server's messages, dialling and hanging up. *)

From S2P Require Import Prelude Bytes TextCodec Encoder Decoder Objects InsertableStreams InsertableCodec Actions World Streams Peers Media Users Notices Async Store PeerActions.

#[local] Abbreviation list := Datatypes.list.

(** * Messages of the server ([SocketEvent.ts]) *)

Record UsersPayload := {
  initiator : string;
  peerIds : list string;
  user_nicknames : gmap string string;
  users_recordStatus : bool;
  (** [recordUrl], which may be missing *)
  users_recordUrl : option string;
}.

Inductive SocketEvent :=
  | ev_users (payload : UsersPayload)
  (** ["users"] with [null] for the peers and no nicknames *)
  | ev_users_null (initiator : string) (recordStatus : bool)
  | ev_metadata (payload : MetadataPayload)
  | ev_hangUp (userId : string)
  | ev_record_callback (successful recordStatus : bool) (url : option string)
  | ev_signal (userId signal : string)
  | ev_room_created (creatorId : string)
  | ev_stream_url (stream_url : string)
  | ev_connect
  | ev_disconnect.

Definition event_name (ev : SocketEvent) : string :=
  match ev with
  | ev_users _ | ev_users_null _ _ => "users"
  | ev_metadata _ => "metadata"
  | ev_hangUp _ => "hangUp"
  | ev_record_callback _ _ _ => "record_callback"
  | ev_signal _ _ => "signal"
  | ev_room_created _ => "room_created"
  | ev_stream_url _ => "stream_url"
  | ev_connect => "connect"
  | ev_disconnect => "disconnect"
  end.

Section call.
Context `{Platform} `{Lodash} `{ObjectKeys} `{EncodedStreams} `{TextCodec} `{!JSON} `{Window}.

(** * [class SocketHandler] *)

Section handler.
Variable h : SocketHandler.

Definition handleRemoteSignal (user signal : string) : eff Page unit :=
  peer ← peer_of user;
  match peer with
  | None => mret tt
  | Some peer => lift (call_peer peer (p_signal signal)) ≫= λ _, mret tt
  end.

(** One user has hung up. *)
Definition handleHangUp (user : string) : eff Page unit :=
  dispatch_plain (NicknameRemoveAction user).

Definition handleRecordCallback (successful recordStatus : bool) (url : option string) :
    eff Page unit :=
  if successful then
    dispatch_plain (RecordAction recordStatus) ≫= λ _,
    if recordStatus then
      dispatch_plain (RecordLocalStreamAction {|
        recordUrl := default "undefined" url +:+ "/" +:+ sh_roomName h +:+ "/" +:+ sh_userId h;
        roomID := sh_roomName h;
        userID := sh_userId h |})
    else dispatch_plain StopRecordLocalStreamAction
  else mret tt.

Definition handleMetadata (payload : MetadataPayload) : eff Page unit :=
  dispatch_plain (TracksMetadataAction payload) ≫= λ _,
  lift (codec_op (SetTrackMetadata (mp_metadata payload))) ≫= λ _, mret tt.

(** The peers are those there were when the message came. *)
Definition handleUsers (payload : UsersPayload) : eff Page unit :=
  dispatch_notify info ["Connected users: {0}";
    pretty (N.of_nat (size (user_nicknames payload)))] ≫= λ _,
  ps ← gets (λ p, st_peers (state p));
  let isInitiator := bool_decide (initiator payload = sh_userId h) in
  handleRecordCallback (users_recordStatus payload) (users_recordStatus payload)
    (users_recordUrl payload) ≫= λ _,
  dispatch_plain (NicknamesSetAction (user_nicknames payload)) ≫= λ _,
  for_each (λ peerId, createPeer peerId isInitiator (sh_stream h))
    (filter (λ peerId, (ps : PeersState) !! peerId = None ∧ peerId ≠ sh_userId h)
       (peerIds payload)).

(** With [null] for the peers [peerIds.filter] throws. *)
Definition handleUsers_null (initiator : string) (status : bool) : eff Page unit :=
  handleUsers {| initiator := initiator; peerIds := []; user_nicknames := ∅;
                 users_recordStatus := status; users_recordUrl := None |} ≫= λ _,
  throw TypeError.

(** An [async] function: an exception is that of a promise nobody looks at. *)
Definition handleSetStreamUrl (stream_url : string) : eff Page unit :=
  catch (dispatch_notify info [stream_url] ≫= λ _,
         lift (World.emit (ClipboardWritten stream_url))) (λ _, mret tt).
End handler.

(** * The socket's listeners *)

Definition add_listener (once : bool) (event : string) (l : Listener) : eff Page unit :=
  modify (λ p, set_listeners
    (listeners p ++ [{| r_event := event; r_once := once; r_listener := l |}]) p).

Definition removeAllListeners (event : string) : eff Page unit :=
  modify (λ p, set_listeners (filter (λ r, r_event r ≠ event) (listeners p)) p).

Definition removeEventListeners : eff Page unit :=
  removeAllListeners "metadata" ≫= λ _,
  removeAllListeners "signal" ≫= λ _,
  removeAllListeners "users" ≫= λ _,
  removeAllListeners "hangUp".

Definition handshake (roomName nickname : string) (stream : option MediaStream) :
    eff Page unit :=
  let handler := {| sh_roomName := roomName; sh_stream := stream; sh_userId := userId;
                    sh_nickname := nickname |} in
  removeEventListeners ≫= λ _,
  add_listener false "metadata" (h_metadata handler) ≫= λ _,
  add_listener false "signal" (h_signal handler) ≫= λ _,
  add_listener false "users" (h_users handler) ≫= λ _,
  add_listener false "hangUp" (h_hangUp handler) ≫= λ _,
  add_listener false "record_callback" (h_record_callback handler) ≫= λ _,
  add_listener false "stream_url" (h_stream_url handler) ≫= λ _,
  socket_emit (sent_ready roomName nickname nickname).

(** * [CallActions.ts] *)

(** [init]: the listeners, and what they do. *)
Definition init : eff Page unit :=
  add_listener false "connect" init_connect ≫= λ _,
  add_listener false "disconnect" init_disconnect ≫= λ _,
  add_listener false "room_created" init_room_created.

Definition on_connect : eff Page unit :=
  dispatch_notify warning ["Connected to server socket"] ≫= λ _,
  dispatch_plain ConnectedAction ≫= λ _,
  socket_emit (sent_create_room callId userId).

Definition on_disconnect : eff Page unit :=
  dispatch_notify error ["Server socket disconnected"] ≫= λ _,
  dispatch_plain DisconnectedAction.

Definition new_promise : eff Page nat := λ p,
  let ps := promises p in
  (Ok (next_promise ps),
   set_promises {| next_promise := S (next_promise ps); settled := settled ps;
                   dial_timeouts := dial_timeouts ps; reactions := reactions ps |} p).

Definition dial_settled (outcome : unit + JSError) : Settlement := settlement DIAL outcome.

(** [dial(params)], dispatched: the promise's executor runs first; if it throws,
    the promise is rejected. *)
Definition dial (nickname : string) : eff Page unit :=
  n ← new_promise;
  catch (handshake callId nickname None ≫= λ _,
         add_listener true "users" (resolve_dial n) ≫= λ _,
         with_promises (λ ps,
           {| next_promise := next_promise ps; settled := settled ps;
              dial_timeouts := dial_timeouts ps ++ [n]; reactions := reactions ps |}))
    (λ err, settle n (dial_settled (inr (thrown err)))) ≫= λ _,
  dispatch (promised {| pa_type := DIAL; pa_promise := n |}).

(** The timeout of a dial, after ten seconds. *)
Definition dial_timeout (n : nat) : eff Page unit :=
  with_promises (λ ps,
    {| next_promise := next_promise ps; settled := settled ps;
       dial_timeouts := filter (λ m, m ≠ n) (dial_timeouts ps);
       reactions := reactions ps |}) ≫= λ _,
  settle n (dial_settled (inr {| error_name := "Error"; error_message := "Dial timed out!" |})).

(** [hangUp()], dispatched. *)
Definition hangUp_call : eff Page unit :=
  socket_emit (sent_hangUp userId) ≫= λ _,
  removeEventListeners ≫= λ _,
  dispatch_plain HangUpAction.

(** * A message of the server *)

Definition call_listener (l : Listener) (ev : SocketEvent) : eff Page unit :=
  match l, ev with
  | h_metadata h, ev_metadata payload => handleMetadata payload
  | h_signal h, ev_signal user signal => handleRemoteSignal user signal
  | h_users h, ev_users payload => handleUsers h payload
  | h_users h, ev_users_null initiator status => handleUsers_null h initiator status
  | h_hangUp h, ev_hangUp user => handleHangUp user
  | h_record_callback h, ev_record_callback ok status url => handleRecordCallback h ok status url
  | h_stream_url h, ev_stream_url url => handleSetStreamUrl url
  | resolve_dial n, (ev_users _ | ev_users_null _ _) => settle n (dial_settled (inl tt))
  | init_connect, ev_connect => on_connect
  | init_disconnect, ev_disconnect => on_disconnect
  | init_room_created, ev_room_created creatorId => dispatch_plain (AddCreatorIdAction creatorId)
  | _, _ => mret tt
  end.

(** [emitter.emit]: the listeners there are at the time, in order; one that was
    registered for once is removed before it is called; an exception ends it. *)
Definition emit_event (ev : SocketEvent) : eff Page unit :=
  ls ← gets (λ p, filter (λ r, r_event r = event_name ev) (listeners p));
  for_each (λ r,
    (if r_once r then
       modify (λ p, set_listeners (filter (λ r', r' ≠ r) (listeners p)) p)
     else mret tt) ≫= λ _,
    call_listener (r_listener r) ev) ls.
End call.
