(* ===== verification/Chat.v ===== *)
(** Chat from page to page: a message sent on one page ([src/client/messaging.ts],
    [actions/ChatActions.ts]) reaches the messages of another
    ([actions/PeerActions.ts], [handleData]). *)

From S2P Require Import Prelude Numbers Bytes Header TextCodec Encoder Decoder Codec Objects InsertableStreams InsertableCodec Actions World StreamsInv Streams Peers Media Users Notices Async Store PeerActions.

#[local] Abbreviation list := Datatypes.list.

(** The entries of the chat. *)
Definition messages_of (p : Page) : list Notices.Message := Notices.list (st_messages (state p)).

Section chat.
Context `{Platform} `{Lodash} `{ObjectKeys} `{EncodedStreams} `{TextCodec} `{!JSON} `{Window}.

(** * The creators ([ChatActions.ts]) *)

Definition addMessage (message : MessageType) : Action := MessageAddAction message.
Definition sendMessage (message : MessageType) : Action := MessageSendAction message.

(** [timestamp]: the present in ISO format. *)
Definition sendText (payload timestamp : string) : Action :=
  sendMessage (TextMessage userId payload timestamp).

(** [sendFile]: without a [FileReader] an error is shown; with one, [data] is the
    data url it has read by the time given. *)
Definition sendFile (has_FileReader : bool) (name : string) (size : Z)
    (type data timestamp : string) : eff Page unit :=
  if negb has_FileReader then
    dispatch_notify error ["File API is not supported by your browser"]
  else
    dispatch_plain (sendMessage (FileMessage userId
      {| file_name := name; file_size := size; file_type := type; file_data := data |}
      timestamp)).

(** * Messages in the store *)

(** The page with one more message in its list. *)
Definition show_message (m : MessageType) (p : Page) : Page :=
  set_state (with_messages (λ ms, handleMessage toLocaleString ms m) (state p)) p.

Lemma dispatch_message m p : dispatch_plain (MessageAddAction m) p = (Ok tt, show_message m p).
Proof. destruct p as [[] ? ? ? ? ? ? ? ?]. reflexivity. Qed.

Lemma dispatch_send m p :
  dispatch_plain (MessageSendAction m) p =
  (Ok tt, show_message (with_userId ME m)
     (set_encoder (encode (encoder p) (message_data m)).1 (worker_events p) p)).
Proof. apply (dispatch_message (with_userId ME m)). Qed.

(** * Receiving *)

Definition with_decoder (st : DecoderState) (h : PeerHandler) : PeerHandler :=
  {| ph_user := ph_user h; ph_decoder := st; ph_error := ph_error h;
     ph_connect := ph_connect h; ph_close := ph_close h |}.

(** One buffer: the decoder makes nothing of it yet, or a message of it. *)
Lemma receive_one peer h b q st r :
  handlers q !! peer = Some h → decode (ph_decoder h) b = (st, Ok r) →
  (∀ dc, r = Some dc → ∃ m, parse (text_decode (dc_data dc)) = Some m) →
  let q' := set_handlers (<[peer := with_decoder st h]> (handlers q)) q in
  on_peer_event peer (peer_data b) q =
  (Ok tt, match r ≫= λ dc, parse (text_decode (dc_data dc)) with
          | Some m => show_message m q' | None => q' end).
Proof.
  intros Hh Hd Hr q'. unfold on_peer_event.
  rewrite (bind_runs _ _ q (Some (ph_user h)) q) by (unfold take_once; by rewrite Hh).
  unfold handleData.
  rewrite (bind_runs _ _ q r q') by (unfold decode_buffer; by rewrite Hh, Hd).
  destruct r as [dc|]; [|done].
  destruct (Hr dc eq_refl) as [m Hm]. simpl. rewrite Hm. apply dispatch_message.
Qed.

Lemma receive_all peer dc m k : ∀ inputs q h st,
  handlers q !! peer = Some h →
  decode_all (ph_decoder h) inputs = (st, replicate k (Ok None) ++ [Ok (Some dc)]) →
  parse (text_decode (dc_data dc)) = Some m →
  for_each (λ b, on_peer_event peer (peer_data b)) inputs q =
  (Ok tt, show_message m (set_handlers (<[peer := with_decoder st h]> (handlers q)) q)).
Proof.
  induction k as [|k IH]; intros [|b inputs] q h st Hh Hd Hm; try done; cbn [decode_all] in Hd;
    destruct (decode (ph_decoder h) b) as [st1 r] eqn:E1;
    destruct (decode_all st1 inputs) as [st2 rs] eqn:E2; injection Hd as -> -> Hrs;
    cbn [for_each].
  - assert (inputs = []) as ->.
    { destruct inputs; [done|]. cbn [decode_all] in E2. repeat case_match. by simplify_eq. }
    injection E2 as ->. erewrite bind_runs;
      [|apply (receive_one _ h _ _ st (Some dc)); [done|done|intros dc' [= <-]; by eexists]].
    simpl. by rewrite Hm.
  - erewrite bind_runs; [|by apply (receive_one _ h _ _ st1 None)].
    simpl in Hrs. subst rs.
    simpl. rewrite (IH _ _ (with_decoder st1 h) st); [|by apply lookup_insert_eq|done|done].
    simpl. by rewrite insert_insert_eq.
Qed.

(** * Sending *)

(** The same page but for the world and what is in the worker's queue. *)
Definition only_world (p p' : Page) : Prop := p' = set_world (world p') p.

(** What goes out for a chunk: it is sent on each peer, in their order. *)
Definition chunk_log (ps : PeersState) (chunk : u8array) : list Effect :=
  (λ peer, PeerCalled peer (p_send chunk)) <$> peer_list ps.

Lemma only_world_trans p1 p2 p3 : only_world p1 p2 → only_world p2 p3 → only_world p1 p3.
Proof. unfold only_world. intros -> ->. by destruct p1. Qed.

(** Sending on one peer cannot fail: an exception is caught. *)
Lemma send_one chunk peer p :
  ∃ p', catch (lift (call_peer peer (p_send chunk)) ≫= λ _, mret tt)
    (λ err, lift (error ["Error sending message to peer: {0}"; error_to_string (thrown err)])
            ≫= λ _, mret tt) p = (Ok tt, p') ∧ only_world p p' ∧
    effects (world p') = effects (world p) ++ [PeerCalled peer (p_send chunk)].
Proof.
  unfold catch, mbind, eff_bind, lift, call_peer.
  destruct (peer_call (effects (world p)) peer (p_send chunk)) as [n|e]; simpl;
    (eexists; split; [reflexivity|]); split; by destruct p.
Qed.

Lemma send_chunk_run chunk p :
  ∃ p', send_chunk chunk p = (Ok tt, p') ∧ only_world p p' ∧
    effects (world p') = effects (world p) ++ chunk_log (st_peers (state p)) chunk.
Proof.
  unfold send_chunk, chunk_log. rewrite (bind_runs _ _ p (st_peers (state p)) p) by done.
  generalize (peer_list (st_peers (state p))). intros l. revert p.
  induction l as [|peer l IH]; intros p.
  { exists p. split_and!; [done|by destruct p|by rewrite app_nil_r]. }
  destruct (send_one chunk peer p) as (p1 & H1' & Ho1 & He1). cbn [for_each].
  rewrite (bind_runs _ _ _ _ _ H1').
  destruct (IH p1) as (p2 & H2' & Ho2 & He2). exists p2. split_and!; [done| |].
  - by eapply only_world_trans.
  - by rewrite He2, He1, <-(assoc_L (++)).
Qed.

Lemma run_encoder_first p payload rest posted r :
  scheduled (encoder p) = payload :: rest →
  workerFunc (encode_fuel payload) payload = Some (posted, r) →
  run_encoder p = (Ok tt, set_encoder {| counter := counter (encoder p);
    maxMessageSizeBytes := maxMessageSizeBytes (encoder p); scheduled := rest |}
    (worker_events p ++ posted) p).
Proof. intros Hs Hw. unfold run_encoder, modify. by rewrite Hs, Hw. Qed.

(** [n] messages of the worker. *)
Definition run_worker_events (n : nat) : eff Page unit :=
  for_each (λ _, run_worker_event) (replicate n tt).

Definition no_error (e : EncoderEvent) : Prop :=
  match e with ErrorEvent _ _ _ => False | _ => True end.

Lemma worker_event_run e rest p :
  worker_events p = e :: rest → no_error e →
  ∃ p', run_worker_event p = (Ok tt, p') ∧
    state p' = state p ∧ encoder p' = encoder p ∧ worker_events p' = rest ∧
    effects (world p') = effects (world p) ++ (wire [e] ≫= chunk_log (st_peers (state p))).
Proof.
  intros Hp He. unfold run_worker_event.
  rewrite (bind_runs _ _ p (e :: rest) p) by (unfold gets; by rewrite Hp).
  rewrite (bind_runs _ _ p tt (set_encoder (encoder p) rest p)) by done.
  destruct e as [mid i n sid chunk|mid sid|]; [| |done].
  - destruct (send_chunk_run chunk (set_encoder (encoder p) rest p)) as (p' & Hrun & Ho & Heff).
    exists p'. split_and!; [done|by rewrite Ho|by rewrite Ho|by rewrite Ho|].
    rewrite Heff. simpl. by rewrite app_nil_r.
  - eexists. split; [reflexivity|]. simpl. by rewrite app_nil_r.
Qed.

Lemma worker_events_run rest es : ∀ p,
  worker_events p = es ++ rest → Forall no_error es →
  ∃ p', run_worker_events (length es) p = (Ok tt, p') ∧
    state p' = state p ∧ encoder p' = encoder p ∧ worker_events p' = rest ∧
    effects (world p') = effects (world p) ++ (wire es ≫= chunk_log (st_peers (state p))).
Proof.
  unfold run_worker_events. induction es as [|e es IH]; intros p Hp Hes.
  { exists p. split_and!; try done. simpl. by rewrite app_nil_r. }
  apply Forall_cons in Hes as [He Hes].
  destruct (worker_event_run e (es ++ rest) p Hp He) as (p1 & H1' & Hs1 & Hc1 & Hw1 & Hf1).
  destruct (IH p1 Hw1 Hes) as (p2 & H2' & Hs2 & Hc2 & Hw2 & Hf2).
  exists p2. cbn [length replicate for_each]. rewrite (bind_runs _ _ _ _ _ H1').
  split_and!; [done|by rewrite Hs2|by rewrite Hc2|done|].
  rewrite Hf2, Hf1, Hs1, <-(assoc_L (++)). f_equal.
  unfold wire. rewrite <-bind_app. f_equal. by rewrite <-omap_app.
Qed.
End chat.

(** * From page to page *)

Section delivery.
Context `{Lodash} `{ObjectKeys} `{TextCodec} `{!JSON}.
(** The two pages have their own browsers and constants. *)
Context (P_s P_r : Platform) (E_s E_r : EncodedStreams) (W_s W_r : Window).

(** The sender's operations, and the receiver's. *)
Definition page_sends (m : MessageType) : eff Page unit :=
  @dispatch_plain P_s _ _ E_s _ _ W_s (MessageSendAction m).
Definition sender_data (m : MessageType) : DataContainer := @message_data _ _ W_s m.
Definition sender_shows (m : MessageType) : Page → Page := @show_message W_s (with_userId ME m).
Definition page_receives (peer : PeerRef) (buffer : u8array) : eff Page unit :=
  @on_peer_event P_r _ _ E_r _ _ W_r peer (peer_data buffer).
Definition receiver_shows (m : MessageType) : Page → Page := @show_message W_r m.

(** Sending a message shows it on the sender's page as
    its own, and only that changes in the store; once the encoder has run, every
    chunk of it has been sent on each of the peers there are, in order, whichever
    of them throw; and a page that is given those chunks by its peer shows the
    message as it was sent, once, with nothing else changed. *)
Lemma chat_delivered m s :
  counter_ok (counter (encoder s)) → encodable (encoder s) (sender_data m) →
  scheduled (encoder s) = [] → worker_events s = [] →
  ∃ s1 s2 s3 n chunks,
    page_sends m s = (Ok tt, s1) ∧ state s1 = state (sender_shows m s) ∧
    run_encoder s1 = (Ok tt, s2) ∧
    @run_worker_events P_s _ _ E_s _ _ W_s n s2 = (Ok tt, s3) ∧
    worker_events s3 = [] ∧ state s3 = state s1 ∧
    effects (world s3) = effects (world s) ++ (chunks ≫= chunk_log (st_peers (state s))) ∧
    ∀ r peer h,
      handlers r !! peer = Some h →
      ph_decoder h !! chunk_id (@userId W_s) (encode (encoder s) (sender_data m)).2 = None →
      for_each (page_receives peer) chunks r = (Ok tt, receiver_shows m r).
Proof.
  intros Hc He Hsch Hw. set (d := sender_data m) in *. set (p := Codec.payload_of (encoder s) d).
  pose proof (encodable_message_ok _ d Hc He) as Hp. fold p in Hp.
  assert (0 < capacity p)%nat as Hcap by apply Hp.
  set (posted := (chunk_event p <$> seq 0 (n_chunks p)) ++ [done_event p]).
  pose proof (dispatch_send (H := P_s) (H2 := E_s) (H5 := W_s) m s) as Hsend.
  set (s1 := show_message _ _) in Hsend.
  assert (run_encoder s1 = (Ok tt, set_encoder {| counter := next_counter (counter (encoder s));
      maxMessageSizeBytes := maxMessageSizeBytes (encoder s); scheduled := [] |} posted s1))
    as Henc.
  { change posted with ([] ++ posted). rewrite <-Hw.
    apply (run_encoder_first s1 p [] posted (Ok tt)); [|by apply workerFunc_spec].
    change (scheduled (encoder s) ++ [p] = [p]). by rewrite Hsch. }
  set (s2 := set_encoder _ posted s1) in Henc.
  destruct (worker_events_run (H := P_s) (H2 := E_s) (H5 := W_s) [] posted s2)
    as (s3 & Hrun & Hs3 & _ & Hw3 & Heff); [by rewrite app_nil_r|..].
  { apply Forall_app. split; [|by repeat constructor].
    apply Forall_fmap, Forall_forall. done. }
  exists s1, s2, s3, (length posted), (wire posted).
  split_and!; [exact Hsend|done|exact Henc|exact Hrun|done|by rewrite Hs3|by rewrite Heff|].
  intros r peer h Hh Hfree.
  assert (wire posted = chunks p) as -> by by apply wire_chunks.
  change (page_receives peer)
    with (λ b, @on_peer_event P_r _ _ E_r _ _ W_r peer (peer_data b)).
  rewrite (receive_all (H := P_r) (H2 := E_r) (H5 := W_r) peer (message_container p) m
    (n_chunks p - 1) (chunks p) r h (ph_decoder h)); [|done|..].
  - unfold receiver_shows. do 2 f_equal. destruct h. by rewrite insert_id; destruct r.
  - apply decode_all_permuted; [done|apply stringify_not_empty|done|done].
  - simpl. rewrite text_decode_encode by apply stringify_well_formed. apply parse_stringify.
Qed.
End delivery.

(** * Instances *)

(** Some text for every message, in place of JSON's: the digits of a number that
    stands for it. *)
Fixpoint positive_text (p : positive) : string :=
  match p with
  | xH => "1"
  | xO p => String "0" (positive_text p)
  | xI p => String "1" (positive_text p)
  end.

Fixpoint text_positive (s : string) : positive :=
  match s with
  | String c EmptyString => 1
  | String c s => if decide (c = "0"%char) then xO (text_positive s) else xI (text_positive s)
  | EmptyString => 1
  end.

Lemma text_positive_text p : text_positive (positive_text p) = p.
Proof.
  assert (∀ q, positive_text q ≠ "") as Hne by by intros [].
  induction p as [p IH|p IH|]; [| |done]; cbn [positive_text text_positive];
    (destruct (positive_text p) eqn:Hp; [by destruct (Hne p)|]); by rewrite <-IH.
Qed.

Definition message_fields (m : MessageType) : (string * string * string) * option (string * Z * string) :=
  match m with
  | TextMessage u text t => ((u, text, t), None)
  | FileMessage u f t => ((u, file_name f, t), Some (file_type f, file_size f, file_data f))
  end.

Definition fields_message (x : (string * string * string) * option (string * Z * string)) :
    MessageType :=
  match x with
  | ((u, text, t), None) => TextMessage u text t
  | ((u, name, t), Some (type, size, data)) =>
      FileMessage u {| file_name := name; file_size := size; file_type := type;
                       file_data := data |} t
  end.

Lemma fields_message_fields m : fields_message (message_fields m) = m.
Proof. by destruct m as [|u []]. Qed.

Program Definition some_json : @JSON ascii_codec := {|
  stringify m := positive_text (countable.encode (message_fields m));
  parse s := fields_message <$> countable.decode (text_positive s);
|}.
Next Obligation. intros m. simpl. rewrite text_positive_text, decode_encode. simpl. by rewrite fields_message_fields. Qed.
Next Obligation. done. Qed.
Next Obligation. intros m. simpl. by destruct (countable.encode (message_fields m)). Qed.

#[local] Existing Instance some_platform.
#[local] Existing Instance some_lodash.
#[local] Existing Instance some_object_keys.
#[local] Existing Instance once_streams.
#[local] Existing Instance ascii_codec.
#[local] Existing Instance some_json.

Definition hello : MessageType := TextMessage "alice" "hello" "10:00".
Definition alice_page : Page :=
  let s := new_page None "Alice" empty_world in
  set_state {| st_notifications := ∅; st_messages := default_messages;
               st_media := st_media (state s); st_nicknames := st_nicknames (state s);
               st_peers := {["bob" := 3]}; st_streams := st_streams (state s);
               st_windowStates := ∅ |} s.
Definition bob_page : Page :=
  set_handlers {[7 := new_handler "alice"]} (new_page None "Bob" empty_world).
