(* ===== verification/CallSafety.v ===== *)
(** The call as a whole: who is connected to when the server names the users, what
    becomes of a dial, and what the server's recording messages do. *)

From S2P Require Import Prelude Objects InsertableStreams InsertableCodec TextCodec Encoder Actions World Streams StreamsLocal Peers Media Users Notices Async Store PeerActions CallActions Chat.

#[local] Abbreviation list := Datatypes.list.

Section call.
Context `{Platform} `{Lodash} `{ObjectKeys} `{EncodedStreams} `{TextCodec} `{!JSON} `{Window}.

(** * Dispatches that only touch one part *)

(** Showing a notification, which is also one of the messages. *)
Definition noticed (type : NotifyType) (args : list string) (p : Page) : Page :=
  let w := world p in
  let n := {| n_id := "notification" +:+ pretty (unique_ids w + 1)%N; n_type := type;
              n_message := format (default "" (head args)) (drop 1 args) |} in
  let s := state p in
  set_state {| st_notifications := handleNotifications (st_notifications s) (NotificationAddAction n);
               st_messages := messages toLocaleString (now p) (st_messages s) (NotificationAddAction n);
               st_media := st_media s; st_nicknames := st_nicknames s; st_peers := st_peers s;
               st_streams := st_streams s; st_windowStates := st_windowStates s |}
    (set_world (set_unique_ids (unique_ids w + 1) w) p).

Lemma dispatch_notify_run type args p :
  dispatch_notify (notify type) args p = (Ok tt, noticed type args p).
Proof. by destruct p as [[] [] ? ? ? ? ? ? ?]. Qed.

Lemma dispatch_record status p :
  dispatch_plain (RecordAction status) p =
  (Ok tt, set_state (with_media (λ m, media m (RecordAction status)) (state p)) p).
Proof. by destruct p as [[] ? ? ? ? ? ? ? ?]. Qed.

Lemma dispatch_nicknames names p :
  dispatch_plain (NicknamesSetAction names) p =
  (Ok tt, set_state (with_nicknames (λ m, setNicknames userId m names) (state p)) p).
Proof. by destruct p as [[] ? ? ? ? ? ? ? ?]. Qed.

Lemma dispatch_add_peer user peer p :
  dispatch_plain (AddPeerAction user peer) p =
  (Ok tt, set_state (with_peers (λ ps, <[user := peer]> ps) (state p)) p).
Proof. by destruct p as [[] ? ? ? ? ? ? ? ?]. Qed.

(** The actions only the streams reducer looks at. *)
Definition streams_only (action : Action) : bool :=
  match action with
  | AddTrackAction _ | RemoveTrackAction _ | RecordLocalStreamAction _
  | StopRecordLocalStreamAction | TracksMetadataAction _ => true
  | _ => false
  end.

Lemma dispatch_streams action p r w' :
  streams_only action = true →
  streams (st_streams (state p)) action (world p) = (r, w') →
  dispatch_plain action p =
  match r with
  | Ok s' => (Ok tt, set_state (with_streams (λ _, s') (state p)) (set_world w' p))
  | Throw e => (Throw e, set_world w' p)
  end.
Proof.
  intros Ha Hrun. destruct p as [[] w ? ? ? ? ? ? ?]. simpl in Hrun.
  unfold dispatch_plain, messaging, store_reduce, lift, mbind, eff_bind, gets, reducers.
  destruct action; try discriminate Ha; cbn -[streams].
  all: unfold mbind, eff_bind, mret, eff_ret; rewrite Hrun; by destruct r.
Qed.

(** What making a connection leaves as it is. *)
Definition same_call (p p' : Page) : Prop :=
  st_streams (state p') = st_streams (state p) ∧ st_media (state p') = st_media (state p) ∧
  st_nicknames (state p') = st_nicknames (state p) ∧ listeners p' = listeners p ∧
  promises p' = promises p ∧ connecting p' = connecting p ∧
  stream_tracks (world p') = stream_tracks (world p).

(** * Connecting to the users *)

(** A new peer for a user that has none. *)
Lemma createPeer_run user b s p :
  st_peers (state p) !! user = None →
  ∃ p', createPeer user b s p = (Ok tt, p') ∧ same_call p p' ∧
    st_peers (state p') = <[user := next_peer (world p)]> (st_peers (state p)) ∧
    handlers p' = <[next_peer (world p) := new_handler user]> (handlers p) ∧
    next_peer (world p') = S (next_peer (world p)) ∧
    effects (world p') = effects (world p) ++ [PeerCreated (next_peer (world p)) b s].
Proof.
  intros Hnone. unfold createPeer, warning.
  rewrite (bind_runs _ _ _ _ _ (dispatch_notify_run _ _ p)). set (q := noticed _ _ p).
  rewrite (bind_runs _ _ q None q) by (unfold peer_of, gets; by rewrite <-Hnone).
  rewrite (bind_runs _ _ q tt q) by done.
  rewrite (bind_runs _ _ q (next_peer (world p))
    (set_world (set_effects (λ es, es ++ [PeerCreated (next_peer (world p)) b s])
       (set_next_peer (S (next_peer (world p))) (world q))) q)) by done.
  set (w := set_effects _ _).
  rewrite (bind_runs _ _ _ tt (set_handlers (<[next_peer (world p) := new_handler user]>
    (handlers p)) (set_world w q))) by done.
  rewrite dispatch_add_peer. by eexists.
Qed.

(** The peers of a list of users: one new connection each, in their order. *)
Lemma create_peers b s us : ∀ p,
  NoDup us → (∀ u, u ∈ us → st_peers (state p) !! u = None) →
  ∃ p', for_each (λ u, createPeer u b s) us p = (Ok tt, p') ∧ same_call p p' ∧
    (∀ u, u ∉ us → st_peers (state p') !! u = st_peers (state p) !! u) ∧
    (∀ i u, us !! i = Some u →
       let n := next_peer (world p) + i in
       st_peers (state p') !! u = Some n ∧ handlers p' !! n = Some (new_handler u)) ∧
    (∀ n, n < next_peer (world p) → handlers p' !! n = handlers p !! n) ∧
    effects (world p') =
      effects (world p) ++ imap (λ i _, PeerCreated (next_peer (world p) + i) b s) us ∧
    next_peer (world p') = next_peer (world p) + length us.
Proof.
  induction us as [|u us IH]; intros p Hnd Hnone.
  { exists p. split_and!; try done; simpl; by rewrite ?app_nil_r, ?Nat.add_0_r. }
  apply NoDup_cons in Hnd as [Hu Hnd]. cbn [for_each].
  destruct (createPeer_run u b s p) as (p1 & H1' & Hs1 & Hp1 & Hh1 & Hn1 & He1);
    [apply Hnone; left|].
  rewrite (bind_runs _ _ _ _ _ H1').
  destruct (IH p1) as (p2 & H2' & Hs2 & Ho2 & Hp2 & Hh2 & He2 & Hn2); [done| |].
  { intros v Hv. rewrite Hp1, lookup_insert_ne by (by intros ->). apply Hnone. by right. }
  exists p2. split_and!; [done| | | | | |rewrite Hn2, Hn1; simpl; lia].
  - unfold same_call in *. intuition congruence.
  - intros v Hv. rewrite Ho2 by set_solver. rewrite Hp1, lookup_insert_ne; [done|set_solver].
  - intros [|i] v Hi; cbn [lookup list_lookup] in Hi.
    + injection Hi as ->. rewrite Nat.add_0_r. split.
      * by rewrite Ho2, Hp1, lookup_insert_eq.
      * rewrite Hh2 by lia. by rewrite Hh1, lookup_insert_eq.
    + destruct (Hp2 i v Hi) as [Hpi Hhi]. rewrite Hn1 in Hpi, Hhi.
      rewrite Nat.add_succ_r. done.
  - intros n Hn. rewrite Hh2 by lia. rewrite Hh1, lookup_insert_ne by lia. done.
  - rewrite He2, He1, <-(assoc_L (++)), Hn1. f_equal. cbn [imap]. rewrite Nat.add_0_r. simpl.
    f_equal. apply imap_ext. intros i v _. simpl. by rewrite Nat.add_succ_r.
Qed.

(** * The server's list of users *)

(** What the reducers do with the start or the end of a recording. *)
Definition recording_started (h : SocketHandler) (url : option string) : RecordLocalStreamPayload :=
  {| recordUrl := default "undefined" url +:+ "/" +:+ sh_roomName h +:+ "/" +:+ sh_userId h;
     roomID := sh_roomName h; userID := sh_userId h |}.

(** A start, in a room that has a name: the flag of the toolbar is set, that of the
    streams is toggled. *)
Lemma record_start_run h url p :
  sh_roomName h ≠ "" →
  ∃ p', handleRecordCallback h true true url p = (Ok tt, p') ∧
    st_media (state p') = media (st_media (state p)) (RecordAction true) ∧
    isRecording (st_streams (state p')) = negb (isRecording (st_streams (state p))) ∧
    localStreams (st_streams (state p')) = localStreams (st_streams (state p)) ∧
    st_peers (state p') = st_peers (state p) ∧ st_nicknames (state p') = st_nicknames (state p) ∧
    handlers p' = handlers p ∧ listeners p' = listeners p ∧ promises p' = promises p ∧
    connecting p' = connecting p ∧
    next_peer (world p') =
      next_peer (world p) + length (object_entries (localStreams (st_streams (state p)))) ∧
    stream_tracks (world p') = stream_tracks (world p) ∧
    effects (world p') = effects (world p) ++
      recorders_made (next_peer (world p)) (object_entries (localStreams (st_streams (state p)))).
Proof.
  intros Hroom. unfold handleRecordCallback.
  rewrite (bind_runs _ _ _ _ _ (dispatch_record true p)). set (q := set_state _ p).
  destruct (recordLocalStream_run (st_streams (state p)) (world p) (recording_started h url) Hroom)
    as (s' & w' & Hrun & Hr & Hl & Hn & _ & Ht & He).
  exists (set_state (with_streams (λ _, s') (state q)) (set_world w' q)). split_and!; try done.
  by apply (dispatch_streams _ q (Ok s') w').
Qed.

(** The recording part of the server's list of users. *)
Lemma record_users_run h (on : bool) url p :
  (on = true → sh_roomName h ≠ "") →
  ∃ p', handleRecordCallback h on on url p = (Ok tt, p') ∧
    st_media (state p') = (if on then media (st_media (state p)) (RecordAction true)
                           else st_media (state p)) ∧
    isRecording (st_streams (state p'))
      = (if on then negb (isRecording (st_streams (state p))) else isRecording (st_streams (state p))) ∧
    st_peers (state p') = st_peers (state p) ∧ st_nicknames (state p') = st_nicknames (state p) ∧
    handlers p' = handlers p ∧ listeners p' = listeners p ∧ promises p' = promises p ∧
    next_peer (world p) ≤ next_peer (world p') ∧
    (on = false → p' = p) ∧
    localStreams (st_streams (state p')) = localStreams (st_streams (state p)) ∧
    stream_tracks (world p') = stream_tracks (world p) ∧
    (on = true → effects (world p') = effects (world p) ++
      recorders_made (next_peer (world p)) (object_entries (localStreams (st_streams (state p))))).
Proof.
  destruct on; intros Hroom.
  - destruct (record_start_run h url p (Hroom eq_refl)) as
      (p' & Hrun & Hm & Hr & Hls & Hp & Hn & Hh & Hl & Hps & _ & Hnp & Ht & He).
    exists p'. split_and!; try done. lia.
  - exists p. by split_and!.
Qed.

Definition new_users (h : SocketHandler) (payload : UsersPayload) (p : Page) : list string :=
  filter (λ u, st_peers (state p) !! u = None ∧ u ≠ sh_userId h) (peerIds payload).

Record users_handled (h : SocketHandler) (payload : UsersPayload) (p p' : Page) : Prop := {
  uh_nicknames : st_nicknames (state p')
    = setNicknames userId (st_nicknames (state p)) (user_nicknames payload);
  uh_others u : u ∉ new_users h payload p → st_peers (state p') !! u = st_peers (state p) !! u;
  uh_handlers n : n < next_peer (world p) → handlers p' !! n = handlers p !! n;
  uh_new : ∃ base es, next_peer (world p) ≤ base ∧
    (users_recordStatus payload = false → es = effects (world p) ∧ base = next_peer (world p)) ∧
    (users_recordStatus payload = true → es = effects (world p) ++
      recorders_made (next_peer (world p)) (object_entries (localStreams (st_streams (state p))))) ∧
    effects (world p') = es ++ imap (λ i _, PeerCreated (base + i)
      (bool_decide (initiator payload = sh_userId h)) (sh_stream h)) (new_users h payload p) ∧
    ∀ i u, new_users h payload p !! i = Some u →
      st_peers (state p') !! u = Some (base + i) ∧ handlers p' !! (base + i) = Some (new_handler u);
  uh_next : users_recordStatus payload = false →
    next_peer (world p') = next_peer (world p) + length (new_users h payload p);
  uh_media : st_media (state p') = (if users_recordStatus payload
    then media (st_media (state p)) (RecordAction true) else st_media (state p));
  uh_recording : isRecording (st_streams (state p')) = (if users_recordStatus payload
    then negb (isRecording (st_streams (state p))) else isRecording (st_streams (state p)));
  uh_listeners : listeners p' = listeners p;
  uh_promises : promises p' = promises p;
  uh_locals : localStreams (st_streams (state p')) = localStreams (st_streams (state p));
  uh_tracks : stream_tracks (world p') = stream_tracks (world p);
}.

Lemma handleUsers_run h payload p :
  NoDup (peerIds payload) → (users_recordStatus payload = true → sh_roomName h ≠ "") →
  ∃ p', handleUsers h payload p = (Ok tt, p') ∧ users_handled h payload p p'.
Proof.
  intros Hnd Hroom. unfold handleUsers, info.
  rewrite (bind_runs _ _ _ _ _ (dispatch_notify_run _ _ p)). set (q := noticed _ _ p).
  rewrite (bind_runs _ _ q (st_peers (state p)) q) by done.
  destruct (record_users_run h (users_recordStatus payload) (users_recordUrl payload) q Hroom)
    as (p1 & Hrun & Hm & Hr & Hp & Hn & Hh & Hl & Hps & Hnp & Hoff & Hloc & Htr & Hon).
  rewrite (bind_runs _ _ _ _ _ Hrun), (bind_runs _ _ _ _ _ (dispatch_nicknames _ p1)).
  set (p2 := set_state _ p1).
  destruct (create_peers (bool_decide (initiator payload = sh_userId h)) (sh_stream h)
    (new_users h payload p) p2) as (p' & Hc & Hs & Ho & Hi & Hk & He & Hnx).
  - by apply NoDup_filter.
  - intros u Hu. apply list_elem_of_filter in Hu as [[Hu _] _].
    change (st_peers (state p1) !! u = None). rewrite Hp. exact Hu.
  - exists p'. split; [exact Hc|]. destruct Hs as (Hss & Hsm & Hsn & Hsl & Hsp & _ & Hst).
    change (world p2) with (world p1) in *. split.
    + rewrite Hsn. simpl. by rewrite Hn.
    + intros u Hu. rewrite Ho by done. simpl. by rewrite Hp.
    + intros n Hlt. rewrite Hk by (simpl in Hnp; lia). simpl. by rewrite Hh.
    + exists (next_peer (world p1)), (effects (world p1)). split_and!; [done| |exact Hon|done|done].
      intros Hf. rewrite (Hoff Hf). done.
    + intros Hf. rewrite Hnx. change (world p2) with (world p1). by rewrite (Hoff Hf).
    + by rewrite Hsm.
    + by rewrite Hss.
    + by rewrite Hsl.
    + by rewrite Hsp.
    + by rewrite Hss.
    + by rewrite Hst.
Qed.

(** What the record says of each user. *)
Lemma users_handled_all h payload p p' :
  users_handled h payload p p' →
  (∀ u, u ∈ peerIds payload → u ≠ sh_userId h → is_Some (st_peers (state p') !! u)) ∧
  (∀ u n, st_peers (state p) !! u = Some n → st_peers (state p') !! u = Some n) ∧
  (∀ u (n : PeerRef), st_peers (state p) !! u = None → st_peers (state p') !! u = Some n →
     u ∈ peerIds payload ∧ u ≠ sh_userId h ∧ next_peer (world p) ≤ n ∧
     handlers p' !! n = Some (new_handler u) ∧
     PeerCreated n (bool_decide (initiator payload = sh_userId h)) (sh_stream h)
       ∈ effects (world p')).
Proof.
  intros Hu.
  destruct (uh_new _ _ _ _ Hu) as (base & es & Hbase & _ & _ & Heff & Hnew).
  assert (∀ u, u ∈ new_users h payload p ↔
    st_peers (state p) !! u = None ∧ u ≠ sh_userId h ∧ u ∈ peerIds payload) as Hin.
  { intros u. unfold new_users. rewrite list_elem_of_filter. tauto. }
  split_and!.
  - intros u Hu1 Hu2. destruct (decide (u ∈ new_users h payload p)) as [Hi|Hn].
    + apply list_elem_of_lookup in Hi as [i Hi]. eexists. by apply Hnew in Hi as [Hi _].
    + rewrite (uh_others _ _ _ _ Hu u Hn). destruct (st_peers (state p) !! u) eqn:Hp; [by eexists|].
      destruct Hn. by apply Hin.
  - intros u n Hp. rewrite (uh_others _ _ _ _ Hu); [done|]. rewrite Hin. by rewrite Hp; intros [? _].
  - intros u n Hp Hp'. destruct (decide (u ∈ new_users h payload p)) as [Hi|Hn].
    + pose proof (proj1 (Hin u) Hi) as (_ & Hme & Hids).
      apply list_elem_of_lookup in Hi as [i Hi]. destruct (Hnew i u Hi) as [Hpi Hhi].
      assert (n = base + i) as -> by (apply (inj Some); etransitivity; [symmetry; exact Hp'|exact Hpi]).
      split_and!; [done|done|lia|done|].
      rewrite Heff. apply elem_of_app. right. apply elem_of_lookup_imap. by exists i, u.
    + rewrite (uh_others _ _ _ _ Hu u Hn) in Hp'. congruence.
Qed.

(** C29. The server's list of users: afterwards there is a connection to every user
    it names but this one; the connections there were are kept; every new one is
    to a user it names, made with the initiator flag exactly when this page is the
    initiator, and its events are handled for that user; and the nicknames are
    those it gives. *)
Theorem users_connected h payload p :
  NoDup (peerIds payload) → (users_recordStatus payload = true → sh_roomName h ≠ "") →
  ∃ p', handleUsers h payload p = (Ok tt, p') ∧
    (∀ u, u ∈ peerIds payload → u ≠ sh_userId h → is_Some (st_peers (state p') !! u)) ∧
    (∀ u n, st_peers (state p) !! u = Some n → st_peers (state p') !! u = Some n) ∧
    (∀ u (n : PeerRef), st_peers (state p) !! u = None → st_peers (state p') !! u = Some n →
       u ∈ peerIds payload ∧ u ≠ sh_userId h ∧ next_peer (world p) ≤ n ∧
       handlers p' !! n = Some (new_handler u) ∧
       PeerCreated n (bool_decide (initiator payload = sh_userId h)) (sh_stream h)
         ∈ effects (world p')) ∧
    st_nicknames (state p')
      = setNicknames userId (st_nicknames (state p)) (user_nicknames payload).
Proof.
  intros Hnd Hroom. destruct (handleUsers_run h payload p Hnd Hroom) as (p' & Hrun & Hu).
  destruct (users_handled_all h payload p p' Hu) as (H1' & H2' & H3').
  exists p'. split_and!; [done..|apply Hu].
Qed.

(** C36. A user joins during a recording, in a room that has a name: the server names
    the users again, each once, to everyone, with the recording still on.  A page that is recording records each of
    its streams once more, with a new peer; the peers that were recording them are
    not destroyed, so that those recordings go on; and the page ends up "not
    recording" although its toolbar says that it is. *)
Theorem join_records_again h payload p :
  NoDup (peerIds payload) → users_recordStatus payload = true → sh_roomName h ≠ "" →
  isRecording (st_streams (state p)) = true →
  ∃ p' new, handleUsers h payload p = (Ok tt, p') ∧
    recordStatus (st_media (state p')) = true ∧ isRecording (st_streams (state p')) = false ∧
    effects (world p') = effects (world p) ++ new ∧
    (∀ k s, localStreams (st_streams (state p)) !! k = Some s →
       ∃ n, next_peer (world p) ≤ n ∧ PeerCreated n true (Some (stream (ls_stream s))) ∈ new) ∧
    ∀ n call, PeerCalled n call ∉ new.
Proof.
  intros Hnd Hon Hroom Hrec. destruct (handleUsers_run h payload p Hnd (λ _, Hroom)) as (p' & Hrun & Hu).
  destruct (uh_new _ _ _ _ Hu) as (base & es & _ & _ & Hes & Heff & _). rewrite (Hes Hon), <-(assoc_L (++)) in Heff.
  exists p'. eexists. split_and!; [done| | |exact Heff| |].
  - by rewrite (uh_media _ _ _ _ Hu), Hon.
  - by rewrite (uh_recording _ _ _ _ Hu), Hon, Hrec.
  - intros k s Hk. destruct (elem_of_recorders_made (next_peer (world p))
      (object_entries (localStreams (st_streams (state p)))) k s) as (n & Hn & Hin); [by apply elem_of_object_entries|].
    exists n. split; [done|]. apply elem_of_app. by left.
  - intros n call [Hin|Hin]%elem_of_app; apply elem_of_lookup_imap in Hin as (i & x & Heq & _); by try destruct x.
Qed.

(** * Listeners *)

(** Dispatching an action touches the store, the world and the encoder only. *)
Lemma dispatch_frame action p r p' :
  dispatch_plain action p = (r, p') →
  handlers p' = handlers p ∧ listeners p' = listeners p ∧ connecting p' = connecting p ∧
  promises p' = promises p.
Proof.
  assert (∀ a q r q', store_reduce a q = (r, q') → handlers q' = handlers q ∧
    listeners q' = listeners q ∧ connecting q' = connecting q ∧ promises q' = promises q) as Hs.
  { intros a q r' q'. unfold store_reduce, lift, mbind, eff_bind, gets, modify.
    destruct (reducers (now q) (state q) a (world q)) as [[s'|e] w']; by intros [= <- <-]. }
  unfold dispatch_plain, messaging. destruct action; try by apply Hs.
  unfold mbind, eff_bind, modify. intros Hrun%Hs. exact Hrun.
Qed.

Definition socket_events : list string := ["metadata"; "signal"; "users"; "hangUp"].

Lemma removeEventListeners_run p :
  removeEventListeners p =
  (Ok tt, set_listeners (filter (λ r, r_event r ∉ socket_events) (listeners p)) p).
Proof.
  trans (@Ok unit tt, set_listeners (filter (λ r, r_event r ≠ "hangUp")
    (filter (λ r, r_event r ≠ "users") (filter (λ r, r_event r ≠ "signal")
      (filter (λ r, r_event r ≠ "metadata") (listeners p))))) p); [done|].
  do 2 f_equal. rewrite !list_filter_filter. apply list_filter_iff. intros r.
  unfold socket_events. set_solver.
Qed.

(** The page after [handshake] but for its message. *)
Definition handshaken (roomName nickname : string) (s : option MediaStream) (p : Page) : Page :=
  let h := {| sh_roomName := roomName; sh_stream := s; sh_userId := userId;
              sh_nickname := nickname |} in
  set_listeners (filter (λ r, r_event r ∉ socket_events) (listeners p) ++
    ((λ '(e, l), {| r_event := e; r_once := false; r_listener := l |}) <$>
      [("metadata", h_metadata h); ("signal", h_signal h); ("users", h_users h);
       ("hangUp", h_hangUp h); ("record_callback", h_record_callback h);
       ("stream_url", h_stream_url h)])) p.

Lemma handshake_run roomName nickname s p :
  handshake roomName nickname s p =
  socket_emit (sent_ready roomName nickname nickname) (handshaken roomName nickname s p).
Proof.
  unfold handshake. rewrite (bind_runs _ _ _ _ _ (removeEventListeners_run p)).
  set (f := filter _ (listeners p)).
  set (h := {| sh_roomName := roomName; sh_stream := s; sh_userId := userId;
               sh_nickname := nickname |}).
  set (reg := λ e l, {| r_event := e; r_once := false; r_listener := l |}).
  trans (socket_emit (sent_ready roomName nickname nickname) (set_listeners
    ((((((f ++ [reg "metadata" (h_metadata h)]) ++ [reg "signal" (h_signal h)]) ++
      [reg "users" (h_users h)]) ++ [reg "hangUp" (h_hangUp h)]) ++
      [reg "record_callback" (h_record_callback h)]) ++ [reg "stream_url" (h_stream_url h)]) p));
    [done|].
  unfold handshaken. by rewrite <-!(assoc_L (++)).
Qed.

Lemma socket_emit_run message p :
  socket_emit message p =
  if connecting p then (Throw (Error "InvalidStateError"), p)
  else (Ok tt, set_world (set_effects (λ es, es ++ [SocketSent message]) (world p)) p).
Proof. unfold socket_emit, mbind, eff_bind, gets. by destruct (connecting p). Qed.

(** * Recording after hanging up and dialling again *)

Definition record_listeners (p : Page) : list Registration :=
  filter (λ r, r_event r = "record_callback") (listeners p).

Definition is_recorder (r : Registration) : Prop :=
  r_once r = false ∧ ∃ h, r_listener r = h_record_callback h ∧ sh_roomName h ≠ "".

(** One start per listener, each of which toggles. *)
Lemma record_starts url ls : ∀ p,
  Forall is_recorder ls →
  ∃ p', for_each (λ r,
      (if r_once r then
         modify (λ p, set_listeners (filter (λ r', r' ≠ r) (listeners p)) p)
       else mret tt) ≫= λ _,
      call_listener (r_listener r) (ev_record_callback true true url)) ls p = (Ok tt, p') ∧
    isRecording (st_streams (state p')) = Nat.iter (length ls) negb (isRecording (st_streams (state p))).
Proof.
  induction ls as [|r ls IH]; intros p Hls; [by exists p|].
  apply Forall_cons in Hls as [(Honce & h & Hl & Hroom) Hls]. cbn [for_each].
  rewrite Honce, Hl. cbn [call_listener].
  destruct (record_start_run h url p Hroom) as (p1 & Hrun & _ & Hr & _).
  destruct (IH p1 Hls) as (p2 & Hrun2 & Hr2). exists p2. split.
  - erewrite bind_runs; [exact Hrun2|]. by erewrite bind_runs; [exact Hrun|].
  - rewrite Hr2, Hr. simpl. by rewrite <-Nat.iter_succ_r, Nat.iter_succ.
Qed.

(** A dial: its promise is number [n]; the message is sent, unless the socket is
    connecting, in which case the promise is rejected at once. *)
Definition dial_listening (nickname : string) (p : Page) : Page :=
  let ps := promises p in
  set_promises {| next_promise := S (next_promise ps); settled := settled ps;
                  dial_timeouts := dial_timeouts ps; reactions := reactions ps |}
    (handshaken callId nickname None p).

Definition dialling (nickname : string) (p : Page) : Page :=
  let ps := promises p in
  let n := next_promise ps in
  let q := dial_listening nickname p in
  set_promises {| next_promise := S n; settled := settled ps;
                  dial_timeouts := dial_timeouts ps ++ [n]; reactions := reactions ps |}
    (set_listeners (listeners q ++
        [{| r_event := "users"; r_once := true; r_listener := resolve_dial n |}])
      (set_world (set_effects (λ es, es ++ [SocketSent (sent_ready callId nickname nickname)])
         (world p)) q)).

(** Showing that it is under way. *)
Definition show_pending (q : Page) : Page :=
  set_state (with_media (λ m, media m (DialAction pending)) (state q)) q.

Definition dialled (nickname : string) (p : Page) : Page := show_pending (dialling nickname p).

Definition not_dialled (nickname : string) (p : Page) : Page :=
  show_pending (settle (next_promise (promises p))
    (dial_settled (inr (thrown (Error "InvalidStateError")))) (dial_listening nickname p)).2.

Lemma dispatch_pending_dial n p :
  dispatch (promised {| pa_type := DIAL; pa_promise := n |}) p =
  (Ok tt, show_pending p).
Proof. by destruct p as [[] ? ? ? ? ? ? ? ?]. Qed.

Lemma dial_run nickname p :
  dial nickname p = (Ok tt, if connecting p then not_dialled nickname p else dialled nickname p).
Proof.
  unfold dial. set (q := set_promises {| next_promise := S (next_promise (promises p));
    settled := settled (promises p); dial_timeouts := dial_timeouts (promises p);
    reactions := reactions (promises p) |} p).
  rewrite (bind_runs new_promise _ p (next_promise (promises p)) q) by done.
  assert (handshake callId nickname None q =
    socket_emit (sent_ready callId nickname nickname) (dial_listening nickname p)) as Hh
    by apply handshake_run.
  rewrite socket_emit_run in Hh. change (connecting (dial_listening nickname p)) with (connecting p) in Hh.
  destruct (connecting p).
  - erewrite (bind_runs _ _ q tt);
      [apply (dispatch_pending_dial _ (settle _ _ _).2)|].
    unfold catch, mbind, eff_bind. by rewrite Hh.
  - rewrite (bind_runs _ _ q tt (dialling nickname p)); [apply dispatch_pending_dial|].
    unfold catch. rewrite (bind_runs _ _ _ _ _ Hh). reflexivity.
Qed.

Lemma dial_record_listeners nickname p :
  record_listeners (dial nickname p).2 = record_listeners p ++
    [{| r_event := "record_callback"; r_once := false; r_listener := h_record_callback
         {| sh_roomName := callId; sh_stream := None; sh_userId := userId;
            sh_nickname := nickname |} |}].
Proof.
  assert (record_listeners (handshaken callId nickname None p) = record_listeners p ++
    [{| r_event := "record_callback"; r_once := false; r_listener := h_record_callback
         {| sh_roomName := callId; sh_stream := None; sh_userId := userId;
            sh_nickname := nickname |} |}]) as Hh.
  { unfold record_listeners, handshaken. cbn [listeners set_listeners]. rewrite filter_app.
    f_equal. apply list_filter_filter_l. intros r ->. unfold socket_events. set_solver. }
  rewrite dial_run. cbn [snd]. destruct (connecting p); [done|].
  unfold record_listeners at 1. change (listeners (dialled nickname p)) with (listeners (handshaken callId nickname None p) ++
    [{| r_event := "users"; r_once := true; r_listener := resolve_dial (next_promise (promises p)) |}]).
  rewrite filter_app. etransitivity; [|exact Hh]. apply app_nil_r.
Qed.

Lemma hangUp_record_listeners p : record_listeners (hangUp_call p).2 = record_listeners p.
Proof.
  unfold hangUp_call, mbind, eff_bind. rewrite socket_emit_run. destruct (connecting p); [done|].
  rewrite removeEventListeners_run. destruct (dispatch_plain HangUpAction _) as [r q] eqn:Hd.
  apply dispatch_frame in Hd as (_ & Hl & _). unfold record_listeners. simpl. rewrite Hl.
  apply list_filter_filter_l. intros x ->. unfold socket_events. set_solver.
Qed.

(** [n] calls that have been hung up. *)
Fixpoint past_calls (nickname : string) (n : nat) (p : Page) : Page :=
  match n with
  | O => p
  | S n => (hangUp_call (dial nickname (past_calls nickname n p)).2).2
  end.

Definition dial_recorder (nickname : string) : Registration :=
  {| r_event := "record_callback"; r_once := false; r_listener := h_record_callback
     {| sh_roomName := callId; sh_stream := None; sh_userId := userId;
        sh_nickname := nickname |} |}.

Lemma past_calls_listeners nickname n p :
  record_listeners p = [] →
  record_listeners (dial nickname (past_calls nickname n p)).2
  = replicate (S n) (dial_recorder nickname).
Proof.
  intros Hp. induction n as [|n IH]; rewrite dial_record_listeners; fold (dial_recorder nickname).
  - simpl. by rewrite Hp.
  - cbn [past_calls]. rewrite hangUp_record_listeners, IH. symmetry. apply replicate_cons_app.
Qed.

Lemma emit_record_start url ls p :
  record_listeners p = ls → Forall is_recorder ls →
  ∃ p', emit_event (ev_record_callback true true url) p = (Ok tt, p') ∧
    isRecording (st_streams (state p')) = Nat.iter (length ls) negb (isRecording (st_streams (state p))).
Proof.
  intros Hp Hls. destruct (record_starts url ls p Hls) as (p' & Hrun & Hr). exists p'. split; [|done].
  unfold emit_event. rewrite (bind_runs _ _ p ls p); [exact Hrun|]. unfold gets. by rewrite <-Hp.
Qed.

Lemma iter_negb n b : Nat.iter n negb b = if Nat.even n then b else negb b.
Proof.
  induction n as [|n IH]; [done|]. rewrite Nat.iter_succ, IH, Nat.even_succ, <-Nat.negb_even.
  destruct (Nat.even n); [done|apply negb_involutive].
Qed.

(** Hanging up does not take back the listener for the recording messages: in
    the [n + 1]st call of a page one message of the server toggles the recording
    [n + 1] times, so that in every second call a recording that starts ends up
    "not recording". *)
Theorem redial_breaks_recording nickname n url p :
  callId ≠ "" → record_listeners p = [] →
  ∃ p1 p2, dial nickname (past_calls nickname n p) = (Ok tt, p1) ∧
    emit_event (ev_record_callback true true url) p1 = (Ok tt, p2) ∧
    isRecording (st_streams (state p2)) =
      if Nat.even n then negb (isRecording (st_streams (state p1)))
      else isRecording (st_streams (state p1)).
Proof.
  intros Hcall Hp. pose proof (past_calls_listeners nickname n p Hp) as Hl.
  destruct (dial nickname (past_calls nickname n p)) as [r p1] eqn:Hd. cbn [snd] in Hl.
  pose proof Hd as Hok. rewrite dial_run in Hok. injection Hok as <- _.
  destruct (emit_record_start url _ p1 Hl) as (p2 & Hrun & Hr).
  { apply Forall_replicate. split; [done|]. by eexists. }
  exists p1, p2. split_and!; [done|exact Hrun|].
  rewrite Hr, length_replicate, Nat.iter_succ, iter_negb.
  destruct (Nat.even n); [done|apply negb_involutive].
Qed.

(** * The outcome of a dial *)

Definition users_listener (h : SocketHandler) : Registration :=
  {| r_event := "users"; r_once := false; r_listener := h_users h |}.
Definition dial_listener (n : nat) : Registration :=
  {| r_event := "users"; r_once := true; r_listener := resolve_dial n |}.
Definition dial_handler (nickname : string) : SocketHandler :=
  {| sh_roomName := callId; sh_stream := None; sh_userId := userId; sh_nickname := nickname |}.

Lemma handshake_forgets e (l : list Registration) :
  e ∈ socket_events → filter (λ r, r_event r = e) (filter (λ r, r_event r ∉ socket_events) l) = [].
Proof.
  intros He. rewrite list_filter_filter. induction l as [|r l IH]; [done|].
  rewrite filter_cons_False; [done|]. intros [-> Hr]. done.
Qed.

(** After a dial the list of users has two listeners. *)
Lemma dialled_users nickname p :
  filter (λ r, r_event r = "users") (listeners (dialled nickname p)) =
  [users_listener (dial_handler nickname); dial_listener (next_promise (promises p))].
Proof.
  change (listeners (dialled nickname p)) with (listeners (handshaken callId nickname None p) ++
    [dial_listener (next_promise (promises p))]).
  unfold handshaken. cbn [listeners set_listeners].
  rewrite !filter_app, handshake_forgets by (unfold socket_events; set_solver). done.
Qed.

(** The list of users arrives: connections are made, then the dial is resolved. *)
Lemma emit_users_run payload q h n :
  filter (λ r, r_event r = "users") (listeners q) = [users_listener h; dial_listener n] →
  NoDup (peerIds payload) → (users_recordStatus payload = true → sh_roomName h ≠ "") →
  ∃ p1, handleUsers h payload q = (Ok tt, p1) ∧ users_handled h payload q p1 ∧
    emit_event (ev_users payload) q =
    settle n (dial_settled (inl tt))
      (set_listeners (filter (λ r, r ≠ dial_listener n) (listeners p1)) p1).
Proof.
  intros Hl Hnd Hroom. destruct (handleUsers_run h payload q Hnd Hroom) as (p1 & Hrun & Hu).
  exists p1. split_and!; [done|done|]. unfold emit_event.
  rewrite (bind_runs _ _ q [users_listener h; dial_listener n] q) by (unfold gets; by rewrite <-Hl).
  cbn [for_each r_once users_listener dial_listener r_listener call_listener].
  rewrite (bind_runs _ _ q tt p1) by (rewrite (bind_runs _ _ q tt q) by done; exact Hrun).
  rewrite (bind_runs _ _ p1 tt (settle n (dial_settled (inl tt))
    (set_listeners (filter (λ r, r ≠ dial_listener n) (listeners p1)) p1)).2); [done|].
  by rewrite (bind_runs _ _ p1 tt (set_listeners (filter (λ r, r ≠ dial_listener n) (listeners p1)) p1)).
Qed.

(** A promise that is not settled settles; one that is stays as it is. *)
Lemma settle_first n s p :
  n ∉ settled (promises p) →
  settle n s p = (Ok tt, set_promises {| next_promise := next_promise (promises p);
    settled := {[n]} ∪ settled (promises p); dial_timeouts := dial_timeouts (promises p);
    reactions := reactions (promises p) ++ [s] |} p).
Proof. intros Hn. unfold settle, with_promises, modify. by rewrite decide_False. Qed.

Lemma settle_again n s p :
  n ∈ settled (promises p) → settle n s p = (Ok tt, set_promises (promises p) p).
Proof. intros Hn. unfold settle, with_promises, modify. by rewrite decide_True. Qed.

Lemma dial_resolved_run p rest :
  reactions (promises p) = dial_settled (inl tt) :: rest →
  run_reaction p = (Ok tt,
    set_state (with_media (λ m, media m (DialAction (resolved tt))) (state p))
      (set_promises {| next_promise := next_promise (promises p); settled := settled (promises p);
                       dial_timeouts := dial_timeouts (promises p); reactions := rest |} p)).
Proof.
  intros Hr. unfold run_reaction, mbind, eff_bind, gets. rewrite Hr.
  by destruct p as [[] ? ? ? ? ? ? ? ?].
Qed.

(** A rejected dial: one more notification, of the error. *)
Lemma dial_rejected_run p err rest :
  reactions (promises p) = dial_settled (inr err) :: rest →
  ∃ p' id, run_reaction p = (Ok tt, p') ∧
    st_media (state p') = media (st_media (state p)) (DialAction (rejected err)) ∧
    st_peers (state p') = st_peers (state p) ∧ listeners p' = listeners p ∧
    st_notifications (state p') = <[id := {| n_id := id; n_type := notify_error;
      n_message := format (error_to_string err) [] |}]> (st_notifications (state p)) ∧
    promises p' = {| next_promise := next_promise (promises p); settled := settled (promises p);
                     dial_timeouts := dial_timeouts (promises p); reactions := rest |}.
Proof.
  intros Hr. unfold run_reaction, mbind, eff_bind, gets. rewrite Hr.
  destruct p as [[] ? ? ? ? ? ? ? ?]. eexists _, _. split_and!; try reflexivity.
Qed.

(** The timeout of a dial that is under way. *)
Lemma dial_timeout_run n p :
  ∃ p', dial_timeout n p = (Ok tt, p') ∧ state p' = state p ∧ listeners p' = listeners p ∧
    n ∈ settled (promises p') ∧
    reactions (promises p') = reactions (promises p) ++
      (if decide (n ∈ settled (promises p)) then []
       else [dial_settled (inr {| error_name := "Error"; error_message := "Dial timed out!" |})]).
Proof.
  unfold dial_timeout, with_promises. erewrite bind_runs; [|reflexivity].
  destruct (decide (n ∈ settled (promises p))) as [Hn|Hn].
  - rewrite settle_again by done. eexists. split_and!; try done. simpl. by rewrite app_nil_r.
  - rewrite settle_first by done. eexists. split_and!; try done. simpl. set_solver.
Qed.

(** A page with a dial under way, and nothing else. *)
Record dial_pending (n : nat) (h : SocketHandler) (p : Page) : Prop := {
  dp_listeners : filter (λ r, r_event r = "users") (listeners p) = [users_listener h; dial_listener n];
  dp_settled : n ∉ settled (promises p);
  dp_reactions : reactions (promises p) = [];
}.

Section dial.
Variables (n : nat) (h : SocketHandler) (payload : UsersPayload).
Hypotheses (Hnd : NoDup (peerIds payload)) (Hroom : sh_roomName h ≠ "").

Lemma dial_answered p :
  dial_pending n h p →
  ∃ p2 p3 q, emit_event (ev_users payload) p = (Ok tt, p2) ∧ run_reaction p2 = (Ok tt, p3) ∧
    dialState (st_media (state p3)) = DIAL_STATE_IN_CALL ∧
    users_handled h payload p q ∧ st_peers (state p3) = st_peers (state q) ∧
    st_streams (state p3) = st_streams (state q) ∧ world p3 = world q ∧
    handlers p3 = handlers q ∧ reactions (promises p3) = [] ∧
    settled (promises p3) = {[n]} ∪ settled (promises p).
Proof using All.
  intros [Hl Hn Hr]. destruct (emit_users_run payload p h n Hl Hnd (λ _, Hroom)) as (q & _ & Hu & Hemit).
  pose proof (uh_promises _ _ _ _ Hu) as Hps.
  rewrite settle_first in Hemit by (simpl; by rewrite Hps).
  set (p2 := set_promises _ _) in Hemit.
  eexists p2, _, q. split; [exact Hemit|]. split.
  { apply (dial_resolved_run p2 []). simpl. by rewrite Hps, Hr. }
  split_and!; try done. simpl. by rewrite Hps.
Qed.

Lemma dial_unanswered p :
  dial_pending n h p →
  ∃ p2 p3 p4 id, dial_timeout n p = (Ok tt, p2) ∧ run_reaction p2 = (Ok tt, p3) ∧
    dialState (st_media (state p3)) = DIAL_STATE_HUNG_UP ∧
    st_notifications (state p3) !! id = Some {| n_id := id; n_type := notify_error;
      n_message := "Error: Dial timed out!" |} ∧
    emit_event (ev_users payload) p3 = (Ok tt, p4) ∧
    dialState (st_media (state p4)) = DIAL_STATE_HUNG_UP ∧ reactions (promises p4) = [] ∧
    ∀ u, u ∈ peerIds payload → u ≠ sh_userId h → is_Some (st_peers (state p4) !! u).
Proof using All.
  intros [Hl Hn Hr]. destruct (dial_timeout_run n p) as (p2 & Hrun2 & Hs2 & Hl2 & Hn2 & Hr2).
  rewrite Hr, decide_False in Hr2 by done.
  destruct (dial_rejected_run p2 _ [] Hr2) as (p3 & id & Hrun3 & Hm3 & _ & Hl3 & Hnt3 & Hps3).
  destruct (emit_users_run payload p3 h n) as (q & Husers & Hu & Hemit);
    [by rewrite Hl3, Hl2|done|by intros _|].
  pose proof (uh_promises _ _ _ _ Hu) as Hps.
  rewrite settle_again in Hemit by (simpl; rewrite Hps, Hps3; exact Hn2).
  eexists p2, p3, _, id. split_and!; [exact Hrun2|exact Hrun3|by rewrite Hm3| |exact Hemit| | |].
  - rewrite Hnt3. apply lookup_insert_eq.
  - simpl. rewrite (uh_media _ _ _ _ Hu), Hm3. by destruct (users_recordStatus payload).
  - simpl. by rewrite Hps, Hps3.
  - intros u Hin Hme. simpl.
    exact (proj1 (users_handled_all h payload p3 q Hu) u Hin Hme).
Qed.
End dial.

(** C31. A dial shows that it is dialling and sends its message.  When the list of
    users arrives the call begins, and the timeout does nothing more.  When the
    timeout comes first the call is over and an error is shown; a list of users
    that arrives after that still connects this page to everyone, while it shows
    that it has hung up. *)
Theorem dial_lifecycle nickname p payload :
  connecting p = false → next_promise (promises p) ∉ settled (promises p) →
  reactions (promises p) = [] → callId ≠ "" → NoDup (peerIds payload) →
  let n := next_promise (promises p) in
  ∃ p1, dial nickname p = (Ok tt, p1) ∧ dialState (st_media (state p1)) = DIAL_STATE_DIALLING ∧
    effects (world p1) = effects (world p) ++ [SocketSent (sent_ready callId nickname nickname)] ∧
    (∃ p2 p3 p4, emit_event (ev_users payload) p1 = (Ok tt, p2) ∧ run_reaction p2 = (Ok tt, p3) ∧
       dialState (st_media (state p3)) = DIAL_STATE_IN_CALL ∧
       dial_timeout n p3 = (Ok tt, p4) ∧ state p4 = state p3 ∧ reactions (promises p4) = []) ∧
    (∃ p2 p3 p4 id, dial_timeout n p1 = (Ok tt, p2) ∧ run_reaction p2 = (Ok tt, p3) ∧
       dialState (st_media (state p3)) = DIAL_STATE_HUNG_UP ∧
       st_notifications (state p3) !! id = Some {| n_id := id; n_type := notify_error;
         n_message := "Error: Dial timed out!" |} ∧
       emit_event (ev_users payload) p3 = (Ok tt, p4) ∧
       dialState (st_media (state p4)) = DIAL_STATE_HUNG_UP ∧ reactions (promises p4) = [] ∧
       ∀ u, u ∈ peerIds payload → u ≠ userId → is_Some (st_peers (state p4) !! u)).
Proof.
  intros Hc Hn Hr Hcall Hnd n. exists (dialled nickname p).
  pose proof (dial_run nickname p) as Hrun. rewrite Hc in Hrun.
  assert (dial_pending n (dial_handler nickname) (dialled nickname p)) as Hp
    by (split; [apply dialled_users|exact Hn|exact Hr]).
  split_and!; [exact Hrun|done|done| |].
  - destruct (dial_answered n (dial_handler nickname) payload Hnd Hcall _ Hp)
      as (p2 & p3 & q & H2' & H3' & Hin & _ & _ & _ & _ & _ & Hr3 & Hs3).
    destruct (dial_timeout_run n p3) as (p4 & Hrun4 & Hs4 & _ & _ & Hr4).
    exists p2, p3, p4. split_and!; [done..|].
    rewrite Hr4, Hr3, decide_True by (rewrite Hs3; set_solver). done.
  - by apply (dial_unanswered n (dial_handler nickname)).
Qed.
End call.

(** * Instances *)

#[local] Existing Instance some_platform.
#[local] Existing Instance some_lodash.
#[local] Existing Instance some_object_keys.
#[local] Existing Instance once_streams.
#[local] Existing Instance ascii_codec.
#[local] Existing Instance some_json.
#[local] Instance demo_window : Window := some_window "alice".

Definition demo_handler : SocketHandler := dial_handler "Alice".

(** Bob and Carol are in the room; Bob came first. *)
Definition demo_users (recording : bool) : UsersPayload :=
  {| initiator := "carol"; peerIds := ["alice"; "bob"; "carol"];
     user_nicknames := {["alice" := "Alice"; "bob" := "Bob"; "carol" := "Carol"]};
     users_recordStatus := recording; users_recordUrl := None |}.

Definition ready_page : Page :=
  let p := new_page None "Alice" empty_world in
  {| state := state p; world := world p; encoder := encoder p; worker_events := [];
     handlers := ∅; listeners := []; connecting := false; promises := promises p; now := "" |}.

Definition recording_page : Page := (handleRecordCallback demo_handler true true None ready_page).2.

Lemma users_connected_witness :
  ∃ p', handleUsers demo_handler (demo_users false) ready_page = (Ok tt, p') ∧
    is_Some (st_peers (state p') !! "bob") ∧ is_Some (st_peers (state p') !! "carol").
Proof.
  destruct (users_connected demo_handler (demo_users false) ready_page)
    as (p' & Hrun & Hall & _).
  - apply (bool_decide_unpack _). vm_compute. reflexivity.
  - discriminate.
  - exists p'. split_and!; [exact Hrun|apply Hall|apply Hall].
    + right. left.
    + discriminate.
    + right. right. left.
    + discriminate.
Defined.

(** A page that shares a camera and records it. *)
Definition shared_camera : MediaStream := {| stream_ref := 0; stream_id := "camera" |}.
Definition recording_camera_page : Page :=
  (handleRecordCallback demo_handler true true None
    (dispatch_plain (MediaStreamAction (resolved
      {| als_type := StreamTypeCamera; als_stream := shared_camera |})) ready_page).2).2.

Lemma join_records_again_witness :
  ∃ p' n, handleUsers demo_handler (demo_users true) recording_camera_page = (Ok tt, p') ∧
    recordStatus (st_media (state p')) = true ∧ isRecording (st_streams (state p')) = false ∧
    PeerCreated n true (Some shared_camera) ∈ effects (world p').
Proof.
  destruct (join_records_again demo_handler (demo_users true) recording_camera_page)
    as (p' & new & Hrun & Hs & Hr & He & Hmade & _).
  - apply (bool_decide_unpack _). vm_compute. reflexivity.
  - reflexivity.
  - discriminate.
  - vm_compute. reflexivity.
  - assert ((λ ls, stream (ls_stream ls)) <$> localStreams (st_streams (state recording_camera_page)) !! "camera"
      = Some shared_camera) as Hk by (vm_compute; reflexivity).
    destruct (localStreams _ !! "camera") as [ls|] eqn:Hls; [|discriminate].
    cbn in Hk. injection Hk as Hk. destruct (Hmade _ _ Hls) as (n & _ & Hin). rewrite Hk in Hin.
    exists p', n. split_and!; [exact Hrun|exact Hs|exact Hr|]. rewrite He. apply elem_of_app. by right.
Defined.

Lemma redial_breaks_recording_witness :
  ∃ p1 p2, dial "Alice" (past_calls "Alice" 1 ready_page) = (Ok tt, p1) ∧
    emit_event (ev_record_callback true true None) p1 = (Ok tt, p2) ∧
    isRecording (st_streams (state p2)) = isRecording (st_streams (state p1)).
Proof.
  destruct (redial_breaks_recording "Alice" 1 None ready_page) as (p1 & p2 & H1' & H2' & H3').
  - discriminate.
  - reflexivity.
  - exists p1, p2. split_and!; [exact H1'|exact H2'|exact H3'].
Defined.

Lemma dial_lifecycle_witness :
  ∃ p1, dial "Alice" ready_page = (Ok tt, p1) ∧
    dialState (st_media (state p1)) = DIAL_STATE_DIALLING ∧
    ∃ p2 p3, emit_event (ev_users (demo_users false)) p1 = (Ok tt, p2) ∧
      run_reaction p2 = (Ok tt, p3) ∧ dialState (st_media (state p3)) = DIAL_STATE_IN_CALL.
Proof.
  destruct (dial_lifecycle "Alice" ready_page (demo_users false))
    as (p1 & Hrun & Hd & _ & (p2 & p3 & _ & H2' & H3' & Hc & _) & _).
  - reflexivity.
  - apply not_elem_of_empty.
  - reflexivity.
  - discriminate.
  - apply (bool_decide_unpack _). vm_compute. reflexivity.
  - exists p1. split_and!; [exact Hrun|exact Hd|]. exists p2, p3. split_and!; [exact H2'|exact H3'|exact Hc].
Defined.
