(* ===== verification/Session.v ===== *)
(** A session of the page: what the browser, the server, the peers and the user
    can make happen, in any order. *)

From S2P Require Import Prelude Bytes TextCodec Encoder Decoder Objects InsertableStreams InsertableCodec Actions World Streams StreamsInv StreamsSafety StreamsFresh Peers PeersSafety Media Users Notices Async Store PeerActions CallActions.

#[local] Abbreviation list := Datatypes.list.

Inductive PageEvent :=
  (** the server, and the socket *)
  | server_message (ev : SocketEvent)
  | socket_changes (is_connecting : bool)
  (** the peers and their tracks *)
  | peer_event (peer : PeerRef) (ev : PeerEvent)
  | track_event (track : MediaStreamTrack) (muted : bool)
  (** what was left to be run later *)
  | reaction_due
  | encoder_due
  | worker_message
  | dial_timed_out (promise : nat)
  | destroys_due (peers : list PeerRef)
  (** the browser gives a media stream; a promise of it settles; time passes *)
  | stream_given (tracks : list MediaStreamTrack)
  | media_settled (s : Settlement)
  | time_passes (time : string)
  (** the user *)
  | user_requests (type : AsyncType)
  | user_dials (nickname : string)
  | user_hangs_up
  | user_sends (message : MessageType)
  | user_acts (action : Action)
  | user_sets_password (password : string).

(** The local stream a promise has settled with, if that is what it was for. *)
Definition stream_obtained (s : Settlement) : option AddLocalStreamPayload :=
  match s with
  | settlement MEDIA_STREAM (inl payload) => Some payload
  | _ => None
  end.

(** The actions the components dispatch. *)
Definition of_the_user (action : Action) : bool :=
  match action with
  | RemoveLocalStreamAction _ _ | MinimizeToggleAction _ _ | MediaVideoConstraintAction _
  | MediaAudioConstraintAction _ | MediaTrackEnableAction _ _ | NotificationDismissAction _
  | NotificationClearAction => true
  | _ => false
  end.

Definition set_connecting (b : bool) (p : Page) : Page :=
  {| state := state p; world := world p; encoder := encoder p; worker_events := worker_events p;
     handlers := handlers p; listeners := listeners p; connecting := b; promises := promises p;
     now := now p |}.
Definition set_now (time : string) (p : Page) : Page :=
  {| state := state p; world := world p; encoder := encoder p; worker_events := worker_events p;
     handlers := handlers p; listeners := listeners p; connecting := connecting p;
     promises := promises p; now := time |}.

Section session.
Context `{Platform} `{Lodash} `{ObjectKeys} `{EncodedStreams} `{TextCodec} `{!JSON} `{Window}.

Definition run (ev : PageEvent) : eff Page unit :=
  match ev with
  | server_message ev => emit_event ev
  | socket_changes b => modify (set_connecting b)
  | peer_event peer ev => on_peer_event peer ev
  | track_event t muted => on_track_event t muted
  | reaction_due => run_reaction
  | encoder_due => run_encoder
  | worker_message => run_worker_event
  | dial_timed_out n => dial_timeout n
  | destroys_due ps => for_each (λ p, lift (call_peer p p_destroy) ≫= λ _, mret tt) ps
  | stream_given tracks =>
    lift (modify (λ w, set_next_stream (S (next_stream w))
                         (set_stream_tracks (insert (next_stream w) tracks) w)))
  | media_settled s => with_promises (λ ps,
      {| next_promise := next_promise ps; settled := settled ps;
         dial_timeouts := dial_timeouts ps; reactions := reactions ps ++ [s] |})
  | time_passes time => modify (set_now time)
  | user_requests type => dispatch (promised {| pa_type := type; pa_promise := 0 |})
  | user_dials nickname => dial nickname
  | user_hangs_up => hangUp_call
  | user_sends message => dispatch_plain (MessageSendAction message)
  | user_acts action => dispatch_plain action
  | user_sets_password password => lift (codec_op (SetPassword password)) ≫= λ _, mret tt
  end.

(** The browser's contract, for the event in the page it happens in: what [valid_add]
    and [valid_action] say of remote tracks; and a stream the browser gives to the
    page is not one of those the page has made for its display; and only a
    timer that was set goes off. *)
Definition valid_event (p : Page) (ev : PageEvent) : Prop :=
  let s := st_streams (state p) in
  match ev with
  | peer_event peer (peer_track track false stream mid _) =>
      ∀ h, handlers p !! peer = Some h →
        valid_add s {| at_mid := mid; at_streamId := stream_id stream; at_userId := ph_user h;
                       at_track := track |}
  | track_event t true => valid_action s (RemoveTrackAction t)
  | track_event t false => ∀ payload, onunmute_of (effects (world p)) t = Some payload → valid_add s payload
  | media_settled s' =>
      ∀ payload, stream_obtained s' = Some payload →
        stream_ref (als_stream payload) < next_stream (world p) ∧
        ∀ u sw, sw ∈ streams_of s u →
          stream_ref (stream sw) ≠ stream_ref (als_stream payload)
  | user_acts action => of_the_user action = true
  | dial_timed_out n => n ∈ dial_timeouts (promises p)
  | _ => True
  end.

(** A page just opened: its listeners are registered, nothing has been done. *)
Definition opened (stored : option string) (nickname url : string) (codec_ok : bool) : Page :=
  (init (new_page stored nickname
     {| stream_tracks := ∅; next_stream := 0; next_peer := 0; effects := []; recorder_arrays := ∅;
        next_array := 1; peerInstance := None; isRecording_var := false;
        shared_streams := λ _, None;
        codec := new_codec codec_ok codec_ok codec_ok url userId; unique_ids := 0 |})).2.

Inductive session (url : string) : Page → Prop :=
  | session_opens stored nickname codec_ok : session url (opened stored nickname url codec_ok)
  | session_goes_on p ev r p' :
      session url p → valid_event p ev → run ev p = (r, p') → session url p'.
End session.
