(* ===== verification/SessionSafety.v ===== *)
(** What holds of the page throughout a session. *)

From S2P Require Import Prelude Bytes TextCodec Encoder Decoder Objects InsertableStreams KeyManagement KeySafety InsertableCodec Actions World Logic Streams StreamsInv StreamsOps StreamsSafety StreamsFresh Peers PeersSafety Media Users Notices Async Store PeerActions CallActions Chat CallSafety Session.

#[local] Abbreviation list := Datatypes.list.

(** * What the streams reducer does not touch *)

Section outside.
Context `{Platform} `{Lodash} `{ObjectKeys}.
Context (c : InsertableStreamsCodec) (sh : StreamType → option MediaStream) (i : N).

(** The codec, the shared streams, the ids given, and the senders. *)
Definition outside (w : World) : Prop :=
  senders_seen w ∧ codec w = c ∧ shared_streams w = sh ∧ unique_ids w = i.

Lemma outside_modify f :
  (∀ w, effects (f w) = effects w ∧ codec (f w) = codec w ∧
        shared_streams (f w) = shared_streams w ∧ unique_ids (f w) = unique_ids w) →
  keeps outside (modify f).
Proof.
  intros Hf. apply keeps_modify. intros w (Hs & Hc & Hsh & Hu). destruct (Hf w) as (He & Hc' & Hsh' & Hu').
  split_and!; [|congruence..].
  intros j p t x n. rewrite He, Hc'. apply Hs.
Qed.

Lemma outside_call p call : is_addTrack (PeerCalled p call) = false → keeps outside (call_peer p call).
Proof.
  intros Hc w r w' (Hs & ? & ? & ?) Hrun. split; [by eapply keeps_call|]. by injection Hrun as <- <-.
Qed.

Lemma outside_emit e : is_addTrack e = false → keeps outside (World.emit e).
Proof.
  intros He w r w' (Hs & ? & ? & ?) Hrun. split; [by eapply keeps_emit|]. by injection Hrun as <- <-.
Qed.
End outside.

#[export] Hint Extern 1 (keeps (outside _ _ _) (call_peer _ _)) => apply outside_call; reflexivity : keeps.
#[export] Hint Extern 1 (keeps (outside _ _ _) (World.emit _)) => apply outside_emit; reflexivity : keeps.
#[export] Hint Extern 1 (keeps (outside _ _ _) (modify _)) =>
  apply outside_modify; intros; split_and!; reflexivity : keeps.

Section streams_outside.
Context `{Platform} `{Lodash} `{ObjectKeys}.
Context (c : InsertableStreamsCodec) (sh : StreamType → option MediaStream) (i : N).
#[local] Abbreviation keep m := (keeps (outside c sh i) m).

Lemma stopStream_outside x : keep (stopStream x).
Proof. unfold stopStream, revoke_url, getTracks. repeat keeps_step. Qed.
Lemma recorder_outside a b x : keep (initializeMediaRecorder a b x).
Proof.
  unfold initializeMediaRecorder, need_peerInstance, initializePeer, new_Peer. repeat keeps_step.
Qed.
Lemma addTrack_outside s p : keep (addTrack s p).
Proof. unfold addTrack, stream_addTrack, new_MediaStream. repeat keeps_step. Qed.
Lemma removeTrack_outside s t : keep (removeTrack s t).
Proof. unfold removeTrack, stream_removeTrack, getTracks, revoke_url. repeat keeps_step. Qed.
#[local] Hint Resolve stopStream_outside recorder_outside addTrack_outside removeTrack_outside : keeps.

Lemma streams_outside s action : keep (streams s action).
Proof.
  destruct action; cbn [streams]; try apply keeps_ret; auto with keeps;
    unfold removeLocalStream, recordLocalStream, stopRecordLocalStream, setMetadata, associate,
      addLocalStream, hangUp, removePeer, unassociateUserTracks, stopRecordAdditionalStream,
      need_peerInstance, new_array, destroy_peerInstance, stopAllTracks, recordAdditionalStream,
      array_push, getTracksOf, getTracks, stream_removeTrack; repeat keeps_step.
Qed.
End streams_outside.

(** * The world's part *)

Section world.
Context `{Platform} `{Lodash} `{ObjectKeys} `{EncodedStreams}.
(** The url and user of the codec, the streams that are not for display, the state
    of the display, and the notifications shown. *)
Context (url user : string) (L : nat → Prop) (s : StreamsState) (n : NotificationState).

Record world_inv (w : World) : Prop := {
  wi_streams : state_ok s w;
  wi_senders : senders_seen w;
  wi_codec : codec_inv url user (codec w);
  wi_below : below L w;
  wi_shared t x : shared_streams w t = Some x → L (stream_ref x);
  wi_notes : ids_given n w;
}.

Lemma ids_given_later (n' : NotificationState) w w' :
  (unique_ids w <= unique_ids w')%N → ids_given n' w → ids_given n' w'.
Proof.
  intros Hle Hn k x Hk. destruct (Hn k x Hk) as [? (i & Hi & ?)]. split; [done|].
  exists i. split; [lia|done].
Qed.

(** The streams and what is shared stay; ids may be given. *)
Lemma world_inv_calm w w' :
  world_inv w → stream_tracks w' = stream_tracks w → next_stream w' = next_stream w →
  shared_streams w' = shared_streams w → (unique_ids w <= unique_ids w')%N →
  senders_seen w' → codec_inv url user (codec w') → world_inv w'.
Proof.
  intros [[Hi Hk] _ _ Hb Hsh Hn] Ht Hnx Hs Hu Hse Hc. split; try done.
  - split; [|done]. eapply streams_inv_env; [done|]. by apply same_streams_env.
  - intros r Hr. rewrite Hnx. by apply Hb.
  - rewrite Hs. apply Hsh.
  - by eapply ids_given_later.
Qed.

(** An operation that only has effects outside, and uses the codec. *)
Definition calm {A} (m : eff World A) : Prop := ∀ w r w', m w = (r, w') →
  stream_tracks w' = stream_tracks w ∧ next_stream w' = next_stream w ∧
  shared_streams w' = shared_streams w ∧ (unique_ids w <= unique_ids w')%N ∧
  (codec_inv url user (codec w) → codec_inv url user (codec w')).

Lemma calm_keeps {A} (m : eff World A) :
  calm m → keeps senders_seen m → keeps world_inv m.
Proof.
  intros Hm Hk w r w' Hw Hrun. destruct (Hm _ _ _ Hrun) as (Ht & Hn & Hs & Hu & Hc).
  eapply world_inv_calm; try done; [by eapply Hk; [apply Hw|]|by apply Hc, Hw].
Qed.

Lemma calm_call p c : calm (call_peer p c).
Proof. by intros w r w' [= <- <-]. Qed.
Lemma calm_emit e : calm (World.emit e).
Proof. by intros w r w' [= <- <-]. Qed.
Lemma calm_new_Peer b o : calm (new_Peer b o).
Proof. by intros w r w' [= <- <-]. Qed.

Lemma codec_call_inv op c : codec_inv url user c → codec_inv url user (codec_call op c).2.
Proof. intros Hc. by apply (codec_calls_inv _ _ [op]). Qed.

Lemma calm_codec op : calm (codec_op op).
Proof.
  intros w r w'. unfold codec_op. pose proof (codec_call_inv op (codec w)) as Hc.
  destruct (codec_call op (codec w)) as [b c]. intros [= <- <-]. simpl in *. split_and!; done || lia.
Qed.


Lemma calm_ret {A} (a : A) : calm (mret a).
Proof. by intros w r w' [= <- <-]. Qed.

Lemma calm_bind {A B} (m : eff World A) (f : A → eff World B) :
  calm m → (∀ a, calm (f a)) → calm (m ≫= f).
Proof.
  intros Hm Hf w r w'. unfold mbind, eff_bind. destruct (m w) as [[a|e] w1] eqn:Hrun.
  - intros Hrun'. destruct (Hm _ _ _ Hrun) as (? & ? & ? & ? & ?).
    destruct (Hf a _ _ _ Hrun') as (? & ? & ? & ? & ?). split_and!; try congruence; [lia|auto].
  - intros [= <- <-]. by apply (Hm _ _ _ Hrun).
Qed.

Lemma addTrackToPeer_world p t x : keeps world_inv (addTrackToPeer p t x).
Proof.
  apply calm_keeps; [|apply addTrackToPeer_keeps]. apply calm_bind; [apply calm_call|].
  intros m. apply calm_bind; [apply calm_codec|]. intros ?. apply calm_ret.
Qed.

Lemma call_world p c : is_addTrack (PeerCalled p c) = false → keeps world_inv (call_peer p c).
Proof. intros Hc. apply calm_keeps; [apply calm_call|by apply keeps_call]. Qed.

Lemma emit_world e : is_addTrack e = false → keeps world_inv (World.emit e).
Proof. intros He. apply calm_keeps; [apply calm_emit|by apply keeps_emit]. Qed.

Lemma codec_safe op : keeps world_inv (codec_op op).
Proof. apply calm_keeps; [apply calm_codec|apply codec_op_keeps_senders]. Qed.

Lemma new_Peer_world b o : keeps world_inv (new_Peer b o).
Proof. apply calm_keeps; [apply calm_new_Peer|apply new_Peer_keeps_senders]. Qed.

Lemma uniqueId_safe prefix : keeps world_inv (uniqueId prefix).
Proof.
  intros w r w' Hw [= <- <-]. eapply world_inv_calm; try done; [simpl; lia| |apply Hw].
  intros i p t x m. apply (wi_senders _ Hw).
Qed.

(** ** Streams that are not on display may change *)

Hypothesis (Hapart : apart L s).

Lemma stream_tracks_world x f :
  L (stream_ref x) → keeps world_inv (modify (λ w, set_stream_tracks (insert (stream_ref x) (f w)) w)).
Proof using Hapart.
  intros Hx. apply keeps_modify. intros w [[Hi Hk] Hse Hc Hb Hsh Hn]. split; try done.
  - split; [|done]. eapply streams_inv_env; [done|]. split; [done|].
    intros u sw Hsw. rewrite (tracks_of_insert w _ x (f w)) by done. rewrite decide_False; [done|].
    intros Heq. apply (Hapart u sw Hsw). by rewrite Heq.
Qed.

Lemma shared_world f :
  (∀ w, world_inv w → ∀ t x, f w t = Some x → L (stream_ref x)) →
  keeps world_inv (modify (λ w, set_shared_streams (f w) w)).
Proof.
  intros Hf. apply keeps_modify. intros w Hw. pose proof Hw as [Hi Hse Hc Hb Hsh Hn].
  split; [|exact Hse|exact Hc|exact Hb|intros t x; by apply (Hf w Hw)|exact Hn].
  destruct Hi as [Hi Hk]. split; [|done]. eapply streams_inv_env; [done|]. by split.
Qed.

Lemma get_local_world t :
  ensures world_inv (λ o, ∀ x, o = Some x → L (stream_ref x)) (get_local t).
Proof. apply ensures_gets. intros w Hw x Hx. by apply (wi_shared _ Hw t). Qed.

Lemma peers_safe ps action :
  (∀ payload, action = MediaStreamAction (resolved payload) → L (stream_ref (als_stream payload))) →
  keeps world_inv (peers ps action).
Proof using Hapart.
  intros Ha.
  pose proof addTrackToPeer_world. pose proof call_world. pose proof emit_world.
  destruct action; cbn [peers]; try apply keeps_ret.
  - unfold handleRemoveLocalStream, removeTrackFromPeer, getTracks. repeat keeps_step; auto.
  - unfold handleLocalMediaStream. case_match; try apply keeps_ret.
    apply keeps_bind; [|intros _; apply keeps_bind; [|intros; apply keeps_ret]].
    + unfold removeTrackFromPeer, getTracks, get_local. repeat keeps_step; auto.
    + apply shared_world. intros w Hw t x. case_decide; [|by apply (wi_shared _ Hw)].
      intros [= <-]. by apply Ha.
  - unfold handleLocalMediaTrack. case_match; try apply keeps_ret.
    apply (ensures_keeps _ true_of). eapply ensures_bind; [apply get_local_world|].
    intros o Ho. apply keeps_ensures. destruct o as [x|]; [|apply keeps_ret].
    specialize (Ho x eq_refl). pose proof (λ f, stream_tracks_world x f Ho) as Hx.
    unfold getTracksByKind, getTracksOf, stream_removeTrack, stream_addTrack.
    repeat keeps_step; auto.
  - unfold handleLocalMediaTrackEnable, getTracksByKind, getTracksOf, get_local.
    repeat keeps_step; auto.
  - apply keeps_bind; [by apply shared_world|]. intros _. repeat keeps_step; auto.
Qed.
End world.

Section reducers.
Context `{Platform} `{Lodash} `{ObjectKeys} `{EncodedStreams} `{TextCodec} `{!JSON} `{Window}.
Context (url user : string) (L : nat → Prop).

(** A notification that is dispatched has been given its id. *)
Definition id_given (w : World) (action : Action) : Prop :=
  match action with
  | NotificationAddAction n =>
      ∃ i : N, (0 < i ≤ unique_ids w)%N ∧ n_id n = "notification" +:+ pretty i
  | _ => True
  end.

Lemma handleNotifications_given ns action w :
  ids_given ns w → id_given w action → ids_given (handleNotifications ns action) w.
Proof.
  intros Hns Ha. destruct action; try done; simpl.
  - intros k x. intros [[<- <-]|[_ Hk]]%lookup_insert_Some; [|by apply Hns].
    split; [done|]. destruct Ha as (i & Hi & ->). by exists i.
  - intros k x [Hk _]%map_lookup_filter_Some. by apply Hns.
Qed.

Lemma notifications_safe s ns action w :
  world_inv url user L s ns w → id_given w action →
  ∃ ns' w', notifications ns action w = (Ok ns', w') ∧
    world_inv url user L s ns w' ∧ world_inv url user L s ns' w'.
Proof.
  intros Hw Ha. pose proof Hw as [Hs Hse Hc Hb Hsh Hn]. unfold notifications.
  destruct (isRejectedAction action) as [e|].
  - eexists _, _. split; [reflexivity|].
    set (w' := set_unique_ids _ w).
    assert (world_inv url user L s ns w') as Hw'.
    { eapply (uniqueId_safe url user L s ns "" w (Ok _)); [done|reflexivity]. }
    split; [done|]. destruct Hw' as [Hs' Hse' Hc' Hb' Hsh' Hn']. split; [done..|].
    apply handleNotifications_given; [done|]. simpl. exists (unique_ids w + 1)%N. split; [lia|done].
  - eexists _, _. split; [reflexivity|]. split; [done|]. split; [done..|].
    by apply handleNotifications_given.
Qed.

Lemma streams_safe s ns action w r w' :
  apart L s → world_inv url user L s ns w → valid_action s action →
  streams s action w = (r, w') →
  apart L (after_action s r) ∧ world_inv url user L (after_action s r) ns w'.
Proof.
  intros Hap [Hs Hse Hc Hb Hsh Hn] Hv Hrun.
  destruct (streams_apart L s action Hap w r w' Hb Hrun) as [Hb' Hap'].
  assert (outside (codec w) (shared_streams w) (unique_ids w) w') as (Hse' & Hc' & Hsh' & Hu').
  { by apply (streams_outside _ _ _ s action w r w'). }
  split.
  - destruct r; [by apply Hap'|done].
  - split; [by eapply streams_action_ok|done|by rewrite Hc'|done| |].
    + rewrite Hsh'. apply Hsh.
    + apply (ids_given_later _ w); [lia|done].
Qed.

(** What the store needs of an action: [valid_action]; an id for a notification; a
    media stream that is not for display. *)
Definition valid_dispatch (s : State) (w : World) (action : Action) : Prop :=
  valid_action (st_streams s) action ∧ id_given w action ∧
  ∀ payload, action = MediaStreamAction (resolved payload) → L (stream_ref (als_stream payload)).

Definition store_inv (s : State) (w : World) : Prop :=
  apart L (st_streams s) ∧ world_inv url user L (st_streams s) (st_notifications s) w.

Lemma reducers_inv time s action w r w' :
  store_inv s w → valid_dispatch s w action → reducers time s action w = (r, w') →
  store_inv (match r with Ok s' => s' | Throw _ => s end) w'.
Proof.
  intros [Hap Hw] (Hv & Hid & Hm) Hrun. unfold reducers, mbind, eff_bind in Hrun.
  destruct (notifications_safe _ _ _ _ Hw Hid) as (ns & w1 & Hn & Hw1 & Hw1'). rewrite Hn in Hrun.
  destruct (peers (st_peers s) action w1) as [rp w2] eqn:Hp.
  assert (∀ n, world_inv url user L (st_streams s) n w1 → world_inv url user L (st_streams s) n w2)
    as Hw2 by (intros n Hn1; by eapply (peers_safe _ _ _ _ n Hap _ action Hm)).
  destruct rp as [ps|e]; [|injection Hrun as <- <-; by split; auto].
  destruct (streams (st_streams s) action w2) as [rs w3] eqn:Hs.
  destruct rs as [ss|e]; injection Hrun as <- <-.
  - destruct (streams_safe _ _ _ _ _ _ Hap (Hw2 _ Hw1') Hv Hs). by split.
  - destruct (streams_safe _ _ _ _ _ _ Hap (Hw2 _ Hw1) Hv Hs). by split.
Qed.
End reducers.

(** * The page *)

Section page.
Context `{Platform} `{Lodash} `{ObjectKeys} `{EncodedStreams} `{TextCodec} `{!JSON} `{Window}.
Context (url user : string) (L : nat → Prop).

(** The streams of the settled promises are not for display either. *)
Definition reactions_ok (rs : list Settlement) : Prop :=
  ∀ s payload, s ∈ rs → stream_obtained s = Some payload → L (stream_ref (als_stream payload)).

Definition page_inv (p : Page) : Prop :=
  store_inv url user L (state p) (world p) ∧ reactions_ok (reactions (promises p)).

Lemma page_inv_same p p' :
  state p' = state p → world p' = world p → reactions (promises p') = reactions (promises p) →
  page_inv p → page_inv p'.
Proof. unfold page_inv. by intros -> -> ->. Qed.

Lemma page_modify f :
  (∀ p, state (f p) = state p ∧ world (f p) = world p ∧
        reactions (promises (f p)) = reactions (promises p)) → keeps page_inv (modify f).
Proof. intros Hf. apply keeps_modify. intros p Hp. destruct (Hf p) as (? & ? & ?). by apply (page_inv_same p). Qed.

Lemma page_lift {A} (m : eff World A) :
  (∀ s n, apart L s → keeps (world_inv url user L s n) m) → keeps page_inv (lift m).
Proof.
  intros Hm p r p' [[Hap Hw] Hr]. unfold lift. destruct (m (world p)) as [r0 w] eqn:Hrun.
  intros [= <- <-]. split; [|done]. split; [done|]. by eapply Hm.
Qed.

(** Dispatching an action that may be dispatched. *)
Lemma dispatch_inv action p r p' :
  page_inv p → valid_dispatch L (state p) (world p) action → dispatch_plain action p = (r, p') →
  page_inv p'.
Proof.
  assert (∀ a q r q', page_inv q → valid_dispatch L (state q) (world q) a →
    store_reduce a q = (r, q') → page_inv q') as Hs.
  { intros a q r' q' [Hst Hre] Hv. unfold store_reduce, lift, mbind, eff_bind, gets, modify.
    destruct (reducers (now q) (state q) a (world q)) as [rr w'] eqn:Hrun.
    pose proof (reducers_inv _ _ _ _ _ _ _ _ _ Hst Hv Hrun) as Hst'.
    destruct rr as [s'|e]; intros [= <- <-]; by split. }
  unfold dispatch_plain, messaging. intros Hp Hv. destruct action; by apply Hs.
Qed.

(** Most actions may always be dispatched. *)
Definition free (action : Action) : bool :=
  match action with
  | AddTrackAction _ | RemoveTrackAction _ | NotificationAddAction _
  | MediaStreamAction (resolved _) => false
  | _ => true
  end.

Lemma dispatch_free action : free action = true → keeps page_inv (dispatch_plain action).
Proof.
  intros Ha p r p' Hp. apply dispatch_inv; [done|].
  split; [|split]; destruct action; try done; by destruct action.
Qed.

Lemma dispatch_notify_inv type args : keeps page_inv (dispatch_notify (notify type) args).
Proof.
  intros p r p' Hp. unfold dispatch_notify.
  destruct (notify type args (world p)) as [ra w] eqn:Hn.
  assert (lift (notify type args) p = (ra, set_world w p)) as Hl by (unfold lift; by rewrite Hn).
  unfold notify, mbind, eff_bind, uniqueId in Hn. injection Hn as <- <-.
  rewrite (bind_runs _ _ _ _ _ Hl). apply dispatch_inv.
  - assert (keeps page_inv (lift (uniqueId "notification"))) as Hk
      by (apply page_lift; intros; apply uniqueId_safe).
    by apply (Hk p (Ok ("notification" +:+ pretty (unique_ids (world p) + 1)%N))).
  - split; [done|]. split; [|done]. simpl. exists (unique_ids (world p) + 1)%N. split; [lia|done].
Qed.
End page.

#[export] Hint Extern 1 (keeps (page_inv _ _ _) (dispatch_plain _)) =>
  apply dispatch_free; reflexivity : keeps.
#[export] Hint Extern 1 (keeps (page_inv _ _ _) (dispatch_notify _ _)) =>
  apply dispatch_notify_inv : keeps.
#[export] Hint Extern 1 (keeps (page_inv _ _ _) (modify _)) =>
  apply page_modify; intros; split_and!; reflexivity : keeps.
#[export] Hint Extern 1 (keeps (page_inv _ _ _) (lift (call_peer _ _))) =>
  apply page_lift; intros; apply call_world; reflexivity : keeps.
#[export] Hint Extern 1 (keeps (page_inv _ _ _) (lift (World.emit _))) =>
  apply page_lift; intros; apply emit_world; reflexivity : keeps.
#[export] Hint Extern 1 (keeps (page_inv _ _ _) (lift (codec_op _))) =>
  apply page_lift; intros; apply codec_safe : keeps.
#[export] Hint Extern 1 (keeps (page_inv _ _ _) (lift (new_Peer _ _))) =>
  apply page_lift; intros; apply new_Peer_world : keeps.
#[export] Hint Extern 1 (keeps (page_inv _ _ _) (lift (addTrackToPeer _ _ _))) =>
  apply page_lift; intros; apply addTrackToPeer_world : keeps.
#[export] Hint Extern 1 (keeps (page_inv _ _ _) (lift (getTracks _))) =>
  apply page_lift; intros; apply keeps_gets : keeps.

(** ** Every operation of the page *)

Section operations.
Context `{Platform} `{Lodash} `{ObjectKeys} `{EncodedStreams} `{TextCodec} `{!JSON} `{Window}.
Context (url user : string) (L : nat → Prop).
#[local] Abbreviation keep m := (keeps (page_inv url user L) m).

(** Operations given by their results. *)
Lemma page_run {A} (m : eff Page A) :
  (∀ p, state (m p).2 = state p ∧ world (m p).2 = world p ∧ promises (m p).2 = promises p) → keep m.
Proof.
  intros Hm p r p' Hp Hrun. destruct (Hm p) as (Hs & Hw & Hps). rewrite Hrun in *. simpl in *.
  apply (page_inv_same _ _ _ p); congruence.
Qed.

Lemma notify_lift type args : keep (lift (notify type args)).
Proof.
  apply page_lift. intros s n _. unfold notify. apply keeps_bind; [apply uniqueId_safe|].
  intros id. apply keeps_ret.
Qed.

Lemma peer_of_inv u : keep (peer_of u).
Proof. apply keeps_gets. Qed.

Lemma socket_emit_inv m : keep (socket_emit m).
Proof. unfold socket_emit. repeat keeps_step. Qed.

Lemma decode_buffer_inv peer b : keep (decode_buffer peer b).
Proof. apply page_run. intros p. unfold decode_buffer. by repeat case_match. Qed.

Lemma take_once_inv peer ev : keep (take_once peer ev).
Proof. apply page_run. intros p. unfold take_once. by repeat case_match. Qed.

(** Promises: what settles is a dial. *)
Lemma settle_inv n o : keep (settle n (dial_settled o)).
Proof.
  apply keeps_modify. intros p [Hs Hr]. case_decide; [by apply (page_inv_same _ _ _ p)|].
  split; [done|]. intros s payload [Hp| ->%list_elem_of_singleton]%elem_of_app; [by apply Hr|done].
Qed.

Lemma new_promise_inv : keep new_promise.
Proof. intros p r p' Hp [= <- <-]. by apply (page_inv_same _ _ _ p). Qed.

#[local] Hint Resolve notify_lift peer_of_inv socket_emit_inv decode_buffer_inv take_once_inv
  settle_inv new_promise_inv : keeps.

(** The peer's handlers, but for a new track. *)
Lemma peer_event_inv peer ev :
  (∀ t m x mid r, ev ≠ peer_track t m x mid r) → keep (on_peer_event peer ev).
Proof.
  intros Hev. destruct ev as [| | | |track muted x mid receiver|];
    [..|by destruct (Hev track muted x mid receiver)|];
    unfold on_peer_event, handleError, handleConnect, handleClose, handleSignal, handleData;
    repeat keeps_step.
Qed.

Lemma createPeer_inv u b x : keep (createPeer u b x).
Proof. unfold createPeer. repeat keeps_step. Qed.

Lemma record_inv h a b x : keep (handleRecordCallback h a b x).
Proof. unfold handleRecordCallback. repeat keeps_step. Qed.
#[local] Hint Resolve createPeer_inv record_inv : keeps.

Lemma removeEventListeners_inv : keep removeEventListeners.
Proof. unfold removeEventListeners, removeAllListeners. repeat keeps_step. Qed.
#[local] Hint Resolve removeEventListeners_inv : keeps.

Lemma dispatch_pending_inv pa : keep (dispatch (promised pa)).
Proof. unfold dispatch, middleware. apply dispatch_free. by destruct (pa_type pa). Qed.
#[local] Hint Resolve dispatch_pending_inv : keeps.

Lemma dial_inv nickname : keep (dial nickname).
Proof. unfold dial, handshake, add_listener, with_promises. repeat keeps_step. Qed.

Lemma hangUp_inv : keep hangUp_call.
Proof. unfold hangUp_call. repeat keeps_step. Qed.

Lemma call_listener_inv l ev : keep (call_listener l ev).
Proof.
  unfold call_listener, handleMetadata, handleRemoteSignal, handleUsers_null, handleUsers, handleHangUp,
    handleSetStreamUrl, on_connect, on_disconnect. repeat keeps_step.
Qed.

Lemma emit_event_inv ev : keep (emit_event ev).
Proof.
  unfold emit_event. repeat keeps_step. apply call_listener_inv.
Qed.

Lemma send_chunk_inv chunk : keep (send_chunk chunk).
Proof. unfold send_chunk. repeat keeps_step. Qed.

Lemma worker_event_inv : keep run_worker_event.
Proof. unfold run_worker_event. repeat keeps_step. Qed.

Lemma dial_timeout_inv n : keep (dial_timeout n).
Proof. unfold dial_timeout, with_promises. repeat keeps_step. Qed.
End operations.

(** ** Every event *)

Section events.
Context `{Platform} `{Lodash} `{ObjectKeys} `{EncodedStreams} `{TextCodec} `{!JSON} `{Window}.
Context (url user : string).

(** The callbacks of a promise that has settled. *)
Lemma on_settled_inv L s :
  reactions_ok L [s] → keeps (page_inv url user L) (on_settled dispatch_plain thrown s).
Proof.
  intros Hs. unfold on_settled. destruct s as [type [payload|err]]; simpl.
  - apply keeps_catch; [|intros e; apply dispatch_free; by destruct type].
    destruct type; try (apply dispatch_free; done).
    intros p r p' Hp. apply dispatch_inv; [done|]. split; [done|]. split; [done|].
    intros payload' [= <-]. by eapply Hs; [left|].
  - apply dispatch_free. by destruct type.
Qed.

Lemma run_reaction_inv L : keeps (page_inv url user L) run_reaction.
Proof.
  intros p r p' Hp. unfold run_reaction, mbind, eff_bind, gets.
  destruct (reactions (promises p)) as [|s rest] eqn:Hr; [by intros [= <- <-]|].
  destruct Hp as [Hst Hre]. rewrite Hr in Hre. apply on_settled_inv.
  - intros s' payload ->%list_elem_of_singleton. apply Hre. left.
  - split; [done|]. intros s' payload Hin. apply Hre. by right.
Qed.

(** A track that is announced, or unmuted. *)
Lemma dispatch_addTrack_inv L p payload r p' :
  page_inv url user L p → valid_add (st_streams (state p)) payload →
  dispatch_plain (AddTrackAction payload) p = (r, p') → page_inv url user L p'.
Proof. intros Hp Hv. apply dispatch_inv; [done|]. by split. Qed.

(** Besides, the display is as it was. *)
Definition display_inv (L : nat → Prop) (s : StreamsState) (p : Page) : Prop :=
  page_inv url user L p ∧ st_streams (state p) = s.

Lemma lift_display L s {A} (m : eff World A) :
  keeps (page_inv url user L) (lift m) → keeps (display_inv L s) (lift m).
Proof.
  intros Hm p r p' [Hp Hs] Hrun. split; [by eapply Hm|]. rewrite <-Hs. revert Hrun.
  unfold lift. by destruct (m (world p)); intros [= _ <-].
Qed.

Lemma handleTrack_inv L s u track muted x mid receiver :
  (muted = false → valid_add s {| at_mid := mid; at_streamId := stream_id x; at_userId := u;
                                  at_track := track |}) →
  leads (display_inv L s) (handleTrack u track muted x mid receiver) (page_inv url user L).
Proof.
  intros Hv. unfold handleTrack.
  apply leads_bind_after; [apply lift_display; eauto with keeps|by intros p []|intros _].
  apply leads_bind_after; [apply lift_display; eauto with keeps|by intros p []|intros _].
  apply leads_bind_first; [|intros _; eauto with keeps]. intros p r p' [Hp Hs].
  destruct muted; [by intros [= <- <-]|]. apply dispatch_addTrack_inv; [done|]. rewrite Hs. by apply Hv.
Qed.

Lemma peer_event_any_inv L peer ev p r p' :
  page_inv url user L p → valid_event p (peer_event peer ev) → on_peer_event peer ev p = (r, p') →
  page_inv url user L p'.
Proof.
  intros Hp Hv.
  destruct ev as [| | | |track muted x mid receiver|]; try (by apply peer_event_inv).
  unfold on_peer_event. destruct (handlers p !! peer) as [h|] eqn:Hh.
  - rewrite (bind_runs _ _ p (Some (ph_user h)) p) by (unfold take_once; by rewrite Hh).
    apply (handleTrack_inv L (st_streams (state p))); [|done].
    intros ->. by apply Hv.
  - rewrite (bind_runs _ _ p None p) by (unfold take_once; by rewrite Hh). by intros [= <- <-].
Qed.

Lemma track_event_inv L t muted p r p' :
  page_inv url user L p → valid_event p (track_event t muted) → on_track_event t muted p = (r, p') →
  page_inv url user L p'.
Proof.
  intros Hp Hv. unfold on_track_event. rewrite (bind_runs _ _ p (effects (world p)) p) by done.
  destruct muted.
  - destruct (onmute_of _ _); [|by intros [= <- <-]]. apply dispatch_inv; [done|]. by split.
  - destruct (onunmute_of _ _) as [payload|] eqn:Hu; [|by intros [= <- <-]].
    apply dispatch_addTrack_inv; [done|]. by apply Hv.
Qed.

(** ** Streams the browser gives *)

Lemma stream_given_inv L tracks : keeps (page_inv url user L) (run (stream_given tracks)).
Proof.
  apply page_lift. intros s n Hap. apply keeps_modify. intros w [[Hi Hk] Hse Hc Hb Hsh Hn].
  split; [|exact Hse|exact Hc| |exact Hsh|exact Hn].
  - split; [|done]. eapply streams_inv_env; [done|]. split; [simpl; lia|].
    intros u sw Hsw. pose proof (so_fresh _ _ (inv_streams _ _ _ Hi) u sw Hsw) as Hlt.
    unfold tracks_of. simpl. rewrite lookup_insert_ne; [done|lia].
  - intros r Hr. simpl. specialize (Hb r Hr). lia.
Qed.

(** One more stream that is not for display. *)
Lemma page_inv_grow L x p :
  page_inv url user L p → x < next_stream (world p) →
  (∀ u sw, sw ∈ streams_of (st_streams (state p)) u → stream_ref (stream sw) ≠ x) →
  page_inv url user (λ r, L r ∨ r = x) p.
Proof.
  intros [[Hap [Hs Hse Hc Hb Hsh Hn]] Hr] Hx Hd. split; [split|].
  - intros u sw Hsw [HL|Heq]; [by apply (Hap u sw)|by apply (Hd u sw)].
  - split; [done|done|done| | |done].
    + intros r [HL| ->]; [by apply Hb|done].
    + intros t y Hy. left. by apply (Hsh t).
  - intros s payload Hp Hs'. left. by apply (Hr s).
Qed.

Lemma media_settled_inv L s p r p' :
  page_inv url user L p → valid_event p (media_settled s) → run (media_settled s) p = (r, p') →
  ∃ L', page_inv url user L' p'.
Proof.
  intros Hp Hv [= _ <-]. pose proof Hp as [Hst Hr].
  destruct (stream_obtained s) as [payload|] eqn:Hs.
  - destruct (Hv payload Hs) as [Hlt Hd].
    exists (λ r, L r ∨ r = stream_ref (als_stream payload)).
    destruct (page_inv_grow L _ p Hp Hlt Hd) as [Hst' Hr']. split; [done|].
    intros s' payload' [Hin| ->%list_elem_of_singleton]%elem_of_app Hs'; [by apply (Hr' s')|].
    right. congruence.
  - exists L. split; [done|].
    intros s' payload [Hin| ->%list_elem_of_singleton]%elem_of_app Hs'; [by apply (Hr s')|congruence].
Qed.

Lemma run_inv L p ev r p' :
  page_inv url user L p → valid_event p ev → run ev p = (r, p') → ∃ L', page_inv url user L' p'.
Proof.
  intros Hp Hv Hrun.
  assert (keeps (page_inv url user L) (run ev) → ∃ L', page_inv url user L' p') as Hk
    by (intros Hk; exists L; by eapply Hk).
  destruct ev; cbn [run] in *; try (apply Hk; by repeat keeps_step).
  - apply Hk, emit_event_inv.
  - exists L. by eapply peer_event_any_inv.
  - exists L. by eapply track_event_inv.
  - apply Hk, run_reaction_inv.
  - apply Hk. apply page_modify. intros q. by destruct (scheduled (encoder q)).
  - apply Hk, worker_event_inv.
  - apply Hk, dial_timeout_inv.
  - apply Hk, stream_given_inv.
  - by eapply media_settled_inv.
  - apply Hk, dispatch_pending_inv.
  - apply Hk, dial_inv.
  - apply Hk, hangUp_inv.
  - apply Hk, dispatch_free. by destruct action.
Qed.
End events.

Section session.
Context `{Platform} `{Lodash} `{ObjectKeys} `{EncodedStreams} `{TextCodec} `{!JSON} `{Window}.

Lemma session_inv url p : session url p → ∃ L, page_inv url userId L p.
Proof.
  induction 1 as [stored nickname ok|p ev r p' _ [L IH] Hv Hrun]; [|by eapply run_inv].
  exists (λ _, False). split; [split|].
  - intros u sw. by intros ?%not_elem_of_nil.
  - split; [apply defaultState_ok| |apply new_codec_inv|by intros r []|done|].
    + intros i q t x n Hi. destruct i; discriminate Hi.
    + intros k n Hk. change ((∅ : NotificationState) !! k = Some n) in Hk. by rewrite lookup_empty in Hk.
  - intros s payload. by intros ?%not_elem_of_nil.
Qed.

(** C1. Throughout a session, whatever the server, the peers, the browser and the
    user do and whichever operations end in exceptions: the tracks on display are
    those associated with a user, each in one place; for every sender that a peer's
    [addTrack] has returned, if there is a worker, the browser was asked for its
    streams (if it can), and what it gave was posted to the worker for encryption
    (the peers made for recordings are given a stream when they are made, and their
    senders never come from [addTrack]); the streams of each sender and receiver
    were obtained only once; the streams this page shares are not among those on
    display; and every notification is found by its own id. *)
Theorem session_safe url p :
  session url p →
  (∀ u sid t, displayed (st_streams (state p)) (world p) u sid t ↔
     associated (tracksByPeerIdMid (st_streams (state p))) u sid t) ∧
  (∀ u sid u' sid' t, displayed (st_streams (state p)) (world p) u sid t →
     displayed (st_streams (state p)) (world p) u' sid' t → u = u' ∧ sid = sid') ∧
  senders_encrypted (world p) ∧ NoDup (obtained (codec (world p))) ∧
  (∀ type x u sw, shared_streams (world p) type = Some x →
     sw ∈ streams_of (st_streams (state p)) u → stream_ref (stream sw) ≠ stream_ref x) ∧
  (∀ k n, st_notifications (state p) !! k = Some n → n_id n = k).
Proof.
  intros (L & [Hap [[Hi _] Hse Hc _ Hsh Hn]] & _)%session_inv. split_and!.
  - apply Hi.
  - intros u sid u' sid' t. rewrite !(inv_display _ _ _ Hi).
    apply (associated_unique _ _ _ _ _ _ _ _ (inv_maps _ _ _ Hi)).
  - by eapply seen_encrypted.
  - apply (ci_obtained _ _ _ Hc).
  - intros type x u sw Hx Hsw Heq. apply (Hap u sw Hsw). rewrite Heq. by apply (Hsh type).
  - intros k n Hk. by apply (Hn k n).
Qed.
End session.

(** * Instances *)

#[local] Existing Instance some_platform.
#[local] Existing Instance some_lodash.
#[local] Existing Instance some_object_keys.
#[local] Existing Instance once_streams.
#[local] Existing Instance ascii_codec.
#[local] Existing Instance some_json.
#[local] Existing Instance demo_window.

(** Alice opens the page and dials; Bob and Carol are there; Bob's camera arrives. *)
Definition demo_events : list PageEvent :=
  [ socket_changes false; user_dials "Alice"; server_message (ev_users (demo_users false));
    peer_event 0 (peer_track demo_track false {| stream_ref := 7; stream_id := "bob-camera" |} "0" 5) ].

Definition demo_page (k : nat) : Page :=
  foldl (λ p ev, (run ev p).2) (opened None "Alice" "url" true) (take k demo_events).

Lemma session_step url p ev : session url p → valid_event p ev → session url (run ev p).2.
Proof. intros Hp Hv. destruct (run ev p) as [r p'] eqn:Hr. by eapply session_goes_on. Qed.

Lemma demo_session : session "url" (demo_page 4).
Proof.
  unfold demo_page. cbn [take demo_events foldl].
  apply session_step.
  - apply session_step; [|exact I]. apply session_step; [|exact I].
    apply session_step; [|exact I]. apply session_opens.
  - intros h Hh. split.
    + intros ti Hti. vm_compute in Hti. discriminate.
    + intros key Hk. vm_compute in Hk. discriminate.
Qed.

Lemma session_safe_witness :
  session "url" (demo_page 4) ∧ senders_encrypted (world (demo_page 4)) ∧
  ∃ u sid, displayed (st_streams (state (demo_page 4))) (world (demo_page 4)) u sid demo_track.
Proof.
  split; [exact demo_session|].
  destruct (session_safe "url" (demo_page 4) demo_session) as (Hd & _ & Hs & _).
  split; [exact Hs|]. exists "bob", "bob-camera". apply Hd.
  eexists "bob::0", _. split_and!; vm_compute; reflexivity.
Defined.
