(* ===== verification/PageRules.v ===== *)
(** Invariants of sessions, given by rules: what every dispatch and every call to the
    outside keeps is kept by every event of the page; the same for what an event
    leaves alone. *)

From S2P Require Import Prelude Bytes TextCodec Encoder Decoder Objects InsertableStreams InsertableCodec Actions World Logic Streams Peers Media Users Notices Async Store PeerActions CallActions Session.

#[local] Abbreviation list := Datatypes.list.

(** * Properties of the world *)

Definition is_send (call : PeerCall) : bool := match call with p_send _ => true | _ => false end.
Definition is_call (e : Effect) : bool := match e with PeerCalled _ _ => true | _ => false end.

(** What a page writes to its socket without being in a call, or wanting to be. *)
Definition parting (msg : SocketMessage) : bool :=
  match msg with sent_ready _ _ _ | sent_record _ => false | _ => true end.

(** What only a call to a peer, or only the user's joining or recording, does. *)
Definition is_outward (e : Effect) : bool :=
  match e with PeerCreated _ _ _ | PeerCalled _ _ | SocketSent _ => true | _ => false end.
Definition is_reserved (e : Effect) : bool :=
  match e with PeerCalled _ _ => true | SocketSent msg => negb (parting msg) | _ => false end.

(** What the reducers do to the world, and what they leave alone: they send nothing
    on a data channel, and nothing to the server. *)
Record world_rules `{Platform} (I : World → Prop) : Prop := {
  wr_same w w' :
    effects w' = effects w → next_peer w' = next_peer w → codec w' = codec w → I w → I w';
  wr_call peer call : is_send call = false → keeps I (call_peer peer call);
  wr_emit e : is_outward e = false → keeps I (World.emit e);
  wr_new_Peer initiator x : keeps I (new_Peer initiator x);
}.

Section reducers.
Context `{Platform} `{Lodash} `{ObjectKeys} `{EncodedStreams}.
Context (I : World → Prop) (HI : world_rules I).
#[local] Abbreviation keep m := (keeps I m).

Lemma wr_modify f :
  (∀ w, effects (f w) = effects w ∧ next_peer (f w) = next_peer w ∧ codec (f w) = codec w) →
  keep (modify f).
Proof using HI. intros Hf. apply keeps_modify. intros w. destruct (Hf w) as (? & ? & ?). by apply (wr_same _ HI). Qed.

#[local] Hint Extern 1 (keeps I (call_peer _ _)) => apply (wr_call I HI); reflexivity : keeps.
#[local] Hint Extern 1 (keeps I (World.emit _)) => apply (wr_emit I HI); reflexivity : keeps.
#[local] Hint Extern 1 (keeps I (new_Peer _ _)) => apply (wr_new_Peer I HI) : keeps.
#[local] Hint Extern 1 (keeps I (modify _)) =>
  apply wr_modify; intros; split_and!; reflexivity : keeps.

Lemma stopStream_world x : keep (stopStream x).
Proof using HI. unfold stopStream, revoke_url, getTracks. repeat keeps_step. Qed.
Lemma recorder_world a b x : keep (initializeMediaRecorder a b x).
Proof using HI. unfold initializeMediaRecorder, need_peerInstance, initializePeer. repeat keeps_step. Qed.
Lemma addTrack_world s p : keep (addTrack s p).
Proof using HI. unfold addTrack, stream_addTrack, new_MediaStream. repeat keeps_step. Qed.
Lemma removeTrack_world s t : keep (removeTrack s t).
Proof using HI. unfold removeTrack, stream_removeTrack, getTracks, revoke_url. repeat keeps_step. Qed.
#[local] Hint Resolve stopStream_world recorder_world addTrack_world removeTrack_world : keeps.

Lemma streams_world s action : keep (streams s action).
Proof using HI.
  destruct action; cbn [streams]; try apply keeps_ret; auto with keeps;
    unfold removeLocalStream, recordLocalStream, stopRecordLocalStream, setMetadata, associate,
      addLocalStream, hangUp, removePeer, unassociateUserTracks, stopRecordAdditionalStream,
      need_peerInstance, new_array, destroy_peerInstance, stopAllTracks, recordAdditionalStream,
      array_push, getTracksOf, getTracks, stream_removeTrack; repeat keeps_step.
Qed.

(** The peers reducer encrypts. *)
Definition encrypts : Prop := ∀ sender, keep (codec_op (Encrypt sender)).

Lemma peers_world ps action : encrypts → keep (peers ps action).
Proof using HI.
  intros He. unfold encrypts in He.
  destruct action; cbn [peers]; try apply keeps_ret;
    unfold handleRemoveLocalStream, handleLocalMediaStream, handleLocalMediaTrack,
      handleLocalMediaTrackEnable, removeTrackFromPeer, getTracksByKind, getTracksOf, getTracks,
      get_local, set_local, stream_removeTrack, stream_addTrack, addTrackToPeer;
    repeat keeps_step.
Qed.

Lemma uniqueId_world prefix : keep (uniqueId prefix).
Proof using HI. unfold uniqueId. repeat keeps_step. Qed.
#[local] Hint Resolve uniqueId_world : keeps.

Lemma notifications_world ns action : keep (notifications ns action).
Proof using HI. unfold notifications, error, notify. repeat keeps_step. Qed.

Lemma reducers_world `{TextCodec} `{!JSON} `{Window} time s action :
  encrypts → keep (reducers time s action).
Proof using HI.
  intros He. pose proof notifications_world. pose proof streams_world.
  pose proof (λ ps action, peers_world ps action He).
  unfold reducers. repeat keeps_step.
Qed.
End reducers.

(** * The rules *)

Section rules.
Context `{Platform} `{Lodash} `{ObjectKeys} `{EncodedStreams} `{TextCodec} `{!JSON} `{Window}.

(** The actions that are dispatched wherever they come from; a message to send goes
    to the encoder, and a peer is only added once it has been made. *)
Definition plain_action (action : Action) : bool :=
  match action with MessageSendAction _ | AddPeerAction _ _ => false | _ => true end.

(** The end of [createPeer]. *)
Definition add_new_peer (user : string) (initiator : bool) (x : option MediaStream) : eff Page unit :=
  peer ← lift (new_Peer initiator x);
  modify (λ p, set_handlers (<[peer := new_handler user]> (handlers p)) p) ≫= λ _,
  dispatch_plain (AddPeerAction user peer).

(** What the page does but for the encoder, the password, the data that arrives, and
    joining a call. *)
Record frame_rules (I : Page → Prop) : Prop := {
  fr_same p p' : state p' = state p → world p' = world p → encoder p' = encoder p →
    worker_events p' = worker_events p → handlers p' = handlers p → I p → I p';
  fr_dispatch action : plain_action action = true → keeps I (dispatch_plain action);
  fr_call peer call : is_send call = false → keeps I (lift (call_peer peer call));
  fr_emit e : is_reserved e = false → keeps I (lift (World.emit e));
  fr_uniqueId prefix : keeps I (lift (uniqueId prefix));
  fr_codec op : (∀ password, op ≠ SetPassword password) → keeps I (lift (codec_op op));
  fr_given tracks : keeps I (run (stream_given tracks));
  fr_take_once peer ev : keeps I (take_once peer ev);
  fr_add_peer user initiator x : keeps I (add_new_peer user initiator x);
}.

(** The events that are made of such. *)
Definition quiet (ev : PageEvent) : bool :=
  match ev with
  | user_sends _ | encoder_due | worker_message | user_sets_password _ | user_dials _
  | peer_event _ (peer_data _) => false
  | user_acts action => plain_action action
  | _ => true
  end.

(** The encoder's part. *)
Definition encodes (ev : PageEvent) : bool :=
  match ev with user_sends _ | encoder_due | worker_message => true | _ => false end.

Record sending_rules (I : Page → Prop) : Prop := {
  sr_encoder e events p : I p → I (set_encoder e events p);
  sr_send peer chunk : keeps I (lift (call_peer peer (p_send chunk)));
}.

(** An invariant of the state and the world that dispatches and calls keep. *)
Record page_rules (I : Page → Prop) : Prop := {
  pr_same p p' : state p' = state p → world p' = world p → I p → I p';
  pr_dispatch action : keeps I (dispatch_plain action);
  pr_call peer call : keeps I (lift (call_peer peer call));
  pr_emit e : keeps I (lift (World.emit e));
  pr_new_Peer initiator x : keeps I (lift (new_Peer initiator x));
  pr_uniqueId prefix : keeps I (lift (uniqueId prefix));
  pr_codec op : (∀ password, op ≠ SetPassword password) → keeps I (lift (codec_op op));
  pr_given tracks : keeps I (run (stream_given tracks));
}.

Lemma page_frame I : page_rules I → frame_rules I.
Proof.
  intros HI. split.
  - intros p p' Hs Hw _ _ _. by apply (pr_same _ HI).
  - intros action _. apply (pr_dispatch _ HI).
  - intros peer call _. apply (pr_call _ HI).
  - intros e _. apply (pr_emit _ HI).
  - apply (pr_uniqueId _ HI).
  - apply (pr_codec _ HI).
  - apply (pr_given _ HI).
  - intros peer ev p r p' Hp Hrun. apply (pr_same _ HI p); [| |done];
      revert Hrun; unfold take_once; repeat case_match; by intros [= <- <-].
  - intros user b x. unfold add_new_peer. apply keeps_bind; [apply (pr_new_Peer _ HI)|]. intros n.
    apply keeps_bind; [|intros _; apply (pr_dispatch _ HI)]. apply keeps_modify.
    intros p. by apply (pr_same _ HI).
Qed.

Section keep.
Context (I : Page → Prop) (HI : frame_rules I).
#[local] Abbreviation keep m := (keeps I m).

Lemma lift_bind {A B} (m : eff World A) (f : A → eff World B) :
  keep (lift m) → (∀ a, keep (lift (f a))) → keep (lift (m ≫= f)).
Proof using Type.
  intros Hm Hf p r p' Hp. unfold lift, mbind, eff_bind.
  destruct (m (world p)) as [[a|e] w] eqn:Hrun.
  - destruct (f a w) as [r1 w1] eqn:Hrun1. intros [= <- <-].
    apply (Hf a (set_world w p) r1).
    + apply (Hm p (Ok a)); [done|]. unfold lift. by rewrite Hrun.
    + unfold lift. cbn [world set_world]. by rewrite Hrun1.
  - intros [= <- <-]. apply (Hm p (Throw e)); [done|]. unfold lift. by rewrite Hrun.
Qed.

(** The page but for its state, its world and what has to do with the encoder. *)
Definition same_frame (p p' : Page) : Prop :=
  state p' = state p ∧ world p' = world p ∧ encoder p' = encoder p ∧
  worker_events p' = worker_events p ∧ handlers p' = handlers p.

Lemma frame_run {A} (m : eff Page A) : (∀ p, same_frame p (m p).2) → keep m.
Proof using HI.
  intros Hm p r p' Hp Hrun. destruct (Hm p) as (? & ? & ? & ? & ?). rewrite Hrun in *.
  by apply (fr_same _ HI p).
Qed.

Lemma keep_modify f : (∀ p, same_frame p (f p)) → keep (modify f).
Proof using HI. intros Hf. by apply frame_run. Qed.

Lemma lift_gets {A} (f : World → A) : keep (lift (gets f)).
Proof using HI. apply frame_run. by intros []. Qed.

Lemma lift_ret {A} (a : A) : keep (lift (mret a)).
Proof using HI. apply frame_run. by intros []. Qed.

Lemma addTrackToPeer_kept peer t x : keep (lift (addTrackToPeer peer t x)).
Proof using HI.
  unfold addTrackToPeer. apply lift_bind; [by apply (fr_call _ HI)|]. intros n.
  apply lift_bind; [by apply (fr_codec _ HI)|]. intros _. apply lift_ret.
Qed.

Lemma notify_kept type args : keep (lift (notify type args)).
Proof using HI.
  unfold notify. apply lift_bind; [apply (fr_uniqueId _ HI)|]. intros id. apply lift_ret.
Qed.

Lemma getTracks_kept x : keep (lift (getTracks x)).
Proof using HI. apply lift_gets. Qed.

#[local] Hint Resolve addTrackToPeer_kept notify_kept getTracks_kept : keeps.
#[local] Hint Extern 1 (keeps I (dispatch_plain _)) => apply (fr_dispatch I HI); reflexivity : keeps.
#[local] Hint Extern 1 (keeps I (lift (call_peer _ _))) => apply (fr_call I HI); reflexivity : keeps.
#[local] Hint Extern 1 (keeps I (lift (World.emit _))) => apply (fr_emit I HI); reflexivity : keeps.
#[local] Hint Extern 1 (keeps I (lift (codec_op _))) => apply (fr_codec I HI); discriminate : keeps.
#[local] Hint Extern 1 (keeps I (take_once _ _)) => apply (fr_take_once I HI) : keeps.
#[local] Hint Extern 1 (keeps I (modify _)) =>
  apply keep_modify; intros; split_and!; reflexivity : keeps.

Lemma dispatch_notify_kept type args : keep (dispatch_notify (notify type) args).
Proof using HI.
  unfold dispatch_notify. apply (ensures_keeps _ true_of), (ensures_bind _ (λ a, plain_action a = true)).
  - intros p r p' Hp Hrun. split; [by eapply notify_kept|]. intros a ->. by injection Hrun as <- _.
  - intros a Ha. by apply keeps_ensures, (fr_dispatch _ HI).
Qed.

Lemma with_promises_kept f : keep (with_promises f).
Proof using HI. by apply keep_modify. Qed.

Lemma socket_emit_kept m :
  keep (lift (World.emit (SocketSent m))) → keep (socket_emit m).
Proof using HI. intros Hm. unfold socket_emit. repeat keeps_step. Qed.
Lemma parting_emit_kept m : parting m = true → keep (socket_emit m).
Proof using HI. intros Hm. apply socket_emit_kept, (fr_emit _ HI). cbn. by rewrite Hm. Qed.

Lemma new_promise_kept : keep new_promise.
Proof using HI. by apply frame_run. Qed.

Lemma dispatch_async_kept type a : keep (dispatch_plain (async_action type a)).
Proof using HI. apply (fr_dispatch _ HI). by destruct type. Qed.

Lemma dispatch_pending_kept pa : keep (dispatch (promised pa)).
Proof using HI. apply dispatch_async_kept. Qed.

#[local] Hint Extern 1 (keeps I (socket_emit _)) => apply parting_emit_kept; reflexivity : keeps.
#[local] Hint Resolve dispatch_notify_kept with_promises_kept
  new_promise_kept dispatch_async_kept dispatch_pending_kept : keeps.

(** What a peer is given over its data channel depends on its decoder. *)
Lemma data_kept peer b : keep (decode_buffer peer b) → keep (on_peer_event peer (peer_data b)).
Proof using HI. intros Hd. unfold on_peer_event, handleData. repeat keeps_step. Qed.

Lemma peer_event_kept peer ev : quiet (peer_event peer ev) = true → keep (on_peer_event peer ev).
Proof using HI.
  intros Hq. unfold on_peer_event, handleError, handleConnect, handleClose, handleSignal, handleTrack, peer_of.
  destruct ev; try done; repeat keeps_step.
Qed.

Lemma createPeer_kept u b x : keep (createPeer u b x).
Proof using HI.
  unfold createPeer, peer_of. apply keeps_bind; [apply dispatch_notify_kept|intros _].
  apply keeps_bind; [apply keeps_gets|intros old].
  apply keeps_bind; [repeat keeps_step|intros _]. apply (fr_add_peer _ HI).
Qed.

Lemma removeEventListeners_kept : keep removeEventListeners.
Proof using HI. unfold removeEventListeners, removeAllListeners. repeat keeps_step. Qed.

#[local] Hint Resolve createPeer_kept removeEventListeners_kept : keeps.

Lemma dial_kept nickname :
  keep (lift (World.emit (SocketSent (sent_ready callId nickname nickname)))) → keep (dial nickname).
Proof using HI.
  intros Hm. pose proof (socket_emit_kept _ Hm). unfold dial, handshake, add_listener, settle. repeat keeps_step.
Qed.

Lemma call_listener_kept l ev : keep (call_listener l ev).
Proof using HI.
  unfold call_listener, handleMetadata, handleRemoteSignal, handleUsers_null, handleUsers, handleRecordCallback,
    handleHangUp, handleSetStreamUrl, on_connect, on_disconnect, settle, peer_of.
  repeat keeps_step.
Qed.

(** The events that neither encode nor decode. *)
Lemma quiet_kept ev : quiet ev = true → keep (run ev).
Proof using HI.
  intros Hq. pose proof call_listener_kept as Hl.
  pose proof (fr_given _ HI) as Hgiven.
  destruct ev; try done; cbn [run]; auto with keeps;
    unfold emit_event, on_track_event, run_reaction, on_settled, dial_timeout, settle, hangUp_call;
    try (by apply peer_event_kept); try (by apply (fr_dispatch _ HI)); repeat keeps_step.
Qed.

(** Those that encode. *)
Lemma sending_kept ev :
  sending_rules I → encodes ev = true → keep (run ev).
Proof using HI.
  intros HS Hev.
  assert (∀ f, (∀ p, ∃ e events, f p = set_encoder e events p) → keep (modify f)) as Hset.
  { intros f Hf. apply keeps_modify. intros p Hp. destruct (Hf p) as (e & events & ->).
    by apply (sr_encoder _ HS). }
  pose proof (sr_send _ HS) as Hsend. destruct ev; try done; cbn [run].
  - apply Hset. intros p. destruct (scheduled (encoder p)); [|by eexists _, _].
    exists (encoder p), (worker_events p). by destruct p.
  - unfold run_worker_event, send_chunk. apply keeps_bind; [apply keeps_gets|]. intros es.
    destruct es as [|e es]; [apply keeps_ret|].
    apply keeps_bind; [apply Hset; intros p; by eexists _, _|intros _]. repeat keeps_step.
  - unfold dispatch_plain, messaging. apply keeps_bind; [apply Hset; intros p; by eexists _, _|intros _].
    by apply (fr_dispatch _ HI (MessageAddAction _)).
Qed.
End keep.

(** What the rules say of each event, but for a password. *)
Lemma event_kept I (HI : page_rules I) ev :
  (∀ password, ev ≠ user_sets_password password) → keeps I (run ev).
Proof.
  intros Hpw. pose proof (page_frame I HI) as HF.
  destruct (quiet ev) eqn:Hq; [by apply quiet_kept|].
  assert (sending_rules I) as HS.
  { split; [|intros; apply (pr_call _ HI)]. intros e events p. by apply (pr_same _ HI). }
  destruct ev as [|x|peer []| | | | | | | | | | | | |m|action|pw]; try done; try (by apply sending_kept).
  - apply data_kept; [done|]. intros p r p' Hp Hrun. apply (pr_same _ HI p); [| |done];
      revert Hrun; unfold decode_buffer; repeat case_match; by intros [= <- <-].
  - apply dial_kept, (pr_emit _ HI). done.
  - apply (pr_dispatch _ HI).
  - by destruct (Hpw pw).
Qed.

(** ** Two kinds of invariants *)

(** Of one part of the state: what the reducers keep. *)
Lemma state_rules (I : State → Prop) :
  (∀ time s action w s' w', I s → reducers time s action w = (Ok s', w') → I s') →
  page_rules (λ p, I (state p)).
Proof.
  intros HI.
  assert (∀ A (m : eff World A), keeps (λ p, I (state p)) (lift m)) as Hl.
  { intros A m p r p' Hp. unfold lift. by destruct (m (world p)); intros [= <- <-]. }
  assert (∀ a, keeps (λ p, I (state p)) (store_reduce a)) as Hs.
  { intros a p r p' Hp. unfold store_reduce, lift, mbind, eff_bind, gets, modify.
    destruct (reducers (now p) (state p) a (world p)) as [[s'|e] w'] eqn:Hrun; intros [= <- <-]; [|done].
    by eapply HI. }
  split; try (intros; apply Hl).
  - by intros p p' -> _.
  - intros a. unfold dispatch_plain, messaging. destruct a; try apply Hs.
    apply keeps_bind; [by apply keeps_modify|]. intros _. apply Hs.
Qed.

(** Of the world: what the reducers keep, and what else a page does to it. *)
Lemma lift_world (I : World → Prop) {A} (m : eff World A) :
  keeps I m → keeps (λ p, I (world p)) (lift m).
Proof.
  intros Hm p r p' Hp. unfold lift. destruct (m (world p)) as [r1 w1] eqn:Hrun.
  intros [= <- <-]. by eapply Hm.
Qed.

Lemma dispatch_world (I : World → Prop) action :
  world_rules I → encrypts I → keeps (λ p, I (world p)) (dispatch_plain action).
Proof.
  intros HI He.
  assert (∀ a, keeps (λ p, I (world p)) (store_reduce a)) as Hs.
  { intros a. unfold store_reduce. apply keeps_bind; [apply keeps_gets|]. intros s.
    apply keeps_bind; [apply keeps_gets|]. intros time.
    apply keeps_bind; [apply lift_world; by eapply reducers_world|intros s'; by apply keeps_modify]. }
  unfold dispatch_plain, messaging. destruct action; try apply Hs.
  apply keeps_bind; [by apply keeps_modify|]. intros _. apply Hs.
Qed.

Lemma world_page_rules (I : World → Prop) :
  world_rules I → (∀ peer call, keeps I (call_peer peer call)) → (∀ e, keeps I (World.emit e)) →
  (∀ op, (∀ password, op ≠ SetPassword password) → keeps I (codec_op op)) →
  (∀ w n f, I w → I (set_next_stream n (set_stream_tracks f w))) →
  page_rules (λ p, I (world p)).
Proof.
  intros HI Hcall Hemit Hop Hgiven. split.
  - by intros p p' _ ->.
  - intros a. apply dispatch_world; [done|]. intros sender. by apply Hop.
  - intros peer call. by apply lift_world.
  - intros e. by apply lift_world.
  - intros b x. apply lift_world, (wr_new_Peer _ HI).
  - intros prefix. by apply lift_world, uniqueId_world.
  - intros op Hpw. by apply lift_world, Hop.
  - intros tracks. apply lift_world, keeps_modify. intros w. apply Hgiven.
Qed.

(** The same for what a page does to it while it does not join a call. *)
Lemma world_frame_rules (I : World → Prop) :
  world_rules I → (∀ e, is_reserved e = false → keeps I (World.emit e)) →
  (∀ op, keeps I (codec_op op)) →
  (∀ w n f, I w → I (set_next_stream n (set_stream_tracks f w))) →
  frame_rules (λ p, I (world p)).
Proof.
  intros HI Hemit Hop Hgiven.
  assert (∀ a, keeps (λ p, I (world p)) (dispatch_plain a)) as Hd
    by (intros a; apply dispatch_world; [done|intros sender; apply Hop]).
  split.
  - by intros p p' _ ->.
  - intros a _. apply Hd.
  - intros peer call Hc. by apply lift_world, (wr_call _ HI).
  - intros e He. by apply lift_world, Hemit.
  - intros prefix. by apply lift_world, uniqueId_world.
  - intros op _. by apply lift_world, Hop.
  - intros tracks. apply lift_world, keeps_modify. intros w. apply Hgiven.
  - intros peer ev p r p' Hp. unfold take_once. repeat case_match; by intros [= <- <-].
  - intros user b x. unfold add_new_peer. apply keeps_bind; [apply lift_world, (wr_new_Peer _ HI)|].
    intros n. apply keeps_bind; [by apply keeps_modify|intros _; apply Hd].
Qed.

(** Of the encryption codec: the reducers only use it to encrypt; and what its
    operations keep, but for a password. *)
Lemma codec_world (P : InsertableStreamsCodec → Prop) : world_rules (λ w, P (codec w)).
Proof.
  split.
  - by intros w w' _ _ ->.
  - by intros peer call _ w r w' Hw [= <- <-].
  - by intros e _ w r w' Hw [= <- <-].
  - intros b x w r w' Hw [= <- <-]. exact Hw.
Qed.

Lemma codec_rules (P : InsertableStreamsCodec → Prop) :
  (∀ op c, (∀ password, op ≠ SetPassword password) → P c → P (codec_call op c).2) →
  page_rules (λ p, P (codec (world p))).
Proof.
  intros HP. apply (world_page_rules (λ w, P (codec w))); [apply codec_world|..].
  - by intros peer call w r w' Hw [= <- <-].
  - by intros e w r w' Hw [= <- <-].
  - intros op Hpw w r w' Hw. unfold codec_op. pose proof (HP op _ Hpw Hw).
    destruct (codec_call op (codec w)) as [b c]. by intros [= <- <-].
  - done.
Qed.

(** An invariant of one part of the state, which its reducer keeps whatever the
    action is, holds throughout a session. *)
Lemma session_part (I : State → Prop) url p :
  (∀ stored nickname, I (initial_state stored nickname)) →
  (∀ time s action w s' w', I s → reducers time s action w = (Ok s', w') → I s') →
  session url p → I (state p).
Proof.
  intros Hinit Hred. induction 1 as [stored nickname ok|p ev r p' _ IH _ Hrun].
  - apply Hinit.
  - assert ((∃ pw, ev = user_sets_password pw) ∨ ∀ pw, ev ≠ user_sets_password pw) as [[pw ->]|Hev]
      by (destruct ev; eauto; right; discriminate).
    + revert Hrun. cbn [run]. unfold lift, codec_op, mbind, eff_bind.
      destruct (codec_call _ _) as [b c]. by intros [= <- <-].
    + by eapply (event_kept _ (state_rules I Hred) ev).
Qed.
End rules.

(** * Effects are only added *)

Definition grows (es : list Effect) (w : World) : Prop := es `prefix_of` effects w.

Section page.
Context `{Platform} `{Lodash} `{ObjectKeys} `{EncodedStreams} `{TextCodec} `{!JSON} `{Window}.

Lemma grows_rules es : page_rules (λ p, grows es (world p)).
Proof.
  assert (∀ w e, grows es w → grows es (set_effects (λ es, es ++ [e]) w)) as Hmore
    by (intros w e Hw; by apply prefix_app_r).
  assert (∀ peer call, keeps (grows es) (call_peer peer call)) as Hcall
    by (intros peer call w r w' Hw [= <- <-]; by apply Hmore).
  assert (∀ e, keeps (grows es) (World.emit e)) as Hemit
    by (intros e w r w' Hw [= <- <-]; by apply Hmore).
  assert (∀ op, keeps (grows es) (codec_op op)) as Hop.
  { intros op w r w' Hw. unfold codec_op. destruct (codec_call op (codec w)). by intros [= <- <-]. }
  apply world_page_rules; [split|..]; try done.
  - intros w w' He _ _. unfold grows. by rewrite He.
  - intros b x w r w' Hw [= <- <-]. by apply (Hmore (set_next_peer _ w)).
Qed.

(** A page never takes back what it has done. *)
Lemma run_grows ev p : effects (world p) `prefix_of` effects (world (run ev p).2).
Proof.
  destruct (run ev p) as [r p'] eqn:Hrun. cbn [snd].
  assert ((∃ pw, ev = user_sets_password pw) ∨ ∀ pw, ev ≠ user_sets_password pw) as [[pw ->]|Hev]
    by (destruct ev; eauto; right; discriminate).
  - revert Hrun. cbn [run]. unfold lift, codec_op, mbind, eff_bind.
    destruct (codec_call _ _) as [b c]. intros [= _ <-]. cbn. reflexivity.
  - apply (event_kept _ (grows_rules (effects (world p))) ev Hev p r p'); [|done].
    unfold grows. reflexivity.
Qed.
End page.
