(* ===== verification/Promises.v ===== *)
(** The promises of a page: in every session a promise that is settled, waited for or
    about to time out is one that has been made, so that a new one is fresh. *)

From S2P Require Import Prelude Bytes TextCodec Encoder Decoder Objects InsertableStreams InsertableCodec Actions World Logic Streams Peers Media Users Notices Async Store PeerActions CallActions Chat CallSafety Session.

#[local] Abbreviation list := Datatypes.list.

Section promises.
Context `{Platform} `{Lodash} `{ObjectKeys} `{EncodedStreams} `{TextCodec} `{!JSON} `{Window}.

Record promises_made (p : Page) : Prop := {
  pm_settled n : n ∈ settled (promises p) → n < next_promise (promises p);
  pm_timeouts n : n ∈ dial_timeouts (promises p) → n < next_promise (promises p);
  pm_listeners r n : r ∈ listeners p → r_listener r = resolve_dial n →
    n < next_promise (promises p);
}.

#[local] Abbreviation keep m := (keeps promises_made m).

(** ** What does not touch them *)

Lemma made_frame p p' :
  promises p' = promises p → listeners p' = listeners p → promises_made p → promises_made p'.
Proof. intros Hp Hl [Hs Ht Hls]. split; rewrite ?Hp, ?Hl; done. Qed.

Lemma keep_frame {A} (m : eff Page A) :
  (∀ p, promises (m p).2 = promises p ∧ listeners (m p).2 = listeners p) → keep m.
Proof.
  intros Hm p r p' Hp Hrun. destruct (Hm p) as [Hps Hl]. rewrite Hrun in Hps, Hl.
  by apply (made_frame p).
Qed.

Lemma lift_made {A} (m : eff World A) : keep (lift m).
Proof. apply keep_frame. intros p. unfold lift. by destruct (m (world p)). Qed.

Lemma dispatch_made action : keep (dispatch_plain action).
Proof.
  apply keep_frame. intros p. destruct (dispatch_plain action p) as [r p'] eqn:Hrun.
  by apply dispatch_frame in Hrun as (_ & ? & _ & ?).
Qed.

Lemma modify_made f :
  (∀ p, promises (f p) = promises p ∧ listeners (f p) = listeners p) → keep (modify f).
Proof. intros Hf. by apply keep_frame. Qed.

#[local] Hint Resolve lift_made dispatch_made : keeps.
#[local] Hint Extern 1 (keeps promises_made (modify _)) =>
  apply modify_made; intros; split; reflexivity : keeps.

Lemma pending_made pa : keep (dispatch (promised pa)).
Proof. apply dispatch_made. Qed.
Lemma notify_made creator args : keep (dispatch_notify creator args).
Proof. unfold dispatch_notify. repeat keeps_step. Qed.
Lemma socket_emit_made m : keep (socket_emit m).
Proof. unfold socket_emit. repeat keeps_step. Qed.
Lemma decode_buffer_made peer b : keep (decode_buffer peer b).
Proof. apply keep_frame. intros p. unfold decode_buffer. by repeat case_match. Qed.
Lemma take_once_made peer ev : keep (take_once peer ev).
Proof. apply keep_frame. intros p. unfold take_once. by repeat case_match. Qed.
#[local] Hint Resolve pending_made notify_made socket_emit_made decode_buffer_made take_once_made : keeps.

Lemma peer_event_made peer ev : keep (on_peer_event peer ev).
Proof.
  unfold on_peer_event, handleError, handleConnect, handleClose, handleSignal, handleData,
    handleTrack, peer_of.
  destruct ev; repeat keeps_step.
Qed.

Lemma createPeer_made u b x : keep (createPeer u b x).
Proof. unfold createPeer, peer_of. repeat keeps_step. Qed.
#[local] Hint Resolve createPeer_made : keeps.

(** ** What does *)

(** The listeners of a promise that is made; none else matter. *)
Definition listens_to (p : Page) (l : Listener) : Prop :=
  ∀ n, l = resolve_dial n → n < next_promise (promises p).

Lemma set_listeners_made l p :
  promises_made p → (∀ r, r ∈ l → listens_to p (r_listener r)) → promises_made (set_listeners l p).
Proof. intros [Hs Ht _] Hl. split; [done|done|]. intros r n Hr Hn. by eapply (Hl r). Qed.

Lemma filter_listeners_made (P : Registration → Prop) `{!∀ r, Decision (P r)} :
  keep (modify (λ p, set_listeners (filter P (listeners p)) p)).
Proof.
  apply keeps_modify. intros p Hp. apply set_listeners_made; [done|].
  intros r [_ Hr]%list_elem_of_filter n. by apply (pm_listeners _ Hp).
Qed.

Lemma add_listener_made once event l :
  (∀ n, l ≠ resolve_dial n) → keep (add_listener once event l).
Proof.
  intros Hl. apply keeps_modify. intros p Hp. apply set_listeners_made; [done|].
  intros r [Hr| ->%list_elem_of_singleton]%elem_of_app n Hn; [by apply (pm_listeners _ Hp r)|].
  by destruct (Hl n).
Qed.

(** Settling a promise that was made. *)
Lemma settle_made n s p :
  promises_made p → n < next_promise (promises p) → promises_made (settle n s p).2.
Proof.
  intros Hp Hn. pose proof Hp as [Hs Ht Hls]. unfold settle, with_promises, modify. simpl.
  case_decide; [by split|]. split; [|done|done]. simpl. intros m. set_unfold. intros [->|Hm]; auto.
Qed.

Lemma removeEventListeners_made : keep removeEventListeners.
Proof.
  unfold removeEventListeners, removeAllListeners.
  repeat (apply keeps_bind; [apply filter_listeners_made|intros _]). apply filter_listeners_made.
Qed.

Lemma handshake_made room nickname x : keep (handshake room nickname x).
Proof.
  unfold handshake. apply keeps_bind; [apply removeEventListeners_made|intros _].
  do 6 (apply keeps_bind; [by apply add_listener_made|intros _]). auto with keeps.
Qed.

(** [dial]'s promise is new. *)
Lemma dial_made nickname p : promises_made p → promises_made (dial nickname p).2.
Proof.
  intros Hp. rewrite dial_run. cbn [snd].
  assert (promises_made (dial_listening nickname p) ∧
    next_promise (promises p) < next_promise (promises (dial_listening nickname p))) as [Hq Hn].
  { destruct Hp as [Hs Ht Hl]. split; [|simpl; lia]. split; simpl.
    - intros n Hn. specialize (Hs n Hn). lia.
    - intros n Hn. specialize (Ht n Hn). lia.
    - intros r n [[_ Hr]%list_elem_of_filter|Hr]%elem_of_app Hrn; [specialize (Hl r n Hr Hrn); lia|].
      repeat (apply elem_of_cons in Hr as [->|Hr]; [discriminate|]). by apply not_elem_of_nil in Hr. }
  destruct (connecting p).
  - eapply made_frame; [..|exact (settle_made _
      (dial_settled (inr (thrown (Error "InvalidStateError")))) _ Hq Hn)]; done.
  - destruct Hq as [Hs Ht Hl]. split; [exact Hs| |].
    + intros n [Hin| ->%list_elem_of_singleton]%elem_of_app; [by apply Ht|exact Hn].
    + intros r n [Hr| ->%list_elem_of_singleton]%elem_of_app; [by apply Hl|].
      intros [= <-]. exact Hn.
Qed.

Lemma call_listener_made l ev p :
  promises_made p → listens_to p l → promises_made (call_listener l ev p).2.
Proof.
  intros Hp Hl. destruct (call_listener l ev p) as [r p'] eqn:Hrun. cbn [snd].
  assert (keep (match l with resolve_dial _ => mret tt | _ => call_listener l ev end)) as Hk.
  { destruct l; try apply keeps_ret; unfold call_listener, handleMetadata, handleRemoteSignal,
      handleUsers_null, handleUsers, handleRecordCallback, handleHangUp, handleSetStreamUrl, on_connect,
      on_disconnect, peer_of; repeat keeps_step. }
  destruct l as [| | | | | |n| | |]; try (by eapply Hk).
  destruct ev; cbn [call_listener] in Hrun; try (by injection Hrun as <- <-).
  all: pose proof (settle_made n (dial_settled (inl tt)) p Hp (Hl n eq_refl)) as Hs;
    by rewrite Hrun in Hs.
Qed.

(** Nothing unmakes a promise, so listeners stay good. *)
Definition later_promises (p p' : Page) : Prop :=
  next_promise (promises p) <= next_promise (promises p').

Lemma call_listener_later l ev p : later_promises p (call_listener l ev p).2.
Proof.
  destruct (call_listener l ev p) as [r p'] eqn:Hrun. unfold later_promises. cbn [snd].
  assert (∀ k, keeps (λ p, k <= next_promise (promises p)) (call_listener l ev)) as Hk;
    [|by eapply (Hk (next_promise (promises p)))].
  intros k. set (I := λ p : Page, k <= next_promise (promises p)).
  assert (∀ A (m : eff Page A), (∀ p, promises (m p).2 = promises p) → keeps I m) as Hf.
  { intros A m Hm q r' q' Hq Hr. unfold I. pose proof (Hm q) as Hq'. rewrite Hr in Hq'.
    cbn [snd] in Hq'. by rewrite Hq'. }
  assert (∀ A (m : eff World A), keeps I (lift m)) as Hlift.
  { intros A m. apply Hf. intros q. unfold lift. by destruct (m (world q)). }
  assert (∀ a, keeps I (dispatch_plain a)) as Hd.
  { intros a. apply Hf. intros q. destruct (dispatch_plain a q) as [r' q'] eqn:Hr.
    by apply dispatch_frame in Hr as (_ & _ & _ & ?). }
  assert (∀ f, (∀ q, promises (f q) = promises q) → keeps I (modify f)) as Hm
    by (intros f Hq; by apply Hf).
  assert (∀ n s, keeps I (settle n s)) as Hs.
  { intros n s. unfold settle, with_promises. apply keeps_modify. intros q Hq. unfold I in *. simpl.
    by case_decide. }
  destruct l, ev; unfold call_listener, handleMetadata, handleRemoteSignal, handleUsers_null, handleUsers,
    handleRecordCallback, handleHangUp, handleSetStreamUrl, on_connect, on_disconnect, peer_of,
    createPeer, dispatch_notify, socket_emit;
    repeat first [apply Hlift|apply Hd|apply Hs|by apply Hm|keeps_step].
Qed.

Lemma emit_event_made ev p : promises_made p → promises_made (emit_event ev p).2.
Proof.
  intros Hp. unfold emit_event. set (ls := filter (λ r, r_event r = event_name ev) (listeners p)).
  rewrite (bind_runs _ _ p ls p) by done.
  assert (∀ r, r ∈ ls → listens_to p (r_listener r)) as Hls.
  { intros r [_ Hr]%list_elem_of_filter n. by apply (pm_listeners _ Hp). }
  clearbody ls. revert p Hp Hls. induction ls as [|r ls IH]; intros p Hp Hls; [done|].
  cbn [for_each]. set (q := if r_once r then set_listeners (filter (λ r', r' ≠ r) (listeners p)) p else p).
  assert (promises_made q ∧ promises q = promises p) as [Hq Hqp].
  { unfold q. destruct (r_once r); [|done]. split; [|done].
    by eapply (filter_listeners_made (λ r', r' ≠ r)). }
  match goal with |- promises_made ((?m ≫= _) p).2 =>
    assert (m p = call_listener (r_listener r) ev q) as Hm end.
  { unfold q. by destruct (r_once r). }
  unfold mbind at 1, eff_bind at 1. rewrite Hm.
  assert (listens_to q (r_listener r)) as Hlr.
  { intros n Hn. rewrite Hqp. by eapply Hls; [left|]. }
  pose proof (call_listener_made (r_listener r) ev q Hq Hlr) as Hmade.
  pose proof (call_listener_later (r_listener r) ev q) as Hlater.
  destruct (call_listener (r_listener r) ev q) as [[[]|e] p1]; [|done]. apply IH; [done|].
  intros r' Hr' n Hn. unfold later_promises in Hlater. rewrite Hqp in Hlater. simpl in Hlater.
  eapply Nat.lt_le_trans; [|exact Hlater]. eapply Hls; [|done]. by right.
Qed.

(** ** Sessions *)

Lemma reactions_made f :
  keep (with_promises (λ ps, {| next_promise := next_promise ps; settled := settled ps;
    dial_timeouts := dial_timeouts ps; reactions := f ps |})).
Proof. apply keeps_modify. by intros p [Hs Ht Hl]. Qed.

Lemma run_made p ev : promises_made p → valid_event p ev → promises_made (run ev p).2.
Proof.
  intros Hp Hv. assert (keep (run ev) → promises_made (run ev p).2) as Hk.
  { intros Hk. destruct (run ev p) as [r p'] eqn:Hrun. by eapply Hk. }
  pose proof peer_event_made as Hpeer.
  destruct ev; cbn [run] in *; try (apply Hk; by repeat keeps_step).
  - by apply emit_event_made.
  - apply Hk. unfold run_reaction, on_settled. apply keeps_bind; [apply keeps_gets|]. intros ps.
    destruct (reactions ps) as [|s rest]; [apply keeps_ret|].
    apply keeps_bind; [apply (reactions_made (λ _, rest))|]. intros _. repeat keeps_step.
  - apply Hk, modify_made. intros q. by destruct (scheduled (encoder q)).
  - destruct Hp as [Hs Ht Hl]. pose proof (Ht _ Hv) as Hn.
    unfold dial_timeout, with_promises. erewrite bind_runs; [|reflexivity].
    apply settle_made; [|exact Hn]. split; [exact Hs| |exact Hl].
    intros m [_ Hm]%list_elem_of_filter. by apply Ht.
  - apply Hk, (reactions_made (λ ps, reactions ps ++ [s])).
  - by apply dial_made.
  - apply Hk. unfold hangUp_call. apply keeps_bind; [auto with keeps|intros _].
    apply keeps_bind; [apply removeEventListeners_made|intros _]. auto with keeps.
Qed.

Lemma session_promises url p : session url p → promises_made p.
Proof.
  induction 1 as [stored nickname ok|p ev r p' _ IH Hv Hrun].
  - split; [by intros n ?%not_elem_of_empty|by intros n ?%not_elem_of_nil|].
    intros r n Hr Hn. simpl in Hr. repeat (apply elem_of_cons in Hr as [->|Hr]; [discriminate|]).
    by apply not_elem_of_nil in Hr.
  - pose proof (run_made p ev IH Hv) as Hm. by rewrite Hrun in Hm.
Qed.

(** A new promise has not been settled. *)
Lemma session_fresh url p n :
  session url p → next_promise (promises p) <= n → n ∉ settled (promises p).
Proof. intros Hs%session_promises Hn Hin. pose proof (pm_settled _ Hs n Hin). lia. Qed.
End promises.
