(* ===== verification/Capture.v ===== *)
(** Media capture ([src/client/actions/MediaActions.ts]): the creators of the
    asynchronous media actions.  Their functions are [async]: each waits for the
    browser, which may take its time, refuse, or answer with anything; so they are
    trees of what they do and what they wait for. *)

From S2P Require Import Prelude Objects InsertableStreams InsertableCodec Actions World Users Notices Async Store.

#[local] Abbreviation list := Datatypes.list.

(** * Asynchronous functions *)

(** The ways of asking for a media stream that browsers have had. *)
Inductive UserMediaApi := via_mediaDevices | via_getUserMedia | via_webkit | via_moz.

(** An entry of the browser's [enumerateDevices()]. *)
Record MediaDeviceInfo := {
  info_deviceId : string;
  info_kind : string;
  info_label : string;
}.

(** What is waited for: [getUserMedia({ audio, video })], [getDisplayMedia],
    [enumerateDevices], and [Promise.all] of [play()] on some video elements. *)
Inductive Request :=
  | UserMedia (api : UserMediaApi) (audio video : Constraint)
  | DisplayMedia
  | EnumerateDevices
  | PlayVideos (videos : list nat).

Definition answer (r : Request) : Type :=
  match r with
  | UserMedia _ _ _ | DisplayMedia => MediaStream
  | EnumerateDevices => list MediaDeviceInfo
  | PlayVideos _ => unit
  end.

(** The body of an [async] function: it has ended, with a value or with an error;
    it does something at once; or it awaits the answer to a request. *)
Inductive task (A : Type) :=
  | ended (o : A + JSError)
  | act {B : Type} (m : eff World B) (k : result B → task A)
  | await (r : Request) (k : answer r + JSError → task A).
Arguments ended {A} o.
Arguments act {A B} m k.
Arguments await {A} r k.

(** Going on when it has ended, either way. *)
Fixpoint and_then {A B} (t : task A) (f : A + JSError → task B) : task B :=
  match t with
  | ended o => f o
  | act m k => act m (λ r, and_then (k r) f)
  | await r k => await r (λ a, and_then (k a) f)
  end.

#[export] Instance task_ret : MRet task := λ A a, ended (inl a).
#[export] Instance task_bind : MBind task := λ A B f t,
  and_then t (λ o, match o with inl a => f a | inr e => ended (inr e) end).

(** [try { t } catch (err) { h(err) }] *)
Definition try_catch {A} (t : task A) (h : JSError → task A) : task A :=
  and_then t (λ o, match o with inl a => ended (inl a) | inr e => h e end).

(** [try { t } finally { c }]: an error of [c] takes the place of the outcome. *)
Definition try_finally {A} (t : task A) (c : task unit) : task A :=
  and_then t (λ o, and_then c (λ o', match o' with inl _ => ended o | inr e => ended (inr e) end)).

Definition request (r : Request) : task (answer r) := await r ended.

(** ** Their runs *)

Section runs.
(** What the browser may answer to a request made in a world, and the world there
    is then: the rest of the page goes on in the meantime. *)
Context (answers : ∀ r, World → answer r + JSError → World → Prop).

Fixpoint settles {A} (t : task A) (w : World) (o : A + JSError) (w' : World) : Prop :=
  match t with
  | ended o' => o = o' ∧ w' = w
  | act m k => let '(r, w1) := m w in settles (k r) w1 o w'
  | await r k => ∃ a w1, answers r w a w1 ∧ settles (k a) w1 o w'
  end.

Lemma settles_and_then {A B} (t : task A) (f : A + JSError → task B) w o w' :
  settles (and_then t f) w o w' ↔ ∃ o1 w1, settles t w o1 w1 ∧ settles (f o1) w1 o w'.
Proof.
  revert w. induction t as [o1|C m k IH|r k IH]; intros w; cbn [and_then settles].
  - split; [by intros Hf; exists o1, w|by intros (? & ? & [-> ->] & Hf)].
  - destruct (m w) as [r w1]. apply IH.
  - split.
    + intros (a & w1 & Ha & (o1 & w2 & Ht & Hf)%IH). exists o1, w2. split; [by exists a, w1|done].
    + intros (o1 & w2 & (a & w1 & Ha & Ht) & Hf). exists a, w1. split; [done|].
      apply IH. by exists o1, w2.
Qed.

Lemma settles_bind {A B} (t : task A) (f : A → task B) w o w' :
  settles (t ≫= f) w o w' ↔
  (∃ a w1, settles t w (inl a) w1 ∧ settles (f a) w1 o w') ∨
  (∃ e, o = inr e ∧ settles t w (inr e) w').
Proof.
  unfold mbind, task_bind. rewrite settles_and_then. split.
  - intros ([a|e] & w1 & Ht & Hf); [left; by exists a, w1|right].
    destruct Hf as [-> ->]. by exists e.
  - intros [(a & w1 & Ht & Hf)|(e & -> & Ht)].
    + by exists (inl a), w1.
    + by exists (inr e), w'.
Qed.

Lemma settles_try_finally {A} (t : task A) (c : task unit) w o w' :
  settles (try_finally t c) w o w' ↔
  ∃ o1 w1 o2, settles t w o1 w1 ∧ settles c w1 o2 w' ∧
    o = match o2 with inl _ => o1 | inr e => inr e end.
Proof.
  unfold try_finally. rewrite settles_and_then. split.
  - intros (o1 & w1 & Ht & (o2 & w2 & Hc & Ho)%settles_and_then). exists o1, w1, o2.
    destruct o2; by destruct Ho as [-> ->].
  - intros (o1 & w1 & o2 & Ht & Hc & ->). exists o1, w1. split; [done|].
    apply settles_and_then. exists o2, w'. by destruct o2.
Qed.

Lemma settles_request r w o w' : settles (request r) w o w' ↔ answers r w o w'.
Proof.
  cbn. split; [by intros (a & w1 & Ha & -> & ->)|by intros Ha; exists o, w'].
Qed.

(** A function all of whose requests are answered comes to its end. *)
Lemma settles_total {A} (t : task A) :
  (∀ r w, ∃ a w', answers r w a w') → ∀ w, ∃ o w', settles t w o w'.
Proof.
  intros Ha. induction t as [o|B m k IH|r k IH]; intros w; cbn.
  - by exists o, w.
  - destruct (m w) as [r w1]. apply IH.
  - destruct (Ha r w) as (a & w1 & Hr). destruct (IH a w1) as (o & w' & Ht).
    exists o, w', a, w1. done.
Qed.
End runs.

(** * The browser's interfaces *)

(** Which of them there are: [navigator.mediaDevices], its functions, and the older
    functions of [navigator]. *)
Record Navigator := {
  mediaDevices : bool;
  mediaDevices_getUserMedia : bool;
  mediaDevices_getDisplayMedia : bool;
  mediaDevices_enumerateDevices : bool;
  navigator_getUserMedia : bool;
  webkitGetUserMedia : bool;
  mozGetUserMedia : bool;
}.

Record GetMediaTrackParams := {
  params_kind : MediaKind;
  params_constraint : Constraint;
}.

Record GetMediaConstraints := {
  gm_video : Constraint;
  gm_audio : Constraint;
}.

(** A constraint is falsy only as [false]. *)
Definition truthy (c : Constraint) : bool := bool_decide (c ≠ flag_constraint false).

(** [setVideoConstraint], [setAudioConstraint], [enableMediaTrack] *)
Definition setVideoConstraint (payload : VideoConstraint) : Action :=
  MediaVideoConstraintAction payload.
Definition setAudioConstraint (payload : AudioConstraint) : Action :=
  MediaAudioConstraintAction payload.
Definition enableMediaTrack (kind : MediaKind) : Action :=
  MediaTrackEnableAction kind StreamTypeCamera.

Section capture.
Context `{Platform} `{Window}.
Variable navigator : Navigator.

(** An operation of the page; an exception rejects the function's promise. *)
Definition perform {B} (m : eff World B) : task B :=
  act m (λ r, ended (match r with Ok b => inl b | Throw e => inr (thrown e) end)).

(** Calling what is not there. *)
Definition not_a_function {A} : task A := ended (inr (thrown TypeError)).

Definition getUserMediaFail : JSError := {|
  error_name := "Error";
  error_message := "No API to retrieve media stream. This can happen if you are using an old browser, or the application is not using HTTPS" |}.

Definition getUserMedia (audio video : Constraint) : task MediaStream :=
  if mediaDevices navigator && mediaDevices_getUserMedia navigator
  then request (UserMedia via_mediaDevices audio video)
  else if navigator_getUserMedia navigator then request (UserMedia via_getUserMedia audio video)
  else if webkitGetUserMedia navigator then request (UserMedia via_webkit audio video)
  else if mozGetUserMedia navigator then request (UserMedia via_moz audio video)
  else ended (inr getUserMediaFail).

Definition getDisplayMedia : task MediaStream :=
  if mediaDevices navigator && mediaDevices_getDisplayMedia navigator
  then request DisplayMedia else not_a_function.

(** Without a stream, an empty one. *)
Definition getStream : task MediaStream :=
  try_catch (getUserMedia (flag_constraint true) (flag_constraint true))
    (λ _, perform new_MediaStream).

Definition stop_all (s : MediaStream) : eff World unit :=
  tracks ← getTracks s;
  for_each (λ t, World.emit (TrackStopped t)) tracks.

Definition to_MediaDevice (device : MediaDeviceInfo) : MediaDevice :=
  {| device_id := info_deviceId device; device_name := info_label device;
     device_type := info_kind device |}.

(** The cameras and microphones among the devices. *)
Definition media_devices (devices : list MediaDeviceInfo) : list MediaDevice :=
  to_MediaDevice <$>
  filter (λ d, info_kind d = "audioinput" ∨ info_kind d = "videoinput") devices.

(** A stream is asked for so that the browser tells the names of the devices;
    whatever the enumeration's outcome its tracks are stopped at once. *)
Definition enumerateDevices : task (list MediaDevice) :=
  try_finally
    (if mediaDevices navigator && mediaDevices_enumerateDevices navigator
     then request EnumerateDevices else not_a_function)
    (stream ← getStream; perform (stop_all stream)) ≫= λ devices : list MediaDeviceInfo,
  mret (media_devices devices).

(** [play], given the video elements of the document and whether each is paused. *)
Definition play (videos : list (nat * bool)) : task unit :=
  request (PlayVideos (filter (λ v, v.2 = true) videos).*1).

(** [getMediaTrack]: no track, without asking, for the constraint [false]. *)
Definition getMediaTrack (params : GetMediaTrackParams) : task MediaTrackPayload :=
  let payload track :=
    {| mt_kind := params_kind params; mt_track := track; mt_type := StreamTypeCamera |} in
  if negb (truthy (params_constraint params)) then mret (payload None)
  else
    mediaStream ← match params_kind params with
                  | audio => getUserMedia (params_constraint params) (flag_constraint false)
                  | video => getUserMedia (flag_constraint false) (params_constraint params)
                  end;
    tracks ← perform (getTracksOf (params_kind params) mediaStream);
    mret (payload (head tracks)).

Definition getMediaStream (constraints : GetMediaConstraints) : task AddLocalStreamPayload :=
  let payload stream := {| als_type := StreamTypeCamera; als_stream := stream |} in
  if negb (truthy (gm_audio constraints)) && negb (truthy (gm_video constraints)) then
    stream ← perform new_MediaStream; mret (payload stream)
  else
    stream ← getUserMedia (gm_audio constraints) (gm_video constraints); mret (payload stream).

Definition getDesktopStream : task AddLocalStreamPayload :=
  stream ← getDisplayMedia;
  mret {| als_type := StreamTypeDesktop; als_stream := stream |}.

(** * What they come to *)

Section outcomes.
Context (answers : ∀ r, World → answer r + JSError → World → Prop).

(** The interface [getUserMedia] uses. *)
Definition user_media_api : option UserMediaApi :=
  if mediaDevices navigator && mediaDevices_getUserMedia navigator then Some via_mediaDevices
  else if navigator_getUserMedia navigator then Some via_getUserMedia
  else if webkitGetUserMedia navigator then Some via_webkit
  else if mozGetUserMedia navigator then Some via_moz
  else None.

(** The browser's answer to a request for a stream, or the failure without one. *)
Definition media_given (audio video : Constraint) (w : World) (g : MediaStream + JSError)
    (w' : World) : Prop :=
  match user_media_api with
  | Some api => answers (UserMedia api audio video) w g w'
  | None => g = inr getUserMediaFail ∧ w' = w
  end.

Lemma getUserMedia_settles audio video w g w' :
  settles answers (getUserMedia audio video) w g w' ↔ media_given audio video w g w'.
Proof.
  unfold getUserMedia, media_given, user_media_api.
  repeat case_match; try apply settles_request; done.
Qed.

Lemma perform_settles {B} (m : eff World B) w b w1 o w' :
  m w = (Ok b, w1) → settles answers (perform m) w o w' ↔ o = inl b ∧ w' = w1.
Proof. intros Hm. unfold perform. cbn. by rewrite Hm. Qed.

Lemma stop_all_run s w :
  stop_all s w = (Ok tt, set_effects (λ es, es ++ (TrackStopped <$> tracks_of w s)) w).
Proof.
  unfold stop_all. rewrite (bind_runs _ _ w (tracks_of w s) w) by done.
  generalize (tracks_of w s). intros ts. revert w. induction ts as [|t ts IH]; intros w.
  { destruct w. unfold set_effects. cbn. by rewrite app_nil_r. }
  cbn [for_each]. rewrite (bind_runs _ _ w tt (set_effects (λ es, es ++ [TrackStopped t]) w)) by done.
  rewrite IH. destruct w. unfold set_effects. cbn. by rewrite <-(assoc_L (++)).
Qed.

(** [getStream] always ends with a stream: the browser's, or an empty one. *)
Lemma getStream_settles w o w' :
  settles answers getStream w o w' →
  ∃ g w1 s, media_given (flag_constraint true) (flag_constraint true) w g w1 ∧ o = inl s ∧
    effects w' = effects w1 ∧
    tracks_of w' s = match g with inl s => tracks_of w1 s | inr _ => [] end.
Proof.
  unfold getStream, try_catch. intros ([s|e] & w1 & Hg & Hh)%settles_and_then;
    apply getUserMedia_settles in Hg.
  - destruct Hh as [-> ->]. by exists (inl s), w1, s.
  - apply (perform_settles new_MediaStream w1 _ _ o w' eq_refl) in Hh as [-> ->].
    eexists (inr e), w1, _. split_and!; [done|done|done|].
    unfold tracks_of. simpl. by rewrite lookup_insert_eq.
Qed.

(** However the enumeration of devices ends, the stream it has asked for to learn
    their names is released: after the two requests every track of that stream is
    stopped, and nothing else is done; the promise has the outcome of the
    enumeration, cut down to cameras and microphones, even when the stream was
    refused. *)
Theorem enumerateDevices_releases w o w' :
  settles answers enumerateDevices w o w' →
  ∃ d w1 g w2,
    (if mediaDevices navigator && mediaDevices_enumerateDevices navigator
     then answers EnumerateDevices w d w1 else d = inr (thrown TypeError) ∧ w1 = w) ∧
    media_given (flag_constraint true) (flag_constraint true) w1 g w2 ∧
    o = match d with inl l => inl (media_devices l) | inr e => inr e end ∧
    effects w' = effects w2 ++
      match g with inl s => TrackStopped <$> tracks_of w2 s | inr _ => [] end.
Proof.
  intros Hs. assert (∃ d, settles answers
    (try_finally (if mediaDevices navigator && mediaDevices_enumerateDevices navigator
                  then request EnumerateDevices else not_a_function)
                 (stream ← getStream; perform (stop_all stream))) w d w' ∧
    o = match d with inl l => inl (media_devices l) | inr e => inr e end)
    as (d & Hd & ->).
  { apply settles_bind in Hs as [(l & wd & Hd & [-> ->])|(e & -> & Hd)];
      by eexists. }
  apply settles_try_finally in Hd as (d' & w1 & u & Henum & Hclean & ->).
  assert (∃ g w2, media_given (flag_constraint true) (flag_constraint true) w1 g w2 ∧
    u = inl tt ∧ effects w' = effects w2 ++
      match g with inl s => TrackStopped <$> tracks_of w2 s | inr _ => [] end)
    as (g & w2 & Hg & -> & He).
  { apply settles_bind in Hclean as [(s & w3 & Hget & Hstop)|(e & -> & Hget)];
      apply getStream_settles in Hget as (g & w2 & s' & Hg & Hs' & He & Ht); [|done].
    injection Hs' as <-. apply (perform_settles _ _ _ _ _ _ (stop_all_run s w3)) in Hstop
      as [-> ->]. exists g, w2. split_and!; [done|done|]. simpl. rewrite He, Ht.
    by destruct g. }
  exists d', w1, g, w2. split_and!; [|done|done|done].
  revert Henum. destruct (mediaDevices navigator && _); [apply settles_request|done].
Qed.

(** The track of [getMediaTrack]: none, without asking, for [false]; else the first
    of its kind in the stream given; a refusal is the outcome. *)
Lemma getMediaTrack_settles params w o w' :
  settles answers (getMediaTrack params) w o w' →
  let payload track :=
    {| mt_kind := params_kind params; mt_track := track; mt_type := StreamTypeCamera |} in
  if truthy (params_constraint params) then
    ∃ g, match params_kind params with
         | audio => media_given (params_constraint params) (flag_constraint false) w g w'
         | video => media_given (flag_constraint false) (params_constraint params) w g w'
         end ∧
      o = match g with
          | inl s => inl (payload (head
              (filter (λ t, track_kind t = params_kind params) (tracks_of w' s))))
          | inr e => inr e
          end
  else o = inl (payload None) ∧ w' = w.
Proof.
  unfold getMediaTrack. destruct (truthy _); simpl negb; cbv iota; [|done].
  intros [(s & w1 & Hg & Hrest)|(e & -> & Hg)]%settles_bind.
  - apply settles_bind in Hrest as [(ts & w2 & Hts & Hret)|(e & -> & Hts)];
      apply (perform_settles (getTracksOf (params_kind params) s) w1 _ _ _ _ eq_refl) in Hts
        as [Hts ->]; [|done].
    injection Hts as ->. destruct Hret as [-> ->]. exists (inl s). split; [|done].
    destruct (params_kind params); by apply getUserMedia_settles.
  - exists (inr e). split; [|done]. destruct (params_kind params); by apply getUserMedia_settles.
Qed.
End outcomes.
End capture.

(** * Instances *)

#[local] Existing Instance some_platform.
#[local] Instance demo_window : Window := some_window "alice".

Definition modern_navigator : Navigator := {|
  mediaDevices := true; mediaDevices_getUserMedia := true; mediaDevices_getDisplayMedia := true;
  mediaDevices_enumerateDevices := true; navigator_getUserMedia := false;
  webkitGetUserMedia := false; mozGetUserMedia := false |}.

(** A browser with a camera, a microphone and a speaker, which gives a new stream
    with the tracks asked for. *)
Definition demo_infos : list MediaDeviceInfo :=
  [ {| info_deviceId := "cam"; info_kind := "videoinput"; info_label := "Camera" |};
    {| info_deviceId := "spk"; info_kind := "audiooutput"; info_label := "Speaker" |};
    {| info_deviceId := "mic"; info_kind := "audioinput"; info_label := "Microphone" |} ].

Definition given_tracks (n : nat) (audio video : Constraint) : list MediaStreamTrack :=
  (if truthy audio then [ {| track_ref := 2 * n; track_id := "a" +:+ pretty (N.of_nat n);
                             track_kind := Actions.audio; track_label := "Microphone" |} ] else []) ++
  (if truthy video then [ {| track_ref := 2 * n + 1; track_id := "v" +:+ pretty (N.of_nat n);
                             track_kind := Actions.video; track_label := "Camera" |} ] else []).

Definition give_stream (tracks : list MediaStreamTrack) (w : World) : MediaStream * World :=
  let n := next_stream w in
  ({| stream_ref := n; stream_id := "given" +:+ pretty (N.of_nat n) |},
   set_next_stream (S n) (set_stream_tracks (insert n tracks) w)).

Definition demo_answers (r : Request) : World → answer r + JSError → World → Prop :=
  match r with
  | UserMedia _ for_audio for_video => λ w a w',
      let '(s, w1) := give_stream (given_tracks (next_stream w) for_audio for_video) w in
      a = inl s ∧ w' = w1
  | DisplayMedia => λ w a w',
      let '(s, w1) := give_stream (given_tracks (next_stream w) (flag_constraint false)
                                     (flag_constraint true)) w in a = inl s ∧ w' = w1
  | EnumerateDevices => λ w a w', a = inl demo_infos ∧ w' = w
  | PlayVideos _ => λ w a w', a = inl tt ∧ w' = w
  end.

(** Enumerating devices in it: the stream it gives is released. *)
Definition demo_devices : list MediaDevice :=
  [ {| device_id := "cam"; device_name := "Camera"; device_type := "videoinput" |};
    {| device_id := "mic"; device_name := "Microphone"; device_type := "audioinput" |} ].

Definition enumerated : World :=
  let '(s, w) := give_stream (given_tracks 100 (flag_constraint true) (flag_constraint true))
                   empty_world in (stop_all s w).2.

Lemma demo_enumeration :
  settles demo_answers (enumerateDevices modern_navigator) empty_world (inl demo_devices) enumerated.
Proof.
  cbn. eexists _, _. split; [by split|]. cbn. eexists _, _. split; [by split|]. done.
Qed.

Lemma enumerateDevices_releases_witness :
  settles demo_answers (enumerateDevices modern_navigator) empty_world (inl demo_devices) enumerated ∧
  ∃ d w1 g w2,
    demo_answers EnumerateDevices empty_world d w1 ∧
    media_given modern_navigator demo_answers (flag_constraint true) (flag_constraint true) w1 g w2 ∧
    inl demo_devices = match d with inl l => inl (media_devices l) | inr e => inr (e : JSError) end ∧
    effects enumerated = effects w2 ++
      match g with inl s => TrackStopped <$> tracks_of w2 s | inr _ => [] end.
Proof.
  split; [exact demo_enumeration|].
  exact (enumerateDevices_releases modern_navigator demo_answers _ _ _ demo_enumeration).
Defined.
