(* ===== verification/Devices.v ===== *)
(** The menus of cameras and microphones ([src/client/components/DeviceDropdown.tsx]):
    what choosing an entry does, from the click to the tracks sent to the peers. *)

From S2P Require Import Prelude Objects InsertableStreams InsertableCodec TextCodec Encoder Actions World Streams Peers PeersSafety Media Users Notices Async Store PeerActions CallActions Chat CallSafety Capture.

#[local] Abbreviation list := Datatypes.list.

(** * The component *)

(** [props.kind]: a menu of cameras, or one of microphones. *)
Inductive DeviceKind := videoinput | audioinput.

#[export] Instance DeviceKind_eq_dec : EqDecision DeviceKind.
Proof. solve_decision. Defined.

Definition kind_name (kind : DeviceKind) : string :=
  match kind with videoinput => "videoinput" | audioinput => "audioinput" end.

(** The kind of its tracks. *)
Definition track_kind_of (kind : DeviceKind) : MediaKind :=
  match kind with videoinput => video | audioinput => audio end.

(** [this.state.open] and [this.lastDevice] *)
Record DropdownState := {
  open : bool;
  lastDevice : option Constraint;
}.

Definition new_dropdown : DropdownState := {| open := false; lastDevice := None |}.

Definition defaultDevices (kind : DeviceKind) : Constraint :=
  match kind with
  | audioinput => flag_constraint true
  | videoinput => facing_constraint facing_user
  end.

(** [props.audioinput] or [props.videoinput], by [connect]. *)
Definition selectedDevice (kind : DeviceKind) (m : MediaState) : Constraint :=
  match kind with audioinput => audio_constraint m | videoinput => video_constraint m end.

Definition isDeviceConstraint (d : Constraint) : bool :=
  match d with device_constraint id _ => bool_decide (id ≠ "") | _ => false end.

(** The name goes, so that constraints can be compared as text. *)
Definition toPlainConstraint (c : Constraint) : Constraint :=
  match c with
  | device_constraint id _ => if isDeviceConstraint c then device_constraint id None else c
  | _ => c
  end.

Definition setOpen (b : bool) (d : DropdownState) : DropdownState :=
  {| open := b; lastDevice := lastDevice d |}.
Definition close : DropdownState → DropdownState := setOpen false.
Definition toggleOpen (d : DropdownState) : DropdownState := setOpen (negb (open d)) d.

(** ** What is on the menu *)

Record DeviceOption := {
  o_device : Constraint;
  o_name : string;
  o_selected : bool;
}.

Definition label_of (kind : DeviceKind) : string :=
  match kind with audioinput => "Audio" | videoinput => "Video" end.

(** The text of a constraint, its keys in the order the code writes them, determines
    it: texts are equal when the constraints are. *)
Definition device_options (kind : DeviceKind) (m : MediaState) : list DeviceOption :=
  let selected := selectedDevice kind m in
  {| o_device := flag_constraint false; o_name := "No " +:+ label_of kind;
     o_selected := bool_decide (selected = flag_constraint false) |} ::
  {| o_device := defaultDevices kind; o_name := "Default " +:+ label_of kind;
     o_selected := bool_decide (selected = defaultDevices kind) |} ::
  ((λ device,
     {| o_device := device_constraint (device_id device) (Some (device_name device));
        o_name := device_name device;
        o_selected := isDeviceConstraint selected &&
          match selected with
          | device_constraint id _ => bool_decide (id = device_id device)
          | _ => false
          end |}) <$> filter (λ device, device_type device = kind_name kind) (devices m)).

Section dropdown.
Context `{Platform} `{Lodash} `{ObjectKeys} `{EncodedStreams} `{TextCodec} `{!JSON} `{Window}.

(** ** [handleDevice] *)

(** The component's [getMediaTrack]: the last device is only enabled again; else the
    browser is asked, with these parameters. *)
Definition dropdown_getMediaTrack (params : GetMediaTrackParams) (d : DropdownState) :
    eff Page (option GetMediaTrackParams) :=
  if decide (truthy (params_constraint params) = true ∧
             Some (params_constraint params) = lastDevice d) then
    dispatch_plain (enableMediaTrack (params_kind params)) ≫= λ _, mret None
  else
    dispatch (promised {| pa_type := MEDIA_TRACK; pa_promise := 0 |}) ≫= λ _, mret (Some params).

Definition handleDevice (kind : DeviceKind) (constraint : Constraint) (d : DropdownState) :
    eff Page (DropdownState * option GetMediaTrackParams) :=
  let d := close d in
  props ← gets (λ p, selectedDevice kind (st_media (state p)));
  let plain := toPlainConstraint constraint in
  let d := if negb (truthy plain) && truthy props
           then {| open := open d; lastDevice := Some props |} else d in
  dispatch_plain (match kind with
                  | audioinput => setAudioConstraint plain
                  | videoinput => setVideoConstraint plain
                  end) ≫= λ _,
  asked ← dropdown_getMediaTrack
    {| params_kind := track_kind_of kind; params_constraint := plain |} d;
  mret (d, asked).

(** The promise of a creator has settled: its callbacks are due. *)
Definition settled_with (s : Settlement) (w : World) (p : Page) : Page :=
  let ps := promises p in
  set_promises {| next_promise := next_promise ps; settled := settled ps;
                  dial_timeouts := dial_timeouts ps; reactions := reactions ps ++ [s] |}
    (set_world w p).

(** * The dispatches *)

Definition constraint_action (kind : DeviceKind) (c : Constraint) : Action :=
  match kind with audioinput => setAudioConstraint c | videoinput => setVideoConstraint c end.

(** The page with another constraint in its state. *)
Definition with_constraint (kind : DeviceKind) (c : Constraint) (p : Page) : Page :=
  set_state (with_media (λ m, media m (constraint_action kind c)) (state p)) p.

Lemma dispatch_constraint kind c p :
  dispatch_plain (constraint_action kind c) p = (Ok tt, with_constraint kind c p).
Proof. destruct p as [[] ? ? ? ? ? ? ? ?], kind; reflexivity. Qed.

Lemma with_constraint_selected kind c p :
  selectedDevice kind (st_media (state (with_constraint kind c p))) = c.
Proof. by destruct kind. Qed.

Lemma emit_each {A} (e : A → Effect) xs : ∀ w,
  for_each (λ x, World.emit (e x)) xs w = (Ok tt, set_effects (λ l, l ++ (e <$> xs)) w).
Proof.
  induction xs as [|x xs IH]; intros w.
  { destruct w. unfold set_effects. cbn. by rewrite app_nil_r. }
  cbn [for_each]. rewrite (bind_runs _ _ w tt (set_effects (λ l, l ++ [e x]) w)) by done.
  rewrite IH. destruct w. unfold set_effects. cbn. by rewrite <-(assoc_L (++)).
Qed.

(** The tracks of a kind in the camera's stream that is shared. *)
Definition camera_tracks (kind : MediaKind) (w : World) : list MediaStreamTrack :=
  match shared_streams w StreamTypeCamera with
  | Some s => filter (λ t, track_kind t = kind) (tracks_of w s)
  | None => []
  end.

Definition enabled (kind : MediaKind) (p : Page) : Page :=
  set_world (set_effects (λ l, l ++ ((λ t, TrackEnabled t true) <$> camera_tracks kind (world p)))
               (world p)) p.

Lemma dispatch_enable kind p :
  dispatch_plain (enableMediaTrack kind) p = (Ok tt, enabled kind p).
Proof.
  unfold dispatch_plain, messaging, store_reduce, enableMediaTrack, lift, mbind, eff_bind, gets, reducers.
  destruct p as [[] w ? ? ? ? ? ? ?]. cbn -[for_each handleLocalMediaTrackEnable].
  unfold mbind, eff_bind, mret, eff_ret, handleLocalMediaTrackEnable, enabled, camera_tracks.
  cbn -[for_each tracks_of].
  unfold mbind, eff_bind, get_local, gets. cbn -[for_each tracks_of].
  destruct (shared_streams w StreamTypeCamera) as [x|]; cbn -[for_each tracks_of].
  - unfold mbind, eff_bind, getTracksByKind, getTracksOf, gets.
    rewrite (emit_each (λ t, TrackEnabled t true)). reflexivity.
  - destruct w. unfold set_effects. cbn. by rewrite app_nil_r.
Qed.

Lemma dispatch_pending_track p :
  dispatch (promised {| pa_type := MEDIA_TRACK; pa_promise := 0 |}) p = (Ok tt, p).
Proof. destruct p as [[] ? ? ? ? ? ? ? ?]. reflexivity. Qed.

(** What the component remembers when an entry is chosen. *)
Definition remembered (kind : DeviceKind) (plain : Constraint) (d : DropdownState) (p : Page) :
    DropdownState :=
  {| open := false;
     lastDevice := if negb (truthy plain) && truthy (selectedDevice kind (st_media (state p)))
                   then Some (selectedDevice kind (st_media (state p))) else lastDevice d |}.

Lemma remembered_truthy kind plain d p :
  truthy plain = true → remembered kind plain d p = {| open := false; lastDevice := lastDevice d |}.
Proof. intros Ht. unfold remembered. by rewrite Ht. Qed.

Lemma remembered_none kind d p :
  truthy (selectedDevice kind (st_media (state p))) = true →
  remembered kind (flag_constraint false) d p =
  {| open := false; lastDevice := Some (selectedDevice kind (st_media (state p))) |}.
Proof. intros Ht. unfold remembered. by rewrite Ht. Qed.

Lemma handleDevice_run kind c d p :
  let plain := toPlainConstraint c in
  let params := {| params_kind := track_kind_of kind; params_constraint := plain |} in
  let d' := remembered kind plain d p in
  let p' := with_constraint kind plain p in
  handleDevice kind c d p =
  if decide (truthy plain = true ∧ Some plain = lastDevice d')
  then (Ok (d', None), enabled (track_kind_of kind) p')
  else (Ok (d', Some params), p').
Proof.
  intros plain params d' p'. unfold handleDevice. fold plain.
  rewrite (bind_runs _ _ p (selectedDevice kind (st_media (state p))) p) by done.
  set (d1 := if negb (truthy plain) && _ then _ else _).
  assert (d1 = d') as ->.
  { unfold d1, d', remembered, close, setOpen. by destruct (negb (truthy plain) && _). }
  change (match kind with audioinput => setAudioConstraint plain
                        | videoinput => setVideoConstraint plain end)
    with (constraint_action kind plain).
  rewrite (bind_runs _ _ _ _ _ (dispatch_constraint kind plain p)). fold p'.
  unfold dropdown_getMediaTrack. simpl params_constraint.
  destruct (decide (truthy plain = true ∧ Some plain = lastDevice d')) as [Hd|Hd].
  - erewrite bind_runs; [reflexivity|].
    by rewrite (bind_runs _ _ _ _ _ (dispatch_enable (track_kind_of kind) p')).
  - erewrite bind_runs; [reflexivity|].
    by rewrite (bind_runs _ _ _ _ _ (dispatch_pending_track p')).
Qed.

(** * The answer of the browser *)

(** The calls on peers succeed. *)
Definition peers_accept : Prop := ∀ log peer call, ∃ n, peer_call log peer call = Ok n.

Lemma for_each_runs {W A} (f : A → eff W unit) xs : ∀ w,
  (∀ x w, ∃ w', f x w = (Ok tt, w')) → ∃ w', for_each f xs w = (Ok tt, w').
Proof.
  induction xs as [|x xs IH]; intros w Hf; [by exists w|]. cbn [for_each].
  destruct (Hf x w) as [w1 Hx]. rewrite (bind_runs _ _ _ _ _ Hx). by apply IH.
Qed.

Lemma call_peer_runs peer call w :
  peers_accept → ∃ n w', call_peer peer call w = (Ok n, w').
Proof.
  intros Ha. destruct (Ha (effects w) peer call) as [n Hn]. unfold call_peer. rewrite Hn. by eexists _, _.
Qed.

Lemma addTrackToPeer_runs peer t x w :
  peers_accept → ∃ w', addTrackToPeer peer t x w = (Ok tt, w').
Proof.
  intros Ha. unfold addTrackToPeer. destruct (call_peer_runs peer (p_addTrack t x) w Ha)
    as (n & w1 & Hc).
  rewrite (bind_runs _ _ _ _ _ Hc). unfold codec_op.
  destruct (codec_call (Encrypt n) (codec w1)) as [r c] eqn:Hr.
  exists (set_codec c w1). unfold mbind, eff_bind. by rewrite Hr.
Qed.

Lemma track_action_runs ps payload w :
  peers_accept →
  ∃ w', peers ps (MediaTrackAction (resolved payload)) w = (Ok ps, w').
Proof.
  intros Ha. cbn [peers handleLocalMediaTrack].
  rewrite (bind_runs _ _ w (shared_streams w (mt_type payload)) w) by done.
  destruct (shared_streams w (mt_type payload)) as [x|]; [|by eexists].
  erewrite bind_runs; [|reflexivity]. destruct (head _) as [old|], (mt_track payload) as [new|].
  - edestruct (for_each_runs (λ peer, call_peer peer (p_replaceTrack old new x) ≫= λ _, mret tt))
      as [w1 Hloop].
    { intros peer w0. destruct (call_peer_runs peer (p_replaceTrack old new x) w0 Ha)
        as (n & w1 & Hc). exists w1. by rewrite (bind_runs _ _ _ _ _ Hc). }
    rewrite (bind_runs _ _ _ _ _ Hloop). by eexists.
  - by eexists.
  - edestruct (for_each_runs (λ peer, addTrackToPeer peer new x)) as [w1 Hloop].
    { intros peer w0. by apply addTrackToPeer_runs. }
    rewrite (bind_runs _ _ _ _ _ Hloop). by eexists.
  - by eexists.
Qed.

Lemma dispatch_track payload p w' :
  peers (st_peers (state p)) (MediaTrackAction (resolved payload)) (world p)
    = (Ok (st_peers (state p)), w') →
  dispatch_plain (MediaTrackAction (resolved payload)) p =
  (Ok tt, set_state (with_streams (λ s, setLocalStreamMirror s payload) (state p)) (set_world w' p)).
Proof.
  intros Hrun. destruct p as [[] w ? ? ? ? ? ? ?]. cbn -[peers] in Hrun.
  unfold dispatch_plain, messaging, store_reduce, lift, mbind, eff_bind, gets, reducers.
  cbn -[peers]. unfold mbind, eff_bind, mret, eff_ret. by rewrite Hrun.
Qed.

Lemma reaction_due q s : ∀ rest, reactions (promises q) = s :: rest →
  run_reaction q = on_settled dispatch_plain thrown s
    (set_promises {| next_promise := next_promise (promises q); settled := settled (promises q);
                     dial_timeouts := dial_timeouts (promises q); reactions := rest |} q).
Proof. intros rest Hr. unfold run_reaction, mbind, eff_bind, gets. by rewrite Hr. Qed.

(** What the page does about a track, or about a refusal. *)
Lemma track_settled q o w' :
  peers_accept → reactions (promises q) = [] →
  let q1 := settled_with (settlement MEDIA_TRACK o) w' q in
  ∃ q', run_reaction q1 = (Ok tt, q') ∧ st_peers (state q') = st_peers (state q) ∧
    (∀ kind, selectedDevice kind (st_media (state q')) = selectedDevice kind (st_media (state q))) ∧
    match o with
    | inl payload =>
        peers (st_peers (state q)) (MediaTrackAction (resolved payload)) w'
          = (Ok (st_peers (state q)), world q')
    | inr e =>
        world q' = set_unique_ids (unique_ids w' + 1) w' ∧
        ∃ n, n_type n = notify_error ∧ st_notifications (state q') !! n_id n = Some n
    end.
Proof.
  intros Ha Hq q1. assert (reactions (promises q1) = [settlement MEDIA_TRACK o]) as Hr.
  { unfold q1, settled_with. simpl. by rewrite Hq. }
  rewrite (reaction_due _ _ _ Hr). destruct o as [payload|e].
  - cbn [on_settled s_outcome s_type async_action].
    destruct (track_action_runs (st_peers (state q)) payload w' Ha) as [w2 Hrun].
    set (q2 := set_promises _ q1). eexists.
    split; [exact (catch_runs _ _ _ _ _ (dispatch_track payload q2 w2 Hrun))|].
    split_and!; [done|intros []; done|exact Hrun].
  - unfold q1, settled_with. destruct q as [[] ? ? ? ? ? ? ? ?]. eexists. split; [reflexivity|].
    split_and!; [done|intros []; done|done|]. simpl.
    eexists (Build_Notification _ notify_error _). split; [done|]. apply lookup_insert_eq.
Qed.

(** * Theorems *)

(** C37. Choosing a camera or a microphone, other than "none" and other than the device
    that was in use when "none" was chosen last (which [reselected_device_not_sent] is
    about), when calls of peers succeed: the menu closes, the choice is in the
    state and the browser is asked for a track of that device, and nothing else
    happens yet.  When the browser, at any later time, gives a stream, and the user
    shares a camera's stream, the first track of the kind takes the place of the one
    sent to every peer; when it refuses, an error is shown and nothing is switched,
    but the device stays the one selected. *)
Theorem device_chosen navigator answers kind c d p :
  peers_accept →
  let plain := toPlainConstraint c in
  let params := {| params_kind := track_kind_of kind; params_constraint := plain |} in
  truthy plain = true → lastDevice d ≠ Some plain →
  ∃ d' p', handleDevice kind c d p = (Ok (d', Some params), p') ∧
    open d' = false ∧ lastDevice d' = lastDevice d ∧ world p' = world p ∧
    selectedDevice kind (st_media (state p')) = plain ∧
    ∀ q o w', settles answers (getMediaTrack navigator params) (world q) o w' →
      reactions (promises q) = [] →
      ∃ q', run_reaction (settled_with (settlement MEDIA_TRACK o) w' q) = (Ok tt, q') ∧
        selectedDevice kind (st_media (state q')) = selectedDevice kind (st_media (state q)) ∧
        ∃ given, media_given navigator answers
            (if kind is audioinput then plain else flag_constraint false)
            (if kind is audioinput then flag_constraint false else plain) (world q) given w' ∧
        match given with
        | inl stream => ∀ s, shared_streams w' StreamTypeCamera = Some s →
            track_switched (st_peers (state q)) (track_kind_of kind) s
              (head (filter (λ t, track_kind t = track_kind_of kind) (tracks_of w' stream)))
              w' (world q')
        | inr e =>
            effects (world q') = effects w' ∧ stream_tracks (world q') = stream_tracks w' ∧
            ∃ n, n_type n = notify_error ∧ st_notifications (state q') !! n_id n = Some n
        end.
Proof.
  intros Ha plain params Ht Hl.
  pose proof (handleDevice_run kind c d p) as Hrun. cbv zeta in Hrun. fold plain params in Hrun.
  assert (lastDevice (remembered kind plain d p) = lastDevice d) as Hl'.
  { by rewrite remembered_truthy. }
  rewrite decide_False in Hrun by (rewrite Hl'; intros [_ Heq]; by apply Hl).
  eexists _, _. split; [exact Hrun|]. split_and!; [done|done|by destruct kind|apply with_constraint_selected|].
  intros q o w' Hs Hq. apply getMediaTrack_settles in Hs. cbn [params_constraint params_kind params] in Hs.
  rewrite Ht in Hs. destruct Hs as (g & Hg & ->).
  match goal with |- context [settlement MEDIA_TRACK ?o] =>
    destruct (track_settled q o w' Ha Hq) as (q' & Hrun' & Hps & Hsel & Hq') end.
  exists q'. split; [exact Hrun'|]. split; [apply Hsel|]. exists g. split; [by destruct kind|].
  destruct g as [stream|e].
  - intros s Hsh. eapply peers_switch_track; [exact Hsh|exact Hq'].
  - destruct Hq' as [-> Hn]. by split_and!.
Qed.

(** C38. After "No device" and then another device, choosing the first one again only
    enables the current track: the menu says the first device is in use, the browser
    is not asked for it, and the peers keep what they were sent, the track of the
    other one. *)
Theorem reselected_device_not_sent kind first second d p1 p2 p3 d1 d2 d3 r1 r2 r3 p1' p2' p3' :
  let plain := toPlainConstraint first in
  selectedDevice kind (st_media (state p1)) = plain → truthy plain = true →
  truthy (toPlainConstraint second) = true → toPlainConstraint second ≠ plain →
  handleDevice kind (flag_constraint false) d p1 = (Ok (d1, r1), p1') →
  handleDevice kind second d1 p2 = (Ok (d2, r2), p2') →
  handleDevice kind first d2 p3 = (Ok (d3, r3), p3') →
  r2 = Some {| params_kind := track_kind_of kind;
               params_constraint := toPlainConstraint second |} ∧
  r3 = None ∧ selectedDevice kind (st_media (state p3')) = plain ∧
  st_peers (state p3') = st_peers (state p3) ∧ st_streams (state p3') = st_streams (state p3) ∧
  stream_tracks (world p3') = stream_tracks (world p3) ∧
  shared_streams (world p3') = shared_streams (world p3) ∧
  effects (world p3') = effects (world p3) ++
    ((λ t, TrackEnabled t true) <$> camera_tracks (track_kind_of kind) (world p3)).
Proof.
  intros plain Hsel Ht Ht2 Hne. rewrite !handleDevice_run. fold plain.
  change (toPlainConstraint (flag_constraint false)) with (flag_constraint false).
  rewrite remembered_none by (by rewrite Hsel). rewrite Hsel.
  rewrite decide_False by (by intros [? _]). intros [= <- <- <-].
  rewrite remembered_truthy by done.
  rewrite decide_False by (intros [_ [= Heq]]; by apply Hne). intros [= <- <- <-].
  rewrite remembered_truthy by done. rewrite decide_True by done.
  intros [= <- <- <-]. split_and!; try done; by destruct kind.
Qed.

(** ** The menu *)

Definition menu_ids (kind : DeviceKind) (m : MediaState) : list string :=
  device_id <$> filter (λ device, device_type device = kind_name kind) (devices m).

(** The entry whose constraint is in use is the one selected. *)
Lemma option_selected kind m m' i o :
  NoDup (menu_ids kind m) → "" ∉ menu_ids kind m → devices m' = devices m →
  device_options kind m !! i = Some o → selectedDevice kind m' = toPlainConstraint (o_device o) →
  ∀ j o', device_options kind m' !! j = Some o' → o_selected o' = bool_decide (j = i).
Proof.
  unfold menu_ids, device_options. intros Hnd Hne -> Hi Hsel j o'. rewrite Hsel.
  set (l := filter _ (devices m)) in *.
  assert (∀ k dev, l !! k = Some dev → device_id dev ≠ "") as Hid.
  { intros k dev Hk Heq. apply Hne. rewrite <-Heq. apply list_elem_of_fmap_2.
    by eapply list_elem_of_lookup_2. }
  destruct i as [|[|i]]; cbn [lookup list_lookup] in Hi.
  - injection Hi as <-. destruct j as [|[|j]]; cbn [lookup list_lookup]; [by intros [= <-]| |].
    + intros [= <-]. by destruct kind.
    + by intros (dev & -> & _)%list_lookup_fmap_Some.
  - injection Hi as <-. destruct j as [|[|j]]; cbn [lookup list_lookup]; [| |].
    + intros [= <-]. by destruct kind.
    + intros [= <-]. by destruct kind.
    + intros (dev & -> & _)%list_lookup_fmap_Some. by destruct kind.
  - apply list_lookup_fmap_Some in Hi as (dev & -> & Hi). pose proof (Hid _ _ Hi) as Hdev.
    assert (toPlainConstraint (device_constraint (device_id dev) (Some (device_name dev)))
            = device_constraint (device_id dev) None) as Hplain.
    { unfold toPlainConstraint, isDeviceConstraint. by rewrite bool_decide_true. }
    cbn [o_device] in *. rewrite Hplain in *. destruct j as [|[|j]]; cbn [lookup list_lookup].
    + by intros [= <-].
    + intros [= <-]. by destruct kind.
    + intros (dev' & -> & Hj)%list_lookup_fmap_Some. cbn [o_selected isDeviceConstraint].
      rewrite (bool_decide_true (device_id dev ≠ "")) by done. simpl.
      apply bool_decide_ext. split; [|intros [= ->]; congruence].
      intros Heq. do 2 f_equal. eapply (NoDup_lookup _ _ _ (device_id dev) Hnd);
        rewrite list_lookup_fmap; [by rewrite Hj, Heq|by rewrite Hi].
Qed.

(** The menu is a group of radio buttons: with the ids of the devices of its kind
    given and distinct, after an entry is chosen exactly that entry is selected,
    whatever the component did about the track. *)
Theorem menu_selects_choice kind i o d p d' r p' :
  NoDup (menu_ids kind (st_media (state p))) → "" ∉ menu_ids kind (st_media (state p)) →
  device_options kind (st_media (state p)) !! i = Some o →
  handleDevice kind (o_device o) d p = (Ok (d', r), p') →
  length (device_options kind (st_media (state p')))
    = length (device_options kind (st_media (state p))) ∧
  ∀ j o', device_options kind (st_media (state p')) !! j = Some o' →
    o_selected o' = bool_decide (j = i).
Proof.
  intros Hnd Hne Hi. rewrite handleDevice_run. intros Hrun.
  assert (st_media (state p')
    = st_media (state (with_constraint kind (toPlainConstraint (o_device o)) p))) as ->
    by (revert Hrun; case_decide; by intros [= _ _ <-]).
  clear Hrun. assert (devices (st_media (state (with_constraint kind (toPlainConstraint (o_device o)) p)))
    = devices (st_media (state p))) as Hdev by (by destruct kind).
  split.
  - unfold device_options. rewrite Hdev. cbn [length]. by rewrite !length_fmap.
  - eapply option_selected; [done|done|done|done|apply with_constraint_selected].
Qed.
End dropdown.

(** * Instances *)

#[local] Existing Instance some_platform.
#[local] Existing Instance some_lodash.
#[local] Existing Instance some_object_keys.
#[local] Existing Instance once_streams.
#[local] Existing Instance ascii_codec.
#[local] Existing Instance some_json.
#[local] Existing Instance CallSafety.demo_window.

(** A page in a call with Bob, who is sent the camera's track; its devices are known. *)
Definition call_page : Page :=
  set_state (with_peers (λ _, one_peer)
    (with_media (λ m, media m (MediaEnumerateAction (resolved demo_devices))) (state ready_page)))
    (set_world shared_world ready_page).

Definition chosen_camera : Constraint := device_constraint "cam" (Some "Camera").

(** Running [handleDevice]: what it returns, and the page. *)
Definition choose (kind : DeviceKind) (c : Constraint) (x : DropdownState * Page) :
    (DropdownState * option GetMediaTrackParams) * Page :=
  match handleDevice kind c x.1 x.2 with
  | (Ok r, p) => (r, p)
  | (Throw _, p) => ((x.1, None), p)
  end.

Definition asked_page : Page := (choose videoinput chosen_camera (new_dropdown, call_page)).2.

(** The browser's answer: a stream with the track of the camera asked for. *)
Definition given_world : World :=
  (give_stream (given_tracks (next_stream (world asked_page)) (flag_constraint false)
                  (device_constraint "cam" None)) (world asked_page)).2.
Definition given_track : MediaStreamTrack :=
  {| track_ref := 201; track_id := "v100"; track_kind := video; track_label := "Camera" |}.
Definition given_payload : MediaTrackPayload :=
  {| mt_kind := video; mt_track := Some given_track; mt_type := StreamTypeCamera |}.

Lemma device_chosen_witness :
  ∃ d' p' q', handleDevice videoinput chosen_camera new_dropdown call_page
    = (Ok (d', Some {| params_kind := video; params_constraint := device_constraint "cam" None |}), p') ∧
    run_reaction (settled_with (settlement MEDIA_TRACK (inl given_payload)) given_world asked_page)
    = (Ok tt, q') ∧
    PeerCalled 3 (p_replaceTrack cam_track given_track cam) ∈ effects (world q').
Proof.
  destruct (device_chosen modern_navigator demo_answers videoinput chosen_camera new_dropdown call_page)
    as (d' & p' & Hrun & _ & _ & Hw & _ & Hall).
  - intros log peer call. by eexists.
  - reflexivity.
  - discriminate.
  - destruct (Hall asked_page (inl given_payload) given_world) as (q' & Hq & _ & g & Hg & Hs).
    + eexists (inl {| stream_ref := 100; stream_id := "given100" |}), given_world.
      split; [split; vm_compute; reflexivity|]. split; vm_compute; reflexivity.
    + vm_compute. reflexivity.
    + exists d', p', q'. split_and!; [exact Hrun|exact Hq|].
      assert (g = inl {| stream_ref := 100; stream_id := "given100" |}) as ->
        by (destruct Hg as [-> _]; vm_compute; reflexivity).
      assert (shared_streams given_world StreamTypeCamera = Some cam) as Hcam
        by (vm_compute; reflexivity).
      assert (head (filter (λ t, track_kind t = track_kind_of videoinput) (tracks_of given_world cam))
              = Some cam_track) as Hold by (vm_compute; reflexivity).
      assert (head (filter (λ t, track_kind t = track_kind_of videoinput) (tracks_of given_world
                {| stream_ref := 100; stream_id := "given100" |})) = Some given_track) as Hnew
        by (vm_compute; reflexivity).
      specialize (Hs cam Hcam). unfold track_switched in Hs. rewrite Hold, Hnew in Hs.
      destruct Hs as (_ & _ & _ & Hpeer). apply (Hpeer "bob" 3). vm_compute. reflexivity.
Defined.

(** The camera, "No Video", another camera, the first one again. *)
Definition stale_1 := choose videoinput (flag_constraint false)
  (new_dropdown, with_constraint videoinput (device_constraint "cam" None) call_page).
Definition stale_2 := choose videoinput (device_constraint "cam2" (Some "Second")) (stale_1.1.1, stale_1.2).
Definition stale_page : Page :=
  (run_reaction (settled_with (settlement MEDIA_TRACK (inl given_payload)) given_world stale_2.2)).2.
Definition stale_3 := choose videoinput chosen_camera (stale_2.1.1, stale_page).

Lemma reselected_device_not_sent_witness :
  stale_3.1.2 = None ∧
  selectedDevice videoinput (st_media (state stale_3.2)) = device_constraint "cam" None ∧
  camera_tracks video (world stale_3.2) = [given_track].
Proof.
  destruct (reselected_device_not_sent videoinput chosen_camera
    (device_constraint "cam2" (Some "Second")) new_dropdown
    (with_constraint videoinput (device_constraint "cam" None) call_page) stale_1.2 stale_page
    stale_1.1.1 stale_2.1.1 stale_3.1.1 stale_1.1.2 stale_2.1.2 stale_3.1.2
    stale_1.2 stale_2.2 stale_3.2) as (_ & Hr & Hsel & _).
  - reflexivity.
  - reflexivity.
  - reflexivity.
  - discriminate.
  - vm_compute. reflexivity.
  - vm_compute. reflexivity.
  - vm_compute. reflexivity.
  - split_and!; [exact Hr|exact Hsel|vm_compute; reflexivity].
Defined.

Lemma menu_selects_choice_witness :
  let x := choose videoinput chosen_camera (new_dropdown, call_page) in
  map o_selected (device_options videoinput (st_media (state x.2))) = [false; false; true].
Proof.
  intros x. destruct (menu_selects_choice videoinput 2 {| o_device := chosen_camera;
    o_name := "Camera"; o_selected := false |} new_dropdown call_page x.1.1 x.1.2 x.2) as [Hl Hs].
  - apply (bool_decide_unpack _). vm_compute. reflexivity.
  - apply (bool_decide_unpack _). vm_compute. reflexivity.
  - reflexivity.
  - vm_compute. reflexivity.
  - pose proof (Hs 0 _ eq_refl) as H0. pose proof (Hs 1 _ eq_refl) as H1.
    pose proof (Hs 2 _ eq_refl) as H2. vm_compute in H0, H1, H2 |- *. reflexivity.
Defined.
