(* ===== verification/JoinForm.v ===== *)
(** The form that joins a call ([src/client/components/Media.tsx]): its inputs, and
    [handleSubmit], an asynchronous function that asks for a stream, waits for it,
    dials, and waits for the call. *)

From S2P Require Import Prelude Objects InsertableStreams InsertableCodec TextCodec Encoder Actions World Streams Peers Media Users Notices Async Store PeerActions CallActions Capture Devices.

#[local] Abbreviation list := Datatypes.list.

(** * The component *)

(** [MediaComponentState]; the nickname kept by [localStorage], for a browser that has
    one; and the page. *)
Record Form := {
  form_nickname : string;
  form_error : bool;
}.

Record Joining := {
  form : Form;
  local_storage : option (option string);
  form_page : Page;
}.

Definition set_form (f : Form) (j : Joining) : Joining :=
  {| form := f; local_storage := local_storage j; form_page := form_page j |}.
Definition with_page (p : Page) (j : Joining) : Joining :=
  {| form := form j; local_storage := local_storage j; form_page := p |}.

(** [localStorage && (localStorage.nickname = nickname)] *)
Definition keep_nickname (nickname : string) (j : Joining) : Joining :=
  {| form := form j; local_storage := (λ _, Some nickname) <$> local_storage j;
     form_page := form_page j |}.

(** The constructor: the nickname of this user, [props.nickname || '']. *)
Definition new_form (p : Page) : Form :=
  {| form_nickname := default "" (st_nicknames (state p) !! ME); form_error := false |}.

(** [setState({ error })] *)
Definition set_form_error (b : bool) : eff Joining unit :=
  modify (λ j, set_form {| form_nickname := form_nickname (form j); form_error := b |} j).

Definition on_form_page {A} (m : eff Page A) : eff Joining A := λ j,
  let '(r, p) := m (form_page j) in (r, with_page p j).

(** ** [mapStateToProps] *)

Definition hung_up (p : Page) : bool :=
  bool_decide (dialState (st_media (state p)) = DIAL_STATE_HUNG_UP).
Definition joinEnabled (p : Page) : bool :=
  hung_up p && socketConnected (st_media (state p)) && negb (loading (st_media (state p))).
Definition visible (p : Page) : bool := hung_up p.

(** ** [Options] *)

(** The entries of a menu: the constraint whose text is the value, and what is shown. *)
Definition Options (kind : DeviceKind) (devices : list MediaDevice) : list (Constraint * string) :=
  (flag_constraint false, "No " +:+ label_of kind) ::
  (defaultDevices kind, "Default " +:+ label_of kind) ::
  ((λ device, (device_constraint (device_id device) None,
               if decide (device_name device = "") then device_type device
               else device_name device)) <$>
   filter (λ device, device_type device = kind_name kind) devices).

Section form.
Context `{Platform} `{Lodash} `{ObjectKeys} `{EncodedStreams} `{TextCodec} `{!JSON} `{Window}.

(** * The handlers *)

Definition form_mounted : eff Page unit :=
  dispatch (promised {| pa_type := MEDIA_ENUMERATE; pa_promise := 0 |}).

Definition handleVideoChange (constraint : Constraint) : eff Page unit :=
  dispatch_plain (setVideoConstraint constraint).
Definition handleAudioChange (constraint : Constraint) : eff Page unit :=
  dispatch_plain (setAudioConstraint constraint).
Definition handleNicknameChange (value : string) : eff Joining unit :=
  modify (λ j, set_form {| form_nickname := value; form_error := form_error (form j) |} j).

(** [AutoplayMessage]'s button. *)
Definition press_play : eff Page unit :=
  dispatch (promised {| pa_type := MEDIA_PLAY; pa_promise := 0 |}).

(** ** [handleSubmit] *)

(** Up to the first [await]: what is asked of the browser, and the nickname the rest
    of the function goes on with; none when it has ended already. *)
Definition handleSubmit : eff Joining (option (string * GetMediaConstraints)) :=
  nickname ← gets (λ j, form_nickname (form j));
  modify (keep_nickname nickname) ≫= λ _,
  asked ← gets (λ j, {| gm_video := video_constraint (st_media (state (form_page j)));
                        gm_audio := audio_constraint (st_media (state (form_page j))) |});
  catch (on_form_page (dispatch (promised {| pa_type := MEDIA_STREAM; pa_promise := 0 |})) ≫= λ _,
         mret (Some (nickname, asked)))
    (λ _, set_form_error true ≫= λ _, mret None).

Definition logError (err : JSError) : eff Joining unit :=
  on_form_page (dispatch_notify error ["Error dialling: {0}"; error_to_string err]).

(** From the first [await] to the second: [err], if the first has failed.  The promise
    of the dial that is waited for, if there is one. *)
Definition stream_awaited (nickname : string) (err : option JSError) :
    eff Joining (option nat) :=
  match err with
  | Some _ => set_form_error true ≫= λ _, mret None
  | None =>
    set_form_error false ≫= λ _,
    on_form_page (dispatch_notify info ["Dialling..."]) ≫= λ _,
    n ← gets (λ j, next_promise (promises (form_page j)));
    catch (on_form_page (dial nickname) ≫= λ _, mret (Some n))
      (λ e, logError (thrown e) ≫= λ _, mret None)
  end.

(** After the second. *)
Definition dial_awaited (err : option JSError) : eff Joining unit :=
  match err with
  | Some err => logError err
  | None => mret tt
  end.

(** What an [await] of a dispatched promise comes to: the middleware gives the action
    back when its callbacks have run, and an exception of theirs if there is one. *)
Definition awaited {A} (o : A + JSError) (callbacks : result unit) : option JSError :=
  match callbacks with
  | Throw e => Some (thrown e)
  | Ok _ => match o with inl _ => None | inr e => Some e end
  end.

(** The promise of the stream settles in world [w] and its callbacks, the next to
    run, run; then the function goes on. *)
Definition stream_arrives (o : AddLocalStreamPayload + JSError) (w : World) (nickname : string) :
    eff Joining (option nat) := λ j,
  let '(r, p) := run_reaction (settled_with (settlement MEDIA_STREAM o) w (form_page j)) in
  stream_awaited nickname (awaited o r) (with_page p j).

(** The promise of the dial has settled. *)
Definition dial_settles (o : unit + JSError) : eff Joining unit := λ j,
  let '(r, p) := run_reaction (form_page j) in
  dial_awaited (awaited o r) (with_page p j).
End form.
