(* ===== verification/JoinSafety.v ===== *)
(** Joining a call, from the form to the tracks sent to everyone; and joining twice. *)

From S2P Require Import Prelude Objects InsertableStreams InsertableCodec TextCodec Encoder Actions World Streams StreamsLocal Peers PeersSafety Media Users Notices Async Store PeerActions CallActions Chat CallSafety Session SessionSafety Promises Capture Devices JoinForm.

#[local] Abbreviation list := Datatypes.list.

Section join.
Context `{Platform} `{Lodash} `{ObjectKeys} `{EncodedStreams} `{TextCodec} `{!JSON} `{Window}.

(** * A stream arrives *)

Lemma no_entries {V} (m : gmap string V) : m = ∅ → object_entries m = [].
Proof.
  intros ->. destruct (object_entries ∅) as [|[k v] l] eqn:He; [done|].
  assert ((k, v) ∈ object_entries (∅ : gmap string V)) as Hk by (rewrite He; left).
  by apply elem_of_object_entries in Hk.
Qed.

(** The page with a new local stream, while there are no peers and no recording. *)
Definition stream_added (payload : AddLocalStreamPayload) (p : Page) : Page :=
  let w := set_shared_streams
    (λ t, if decide (t = als_type payload) then Some (als_stream payload)
          else shared_streams (world p) t) (world p) in
  set_state (with_streams (λ s,
      with_localStreams (<[stream_type_key (als_type payload) := new_local w payload]>
        (localStreams s)) (localRecorders s) s) (state p))
    (set_world (add_effects (replaced_effects (st_streams (state p)) (als_type payload) w) w) p).

Lemma dispatch_stream payload p :
  st_peers (state p) = ∅ → isRecording (st_streams (state p)) = false →
  dispatch_plain (MediaStreamAction (resolved payload)) p = (Ok tt, stream_added payload p).
Proof.
  intros Hp Hrec. destruct p as [[] w ? ? ? ? ? ? ?]. cbn in Hp, Hrec. subst.
  unfold dispatch_plain, messaging, store_reduce, lift, mbind, eff_bind, gets, reducers.
  cbn -[addLocalStream for_each]. unfold mbind, eff_bind, mret, eff_ret.
  unfold peer_list. rewrite (no_entries (∅ : gmap string PeerRef) eq_refl).
  cbn -[addLocalStream]. by rewrite addLocalStream_run.
Qed.

Lemma dispatch_pending_stream p :
  dispatch (promised {| pa_type := MEDIA_STREAM; pa_promise := 0 |}) p = (Ok tt, p).
Proof. destruct p as [[] ? ? ? ? ? ? ? ?]. reflexivity. Qed.

(** The refusal of one. *)
Lemma dispatch_refused e p :
  ∃ p', dispatch_plain (MediaStreamAction (rejected e)) p = (Ok tt, p') ∧
    dialState (st_media (state p')) = dialState (st_media (state p)) ∧
    error_message e = Media.error (st_media (state p')) ∧
    st_streams (state p') = st_streams (state p) ∧ effects (world p') = effects (world p).
Proof. destruct p as [[] [] ? ? ? ? ? ? ?]. eexists. split; [reflexivity|]. done. Qed.

(** * A peer connects *)

Lemma lift_runs {A} (m : eff World A) p a w :
  m (world p) = (Ok a, w) → lift m p = (Ok a, set_world w p).
Proof. intros Hm. unfold lift. by rewrite Hm. Qed.

(** A loop on the world is one on the page. *)
Lemma lift_loop {A} (f : A → eff World unit) (g : A → eff Page unit) xs :
  (∀ x p, g x p = lift (f x) p) → ∀ p, for_each g xs p = lift (for_each f xs) p.
Proof.
  intros Hfg. induction xs as [|x xs IH]; intros p; [by destruct p|].
  cbn [for_each]. unfold mbind, eff_bind at 1. rewrite Hfg. unfold lift, mbind, eff_bind.
  destruct (f x (world p)) as [[[]|e] w]; [|done]. by rewrite IH.
Qed.

(** Sharing one stream with a peer. *)
Definition share_with (peer : PeerRef) (s : MediaStream) : eff World unit :=
  tracks ← getTracks s; for_each (λ t, addTrackToPeer peer t s) tracks.

Lemma share_with_runs peer s w : peers_accept → ∃ w', share_with peer s w = (Ok tt, w').
Proof.
  intros Ha. unfold share_with. rewrite (bind_runs _ _ w (tracks_of w s) w) by done.
  apply for_each_runs. intros t w0. by apply addTrackToPeer_runs.
Qed.

Lemma share_with_advances peer s : advances (share_with peer s).
Proof.
  apply advances_bind; [by intros w r w' [= <- <-]|]. intros ts. apply advances_for_each.
  intros t. apply advances_add.
Qed.

Lemma share_with_called peer s t w w' :
  share_with peer s w = (Ok tt, w') → t ∈ tracks_of w s →
  PeerCalled peer (p_addTrack t s) ∈ effects w'.
Proof.
  intros (ts & w1 & [= <- <-] & Hrun)%bind_Ok_inv Ht.
  destruct (for_each_all _ _ (λ x, advances_add peer x s) _ _ Hrun t Ht)
    as (w2 & w3 & Hone & _ & Hl). eapply later_effect; [done|]. by eapply addTrackToPeer_called.
Qed.

(** A peer that connects is given the tracks of the local streams. *)
Lemma connect_shares peer user p :
  peers_accept → st_peers (state p) !! user = Some peer →
  handlers p !! peer = Some (new_handler user) →
  ∃ p', on_peer_event peer peer_connect p = (Ok tt, p') ∧
    ∀ type ls t, localStreams (st_streams (state p)) !! type = Some ls →
      t ∈ tracks_of (world p) (stream (ls_stream ls)) →
      PeerCalled peer (p_addTrack t (stream (ls_stream ls))) ∈ effects (world p').
Proof.
  intros Ha Hpeer Hh. unfold on_peer_event.
  set (p1 := set_handlers (<[peer := {| ph_user := user; ph_decoder := ∅; ph_error := true;
    ph_connect := false; ph_close := true |}]> (handlers p)) p).
  rewrite (bind_runs _ _ p (Some user) p1) by (unfold take_once; by rewrite Hh).
  unfold handleConnect, warning. rewrite (bind_runs _ _ _ _ _ (dispatch_notify_run _ _ p1)).
  set (q := noticed _ _ p1).
  rewrite (bind_runs _ _ q (Some peer) q) by (unfold peer_of, gets; by rewrite <-Hpeer).
  set (locals := localStreams (st_streams (state p))).
  rewrite (bind_runs _ _ q locals q) by done.
  set (f := λ kv : string * LocalStream, share_with peer (stream (ls_stream kv.2))).
  erewrite (lift_loop f).
  2:{ intros [k s] p0. unfold f, share_with. rewrite (bind_runs _ _ p0
        (tracks_of (world p0) (stream (ls_stream s))) (set_world (world p0) p0)) by done.
      erewrite (lift_loop (λ t, addTrackToPeer peer t (stream (ls_stream s)))) by done.
      unfold lift. cbn [world set_world]. unfold getTracks. by unfold mbind, eff_bind, gets. }
  destruct (for_each_runs f (object_entries locals) (world q)) as [w' Hrun].
  { intros kv w. by apply share_with_runs. }
  rewrite (lift_runs _ _ _ _ Hrun). eexists. split; [reflexivity|].
  intros type ls t Hls Ht. cbn [world set_world].
  destruct (for_each_all f (object_entries locals)) with (w := world q) (w' := w') (x := (type, ls))
    as (w2 & w3 & Hone & Hl2 & Hl3); [by intros kv; apply share_with_advances|done| |].
  { by apply elem_of_object_entries. }
  eapply later_effect; [done|]. eapply share_with_called; [exact Hone|].
  by rewrite (later_tracks (world q)).
Qed.

(** * Dialling from the form *)

Lemma stream_added_frame payload p :
  listeners (stream_added payload p) = listeners p ∧ promises (stream_added payload p) = promises p ∧
  connecting (stream_added payload p) = connecting p ∧
  st_media (state (stream_added payload p)) = st_media (state p) ∧
  st_peers (state (stream_added payload p)) = st_peers (state p) ∧
  isRecording (st_streams (state (stream_added payload p))) = isRecording (st_streams (state p)) ∧
  stream_tracks (world (stream_added payload p)) = stream_tracks (world p).
Proof. done. Qed.

(** A settlement that is the only one due, at its turn. *)
Lemma sole_reaction s w p :
  reactions (promises p) = [] →
  run_reaction (settled_with s w p) = on_settled dispatch_plain thrown s (set_world w p).
Proof.
  intros Hr. rewrite (reaction_due _ s []) by (simpl; by rewrite Hr).
  destruct p as [? ? ? ? ? ? ? [] ?]. simpl in Hr. by subst.
Qed.

(** What [handleSubmit] does when the stream is there. *)
Definition dialling_with (payload : AddLocalStreamPayload) (w : World) (nickname : string)
    (p : Page) : Page :=
  dialled nickname (noticed notify_info ["Dialling..."] (stream_added payload (set_world w p))).

Lemma stream_arrives_run payload w nickname j :
  let p := form_page j in
  reactions (promises p) = [] → st_peers (state p) = ∅ → isRecording (st_streams (state p)) = false →
  connecting p = false →
  stream_arrives (inl payload) w nickname j =
  (Ok (Some (next_promise (promises p))),
   {| form := {| form_nickname := form_nickname (form j); form_error := false |};
      local_storage := local_storage j; form_page := dialling_with payload w nickname p |}).
Proof.
  intros p Hr Hp Hrec Hc. unfold stream_arrives. rewrite sole_reaction by done.
  cbn [on_settled s_outcome s_type async_action].
  rewrite (catch_runs _ _ _ _ _ (dispatch_stream payload (set_world w p) Hp Hrec)).
  cbn [awaited stream_awaited]. set (q := stream_added _ _).
  erewrite bind_runs; [|reflexivity]. unfold info.
  erewrite bind_runs; [|unfold on_form_page; cbn [form_page with_page set_form]; rewrite dispatch_notify_run; reflexivity].
  erewrite bind_runs; [|reflexivity]. apply catch_runs. unfold on_form_page, mbind, eff_bind.
  cbn [form_page with_page set_form]. rewrite dial_run. cbn [connecting noticed].
  change (connecting (noticed notify_info ["Dialling..."] q)) with (connecting p). by rewrite Hc.
Qed.

(** The function up to its first [await]. *)
Lemma handleSubmit_run j :
  let m := st_media (state (form_page j)) in
  let nickname := form_nickname (form j) in
  handleSubmit j =
  (Ok (Some (nickname, {| gm_video := video_constraint m; gm_audio := audio_constraint m |})),
   keep_nickname nickname j).
Proof.
  intros m nickname. unfold handleSubmit. rewrite (bind_runs _ _ j nickname j) by done.
  rewrite (bind_runs _ _ j tt (keep_nickname nickname j)) by done.
  erewrite bind_runs; [|reflexivity]. apply catch_runs.
  unfold on_form_page, mbind, eff_bind. by rewrite dispatch_pending_stream.
Qed.

(** When the stream is refused. *)
Lemma stream_refused_run e w nickname j :
  reactions (promises (form_page j)) = [] →
  ∃ j', stream_arrives (inr e) w nickname j = (Ok None, j') ∧ form_error (form j') = true ∧
    dialState (st_media (state (form_page j'))) = dialState (st_media (state (form_page j))) ∧
    listeners (form_page j') = listeners (form_page j) ∧ effects (world (form_page j')) = effects w.
Proof.
  intros Hr. unfold stream_arrives. rewrite sole_reaction by done.
  destruct (dispatch_refused e (set_world w (form_page j))) as (p' & Hrun & Hd & _ & _ & He).
  pose proof (dispatch_frame _ _ _ _ Hrun) as (_ & Hl & _).
  change (on_settled _ _ _ (set_world w (form_page j)))
    with (dispatch_plain (MediaStreamAction (rejected e)) (set_world w (form_page j))). rewrite Hrun.
  cbn [awaited stream_awaited]. eexists. split; [reflexivity|]. by split_and!.
Qed.

(** A dial from the form is under way. *)
Lemma dialling_pending payload w nickname p :
  next_promise (promises p) ∉ settled (promises p) → reactions (promises p) = [] →
  dial_pending (next_promise (promises p)) (dial_handler nickname)
    (dialling_with payload w nickname p).
Proof. intros Hn Hr. split; [exact (dialled_users nickname (noticed _ _ (stream_added payload (set_world w p))))
                                  |exact Hn|exact Hr]. Qed.

(** The call that follows: everyone has a connection, which will have the tracks. *)
Lemma joined payload w nickname users p :
  peers_accept → callId ≠ "" → NoDup (peerIds users) →
  next_promise (promises p) ∉ settled (promises p) → reactions (promises p) = [] →
  st_peers (state p) = ∅ →
  ∃ p2 p3, emit_event (ev_users users) (dialling_with payload w nickname p) = (Ok tt, p2) ∧
    run_reaction p2 = (Ok tt, p3) ∧ dialState (st_media (state p3)) = DIAL_STATE_IN_CALL ∧
    reactions (promises p3) = [] ∧
    settled (promises p3) = {[next_promise (promises p)]} ∪ settled (promises p) ∧
    ∀ u, u ∈ peerIds users → u ≠ userId →
    ∃ peer p4, st_peers (state p3) !! u = Some peer ∧
      on_peer_event peer peer_connect p3 = (Ok tt, p4) ∧
      ∀ t, t ∈ tracks_of w (als_stream payload) →
        PeerCalled peer (p_addTrack t (als_stream payload)) ∈ effects (world p4).
Proof.
  intros Ha Hcall Hnd Hn Hr Hp. set (q0 := dialling_with payload w nickname p).
  destruct (dial_answered _ (dial_handler nickname) users Hnd Hcall q0
    (dialling_pending payload w nickname p Hn Hr))
    as (p2 & p3 & q & Hemit & Hrun & Hin & Hu & Hps & Hss & Hw & Hh & Hrs & Hset).
  exists p2, p3. split_and!; [done..|]. intros u Hus Hme.
  destruct (users_handled_all _ _ _ _ Hu) as (Hall & _ & Hnew).
  destruct (Hall u Hus Hme) as [peer Hpeer].
  destruct (Hnew u peer) as (_ & _ & _ & Hhd & _); [|done|].
  { change (st_peers (state p) !! u = None). by rewrite Hp. }
  destruct (connect_shares peer u p3) as (p4 & Hc & Hshare);
    [done|by rewrite Hps|by rewrite Hh|].
  exists peer, p4. split_and!; [by rewrite Hps|done|]. intros t Ht.
  apply (Hshare (stream_type_key (als_type payload)) (new_local (world (stream_added payload (set_world w p))) payload)).
  - rewrite Hss, (uh_locals _ _ _ _ Hu). apply lookup_insert_eq.
  - unfold tracks_of. rewrite Hw, (uh_tracks _ _ _ _ Hu). exact Ht.
Qed.

(** * Theorems *)

(** C12. Joining a call.  The form asks for a stream with the constraints of the menus,
    and keeps the nickname.  When the browser refuses, the form shows an error and
    nothing is dialled.  When it gives a stream, whatever has become of the rest of
    the world, the page dials under the nickname; when the server answers with the
    users, the call begins; there is a connection to everyone else, and as soon as
    it is made every track of the stream is sent over it. *)
Theorem join_call url payload users w e j :
  let p := form_page j in let nickname := form_nickname (form j) in
  session url p → peers_accept → callId ≠ "" → NoDup (peerIds users) →
  connecting p = false → reactions (promises p) = [] →
  st_peers (state p) = ∅ → isRecording (st_streams (state p)) = false →
  ∃ j1, handleSubmit j = (Ok (Some (nickname,
          {| gm_video := video_constraint (st_media (state p));
             gm_audio := audio_constraint (st_media (state p)) |})), j1) ∧
    local_storage j1 = (λ _, Some nickname) <$> local_storage j ∧
    (∃ j2, stream_arrives (inr e) w nickname j1 = (Ok None, j2) ∧ form_error (form j2) = true ∧
       dialState (st_media (state (form_page j2))) = dialState (st_media (state p)) ∧
       effects (world (form_page j2)) = effects w) ∧
    ∃ n j2, stream_arrives (inl payload) w nickname j1 = (Ok (Some n), j2) ∧
      form_error (form j2) = false ∧
      dialState (st_media (state (form_page j2))) = DIAL_STATE_DIALLING ∧
      SocketSent (sent_ready callId nickname nickname) ∈ effects (world (form_page j2)) ∧
      ∃ p3 p4, emit_event (ev_users users) (form_page j2) = (Ok tt, p3) ∧
        run_reaction p3 = (Ok tt, p4) ∧ dialState (st_media (state p4)) = DIAL_STATE_IN_CALL ∧
        ∀ u, u ∈ peerIds users → u ≠ userId →
        ∃ peer p5, st_peers (state p4) !! u = Some peer ∧
          on_peer_event peer peer_connect p4 = (Ok tt, p5) ∧
          ∀ t, t ∈ tracks_of w (als_stream payload) →
            PeerCalled peer (p_addTrack t (als_stream payload)) ∈ effects (world p5).
Proof.
  intros p nickname Hs Ha Hcall Hnd Hc Hr Hp Hrec.
  pose proof (session_fresh _ _ (next_promise (promises p)) Hs (le_n _)) as Hn.
  exists (keep_nickname nickname j). split; [apply handleSubmit_run|]. split; [done|]. split.
  { destruct (stream_refused_run e w nickname (keep_nickname nickname j) Hr)
      as (j2 & Hrun & He & Hd & _ & Hw). exists j2. by split_and!. }
  eexists _, _. split; [by apply stream_arrives_run|]. split_and!; [done|done| |].
  { simpl. apply elem_of_app. right. left. }
  destruct (joined payload w nickname users p) as (p3 & p4 & H3' & H4' & Hin & _ & _ & Hall);
    [done..|]. exists p3, p4. by split_and!.
Qed.

(** C32. The button can be pressed again while the browser asks the user for
    permission.  Both submissions then dial; the second takes the place of the
    listeners of the first, which never learns that the server has answered: ten
    seconds after the call has begun it times out, and the page shows that it has
    hung up and an error, while it stays connected to everyone. *)
Theorem double_join_hangs_up url payload payload2 users w w2 j :
  let p := form_page j in let nickname := form_nickname (form j) in
  let n := next_promise (promises p) in
  session url p → joinEnabled p = true →
  peers_accept → callId ≠ "" → NoDup (peerIds users) → connecting p = false →
  reactions (promises p) = [] →
  st_peers (state p) = ∅ → isRecording (st_streams (state p)) = false →
  ∃ asked j1 j2 j3 j4, handleSubmit j = (Ok (Some asked), j1) ∧ joinEnabled (form_page j1) = true ∧
    handleSubmit j1 = (Ok (Some asked), j2) ∧
    stream_arrives (inl payload) w nickname j2 = (Ok (Some n), j3) ∧
    stream_arrives (inl payload2) w2 nickname j3 = (Ok (Some (S n)), j4) ∧
    ∃ p5 p6 p7 p8, emit_event (ev_users users) (form_page j4) = (Ok tt, p5) ∧
      run_reaction p5 = (Ok tt, p6) ∧ dialState (st_media (state p6)) = DIAL_STATE_IN_CALL ∧
      dial_timeout n p6 = (Ok tt, p7) ∧ run_reaction p7 = (Ok tt, p8) ∧
      dialState (st_media (state p8)) = DIAL_STATE_HUNG_UP ∧
      (∃ id, st_notifications (state p8) !! id = Some {| n_id := id; n_type := notify_error;
         n_message := "Error: Dial timed out!" |}) ∧
      ∀ u, u ∈ peerIds users → u ≠ userId → is_Some (st_peers (state p8) !! u).
Proof.
  intros p nickname n Hs Hj Ha Hcall Hnd Hc Hr Hp Hrec.
  assert (n ∉ settled (promises p)) as Hn by (by eapply session_fresh).
  assert (S n ∉ settled (promises p)) as Hn2 by (eapply session_fresh; [exact Hs|unfold n; lia]).
  set (j2 := keep_nickname nickname (keep_nickname nickname j)).
  set (p3 := dialling_with payload w nickname p).
  set (j3 := {| form := {| form_nickname := nickname; form_error := false |};
                local_storage := local_storage j2; form_page := p3 |}).
  set (p4 := dialling_with payload2 w2 nickname p3).
  set (j4 := {| form := {| form_nickname := nickname; form_error := false |};
                local_storage := local_storage j2; form_page := p4 |}).
  eexists _, (keep_nickname nickname j), j2, j3, j4.
  split; [apply handleSubmit_run|]. split; [done|].
  split; [exact (handleSubmit_run (keep_nickname nickname j))|].
  split; [exact (stream_arrives_run payload w nickname j2 Hr Hp Hrec Hc)|].
  split; [exact (stream_arrives_run payload2 w2 nickname j3 Hr Hp Hrec Hc)|].
  destruct (joined payload2 w2 nickname users p3) as (p5 & p6 & H5' & H6' & Hin & Hr6 & Hs6 & Hall);
    [done..|].
  destruct (dial_timeout_run n p6) as (p7 & Hrun7 & Hst7 & Hl7 & Hn7 & Hr7).
  rewrite Hr6, Hs6, decide_False in Hr7.
  2:{ change (n ∉ ({[S n]} ∪ settled (promises p) : gset nat)). set_unfold.
      intros [Heq|Hin2]; [lia|done]. }
  destruct (dial_rejected_run p7 _ [] Hr7) as (p8 & id & Hrun8 & Hm8 & Hp8 & _ & Hnt8 & _).
  exists p5, p6, p7, p8. split_and!; [done..|by rewrite Hm8| |].
  - exists id. rewrite Hnt8. apply lookup_insert_eq.
  - intros u Hu Hme. destruct (Hall u Hu Hme) as (peer & p9 & Hpeer & _).
    rewrite Hp8, Hst7. by exists peer.
Qed.
End join.

(** * Instances *)

#[local] Existing Instance some_platform.
#[local] Existing Instance some_lodash.
#[local] Existing Instance some_object_keys.
#[local] Existing Instance once_streams.
#[local] Existing Instance ascii_codec.
#[local] Existing Instance some_json.
#[local] Existing Instance CallSafety.demo_window.

(** Alice has typed her name on a page whose socket is connected. *)
Definition connected_page : Page :=
  foldl (λ p ev, (run ev p).2) (opened None "Alice" "url" true)
    [socket_changes false; server_message ev_connect].

Lemma connected_session : session "url" connected_page.
Proof.
  unfold connected_page. cbn [foldl].
  apply session_step; [|exact I]. apply session_step; [|exact I]. apply session_opens.
Qed.

Definition demo_joining : Joining :=
  {| form := {| form_nickname := "Alice"; form_error := false |}; local_storage := Some None;
     form_page := connected_page |}.

Lemma demo_accepts : peers_accept.
Proof. intros log peer call. by eexists. Qed.

Lemma join_call_witness :
  ∃ j1 j2 p3 p4, handleSubmit demo_joining = (Ok (Some ("Alice",
      {| gm_video := facing_constraint facing_user; gm_audio := flag_constraint true |})), j1) ∧
    stream_arrives (inl cam_payload) cam_world "Alice" j1 = (Ok (Some 0), j2) ∧
    emit_event (ev_users (demo_users false)) (form_page j2) = (Ok tt, p3) ∧
    run_reaction p3 = (Ok tt, p4) ∧ dialState (st_media (state p4)) = DIAL_STATE_IN_CALL ∧
    ∃ peer p5, st_peers (state p4) !! "bob" = Some peer ∧
      on_peer_event peer peer_connect p4 = (Ok tt, p5) ∧
      PeerCalled peer (p_addTrack cam_track cam) ∈ effects (world p5).
Proof.
  destruct (join_call "url" cam_payload (demo_users false) cam_world
    {| error_name := "NotAllowedError"; error_message := "" |} demo_joining)
    as (j1 & H1' & _ & _ & n & j2 & H2' & _ & _ & _ & p3 & p4 & H3' & H4' & Hin & Hall).
  - exact connected_session.
  - exact demo_accepts.
  - discriminate.
  - apply (bool_decide_unpack _). vm_compute. reflexivity.
  - vm_compute. reflexivity.
  - vm_compute. reflexivity.
  - vm_compute. reflexivity.
  - vm_compute. reflexivity.
  - destruct (Hall "bob") as (peer & p5 & Hp & Hc & Ht).
    + right. left.
    + discriminate.
    + assert (j1 = (handleSubmit demo_joining).2) as Hj1 by (by rewrite H1').
      assert (n = 0) as ->.
      { assert ((stream_arrives (inl cam_payload) cam_world "Alice" j1).1 = Ok (Some 0)) as Hn
          by (rewrite Hj1; vm_compute; reflexivity).
        change (form_nickname (form demo_joining)) with "Alice" in H2'.
        rewrite H2' in Hn. by injection Hn. }
      exists j1, j2, p3, p4. split_and!; [exact H1'|exact H2'|exact H3'|exact H4'|exact Hin|].
      exists peer, p5. split_and!; [exact Hp|exact Hc|]. apply Ht. left.
Defined.

Lemma double_join_hangs_up_witness :
  ∃ j4 p5 p6 p7 p8, emit_event (ev_users (demo_users false)) (form_page j4) = (Ok tt, p5) ∧
    run_reaction p5 = (Ok tt, p6) ∧ dialState (st_media (state p6)) = DIAL_STATE_IN_CALL ∧
    dial_timeout 0 p6 = (Ok tt, p7) ∧ run_reaction p7 = (Ok tt, p8) ∧
    dialState (st_media (state p8)) = DIAL_STATE_HUNG_UP ∧
    is_Some (st_peers (state p8) !! "bob").
Proof.
  destruct (double_join_hangs_up "url" cam_payload cam_payload (demo_users false) cam_world cam_world
    demo_joining) as (asked & j1 & j2 & j3 & j4 & _ & _ & _ & _ & _ & p5 & p6 & p7 & p8 &
                      H5' & H6' & Hin & H7' & H8' & Hup & _ & Hall).
  - exact connected_session.
  - vm_compute. reflexivity.
  - exact demo_accepts.
  - discriminate.
  - apply (bool_decide_unpack _). vm_compute. reflexivity.
  - vm_compute. reflexivity.
  - vm_compute. reflexivity.
  - vm_compute. reflexivity.
  - vm_compute. reflexivity.
  - exists j4, p5, p6, p7, p8. split_and!; [exact H5'|exact H6'|exact Hin|exact H7'|exact H8'|exact Hup|].
    apply Hall; [right; left|discriminate].
Defined.
