(* ===== verification/Videos.v ===== *)
(** The videos on the page ([src/client/components/Videos.tsx], [Video.tsx]): which
    tiles are shown, which of them in the small row, and minimizing one. *)

From S2P Require Import Prelude Objects InsertableStreams InsertableCodec TextCodec Encoder Actions World Streams StreamsInv StreamsSafety Peers Media Users Notices Async Store PeerActions CallActions Chat CallSafety Session SessionSafety.

#[local] Abbreviation list := Datatypes.list.

(** * The tiles *)

(** A [StreamWithURL] that may be a [LocalStream]. *)
Inductive ShownStream :=
  | remote_shown (s : StreamWithURL)
  | local_shown (s : LocalStream).

Definition shown_stream (s : ShownStream) : StreamWithURL :=
  match s with remote_shown s => s | local_shown s => ls_stream s end.

(** [StreamProps]; flags left out are false ([Video.defaultProps]). *)
Record StreamProps := {
  sp_key : string;
  sp_stream : option ShownStream;
  sp_userId : string;
  sp_muted : bool;
  sp_localUser : bool;
  sp_mirrored : bool;
  (** the window state is ['minimized'] *)
  sp_minimized : bool;
}.

Definition isLocalStream (s : ShownStream) : bool :=
  match s with local_shown _ => true | remote_shown _ => false end.

(** ** [Video] *)

(** The [<video>] element of a tile, in a browser that knows [srcObject] or not. *)
Record VideoElement := {
  has_srcObject : bool;
  srcObject : option MediaStream;
  src : string;
  v_muted : bool;
  objectFit : string;
}.

(** After every rendering of the component: the source is only set when it is another
    one, which would start it again. *)
Definition setVideoMetaData (props : StreamProps) (video : option VideoElement) :
    option VideoElement :=
  let s := shown_stream <$> sp_stream props in
  let mediaStream := stream <$> s in
  let stream_url := s ≫= url in
  (λ v,
    let v :=
      if has_srcObject v then
        if decide (srcObject v ≠ mediaStream) then
          {| has_srcObject := true; srcObject := mediaStream; src := src v;
             v_muted := v_muted v; objectFit := objectFit v |}
        else v
      else if decide (Some (src v) ≠ stream_url) then
        {| has_srcObject := false; srcObject := srcObject v; src := default "" stream_url;
           v_muted := v_muted v; objectFit := objectFit v |}
      else v in
    {| has_srcObject := has_srcObject v; srcObject := srcObject v; src := src v;
       v_muted := sp_muted props; objectFit := objectFit v |}) <$> video.

Definition handleToggleCover (video : option VideoElement) : option VideoElement :=
  (λ v, {| has_srcObject := has_srcObject v; srcObject := srcObject v; src := src v;
           v_muted := v_muted v;
           objectFit := if decide (objectFit v = "") then "contain" else "" |}) <$> video.

(** What the element plays afterwards, whatever it was showing. *)
Lemma setVideoMetaData_plays props v :
  ∃ v', setVideoMetaData props (Some v) = Some v' ∧ v_muted v' = sp_muted props ∧
    if has_srcObject v then srcObject v' = stream ∘ shown_stream <$> sp_stream props
    else src v' = default "" (sp_stream props ≫= url ∘ shown_stream).
Proof.
  eexists. split; [reflexivity|]. split; [done|]. simpl. destruct (has_srcObject v) eqn:Hv.
  - case_decide as Hs; cbn; [by destruct (sp_stream props)|].
    rewrite Hs. by destruct (sp_stream props).
  - case_decide as Hs; cbn; [by destruct (sp_stream props)|].
    destruct (sp_stream props) as [x|]; [|done]. simpl in *. by rewrite <-Hs.
Qed.

Section videos.
Context `{ObjectKeys}.

Section tiles.
Variables (windowStates : WindowStates) (nicknames : Nicknames) (streams : StreamsState).

(** The arrays [minimized] and [maximized]. *)
Definition Lists : Type := list StreamProps * list StreamProps.

Definition addStreamProps (lists : Lists) (props : StreamProps) : Lists :=
  if sp_minimized props then (lists.1 ++ [props], lists.2) else (lists.1, lists.2 ++ [props]).

Definition addStreamsByUser (localUser : bool) (userId : string) (ss : list ShownStream)
    (lists : Lists) : Lists :=
  if decide (length ss = 0) then
    let key := getStreamKey userId None in
    addStreamProps lists
      {| sp_key := key; sp_stream := None; sp_userId := userId; sp_muted := false;
         sp_localUser := localUser; sp_mirrored := false;
         sp_minimized := bool_decide (key ∈ windowStates) |}
  else
    foldl (λ lists s,
      let key := getStreamKey userId (Some (streamId (shown_stream s))) in
      addStreamProps lists
        {| sp_key := key; sp_stream := Some s; sp_userId := userId; sp_muted := localUser;
           sp_localUser := localUser;
           sp_mirrored := localUser && match s with
             | local_shown l => bool_decide (ls_type l = StreamTypeCamera) && ls_mirror l
             | remote_shown _ => false
             end;
           sp_minimized := bool_decide (key ∈ windowStates) |}) lists ss.

Definition getStreams : Lists :=
  let lists := addStreamsByUser true ME
    (local_shown <$> (object_entries (localStreams streams)).*2) ([], []) in
  foldl (λ lists userId,
    if decide (userId ≠ ME) then
      addStreamsByUser false userId
        (match streamsByUserId streams !! userId with
         | Some us => remote_shown <$> us_streams us
         | None => []
         end) lists
    else lists) lists (object_entries nicknames).*1.

(** ** What they should be *)

(** The tile of one of a user's streams, or of a user without streams. *)
Definition tile (localUser : bool) (userId : string) (s : option ShownStream) : StreamProps :=
  let key := getStreamKey userId (streamId ∘ shown_stream <$> s) in
  {| sp_key := key; sp_stream := s; sp_userId := userId;
     sp_muted := localUser && bool_decide (is_Some s); sp_localUser := localUser;
     sp_mirrored := localUser && match s with
       | Some (local_shown l) => bool_decide (ls_type l = StreamTypeCamera) && ls_mirror l
       | _ => false
       end;
     sp_minimized := bool_decide (key ∈ windowStates) |}.

Definition tiles_of (localUser : bool) (userId : string) (ss : list ShownStream) :
    list StreamProps :=
  match ss with [] => [tile localUser userId None] | _ => tile localUser userId ∘ Some <$> ss end.

Definition streams_of_user (userId : string) : list ShownStream :=
  match streamsByUserId streams !! userId with
  | Some us => remote_shown <$> us_streams us
  | None => []
  end.

(** This user's tiles, then those of everyone else who has a nickname. *)
Definition all_tiles : list StreamProps :=
  tiles_of true ME (local_shown <$> (object_entries (localStreams streams)).*2) ++
  (filter (λ u, u ≠ ME) (object_entries nicknames).*1 ≫= λ u,
     tiles_of false u (streams_of_user u)).

Definition is_minimized (t : StreamProps) : Prop := sp_minimized t = true.
#[local] Instance is_minimized_dec t : Decision (is_minimized t).
Proof. unfold is_minimized. apply _. Defined.

Definition split_tiles (l : list StreamProps) : Lists :=
  (filter is_minimized l, filter (λ t, ¬ is_minimized t) l).

Definition append (a b : Lists) : Lists := (a.1 ++ b.1, a.2 ++ b.2).

Lemma append_assoc a b c : append (append a b) c = append a (append b c).
Proof. unfold append. simpl. by rewrite <-!(assoc_L (++)). Qed.

Lemma split_tiles_app l1 l2 : split_tiles (l1 ++ l2) = append (split_tiles l1) (split_tiles l2).
Proof. unfold split_tiles, append. simpl. by rewrite !filter_app. Qed.

Lemma addStreamProps_split lists t : addStreamProps lists t = append lists (split_tiles [t]).
Proof.
  unfold append, split_tiles. rewrite !filter_cons, !filter_nil.
  destruct (decide (is_minimized t)) as [Hm|Hm].
  - rewrite decide_False by (by intros []). unfold addStreamProps. rewrite Hm. simpl.
    by rewrite app_nil_r.
  - rewrite decide_True by done. unfold addStreamProps. unfold is_minimized in Hm.
    destruct (sp_minimized t); [done|]. simpl. by rewrite app_nil_r.
Qed.

Lemma addStreams_split u userId ss : ∀ lists,
  addStreamsByUser u userId ss lists = append lists (split_tiles (tiles_of u userId ss)).
Proof.
  intros lists. unfold addStreamsByUser. case_decide as Hl.
  - apply nil_length_inv in Hl as ->. rewrite addStreamProps_split. cbn [tiles_of].
    unfold tile. simpl. by rewrite !andb_false_r.
  - assert (tiles_of u userId ss = tile u userId ∘ Some <$> ss) as -> by (by destruct ss).
    clear Hl. revert lists. induction ss as [|s ss IH]; intros lists.
    { unfold append. simpl. rewrite !filter_nil, !app_nil_r. by destruct lists. }
    cbn [foldl fmap list_fmap]. rewrite IH, addStreamProps_split, append_assoc, <-split_tiles_app.
    match goal with |- context [split_tiles ([?x] ++ _)] =>
      assert (x = tile u userId (Some s)) as ->; [|done] end.
    unfold tile. rewrite (bool_decide_true (is_Some _)) by done. rewrite andb_true_r.
    by destruct s.
Qed.

(** The loops that fill the two rows come to the filters of one list: the tiles of
    this user's streams, muted, mirrored as their camera says, then those of each
    other user with a nickname, an empty one for a user without streams; those
    minimized go to the small row, the others to the grid, both in this order. *)
Lemma getStreams_filters :
  getStreams = (filter is_minimized all_tiles, filter (λ t, ¬ is_minimized t) all_tiles).
Proof.
  change (getStreams = split_tiles all_tiles). unfold getStreams, all_tiles.
  rewrite addStreams_split. rewrite split_tiles_app.
  assert (append ([], []) (split_tiles (tiles_of true ME
    (local_shown <$> (object_entries (localStreams streams)).*2))) = split_tiles (tiles_of true ME
    (local_shown <$> (object_entries (localStreams streams)).*2))) as -> by done.
  generalize (split_tiles (tiles_of true ME
    (local_shown <$> (object_entries (localStreams streams)).*2))). intros lists.
  revert lists. induction (object_entries nicknames).*1 as [|u us IH]; intros lists.
  { unfold append. simpl. rewrite !app_nil_r. by destruct lists. }
  cbn [foldl]. rewrite IH, filter_cons. destruct (decide (u ≠ ME)); [|done].
  rewrite addStreams_split, append_assoc. f_equal. cbn [mbind list_bind].
  by rewrite split_tiles_app.
Qed.

End tiles.

(** * Minimizing *)

Definition set_minimized (b : bool) (t : StreamProps) : StreamProps :=
  {| sp_key := sp_key t; sp_stream := sp_stream t; sp_userId := sp_userId t;
     sp_muted := sp_muted t; sp_localUser := sp_localUser t; sp_mirrored := sp_mirrored t;
     sp_minimized := b |}.

(** A tile knows of the window states only whether it is minimized. *)
Lemma all_tiles_windowStates ws ws' names streams :
  all_tiles ws' names streams =
  (λ t, set_minimized (bool_decide (sp_key t ∈ ws')) t) <$> all_tiles ws names streams.
Proof.
  assert (∀ l u ss, tiles_of ws' l u ss =
    (λ t, set_minimized (bool_decide (sp_key t ∈ ws')) t) <$> tiles_of ws l u ss) as Hof.
  { intros l u ss. destruct ss as [|s ss]; [done|]. cbn [tiles_of].
    rewrite <-list_fmap_compose. apply list_fmap_ext. by intros i x _. }
  unfold all_tiles. rewrite fmap_app, Hof. f_equal.
  induction (filter (λ u, u ≠ ME) (object_entries names).*1) as [|u us IH]; [done|].
  cbn [mbind list_bind]. by rewrite fmap_app, Hof, IH.
Qed.

Lemma tiles_of_key ws l u ss t :
  t ∈ tiles_of ws l u ss →
  sp_key t = getStreamKey (sp_userId t) (streamId ∘ shown_stream <$> sp_stream t) ∧
  sp_minimized t = bool_decide (sp_key t ∈ ws) ∧ sp_userId t = u ∧ sp_localUser t = l ∧
  (∀ s, sp_stream t = Some s → s ∈ ss) ∧ t = tile ws l u (sp_stream t).
Proof.
  destruct ss as [|s0 ss]; cbn [tiles_of].
  - by intros ->%list_elem_of_singleton.
  - intros (s & -> & Hs)%list_elem_of_fmap. by split_and!; [..|intros s' [= <-]|].
Qed.

Lemma all_tiles_key ws names streams t :
  t ∈ all_tiles ws names streams →
  sp_key t = getStreamKey (sp_userId t) (streamId ∘ shown_stream <$> sp_stream t) ∧
  sp_minimized t = bool_decide (sp_key t ∈ ws).
Proof.
  unfold all_tiles. intros [Ht|(u & Ht & _)%list_elem_of_bind]%elem_of_app;
    by apply tiles_of_key in Ht as (? & ? & _).
Qed.

Lemma elem_of_minimizeToggle ws u sid k :
  k ∈ minimizeToggle ws u sid ↔
  if decide (k = getStreamKey u sid) then k ∉ ws else k ∈ ws.
Proof.
  unfold minimizeToggle, minimize, unminimize. case_decide as Hk; case_decide; subst; set_solver.
Qed.
End videos.

(** * On the page *)

Lemma filter_all {A} (P : A → Prop) `{∀ x, Decision (P x)} (l : list A) :
  (∀ x, x ∈ l → P x) → filter P l = l.
Proof.
  induction l as [|x l IH]; intros Hl; [done|].
  rewrite filter_cons_True by (apply Hl; left). f_equal. apply IH. intros y Hy. apply Hl. by right.
Qed.

Lemma filter_none {A} (P : A → Prop) `{∀ x, Decision (P x)} (l : list A) :
  (∀ x, x ∈ l → ¬ P x) → filter P l = [].
Proof.
  induction l as [|x l IH]; intros Hl; [done|].
  rewrite filter_cons_False by (apply Hl; left). apply IH. intros y Hy. apply Hl. by right.
Qed.

Section page.
Context `{Platform} `{Lodash} `{ObjectKeys} `{EncodedStreams} `{TextCodec} `{!JSON} `{Window}.

Definition page_tiles (p : Page) : list StreamProps :=
  all_tiles (st_windowStates (state p)) (st_nicknames (state p)) (st_streams (state p)).

(** [Video.play]: the elements on the page are asked to play. *)
Definition Video_play (props : StreamProps) : eff Page unit :=
  match sp_stream props with
  | Some _ => dispatch (promised {| pa_type := MEDIA_PLAY; pa_promise := 0 |})
  | None => mret tt
  end.

(** [Video.handleMinimize] of the tile with these properties. *)
Definition handleMinimize (props : StreamProps) : eff Page unit :=
  dispatch_plain (MinimizeToggleAction (sp_userId props)
    (streamId ∘ shown_stream <$> sp_stream props)).

(** Minimizing a tile, or maximizing it, moves it to the other row, with every
    tile that has the same key, and leaves all others where they are. *)
Theorem minimize_moves_tile t p :
  t ∈ page_tiles p →
  ∃ p', handleMinimize t p = (Ok tt, p') ∧ world p' = world p ∧
    page_tiles p' = (λ t', if decide (sp_key t' = sp_key t)
                           then set_minimized (negb (sp_minimized t')) t' else t') <$> page_tiles p.
Proof.
  intros Ht. eexists. split; [|split].
  - unfold handleMinimize. destruct p as [[] ? ? ? ? ? ? ? ?]. reflexivity.
  - by destruct p.
  - unfold page_tiles in *. destruct (all_tiles_key _ _ _ _ Ht) as [Hkey _].
    destruct p as [[? ? ? names ? streams ws] ? ? ? ? ? ? ? ?].
    cbn [state st_windowStates st_nicknames st_streams] in *.
    erewrite (all_tiles_windowStates ws). apply list_fmap_ext. intros i t' Hi.
    apply list_elem_of_lookup_2, all_tiles_key in Hi as [Hkey' Hm].
    match goal with |- context [sp_key t' ∈ ?toggled] =>
      change toggled with (minimizeToggle ws (sp_userId t) (streamId ∘ shown_stream <$> sp_stream t)) end.
    destruct (decide (sp_key t' = sp_key t)) as [Hk|Hk].
    + f_equal. rewrite Hm. apply eq_bool_prop_intro.
      rewrite negb_True, !bool_decide_spec, elem_of_minimizeToggle, decide_True by congruence. done.
    + rewrite (bool_decide_ext _ (sp_key t' ∈ ws)), <-Hm; [by destruct t'|].
      rewrite elem_of_minimizeToggle, decide_False by congruence. done.
Qed.

(** ** Tracks on the screen *)

(** The tile's stream holds the track. *)
Definition shows (w : World) (t : StreamProps) (track : MediaStreamTrack) : Prop :=
  ∃ s, sp_stream t = Some s ∧ track ∈ tracks_of w (stream (shown_stream s)).

Definition remote_tiles ws (names : Nicknames) (ss : StreamsState) : list StreamProps :=
  filter (λ u, u ≠ ME) (object_entries names).*1 ≫= λ u, tiles_of ws false u (streams_of_user ss u).

Lemma streams_of_user_streams ss u : streams_of_user ss u = remote_shown <$> streams_of ss u.
Proof. unfold streams_of_user, streams_of. by destruct (streamsByUserId ss !! u). Qed.

Lemma elem_of_remote_tiles ws names ss t :
  t ∈ remote_tiles ws names ss →
  sp_localUser t = false ∧ sp_userId t ≠ ME ∧ is_Some (names !! sp_userId t) ∧
  (∀ s, sp_stream t = Some s → ∃ sw, s = remote_shown sw ∧ sw ∈ streams_of ss (sp_userId t)) ∧
  t = tile ws false (sp_userId t) (sp_stream t).
Proof.
  intros (u & Ht & [Hu Hin]%list_elem_of_filter)%list_elem_of_bind.
  apply tiles_of_key in Ht as (_ & _ & -> & -> & Hs & Ht). split_and!; [done|done| | |done].
  - by apply object_entries_key.
  - intros s Hin'%Hs. rewrite streams_of_user_streams in Hin'.
    apply list_elem_of_fmap in Hin' as (sw & -> & Hsw). by exists sw.
Qed.

(** Everyone who has a nickname has a tile. *)
Lemma nickname_tile ws names ss u :
  u ≠ ME → is_Some (names !! u) → ∃ t, t ∈ remote_tiles ws names ss ∧ sp_userId t = u.
Proof.
  intros Hu Hn. assert (∃ s, tile ws false u s ∈ tiles_of ws false u (streams_of_user ss u)) as [s Hs].
  { unfold tiles_of. destruct (streams_of_user ss u) as [|s l]; [exists None; left|exists (Some s); left]. }
  exists (tile ws false u s). split; [|done]. apply list_elem_of_bind. exists u. split; [done|].
  apply list_elem_of_filter. split; [done|]. by apply object_entries_key.
Qed.

Lemma NoDup_remote_tiles ws names ss :
  (∀ u, NoDup (streamId <$> streams_of ss u)) → NoDup (remote_tiles ws names ss).
Proof.
  intros Hnd. unfold remote_tiles. apply NoDup_bind.
  - intros u1 u2 t _ _ Ht1 Ht2. apply tiles_of_key in Ht1 as (_ & _ & <- & _).
    by apply tiles_of_key in Ht2 as (_ & _ & <- & _).
  - intros u _. rewrite streams_of_user_streams.
    assert (NoDup (streams_of ss u)) as Hu by (eapply NoDup_fmap_1, Hnd).
    destruct (streams_of ss u) as [|sw l]; [apply NoDup_singleton|]. cbn [tiles_of fmap list_fmap].
    change (NoDup (tile ws false u ∘ Some <$> (remote_shown <$> (sw :: l)))).
    rewrite <-list_fmap_compose. apply NoDup_fmap_2_strong; [|done].
    by intros x y _ _ [= ? [= ?]].
  - apply NoDup_filter, object_entries_keys.
Qed.

(** The tiles of the others in the two rows, as [getStreams] fills them. *)
Lemma others_in_rows ws names ss :
  let rows := getStreams ws names ss in
  filter (λ t, sp_localUser t = false) (rows.1 ++ rows.2) ≡ₚ remote_tiles ws names ss.
Proof.
  intros rows. unfold rows. rewrite getStreams_filters. cbn [fst snd].
  rewrite filter_app_complement. unfold all_tiles. rewrite filter_app.
  fold (remote_tiles ws names ss). rewrite (filter_none _ (tiles_of _ true _ _)), filter_all; [done| |].
  - intros t Ht. by apply elem_of_remote_tiles in Ht as [? _].
  - intros t Ht. apply tiles_of_key in Ht as (_ & _ & _ & -> & _). done.
Qed.

(** A stream of another user who has a nickname has its tile. *)
Lemma stream_tile ws names ss u sw :
  sw ∈ streams_of ss u → u ≠ ME → is_Some (names !! u) →
  tile ws false u (Some (remote_shown sw)) ∈ remote_tiles ws names ss.
Proof.
  intros Hsw Hu Hnick. apply list_elem_of_bind. exists u. split.
  - rewrite streams_of_user_streams.
    assert (remote_shown sw ∈ remote_shown <$> streams_of ss u) as Hin by by apply list_elem_of_fmap_2.
    destruct (remote_shown <$> _); [by apply not_elem_of_nil in Hin|].
    cbn [tiles_of]. by apply (list_elem_of_fmap_2 (tile _ false u ∘ Some)).
  - apply list_elem_of_filter. split; [done|]. by apply object_entries_key.
Qed.

(** Tiles of the others that show the same track are the same. *)
Lemma same_track_tile D ws names ss w t t' track :
  streams_inv D ss w → t ∈ remote_tiles ws names ss → t' ∈ remote_tiles ws names ss →
  shows w t track → shows w t' track → t' = t.
Proof.
  intros Hi Ht Ht' (s & Hst & Htr) (s' & Hst' & Htr').
  apply elem_of_remote_tiles in Ht as (_ & _ & _ & Hs & Ht), Ht' as (_ & _ & _ & Hs' & Ht').
  destruct (Hs s Hst) as (sw & -> & Hsw), (Hs' s' Hst') as (sw' & -> & Hsw').
  destruct (associated_unique _ _ _ _ _ _ _ _ (inv_maps _ _ _ Hi)
    (proj1 (inv_display _ _ _ Hi _ _ track) (ex_intro _ sw' (conj Hsw' (conj eq_refl Htr'))))
    (proj1 (inv_display _ _ _ Hi _ _ track) (ex_intro _ sw (conj Hsw (conj eq_refl Htr))))) as [Hu Hsid].
  rewrite Hu in Hsw'. assert (sw' = sw) as ->.
  { pose proof (js_find_unique streamId _ _ (so_ids _ _ (inv_streams _ _ _ Hi) _) Hsw) as Hf.
    pose proof (js_find_unique streamId _ _ (so_ids _ _ (inv_streams _ _ _ Hi) _) Hsw') as Hf'.
    rewrite Hsid, Hf in Hf'. by injection Hf'. }
  by rewrite Ht, Ht', Hu, Hst, Hst'.
Qed.

(** C15. Throughout a session: a track that is associated with another user who has a
    nickname is on the screen, on exactly one of the tiles of the other users in the
    two rows, that user's; once the tile is rendered, whatever its video element
    was playing, it plays the stream with the track, and not muted; and no tile of
    theirs shows a track that is not associated with its user. *)
Theorem track_on_one_tile url p :
  session url p →
  let rows := getStreams (st_windowStates (state p)) (st_nicknames (state p)) (st_streams (state p)) in
  let tiles := filter (λ t, sp_localUser t = false) (rows.1 ++ rows.2) in
  let associated := associated (tracksByPeerIdMid (st_streams (state p))) in
  (∀ t track, t ∈ tiles → shows (world p) t track →
     ∃ sid, associated (sp_userId t) sid track) ∧
  ∀ u sid track, associated u sid track → u ≠ ME → is_Some (st_nicknames (state p) !! u) →
    ∃ i t, tiles !! i = Some t ∧ sp_userId t = u ∧ shows (world p) t track ∧
      (∀ v, has_srcObject v = true → ∃ v' x, setVideoMetaData t (Some v) = Some v' ∧
         srcObject v' = Some x ∧ track ∈ tracks_of (world p) x ∧ v_muted v' = false) ∧
      ∀ j t', tiles !! j = Some t' → shows (world p) t' track → j = i.
Proof.
  intros (L & [_ [[Hi _] _ _ _ _ _]] & _)%session_inv rows tiles associated.
  assert (tiles ≡ₚ remote_tiles (st_windowStates (state p)) (st_nicknames (state p)) (st_streams (state p)))
    as Hp by apply others_in_rows.
  split.
  - intros t track Ht (s & Hst & Htrack). rewrite Hp in Ht.
    apply elem_of_remote_tiles in Ht as (_ & _ & _ & Hs & _).
    destruct (Hs s Hst) as (sw & -> & Hsw). exists (streamId sw).
    apply (inv_display _ _ _ Hi). by exists sw.
  - intros u sid track Hassoc Hu Hnick.
    pose proof (proj2 (inv_display _ _ _ Hi u sid track) Hassoc) as (sw & Hsw & Hsid & Htrack).
    set (t := tile (st_windowStates (state p)) false u (Some (remote_shown sw))).
    assert (t ∈ tiles) as Hin by (rewrite Hp; by apply stream_tile).
    apply list_elem_of_lookup in Hin as [i Hi']. exists i, t. split_and!; [done|done|by eexists| |].
    { intros v Hv. destruct (setVideoMetaData_plays t v) as (v' & Hset & Hm & Hv').
      rewrite Hv in Hv'. by exists v', (stream sw). }
    intros j t' Hj Hsh. assert (t' = t) as ->.
    { eapply (same_track_tile _ _ _ _ _ t t' track Hi); [..|by eexists|done];
        rewrite <-Hp; by eapply list_elem_of_lookup_2. }
    eapply NoDup_lookup; [|exact Hj|exact Hi'].
    rewrite Hp. apply NoDup_remote_tiles, (inv_streams _ _ _ Hi).
Qed.
End page.

(** * Instances *)

#[local] Existing Instance some_platform.
#[local] Existing Instance some_lodash.
#[local] Existing Instance some_object_keys.
#[local] Existing Instance once_streams.
#[local] Existing Instance ascii_codec.
#[local] Existing Instance some_json.
#[local] Existing Instance CallSafety.demo_window.

(** Bob's tile on Alice's page; Carol has none of her streams there yet. *)
Definition bob_tile : StreamProps :=
  tile ∅ false "bob" (remote_shown <$> head (streams_of (st_streams (state (demo_page 4))) "bob")).

Lemma minimize_moves_tile_witness :
  ∃ p', handleMinimize bob_tile (demo_page 4) = (Ok tt, p') ∧
    map (λ t, (sp_key t, sp_minimized t)) (page_tiles p') =
    [("_me__undefined", false); ("carol_undefined", false); ("bob_bob-camera", true)].
Proof.
  destruct (minimize_moves_tile bob_tile (demo_page 4)) as (p' & Hrun & _ & Htiles).
  - apply list_elem_of_lookup. exists 2. vm_compute. reflexivity.
  - exists p'. split; [exact Hrun|]. rewrite Htiles. vm_compute. reflexivity.
Defined.

Lemma track_on_one_tile_witness :
  let p := demo_page 4 in
  let rows := getStreams (st_windowStates (state p)) (st_nicknames (state p)) (st_streams (state p)) in
  ∃ i t, filter (λ t, sp_localUser t = false) (rows.1 ++ rows.2) !! i = Some t ∧
    sp_userId t = "bob" ∧ shows (world p) t demo_track.
Proof.
  destruct (track_on_one_tile "url" (demo_page 4) demo_session) as (_ & Hall).
  destruct (Hall "bob" "bob-camera" demo_track) as (i & t & Hi & Hu & Hs & _ & _).
  - eexists "bob::0", _. split_and!; vm_compute; reflexivity.
  - discriminate.
  - eexists. vm_compute. reflexivity.
  - exists i, t. split_and!; [exact Hi|exact Hu|exact Hs].
Defined.
