(* ===== verification/Screen.v ===== *)
(** What the user does ([src/client/components/App.tsx], [Toolbar.tsx], [Input.tsx]):
    the handlers of the page's buttons and inputs, with the state of their
    components, over the page. *)

From S2P Require Import Prelude Objects InsertableStreams InsertableCodec TextCodec Encoder Actions World Streams Peers Media Users Notices Async Store PeerActions CallActions Chat.

#[local] Abbreviation list := Datatypes.list.

(** * The components' state *)

(** [App], [Toolbar] and [Input]; and what is in the passphrase input, which is not in
    any component's state. *)
Record Ui := {
  chatVisible : bool;
  hidden : bool;
  readMessages : N;
  encryptionDialogVisible : bool;
  encrypted : bool;
  copiedToastStatus : bool;
  typed_message : string;
  passphrase : string;
}.

Record Screen := {
  ui : Ui;
  page : Page;
}.

(** The toolbar is built with the number of messages there are. *)
Definition new_ui (messagesCount : N) : Ui := {|
  chatVisible := false; hidden := false; readMessages := messagesCount;
  encryptionDialogVisible := false; encrypted := false; copiedToastStatus := false;
  typed_message := ""; passphrase := "" |}.

(** ** [setState] *)

Definition set_chatVisible (b : bool) (u : Ui) : Ui :=
  {| chatVisible := b; hidden := hidden u; readMessages := readMessages u;
     encryptionDialogVisible := encryptionDialogVisible u; encrypted := encrypted u;
     copiedToastStatus := copiedToastStatus u; typed_message := typed_message u;
     passphrase := passphrase u |}.
Definition set_hidden (b : bool) (u : Ui) : Ui :=
  {| chatVisible := chatVisible u; hidden := b; readMessages := readMessages u;
     encryptionDialogVisible := encryptionDialogVisible u; encrypted := encrypted u;
     copiedToastStatus := copiedToastStatus u; typed_message := typed_message u;
     passphrase := passphrase u |}.
Definition set_readMessages (n : N) (u : Ui) : Ui :=
  {| chatVisible := chatVisible u; hidden := hidden u; readMessages := n;
     encryptionDialogVisible := encryptionDialogVisible u; encrypted := encrypted u;
     copiedToastStatus := copiedToastStatus u; typed_message := typed_message u;
     passphrase := passphrase u |}.
Definition set_encryption (dialog locked : bool) (u : Ui) : Ui :=
  {| chatVisible := chatVisible u; hidden := hidden u; readMessages := readMessages u;
     encryptionDialogVisible := dialog; encrypted := locked;
     copiedToastStatus := copiedToastStatus u; typed_message := typed_message u;
     passphrase := passphrase u |}.
Definition set_copiedToastStatus (b : bool) (u : Ui) : Ui :=
  {| chatVisible := chatVisible u; hidden := hidden u; readMessages := readMessages u;
     encryptionDialogVisible := encryptionDialogVisible u; encrypted := encrypted u;
     copiedToastStatus := b; typed_message := typed_message u; passphrase := passphrase u |}.
Definition set_typed_message (s : string) (u : Ui) : Ui :=
  {| chatVisible := chatVisible u; hidden := hidden u; readMessages := readMessages u;
     encryptionDialogVisible := encryptionDialogVisible u; encrypted := encrypted u;
     copiedToastStatus := copiedToastStatus u; typed_message := s; passphrase := passphrase u |}.
Definition set_passphrase (s : string) (u : Ui) : Ui :=
  {| chatVisible := chatVisible u; hidden := hidden u; readMessages := readMessages u;
     encryptionDialogVisible := encryptionDialogVisible u; encrypted := encrypted u;
     copiedToastStatus := copiedToastStatus u; typed_message := typed_message u;
     passphrase := s |}.

Definition setState (f : Ui → Ui) : eff Screen unit :=
  modify (λ s, {| ui := f (ui s); page := page s |}).

(** An operation of the page. *)
Definition on_page {A} (m : eff Page A) : eff Screen A := λ s,
  let '(r, p) := m (page s) in (r, {| ui := ui s; page := p |}).

(** * What is shown *)

Definition messagesCount (s : Screen) : N := count (st_messages (state (page s))).

(** The badge on the chat button, and whether it blinks. *)
Definition unreadCount (s : Screen) : Z := Z.of_N (messagesCount s) - Z.of_N (readMessages (ui s)).
Definition blinks (s : Screen) : bool := negb (chatVisible (ui s)) && (0 <? unreadCount s)%Z.

Definition toolbar_hidden (s : Screen) : bool := chatVisible (ui s) || hidden (ui s).

Definition isInCall (s : Screen) : bool :=
  bool_decide (dialState (st_media (state (page s))) = DIAL_STATE_IN_CALL).

(** ** The invitation *)

(** Through the browser's own dialog, or as text on the clipboard. *)
Inductive Invitation :=
  | shared (title text url : string)
  | copied (text : string).

Section screen.
Context `{Platform} `{Lodash} `{ObjectKeys} `{EncodedStreams} `{TextCodec} `{!JSON} `{Window}.

Definition newline : string := String (Ascii.ascii_of_nat 10) EmptyString.

Definition copyInvitationURL (canShare : bool) (nickname link : string) : Invitation :=
  let text := nickname +:+ " has invited you to a meeting on MeeTiNG" in
  if canShare then shared "MeeTiNG" text link
  else copied (text +:+ ". " +:+ newline +:+ "Room: " +:+ callId +:+ " " +:+ newline +:+
               "Link: " +:+ link).

(** * [App] *)

Definition handleShowChat : eff Screen unit := setState (set_chatVisible true).
Definition handleHideChat : eff Screen unit := setState (set_chatVisible false).
Definition App_handleToggleChat : eff Screen unit :=
  visible ← gets (λ s, chatVisible (ui s));
  if (visible : bool) then handleHideChat else handleShowChat.

Definition App_handleToggleRecord : eff Screen unit :=
  status ← gets (λ s, recordStatus (st_media (state (page s))));
  on_page (socket_emit (sent_record (negb status))).

(** The local streams are those there were when the button was pressed. *)
Definition onHangup : eff Page unit :=
  locals ← gets (λ p, localStreams (st_streams (state p)));
  for_each (λ '(_, s),
    dispatch_plain (RemoveLocalStreamAction (stream (ls_stream s)) (ls_type s)))
    (object_entries locals) ≫= λ _,
  hangUp_call.

(** * [Toolbar] *)

(** A click on the page, on an element with the given tag name. *)
Definition toggleHidden (tagName : string) : eff Screen unit :=
  if decide (tagName = "DIV" ∨ tagName = "VIDEO")
  then setState (λ u, set_hidden (negb (hidden u)) u) else mret tt.

Definition toggleEncryptionDialog : eff Screen unit :=
  setState (λ u, set_encryption (negb (encryptionDialogVisible u)) (encrypted u) u).

Definition setPassword : eff Screen unit :=
  key ← gets (λ s, passphrase (ui s));
  setState (set_passphrase "") ≫= λ _,
  sent ← on_page (lift (codec_op (SetPassword key)));
  setState (set_encryption false ((sent : bool) && bool_decide (key ≠ ""))).

Definition setPasswordOnEnter (key : string) : eff Screen unit :=
  if decide (key = "Enter") then setPassword else mret tt.

Definition handleToggleChat : eff Screen unit :=
  n ← gets messagesCount;
  setState (set_readMessages n) ≫= λ _,
  App_handleToggleChat.

(** Whether the browser was asked for the desktop. *)
Definition handleToggleShareDesktop : eff Page bool :=
  desktop ← gets (λ p, localStreams (st_streams (state p)) !! stream_type_key StreamTypeDesktop);
  match desktop with
  | Some s =>
    dispatch_plain (RemoveLocalStreamAction (stream (ls_stream s)) (ls_type s)) ≫= λ _, mret false
  | None =>
    dispatch (promised {| pa_type := MEDIA_STREAM; pa_promise := 0 |}) ≫= λ _, mret true
  end.

Definition handleToggleRecord : eff Screen unit :=
  status ← gets (λ s, recordStatus (st_media (state (page s))));
  App_handleToggleRecord ≫= λ _,
  if (status : bool) then mret tt else setState (set_copiedToastStatus true).

(** After two and a half seconds. *)
Definition hide_toast : eff Screen unit := setState (set_copiedToastStatus false).

(** * [Input] *)

Definition handleChange (value : string) : eff Screen unit := setState (set_typed_message value).

(** [timestamp]: the present in ISO format. *)
Definition submit (timestamp : string) : eff Screen unit :=
  message ← gets (λ s, typed_message (ui s));
  (if decide (message = "") then mret tt
   else on_page (dispatch_plain (sendText message timestamp))) ≫= λ _,
  setState (set_typed_message "").

Definition handleKeyPress (key : string) (shiftKey : bool) (timestamp : string) : eff Screen unit :=
  if decide (key = "Enter" ∧ shiftKey = false) then submit timestamp else mret tt.

Definition handleSmileClick (innerHTML : string) : eff Screen unit :=
  setState (λ u, set_typed_message (typed_message u +:+ innerHTML) u).

(** The files chosen, with what the reader makes of each. *)
Definition handleSelectFiles (has_FileReader : bool)
    (files : list (string * Z * string * string * string)) : eff Screen unit :=
  for_each (λ '(name, size, type, data, timestamp),
    on_page (sendFile has_FileReader name size type data timestamp)) files.
End screen.
