(* ===== verification/ScreenSafety.v ===== *)
(** The theorems on what the user does: unread messages, and hanging up. *)

From S2P Require Import Prelude Objects InsertableStreams InsertableCodec TextCodec Encoder Actions World Logic Streams StreamsInv StreamsLocal Peers Media Users Notices Async Store PeerActions CallActions Chat CallSafety Session SessionSafety PageRules Screen.

#[local] Abbreviation list := Datatypes.list.

Section screen.
Context `{Platform} `{Lodash} `{ObjectKeys} `{EncodedStreams} `{TextCodec} `{!JSON} `{Window}.

(** * Unread messages *)

Definition is_chat (a : Action) : Prop := match a with MessageAddAction _ => True | _ => False end.
#[local] Instance is_chat_dec a : Decision (is_chat a).
Proof. destruct a; apply _. Defined.

Lemma count_messages time actions : ∀ s,
  count (foldl (messages toLocaleString time) s actions) =
  (count s + N.of_nat (length (filter is_chat actions)))%N.
Proof.
  induction actions as [|a actions IH]; intros s; [simpl; lia|].
  cbn [foldl]. rewrite IH, filter_cons. destruct a; simpl; try lia. destruct payload; simpl; lia.
Qed.

Lemma handleToggleChat_run s :
  handleToggleChat s = (Ok tt,
    {| ui := set_chatVisible (negb (chatVisible (ui s))) (set_readMessages (messagesCount s) (ui s));
       page := page s |}).
Proof.
  unfold handleToggleChat, App_handleToggleChat, mbind, eff_bind, gets. simpl.
  by destruct (chatVisible (ui s)).
Qed.

Lemma all_read s : unreadCount s = 0%Z ↔ messagesCount s = readMessages (ui s).
Proof. unfold unreadCount. lia. Qed.

(** The chat opened and closed with its button leaves no message unread; closed
    with its cross, it leaves unread, and blinking, every message that came while it
    was open, although each was on the screen. *)
Theorem cross_leaves_unread time s q actions :
  chatVisible (ui s) = false →
  st_messages (state q) =
    foldl (messages toLocaleString time) (st_messages (state (page s))) actions →
  let came := length (filter is_chat actions) in
  ∃ s1, handleToggleChat s = (Ok tt, s1) ∧ chatVisible (ui s1) = true ∧ unreadCount s1 = 0%Z ∧
    let s2 := {| ui := ui s1; page := q |} in
    blinks s2 = false ∧
    (∃ s3, handleToggleChat s2 = (Ok tt, s3) ∧ chatVisible (ui s3) = false ∧
       unreadCount s3 = 0%Z ∧ blinks s3 = false) ∧
    (∃ s3, handleHideChat s2 = (Ok tt, s3) ∧ chatVisible (ui s3) = false ∧
       unreadCount s3 = Z.of_nat came ∧ blinks s3 = (0 <? came)).
Proof.
  intros Hv Hq came. rewrite handleToggleChat_run, Hv.
  eexists. split; [reflexivity|]. split; [done|]. split; [by apply all_read|]. split; [done|].
  set (u := set_chatVisible _ _). split.
  - rewrite handleToggleChat_run. eexists. split; [reflexivity|].
    split; [done|]. split; [by apply all_read|]. unfold blinks.
    by rewrite (proj2 (all_read _)).
  - set (s3 := {| ui := set_chatVisible false u; page := q |}). exists s3.
    assert (unreadCount s3 = Z.of_nat came) as Hun.
    { unfold unreadCount, messagesCount, s3, u. cbn -[messages filter].
      rewrite Hq, count_messages. fold came. unfold messagesCount. lia. }
    split_and!; [done|done|exact Hun|]. unfold blinks. rewrite Hun. simpl.
    destruct came; [done|]. by apply Z.ltb_lt.
Qed.

(** * Hanging up *)

(** Each local stream is kept under its own type. *)
Definition local_keys (s : StreamsState) : Prop :=
  ∀ k ls, localStreams s !! k = Some ls → k = stream_type_key (ls_type ls).

(** No track is stopped among these effects. *)
Definition no_stops (es : list Effect) : Prop := ∀ t, TrackStopped t ∉ es.

Lemma no_stops_app es1 es2 : no_stops es1 → no_stops es2 → no_stops (es1 ++ es2).
Proof. intros H1' H2' t [?%H1'|?%H2']%elem_of_app; done. Qed.

Lemma no_stops_concat {A} (f : A → list Effect) l : (∀ x, no_stops (f x)) → no_stops (concat (f <$> l)).
Proof. intros Hf t (x & _ & Ht)%elem_of_concat_inv. by apply (Hf x t). Qed.

Lemma no_stops_one e : (∀ t, e ≠ TrackStopped t) → no_stops [e].
Proof. intros He t Ht%list_elem_of_singleton. by apply (He t). Qed.

(** Taking a stream from every peer: an exception of theirs is ignored. *)
Definition untrack_calls (ps : PeersState) (x : MediaStream) (w : World) : list Effect :=
  concat ((λ peer, concat ((λ t, [PeerCalled peer (p_removeTrack t x)]) <$> tracks_of w x)) <$>
          peer_list ps).

Lemma removeTrackFromPeer_emits peer t x :
  emits (removeTrackFromPeer peer t x) (λ _, [PeerCalled peer (p_removeTrack t x)]).
Proof.
  intros w. unfold removeTrackFromPeer, catch, mbind, eff_bind, call_peer.
  by destruct (peer_call (effects w) peer (p_removeTrack t x)).
Qed.

Lemma peers_untrack ps x type w :
  peers ps (RemoveLocalStreamAction x type) w = (Ok ps, add_effects (untrack_calls ps x w) w).
Proof.
  cbn [peers]. unfold handleRemoveLocalStream.
  assert (emits (for_each (λ peer, tracks ← getTracks x;
      for_each (λ track, removeTrackFromPeer peer track x) tracks) (peer_list ps))
    (untrack_calls ps x)) as Hrun.
  { apply (emits_for_each _ (λ peer w,
      concat ((λ t, [PeerCalled peer (p_removeTrack t x)]) <$> tracks_of w x))); [|done].
    intros peer w'. rewrite (bind_runs _ _ w' (tracks_of w' x) w') by done.
    apply (emits_for_each _ (λ t _, [PeerCalled peer (p_removeTrack t x)]));
      [intros t; apply removeTrackFromPeer_emits|done]. }
  by rewrite (bind_runs _ _ _ _ _ (Hrun w)).
Qed.

Lemma untrack_no_stops ps x w : no_stops (untrack_calls ps x w).
Proof. apply no_stops_concat. intros peer. apply no_stops_concat. intros t. by apply no_stops_one. Qed.

(** What is left of a page when local streams have been removed from it. *)
Record untracked (keys : list string) (p p' : Page) : Prop := {
  un_locals k : localStreams (st_streams (state p')) !! k =
    if decide (k ∈ keys) then None else localStreams (st_streams (state p)) !! k;
  un_remote : streamsByUserId (st_streams (state p')) = streamsByUserId (st_streams (state p));
  un_recording : isRecording (st_streams (state p')) = isRecording (st_streams (state p));
  un_peers : st_peers (state p') = st_peers (state p);
  un_tracks : stream_tracks (world p') = stream_tracks (world p);
  un_instance : peerInstance (world p') = peerInstance (world p);
  un_connecting : connecting p' = connecting p;
  un_media : st_media (state p') = st_media (state p);
  un_effects : ∃ es, effects (world p') = effects (world p) ++ es ∧ no_stops es;
}.

Lemma untracked_trans ks1 ks2 p1 p2 p3 :
  untracked ks1 p1 p2 → untracked ks2 p2 p3 → untracked (ks1 ++ ks2) p1 p3.
Proof.
  intros [Hl Hr Hrec Hp Ht Hi Hc Hm (es & He & Hn)]
    [Hl' Hr' Hrec' Hp' Ht' Hi' Hc' Hm' (es' & He' & Hn')].
  split; try congruence.
  - intros k. rewrite Hl', Hl. repeat case_decide; set_solver.
  - exists (es ++ es'). split; [by rewrite He', He, (assoc_L (++))|by apply no_stops_app].
Qed.

Lemma remove_local_run x type p :
  isRecording (st_streams (state p)) = false →
  ∃ p', dispatch_plain (RemoveLocalStreamAction x type) p = (Ok tt, p') ∧
    untracked [stream_type_key type] p p'.
Proof.
  intros Hrec.
  pose proof (peers_untrack (st_peers (state p)) x type (world p)) as Hp.
  set (w1 := add_effects _ _) in Hp.
  assert (∃ s' w2, streams (st_streams (state p)) (RemoveLocalStreamAction x type) w1 = (Ok s', w2) ∧
    effects w2 = effects w1 ∧ stream_tracks w2 = stream_tracks w1 ∧ peerInstance w2 = peerInstance w1 ∧
    streamsByUserId s' = streamsByUserId (st_streams (state p)) ∧
    isRecording s' = isRecording (st_streams (state p)) ∧
    ∀ k, localStreams s' !! k = if decide (k ∈ [stream_type_key type]) then None
                                else localStreams (st_streams (state p)) !! k)
    as (s' & w2 & Hs & He & Ht & Hi & Hr & Hrec' & Hl).
  { cbn [streams]. unfold removeLocalStream.
    destruct (localStreams (st_streams (state p)) !! stream_type_key type) as [ls|] eqn:Hls.
    - rewrite Hrec. eexists _, _. split; [reflexivity|]. split_and!; try done.
      intros k. simpl. rewrite omit_lookup. done.
    - eexists _, _. split; [reflexivity|]. split_and!; try done. intros k.
      case_decide as Hk; [|done]. apply list_elem_of_singleton in Hk as ->. done. }
  exists (set_state (with_streams (λ _, s') (state p)) (set_world w2 p)). split.
  - destruct p as [[] w ? ? ? ? ? ? ?]. cbn -[peers streams] in *.
    unfold dispatch_plain, messaging, store_reduce, lift, mbind, eff_bind, gets, reducers.
    cbn -[peers streams]. unfold mbind, eff_bind, mret, eff_ret. rewrite Hp. cbn -[streams].
    by rewrite Hs.
  - split; [exact Hl|exact Hr|exact Hrec'|done|exact Ht|exact Hi|done|done|].
    exists (untrack_calls (st_peers (state p)) x (world p)). split; [exact He|].
    apply untrack_no_stops.
Qed.

Lemma remove_locals_run (l : list (string * LocalStream)) : ∀ p,
  isRecording (st_streams (state p)) = false →
  ∃ p', for_each (λ '(_, s),
      dispatch_plain (RemoveLocalStreamAction (stream (ls_stream s)) (ls_type s))) l p = (Ok tt, p') ∧
    untracked ((λ x, stream_type_key (ls_type x.2)) <$> l) p p'.
Proof.
  induction l as [|[k ls] l IH]; intros p Hrec.
  { exists p. split; [done|]. split; [|done..|].
    - intros k. by rewrite decide_False by apply not_elem_of_nil.
    - exists []. split; [by rewrite app_nil_r|]. by intros t ?%not_elem_of_nil. }
  destruct (remove_local_run (stream (ls_stream ls)) (ls_type ls) p Hrec) as (p1 & Hrun & Hu).
  destruct (IH p1) as (p2 & Hrun' & Hu'); [by rewrite (un_recording _ _ _ Hu)|].
  exists p2. split; [cbn [for_each]; by rewrite (bind_runs _ _ _ _ _ Hrun)|].
  apply (untracked_trans [_] _ _ _ _ Hu Hu').
Qed.

(** [HANG_UP] on a page that is not recording. *)
Lemma dispatch_hang_up p :
  (∀ i, peerInstance (world p) = Some i → ∀ log, ∃ n, peer_call log i p_destroy = Ok n) →
  ∃ p', dispatch_plain HangUpAction p = (Ok tt, p') ∧
    st_peers (state p') = ∅ ∧ st_streams (state p') = defaultState ∧
    dialState (st_media (state p')) = DIAL_STATE_HUNG_UP ∧
    effects (world p') = effects (world p) ++ [DestroyScheduled (peer_list (st_peers (state p)))] ++
      destroy_effects (world p) ++ local_stops (st_streams (state p)) (world p) ++
      remote_stops (st_streams (state p)) (world p).
Proof.
  intros Hd.
  set (w1 := set_effects (λ es, es ++ [DestroyScheduled (peer_list (st_peers (state p)))])
               (set_shared_streams (λ _, None) (world p))).
  assert (peers (st_peers (state p)) HangUpAction (world p) = (Ok ∅, w1)) as Hp by done.
  pose proof (hangUp_run (st_streams (state p)) w1 (λ i Hi, Hd i Hi (effects w1))) as Hs.
  change (hangUp (st_streams (state p)) w1) with (streams (st_streams (state p)) HangUpAction w1) in Hs.
  set (w2 := add_effects _ w1) in Hs.
  exists (set_state {| st_notifications := handleNotifications (st_notifications (state p)) HangUpAction;
    st_messages := st_messages (state p);
    st_media := media (st_media (state p)) HangUpAction;
    st_nicknames := nicknames userId (st_nicknames (state p)) HangUpAction;
    st_peers := ∅; st_streams := defaultState; st_windowStates := st_windowStates (state p) |}
    (set_world w2 p)).
  split; [|split_and!; try done; by rewrite (assoc_L (++))].
  destruct p as [[] w ? ? ? ? ? ? ?]. cbn -[peers streams] in *.
  unfold dispatch_plain, messaging, store_reduce, lift, mbind, eff_bind, gets, reducers.
  cbn -[peers streams]. unfold mbind, eff_bind, mret, eff_ret. rewrite Hp. cbn -[streams].
  by rewrite Hs.
Qed.
(** The removals [onHangup] makes take every local stream. *)
Lemma locals_removed p p' :
  local_keys (st_streams (state p)) →
  untracked ((λ x, stream_type_key (ls_type x.2)) <$>
             object_entries (localStreams (st_streams (state p)))) p p' →
  localStreams (st_streams (state p')) = ∅.
Proof.
  intros Hk Hu. apply map_eq. intros k. rewrite (un_locals _ _ _ Hu), lookup_empty.
  case_decide as Hin; [done|]. destruct (localStreams (st_streams (state p)) !! k) as [ls|] eqn:Hls;
    [|done].
  destruct Hin. rewrite (Hk _ _ Hls). apply list_elem_of_fmap. exists (k, ls). split; [done|].
  by apply elem_of_object_entries.
Qed.

Lemma displayed_untracked ks p p' u sid t :
  untracked ks p p' →
  displayed (st_streams (state p')) (world p') u sid t →
  displayed (st_streams (state p)) (world p) u sid t.
Proof.
  intros Hu (sw & Hsw & Hid & Ht). exists sw. unfold streams_of in *.
  rewrite (un_remote _ _ _ Hu) in Hsw. unfold tracks_of in *. by rewrite (un_tracks _ _ _ Hu) in Ht.
Qed.

(** ** Local streams are kept under their types *)

(** What is known of an operation's result, whatever the world. *)
Definition returns {A} (Q : A → Prop) (m : eff World A) : Prop := ensures true_of Q m.

Lemma returns_after {A B} (Q : B → Prop) (m : eff World A) (f : A → eff World B) :
  (∀ a, returns Q (f a)) → returns Q (m ≫= f).
Proof.
  intros Hf. apply (ensures_bind _ true_of); [by intros w r w' _ _|]. intros a _. apply Hf.
Qed.

Lemma local_keys_returned s : local_keys s → returns local_keys (mret s).
Proof. apply ensures_ret. Qed.

(** Operations that do not look at local streams. *)
Ltac local_keys_step :=
  first [ by apply local_keys_returned
        | apply returns_after; intros ?
        | case_match ].

Lemma addTrack_local_keys s payload : local_keys s → returns local_keys (addTrack s payload).
Proof. intros Hs. unfold addTrack. repeat local_keys_step. Qed.

Lemma removeTrack_local_keys s t : local_keys s → returns local_keys (removeTrack s t).
Proof. intros Hs. unfold removeTrack. repeat local_keys_step. Qed.

Lemma setMetadata_local_keys s payload : local_keys s → returns local_keys (setMetadata s payload).
Proof.
  intros Hs. unfold setMetadata. eapply ensures_bind.
  - apply (ensures_for_fold _ local_keys); [done|]. intros s' [k t] Hs'.
    repeat case_match; try (by apply ensures_ret). by apply removeTrack_local_keys.
  - intros s1 Hs1. apply (ensures_for_fold _ local_keys); [exact Hs1|]. intros s' m Hs'.
    unfold associate. case_match; [|by apply ensures_ret].
    case_match; [|by apply addTrack_local_keys]. case_decide; [by apply ensures_ret|].
    eapply ensures_bind; [by apply removeTrack_local_keys|]. intros s2 Hs2.
    by apply addTrack_local_keys.
Qed.

Lemma removePeer_local_keys s u : local_keys s → returns local_keys (removePeer s u).
Proof.
  intros Hs. unfold removePeer. eapply ensures_bind.
  - apply (ensures_for_fold _ local_keys); [done|]. intros s' k Hs'.
    case_match; [|by apply ensures_ret]. eapply (ensures_bind _ local_keys).
    + case_match; [by apply removeTrack_local_keys|by apply ensures_ret].
    + intros s1 Hs1. by apply ensures_ret.
  - intros s1 Hs1. by apply ensures_ret.
Qed.

Lemma local_keys_insert s type ls r :
  ls_type ls = type → local_keys s →
  local_keys (with_localStreams (<[stream_type_key type := ls]> (localStreams s)) r s).
Proof.
  intros <- Hs k ls'. simpl. intros [[<- <-]|[_ Hk]]%lookup_insert_Some; [done|by apply Hs].
Qed.

Lemma stream_type_key_inj t t' : stream_type_key t = stream_type_key t' → t = t'.
Proof. by destruct t, t'. Qed.

(** Whatever happens, the streams reducer keeps each local stream under its type. *)
Lemma streams_local_keys s action :
  local_keys s → returns local_keys (streams s action).
Proof.
  intros Hs. destruct action; cbn [streams]; try (by apply ensures_ret).
  - unfold removeLocalStream. case_match; [|by apply ensures_ret].
    apply returns_after; intros ids. apply returns_after; intros n. apply ensures_ret.
    intros k ls. simpl. rewrite omit_lookup. case_decide; [done|]. apply Hs.
  - by apply removeTrack_local_keys.
  - by apply addTrack_local_keys.
  - unfold recordLocalStream. do 3 (apply returns_after; intros ?). by apply ensures_ret.
  - unfold stopRecordLocalStream. do 2 (apply returns_after; intros ?). by apply ensures_ret.
  - by apply setMetadata_local_keys.
  - destruct action as [|payload|]; try (by apply ensures_ret). unfold addLocalStream.
    do 3 (apply returns_after; intros ?). apply ensures_ret. by apply local_keys_insert.
  - destruct action as [|payload|]; try (by apply ensures_ret). apply ensures_ret.
    unfold setLocalStreamMirror. repeat case_match; try done.
    apply local_keys_insert; [|done]. simpl. by apply stream_type_key_inj, eq_sym, Hs.
  - unfold hangUp. do 3 (apply returns_after; intros ?). apply ensures_ret.
    intros k ls Hk. change ((∅ : gmap string LocalStream) !! k = Some ls) in Hk.
    by rewrite lookup_empty in Hk.
  - by apply removePeer_local_keys.
  - unfold unassociateUserTracks. case_match; [|by apply ensures_ret].
    apply returns_after; intros ?. by apply ensures_ret.
Qed.
Lemma session_local_keys url p : session url p → local_keys (st_streams (state p)).
Proof.
  apply (session_part (λ s, local_keys (st_streams s))).
  - intros stored nickname k ls Hk. change ((∅ : gmap string LocalStream) !! k = Some ls) in Hk.
    by rewrite lookup_empty in Hk.
  - intros time s action w s' w' Hs. unfold reducers, mbind, eff_bind.
    destruct (notifications _ _ w) as [[ns|] w1]; [|done].
    destruct (peers _ _ w1) as [[ps|] w2]; [|done].
    destruct (streams _ _ w2) as [[ss|] w3] eqn:Hss; [|done]. intros [= <- <-].
    by apply (streams_local_keys _ action Hs w2 (Ok ss) w3 I Hss).
Qed.

(** C39. Pressing the hang-up button while not recording: the local streams are taken
    from the peers and out of the state before the call ends, so that ending it has
    none of them left to stop: the only tracks it stops are those of the other users
    on display, and the camera and the microphone go on capturing.  While the socket
    is reconnecting it even ends in an exception after that: the call goes on, without
    this user's streams. *)
Theorem hangup_leaves_capture_on url p :
  session url p → isRecording (st_streams (state p)) = false →
  (∀ i, peerInstance (world p) = Some i → ∀ log, ∃ n, peer_call log i p_destroy = Ok n) →
  ∃ r p' es, onHangup p = (r, p') ∧ effects (world p') = effects (world p) ++ es ∧
    localStreams (st_streams (state p')) = ∅ ∧
    (∀ t, TrackStopped t ∈ es →
       ∃ u sid, displayed (st_streams (state p)) (world p) u sid t) ∧
    if connecting p then
      r = Throw (Error "InvalidStateError") ∧ no_stops es ∧
      st_peers (state p') = st_peers (state p) ∧ st_media (state p') = st_media (state p)
    else
      r = Ok tt ∧ st_peers (state p') = ∅ ∧
      dialState (st_media (state p')) = DIAL_STATE_HUNG_UP.
Proof.
  intros Hk%session_local_keys Hrec Hd. unfold onHangup.
  rewrite (bind_runs _ _ p (localStreams (st_streams (state p))) p) by done.
  destruct (remove_locals_run (object_entries (localStreams (st_streams (state p)))) p Hrec)
    as (p1 & Hrun & Hu).
  rewrite (bind_runs _ _ _ _ _ Hrun). pose proof (locals_removed p p1 Hk Hu) as Hnone.
  destruct (un_effects _ _ _ Hu) as (es & He & Hes).
  unfold hangUp_call, mbind, eff_bind. rewrite socket_emit_run, (un_connecting _ _ _ Hu).
  destruct (connecting p) eqn:Hcon.
  - exists (Throw (Error "InvalidStateError")), p1, es. split_and!; try done.
    + intros t Ht. by apply Hes in Ht.
    + apply (un_peers _ _ _ Hu).
    + apply (un_media _ _ _ Hu).
  - set (p2 := set_world _ p1). rewrite removeEventListeners_run.
    set (p3 := set_listeners _ p2).
    destruct (dispatch_hang_up p3) as (p4 & Hhu & Hps & Hst & Hdial & Heff).
    { intros i. change (peerInstance (world p3)) with (peerInstance (world p1)).
      rewrite (un_instance _ _ _ Hu). apply Hd. }
    eexists (Ok tt), p4, _. split; [exact Hhu|]. split; [|split_and!; try done].
    + rewrite Heff. change (effects (world p3)) with (effects (world p1) ++ [SocketSent (sent_hangUp userId)]).
      rewrite He, <-!(assoc_L (++)). reflexivity.
    + by rewrite Hst.
    + intros t. rewrite !elem_of_app. change (st_streams (state p3)) with (st_streams (state p1)).
      change (local_stops (st_streams (state p1)) (world p3))
        with (local_stops (st_streams (state p1)) (world p1)).
      change (remote_stops (st_streams (state p1)) (world p3))
        with (remote_stops (st_streams (state p1)) (world p1)).
      unfold local_stops. rewrite Hnone. intros [Ht|[Ht|[Ht|[Ht|[Ht|Ht]]]]].
      * by apply Hes in Ht.
      * by apply list_elem_of_singleton in Ht.
      * by apply list_elem_of_singleton in Ht.
      * unfold destroy_effects in Ht. destruct (peerInstance (world p3));
          [by apply list_elem_of_singleton in Ht|by apply not_elem_of_nil in Ht].
      * assert (object_entries (∅ : gmap string LocalStream) = []) as Hnil
          by (apply Permutation_nil_r; rewrite object_entries_perm; by rewrite map_to_list_empty).
        rewrite Hnil in Ht. by apply not_elem_of_nil in Ht.
      * apply remote_stops_inv in Ht as (u & sid & Ht). exists u, sid.
        by eapply displayed_untracked.
Qed.

End screen.

(** * Instances *)

#[local] Existing Instance some_platform.
#[local] Existing Instance some_lodash.
#[local] Existing Instance some_object_keys.
#[local] Existing Instance once_streams.
#[local] Existing Instance ascii_codec.
#[local] Existing Instance some_json.
#[local] Existing Instance CallSafety.demo_window.

(** Two messages come while Alice has the chat open. *)
Definition two_messages : list Action :=
  [MessageAddAction (TextMessage "bob" "hello" "10:00"); MessageAddAction (TextMessage "bob" "there?" "10:01")].
Definition alice_screen : Screen := {| ui := new_ui 0; page := ready_page |}.
Definition later_page : Page :=
  set_state (with_messages (λ ms, foldl (messages toLocaleString "now") ms two_messages)
               (state ready_page)) ready_page.

Lemma cross_leaves_unread_witness :
  ∃ s1, handleToggleChat alice_screen = (Ok tt, s1) ∧
    let s2 := {| ui := ui s1; page := later_page |} in
    blinks s2 = false ∧
    ∃ s3, handleHideChat s2 = (Ok tt, s3) ∧ unreadCount s3 = 2%Z ∧ blinks s3 = true.
Proof.
  destruct (cross_leaves_unread "now" alice_screen later_page two_messages)
    as (s1 & Hrun & _ & _ & Hb & _ & s3 & Hrun3 & _ & Hu & Hb3).
  - reflexivity.
  - reflexivity.
  - exists s1. split; [exact Hrun|]. split; [exact Hb|]. exists s3. split; [exact Hrun3|].
    split; [exact Hu|exact Hb3].
Defined.

(** Alice shares her camera. *)
Definition camera_stream : MediaStream := {| stream_ref := 0; stream_id := "camera" |}.
Definition camera_track : MediaStreamTrack :=
  {| track_ref := 9; track_id := "cam"; track_kind := video; track_label := "front" |}.
Definition camera_settled : PageEvent :=
  media_settled (settlement MEDIA_STREAM
    (inl {| als_type := StreamTypeCamera; als_stream := camera_stream |})).
Definition camera_page : Page :=
  foldl (λ p ev, (run ev p).2) (opened None "Alice" "url" true)
    [socket_changes false; stream_given [camera_track]; camera_settled; reaction_due].

Lemma camera_session : session "url" camera_page.
Proof.
  unfold camera_page. cbn [foldl]. apply session_step; [|exact I].
  apply session_step.
  - apply session_step; [|exact I]. apply session_step; [|exact I]. apply session_opens.
  - intros payload [= <-]. split; [vm_compute; lia|]. intros u sw Hsw.
    vm_compute in Hsw. by apply not_elem_of_nil in Hsw.
Qed.

Lemma hangup_leaves_capture_on_witness :
  tracks_of (world camera_page) camera_stream = [camera_track] ∧
  ∃ p' es, onHangup camera_page = (Ok tt, p') ∧
    effects (world p') = effects (world camera_page) ++ es ∧
    dialState (st_media (state p')) = DIAL_STATE_HUNG_UP ∧
    localStreams (st_streams (state p')) = ∅ ∧ TrackStopped camera_track ∉ es.
Proof.
  split; [vm_compute; reflexivity|].
  destruct (hangup_leaves_capture_on "url" camera_page camera_session)
    as (r & p' & es & Hrun & He & Hl & Hs & Hr).
  - vm_compute. reflexivity.
  - intros i Hi. vm_compute in Hi. discriminate.
  - assert (connecting camera_page = false) as Hc by (vm_compute; reflexivity).
    rewrite Hc in Hr. destruct Hr as (Hok & _ & Hd). exists p', es.
    rewrite Hok in Hrun. split_and!; [exact Hrun|exact He|exact Hd|exact Hl|].
    intros Hin. destruct (Hs _ Hin) as (u & sid & sw & Hsw & _).
    vm_compute in Hsw. by apply not_elem_of_nil in Hsw.
Defined.
