(* ===== verification/CallMedia.v ===== *)
(** Media frames in a call: from the tracks the page is told of to the frames its
    worker opens; and what happens when two connections use the same [mid]. *)

From S2P Require Import Prelude Numbers Bytes TextCodec Encoder Decoder Objects InsertableStreams KeyManagement KeySafety FrameSecurity Assignments InsertableCodec Actions World Logic Streams StreamsInv StreamsSafety Peers PeersSafety Media Users Notices Async Store PeerActions CallActions Chat CallSafety Session SessionSafety PageRules.

#[local] Abbreviation list := Datatypes.list.

Section media.
Context `{Platform} `{Lodash} `{ObjectKeys} `{EncodedStreams} `{TextCodec} `{!JSON} `{Window}
  `{SubtleCrypto}.

(** * What a track tells the worker *)

Lemma dispatch_track_codec payload c :
  keeps (λ p, codec (world p) = c) (dispatch_plain (AddTrackAction payload)).
Proof using Type.
  intros p r p' Hp Hrun.
  destruct (streams (st_streams (state p)) (AddTrackAction payload) (world p)) as [r1 w1] eqn:Hs.
  rewrite (dispatch_streams (AddTrackAction payload) p r1 w1 eq_refl Hs) in Hrun.
  assert (codec w1 = c) as Hw.
  { exact (streams_world _ (codec_world (λ c', c' = c)) _ (AddTrackAction payload) _ _ _ Hp Hs). }
  by destruct r1; injection Hrun as <- <-.
Qed.

(** The handler of a track's arrival asks for its frames under the peer's user. *)
Lemma track_arrives n h t muted x mid receiver p r p' :
  handlers p !! n = Some h →
  on_peer_event n (peer_track t muted x mid receiver) p = (r, p') →
  codec (world p') = (codec_call (Decrypt receiver mid (ph_user h)) (codec (world p))).2 ∧
  handlers p' = handlers p.
Proof using Type.
  intros Hh. unfold on_peer_event.
  rewrite (bind_runs _ _ p (Some (ph_user h)) p) by (unfold take_once; by rewrite Hh).
  unfold handleTrack. destruct (codec_call (Decrypt receiver mid (ph_user h)) (codec (world p)))
    as [b c] eqn:Hc.
  set (q := set_world (set_codec c (world p)) p).
  rewrite (bind_runs _ _ p b q) by (unfold lift, codec_op; cbn -[codec_call]; by rewrite Hc).
  cbn [snd]. intros Hrun.
  assert (∀ P : Page → Prop, (∀ e, keeps P (lift (World.emit e))) →
    (∀ payload, keeps P (dispatch_plain (AddTrackAction payload))) → P q → P p') as Hkeep.
  { intros P He Hd Hq. revert Hrun. match goal with |- ?m q = _ → _ => assert (keeps P m) as Hm end.
    { apply keeps_bind; [apply He|]. intros _.
      apply keeps_bind; [destruct muted; [apply keeps_ret|apply Hd]|]. intros _. apply He. }
    by apply Hm. }
  split.
  - apply (Hkeep (λ p, codec (world p) = c)); [|intros payload; apply dispatch_track_codec|done].
    intros e p0 r0 p1 Hp0 [= <- <-]. exact Hp0.
  - apply (Hkeep (λ p0, handlers p0 = handlers p)); [| |done].
    + intros e p0 r0 p1 Hp0 [= <- <-]. exact Hp0.
    + intros payload p0 r0 p1 Hp0 Hr0. apply dispatch_frame in Hr0 as (-> & _). exact Hp0.
Qed.

(** What it posts, when the browser gives the streams. *)
Lemma decrypt_posts receiver mid user c :
  (codec_call (Decrypt receiver mid user) c).1 = true →
  ∃ o, posted (codec_call (Decrypt receiver mid user) c).2 = posted c ++ [DecryptStreamEvent mid user o].
Proof using Type.
  cbn [codec_call]. unfold decrypt, getEncodedStreams, postMessage.
  destruct (worker c); [|done]. simpl. case_decide; [by eexists|].
  destruct createEncodedStreams as [f|]; [|done]. destruct (f _ _) as [s|]; [|done].
  simpl. by eexists.
Qed.

Lemma track_assigned receiver mid user c :
  let c' := (codec_call (Decrypt receiver mid user) c).2 in
  (codec_call (Decrypt receiver mid user) c).1 = true →
  named (assignment (posted c')) = named (assignment (posted c)) ∧
  assigned (assignment (posted c')) !! mid
    = Some (default user (named (assignment (posted c)) !! mid)).
Proof using Type.
  intros c' Hok. destruct (decrypt_posts _ _ _ _ Hok) as [o Ho]. unfold c'. rewrite Ho, assignment_app.
  split; [done|]. apply lookup_insert_eq.
Qed.

(** * Frames at the receiver *)

(** A worker that has handled all it was posted. *)
Record caught_up (c : InsertableStreamsCodec) (es : list WorkerEvent) (w : Worker) : Prop := {
  cu_worker : worker c = true;
  cu_posted : omap posted_of es = posted c;
  cu_run : worker_run es new_worker = Some w;
  cu_pending : InsertableStreams.pending w = [];
}.

(** A sender that has settled, under a password it has never removed. *)
Record sends_under (url user : string) (c : InsertableStreamsCodec) (es : list WorkerEvent)
    (w : Worker) : Prop := {
  su_inv : codec_inv url user c;
  su_caught : caught_up c es w;
  su_password : password w ≠ "";
  su_kept : PasswordEvent "" ∉ posted c;
}.

Lemma sender_seals url user c es w iv f :
  sends_under url user c es w → long_enough f →
  InsertableStreams.encrypt w iv f = Ok [sealed (derived (password w) url user) iv f].
Proof using Type.
  intros [Hi [Hw He Hr Hq] Hpw Hk] Hl. apply encrypt_sealed; [|done].
  apply settled_encrypt_key; [|done..].
  apply (posted_reachable_as keeps_password _ _ c es); [done..| |done].
  apply Forall_forall. intros [] Hin Ha; try done. simpl. by intros ->.
Qed.

(** What a page makes of a frame: opened when it is of the user assigned to the
    [mid], left as it is when it is of another. *)
Lemma receiver_opens url url_user c es w mid u us pw iv f :
  codec_inv url url_user c → caught_up c es w →
  assigned (assignment (posted c)) !! mid = Some u →
  pw = password w → pw ≠ "" → long_enough f → u8_length iv = ivByteLength →
  (us = u → InsertableStreams.decrypt w mid (sealed (derived pw url us) iv f) = [f]) ∧
  (authentic pw url us u →
   InsertableStreams.decrypt w mid (sealed (derived pw url us) iv f)
     = [sealed (derived pw url us) iv f]).
Proof using Type.
  intros Hi [Hw He Hr Hq] Ha -> Hpw Hl Hiv.
  pose proof (contexts_assigned _ _ Hr mid) as Hc. rewrite He, Ha in Hc.
  destruct (decryptContextByMid w !! mid) as [x|] eqn:Hx; [|done]. injection Hc as Hc.
  destruct (settled_context_intro url url_user w mid x) as [_ Hk]; [|done..|].
  { by apply (posted_reachable _ _ c es). }
  rewrite decide_False, Hc in Hk by done.
  unfold InsertableStreams.decrypt. rewrite Hx, Hk. split.
  - intros ->. rewrite decrypt_sealed by done. by destruct f.
  - intros Hau. by rewrite decrypt_data_foreign.
Qed.

Lemma session_codec url p : session url p → codec_inv url userId (codec (world p)).
Proof using Type. by intros (L & [_ [_ _ Hc _ _ _]] & _)%session_inv. Qed.

(** * Theorems *)

(** C3. Frames cross a call.  In every session of this page, when its worker has
    handled all that it was posted and no key is being derived: a frame that a
    user's worker, which has caught up in the same way and has had a password ever
    since it had one, encrypts under the password that this page has too, and that
    arrives on a [mid] that is assigned to that user, is turned back into the frame
    that was sent. *)
Theorem media_delivered url p es w us cs ess ws mid iv f :
  session url p → caught_up (codec (world p)) es w →
  sends_under url us cs ess ws → password w = password ws →
  assigned (assignment (posted (codec (world p)))) !! mid = Some us →
  long_enough f → u8_length iv = ivByteLength →
  ∃ f', InsertableStreams.encrypt ws iv f = Ok [f'] ∧ InsertableStreams.decrypt w mid f' = [f].
Proof using Type.
  intros Hs Hc Hsend Hpw Ha Hl Hiv. eexists. split; [by eapply sender_seals|].
  refine (proj1 (receiver_opens _ _ _ _ _ _ _ _ _ _ _ (session_codec _ _ Hs) Hc Ha _ _ Hl Hiv) eq_refl).
  - done.
  - apply (su_password _ _ _ _ _ Hsend).
Qed.

(** C27. Two connections number their media independently, but the worker tells
    them apart only by the number.  When tracks of two users arrive with the same
    [mid], and no metadata of the server names it, the second takes over: frames
    of the second user are opened, and frames of the first, under the same
    password, are not; they are passed on as they came. *)
Theorem mids_collide url p n1 n2 h1 h2 t1 t2 m1 m2 x1 x2 mid r1 r2 o1 o2 p1 p2 es w us cs ess ws iv f :
  session url p →
  handlers p !! n1 = Some h1 → handlers p !! n2 = Some h2 →
  run (peer_event n1 (peer_track t1 m1 x1 mid r1)) p = (o1, p1) →
  run (peer_event n2 (peer_track t2 m2 x2 mid r2)) p1 = (o2, p2) →
  (codec_call (Decrypt r1 mid (ph_user h1)) (codec (world p))).1 = true →
  (codec_call (Decrypt r2 mid (ph_user h2)) (codec (world p1))).1 = true →
  named (assignment (posted (codec (world p)))) !! mid = None →
  caught_up (codec (world p2)) es w → sends_under url us cs ess ws → password w = password ws →
  long_enough f → u8_length iv = ivByteLength →
  ∃ f', InsertableStreams.encrypt ws iv f = Ok [f'] ∧
    (us = ph_user h2 → InsertableStreams.decrypt w mid f' = [f]) ∧
    (us = ph_user h1 → authentic (password w) url (ph_user h1) (ph_user h2) →
     InsertableStreams.decrypt w mid f' = [f']).
Proof using Type.
  intros Hs Hh1 Hh2 Hr1 Hr2 Hok1 Hok2 Hnone Hc Hsend Hpw Hl Hiv.
  destruct (track_arrives _ _ _ _ _ _ _ _ _ _ Hh1 Hr1) as [Hc1 Hh].
  rewrite <-Hh in Hh2. destruct (track_arrives _ _ _ _ _ _ _ _ _ _ Hh2 Hr2) as [Hc2 _].
  destruct (track_assigned _ _ _ _ Hok1) as [Hn1 _]. rewrite <-Hc1 in Hn1.
  destruct (track_assigned _ _ _ _ Hok2) as [_ Ha2]. rewrite <-Hc2, Hn1, Hnone in Ha2.
  assert (codec_inv url userId (codec (world p2))) as Hi.
  { rewrite Hc2, Hc1. exact (codec_calls_inv url userId
      [Decrypt r1 mid (ph_user h1); Decrypt r2 mid (ph_user h2)] _ (session_codec _ _ Hs)). }
  eexists. split; [by eapply sender_seals|]. rewrite Hpw.
  destruct (receiver_opens url userId (codec (world p2)) es w mid (ph_user h2) us (password ws) iv f)
    as [Hopen Hleft]; [done..|by eapply su_password|done|done|].
  split; [exact Hopen|]. intros -> Hau. by apply Hleft.
Qed.
End media.

(** * Instances *)

#[local] Existing Instance some_platform.
#[local] Existing Instance some_lodash.
#[local] Existing Instance some_object_keys.
#[local] Existing Instance once_streams.
#[local] Existing Instance ascii_codec.
#[local] Existing Instance some_json.
#[local] Existing Instance toy_crypto.
#[local] Existing Instance CallSafety.demo_window.

(** Alice is connected to Bob and to Carol and has set a password. *)
Definition mesh_page : Page := (run (user_sets_password "secret") (demo_page 3)).2.

Definition bob_arrives : PageEvent :=
  peer_event 0 (peer_track demo_track false {| stream_ref := 7; stream_id := "bob-camera" |} "0" 5).
Definition carol_arrives : PageEvent :=
  peer_event 1 (peer_track cam_track false {| stream_ref := 8; stream_id := "carol-camera" |} "0" 6).
Definition mesh_page1 : Page := (run bob_arrives mesh_page).2.
Definition mesh_page2 : Page := (run carol_arrives mesh_page1).2.

Lemma mesh_session : session "url" mesh_page.
Proof.
  apply session_step; [|exact I]. unfold demo_page. cbn [take demo_events foldl].
  apply session_step; [|exact I]. apply session_step; [|exact I].
  apply session_step; [|exact I]. apply session_opens.
Qed.

Lemma mesh_session1 : session "url" mesh_page1.
Proof.
  apply session_step; [exact mesh_session|]. intros h Hh. split.
  - intros ti Hti. vm_compute in Hti. discriminate.
  - intros key Hk. vm_compute in Hk. discriminate.
Qed.

(** What Alice's worker is handed, and its keys. *)
Definition mesh_events (tracks : nat) : list WorkerEvent :=
  (Posted <$> take (2 + tracks) (posted (codec (world mesh_page2)))) ++ replicate (1 + tracks) (KeyReady 0).
Definition mesh_worker (tracks : nat) : Worker :=
  default new_worker (worker_run (mesh_events tracks) new_worker).

Lemma mesh_caught_up1 : caught_up (codec (world mesh_page1)) (mesh_events 1) (mesh_worker 1).
Proof. split; vm_compute; reflexivity. Qed.
Lemma mesh_caught_up2 : caught_up (codec (world mesh_page2)) (mesh_events 2) (mesh_worker 2).
Proof. split; vm_compute; reflexivity. Qed.

(** A user's page with the same password, and its worker. *)
Definition sender_codec (user : string) : InsertableStreamsCodec :=
  codec_calls [SetPassword "secret"] (new_codec true true true "url" user).
Definition sender_events (user : string) : list WorkerEvent :=
  [Posted (InitEvent "url" user); Posted (PasswordEvent "secret"); KeyReady 0].
Definition sender_worker (user : string) : Worker :=
  default new_worker (worker_run (sender_events user) new_worker).

Lemma bob_sends : sends_under "url" "bob" (sender_codec "bob") (sender_events "bob") (sender_worker "bob").
Proof.
  split.
  - apply codec_calls_inv, new_codec_inv.
  - split; vm_compute; reflexivity.
  - vm_compute. discriminate.
  - vm_compute. intros Hin. repeat (apply elem_of_cons in Hin as [?|Hin]; [discriminate|]).
    by apply not_elem_of_nil in Hin.
Qed.

Lemma contexts_follow_messages_witness :
  (dctx_userId <$> decryptContextByMid (mesh_worker 2) !! "0") = Some "carol" ∧
  assigned (assignment (omap posted_of (mesh_events 2))) !! "0" = Some "carol".
Proof.
  assert (worker_run (mesh_events 2) new_worker = Some (mesh_worker 2)) as Hrun
    by (vm_compute; reflexivity).
  split; [|vm_compute; reflexivity].
  rewrite (contexts_follow_messages _ _ Hrun "0"). vm_compute. reflexivity.
Defined.

Lemma media_delivered_witness :
  ∃ f', InsertableStreams.encrypt (sender_worker "bob") (replicate 16 x00) a_frame = Ok [f'] ∧
    InsertableStreams.decrypt (mesh_worker 1) "0" f' = [a_frame].
Proof.
  eapply (media_delivered "url" mesh_page1 (mesh_events 1) (mesh_worker 1) "bob").
  - exact mesh_session1.
  - exact mesh_caught_up1.
  - exact bob_sends.
  - vm_compute. reflexivity.
  - vm_compute. reflexivity.
  - vm_compute. discriminate.
  - vm_compute. reflexivity.
Defined.

Lemma mids_collide_witness :
  ∃ f', InsertableStreams.encrypt (sender_worker "bob") (replicate 16 x00) a_frame = Ok [f'] ∧
    InsertableStreams.decrypt (mesh_worker 2) "0" f' = [f'].
Proof.
  destruct (run bob_arrives mesh_page) as [o1 q1] eqn:H1'.
  assert (q1 = mesh_page1) as -> by (unfold mesh_page1; by rewrite H1').
  destruct (run carol_arrives mesh_page1) as [o2 q2] eqn:H2'.
  assert (q2 = mesh_page2) as -> by (unfold mesh_page2; by rewrite H2').
  destruct (mids_collide "url" mesh_page 0 1 (new_handler "bob") (new_handler "carol")
    demo_track cam_track false false {| stream_ref := 7; stream_id := "bob-camera" |}
    {| stream_ref := 8; stream_id := "carol-camera" |} "0" 5 6 o1 o2 mesh_page1 mesh_page2
    (mesh_events 2) (mesh_worker 2) "bob" (sender_codec "bob") (sender_events "bob")
    (sender_worker "bob") (replicate 16 x00) a_frame) as (f' & He & _ & Hd).
  - exact mesh_session.
  - vm_compute. reflexivity.
  - vm_compute. reflexivity.
  - exact H1'.
  - exact H2'.
  - vm_compute. reflexivity.
  - vm_compute. reflexivity.
  - vm_compute. reflexivity.
  - exact mesh_caught_up2.
  - exact bob_sends.
  - vm_compute. reflexivity.
  - vm_compute. discriminate.
  - vm_compute. reflexivity.
  - exists f'. split; [exact He|]. apply Hd; [reflexivity|].
    intros iv aad d. vm_compute. reflexivity.
Defined.
