(* ===== verification/UiSession.v ===== *)
(** The user's screen as events: everything the user can press or type in it, and
    everything that happens to the page; the lock of the toolbar and the worker. *)

From S2P Require Import Prelude Bytes TextCodec Encoder Decoder Objects InsertableStreams KeyManagement KeySafety FrameSecurity InsertableCodec CodecWorker Actions World Logic Streams Peers Media Users Notices Async Store PeerActions CallActions Chat CallSafety Session PageRules Screen.

#[local] Abbreviation list := Datatypes.list.

(** * Events *)

Inductive UiEvent :=
  | happens (ev : PageEvent)
  | clicks_chat
  | clicks_chat_cross
  | clicks_record
  | toast_times_out
  | clicks_hang_up
  | clicks_share_desktop
  | clicks_page (tagName : string)
  | clicks_encryption
  | types_passphrase (text : string)
  | clicks_save
  | presses_key_on_passphrase (key : string)
  | types_text (text : string)
  | submits_text (timestamp : string)
  | presses_key_on_text (key : string) (shiftKey : bool) (timestamp : string)
  | clicks_smile (innerHTML : string)
  | selects_files (has_FileReader : bool) (files : list (string * Z * string * string * string)).

Section session.
Context `{Platform} `{Lodash} `{ObjectKeys} `{EncodedStreams} `{TextCodec} `{!JSON} `{Window}.

Definition ui_run (ev : UiEvent) : eff Screen unit :=
  match ev with
  | happens ev => on_page (run ev)
  | clicks_chat => handleToggleChat
  | clicks_chat_cross => handleHideChat
  | clicks_record => handleToggleRecord
  | toast_times_out => hide_toast
  | clicks_hang_up => on_page onHangup
  | clicks_share_desktop => on_page handleToggleShareDesktop ≫= λ _, mret tt
  | clicks_page tagName => toggleHidden tagName
  | clicks_encryption => toggleEncryptionDialog
  | types_passphrase text => setState (set_passphrase text)
  | clicks_save => setPassword
  | presses_key_on_passphrase key => setPasswordOnEnter key
  | types_text text => handleChange text
  | submits_text timestamp => submit timestamp
  | presses_key_on_text key shiftKey timestamp => handleKeyPress key shiftKey timestamp
  | clicks_smile innerHTML => handleSmileClick innerHTML
  | selects_files has_FileReader files => handleSelectFiles has_FileReader files
  end.

(** Passwords are set by the toolbar only. *)
Definition not_password (ev : UiEvent) : Prop :=
  ∀ password, ev ≠ happens (user_sets_password password).

Definition opened_screen (stored : option string) (nickname url : string) (codec_ok : bool) : Screen :=
  let p := opened stored nickname url codec_ok in
  {| ui := new_ui (count (st_messages (state p))); page := p |}.

(** * The page's part *)

Section rules.
Context (I : Page → Prop) (HI : page_rules I).

(** An invariant of the page, next to one of its component. *)
Definition with_ui (U : Ui → Prop) (s : Screen) : Prop := I (page s) ∧ U (ui s).

Lemma on_page_kept U {A} (m : eff Page A) : keeps I m → keeps (with_ui U) (on_page m).
Proof using Type.
  intros Hm s r s' [Hp Hu]. unfold on_page. destruct (m (page s)) as [r1 p1] eqn:Hrun.
  intros [= <- <-]. split; [by eapply Hm|done].
Qed.

Lemma setState_kept U f : (∀ u, U u → U (f u)) → keeps (with_ui U) (setState f).
Proof using Type. intros Hf. apply keeps_modify. intros s [Hp Hu]. split; [done|by apply Hf]. Qed.

Lemma onHangup_kept : keeps I onHangup.
Proof using HI.
  unfold onHangup, hangUp_call. pose proof (λ m, socket_emit_kept I (page_frame I HI) m (pr_emit I HI _)). pose proof (removeEventListeners_kept I (page_frame I HI)).
  pose proof (pr_dispatch I HI). repeat keeps_step.
Qed.

Lemma handleToggleShareDesktop_kept : keeps I handleToggleShareDesktop.
Proof using HI.
  unfold handleToggleShareDesktop. pose proof (pr_dispatch I HI).
  pose proof (dispatch_pending_kept I (page_frame I HI)). repeat keeps_step.
Qed.

Lemma sendFile_kept b name size type data timestamp : keeps I (sendFile b name size type data timestamp).
Proof using HI.
  unfold sendFile. pose proof (pr_dispatch I HI). pose proof (dispatch_notify_kept I (page_frame I HI)).
  repeat keeps_step.
Qed.

(** What is not about the encryption dialog keeps an invariant of the page next to
    the state of the lock. *)
Lemma ui_run_kept b ev :
  not_password ev →
  (match ev with clicks_save | presses_key_on_passphrase _ => False | _ => True end) →
  keeps (with_ui (λ u, encrypted u = b)) (ui_run ev).
Proof using HI.
  intros Hpw Hev.
  pose proof (λ A (m : eff Page A), on_page_kept (λ u, encrypted u = b) m) as Hpage.
  pose proof (setState_kept (λ u, encrypted u = b)) as Hset.
  destruct ev; try done; cbn [ui_run].
  - apply Hpage. apply event_kept; [done|]. intros password ->. by apply (Hpw password).
  - unfold handleToggleChat, App_handleToggleChat, handleHideChat, handleShowChat.
    repeat first [keeps_step|by apply Hset].
  - by apply Hset.
  - unfold handleToggleRecord, App_handleToggleRecord.
    pose proof (λ m, socket_emit_kept I (page_frame I HI) m (pr_emit I HI _)). repeat first [keeps_step|by apply Hset|by apply Hpage].
  - by apply Hset.
  - apply Hpage, onHangup_kept.
  - apply keeps_bind; [|intros _; apply keeps_ret]. apply Hpage, handleToggleShareDesktop_kept.
  - unfold toggleHidden. repeat first [keeps_step|by apply Hset].
  - by apply Hset.
  - by apply Hset.
  - by apply Hset.
  - unfold submit. pose proof (pr_dispatch I HI).
    repeat first [keeps_step|by apply Hset|by apply Hpage].
  - unfold handleKeyPress, submit. pose proof (pr_dispatch I HI).
    repeat first [keeps_step|by apply Hset|by apply Hpage].
  - by apply Hset.
  - unfold handleSelectFiles. apply keeps_for_each. intros [[[[name size] type] data] timestamp].
    apply Hpage, sendFile_kept.
Qed.
End rules.

(** * The lock *)

(** Only [setPassword] tells the worker a password. *)
Lemma codec_call_password op c :
  (∀ password, op ≠ SetPassword password) →
  last_password (posted (codec_call op c).2) "" = last_password (posted c) "".
Proof.
  intros Hop. destruct op as [pw|md|x|x mid uid]; [by destruct (Hop pw)|..]; simpl;
    unfold setTrackMetadata, encrypt, decrypt, getEncodedStreams, postMessage;
    repeat (case_match || (simpl in *; simplify_eq)); try done; by rewrite last_password_app.
Qed.

(** The lock [b] is closed when there is a worker and its last password is one. *)
Definition lock_is (url : string) (b : bool) (c : InsertableStreamsCodec) : Prop :=
  codec_inv url userId c ∧ b = worker c && bool_decide (last_password (posted c) "" ≠ "").

Lemma lock_rules url b : page_rules (λ p, lock_is url b (codec (world p))).
Proof.
  apply codec_rules. intros op c Hop [Hc ->]. split.
  - change (codec_call op c).2 with (codec_calls [op] c). by apply codec_calls_inv.
  - by rewrite codec_call_worker, codec_call_password.
Qed.

Lemma setPassword_run s :
  let '(sent, c) := codec_call (SetPassword (passphrase (ui s))) (codec (world (page s))) in
  setPassword s = (Ok tt,
    {| ui := set_encryption false (sent && bool_decide (passphrase (ui s) ≠ ""))
               (set_passphrase "" (ui s));
       page := set_world (set_codec c (world (page s))) (page s) |}).
Proof.
  destruct (codec_call _ _) as [sent c] eqn:Hc. unfold setPassword.
  rewrite (bind_runs _ _ s (passphrase (ui s)) s) by done.
  set (s1 := {| ui := set_passphrase "" (ui s); page := page s |}).
  rewrite (bind_runs _ _ s tt s1) by done.
  rewrite (bind_runs _ _ s1 sent {| ui := ui s1; page := set_world (set_codec c (world (page s))) (page s) |});
    [done|]. unfold on_page, lift, codec_op. cbn -[codec_call]. by rewrite Hc.
Qed.

Lemma setPassword_lock url s b :
  lock_is url b (codec (world (page s))) →
  ∃ b' s', setPassword s = (Ok tt, s') ∧ encrypted (ui s') = b' ∧ lock_is url b' (codec (world (page s'))).
Proof.
  intros [Hc _]. pose proof (setPassword_run s) as Hrun.
  destruct (codec_call _ _) as [sent c'] eqn:Hop. eexists _, _. split; [exact Hrun|]. split; [done|].
  assert (codec_inv url userId c') as Hc'.
  { change c' with (sent, c').2. rewrite <-Hop.
    change (codec_call (SetPassword (passphrase (ui s))) (codec (world (page s)))).2
      with (codec_calls [SetPassword (passphrase (ui s))] (codec (world (page s)))).
    by apply codec_calls_inv. }
  split; [exact Hc'|]. simpl. cbn [codec_call] in Hop. unfold InsertableCodec.setPassword, postMessage in Hop.
  destruct (worker (codec (world (page s)))) eqn:Hw; injection Hop as <- <-; simpl; rewrite ?Hw; [|done].
  by rewrite last_password_app.
Qed.

(** The user and the page keep the lock honest about the codec. *)
Lemma ui_run_lock url ev s r s' :
  lock_is url (encrypted (ui s)) (codec (world (page s))) → not_password ev →
  ui_run ev s = (r, s') → lock_is url (encrypted (ui s')) (codec (world (page s'))).
Proof.
  intros Hl Hpw Hrun.
  destruct (setPassword_lock _ _ _ Hl) as (b' & s2 & Hs2 & Hb' & Hl').
  assert (setPassword s = (r, s') → lock_is url (encrypted (ui s')) (codec (world (page s')))) as Hsave
    by (rewrite Hs2; intros [= <- <-]; by rewrite Hb').
  assert ((match ev with clicks_save | presses_key_on_passphrase _ => False | _ => True end) →
    lock_is url (encrypted (ui s')) (codec (world (page s')))) as Hother.
  { intros Hev. destruct (ui_run_kept (λ p, lock_is url (encrypted (ui s)) (codec (world p)))
      (lock_rules _ _) (encrypted (ui s)) ev Hpw Hev s r s') as [Hl2 Hb]; [done|done|]. by rewrite Hb. }
  destruct ev; try (by apply Hother); [by apply Hsave|].
  cbn [ui_run] in Hrun. unfold setPasswordOnEnter in Hrun. case_decide; [by apply Hsave|].
  by injection Hrun as <- <-.
Qed.
End session.

