(* ===== verification/Desk.v ===== *)
(** The whole desk of the user: the screen, the form that joins a call and the menus of
    devices, with the functions that wait for the browser; sessions in which all of
    it takes part, in any order; and the lock of the toolbar in them. *)

From S2P Require Import Prelude Bytes TextCodec Encoder Decoder Objects InsertableStreams KeyManagement KeySafety FrameSecurity InsertableCodec CodecWorker Actions World Logic Streams Peers Media Users Notices Async Store PeerActions CallActions Chat CallSafety Session PageRules Capture Devices JoinForm Screen UiSession.

#[local] Abbreviation list := Datatypes.list.

(** * The state *)

(** Where a [handleSubmit] waits: for the stream, or for the dial. *)
Inductive Waiting :=
  | for_stream (nickname : string)
  | for_dial.

Record Desk := {
  d_screen : Screen;
  d_form : Form;
  d_storage : option (option string);
  d_menus : DeviceKind → DropdownState;
  d_waiting : list Waiting;
}.

Definition set_screen (s : Screen) (d : Desk) : Desk :=
  {| d_screen := s; d_form := d_form d; d_storage := d_storage d; d_menus := d_menus d;
     d_waiting := d_waiting d |}.
Definition set_joining (j : Joining) (d : Desk) : Desk :=
  {| d_screen := {| ui := ui (d_screen d); page := form_page j |}; d_form := form j;
     d_storage := local_storage j; d_menus := d_menus d; d_waiting := d_waiting d |}.
Definition set_menu (kind : DeviceKind) (m : DropdownState) (d : Desk) : Desk :=
  {| d_screen := d_screen d; d_form := d_form d; d_storage := d_storage d;
     d_menus := λ k, if decide (k = kind) then m else d_menus d k; d_waiting := d_waiting d |}.
Definition set_waiting (l : list Waiting) (d : Desk) : Desk :=
  {| d_screen := d_screen d; d_form := d_form d; d_storage := d_storage d;
     d_menus := d_menus d; d_waiting := l |}.

Definition joining (d : Desk) : Joining :=
  {| form := d_form d; local_storage := d_storage d; form_page := page (d_screen d) |}.

(** * Events *)

(** A function that waits goes on with the outcome of its promise, whenever and
    whatever that is. *)
Inductive DeskEvent :=
  | on_screen (ev : UiEvent)
  | form_appears
  | form_types (nickname : string)
  | form_picks (kind : DeviceKind) (constraint : Constraint)
  | form_submits
  | form_goes_on (waiting : nat) (err : option JSError)
  | presses_play
  | menu_toggles (kind : DeviceKind)
  | menu_closes (kind : DeviceKind)
  | menu_picks (kind : DeviceKind) (constraint : Constraint).

Section desk.
Context `{Platform} `{Lodash} `{ObjectKeys} `{EncodedStreams} `{TextCodec} `{!JSON} `{Window}.

(** Operations of the parts, on the desk. *)
Definition screen_op {A} (m : eff Screen A) : eff Desk A := λ d,
  let '(r, s) := m (d_screen d) in (r, set_screen s d).
Definition form_op {A} (m : eff Joining A) : eff Desk A := λ d,
  let '(r, j) := m (joining d) in (r, set_joining j d).

Definition wait_for (w : Waiting) : eff Desk unit :=
  modify (λ d, set_waiting (d_waiting d ++ [w]) d).

Definition submit_form : eff Desk unit :=
  asked ← form_op handleSubmit;
  match asked with Some (nickname, _) => wait_for (for_stream nickname) | None => mret tt end.

Definition resume (i : nat) (err : option JSError) : eff Desk unit :=
  waiting ← gets (λ d, d_waiting d !! i);
  modify (λ d, set_waiting (delete i (d_waiting d)) d) ≫= λ _,
  match waiting with
  | Some (for_stream nickname) =>
    dialled ← form_op (stream_awaited nickname err);
    match dialled with Some _ => wait_for for_dial | None => mret tt end
  | Some for_dial => form_op (dial_awaited err)
  | None => mret tt
  end.

Definition pick_device (kind : DeviceKind) (c : Constraint) : eff Desk unit :=
  m ← gets (λ d, d_menus d kind);
  modify (set_menu kind (close m)) ≫= λ _,
  r ← screen_op (on_page (handleDevice kind c m));
  modify (set_menu kind r.1).

Definition desk_run (ev : DeskEvent) : eff Desk unit :=
  match ev with
  | on_screen ev => screen_op (ui_run ev)
  | form_appears => screen_op (on_page form_mounted)
  | form_types nickname => form_op (handleNicknameChange nickname)
  | form_picks videoinput c => screen_op (on_page (handleVideoChange c))
  | form_picks audioinput c => screen_op (on_page (handleAudioChange c))
  | form_submits => submit_form
  | form_goes_on i err => resume i err
  | presses_play => screen_op (on_page press_play)
  | menu_toggles kind => modify (λ d, set_menu kind (toggleOpen (d_menus d kind)) d)
  | menu_closes kind => modify (λ d, set_menu kind (close (d_menus d kind)) d)
  | menu_picks kind c => pick_device kind c
  end.

Definition opened_desk (stored : option string) (nickname url : string) (codec_ok : bool) : Desk :=
  let s := opened_screen stored nickname url codec_ok in
  {| d_screen := s; d_form := new_form (page s); d_storage := Some stored;
     d_menus := λ _, new_dropdown; d_waiting := [] |}.

Definition desk_event (ev : DeskEvent) : Prop :=
  match ev with on_screen ev => not_password ev | _ => True end.

Inductive desk_session (url : string) : Desk → Prop :=
  | desk_opens stored nickname codec_ok : desk_session url (opened_desk stored nickname url codec_ok)
  | desk_goes_on d ev r d' :
      desk_session url d → desk_event ev → desk_run ev d = (r, d') → desk_session url d'.

(** * Invariants of the page, on the desk *)

Section rules.
Context (I : Page → Prop) (HI : page_rules I) (b : bool).

(** Next to the state of the lock. *)
Definition on_desk (d : Desk) : Prop := I (page (d_screen d)) ∧ encrypted (ui (d_screen d)) = b.

Lemma screen_op_kept {A} (m : eff Page A) : keeps I m → keeps on_desk (screen_op (on_page m)).
Proof using Type.
  intros Hm d r d' [Hp Hu]. unfold screen_op, on_page.
  destruct (m (page (d_screen d))) as [r1 p1] eqn:Hrun. intros [= <- <-].
  split; [by eapply Hm|done].
Qed.

Lemma form_op_kept {A} (m : eff Joining A) :
  keeps (λ j, I (form_page j)) m → keeps on_desk (form_op m).
Proof using Type.
  intros Hm d r d' [Hp Hu]. unfold form_op. destruct (m (joining d)) as [r1 j] eqn:Hrun.
  intros [= <- <-]. split; [|done]. by apply (Hm (joining d) r1 j).
Qed.

Lemma on_form_page_kept {A} (m : eff Page A) :
  keeps I m → keeps (λ j, I (form_page j)) (on_form_page m).
Proof using Type.
  intros Hm j r j' Hj. unfold on_form_page. destruct (m (form_page j)) as [r1 p] eqn:Hrun.
  intros [= <- <-]. by eapply Hm.
Qed.

Lemma form_modify_kept f :
  (∀ j, form_page (f j) = form_page j) → keeps (λ j, I (form_page j)) (modify f).
Proof using Type. intros Hf. apply keeps_modify. intros j. by rewrite Hf. Qed.

Lemma desk_modify_kept f : (∀ d, d_screen (f d) = d_screen d) → keeps on_desk (modify f).
Proof using Type. intros Hf. apply keeps_modify. intros d. unfold on_desk. by rewrite Hf. Qed.

#[local] Hint Extern 1 (keeps (λ j, I (form_page j)) (modify _)) =>
  apply form_modify_kept; reflexivity : keeps.
#[local] Hint Extern 1 (keeps on_desk (modify _)) => apply desk_modify_kept; reflexivity : keeps.

Lemma logError_kept err : keeps (λ j, I (form_page j)) (logError err).
Proof using HI. apply on_form_page_kept, (dispatch_notify_kept I (page_frame I HI)). Qed.

Lemma handleSubmit_kept : keeps (λ j, I (form_page j)) handleSubmit.
Proof using HI.
  pose proof (λ A m, @on_form_page_kept A m). pose proof (dispatch_pending_kept I (page_frame I HI)).
  unfold handleSubmit, set_form_error. repeat keeps_step.
Qed.

Lemma stream_awaited_kept nickname err : keeps (λ j, I (form_page j)) (stream_awaited nickname err).
Proof using HI.
  pose proof (λ A m, @on_form_page_kept A m). pose proof (dispatch_notify_kept I (page_frame I HI)).
  pose proof (λ nickname, dial_kept I (page_frame I HI) nickname (pr_emit I HI _)). pose proof logError_kept.
  unfold stream_awaited, set_form_error. repeat keeps_step.
Qed.

Lemma dial_awaited_kept err : keeps (λ j, I (form_page j)) (dial_awaited err).
Proof using HI. unfold dial_awaited. pose proof logError_kept. repeat keeps_step. Qed.

Lemma handleDevice_kept kind c m : keeps I (handleDevice kind c m).
Proof using HI.
  unfold handleDevice, dropdown_getMediaTrack. pose proof (pr_dispatch I HI).
  pose proof (dispatch_pending_kept I (page_frame I HI)). repeat keeps_step.
Qed.

(** What is not on the screen. *)
Lemma desk_run_kept ev : (∀ ev', ev ≠ on_screen ev') → keeps on_desk (desk_run ev).
Proof using HI.
  intros Hev. pose proof (pr_dispatch I HI) as Hd. pose proof (dispatch_pending_kept I (page_frame I HI)) as Hp.
  pose proof (λ A m, @screen_op_kept A m) as Hscreen. pose proof (λ A m, @form_op_kept A m) as Hform.
  destruct ev as [ev| |v|[] c| |i err| |kind|kind|kind c]; cbn [desk_run];
    [by destruct (Hev ev)|..]; auto with keeps;
    try (apply Hscreen; first [apply Hd|apply Hp]).
  - apply Hform. unfold handleNicknameChange. auto with keeps.
  - unfold submit_form, wait_for. apply keeps_bind; [apply Hform, handleSubmit_kept|].
    intros asked. repeat keeps_step.
  - unfold resume, wait_for. do 2 (apply keeps_bind; [auto with keeps|intros ?]).
    case_match; [|auto with keeps]. case_match.
    + apply keeps_bind; [apply Hform, stream_awaited_kept|]. intros o. repeat keeps_step.
    + apply Hform, dial_awaited_kept.
  - unfold pick_device. do 2 (apply keeps_bind; [auto with keeps|intros ?]).
    apply keeps_bind; [apply Hscreen, handleDevice_kept|intros r]. auto with keeps.
Qed.
End rules.

Lemma desk_session_lock url d :
  desk_session url d → lock_is url (encrypted (ui (d_screen d))) (codec (world (page (d_screen d)))).
Proof.
  induction 1 as [stored nickname ok|d ev r d' _ IH Hev Hrun].
  - split; [apply new_codec_inv|]. by destruct ok.
  - assert ((∃ ev', ev = on_screen ev') ∨ ∀ ev', ev ≠ on_screen ev') as [[ev' ->]|Hne]
      by (destruct ev; eauto; right; discriminate).
    + cbn [desk_run] in Hrun. unfold screen_op in Hrun.
      destruct (ui_run ev' (d_screen d)) as [r1 s] eqn:Hui. injection Hrun as <- <-.
      by eapply ui_run_lock.
    + destruct (desk_run_kept (λ p, lock_is url (encrypted (ui (d_screen d))) (codec (world p)))
        (lock_rules _ _) (encrypted (ui (d_screen d))) ev Hne d r d') as [Hl Hb]; [done|done|].
      by rewrite Hb.
Qed.
End desk.

(** * The lock *)

Section lock.
Context `{Platform} `{Lodash} `{ObjectKeys} `{EncodedStreams} `{TextCodec} `{!JSON} `{Window}
  `{SubtleCrypto}.

(** The lock of the toolbar can be relied on.  Whatever the user does on the screen,
    in the form and in the menus, and whatever happens to the page, once the worker has handled what it was posted:
    while the lock is closed a password is set, and all that leaves the worker for a
    frame is sealed with a key of a password, of the last one when no derivation is
    under way; while it is open, the worker has no password. *)
Lemma desk_lock url d es w :
  desk_session url d →
  omap (λ e, match e with Posted msg => Some msg | KeyReady _ => None end) es
    = posted (codec (world (page (d_screen d)))) →
  worker_run es new_worker = Some w →
  (encrypted (ui (d_screen d)) = true →
     password w ≠ "" ∧
     ∀ iv f out, InsertableStreams.encrypt w iv f = Ok out →
       out = [] ∨ ∃ pw, pw ≠ "" ∧ (InsertableStreams.pending w = [] → pw = password w) ∧
                        out = [sealed (derived pw url userId) iv f]) ∧
  (encrypted (ui (d_screen d)) = false → password w = "").
Proof.
  intros [Hc Hb]%desk_session_lock Hes Hrun.
  pose proof (worker_run_password _ _ _ Hrun) as Hpw. rewrite Hes in Hpw. simpl in Hpw.
  rewrite Hb. split.
  - intros [Hw Hset%bool_decide_eq_true]%andb_true_iff. rewrite Hpw. split; [done|].
    intros iv f out Henc. rewrite <-Hpw. rewrite <-Hpw in Hset.
    eapply (encrypt_hides url userId); [by eapply posted_reachable|done|done].
  - intros [Hw|Hset%bool_decide_eq_false]%andb_false_iff.
    + destruct Hc as [_ _ _ _ Hp]. rewrite Hw in Hp. destruct Hp as [Hp _]. by rewrite Hp in Hpw.
    + rewrite Hpw. by destruct (decide (last_password (posted (codec (world (page (d_screen d))))) "" = "")).
Qed.
End lock.
