(* ===== verification/WellFormed.v ===== *)
(** The shape of a page's state: what its types would say if they could. *)

From S2P Require Import Prelude Bytes TextCodec Encoder Decoder Objects InsertableStreams InsertableCodec Actions World Logic Streams StreamsInv StreamsSafety Peers Media Users Notices Async Store PeerActions CallActions Chat CallSafety Session SessionSafety PageRules Promises ScreenSafety.

#[local] Abbreviation list := Datatypes.list.

Section shape.
Context `{Platform} `{Lodash} `{ObjectKeys} `{EncodedStreams} `{TextCodec} `{!JSON} `{Window}.

(** What the reducers make of the parts that are pure. *)
Lemma reducers_parts time s action w s' w' :
  reducers time s action w = (Ok s', w') →
  st_messages s' = messages toLocaleString time (st_messages s) action ∧
  st_nicknames s' = nicknames userId (st_nicknames s) action ∧
  st_media s' = media (st_media s) action ∧
  st_windowStates s' = windowStates (st_windowStates s) action.
Proof.
  unfold reducers, mbind, eff_bind.
  destruct (notifications _ _ w) as [[ns|] w1]; [|done].
  destruct (peers _ _ w1) as [[ps|] w2]; [|done].
  destruct (streams _ _ w2) as [[ss|] w3]; [|done]. by intros [= <- <-].
Qed.

(** ** The count of messages *)

Definition counted (s : MessagesState) : Prop :=
  count s = N.of_nat (length (filter (λ m, m_system m = None) (Notices.list s))).

Lemma messages_counted time s action :
  counted s → counted (messages toLocaleString time s action).
Proof.
  intros Hs. unfold counted in *. destruct action; try done; cbn [messages].
  - cbn [Notices.list count]. rewrite filter_app, length_app. simpl. lia.
  - destruct payload; cbn [handleMessage Notices.list count];
      rewrite filter_app, length_app; simpl; lia.
Qed.

(** C13. In every state of a session: each local stream is stored under its own type
    and each notification under its own id; the counter of the messages is the number
    of those that are not notices; the ids of the known tracks and their places agree, one place to a track; every group of streams is its
    user's and not empty, and its streams are told apart by their ids; and every
    promise that is settled, about to time out or listened for has been made. *)
Theorem page_well_formed url p :
  session url p →
  let s := state p in
  (∀ k ls, localStreams (st_streams s) !! k = Some ls → k = stream_type_key (ls_type ls)) ∧
  (∀ k n, st_notifications s !! k = Some n → n_id n = k) ∧
  count (st_messages s) =
    N.of_nat (length (filter (λ m, m_system m = None) (Notices.list (st_messages s)))) ∧
  (∀ id key, trackIdToPeerIdMid (st_streams s) !! id = Some key ↔
     ∃ ti, tracksByPeerIdMid (st_streams s) !! key = Some ti ∧ track_id (ti_track ti) = id) ∧
  (∀ u us, streamsByUserId (st_streams s) !! u = Some us →
     us_userId us = u ∧ us_streams us ≠ [] ∧ NoDup (streamId <$> us_streams us)) ∧
  (∀ n, n ∈ settled (promises p) ∨ n ∈ dial_timeouts (promises p) ∨
        (∃ r, r ∈ listeners p ∧ r_listener r = resolve_dial n) → n < next_promise (promises p)).
Proof.
  intros Hs s. pose proof (session_inv _ _ Hs) as (L & [Hap [[Hi _] _ _ _ _ Hn]] & _).
  pose proof (session_promises _ _ Hs) as [Hps Hpt Hpl]. split_and!.
  - by apply (session_local_keys url p).
  - intros k n Hk. by apply (Hn k n).
  - apply (session_part (λ s, counted (st_messages s)) url p); [done| |done].
    intros time s0 action w s' w' Hs0 (Hm & _)%reducers_parts. rewrite Hm. by apply messages_counted.
  - intros id key. pose proof (mo_ids _ _ _ (inv_maps _ _ _ Hi) id key) as Hids. unfold s.
    etransitivity; [exact Hids|]. set_solver.
  - intros u us Hu. destruct (so_users _ _ (inv_streams _ _ _ Hi) u us Hu) as [Hid Hne].
    split_and!; [done|done|]. pose proof (so_ids _ _ (inv_streams _ _ _ Hi) u) as Hnd.
    unfold s in Hu. unfold streams_of in Hnd. by rewrite Hu in Hnd.
  - intros n [Hn'|[Hn'|(r & Hr & Hrn)]]; [by apply Hps|by apply Hpt|by eapply Hpl].
Qed.
End shape.

(** * Instances *)

#[local] Existing Instance some_platform.
#[local] Existing Instance some_lodash.
#[local] Existing Instance some_object_keys.
#[local] Existing Instance once_streams.
#[local] Existing Instance ascii_codec.
#[local] Existing Instance some_json.
#[local] Existing Instance CallSafety.demo_window.

Lemma page_well_formed_witness :
  session "url" (demo_page 4) ∧
  trackIdToPeerIdMid (st_streams (state (demo_page 4))) !! track_id demo_track = Some "bob::0".
Proof.
  split; [exact demo_session|].
  destruct (page_well_formed "url" (demo_page 4) demo_session) as (_ & _ & _ & Hids & _).
  apply Hids. eexists. split; vm_compute; reflexivity.
Defined.
