(* ===== verification/PageFrames.v ===== *)
(** What the events of a page leave alone: the peers it has, what their decoders hold,
    and what has been sent to them. *)

From S2P Require Import Prelude Bytes TextCodec Encoder Decoder Objects InsertableStreams InsertableCodec Actions World Logic Streams StreamsInv Peers PeersSafety Media Users Notices Async Store PeerActions CallActions Chat CallSafety Session PageRules WellFormed.

#[local] Abbreviation list := Datatypes.list.

(** What has been collected of the messages that come from a peer. *)
Definition decoder_of (p : Page) (n : PeerRef) : option DecoderState := ph_decoder <$> handlers p !! n.

(** Each peer is one user's, and has been made. *)
Record peers_known (p : Page) : Prop := {
  pk_user u v n : st_peers (state p) !! u = Some n → st_peers (state p) !! v = Some n → u = v;
  pk_made u n : st_peers (state p) !! u = Some n → n < next_peer (world p);
  pk_handler n : is_Some (decoder_of p n) → n < next_peer (world p);
}.

(** A later state of a page: it has no peer again that it has given up, and but for
    [x] the decoders hold what they held. *)
Record later_page (x : option PeerRef) (p0 p : Page) : Prop := {
  lp_known : peers_known p;
  lp_next : next_peer (world p0) ≤ next_peer (world p);
  lp_peers u n : st_peers (state p) !! u = Some n →
    st_peers (state p0) !! u = Some n ∨ next_peer (world p0) ≤ n;
  lp_decoders n : n < next_peer (world p0) → Some n ≠ x → decoder_of p n = decoder_of p0 n;
}.

Definition is_sent (e : Effect) : bool := match e with PeerCalled _ call => is_send call | _ => false end.

(** Nothing has been sent on a data channel meanwhile. *)
Definition adds_unsent (es0 es : list Effect) : Prop :=
  ∃ new, es = es0 ++ new ∧ Forall (λ e, is_sent e = false) new.
Definition nothing_sent (p0 p : Page) : Prop :=
  encoder p = encoder p0 ∧ worker_events p = worker_events p0 ∧
  adds_unsent (effects (world p0)) (effects (world p)).

#[export] Instance adds_unsent_preorder : PreOrder adds_unsent.
Proof.
  split.
  - intros es. exists []. by rewrite app_nil_r.
  - intros es1 es2 es3 (new & -> & H1) (new' & -> & H2). exists (new ++ new').
    rewrite (assoc_L (++)). split; [done|]. by apply Forall_app.
Qed.
#[export] Instance nothing_sent_preorder : PreOrder nothing_sent.
Proof.
  split; [done|]. intros p1 p2 p3 (He & Hw & Hs) (He' & Hw' & Hs').
  split_and!; [congruence|congruence|by etrans].
Qed.

Lemma adds_unsent_one es e : is_sent e = false → adds_unsent es (es ++ [e]).
Proof. intros He. exists [e]. split; [done|]. by repeat constructor. Qed.

(** A page is later than itself. *)
Lemma later_page_refl x p : peers_known p → later_page x p p.
Proof. intros Hp. split; [done|done|by left|done]. Qed.

(** With [quietly], nothing has been sent either. *)
Definition framed (x : option PeerRef) (quietly : bool) (p0 p : Page) : Prop :=
  later_page x p0 p ∧ (quietly = true → nothing_sent p0 p).

Section step.
Context (x : option PeerRef) (quietly : bool).

(** No new peer. *)
Lemma framed_step p0 p p' :
  framed x quietly p0 p → next_peer (world p) ≤ next_peer (world p') →
  st_peers (state p') ⊆ st_peers (state p) →
  (∀ n, Some n ≠ x → decoder_of p' n = decoder_of p n) →
  (∀ n, is_Some (decoder_of p' n) → is_Some (decoder_of p n)) →
  (quietly = true → nothing_sent p p') → framed x quietly p0 p'.
Proof.
  intros [[[Hu Hm Hh] Hn Hp Hd] Hq] Hn' Hsub Hdec Hdom Hq'.
  assert (∀ u n, st_peers (state p') !! u = Some n → st_peers (state p) !! u = Some n) as Hin
    by (intros u n Hun; by eapply lookup_weaken).
  split; [split; [split| | |]|].
  - intros u v n Hun Hvn. eapply Hu; by apply Hin.
  - intros u n Hun%Hin%Hm. lia.
  - intros n Hs%Hdom%Hh. lia.
  - lia.
  - intros u n Hun%Hin. by apply Hp.
  - intros n Hlt Hx. rewrite Hdec by done. by apply Hd.
  - intros Hqt. etrans; [by apply Hq|by apply Hq'].
Qed.

(** One new peer. *)
Lemma framed_new p0 p p' user :
  framed x quietly p0 p → next_peer (world p') = S (next_peer (world p)) →
  st_peers (state p') = <[user := next_peer (world p)]> (st_peers (state p)) →
  (∀ n, n ≠ next_peer (world p) → decoder_of p' n = decoder_of p n) →
  (quietly = true → nothing_sent p p') → framed x quietly p0 p'.
Proof.
  intros [[[Hu Hm Hh] Hn Hp Hd] Hq] Hn' Hps Hdec Hq'.
  assert (∀ u n, st_peers (state p') !! u = Some n →
    (u = user ∧ n = next_peer (world p)) ∨ (st_peers (state p) !! u = Some n ∧ n < next_peer (world p))) as Hin.
  { intros u n. rewrite Hps. intros [[<- <-]|[_ Hun]]%lookup_insert_Some; [by left|right].
    split; [done|by eapply Hm]. }
  split; [split; [split| | |]|].
  - intros u v n [[-> ->]|[Hun Hlt]]%Hin [[-> Heq]|[Hvn Hlt']]%Hin; [done|lia|lia|by eapply Hu].
  - intros u n [[_ ->]|[_ Hlt]]%Hin; lia.
  - intros n Hs. destruct (decide (n = next_peer (world p))) as [->|Hne]; [lia|].
    rewrite Hdec in Hs by done. apply Hh in Hs. lia.
  - lia.
  - intros u n [[_ ->]|[Hun _]]%Hin; [right; lia|]. by apply Hp.
  - intros n Hlt Hx. rewrite Hdec by lia. by apply Hd.
  - intros Hqt. etrans; [by apply Hq|by apply Hq'].
Qed.
End step.

Section frames.
Context `{Platform} `{Lodash} `{ObjectKeys} `{EncodedStreams} `{TextCodec} `{!JSON} `{Window}.
Context (x : option PeerRef) (quietly : bool).

(** ** The world *)

Definition world_later (w0 w : World) : Prop :=
  next_peer w0 ≤ next_peer w ∧ (quietly = true → adds_unsent (effects w0) (effects w)).

Lemma world_later_emit w0 w e :
  is_sent e = false → world_later w0 w → world_later w0 (set_effects (λ es, es ++ [e]) w).
Proof.
  intros He [Hn Hq]. split; [done|]. intros Hqt. etrans; [by apply Hq|]. by apply adds_unsent_one.
Qed.

Lemma world_later_kept_emit w0 e : is_call e = false → keeps (world_later w0) (World.emit e).
Proof. intros He w r w' Hw [= <- <-]. apply world_later_emit; [by destruct e|done]. Qed.

Lemma world_later_call w0 peer call :
  (quietly = true → is_send call = false) → keeps (world_later w0) (call_peer peer call).
Proof.
  intros Hc w r w' [Hn Hq] [= <- <-]. split; [done|]. intros Hqt.
  etrans; [by apply Hq|]. by apply adds_unsent_one, Hc.
Qed.

Lemma world_later_codec w0 op : keeps (world_later w0) (codec_op op).
Proof. intros w r w' Hw. unfold codec_op. destruct (codec_call op (codec w)). by intros [= <- <-]. Qed.

Lemma world_later_rules w0 : world_rules (world_later w0).
Proof.
  split.
  - intros w w' He Hn _ [Hn' Hq]. unfold world_later. by rewrite He, Hn.
  - intros peer call Hc. by apply world_later_call.
  - intros e He. apply world_later_kept_emit. by destruct e.
  - intros b s w r w' [Hn Hq] [= <- <-]. apply (world_later_emit _ (set_next_peer _ w)); [done|].
    split; [cbn; lia|done].
Qed.

Lemma lift_framed {A} (m : eff World A) p0 :
  (∀ w0, keeps (world_later w0) m) → keeps (framed x quietly p0) (lift m).
Proof.
  intros Hm p r p' Hp. unfold lift. destruct (m (world p)) as [r1 w1] eqn:Hrun. intros [= <- <-].
  destruct (Hm (world p) (world p) r1 w1) as [Hn Hq]; [split; reflexivity|done|].
  apply (framed_step x quietly p0 p); try done. intros Hqt. split_and!; [done|done|by apply Hq].
Qed.

(** ** Dispatches *)

(** The peers reducer adds none by itself. *)
Lemma peers_sub ps action w ps' w' :
  plain_action action = true → peers ps action w = (Ok ps', w') → ps' ⊆ ps.
Proof.
  intros Ha. assert (ensures (λ _, True) (λ ps', ps' ⊆ ps) (peers ps action)) as He;
    [|intros Hrun; by destruct (He w (Ok ps') w' I Hrun) as [_ Hs]; apply Hs].
  assert (∀ A B (Q : B → Prop) (m : eff World A) f,
    (∀ a, ensures (λ _, True) Q (f a)) → ensures (λ _ : World, True) Q (m ≫= f)) as Hbind.
  { intros A B Q m f Hf. by apply (ensures_bind _ true_of). }
  assert (ensures (λ _ : World, True) (λ ps', ps' ⊆ ps) (mret ps)) as Hret by by apply ensures_ret.
  destruct action; try done; cbn [peers]; try done;
    unfold handleRemoveLocalStream, handleLocalMediaStream, handleLocalMediaTrack, handleLocalMediaTrackEnable;
    repeat first [done|apply Hbind; intros ?|case_match];
    apply ensures_ret; apply map_subseteq_spec; intros u n.
  - unfold no_peers. by rewrite lookup_empty.
  - rewrite omit_lookup. by case_decide.
Qed.

Lemma reducers_peers time s action w s' w' :
  plain_action action = true → reducers time s action w = (Ok s', w') → st_peers s' ⊆ st_peers s.
Proof.
  intros Ha. unfold reducers, mbind, eff_bind.
  destruct (notifications _ _ w) as [[ns|] w1]; [|done].
  destruct (peers _ _ w1) as [[ps|] w2] eqn:Hps; [|done].
  destruct (streams _ _ w2) as [[ss|] w3]; [|done]. intros [= <- _]. by eapply peers_sub.
Qed.

Lemma dispatch_framed p0 action :
  plain_action action = true → keeps (framed x quietly p0) (dispatch_plain action).
Proof.
  intros Ha p r p' Hp Hrun. assert (store_reduce action p = (r, p')) as Hred by (by destruct action).
  unfold store_reduce, lift, mbind, eff_bind, gets, modify in Hred.
  destruct (reducers (now p) (state p) action (world p)) as [r1 w1] eqn:Hr.
  destruct (reducers_world _ (world_later_rules (world p)) (now p) (state p) action
    (λ sender, world_later_codec _ _) (world p) r1 w1) as [Hn Hq]; [split; reflexivity|done|].
  destruct r1 as [s'|e]; injection Hred as <- <-.
  - apply (framed_step x quietly p0 p); try done; [by eapply reducers_peers|].
    intros Hqt. split_and!; [done|done|by apply Hq].
  - apply (framed_step x quietly p0 p); try done. intros Hqt. split_and!; [done|done|by apply Hq].
Qed.

(** ** The rules *)

Lemma frame_framed p0 : frame_rules (framed x quietly p0).
Proof.
  split.
  - intros p p' Hs Hw He Hev Hh Hp. apply (framed_step x quietly p0 p); unfold decoder_of; rewrite ?Hs, ?Hw, ?Hh; try done.
    intros _. unfold nothing_sent. by rewrite Hw.
  - apply dispatch_framed.
  - intros peer call Hc. apply lift_framed. intros w0. by apply world_later_call.
  - intros e He. apply lift_framed. intros w0. apply world_later_kept_emit. by destruct e.
  - intros prefix. apply lift_framed. intros w0. apply uniqueId_world, world_later_rules.
  - intros op _. apply lift_framed. intros w0. apply world_later_codec.
  - intros tracks. apply lift_framed. intros w0. apply keeps_modify. by intros w Hw.
  - intros peer ev p r p' Hp Hrun.
    assert (state p' = state p ∧ world p' = world p ∧ encoder p' = encoder p ∧
      worker_events p' = worker_events p ∧ ∀ n, decoder_of p' n = decoder_of p n) as (Hs & Hw & He & Hev & Hd).
    { revert Hrun. unfold take_once. destruct (handlers p !! peer) as [h|] eqn:Hh; [|by intros [= <- <-]].
      destruct ev; intros [= <- <-]; (split_and!; [done..|]); intros n; try done;
        unfold decoder_of; cbn [handlers set_handlers];
        (destruct (decide (n = peer)) as [->|Hn]; [by rewrite lookup_insert_eq, Hh|by rewrite lookup_insert_ne]). }
    apply (framed_step x quietly p0 p); rewrite ?Hs, ?Hw; try done.
    + intros n. by rewrite Hd.
    + intros _. unfold nothing_sent. by rewrite Hw.
  - intros user b s p r p' Hp. unfold add_new_peer.
    rewrite (bind_runs _ _ p (next_peer (world p))
      (set_world (set_effects (λ es, es ++ [PeerCreated (next_peer (world p)) b s])
        (set_next_peer (S (next_peer (world p))) (world p))) p)) by done.
    rewrite (bind_runs _ _ _ tt (set_handlers (<[next_peer (world p) := new_handler user]> (handlers p))
      (set_world (set_effects (λ es, es ++ [PeerCreated (next_peer (world p)) b s])
        (set_next_peer (S (next_peer (world p))) (world p))) p))) by done.
    rewrite dispatch_add_peer. intros [= _ <-]. apply (framed_new x quietly p0 p _ user); try done.
    + intros n Hn. unfold decoder_of. cbn. by rewrite lookup_insert_ne.
    + intros _. split_and!; [done|done|]. by apply adds_unsent_one.
Qed.
End frames.

Section events.
Context `{Platform} `{Lodash} `{ObjectKeys} `{EncodedStreams} `{TextCodec} `{!JSON} `{Window}.

Lemma sending_framed x p0 : sending_rules (framed x false p0).
Proof.
  split.
  - intros e events p Hp. by apply (framed_step x false p0 p).
  - intros peer chunk. apply lift_framed. intros w0. by apply world_later_call.
Qed.

Lemma decode_buffer_framed quietly peer b p0 :
  keeps (framed (Some peer) quietly p0) (decode_buffer peer b).
Proof.
  intros p r p' Hp. unfold decode_buffer. destruct (handlers p !! peer) as [h|] eqn:Hh; [|by intros [= <- <-]].
  destruct (decode (ph_decoder h) b) as [st r1]. intros [= <- <-].
  apply (framed_step (Some peer) quietly p0 p); try done.
  - intros n Hn. unfold decoder_of. cbn. rewrite lookup_insert_ne; congruence.
  - intros n. unfold decoder_of. cbn. destruct (decide (n = peer)) as [->|Hn]; [|by rewrite lookup_insert_ne].
    rewrite Hh. by eexists.
Qed.

(** The peer whose decoder an event uses. *)
Definition decodes (ev : PageEvent) : option PeerRef :=
  match ev with peer_event peer (peer_data _) => Some peer | _ => None end.

Lemma dial_framed x quietly p0 nickname : keeps (framed x quietly p0) (run (user_dials nickname)).
Proof.
  apply (dial_kept _ (frame_framed x quietly p0)), lift_framed. intros w0. by apply world_later_kept_emit.
Qed.

(** An event of a page changes the decoder of the peer it is about only, makes each
    new peer under a number of its own, and sends nothing unless it is one of those
    that encode. *)
Lemma event_framed p ev :
  peers_known p → valid_event p ev → framed (decodes ev) (negb (encodes ev)) p (run ev p).2.
Proof.
  intros Hk Hv. destruct (run ev p) as [r p'] eqn:Hrun. cbn [snd].
  assert (framed (decodes ev) (negb (encodes ev)) p p) as Hp by (split; [by apply later_page_refl|done]).
  destruct (quiet ev) eqn:Hq; [by eapply (quiet_kept _ (frame_framed _ _ p))|].
  destruct (encodes ev) eqn:He.
  { assert (decodes ev = None) as Hd by (by destruct ev). rewrite Hd in *.
    eapply (sending_kept _ (frame_framed None false p) ev (sending_framed _ _) He); [exact Hp|exact Hrun]. }
  destruct ev as [|c|peer []| | | | | | | | | | |nickname| |m|action|pw]; try done.
  - by eapply (data_kept _ (frame_framed _ _ p)); [apply decode_buffer_framed|..].
  - exact (dial_framed None true p nickname p r p' Hp Hrun).
  - destruct action; discriminate Hv || done.
  - revert Hrun. cbn [run]. unfold lift, mbind, eff_bind.
    pose proof (world_later_codec true (world p) (SetPassword pw) (world p)) as Hc.
    destruct (codec_op (SetPassword pw) (world p)) as [[b|e] w1] eqn:Hop;
      (destruct (Hc _ w1 (conj (le_n _) (λ _, reflexivity _)) eq_refl) as [Hn Hs]; intros [= _ <-];
       apply (framed_step None true p p); try done; intros _; split_and!; [done|done|by apply Hs]).
Qed.

(** In every session the peers are known. *)
Lemma session_peers_known url p : session url p → peers_known p.
Proof.
  induction 1 as [stored nickname ok|p ev r p' _ IH Hv Hrun].
  - set (p := opened _ _ _ _).
    assert (st_peers (state p) = ∅ ∧ handlers p = ∅) as [Hps Hhs] by done.
    split; [intros u v n|intros u n|intros n]; unfold decoder_of; rewrite ?Hps, ?Hhs, !lookup_empty; try done.
    by intros [? ?].
  - destruct (event_framed p ev IH Hv) as [[Hk _ _ _] _]. by rewrite Hrun in Hk.
Qed.
End events.
