(* ===== verification/EncoderShim.v ===== *)
(** The encoder without a worker ([src/client/codec/index.ts], [class WorkerShim]): where
    the browser gives none, the worker's function is called by the timer itself and
    its messages are handled while it runs.  It does what the worker does. *)

From S2P Require Import Prelude Numbers Bytes Header TextCodec Encoder Decoder Objects InsertableStreams InsertableCodec Actions World Streams Peers Media Users Notices Async Store PeerActions CallActions Chat CallSafety.

#[local] Abbreviation list := Datatypes.list.
#[local] Open Scope Z_scope.

(** * [class WorkerShim] *)

Section shim.
Context {W : Type}.

(** [onmessage] is [null] until the encoder sets it. *)
Record WorkerShim := { onmessage : option (EncoderEvent → eff W unit) }.
Definition new_WorkerShim : WorkerShim := {| onmessage := None |}.
Definition set_onmessage (f : EncoderEvent → eff W unit) (shim : WorkerShim) : WorkerShim :=
  {| onmessage := Some f |}.

(** [handlePostMessage]: what the worker's function posts. *)
Definition handlePostMessage (shim : WorkerShim) (e : EncoderEvent) : eff W unit :=
  match onmessage shim with Some f => f e | None => mret tt end.

(** The loop of the worker's function, posting as it goes; [None] is out of fuel. *)
Fixpoint shim_loop (shim : WorkerShim) (fuel : nat) (p : WorkerPayload)
    (maxChunkSize totalChunks chunkNum readOffset : Z) (w : W) : option (result unit * W) :=
  match fuel with
  | O => None
  | S fuel =>
    if decide (readOffset < u8_length (wp_data p)) then
      match build_chunk p maxChunkSize totalChunks chunkNum readOffset with
      | Throw e => Some (Throw e, w)
      | Ok (chunk, readSize) =>
        match handlePostMessage shim (ChunkEvent (wp_messageId p) chunkNum totalChunks (wp_senderId p) chunk) w with
        | (Throw e, w) => Some (Throw e, w)
        | (Ok _, w) =>
          shim_loop shim fuel p maxChunkSize totalChunks (chunkNum + 1) (readOffset + readSize) w
        end
      end
    else Some (Ok tt, w)
  end.

(** [postMessage]: the worker's function runs at once. *)
Definition shim_postMessage (shim : WorkerShim) (fuel : nat) (p : WorkerPayload) (w : W) :
    option (result unit * W) :=
  let totalSizeBytes := u8_length (wp_data p) in
  let maxChunkSize := wp_maxMessageSizeBytes p - headerSizeBytes in
  let dataBytesInChunk := maxChunkSize - u8_length (wp_senderIdBytes p) in
  if decide (dataBytesInChunk <= 0) then
    Some (handlePostMessage shim (ErrorEvent (wp_messageId p) (wp_senderId p)
             (Error "Not enough space for data.")) w)
  else
    let totalChunks := math_ceil_div totalSizeBytes dataBytesInChunk in
    match shim_loop shim fuel p maxChunkSize totalChunks 0 0 w with
    | Some (Ok tt, w) =>
        Some (handlePostMessage shim (DoneEvent (wp_messageId p) (wp_senderId p)) w)
    | r => r
    end.

(** ** It posts what the worker posts *)

(** A handler that does not throw. *)
Context (post : EncoderEvent → eff W unit).
Hypothesis (Hpost : ∀ e w, (post e w).1 = Ok tt).

Lemma posts_run es w : (for_each post es w).1 = Ok tt.
Proof using Hpost.
  revert w. induction es as [|e es IH]; intros w; [done|]. cbn [for_each]. unfold mbind, eff_bind.
  pose proof (Hpost e w) as He. destruct (post e w) as [r w1]. cbn in He. subst r. apply IH.
Qed.

Lemma posts_app es es' w : (for_each post (es ++ es') w).2 = (for_each post es' (for_each post es w).2).2.
Proof using Hpost.
  revert w. induction es as [|e es IH]; intros w; [done|]. cbn [app for_each]. unfold mbind, eff_bind.
  pose proof (Hpost e w) as He. destruct (post e w) as [r w1]. cbn in He. subst r. apply IH.
Qed.

Lemma chunk_loop_posted fuel p mx total : ∀ i off posted,
  chunk_loop fuel p mx total i off posted =
  (λ x, (posted ++ x.1, x.2)) <$> chunk_loop fuel p mx total i off [].
Proof using Type.
  induction fuel as [|fuel IH]; intros i off posted; [done|]. cbn [chunk_loop].
  case_decide; [|cbn; by rewrite app_nil_r].
  destruct (build_chunk p mx total i off) as [[chunk size]|e]; [|cbn; by rewrite app_nil_r].
  rewrite IH, (IH _ _ ([] ++ _)). destruct (chunk_loop fuel _ _ _ _ _ []) as [[l r]|]; [|done].
  cbn. by rewrite <-(assoc_L (++)).
Qed.

Lemma shim_loop_posts fuel p mx total : ∀ i off w,
  shim_loop (set_onmessage post new_WorkerShim) fuel p mx total i off w =
  (λ x, (x.2, (for_each post x.1 w).2)) <$> chunk_loop fuel p mx total i off [].
Proof using Hpost.
  induction fuel as [|fuel IH]; intros i off w; [done|]. cbn [shim_loop chunk_loop].
  case_decide; [|done]. destruct (build_chunk p mx total i off) as [[chunk size]|e]; [|done].
  cbn [handlePostMessage onmessage set_onmessage app].
  set (e := ChunkEvent _ _ _ _ _). rewrite chunk_loop_posted.
  pose proof (Hpost e w) as He. destruct (post e w) as [r w1] eqn:Hw. cbn in He. subst r. rewrite IH.
  destruct (chunk_loop fuel _ _ _ _ _ []) as [[l r]|]; [|done]. cbn [fmap option_fmap option_map fst snd].
  do 2 f_equal. change ([e] ++ l) with (e :: l). cbn [for_each]. unfold mbind, eff_bind. by rewrite Hw.
Qed.

(** The messages of the worker's function, handled one after the other. *)
Lemma shim_posts fuel p w :
  shim_postMessage (set_onmessage post new_WorkerShim) fuel p w =
  (λ x, (x.2, (for_each post x.1 w).2)) <$> workerFunc fuel p.
Proof using Hpost.
  assert (∀ e w, post e w = (Ok tt, (for_each post [e] w).2)) as Hone.
  { intros e w'. cbn [for_each]. unfold mbind, eff_bind.
    pose proof (Hpost e w') as He. destruct (post e w') as [r w1]. cbn in He. by subst r. }
  unfold shim_postMessage, workerFunc. case_decide.
  - cbn [handlePostMessage onmessage set_onmessage]. by rewrite Hone.
  - rewrite shim_loop_posts. destruct (chunk_loop _ _ _ _ _ _ _) as [[l [[]|e]]|]; [|done..].
    cbn [fmap option_fmap option_map fst snd handlePostMessage onmessage set_onmessage].
    by rewrite Hone, posts_app.
Qed.
End shim.

(** * The encoder of a page *)

Section page.
Context `{Platform} `{Lodash} `{ObjectKeys} `{EncodedStreams} `{TextCodec} `{!JSON} `{Window}.

(** [this.worker.onmessage]: the event is emitted to its listeners. *)
Definition worker_onmessage (e : EncoderEvent) : eff Page unit :=
  match e with
  | ChunkEvent _ _ _ _ chunk => send_chunk chunk
  | ErrorEvent _ _ err =>
    dispatch_notify error ["Error sending file: {0}"; error_to_string (thrown err)]
  | DoneEvent _ _ => mret tt
  end.

(** [constructor], where [new Worker] has thrown. *)
Definition page_shim : WorkerShim := set_onmessage worker_onmessage new_WorkerShim.

(** The timer of [encode] then. *)
Definition run_encoder_shim (p : Page) : option (result unit * Page) :=
  match scheduled (encoder p) with
  | [] => Some (Ok tt, p)
  | payload :: rest =>
    shim_postMessage page_shim (encode_fuel payload) payload
      (set_encoder {| counter := counter (encoder p);
                      maxMessageSizeBytes := maxMessageSizeBytes (encoder p);
                      scheduled := rest |} (worker_events p) p)
  end.

(** ** The listeners do not look at the encoder *)

Definition blind {A} (m : eff Page A) : Prop :=
  ∀ e events p, m (set_encoder e events p) = ((m p).1, set_encoder e events (m p).2).

Lemma blind_ret {A} (x : A) : blind (mret x).
Proof. done. Qed.
Lemma blind_bind {A B} (m : eff Page A) (f : A → eff Page B) :
  blind m → (∀ x, blind (f x)) → blind (m ≫= f).
Proof.
  intros Hm Hf e events p. unfold mbind, eff_bind. rewrite Hm.
  destruct (m p) as [[x|err] p1]; [|done]. apply Hf.
Qed.
Lemma blind_catch {A} (m : eff Page A) h : blind m → (∀ err, blind (h err)) → blind (catch m h).
Proof.
  intros Hm Hh e events p. unfold catch. rewrite Hm. destruct (m p) as [[x|err] p1]; [done|]. apply Hh.
Qed.
Lemma blind_lift {A} (m : eff World A) : blind (lift m).
Proof. intros e events p. unfold lift. cbn [world set_encoder]. by destruct (m (world p)). Qed.
Lemma blind_for_each {A} (f : A → eff Page unit) l : (∀ x, blind (f x)) → blind (for_each f l).
Proof. intros Hf. induction l as [|x l IH]; [apply blind_ret|]. apply blind_bind; auto. Qed.

Lemma worker_onmessage_blind e : blind (worker_onmessage e).
Proof.
  destruct e as [mid i n sid chunk|mid sid|mid sid err]; cbn [worker_onmessage]; [|apply blind_ret|].
  - unfold send_chunk. apply blind_bind; [by intros ? ? ?|]. intros ps. apply blind_for_each. intros n'.
    apply blind_catch; [|intros err]; (apply blind_bind; [apply blind_lift|intros ?; apply blind_ret]).
  - intros enc events p. unfold error. rewrite !dispatch_notify_run. done.
Qed.

Lemma worker_onmessage_ok e p : (worker_onmessage e p).1 = Ok tt.
Proof.
  destruct e as [mid i n sid chunk|mid sid|mid sid err]; cbn [worker_onmessage]; [|done|].
  - by destruct (send_chunk_run chunk p) as (p' & -> & _).
  - unfold error. by rewrite dispatch_notify_run.
Qed.

Lemma run_worker_event_onmessage e events p enc :
  run_worker_event (set_encoder enc (e :: events) p) = worker_onmessage e (set_encoder enc events p).
Proof. done. Qed.

(** The worker's messages, when they come right after the timer. *)
Lemma worker_events_onmessage enc es : ∀ p,
  run_worker_events (length es) (set_encoder enc es p) =
  (Ok tt, set_encoder enc [] (for_each worker_onmessage es p).2).
Proof.
  unfold run_worker_events. induction es as [|e es IH]; intros p; [done|].
  cbn [length replicate for_each]. unfold mbind, eff_bind at 1. rewrite run_worker_event_onmessage.
  rewrite worker_onmessage_blind. pose proof (worker_onmessage_ok e p) as He.
  unfold eff_bind. destruct (worker_onmessage e p) as [r p1]. cbn in He. subst r. apply IH.
Qed.

(** C24. The encoder does without a worker: where the browser gives none, the timer of
    [encode] runs to its end, without an exception, and leaves the page as the worker
    would whose messages all came right after it. *)
Theorem shim_is_worker p :
  worker_events p = [] →
  ∃ n, run_encoder_shim p = Some ((run_encoder ≫= λ _, run_worker_events n) p) ∧
    ((run_encoder ≫= λ _, run_worker_events n) p).1 = Ok tt ∧
    worker_events ((run_encoder ≫= λ _, run_worker_events n) p).2 = [].
Proof.
  intros Hev. unfold run_encoder_shim. destruct (scheduled (encoder p)) as [|payload rest] eqn:Hs.
  - exists 0%nat. unfold mbind, eff_bind, run_encoder, modify. rewrite Hs. done.
  - set (enc := {| counter := _ |}).
    assert (∃ posted, workerFunc (encode_fuel payload) payload = Some (posted, Ok tt)) as [posted Hw].
    { destruct (decide (capacity payload = 0%nat)) as [Hc|Hc]; [by eexists; apply workerFunc_no_space|].
      eexists. apply workerFunc_spec; [lia|done]. }
    exists (length posted). rewrite Hev.
    rewrite (bind_runs _ _ _ _ _ (run_encoder_first p payload rest posted (Ok tt) Hs Hw)), Hev. cbn [app].
    fold enc. rewrite worker_events_onmessage. split; [|done].
    unfold page_shim. rewrite shim_posts by apply worker_onmessage_ok. rewrite Hw.
    cbn [fmap option_fmap option_map fst snd]. do 2 f_equal.
    assert (blind (for_each worker_onmessage posted)) as Hb by (apply blind_for_each, worker_onmessage_blind).
    by rewrite Hb.
Qed.
End page.

(** * Instances *)

#[local] Existing Instance some_platform.
#[local] Existing Instance some_lodash.
#[local] Existing Instance some_object_keys.
#[local] Existing Instance once_streams.
#[local] Existing Instance ascii_codec.
#[local] Existing Instance some_json.

(** Alice has just sent something. *)
Definition hello_scheduled : Page :=
  let _ := some_window "alice" in (dispatch_plain (MessageSendAction hello) alice_page).2.

Lemma shim_is_worker_witness :
  let _ := some_window "alice" in
  worker_events hello_scheduled = [] ∧
  ∃ n, run_encoder_shim hello_scheduled = Some ((run_encoder ≫= λ _, run_worker_events n) hello_scheduled).
Proof.
  intros W. assert (worker_events hello_scheduled = []) as Hev by (vm_compute; reflexivity).
  split; [exact Hev|]. destruct (shim_is_worker hello_scheduled Hev) as (n & Hn & _). exists n. exact Hn.
Defined.
