(* ===== verification/ChatLine.v ===== *)
(** A conversation: two pages in sessions of their own, and the data channel between
    them.  Whatever else the two pages do, it is a queue of messages. *)

From S2P Require Import Prelude Numbers Bytes Header TextCodec Encoder Decoder Codec Objects InsertableStreams InsertableCodec Actions World Logic Streams StreamsInv Peers Media Users Notices Async Store PeerActions CallActions Chat CallSafety Session PageRules WellFormed PageFrames.

#[local] Abbreviation list := Datatypes.list.

(** * The chunks of messages, one message after the other *)

Section stream.
Context `{TextCodec}.

(** A message that has something in it and fits the header's fields. *)
Definition sendable (p : WorkerPayload) : Prop := message_ok p ∧ wp_data p ≠ [].

Definition stream_of (ps : list WorkerPayload) : list u8array := ps ≫= chunks.

(** The messages among the results of a decoder. *)
Definition messages_in (rs : list (result (option DataContainer))) : list DataContainer :=
  omap (λ r, match r with Ok d => d | Throw _ => None end) rs.
Definition is_ok {A} (r : result A) : Prop := match r with Ok _ => True | Throw _ => False end.

Lemma decode_all_app l : ∀ st l',
  decode_all st (l ++ l') =
  let '(st1, rs) := decode_all st l in let '(st2, rs') := decode_all st1 l' in (st2, rs ++ rs').
Proof.
  induction l as [|b l IH]; intros st l'; cbn [decode_all app].
  - by destruct (decode_all st l').
  - destruct (decode st b) as [st1 r]. rewrite IH. destruct (decode_all st1 l) as [st2 rs].
    by destruct (decode_all st2 l').
Qed.

Lemma decode_all_length l : ∀ st, length (decode_all st l).2 = length l.
Proof.
  induction l as [|b l IH]; intros st; [done|]. cbn [decode_all].
  destruct (decode st b) as [st1 r]. specialize (IH st1). destruct (decode_all st1 l). cbn in *. by rewrite IH.
Qed.

Lemma decode_message p :
  sendable p →
  decode_all ∅ (chunks p) = (∅, replicate (n_chunks p - 1) (Ok None) ++ [Ok (Some (message_container p))]).
Proof. intros [Hp Hd]. by apply decode_all_permuted. Qed.

(** A decoder that has been given the beginning of a message has nothing yet. *)
Lemma decode_beginning p got rest :
  sendable p → got ++ rest = chunks p → rest ≠ [] →
  Forall is_ok (decode_all ∅ got).2 ∧ messages_in (decode_all ∅ got).2 = [].
Proof.
  intros Hp Hg Hr. pose proof (decode_message p Hp) as Hall. rewrite <-Hg, decode_all_app in Hall.
  destruct (decode_all ∅ got) as [st1 rs]. pose proof (decode_all_length rest st1) as Hlen.
  destruct (decode_all st1 rest) as [st2 rs']. injection Hall as _ Hrs. cbn in *.
  destruct rs' as [|r rs' _] using rev_ind; [by destruct rest|].
  rewrite (assoc_L (++)) in Hrs. apply app_inj_tail in Hrs as [Hrs _].
  assert (∀ r, r ∈ rs → r = Ok None) as Hin.
  { intros r' Hr'. eapply elem_of_replicate_inv. rewrite <-Hrs. apply elem_of_app. by left. }
  clear -Hin. induction rs as [|r' rs IH]; [done|].
  destruct IH as [H1 H2]; [intros; apply Hin; by right|]. rewrite (Hin r') by left. split; [by constructor|done].
Qed.

(** One that has been given the beginning of a stream has the messages that are
    complete, in order. *)
Lemma decode_stream ps : ∀ got rest,
  Forall sendable ps → got ++ rest = stream_of ps →
  Forall is_ok (decode_all ∅ got).2 ∧
  ∃ k, k ≤ length ps ∧ messages_in (decode_all ∅ got).2 = message_container <$> take k ps ∧
    (rest = [] → k = length ps).
Proof.
  induction ps as [|p ps IH]; intros got rest Hps Heq.
  - apply app_nil in Heq as [-> ->]. split; [done|]. by exists 0.
  - apply Forall_cons in Hps as [Hp Hps]. cbn [stream_of mbind list_bind] in Heq.
    assert (∀ got', got = chunks p ++ got' → got' ++ rest = stream_of ps →
      Forall is_ok (decode_all ∅ got).2 ∧ ∃ k, k ≤ length (p :: ps) ∧
        messages_in (decode_all ∅ got).2 = message_container <$> take k (p :: ps) ∧
        (rest = [] → k = length (p :: ps))) as Hwhole.
    { intros got' -> Hg. destruct (IH got' rest Hps Hg) as (Hok & k & Hk & Hm & Hend).
      rewrite decode_all_app, decode_message by done. destruct (decode_all ∅ got') as [st rs]. cbn in *.
      assert (messages_in (replicate (n_chunks p - 1) (Ok None) ++ [Ok (Some (message_container p))]) =
        [message_container p]) as Hone.
      { unfold messages_in. rewrite omap_app. by induction (n_chunks p - 1). }
      split; [apply Forall_app; split; [|done]; apply Forall_app; split; [|by repeat constructor];
              by apply Forall_replicate|].
      exists (S k). split; [lia|]. split; [|intros Hr; by rewrite Hend].
      unfold messages_in in *. rewrite omap_app, Hm, Hone. done. }
    apply app_eq_inv in Heq as [(k & Hg & Hk)|(k & Hg & Hk)]; [by apply (Hwhole k)|].
    destruct k as [|b k].
    + apply (Hwhole []); [by rewrite Hg, !app_nil_r|done].
    + destruct (decode_beginning p got (b :: k) Hp) as [Hok Hm]; [done|done|].
      split; [done|]. exists 0. split; [lia|]. split; [done|]. by rewrite Hk.
Qed.
End stream.

(** * The messages of a page *)

Section messages.
Context `{Platform} `{Lodash} `{ObjectKeys} `{EncodedStreams} `{TextCodec} `{!JSON} `{Window}.

(** The entries of the chat stay, whatever happens. *)
Lemma run_messages_grow ev p : messages_of p `prefix_of` messages_of (run ev p).2.
Proof.
  destruct (run ev p) as [r p'] eqn:Hrun. cbn [snd].
  set (I := λ s, messages_of p `prefix_of` Notices.list (st_messages s)).
  assert (page_rules (λ q, I (state q))) as HI.
  { apply state_rules. intros time s action w s' w' Hs Hred. unfold I in *.
    destruct (reducers_parts time s action w s' w' Hred) as (-> & _).
    etrans; [exact Hs|]. destruct action; cbn [messages]; try done; [by eexists|].
    by destruct payload; eexists. }
  assert ((∃ pw, ev = user_sets_password pw) ∨ ∀ pw, ev ≠ user_sets_password pw) as [[pw ->]|Hev]
    by (destruct ev; eauto; right; discriminate).
  - revert Hrun. cbn [run]. unfold lift, codec_op, mbind, eff_bind.
    destruct (codec_call _ _) as [b c]. by intros [= _ <-].
  - apply (event_kept _ HI ev Hev p r p'); [|done]. unfold I. done.
Qed.
End messages.

(** * The data channel *)

Section channel.
Context `{Platform} (a : PeerRef).

(** What a page has sent to peer [a] and the peer has accepted. *)
Definition accepts (before : list Effect) (e : Effect) : list u8array :=
  match e with
  | PeerCalled n (p_send chunk) =>
    if decide (n = a) then match peer_call before n (p_send chunk) with Ok _ => [chunk] | Throw _ => [] end
    else []
  | _ => []
  end.
Fixpoint accepted_after (before es : list Effect) : list u8array :=
  match es with
  | [] => []
  | e :: es => accepts before e ++ accepted_after (before ++ [e]) es
  end.
Definition accepted (p : Page) : list u8array := accepted_after [] (effects (world p)).

Lemma accepted_app es : ∀ before es',
  accepted_after before (es ++ es') = accepted_after before es ++ accepted_after (before ++ es) es'.
Proof.
  induction es as [|e es IH]; intros before es'; cbn [app accepted_after]; [by rewrite app_nil_r|].
  by rewrite IH, <-!(assoc_L (++)).
Qed.

Lemma accepted_none es : ∀ before,
  (∀ before' e, e ∈ es → accepts before' e = []) → accepted_after before es = [].
Proof.
  induction es as [|e es IH]; intros before Hes; [done|]. cbn [accepted_after].
  rewrite Hes by left. apply IH. intros before' e' He. apply Hes. by right.
Qed.

Lemma accepted_unsent es es' : adds_unsent es es' → accepted_after [] es' = accepted_after [] es.
Proof.
  intros (new & -> & Hnew). rewrite accepted_app, (accepted_none new), app_nil_r; [done|].
  intros before e He. rewrite Forall_forall in Hnew. specialize (Hnew e He).
  destruct e as [| | | | |n []| | | | |]; done.
Qed.

(** A chunk goes to every peer, to each once. *)
Lemma accepted_log `{ObjectKeys} ps chunk before :
  (∀ u v n, (ps : PeersState) !! u = Some n → ps !! v = Some n → u = v) →
  ((∀ u, ps !! u ≠ Some a) ∧ accepted_after before (chunk_log ps chunk) = []) ∨
  ∃ es es', chunk_log ps chunk = es ++ PeerCalled a (p_send chunk) :: es' ∧
    accepted_after before (chunk_log ps chunk) = accepts (before ++ es) (PeerCalled a (p_send chunk)).
Proof.
  intros Hinj. assert (∀ n, n ∈ peer_list ps ↔ ∃ u, ps !! u = Some n) as Hin.
  { intros n. unfold peer_list. rewrite list_elem_of_fmap. split.
    - intros ([u n'] & -> & Hu%elem_of_object_entries). by exists u.
    - intros [u Hu]. exists (u, n). split; [done|]. by apply elem_of_object_entries. }
  assert (NoDup (peer_list ps)) as Hnd.
  { unfold peer_list. rewrite object_entries_perm. apply NoDup_fmap_2_strong; [|apply NoDup_map_to_list].
    intros [u n] [v n'] Hu%elem_of_map_to_list Hv%elem_of_map_to_list. cbn. intros <-.
    by rewrite (Hinj u v n). }
  assert (∀ l before, a ∉ l → accepted_after before ((λ n, PeerCalled n (p_send chunk)) <$> l) = []) as Hother.
  { intros l before' Hl. apply accepted_none. intros before'' e (n & -> & Hn)%list_elem_of_fmap.
    cbn. rewrite decide_False; [done|]. by intros ->. }
  destruct (decide (a ∈ peer_list ps)) as [Ha|Ha].
  - right. apply list_elem_of_split in Ha as (l1 & l2 & Hl). unfold chunk_log. rewrite Hl in *.
    apply NoDup_app in Hnd as (_ & Hd & Hnd2%NoDup_cons). destruct Hnd2 as [Ha2 _].
    assert (a ∉ l1) as Ha1 by (intros H1; apply (Hd a H1); left).
    eexists _, _. rewrite fmap_app, fmap_cons. split; [reflexivity|].
    rewrite accepted_app, (Hother l1) by done. cbn [accepted_after app].
    by rewrite (Hother l2), app_nil_r by done.
  - left. split; [|by apply Hother]. intros u Hu. apply Ha, Hin. by exists u.
Qed.
End channel.

(** * The two pages *)

Record Line := {
  at_sender : Page;
  at_receiver : Page;
  (** how many of the chunks the channel has delivered, and the entries they have
      made in the receiver's chat *)
  delivered : nat;
  arrived : list Notices.Message;
}.

Inductive LineEvent :=
  | sender_does (ev : PageEvent)
  | receiver_does (ev : PageEvent)
  | line_delivers.

(** The messages an event sends. *)
Definition sent_by (ev : LineEvent) : list MessageType :=
  match ev with sender_does (user_sends m) => [m] | _ => [] end.

Section line.
Context `{Lodash} `{ObjectKeys} `{TextCodec} `{!JSON}.
(** The two pages have their own browsers and constants; [a] is the sender's peer
    for the receiver, [b] the receiver's for the sender. *)
Context (P_s P_r : Platform) (E_s E_r : EncodedStreams) (W_s W_r : Window) (a b : PeerRef).

Definition sender_run (ev : PageEvent) : eff Page unit := @run P_s _ _ E_s _ _ W_s ev.
Definition receiver_run (ev : PageEvent) : eff Page unit := @run P_r _ _ E_r _ _ W_r ev.
Definition accepted_by (p : Page) : list u8array := @accepted P_s a p.

(** A step of the conversation: the channel keeps the order and loses nothing; data
    reaches the receiver's peer [b] over it only. *)
Definition line_step (ev : LineEvent) (l : Line) : option Line :=
  match ev with
  | sender_does ev =>
    Some {| at_sender := (sender_run ev (at_sender l)).2; at_receiver := at_receiver l;
            delivered := delivered l; arrived := arrived l |}
  | receiver_does ev =>
    if decide (decodes ev = Some b) then None
    else Some {| at_sender := at_sender l; at_receiver := (receiver_run ev (at_receiver l)).2;
                 delivered := delivered l; arrived := arrived l |}
  | line_delivers =>
    chunk ← accepted_by (at_sender l) !! delivered l;
    let r := at_receiver l in
    let r' := (receiver_run (peer_event b (peer_data chunk)) r).2 in
    Some {| at_sender := at_sender l; at_receiver := r'; delivered := S (delivered l);
            arrived := arrived l ++ drop (length (messages_of r)) (messages_of r') |}
  end.

(** The browsers keep their contracts, and what is sent fits the header's fields. *)
Definition valid_line_event (l : Line) (ev : LineEvent) : Prop :=
  match ev with
  | sender_does ev => valid_event (at_sender l) ev ∧
      ∀ m, ev = user_sends m → encodable (encoder (at_sender l)) (sender_data W_s m)
  | receiver_does ev => valid_event (at_receiver l) ev
  | line_delivers => True
  end.

(** From [l0] on these messages have been sent. *)
Inductive conversation (l0 : Line) : list MessageType → Line → Prop :=
  | line_opens : conversation l0 [] l0
  | line_goes_on ms l ev l' :
      conversation l0 ms l → valid_line_event l ev → line_step ev l = Some l' →
      conversation l0 (ms ++ sent_by ev) l'.

(** How it begins: two pages in their sessions, connected, with nothing under way. *)
Record line_open (l0 : Line) : Prop := {
  lo_sender : ∃ url, @session P_s _ _ E_s _ _ W_s url (at_sender l0);
  lo_receiver : ∃ url, @session P_r _ _ E_r _ _ W_r url (at_receiver l0);
  lo_peer : ∃ u, st_peers (state (at_sender l0)) !! u = Some a;
  lo_decoder : decoder_of (at_receiver l0) b = Some ∅;
  lo_idle : scheduled (encoder (at_sender l0)) = [] ∧ worker_events (at_sender l0) = [];
  lo_delivered : delivered l0 = length (accepted_by (at_sender l0));
  lo_arrived : arrived l0 = [];
}.

(** The channel takes what is sent. *)
Definition takes (p : Page) (chunk : u8array) : Prop :=
  is_ok (@peer_call P_s (effects (world p)) a (p_send chunk)).
Definition in_touch (l : Line) : Prop :=
  (∃ u, st_peers (state (at_sender l)) !! u = Some a) ∧ ∀ chunk, takes (at_sender l) chunk.

(** Once it is open, a channel that refuses something has closed, for good. *)
Definition closes_for_good (l0 : Line) : Prop := ∀ es es' chunk chunk',
  effects (world (at_sender l0)) `prefix_of` es →
  ¬ is_ok (@peer_call P_s es a (p_send chunk)) → ¬ is_ok (@peer_call P_s (es ++ es') a (p_send chunk')).

(** The entry of a message in the receiver's chat. *)
Definition entry_for (m : MessageType) : list Notices.Message :=
  Notices.list (handleMessage (@toLocaleString W_r) default_messages m).

(** ** What is on its way *)

(** The payloads for the worker that have been made of the messages. *)
Definition carries (m : MessageType) (p : WorkerPayload) : Prop :=
  sendable p ∧ message_container p = sender_data W_s m.

(** The sender will not get through any more. *)
Definition cut (p : Page) : Prop :=
  (∀ u, st_peers (state p) !! u ≠ Some a) ∨ ∀ chunk, ¬ takes p chunk.

(** The chunks of what has been sent are those the channel has taken, those it has
    refused, those the worker has posted and those it has not made yet. *)
Record under_way (ps : list WorkerPayload) (n : nat) (s : Page) (lost : list u8array) : Prop := {
  uw_stream : stream_of ps =
    drop n (accepted_by s) ++ lost ++ wire (worker_events s) ++ stream_of (scheduled (encoder s));
  uw_taken : n ≤ length (accepted_by s);
  uw_worker : Forall no_error (worker_events s);
  uw_scheduled : Forall sendable (scheduled (encoder s));
  uw_lost : lost = [] ∨ cut s;
}.

Record sending (l0 : Line) (ms : list MessageType) (s : Page) : Prop := {
  sg_known : peers_known s;
  sg_made : a < next_peer (world s);
  sg_later : effects (world (at_sender l0)) `prefix_of` effects (world s);
  sg_counter : counter_ok (counter (encoder s));
  sg_queue : ∃ ps lost, Forall2 carries ms ps ∧ under_way ps (delivered l0) s lost;
}.

(** The receiver has made of the delivered chunks what a decoder makes of them. *)
Definition message_of (dc : DataContainer) : list Notices.Message :=
  match parse (text_decode (dc_data dc)) with Some m => entry_for m | None => [] end.

Record receiving_line (l0 : Line) (got : list u8array) (l : Line) : Prop := {
  rc_known : peers_known (at_receiver l);
  rc_decoder : decoder_of (at_receiver l) b = Some (decode_all ∅ got).1;
  rc_arrived : arrived l = messages_in (decode_all ∅ got).2 ≫= message_of;
  rc_shown : arrived l `sublist_of`
    drop (length (messages_of (at_receiver l0))) (messages_of (at_receiver l));
  rc_messages : messages_of (at_receiver l0) `prefix_of` messages_of (at_receiver l);
  rc_delivered : delivered l = delivered l0 + length got;
  rc_got : got `prefix_of` drop (delivered l0) (accepted_by (at_sender l));
}.

Lemma carries_message m p : carries m p → message_of (message_container p) = entry_for m.
Proof.
  intros [_ Hc]. unfold message_of. rewrite Hc. cbn.
  by rewrite text_decode_encode, parse_stringify by apply stringify_well_formed.
Qed.

(** ** The sender *)

#[local] Abbreviation effects_of p := (effects (world p)).

Section sender.
Context (l0 : Line).
Hypothesis (Hclose : closes_for_good l0).
Lemma sender_later ms s ev :
  sending l0 ms s → valid_event s ev →
  let s' := (sender_run ev s).2 in
  peers_known s' ∧ a < next_peer (world s') ∧ effects_of (at_sender l0) `prefix_of` effects_of s' ∧
  (cut s → cut s').
Proof using Hclose.
  intros [Hk Ha He _ _] Hv s'.
  destruct (event_framed (H := P_s) (H2 := E_s) (H5 := W_s) s ev Hk Hv) as [[Hk' Hn Hps _] _].
  pose proof (run_grows (H := P_s) (H2 := E_s) (H5 := W_s) ev s) as Hg.
  split_and!; [done|cbn in *; unfold s', sender_run; lia|by etrans|].
  intros [Hgone|Hdown]; [left|right].
  - intros u [Hu|Hu]%Hps; [by eapply Hgone|lia].
  - destruct Hg as [es Hes]. intros chunk. unfold takes, s', sender_run. rewrite Hes.
    by apply (Hclose _ es chunk chunk He), Hdown.
Qed.

(** Where nothing is sent, nothing changes. *)
Lemma under_way_same ps s s' lost :
  nothing_sent s s' → (cut s → cut s') →
  under_way ps (delivered l0) s lost → under_way ps (delivered l0) s' lost.
Proof using Type.
  intros (He & Hw & Hs) Hcut [H1' H2' H3' H4' H5'].
  assert (accepted_by s' = accepted_by s) as Ha by (by apply accepted_unsent).
  split; rewrite ?Ha, ?He, ?Hw; try done. destruct H5'; [by left|right; auto].
Qed.

Lemma sending_quiet ms s ev :
  sending l0 ms s → valid_event s ev → encodes ev = false → sending l0 ms (sender_run ev s).2.
Proof using Hclose.
  intros Hs Hv Hq. destruct (sender_later ms s ev Hs Hv) as (Hk & Ha & He & Hcut).
  destruct Hs as [Hk0 _ _ Hc (ps & lost & Hcs & Hu)].
  destruct (event_framed (H := P_s) (H2 := E_s) (H5 := W_s) s ev Hk0 Hv) as [_ Hn].
  rewrite Hq in Hn. specialize (Hn eq_refl). split; try done.
  - destruct Hn as (He' & _). unfold sender_run. by rewrite He'.
  - exists ps, lost. split; [done|]. by apply (under_way_same ps s).
Qed.

(** A message is sent. *)
Lemma sending_message ms s m :
  sending l0 ms s → encodable (encoder s) (sender_data W_s m) →
  sending l0 (ms ++ [m]) (sender_run (user_sends m) s).2.
Proof using Hclose.
  intros Hs Henc. destruct (sender_later ms s (user_sends m) Hs I) as (Hk & Ha & He & Hcut).
  destruct Hs as [_ _ _ Hc (ps & lost & Hcs & [H1' H2' H3' H4' H5'])].
  set (s' := (sender_run (user_sends m) s).2) in *.
  set (p := Codec.payload_of (encoder s) (sender_data W_s m)).
  assert (s' = @show_message W_s (with_userId ME m)
    (set_encoder (encode (encoder s) (sender_data W_s m)).1 (worker_events s) s)) as Hrun.
  { unfold s', sender_run. cbn [run]. by rewrite (dispatch_send (H := P_s) (H2 := E_s) (H5 := W_s)). }
  assert (encoder s' = (encode (encoder s) (sender_data W_s m)).1 ∧ worker_events s' = worker_events s ∧
    accepted_by s' = accepted_by s) as (He' & Hw' & Ha') by by rewrite Hrun.
  assert (sendable p) as Hp.
  { split; [by apply encodable_message_ok|]. exact (stringify_not_empty m). }
  split; [done..| |].
  - rewrite He'. pose proof (next_counter_range _ Hc). unfold counter_ok. cbn. lia.
  - exists (ps ++ [p]), lost. split.
    { apply Forall2_app; [done|]. constructor; [|constructor]. split; [done|]. by destruct (sender_data W_s m). }
    split; rewrite ?Ha', ?He', ?Hw'; try done.
    + unfold stream_of in *. cbn [encode fst scheduled]. rewrite !bind_app, H1', <-!(assoc_L (++)). done.
    + cbn [encode fst scheduled]. apply Forall_app. split; [done|]. constructor; [exact Hp|constructor].
Qed.

(** The encoder's timer goes off. *)
Lemma sending_encoder ms s :
  sending l0 ms s → sending l0 ms (sender_run encoder_due s).2.
Proof using Hclose.
  intros Hs. destruct (sender_later ms s encoder_due Hs I) as (Hk & Ha & He & Hcut).
  destruct (scheduled (encoder s)) as [|p rest] eqn:Hsch.
  { unfold sender_run. cbn [run]. unfold run_encoder, modify. rewrite Hsch. done. }
  destruct Hs as [_ _ _ Hc (ps & lost & Hcs & [H1' H2' H3' H4' H5'])].
  rewrite Hsch in H4', H1'. apply Forall_cons in H4' as [[Hp Hd] Hrest].
  set (posted := (chunk_event p <$> seq 0 (n_chunks p)) ++ [done_event p]).
  set (s' := (sender_run encoder_due s).2) in *.
  assert (s' = set_encoder {| counter := counter (encoder s);
    maxMessageSizeBytes := maxMessageSizeBytes (encoder s); scheduled := rest |}
    (worker_events s ++ posted) s) as Hrun.
  { unfold s', sender_run. cbn [run]. erewrite run_encoder_first; [done|done|].
    apply workerFunc_spec; [apply Hp|done]. }
  assert (accepted_by s' = accepted_by s) as Ha' by by rewrite Hrun.
  split; [done..|by rewrite Hrun|]. exists ps, lost. split; [done|].
  split; rewrite ?Ha'; rewrite ?Hrun; cbn [encoder worker_events set_encoder scheduled]; try done.
  - rewrite H1'. do 2 f_equal. unfold wire, stream_of. rewrite omap_app, <-(assoc_L (++)). f_equal.
    fold (wire posted). cbn [mbind list_bind]. f_equal. symmetry. by apply wire_chunks.
  - apply Forall_app. split; [done|]. apply Forall_app. split; [|by repeat constructor].
    apply Forall_fmap, Forall_forall. done.
Qed.

(** A chunk the channel takes comes after those it has taken; from one that it does
    not take on, all are lost. *)
Lemma chunk_sent s s' chunk lost :
  peers_known s → effects_of (at_sender l0) `prefix_of` effects_of s →
  st_peers (state s') = st_peers (state s) →
  effects_of s' = effects_of s ++ chunk_log (st_peers (state s)) chunk →
  (cut s → cut s') → lost = [] ∨ cut s →
  ∃ lost', accepted_by s' ++ lost' = accepted_by s ++ lost ++ [chunk] ∧
    accepted_by s `prefix_of` accepted_by s' ∧ (lost' = [] ∨ cut s').
Proof using Hclose.
  intros Hk He Hps Heff Hcut Hlost.
  assert (accepted_by s' = accepted_by s ++
    accepted_after (H := P_s) a (effects_of s) (chunk_log (st_peers (state s)) chunk)) as Hacc.
  { unfold accepted_by, accepted. by rewrite Heff, accepted_app. }
  destruct (accepted_log (H := P_s) a (st_peers (state s)) chunk (effects_of s) (pk_user _ Hk))
    as [[Hgone Hnone]|(es & es' & Hlog & Hone)].
  - exists (lost ++ [chunk]). rewrite Hacc, Hnone, app_nil_r. split_and!; [done|done|].
    right. left. by rewrite Hps.
  - rewrite Hone in Hacc. cbn [accepts] in Hacc. rewrite decide_True in Hacc by done.
    destruct (@peer_call P_s (effects_of s ++ es) a (p_send chunk)) as [x|e] eqn:Hcall.
    + destruct Hlost as [->|[Hgone|Hdown]].
      * exists []. rewrite Hacc, app_nil_r. split_and!; [done|by eexists|by left].
      * exfalso. assert (PeerCalled a (p_send chunk) ∈ chunk_log (st_peers (state s)) chunk) as Hin.
        { rewrite Hlog. apply elem_of_app. right. left. }
        apply list_elem_of_fmap in Hin as (n & [= <-] & Hn). apply list_elem_of_fmap in Hn as ([u n] & -> & Hu).
        apply elem_of_object_entries in Hu. by apply (Hgone u).
      * exfalso. apply (Hclose (effects_of s) es chunk chunk He (Hdown chunk)). by rewrite Hcall.
    + exists (lost ++ [chunk]). rewrite Hacc, app_nil_r. split_and!; [done|done|]. right. right.
      intros chunk' Hok. assert (¬ is_ok (@peer_call P_s (effects_of s ++ es) a (p_send chunk))) as Hno
        by (rewrite Hcall; by intros []).
      eapply (Hclose (effects_of s ++ es) (PeerCalled a (p_send chunk) :: es')); [by apply prefix_app_r|exact Hno|].
      unfold takes in Hok. rewrite Heff, Hlog, (assoc_L (++)) in Hok. exact Hok.
Qed.

(** The worker's next message. *)
Lemma sending_worker ms s :
  sending l0 ms s → sending l0 ms (sender_run worker_message s).2.
Proof using Hclose.
  intros Hs. destruct (sender_later ms s worker_message Hs I) as (Hk & Ha & He & Hcut).
  destruct (worker_events s) as [|e rest] eqn:Hev.
  { unfold sender_run. cbn [run]. unfold run_worker_event.
    rewrite (bind_runs _ _ s [] s) by (unfold gets; by rewrite Hev). done. }
  destruct Hs as [Hk0 _ He0 Hc (ps & lost & Hcs & [H1' H2' H3' H4' H5'])].
  rewrite Hev in H3', H1'. apply Forall_cons in H3' as [Hno Hrest].
  destruct (worker_event_run (H := P_s) (H2 := E_s) (H5 := W_s) e rest s Hev Hno)
    as (s' & Hrun & Hst & Henc & Hw & Heff).
  assert ((sender_run worker_message s).2 = s') as Hs' by (unfold sender_run; cbn [run]; by rewrite Hrun).
  rewrite Hs' in *. split; [done..|by rewrite Henc|]. exists ps.
  assert (wire (e :: rest) = wire [e] ++ wire rest) as Hwire by apply (omap_app _ [e] rest).
  destruct (wire [e]) as [|chunk [|]] eqn:Hwe; [| |by destruct e].
  - rewrite app_nil_r in Heff. assert (accepted_by s' = accepted_by s) as Hacc
      by (unfold accepted_by, accepted; by rewrite Heff).
    exists lost. split; [done|]. split; rewrite ?Hacc, ?Henc, ?Hw; try done.
    + by rewrite H1', Hwire.
    + destruct H5'; [by left|right; auto].
  - cbn [mbind list_bind] in Heff. rewrite app_nil_r in Heff.
    destruct (chunk_sent s s' chunk lost Hk0 He0) as (lost' & Hacc & Hpre & Hlost');
      [by rewrite Hst|done|done|done|].
    exists lost'. split; [done|]. apply prefix_length in Hpre.
    split; rewrite ?Henc, ?Hw; try done; [|lia].
    rewrite H1', Hwire, !(assoc_L (++)). do 2 f_equal.
    rewrite <-(drop_app_le _ lost'), Hacc by lia. rewrite drop_app_le by done. by rewrite (assoc_L (++)).
Qed.

Lemma sending_step ms l ev :
  sending l0 ms (at_sender l) → valid_line_event l (sender_does ev) →
  sending l0 (ms ++ sent_by (sender_does ev)) (sender_run ev (at_sender l)).2.
Proof using Hclose.
  intros Hs [Hv Henc]. destruct (encodes ev) eqn:Hq.
  - destruct ev; try done; cbn [sent_by]; rewrite ?app_nil_r.
    + by apply sending_encoder.
    + by apply sending_worker.
    + apply sending_message; [done|]. by apply Henc.
  - assert (sent_by (sender_does ev) = []) as -> by by destruct ev.
    rewrite app_nil_r. by apply sending_quiet.
Qed.

Lemma sending_grows s ev :
  accepted_by s `prefix_of` accepted_by (sender_run ev s).2.
Proof using Type.
  destruct (run_grows (H := P_s) (H2 := E_s) (H5 := W_s) ev s) as [es Hes].
  unfold accepted_by, accepted, sender_run. rewrite Hes, accepted_app. by eexists.
Qed.
End sender.

(** ** The receiver *)

Lemma drop_prefix {A} n (l l' : list A) : n ≤ length l → l `prefix_of` l' → drop n l `prefix_of` drop n l'.
Proof. intros Hn [k ->]. rewrite drop_app_le by done. by eexists. Qed.

Section receiver.
Context (l0 : Line).

(** Whatever does not concern its peer leaves what the receiver has got as it is. *)
Lemma receiving_step got l ev :
  receiving_line l0 got l → valid_event (at_receiver l) ev → decodes ev ≠ Some b →
  receiving_line l0 got {| at_sender := at_sender l; at_receiver := (receiver_run ev (at_receiver l)).2;
    delivered := delivered l; arrived := arrived l |}.
Proof using Type.
  intros [Hk Hd Ha Hs Hm Hn Hg] Hv Hb.
  destruct (event_framed (H := P_r) (H2 := E_r) (H5 := W_r) _ ev Hk Hv) as [[Hk' _ _ Hdec] _].
  pose proof (run_messages_grow (H := P_r) (H2 := E_r) (H5 := W_r) ev (at_receiver l)) as Hgrow.
  split; cbn [at_sender at_receiver delivered arrived]; try done.
  - rewrite Hdec; [exact Hd|apply (pk_handler _ Hk); rewrite Hd; by eexists|]. intros Heq. by apply Hb.
  - destruct (drop_prefix (length (messages_of (at_receiver l0))) _ _ (prefix_length _ _ Hm) Hgrow) as [new Hnew].
    unfold receiver_run. rewrite Hnew. by apply sublist_inserts_r.
  - by etrans.
Qed.

(** The receiver has handled one more chunk. *)
Lemma receiving_sender got l s' :
  receiving_line l0 got l → delivered l0 ≤ length (accepted_by (at_sender l)) →
  accepted_by (at_sender l) `prefix_of` accepted_by s' →
  receiving_line l0 got {| at_sender := s'; at_receiver := at_receiver l;
    delivered := delivered l; arrived := arrived l |}.
Proof using Type.
  intros [Hk Hd Ha Hs Hm Hn Hg] Hle Hacc. split; try done. cbn [at_sender].
  etrans; [exact Hg|]. by apply drop_prefix.
Qed.

Lemma receiving_chunk got l ms ps chunk rest :
  receiving_line l0 got l → Forall2 carries ms ps → stream_of ps = got ++ chunk :: rest →
  got ++ [chunk] `prefix_of` drop (delivered l0) (accepted_by (at_sender l)) →
  let r := at_receiver l in
  let r' := (receiver_run (peer_event b (peer_data chunk)) r).2 in
  receiving_line l0 (got ++ [chunk]) {| at_sender := at_sender l; at_receiver := r';
    delivered := S (delivered l);
    arrived := arrived l ++ drop (length (messages_of r)) (messages_of r') |}.
Proof using Type.
  intros [Hk Hd Ha Hs Hm Hn Hg] Hcs Hps Hpre r r'.
  unfold decoder_of in Hd. apply fmap_Some in Hd as (h & Hh & Hst).
  destruct (decode (ph_decoder h) chunk) as [st o] eqn:Hdec.
  assert (decode_all ∅ (got ++ [chunk]) = (st, (decode_all ∅ got).2 ++ [o])) as Hall.
  { rewrite decode_all_app. destruct (decode_all ∅ got) as [st1 rs]. cbn in *. subst st1. by rewrite Hdec. }
  assert (Forall sendable ps) as Hsend by (by eapply Forall2_Forall_r; [exact Hcs|]; apply Forall_forall; intros ? _ ? []).
  destruct (decode_stream ps (got ++ [chunk]) rest Hsend) as (Hok & k & Hk' & Hmsg & _);
    [by rewrite <-(assoc_L (++))|].
  rewrite Hall in Hok, Hmsg. cbn [snd] in Hok, Hmsg. apply Forall_app in Hok as [_ [Ho _]%Forall_cons].
  destruct o as [o|]; [|done].
  assert (∀ dc, o = Some dc → ∃ m, parse (text_decode (dc_data dc)) = Some m) as Hparse.
  { intros dc ->. assert (dc ∈ message_container <$> take k ps) as Hin.
    { rewrite <-Hmsg. unfold messages_in. rewrite omap_app. apply elem_of_app. right. by left. }
    apply list_elem_of_fmap in Hin as (p & -> & Hp%elem_of_take). destruct Hp as (i & Hp & _).
    destruct (Forall2_lookup_r _ _ _ _ _ Hcs Hp) as (m & _ & _ & Hc). exists m. rewrite Hc. cbn.
    by rewrite text_decode_encode, parse_stringify by apply stringify_well_formed. }
  pose proof (receive_one (H := P_r) (H2 := E_r) (H5 := W_r) b h chunk r st o Hh Hdec Hparse) as Hrun.
  set (q := set_handlers _ r) in Hrun.
  assert (r' = match o ≫= λ dc, parse (text_decode (dc_data dc)) with
    | Some m => @show_message W_r m q | None => q end) as Hr'.
  { unfold r', receiver_run. cbn [run]. by rewrite Hrun. }
  assert (messages_of r' = messages_of r ++ (messages_in [Ok o] ≫= message_of)) as Hgrown.
  { rewrite Hr'. destruct o as [dc|]; cbn; [|by rewrite app_nil_r].
    destruct (Hparse dc eq_refl) as [m Hm']. rewrite Hm'. unfold message_of. rewrite Hm', app_nil_r.
    by destruct m. }
  assert (drop (length (messages_of r)) (messages_of r') = messages_in [Ok o] ≫= message_of) as Hnew
    by by rewrite Hgrown, drop_app_length.
  destruct (event_framed (H := P_r) (H2 := E_r) (H5 := W_r) r (peer_event b (peer_data chunk)) Hk I)
    as [[Hk'' _ _ _] _].
  split; cbn [at_sender at_receiver delivered arrived]; try done.
  - rewrite Hall, Hr'. unfold decoder_of. destruct (o ≫= _); cbn; by rewrite lookup_insert_eq.
  - rewrite Hall, Hnew, Ha. unfold messages_in. cbn [snd]. by rewrite omap_app, bind_app.
  - rewrite Hnew, Hgrown. rewrite drop_app_le by (by apply prefix_length). by apply sublist_app.
  - rewrite Hgrown. by apply prefix_app_r.
  - rewrite length_app. cbn. lia.
Qed.
End receiver.

(** ** The conversation *)

Section conversation.
Context (l0 : Line).
Hypothesis (Hclose : closes_for_good l0) (Hopen : line_open l0).

Definition line_inv (ms : list MessageType) (l : Line) : Prop :=
  sending l0 ms (at_sender l) ∧ ∃ got, receiving_line l0 got l.

Lemma session_counter (P : Platform) (E : EncodedStreams) (W : Window) url p :
  @session P _ _ E _ _ W url p → counter_ok (counter (encoder p)).
Proof using Type.
  induction 1 as [stored nickname ok|p ev r p' Hp IH Hv Hrun]; [done|].
  assert (p' = (run ev p).2) as -> by by rewrite Hrun.
  destruct (encodes ev) eqn:Hq.
  - destruct ev; try done.
    + cbn [run]. unfold run_encoder, modify. cbn. by destruct (scheduled (encoder p)).
    + cbn [run]. unfold run_worker_event.
      rewrite (bind_runs _ _ p (worker_events p) p) by done.
      destruct (worker_events p) as [|[mid i n sid chunk|mid sid|mid sid err] rest]; [done| |done|];
        rewrite (bind_runs _ _ p tt (set_encoder (encoder p) rest p)) by done.
      * destruct (send_chunk_run chunk (set_encoder (encoder p) rest p)) as (q & Hq' & Ho & _).
        rewrite Hq', Ho. done.
      * unfold error. by rewrite dispatch_notify_run.
    + cbn [run]. rewrite dispatch_send. cbn.
      pose proof (next_counter_range _ IH). unfold counter_ok. lia.
  - destruct (event_framed p ev (session_peers_known url p Hp) Hv) as [_ Hn].
    rewrite Hq in Hn. destruct (Hn eq_refl) as (-> & _). done.
Qed.

Lemma line_inv_opens : line_inv [] l0.
Proof using Hopen.
  destruct Hopen as [[url Hs] [url' Hr] [u Hu] Hd [Hsch Hw] Hn Ha].
  pose proof (session_peers_known (H := P_s) (H2 := E_s) (H5 := W_s) _ _ Hs) as Hk.
  pose proof (session_peers_known (H := P_r) (H2 := E_r) (H5 := W_r) _ _ Hr) as Hk'.
  split; [split|].
  - done.
  - by eapply pk_made.
  - done.
  - exact (session_counter P_s E_s W_s url _ Hs).
  - exists [], []. split; [constructor|]. split; rewrite ?Hsch, ?Hw; try done.
    + by rewrite drop_ge by lia.
    + lia.
    + by left.
  - exists []. split; try done.
    + rewrite Ha. apply sublist_nil_l.
    + apply prefix_nil.
Qed.

Lemma line_inv_step ms l ev l' :
  line_inv ms l → valid_line_event l ev → line_step ev l = Some l' → line_inv (ms ++ sent_by ev) l'.
Proof using Hclose.
  intros [Hs [got Hr]] Hv Hstep. destruct ev as [ev|ev|]; cbn [line_step] in Hstep.
  - injection Hstep as <-. split; [by apply sending_step|]. exists got.
    destruct (sg_queue _ _ _ Hs) as (ps & lost & _ & Hu).
    apply receiving_sender; [done|apply Hu|apply sending_grows].
  - cbn [sent_by]. rewrite app_nil_r. case_decide as Hb; [done|]. injection Hstep as <-.
    split; [exact Hs|]. exists got. by apply receiving_step.
  - cbn [sent_by]. rewrite app_nil_r.
    destruct (accepted_by (at_sender l) !! delivered l) as [chunk|] eqn:Hc; [|done].
    injection Hstep as <-. split; [exact Hs|].
    destruct (sg_queue _ _ _ Hs) as (ps & lost & Hcs & [Hst _ _ _ _]).
    destruct (rc_got _ _ _ Hr) as [under Hunder].
    rewrite (rc_delivered _ _ _ Hr), <-lookup_drop, Hunder, lookup_app_r, Nat.sub_diag in Hc by lia.
    destruct under as [|chunk' under]; [done|]. injection Hc as ->.
    rewrite Hunder, <-(assoc_L (++)) in Hst. exists (got ++ [chunk]).
    eapply receiving_chunk; [done|done|exact Hst|]. rewrite Hunder. exists under. by rewrite <-(assoc_L (++)).
Qed.

Lemma conversation_inv ms l : conversation l0 ms l → line_inv ms l.
Proof using Hclose Hopen. induction 1; [apply line_inv_opens|by eapply line_inv_step]. Qed.

(** Nothing is on its way. *)
Definition settled_line (l : Line) : Prop :=
  scheduled (encoder (at_sender l)) = [] ∧ worker_events (at_sender l) = [] ∧
  delivered l = length (accepted_by (at_sender l)).

Lemma line_inv_arrived ms l :
  line_inv ms l → ∃ k, k ≤ length ms ∧ arrived l = take k ms ≫= entry_for ∧
    (in_touch l → settled_line l → k = length ms).
Proof using Type.
  intros [[_ _ _ _ (ps & lost & Hcs & [Hst Hle _ _ Hlost])] [got [_ _ Ha _ _ Hn [under Hunder]]]].
  assert (Forall sendable ps) as Hsend by (by eapply Forall2_Forall_r; [exact Hcs|]; apply Forall_forall; intros ? _ ? []).
  destruct (decode_stream ps got (under ++ lost ++ wire (worker_events (at_sender l)) ++
    stream_of (scheduled (encoder (at_sender l)))) Hsend) as (_ & k & Hk & Hm & Hall).
  { rewrite Hst, Hunder. by rewrite <-(assoc_L (++)). }
  pose proof (Forall2_length _ _ _ Hcs) as Hlen. exists k. split; [lia|]. split.
  - rewrite Ha, Hm. clear -Hcs. revert k. induction Hcs as [|m p ms ps Hc Hcs IH]; intros [|k]; try done.
    cbn [take fmap list_fmap mbind list_bind]. rewrite (carries_message m p Hc). f_equal. apply IH.
  - intros [[u Hu] Htakes] (Hsch & Hw & Hd). rewrite Hlen. apply Hall. rewrite Hsch, Hw.
    assert (lost = []) as ->.
    { destruct Hlost as [|[Hgone|Hdown]]; [done|by destruct (Hgone u)|by destruct (Hdown [])]. }
    apply (f_equal length) in Hunder. rewrite length_drop, length_app in Hunder.
    by destruct under; [|cbn in Hunder; lia].
Qed.

(** ** Going on without anyone doing anything *)

Definition of_itself (ev : LineEvent) : bool :=
  match ev with sender_does encoder_due | sender_does worker_message | line_delivers => true | _ => false end.
Definition line_goes (l l' : Line) : Prop := ∃ ev, of_itself ev = true ∧ line_step ev l = Some l'.

(** To send something does not close the channel. *)
Definition stays_open : Prop := ∀ es n chunk chunk',
  effects_of (at_sender l0) `prefix_of` es →
  is_ok (@peer_call P_s es a (p_send chunk)) →
  is_ok (@peer_call P_s (es ++ [PeerCalled n (p_send chunk')]) a (p_send chunk)).

Lemma conversation_goes ms l ev l' :
  conversation l0 ms l → of_itself ev = true → line_step ev l = Some l' → conversation l0 ms l'.
Proof using Type.
  intros Hl Hev Hs. assert (sent_by ev = []) as Hno by (by destruct ev as [[]| |]).
  rewrite <-(app_nil_r ms), <-Hno. eapply line_goes_on; [exact Hl| |exact Hs].
  destruct ev as [ev|ev|]; [|done..]. split; [by destruct ev|]. intros m ->. done.
Qed.

Lemma sends_stay_open chunk ns : ∀ es,
  stays_open → effects_of (at_sender l0) `prefix_of` es →
  (∀ chunk', is_ok (@peer_call P_s es a (p_send chunk'))) →
  ∀ chunk', is_ok (@peer_call P_s (es ++ ((λ n, PeerCalled n (p_send chunk)) <$> ns)) a (p_send chunk')).
Proof using Type.
  induction ns as [|n ns IH]; intros es Hstay He Hok; [by rewrite app_nil_r|].
  rewrite fmap_cons. change (?e :: ?l) with ([e] ++ l). rewrite (assoc_L (++)). apply IH; [done|by apply prefix_app_r|].
  intros chunk'. by apply Hstay.
Qed.

(** A state from which the conversation can be [Q]. *)
Definition can_be (ms : list MessageType) (l : Line) (Q : Line → Prop) : Prop :=
  ∃ l', rtc line_goes l l' ∧ conversation l0 ms l' ∧ in_touch l' ∧ Q l'.

Lemma can_be_step ms l ev l' Q :
  of_itself ev = true → line_step ev l = Some l' → can_be ms l' Q → can_be ms l Q.
Proof using Type.
  intros Hev Hs (l1 & Hr & Hl1). exists l1. split; [|done]. eapply rtc_l; [|exact Hr]. by exists ev.
Qed.

Lemma encoder_empties ms k : ∀ l,
  conversation l0 ms l → in_touch l → length (scheduled (encoder (at_sender l))) = k →
  can_be ms l (λ l', scheduled (encoder (at_sender l')) = []).
Proof using Type.
  induction k as [|k IH]; intros l Hl Ht Hk.
  - exists l. split_and!; [done..|]. by apply nil_length_inv.
  - set (l' := {| at_sender := (sender_run encoder_due (at_sender l)).2; at_receiver := at_receiver l;
      delivered := delivered l; arrived := arrived l |}).
    assert (line_step (sender_does encoder_due) l = Some l') as Hs by done.
    eapply can_be_step; [|exact Hs|]; [done|].
    assert (state (at_sender l') = state (at_sender l) ∧ world (at_sender l') = world (at_sender l) ∧
      length (scheduled (encoder (at_sender l'))) = k) as (Hst & Hw & Hlen).
    { unfold l', sender_run. cbn [run at_sender]. unfold run_encoder, modify. cbn [snd].
      destruct (scheduled (encoder (at_sender l))) as [|p rest]; [done|]. by injection Hk. }
    apply IH; [by apply (conversation_goes ms l (sender_does encoder_due))| |done].
    unfold in_touch, takes. by rewrite Hst, Hw.
Qed.

Lemma worker_empties ms k : ∀ l,
  stays_open → conversation l0 ms l → in_touch l → length (worker_events (at_sender l)) = k →
  scheduled (encoder (at_sender l)) = [] →
  can_be ms l (λ l', scheduled (encoder (at_sender l')) = [] ∧ worker_events (at_sender l') = []).
Proof using Hclose Hopen.
  induction k as [|k IH]; intros l Hstay Hl Ht Hk Hsch.
  - exists l. split_and!; [done..|]. by apply nil_length_inv.
  - destruct (worker_events (at_sender l)) as [|e rest] eqn:Hev; [done|].
    destruct (conversation_inv ms l Hl) as [[_ _ He _ (ps & lost & _ & [_ _ Hno _ _])] _].
    rewrite Hev in Hno. apply Forall_cons in Hno as [Hno _].
    destruct (worker_event_run (H := P_s) (H2 := E_s) (H5 := W_s) e rest (at_sender l) Hev Hno)
      as (s' & Hrun & Hst & Henc & Hw & Heff).
    assert (line_step (sender_does worker_message) l = Some {| at_sender := s'; at_receiver := at_receiver l;
      delivered := delivered l; arrived := arrived l |}) as Hs.
    { cbn [line_step]. unfold sender_run. cbn [run]. by rewrite Hrun. }
    eapply can_be_step; [|exact Hs|]; [done|].
    apply IH; [done|by apply (conversation_goes ms l (sender_does worker_message))| |by injection Hk as <-; rewrite <-Hw|by rewrite <-Hsch, <-Henc].
    destruct Ht as [Hu Htk]. split; cbn [at_sender]; [by rewrite Hst|]. intros chunk'. unfold takes. rewrite Heff.
    destruct (wire [e]) as [|chunk [|]] eqn:Hwe; [by rewrite app_nil_r; apply Htk| |by destruct e].
    cbn [mbind list_bind]. rewrite app_nil_r. by apply sends_stay_open.
Qed.

Lemma channel_empties ms k : ∀ l,
  conversation l0 ms l → in_touch l → length (accepted_by (at_sender l)) - delivered l = k →
  scheduled (encoder (at_sender l)) = [] ∧ worker_events (at_sender l) = [] → can_be ms l settled_line.
Proof using Hclose Hopen.
  induction k as [|k IH]; intros l Hl Ht Hk [Hsch Hw].
  - exists l. split_and!; [done..|]. split_and!; [done|done|].
    destruct (conversation_inv ms l Hl) as [[_ _ _ _ (ps & lost & _ & Hu)] [got [_ _ _ _ _ Hn Hg]]].
    apply prefix_length in Hg. rewrite length_drop in Hg. pose proof (uw_taken _ _ _ _ Hu). lia.
  - destruct (lookup_lt_is_Some_2 (accepted_by (at_sender l)) (delivered l)) as [chunk Hc]; [lia|].
    assert (∃ l', line_step line_delivers l = Some l' ∧ at_sender l' = at_sender l ∧ delivered l' = S (delivered l))
      as (l' & Hs & Hsame & Hd) by (cbn [line_step]; rewrite Hc; by eexists).
    eapply can_be_step; [|exact Hs|]; [done|].
    apply IH; [by apply (conversation_goes ms l line_delivers)| | |]; unfold in_touch; rewrite ?Hsame, ?Hd; try done. lia.
Qed.

(** C9. The chat between two pages is a queue.  From any moment at which they are
    connected and nothing is on its way, whatever the two pages do in their sessions
    and however it interleaves with the encoder, its worker and the data channel:
    what the channel makes the receiver show is, in order and each once, the first of the messages
    the sender has sent since, and all of them if the channel is still open and
    nothing is on its way; and they stay in the chat in that order. *)
Theorem chat_in_order ms l :
  conversation l0 ms l →
  ∃ k, k ≤ length ms ∧ arrived l = take k ms ≫= entry_for ∧
    arrived l `sublist_of` drop (length (messages_of (at_receiver l0))) (messages_of (at_receiver l)) ∧
    (in_touch l → settled_line l → k = length ms).
Proof using Hclose Hopen.
  intros Hl%conversation_inv. destruct (line_inv_arrived ms l Hl) as (k & Hk & Ha & Hall).
  destruct Hl as [_ [got Hr]]. exists k. split_and!; [done|done|by apply (rc_shown _ _ _ Hr)|done].
Qed.

(** C11. What is sent arrives: as long as the channel is open, the encoder, its worker
    and the channel can go on, without either page doing anything, until the
    receiver's chat shows every message that has been sent. *)
Theorem chat_arrives ms l :
  stays_open → conversation l0 ms l → in_touch l →
  ∃ l', rtc line_goes l l' ∧ conversation l0 ms l' ∧ arrived l' = ms ≫= entry_for.
Proof using Hclose Hopen.
  intros Hstay Hl Ht.
  destruct (encoder_empties ms _ l Hl Ht eq_refl) as (l1 & Hr1 & Hl1 & Ht1 & Hsch).
  destruct (worker_empties ms _ l1 Hstay Hl1 Ht1 eq_refl Hsch) as (l2 & Hr2 & Hl2 & Ht2 & Hw).
  destruct (channel_empties ms _ l2 Hl2 Ht2 eq_refl Hw) as (l3 & Hr3 & Hl3 & Ht3 & Hset).
  exists l3. split; [by do 2 (etrans; [done|])|]. split; [done|].
  destruct (line_inv_arrived ms l3 (conversation_inv ms l3 Hl3)) as (k & _ & Ha & Hall).
  by rewrite Ha, (Hall Ht3 Hset), firstn_all.
Qed.
End conversation.
End line.

(** * Instances *)

#[local] Existing Instance some_platform.
#[local] Existing Instance some_lodash.
#[local] Existing Instance some_object_keys.
#[local] Existing Instance once_streams.
#[local] Existing Instance ascii_codec.
#[local] Existing Instance some_json.

(** The page of a user that has dialled and been told of the other. *)
Definition connecting_events (u : string) : list PageEvent :=
  [socket_changes false; user_dials u;
   server_message (ev_users {| initiator := "bob"; peerIds := ["alice"; "bob"];
     user_nicknames := {["alice" := "Alice"; "bob" := "Bob"]}; users_recordStatus := false;
     users_recordUrl := None |})].
Definition connected_page (u : string) : Page :=
  let _ := some_window u in
  foldl (λ p ev, (run ev p).2) (opened None u "/" true) (connecting_events u).

Lemma line_session u : session (H5 := some_window u) "/" (connected_page u).
Proof.
  assert (∀ p ev, session (H5 := some_window u) "/" p → valid_event p ev →
    session (H5 := some_window u) "/" (run (H5 := some_window u) ev p).2) as Hrun.
  { intros p ev Hp Hv. eapply session_goes_on; [exact Hp|exact Hv|apply surjective_pairing]. }
  unfold connected_page. cbn [connecting_events foldl].
  apply Hrun; [|exact I]. apply Hrun; [|exact I]. apply Hrun; [|exact I]. apply session_opens.
Qed.

Definition just_connected : Line :=
  {| at_sender := connected_page "alice"; at_receiver := connected_page "bob"; delivered := 0; arrived := [] |}.

Lemma just_connected_open :
  line_open some_platform some_platform once_streams once_streams (some_window "alice") (some_window "bob")
    0 0 just_connected.
Proof.
  split; [exists "/"; apply line_session|exists "/"; apply line_session|..].
  - exists "bob". vm_compute. reflexivity.
  - vm_compute. reflexivity.
  - vm_compute. split; reflexivity.
  - vm_compute. reflexivity.
  - reflexivity.
Qed.

#[local] Abbreviation demo_step :=
  (line_step some_platform some_platform once_streams once_streams (some_window "alice") (some_window "bob") 0 0).
#[local] Abbreviation demo_conversation :=
  (conversation some_platform some_platform once_streams once_streams (some_window "alice") (some_window "bob") 0 0).
Definition events_run (evs : list LineEvent) : option Line :=
  foldl (λ l ev, l ≫= demo_step ev) (Some just_connected) evs.
Definition after_events (evs : list LineEvent) : Line := default just_connected (events_run evs).
Definition possible (evs : list LineEvent) : bool := match events_run evs with Some _ => true | None => false end.

Lemma after_one_more ms evs ev :
  demo_conversation just_connected ms (after_events evs) → possible (evs ++ [ev]) = true →
  valid_line_event (some_window "alice") (after_events evs) ev →
  demo_conversation just_connected (ms ++ sent_by ev) (after_events (evs ++ [ev])).
Proof.
  intros Hc Hp Hv. eapply line_goes_on; [exact Hc|exact Hv|].
  unfold possible, after_events, events_run in *. rewrite foldl_app in *. cbn [foldl] in *.
  destruct (foldl _ _ evs) as [l|]; [|done]. cbn in *. by destruct (demo_step ev l).
Qed.

Definition hello_sent : list LineEvent := [sender_does (user_sends hello)].
Definition hello_delivered : list LineEvent :=
  ((hello_sent ++ [sender_does encoder_due]) ++ [sender_does worker_message]) ++ [line_delivers].

Lemma hello_conversation : demo_conversation just_connected [hello] (after_events hello_sent).
Proof.
  apply (after_one_more [] [] (sender_does (user_sends hello))); [apply line_opens|vm_compute; reflexivity|].
  split; [done|]. intros m [= <-]. vm_compute. split_and!; congruence || done.
Qed.

Lemma hello_delivered_conversation : demo_conversation just_connected [hello] (after_events hello_delivered).
Proof.
  assert (∀ evs ev, of_itself ev = true → possible (evs ++ [ev]) = true →
    demo_conversation just_connected [hello] (after_events evs) →
    demo_conversation just_connected [hello] (after_events (evs ++ [ev]))) as Hgo.
  { intros evs ev Hev Hp Hc. assert (sent_by ev = []) as Hno by (by destruct ev as [[]| |]).
    pose proof (after_one_more [hello] evs ev Hc Hp) as Hm. rewrite Hno in Hm. apply Hm.
    destruct ev as [ev|ev|]; [|done..]. split; [by destruct ev|]. by intros m ->. }
  unfold hello_delivered. repeat (apply Hgo; [reflexivity|vm_compute; reflexivity|]).
  exact hello_conversation.
Qed.

Lemma hello_in_touch : in_touch some_platform 0 (after_events hello_sent).
Proof. split; [exists "bob"; vm_compute; reflexivity|]. intros chunk. exact I. Qed.

Lemma chat_in_order_witness :
  ∃ k, k ≤ 1 ∧ arrived (after_events hello_delivered) = take k [hello] ≫= entry_for (some_window "bob").
Proof.
  destruct (chat_in_order some_platform some_platform once_streams once_streams (some_window "alice")
    (some_window "bob") 0 0 just_connected) with (ms := [hello]) (l := after_events hello_delivered)
    as (k & Hk & Ha & _).
  - intros es es' chunk chunk' _ Hno. destruct (Hno I).
  - exact just_connected_open.
  - exact hello_delivered_conversation.
  - exists k. split; [exact Hk|exact Ha].
Defined.

Lemma chat_arrives_witness :
  ∃ l', demo_conversation just_connected [hello] l' ∧ arrived l' = entry_for (some_window "bob") hello.
Proof.
  destruct (chat_arrives some_platform some_platform once_streams once_streams (some_window "alice")
    (some_window "bob") 0 0 just_connected) with (ms := [hello]) (l := after_events hello_sent)
    as (l' & _ & Hc & Ha).
  - intros es es' chunk chunk' _ Hno. destruct (Hno I).
  - exact just_connected_open.
  - intros es n chunk chunk' _ _. exact I.
  - exact hello_conversation.
  - exact hello_in_touch.
  - exists l'. split; [exact Hc|exact Ha].
Defined.
