(* ===== verification/RecordPeer.v ===== *)
(** The peer that sends the local streams to the recording server
    ([src/client/reducers/streams.ts], [initializePeer]): its handlers, and the HTTP
    exchange that connects it. *)

From S2P Require Import Prelude Objects InsertableStreams Actions World Streams PeerActions Bytes.

#[local] Abbreviation list := Datatypes.list.

(** The document's [btoa]: it throws on a character above 255. *)
Class Base64 := { btoa : string → option string }.

Section record.
Context `{Platform} `{Base64}.

(** The instance, whether its handler for signals, registered with [once], is still
    there, and the requests made: where to, and their bodies. *)
Record RecordPeer := {
  rp_peer : PeerRef;
  rp_listens : bool;
  rp_requests : list (string * string);
}.

Definition new_RecordPeer (peer : PeerRef) : RecordPeer :=
  {| rp_peer := peer; rp_listens := true; rp_requests := [] |}.

(** The handlers of the other events only log. *)
Definition on_record_event (roomID userID : string) (ev : PeerEvent) : eff RecordPeer unit :=
  match ev with
  | peer_signal signal =>
    listens ← gets rp_listens;
    if (listens : bool) then
      modify (λ rp, {| rp_peer := rp_peer rp; rp_listens := false; rp_requests := rp_requests rp |}) ≫= λ _,
      match btoa signal with
      | None => throw (Error "InvalidCharacterError")
      | Some body =>
        modify (λ rp, {| rp_peer := rp_peer rp; rp_listens := rp_listens rp;
          rp_requests := rp_requests rp ++
            [("/api/sessions/" +:+ roomID +:+ "/join/" +:+ userID, body)] |})
      end
    else mret tt
  | _ => mret tt
  end.

(** The response has arrived: [json()] gives the server's signal, or a rejection that
    nothing handles; an exception of [signal] is only logged. *)
Definition on_record_answer (answer : option string) (rp : RecordPeer) : eff World unit :=
  match answer with
  | Some signal => catch (call_peer (rp_peer rp) (p_signal signal) ≫= λ _, mret tt) (λ _, mret tt)
  | None => mret tt
  end.

(** All the events of a peer, in order, whatever its handlers throw. *)
Definition record_events (roomID userID : string) (evs : list PeerEvent) (rp : RecordPeer) : RecordPeer :=
  foldl (λ rp ev, (on_record_event roomID userID ev rp).2) rp evs.

Lemma record_events_app roomID userID evs evs' rp :
  record_events roomID userID (evs ++ evs') rp =
  record_events roomID userID evs' (record_events roomID userID evs rp).
Proof using Type. apply foldl_app. Qed.

(** A peer that does not listen any more makes no requests. *)
Lemma not_listening roomID userID evs : ∀ rp,
  rp_listens rp = false → record_events roomID userID evs rp = rp.
Proof using Type.
  induction evs as [|ev evs IH]; intros rp Hl; [done|]. cbn [record_events foldl].
  assert ((on_record_event roomID userID ev rp).2 = rp) as ->; [|by apply IH].
  destruct ev; try done. destruct rp. cbn in Hl. by subst.
Qed.

Definition is_signal (ev : PeerEvent) : bool := match ev with peer_signal _ => true | _ => false end.

Lemma other_events roomID userID evs rp :
  forallb (λ ev, negb (is_signal ev)) evs = true → record_events roomID userID evs rp = rp.
Proof using Type.
  revert rp. induction evs as [|ev evs IH]; intros rp Hall; [done|]. cbn in Hall.
  apply andb_true_iff in Hall as [Hev Hall]. cbn [record_events foldl].
  destruct ev; try done; by apply IH.
Qed.

(** A stream that is added to the recording is never negotiated with the server.
    Of all the signals the peer gives, before and after, only the first is posted:
    the offer made when the recording started.  The signals that come later, when a
    stream is added or removed or a candidate is found, are dropped. *)
Theorem only_first_signal_posted roomID userID peer before offer body after :
  forallb (λ ev, negb (is_signal ev)) before = true → btoa offer = Some body →
  rp_requests (record_events roomID userID (before ++ peer_signal offer :: after) (new_RecordPeer peer)) =
  [("/api/sessions/" +:+ roomID +:+ "/join/" +:+ userID, body)].
Proof.
  intros Hb Hbody. change (peer_signal offer :: after) with ([peer_signal offer] ++ after).
  rewrite !record_events_app, (other_events _ _ before) by done.
  assert ((on_record_event roomID userID (peer_signal offer) (new_RecordPeer peer)).2 =
    {| rp_peer := peer; rp_listens := false;
       rp_requests := [("/api/sessions/" +:+ roomID +:+ "/join/" +:+ userID, body)] |}) as Hfirst.
  { unfold on_record_event, mbind, eff_bind. cbn. by rewrite Hbody. }
  unfold record_events at 2. cbn [foldl]. rewrite Hfirst. by rewrite not_listening.
Qed.

(** The server's answer reaches the peer, and an exception does not leave the handler. *)
Theorem answer_reaches_peer answer rp w :
  ∃ w', on_record_answer answer rp w = (Ok tt, w') ∧
    effects w' = effects w ++ match answer with
                              | Some signal => [PeerCalled (rp_peer rp) (p_signal signal)]
                              | None => []
                              end.
Proof.
  destruct answer as [signal|]; [|exists w; by rewrite app_nil_r].
  eexists. unfold on_record_answer, catch, mbind, eff_bind, call_peer.
  destruct (peer_call _ _ _); split; reflexivity.
Qed.
End record.
