(* ===== verification/ServerRoom.v ===== *)
(** The server's part of a mesh call ([server/mesh.go], with the room of
    [server/memoryadapter.go] and the sockets of [server/wssub.go]): one handler per
    client, which reads the client's messages one at a time and uses the room it
    shares with the handlers of the others.  Where the code takes a lock, or gives
    one back, another handler may go on: a handler is modelled by the place in the
    code where it has stopped. *)

From S2P Require Import Prelude Bytes TextCodec Encoder Decoder Objects InsertableStreams InsertableCodec Actions World Streams Peers Media Users Notices Async Store PeerActions CallActions.

#[local] Abbreviation list := Datatypes.list.

(** The iteration over a Go map: every key once, in an order that may be another
    one each time. *)
Class GoMaps := {
  range : nat → gmap string string → list string;
  range_keys n m : range n m ≡ₚ (map_to_list m).*1;
}.

Lemma elem_of_map_keys (m : gmap string string) v : v ∈ (map_to_list m).*1 ↔ is_Some (m !! v).
Proof.
  rewrite list_elem_of_fmap. split.
  - intros ([w md] & -> & Hw%elem_of_map_to_list). by eexists.
  - intros [md Hmd]. exists (v, md). by rewrite elem_of_map_to_list.
Qed.

Lemma elem_of_range `{GoMaps} n m v : v ∈ range n m ↔ is_Some (m !! v).
Proof. by rewrite range_keys, elem_of_map_keys. Qed.

(** What is written to the socket of a client. *)
Inductive ServerMessage :=
  | ws_event (ev : SocketEvent)
  | ws_room_join (clientID metadata : string)
  | ws_room_leave (clientID : string).

Record ActiveRoom := {
  room_creatorId : string;
  recordingStatus : bool;
}.

(** What the handler does once its broadcast is over. *)
Inductive AfterBroadcast :=
  | then_nothing
  | then_removeRoom
  | then_recordStatus (status : bool).

(** Where the handler of a client is. *)
Inductive HandlerState :=
  (** at the head of [for msg := range sub.Messages] *)
  | next_message
  (** [ready], after [SetMetadata] *)
  | ready_marked
  (** [create_room], after [roomExists] said no *)
  | room_missing
  (** [record], waiting for the recording service *)
  | service_called (status : bool)
  (** before a [Broadcast], and in one: the clients still to be written to *)
  | to_broadcast (msg : ServerMessage) (after : AfterBroadcast)
  | broadcasting (msg : ServerMessage) (rest : list string) (after : AfterBroadcast).

Record Server := {
  (** [MemoryAdapter.clients]: the clients, with their metadata *)
  clients : gmap string string;
  (** [activeRooms] *)
  activeRooms : gmap string ActiveRoom;
  serving : gmap string HandlerState;
  (** all that was ever written to the socket of a client, in order *)
  sockets : gmap string (list ServerMessage);
}.

Definition set_clients (f : gmap string string → gmap string string) (s : Server) : Server :=
  {| clients := f (clients s); activeRooms := activeRooms s; serving := serving s;
     sockets := sockets s |}.
Definition set_activeRooms (f : gmap string ActiveRoom → gmap string ActiveRoom) (s : Server) : Server :=
  {| clients := clients s; activeRooms := f (activeRooms s); serving := serving s;
     sockets := sockets s |}.
Definition set_serving (u : string) (h : HandlerState) (s : Server) : Server :=
  {| clients := clients s; activeRooms := activeRooms s; serving := <[u := h]> (serving s);
     sockets := sockets s |}.
Definition set_sockets (f : gmap string (list ServerMessage) → gmap string (list ServerMessage))
    (s : Server) : Server :=
  {| clients := clients s; activeRooms := activeRooms s; serving := serving s;
     sockets := f (sockets s) |}.

Definition socket_of (s : Server) (u : string) : list ServerMessage := default [] (sockets s !! u).
Definition handler_at (s : Server) (u : string) : HandlerState := default next_message (serving s !! u).

(** * [MemoryAdapter] *)

(** [emit]: a client that is not there is an error, which is logged. *)
Definition adapter_emit (u : string) (msg : ServerMessage) (s : Server) : Server :=
  match clients s !! u with
  | None => s
  | Some _ => set_sockets (λ m, <[u := socket_of s u ++ [msg]]> m) s
  end.

(** [broadcast] while the lock is held for writing: no other write comes between. *)
Definition broadcast_locked (msg : ServerMessage) (s : Server) : Server :=
  foldr (λ u, adapter_emit u msg) s (map_to_list (clients s)).*1.

(** The lock is held for reading during a [Broadcast]; whoever wants to write waits. *)
Definition is_broadcasting (h : HandlerState) : bool :=
  match h with broadcasting _ _ _ => true | _ => false end.
Definition read_locked (s : Server) : bool :=
  existsb (λ uh, is_broadcasting uh.2) (map_to_list (serving s)).

(** [Add] and [Remove] *)
Definition adapter_Add (u : string) (s : Server) : option Server :=
  if read_locked s then None
  else Some (broadcast_locked (ws_room_join u "") (set_clients (λ m, <[u := ""]> m) s)).
Definition adapter_Remove (u : string) (s : Server) : option Server :=
  if read_locked s then None
  else Some (broadcast_locked (ws_room_leave u) (set_clients (delete u) s)).

(** [SetMetadata]: of a client that is there. *)
Definition adapter_SetMetadata (u metadata : string) (s : Server) : option Server :=
  if read_locked s then None
  else Some (set_clients (alter (λ _, metadata) u) s).

(** * The handler of [NewMeshHandler] *)

(** [getReadyClients]: those that have a nickname. *)
Definition getReadyClients (s : Server) : gmap string string :=
  filter (λ kv, kv.2 ≠ "") (clients s).

Section handler.
Context `{GoMaps}.
(** The room of the sockets, and the user the token of each client names. *)
Variables (room : string) (token : string → string).

Definition getRoomCreator (r : string) (s : Server) : string :=
  default "" (room_creatorId <$> activeRooms s !! r).
Definition getRoomRecordStatus (s : Server) : bool :=
  default false (recordingStatus <$> activeRooms s !! room).

(** When nobody is ready the nil slice of [clientsToPeerIDs] is written as [null]. *)
Definition users_message (n : nat) (u : string) (s : Server) : ServerMessage :=
  let cs := getReadyClients s in
  if decide (cs = ∅) then ws_event (ev_users_null u (getRoomRecordStatus s))
  else ws_event (ev_users {| initiator := u; peerIds := range n cs; user_nicknames := cs;
                             users_recordStatus := getRoomRecordStatus s;
                             users_recordUrl := None |}).

(** A message of client [u]: as far as the first place where it may have to wait;
    [None] where it waits for the lock. *)
Definition serve (u : string) (msg : SocketMessage) (s : Server) : option Server :=
  match msg with
  | sent_hangUp _ => adapter_SetMetadata u "" s
  | sent_ready _ nickname _ => set_serving u ready_marked <$> adapter_SetMetadata u nickname s
  | sent_signal target signal => Some (adapter_emit target (ws_event (ev_signal u signal)) s)
  | sent_create_room roomReq _ =>
    Some (if decide (is_Some (activeRooms s !! roomReq))
          then adapter_emit u (ws_event (ev_room_created (getRoomCreator roomReq s))) s
          else set_serving u room_missing s)
  | sent_record status =>
    Some (if decide (token u ≠ getRoomCreator room s)
          then set_serving u (to_broadcast (ws_event (ev_record_callback false false None)) then_nothing) s
          else set_serving u (service_called status) s)
  end.

(** What the recording service answers: nothing on an error; else the body of the
    response, if it can be read. *)
Definition ServiceReply : Type := option (option string).

Definition after_broadcast (after : AfterBroadcast) (s : Server) : Server :=
  match after with
  | then_nothing => s
  | then_removeRoom => set_activeRooms (delete room) s
  | then_recordStatus status =>
    set_activeRooms (alter (λ r, {| room_creatorId := room_creatorId r;
                                    recordingStatus := status |}) room) s
  end.

(** From where the handler has stopped to the next such place; [n] is for the
    iterations over maps. *)
Definition serve_on (u : string) (n : nat) (reply : ServiceReply) (s : Server) : Server :=
  match handler_at s u with
  | next_message => s
  | ready_marked =>
    set_serving u (to_broadcast (users_message n u s)
      (if decide (getReadyClients s = ∅) then then_removeRoom else then_nothing)) s
  | room_missing =>
    set_serving u next_message
      (adapter_emit u (ws_event (ev_room_created (token u)))
        (set_activeRooms (λ m, <[room := {| room_creatorId := token u; recordingStatus := false |}]> m) s))
  | service_called status =>
    match reply with
    | None => set_serving u (to_broadcast (ws_event (ev_record_callback false false None)) then_nothing) s
    | Some body =>
      set_serving u (to_broadcast (ws_event (ev_record_callback true status None)) (then_recordStatus status))
        (match body, status with
         | Some url, true => adapter_emit u (ws_event (ev_stream_url url)) s
         | _, _ => s
         end)
    end
  | to_broadcast msg after => set_serving u (broadcasting msg (range n (clients s)) after) s
  | broadcasting msg (v :: rest) after =>
    set_serving u (broadcasting msg rest after) (adapter_emit v msg s)
  | broadcasting msg [] after => set_serving u next_message (after_broadcast after s)
  end.

End handler.

(** * What an operation of the room changes *)

Lemma adapter_emit_frame u msg s :
  clients (adapter_emit u msg s) = clients s ∧ activeRooms (adapter_emit u msg s) = activeRooms s ∧
  serving (adapter_emit u msg s) = serving s.
Proof. unfold adapter_emit. by destruct (clients s !! u). Qed.

Lemma adapter_emit_socket u msg s v :
  socket_of (adapter_emit u msg s) v =
  socket_of s v ++ (if decide (v = u ∧ is_Some (clients s !! u)) then [msg] else []).
Proof.
  unfold adapter_emit. destruct (clients s !! u) eqn:Hu.
  - unfold socket_of at 1. cbn [sockets set_sockets]. destruct (decide (v = u)) as [->|Hv].
    + rewrite lookup_insert_eq. by rewrite decide_True by eauto.
    + rewrite lookup_insert_ne by done. rewrite decide_False by tauto. by rewrite app_nil_r.
  - rewrite decide_False by (intros [_ [? ?]]; congruence). by rewrite app_nil_r.
Qed.

Lemma broadcast_locked_run msg s :
  clients (broadcast_locked msg s) = clients s ∧ activeRooms (broadcast_locked msg s) = activeRooms s ∧
  serving (broadcast_locked msg s) = serving s ∧
  ∀ v, socket_of (broadcast_locked msg s) v =
    socket_of s v ++ (if decide (is_Some (clients s !! v)) then [msg] else []).
Proof.
  unfold broadcast_locked. set (us := (map_to_list (clients s)).*1).
  assert (NoDup us) as Hnd by apply NoDup_fst_map_to_list.
  assert (∀ v, v ∈ us ↔ is_Some (clients s !! v)) as Hus.
  { intros v. apply elem_of_map_keys. }
  assert (∀ l, NoDup l → (∀ v, v ∈ l → is_Some (clients s !! v)) →
    let s' := foldr (λ u, adapter_emit u msg) s l in
    clients s' = clients s ∧ activeRooms s' = activeRooms s ∧ serving s' = serving s ∧
    ∀ v, socket_of s' v = socket_of s v ++ (if decide (v ∈ l) then [msg] else [])) as Hl.
  { clear Hnd Hus us. induction l as [|u l IH]; intros Hnd Hin.
    { split_and!; try done. intros v. by rewrite app_nil_r. }
    apply NoDup_cons in Hnd as [Hu Hnd]. cbn [foldr].
    destruct (IH Hnd (λ v Hv, Hin v (list_elem_of_further _ _ _ Hv))) as (Hc & Ha & Hs & Hk).
    destruct (adapter_emit_frame u msg (foldr (λ u, adapter_emit u msg) s l)) as (-> & -> & ->).
    split_and!; [done..|]. intros v. rewrite adapter_emit_socket, Hk, Hc, <-(assoc_L (++)). f_equal.
    destruct (decide (v = u)) as [->|Hv].
    - rewrite decide_False by done. rewrite (decide_True (P := u ∈ u :: l)) by left.
      rewrite decide_True; [done|]. split; [done|]. apply Hin. left.
    - rewrite (decide_False (P := v = u ∧ _)) by tauto. rewrite app_nil_r.
      apply decide_ext. rewrite elem_of_cons. tauto. }
  destruct (Hl us Hnd (λ v, proj1 (Hus v))) as (Hc & Ha & Hs & Hk). split_and!; [done..|].
  intros v. rewrite Hk. f_equal. by apply decide_ext.
Qed.

Lemma handler_at_set u h s v :
  handler_at (set_serving u h s) v = if decide (v = u) then h else handler_at s v.
Proof.
  unfold handler_at. cbn [serving set_serving]. case_decide as Hv.
  - subst. by rewrite lookup_insert_eq.
  - by rewrite lookup_insert_ne.
Qed.

(** The room before anyone has come. *)
Definition empty_server : Server :=
  {| clients := ∅; activeRooms := ∅; serving := ∅; sockets := ∅ |}.

(** Two orders of iteration, taken in turns. *)
Program Definition some_go_maps : GoMaps :=
  {| range n m := if Nat.even n then (map_to_list m).*1 else reverse (map_to_list m).*1 |}.
Next Obligation. intros n m. cbn. destruct (Nat.even n); [done|apply reverse_Permutation]. Qed.
