(* ===== verification/Mesh.v ===== *)
(** A room of a mesh call: the pages of its users, the server ([ServerRoom]), and the
    sockets between them, which lose nothing and keep the order while they are
    open. *)

From S2P Require Import Prelude Bytes TextCodec Encoder Decoder Objects InsertableStreams InsertableCodec Actions World Streams Peers Media Users Notices Async Store PeerActions CallActions Session ServerRoom.

#[local] Abbreviation list := Datatypes.list.

(** What a page has written to its socket, in order. *)
Definition socket_messages (es : list Effect) : list SocketMessage :=
  omap (λ e, match e with SocketSent msg => Some msg | _ => None end) es.
Definition sent (p : Page) : list SocketMessage := socket_messages (effects (world p)).

Record Mesh := {
  server : Server;
  pages : gmap string Page;
  (** how many of a page's messages the server has read, and how many of those to
      its socket a page has received *)
  messages_read : gmap string nat;
  messages_received : gmap string nat;
}.

Definition read_of (m : Mesh) (u : string) : nat := default 0 (messages_read m !! u).
Definition received_of (m : Mesh) (u : string) : nat := default 0 (messages_received m !! u).

Definition set_server (s : Server) (m : Mesh) : Mesh :=
  {| server := s; pages := pages m; messages_read := messages_read m;
     messages_received := messages_received m |}.
Definition set_page (u : string) (p : Page) (m : Mesh) : Mesh :=
  {| server := server m; pages := <[u := p]> (pages m); messages_read := messages_read m;
     messages_received := messages_received m |}.
Definition set_read (u : string) (n : nat) (m : Mesh) : Mesh :=
  {| server := server m; pages := pages m; messages_read := <[u := n]> (messages_read m);
     messages_received := messages_received m |}.
Definition set_received (u : string) (n : nat) (m : Mesh) : Mesh :=
  {| server := server m; pages := pages m; messages_read := messages_read m;
     messages_received := <[u := n]> (messages_received m) |}.

(** What happens in the room. *)
Inductive MeshEvent :=
  (** a user opens the page, under a name that the server makes up each time; its socket
      opens; it closes *)
  | page_opens (u : string) (stored : option string) (nickname : string) (codec_ok : bool)
  | socket_opens (u : string)
  | socket_closes (u : string)
  (** the page does something; it receives the next message *)
  | page_does (u : string) (ev : PageEvent)
  | page_takes (u : string)
  (** the handler of a client goes on *)
  | server_goes (u : string) (n : nat) (reply : ServiceReply).

(** What does not come from the server. *)
Definition of_the_page (ev : PageEvent) : bool :=
  match ev with
  | server_message ev_connect | server_message ev_disconnect => true
  | server_message _ => false
  | _ => true
  end.

Section mesh.
Context `{Platform} `{Lodash} `{ObjectKeys} `{EncodedStreams} `{TextCodec} `{!JSON} `{GoMaps}.
Context (room url : string) (token : string → string).
Context (locale : string → string) (engine_message : js_error → string).

(** The constants of the page of user [u]. *)
Definition window_of (u : string) : Window :=
  {| userId := u; callId := room; toLocaleString := locale; exception_message := engine_message |}.

Definition page_run (u : string) (ev : PageEvent) : eff Page unit :=
  let _ := window_of u in run ev.

(** A message of the server arrives at the page of [u]; nobody listens for those
    about the room. *)
Definition receive (u : string) (msg : ServerMessage) : eff Page unit :=
  match msg with
  | ws_event ev => page_run u (server_message ev)
  | ws_room_join _ _ | ws_room_leave _ => mret tt
  end.

(** A step of the room; [None] when it cannot be taken. *)
Definition mesh_step (ev : MeshEvent) (m : Mesh) : option Mesh :=
  match ev with
  | page_opens u stored nickname ok =>
    match pages m !! u with
    | Some _ => None
    | None => Some (set_page u (let _ := window_of u in opened stored nickname url ok) m)
    end
  | socket_opens u =>
    p ← pages m !! u;
    match clients (server m) !! u, handler_at (server m) u with
    | None, next_message =>
      s ← adapter_Add u (server m);
      Some (set_read u (length (sent p)) (set_received u (length (socket_of (server m) u))
              (set_page u (set_connecting false p) (set_server s m))))
    | _, _ => None
    end
  | socket_closes u =>
    match clients (server m) !! u with
    | None => None
    | Some _ => s ← adapter_Remove u (server m); Some (set_server s m)
    end
  | page_does u ev =>
    p ← pages m !! u;
    if of_the_page ev then Some (set_page u (page_run u ev p).2 m) else None
  | page_takes u =>
    p ← pages m !! u;
    msg ← socket_of (server m) u !! received_of m u;
    Some (set_received u (S (received_of m u)) (set_page u (receive u msg p).2 m))
  | server_goes u n reply =>
    match handler_at (server m) u with
    | next_message =>
      match clients (server m) !! u with
      | None => None
      | Some _ =>
        p ← pages m !! u;
        msg ← sent p !! read_of m u;
        s ← serve room token u msg (server m);
        Some (set_read u (S (read_of m u)) (set_server s m))
      end
    | _ => Some (set_server (serve_on room token u n reply (server m)) m)
    end
  end.

Definition mesh_run (evs : list MeshEvent) (m : Mesh) : option Mesh :=
  foldl (λ m ev, m ≫= mesh_step ev) (Some m) evs.

Definition empty_room : Mesh :=
  {| server := empty_server; pages := ∅; messages_read := ∅; messages_received := ∅ |}.

(** The browser of each page keeps its contract. *)
Definition valid_mesh_event (m : Mesh) (ev : MeshEvent) : Prop :=
  match ev with
  | page_does u ev => ∀ p, pages m !! u = Some p → valid_event p ev
  | _ => True
  end.

Inductive reachable : Mesh → Prop :=
  | room_starts : reachable empty_room
  | room_goes_on m ev m' :
      reachable m → valid_mesh_event m ev → mesh_step ev m = Some m' → reachable m'.
(** Runs of events that are valid in every page. *)
Definition always_valid (ev : MeshEvent) : bool :=
  match ev with
  | page_does _ (user_dials _) | page_does _ user_hangs_up | page_does _ reaction_due => true
  | page_does _ (peer_event _ (peer_signal _)) | page_does _ (peer_event _ peer_close)
  | page_does _ (server_message _) => true
  | page_does _ _ => false
  | _ => true
  end.

Lemma mesh_run_app evs evs' m :
  mesh_run (evs ++ evs') m = mesh_run evs m ≫= mesh_run evs'.
Proof.
  unfold mesh_run. rewrite foldl_app. destruct (foldl _ (Some m) evs); [done|]. cbn.
  by induction evs'.
Qed.

Lemma mesh_run_cons ev evs m : mesh_run (ev :: evs) m = mesh_step ev m ≫= mesh_run evs.
Proof. apply (mesh_run_app [ev]). Qed.

Lemma reachable_run evs : ∀ m m',
  forallb always_valid evs = true → reachable m → mesh_run evs m = Some m' → reachable m'.
Proof.
  induction evs as [|ev evs IH]; intros m m' Hv Hm Hrun; [by injection Hrun as <-|].
  cbn in Hv. apply andb_true_iff in Hv as [Hev Hv]. rewrite mesh_run_cons in Hrun.
  destruct (mesh_step ev m) as [m1|] eqn:Hs; [|done]. cbn in Hrun.
  apply (IH m1); [done| |done]. eapply room_goes_on; [done| |done].
  destruct ev as [| | |u ev| |]; try done. intros p _. destruct ev; try done.
  by match goal with ev : PeerEvent |- _ => destruct ev end.
Qed.
End mesh.
