(* ===== verification/MeshPages.v ===== *)
(** A page in a room: what it makes of the server's list of users once it listens
    for them, and the side it takes in each of its connections. *)

From S2P Require Import Prelude Bytes TextCodec Encoder Decoder Objects InsertableStreams InsertableCodec Actions World Logic Streams Peers Media Users Notices Async Store PeerActions CallActions CallSafety Session PageRules ServerRoom Mesh.

#[local] Abbreviation list := Datatypes.list.

(** The side a peer was made with: the first peer of that number counts. *)
Fixpoint made_as (es : list Effect) (n : PeerRef) : option bool :=
  match es with
  | [] => None
  | PeerCreated n' b _ :: es => if decide (n' = n) then Some b else made_as es n
  | _ :: es => made_as es n
  end.
Definition side (p : Page) (n : PeerRef) : option bool := made_as (effects (world p)) n.

Lemma made_as_app es es' n :
  made_as (es ++ es') n = match made_as es n with Some b => Some b | None => made_as es' n end.
Proof. induction es as [|[] es IH]; simpl; try done. by case_decide. Qed.

Lemma made_as_made base b s us n :
  made_as (imap (λ i (_ : string), PeerCreated (base + i) b s) us) n =
  if decide (base ≤ n ∧ n < base + length us) then Some b else None.
Proof.
  revert base. induction us as [|u us IH]; intros base.
  - cbn. by rewrite decide_False by lia.
  - cbn [imap made_as length]. rewrite Nat.add_0_r. case_decide as Hn.
    + subst. by rewrite decide_True by lia.
    + rewrite (imap_ext _ (λ i _, PeerCreated (S base + i) b s)).
      * rewrite IH. by repeat case_decide; try lia.
      * intros i x _. simpl. by rewrite Nat.add_succ_r.
Qed.

(** What a page listens with for the users. *)
Definition users_listeners (p : Page) : list Registration :=
  filter (λ r, r_event r = "users") (listeners p).

(** Peers are numbered in the order in which they are made. *)
Definition numbered (p : Page) : Prop :=
  (∀ n, next_peer (world p) ≤ n → side p n = None) ∧
  ∀ u n, st_peers (state p) !! u = Some n → n < next_peer (world p).

(** The listeners of a page that is in the call, or on its way there. *)
Definition listens (u : string) (p : Page) : Prop :=
  ∃ h tail, users_listeners p = users_listener h :: tail ∧ sh_userId h = u ∧
    (tail = [] ∨ ∃ n, tail = [dial_listener n]).

(** Nothing has happened to the page's connections, those with users that have gone
    excepted, and the server is only told things that change no one else's. *)
Definition harmless (msg : SocketMessage) : bool :=
  match msg with
  | sent_signal _ _ | sent_create_room _ _ => true
  | _ => false
  end.

Record calm (gone : gset string) (p p' : Page) : Prop := {
  ca_peers v : st_peers (state p') !! v = st_peers (state p) !! v ∨
    v ∈ gone ∧ st_peers (state p') !! v = None;
  ca_names v : v ∉ gone → st_nicknames (state p') !! v = st_nicknames (state p) !! v;
  ca_listeners : users_listeners p' = users_listeners p;
  ca_next : next_peer (world p) ≤ next_peer (world p');
  ca_sides n : n < next_peer (world p) → side p' n = side p n;
  ca_none n : next_peer (world p') ≤ n → side p n = None → side p' n = None;
  ca_sent : ∃ new, sent p' = sent p ++ new ∧ Forall harmless new;
}.

Section calm.
Variable (gone : gset string).

Lemma calm_peer p p' v n :
  calm gone p p' → st_peers (state p') !! v = Some n → st_peers (state p) !! v = Some n.
Proof. intros Hc. by destruct (ca_peers _ _ _ Hc v) as [->|[_ ->]]. Qed.

Lemma calm_peer_of p p' v : calm gone p p' → v ∉ gone → st_peers (state p') !! v = st_peers (state p) !! v.
Proof. intros Hc Hv. by destruct (ca_peers _ _ _ Hc v) as [->|[? _]]. Qed.

Lemma calm_no_peers p p' : calm gone p p' → st_peers (state p) = ∅ → st_peers (state p') = ∅.
Proof.
  intros Hc Hp. apply map_eq. intros v. rewrite lookup_empty.
  destruct (ca_peers _ _ _ Hc v) as [->|[_ ->]]; [by rewrite Hp, lookup_empty|done].
Qed.

Lemma calm_numbered p p' : calm gone p p' → numbered p → numbered p'.
Proof.
  intros Hc [Hnone Hlt]. split.
  - intros n Hle. apply (ca_none _ _ _ Hc); [done|]. apply Hnone. pose proof (ca_next _ _ _ Hc). lia.
  - intros u n Hu%(calm_peer _ _ _ _ Hc)%Hlt. pose proof (ca_next _ _ _ Hc). lia.
Qed.

Lemma calm_side p p' u n :
  calm gone p p' → numbered p → st_peers (state p) !! u = Some n → side p' n = side p n.
Proof. intros Hc [_ Hlt] Hu. apply (ca_sides _ _ _ Hc). by eapply Hlt. Qed.

Lemma calm_listens u p p' : calm gone p p' → listens u p → listens u p'.
Proof. intros Hc. unfold listens. by rewrite (ca_listeners _ _ _ Hc). Qed.

Lemma socket_messages_app es es' : socket_messages (es ++ es') = socket_messages es ++ socket_messages es'.
Proof. apply omap_app. Qed.

Lemma calm_refl p : calm gone p p.
Proof. split; try done; [by left|]. exists []. by rewrite app_nil_r. Qed.

(** A page goes on being calm as long as it makes no peer, keeps those it has but
    for users that have gone, and writes nothing else to its socket. *)
Definition not_creating (e : Effect) : bool :=
  match e with PeerCreated _ _ _ => false | SocketSent msg => harmless msg | _ => true end.

Lemma calm_more q p p' es :
  calm gone q p →
  (∀ v, st_peers (state p') !! v = st_peers (state p) !! v ∨ v ∈ gone ∧ st_peers (state p') !! v = None) →
  (∀ v, v ∉ gone → st_nicknames (state p') !! v = st_nicknames (state p) !! v) →
  users_listeners p' = users_listeners p → next_peer (world p') = next_peer (world p) →
  effects (world p') = effects (world p) ++ es → Forall not_creating es → calm gone q p'.
Proof.
  intros [Hp Hns Hl Hn Hs H0 (new & Hsent & Hnew)] Hp' Hns' Hl' Hn' He Hes.
  assert (∀ n, made_as es n = None ∧ Forall harmless (socket_messages es)) as Hnone.
  { intros n. clear He. induction Hes as [|e es Hh _ IH]; [done|].
    destruct e; try done. cbn. destruct IH as [Hm Ht]. split; [done|]. by constructor. }
  split.
  - intros v. destruct (Hp' v) as [->|?]; [apply Hp|by right].
  - intros v Hv. by rewrite Hns', Hns.
  - by rewrite Hl'.
  - by rewrite Hn'.
  - intros n Hlt. rewrite <-(Hs n Hlt). unfold side. rewrite He, made_as_app.
    destruct (made_as (effects (world p)) n); [done|]. apply Hnone.
  - intros n Hle Hq. unfold side. rewrite He, made_as_app.
    rewrite Hn' in Hle. pose proof (H0 n Hle Hq) as Hp0. unfold side in Hp0. rewrite Hp0. apply Hnone.
  - exists (new ++ socket_messages es). unfold sent in *.
    rewrite He, socket_messages_app, Hsent, (assoc_L (++)). split; [done|].
    apply Forall_app. split; [done|]. by apply (Hnone 0).
Qed.
End calm.

Section page.
Context `{Platform} `{Lodash} `{ObjectKeys} `{EncodedStreams} `{TextCodec} `{!JSON} `{Window}.

(** The list of users arrives at a page that listens for it. *)
Lemma users_arrive u payload q :
  listens u q → NoDup (peerIds payload) → users_recordStatus payload = false →
  ∃ h p1 q', emit_event (ev_users payload) q = (Ok tt, q') ∧ users_handled h payload q p1 ∧
    sh_userId h = u ∧ state q' = state p1 ∧ world q' = world p1 ∧
    users_listeners q' = [users_listener h].
Proof.
  intros (h & tail & Hl & Hu & Htail) Hnd Hrec.
  assert (users_recordStatus payload = true → sh_roomName h ≠ "") as Hroom by (by rewrite Hrec).
  destruct Htail as [->|[n ->]].
  - destruct (handleUsers_run h payload q Hnd Hroom) as (p1 & Hrun & Hh).
    exists h, p1, p1. split_and!; try done.
    + unfold emit_event. rewrite (bind_runs _ _ q [users_listener h] q) by (unfold gets; by rewrite <-Hl).
      cbn [for_each r_once users_listener r_listener call_listener].
      rewrite (bind_runs _ _ q tt p1); [done|]. by rewrite (bind_runs _ _ q tt q).
    + unfold users_listeners. by rewrite (uh_listeners _ _ _ _ Hh).
  - destruct (emit_users_run payload q h n Hl Hnd Hroom) as (p1 & _ & Hh & Hemit).
    exists h, p1. eexists. split_and!; [exact Hemit|done|done|done|done|].
    unfold users_listeners. simpl. rewrite (uh_listeners _ _ _ _ Hh), list_filter_filter.
    assert (∀ l : list Registration, filter (λ r, r_event r = "users") l = [users_listener h; dial_listener n] →
      filter (λ r, r_event r = "users" ∧ r ≠ dial_listener n) l = [users_listener h]) as Hf; [|by apply Hf].
    intros l Hfl. transitivity (filter (λ r, r ≠ dial_listener n) (filter (λ r, r_event r = "users") l)).
    + rewrite list_filter_filter. apply list_filter_iff. tauto.
    + rewrite Hfl. rewrite filter_cons_True by (intros [=]). by rewrite filter_cons_False by (intros Hn; by apply Hn).
Qed.

(** What it does then: it makes a peer for everyone the list names whom it has none
    for, on the side the list says. *)
Record connected_to (u : string) (payload : UsersPayload) (q q' : Page) : Prop := {
  ct_listens : listens u q';
  ct_numbered : numbered q';
  ct_sent : sent q' = sent q;
  ct_kept v n : st_peers (state q) !! v = Some n →
    st_peers (state q') !! v = Some n ∧ side q' n = side q n;
  ct_new v : v ∈ peerIds payload → v ≠ u → st_peers (state q) !! v = None →
    ∃ n, st_peers (state q') !! v = Some n ∧
      side q' n = Some (bool_decide (initiator payload = u));
  ct_names : u ≠ ME → user_nicknames payload !! ME = None → ∀ v, v ≠ ME → v ≠ u →
    st_nicknames (state q') !! v = user_nicknames payload !! v;
  ct_others v : v ∉ peerIds payload ∨ v = u → st_peers (state q') !! v = st_peers (state q) !! v;
}.

Lemma socket_messages_made base b s (us : list string) :
  socket_messages (imap (λ i _, PeerCreated (base + i) b s) us) = [].
Proof.
  unfold socket_messages. revert base. induction us as [|u us IH]; intros base; [done|].
  cbn. rewrite (imap_ext _ (λ i _, PeerCreated (S base + i) b s)); [apply IH|].
  intros i x _. simpl. by rewrite Nat.add_succ_r.
Qed.

Lemma users_connect u payload q :
  u = userId → listens u q → numbered q → NoDup (peerIds payload) → users_recordStatus payload = false →
  connected_to u payload q (emit_event (ev_users payload) q).2.
Proof.
  intros Hme Hl [Hnone Hlt] Hnd Hrec.
  destruct (users_arrive u payload q Hl Hnd Hrec) as (h & p1 & q' & Hrun & Hh & Hu & Hs & Hw & Hls).
  rewrite Hrun. cbn [snd].
  destruct (uh_new _ _ _ _ Hh) as (base & es & _ & Hes & _ & Heff & Hnew).
  destruct (Hes Hrec) as [-> ->]. pose proof (uh_next _ _ _ _ Hh Hrec) as Hnext.
  assert (∀ v, v ∈ new_users h payload q ↔ v ∈ peerIds payload ∧ v ≠ u ∧ st_peers (state q) !! v = None) as Hin.
  { intros v. unfold new_users. rewrite list_elem_of_filter, Hu. tauto. }
  assert (∀ n, side q' n = match side q n with Some b => Some b | None =>
    if decide (next_peer (world q) ≤ n ∧ n < next_peer (world q) + length (new_users h payload q))
    then Some (bool_decide (initiator payload = u)) else None end) as Hside.
  { intros n. unfold side. by rewrite Hw, Heff, made_as_app, made_as_made, Hu. }
  assert (∀ v, v ∉ new_users h payload q → st_peers (state q') !! v = st_peers (state q) !! v) as Hothers.
  { intros v. rewrite Hs. apply (uh_others _ _ _ _ Hh). }
  split.
  - exists h, []. split_and!; [done|done|by left].
  - split.
    + intros n. rewrite Hw, Hnext, Hside. intros Hn. rewrite Hnone by lia. by rewrite decide_False by lia.
    + intros v n. rewrite Hw, Hnext. destruct (decide (v ∈ new_users h payload q)) as [Hv|Hv].
      * apply list_elem_of_lookup in Hv as [i Hi]. destruct (Hnew i v Hi) as [Hp _].
        rewrite Hs, Hp. intros [= <-]. apply lookup_lt_Some in Hi. lia.
      * rewrite Hothers by done. intros Hv'. apply Hlt in Hv'. lia.
  - unfold sent. rewrite Hw, Heff. unfold socket_messages at 1. rewrite omap_app.
    fold (socket_messages (effects (world q))). etransitivity; [|apply app_nil_r]. f_equal.
    apply socket_messages_made.
  - intros v n Hv. rewrite Hothers by (rewrite Hin; intros (_ & _ & ?); congruence).
    split; [done|]. rewrite Hside. destruct (side q n) eqn:Hsd; [done|].
    apply Hlt in Hv. by rewrite decide_False by lia.
  - intros v Hv Hvu Hno. assert (v ∈ new_users h payload q) as Hi by (by apply Hin).
    apply list_elem_of_lookup in Hi as [i Hi]. destruct (Hnew i v Hi) as [Hp _].
    exists (next_peer (world q) + i). split; [by rewrite Hs|].
    rewrite Hside, Hnone by lia. apply lookup_lt_Some in Hi. by rewrite decide_True by lia.
  - intros Hu' HME v Hv Hvu. rewrite Hs, (uh_nicknames _ _ _ _ Hh), <-Hme.
    pose proof (nicknames_after_set u (st_nicknames (state q)) (user_nicknames payload) v HME Hu') as Hset.
    rewrite !decide_False in Hset by done. exact Hset.
  - intros v Hv. apply Hothers. rewrite Hin. naive_solver.
Qed.

(** A connection with a user that has gone may close, or fail. *)
Definition effects_added (w0 w : World) : Prop :=
  next_peer w = next_peer w0 ∧ ∃ es, effects w = effects w0 ++ es ∧ Forall not_creating es.

Lemma added_modify w0 f :
  (∀ w, next_peer (f w) = next_peer w ∧ effects (f w) = effects w) → keeps (effects_added w0) (modify f).
Proof. intros Hf. apply keeps_modify. intros w. unfold effects_added. by destruct (Hf w) as [-> ->]. Qed.

Lemma added_emit w0 e : not_creating e = true → keeps (effects_added w0) (World.emit e).
Proof.
  intros He w r w' (Hn & es & Hes & Hall) [= <- <-]. split; [done|]. exists (es ++ [e]).
  cbn [effects set_effects]. rewrite Hes, (assoc_L (++)). split; [done|].
  apply Forall_app. split; [done|]. constructor; [by rewrite He|constructor].
Qed.

#[local] Hint Extern 1 (keeps (effects_added _) (World.emit _)) => apply added_emit; reflexivity : keeps.
#[local] Hint Extern 1 (keeps (effects_added _) (modify _)) =>
  apply added_modify; intros; split; reflexivity : keeps.

Lemma removePeer_added w0 s u : keeps (effects_added w0) (removePeer s u).
Proof. unfold removePeer, removeTrack, stream_removeTrack, getTracks, revoke_url. repeat keeps_step. Qed.

Lemma remove_peer_calm gone q u : u ∈ gone → keeps (calm gone q) (dispatch_plain (RemovePeerAction u)).
Proof.
  intros Hu p r p' Hp Hrun. destruct (dispatch_frame _ _ _ _ Hrun) as (_ & Hl & _ & _).
  revert Hrun. unfold dispatch_plain, messaging, store_reduce, lift, mbind, eff_bind, gets, modify, reducers.
  cbn [notifications isRejectedAction handleNotifications peers streams]. unfold mbind, eff_bind, mret, eff_ret.
  destruct (removePeer (st_streams (state p)) u (world p)) as [[s'|e] w'] eqn:Hrm; intros [= _ <-];
    destruct (removePeer_added (world p) _ _ (world p) _ _ (conj eq_refl (ex_intro _ [] (conj (eq_sym (app_nil_r _))
      (Forall_nil_2 _)))) Hrm) as (Hn & es & He & Hes);
    (eapply (calm_more gone q p _ es); [done| | |unfold users_listeners; by f_equal|done..]).
  - intros v. cbn. rewrite omit_lookup. case_decide as Hv; [right|by left].
    by apply list_elem_of_singleton in Hv as ->.
  - intros v Hv. cbn. rewrite omit_lookup. rewrite decide_False; [done|].
    by intros ->%list_elem_of_singleton.
  - by left.
  - done.
Qed.

Lemma same_calm gone q p p' :
  st_peers (state p') = st_peers (state p) → st_nicknames (state p') = st_nicknames (state p) →
  listeners p' = listeners p → next_peer (world p') = next_peer (world p) →
  effects (world p') = effects (world p) → calm gone q p → calm gone q p'.
Proof.
  intros Hp Hns Hl Hn He Hc. eapply (calm_more gone q p p' []); [done| | | |done| |done].
  - intros v. left. by rewrite Hp.
  - intros v _. by rewrite Hns.
  - unfold users_listeners. by rewrite Hl.
  - by rewrite app_nil_r.
Qed.

Lemma notify_calm gone q type args : keeps (calm gone q) (dispatch_notify (notify type) args).
Proof. intros p r p' Hp. rewrite dispatch_notify_run. intros [= _ <-]. by apply (same_calm gone q p). Qed.

Lemma destroy_calm gone q n : keeps (calm gone q) (lift (call_peer n p_destroy)).
Proof.
  intros p r p' Hp [= _ <-]. eapply (calm_more gone q p _ [PeerCalled n p_destroy]); try done; [by left|].
  by repeat constructor.
Qed.

Definition ends_connection (ev : PeerEvent) : bool :=
  match ev with peer_close | peer_error => true | _ => false end.

Lemma close_calm gone p n ev :
  ends_connection ev → (∀ h, handlers p !! n = Some h → ph_user h ∈ gone) →
  calm gone p (run (peer_event n ev) p).2.
Proof.
  intros Hev Hgone. destruct (run (peer_event n ev) p) as [r p'] eqn:Hrun. cbn [snd run] in *.
  unfold on_peer_event in Hrun.
  assert (∃ o p1, take_once n ev p = (Ok o, p1) ∧ (∀ u, o = Some u → u ∈ gone) ∧ calm gone p p1)
    as (o & p1 & Ht & Ho & Hc).
  { unfold take_once. destruct (handlers p !! n) as [h|] eqn:Hh.
    - specialize (Hgone h eq_refl). destruct ev; try done; (eexists _, _; split; [reflexivity|split]);
        try (by apply (same_calm gone p p); try apply calm_refl); intros u Hu;
        (destruct (ph_error h) || destruct (ph_close h)); try destruct (ph_close h); congruence.
    - exists None, p. split_and!; [done|done|apply calm_refl]. }
  rewrite (bind_runs _ _ p o p1 Ht) in Hrun. destruct o as [u|]; [|by injection Hrun as _ <-].
  specialize (Ho u eq_refl).
  assert (keeps (calm gone p) (match ev with peer_error => handleError u | _ => handleClose u end)) as Hk.
  { pose proof (notify_calm gone p). pose proof (destroy_calm gone p). pose proof (remove_peer_calm gone p u Ho).
    unfold handleError, handleClose, peer_of. destruct ev; try done; repeat keeps_step. }
  apply (Hk p1 r p' Hc). by destruct ev.
Qed.

(** Whatever a page does but dial, what it tells the server is of no call. *)
Definition sends_parting (msgs : list SocketMessage) (w : World) : Prop :=
  ∃ new, socket_messages (effects w) = msgs ++ new ∧ Forall parting new.

Lemma sends_parting_emit msgs e w :
  match e with SocketSent msg => parting msg = true | _ => True end →
  sends_parting msgs w → sends_parting msgs (set_effects (λ es, es ++ [e]) w).
Proof.
  intros He (new & Hs & Hnew). exists (new ++ socket_messages [e]). cbn [effects set_effects].
  rewrite socket_messages_app, Hs, (assoc_L (++)). split; [done|]. apply Forall_app. split; [done|].
  destruct e; try constructor; [by rewrite He|constructor].
Qed.

Lemma sends_parting_world msgs : world_rules (sends_parting msgs).
Proof.
  split.
  - intros w w' He _ _. unfold sends_parting. by rewrite He.
  - intros peer call _ w r w' Hw [= _ <-]. by apply sends_parting_emit.
  - intros e He w r w' Hw [= _ <-]. apply sends_parting_emit; [by destruct e|done].
  - intros b x w r w' Hw [= _ <-]. by apply (sends_parting_emit _ _ (set_next_peer _ w)).
Qed.

Lemma sends_parting_codec msgs op : keeps (sends_parting msgs) (codec_op op).
Proof. intros w r w' Hw. unfold codec_op. destruct (codec_call op (codec w)). by intros [= _ <-]. Qed.

Lemma sends_parting_rules msgs : frame_rules (λ p, sends_parting msgs (world p)).
Proof.
  apply world_frame_rules; [apply sends_parting_world| |apply sends_parting_codec|done].
  intros e He w r w' Hw [= _ <-]. apply sends_parting_emit; [|done].
  destruct e; try done. cbn in He. by destruct (parting message).
Qed.

Lemma run_sends_parting ev msgs :
  (∀ nickname, ev ≠ user_dials nickname) → keeps (λ p, sends_parting msgs (world p)) (run ev).
Proof.
  intros Hev. pose proof (sends_parting_rules msgs) as HF.
  destruct (quiet ev) eqn:Hq; [by apply quiet_kept|].
  destruct (encodes ev) eqn:He.
  { apply sending_kept; [done|split; [done|]|done]. intros peer chunk. apply lift_world.
    intros w r w' Hw [= _ <-]. by apply sends_parting_emit. }
  destruct ev as [|c|peer []| | | | | | | | | | |nickname| |m|action|pw]; try done.
  - apply data_kept; [done|]. intros p r p' Hp. unfold decode_buffer. repeat case_match; by intros [= _ <-].
  - by destruct (Hev nickname).
  - apply dispatch_world; [apply sends_parting_world|]. intros sender. apply sends_parting_codec.
  - cbn [run]. apply keeps_bind; [apply lift_world, sends_parting_codec|intros ?; apply keeps_ret].
Qed.

Lemma run_parting ev p :
  (∀ nickname, ev ≠ user_dials nickname) →
  ∃ new, sent (run ev p).2 = sent p ++ new ∧ Forall parting new.
Proof.
  intros Hev. destruct (run ev p) as [r p'] eqn:Hrun.
  apply (run_sends_parting ev (sent p) Hev p r p'); [|done]. exists []. by rewrite app_nil_r.
Qed.

(** A page that dials. *)
Record dialling_page (nickname : string) (p p' : Page) : Prop := {
  dg_peers : st_peers (state p') = st_peers (state p);
  dg_listens : listens userId p';
  dg_numbered : numbered p → numbered p';
  dg_sent : sent p' = sent p ++ [sent_ready callId nickname nickname];
  dg_sides n : side p' n = side p n;
}.

Lemma dial_page nickname p :
  connecting p = false → dialling_page nickname p (dial nickname p).2.
Proof.
  intros Hc. rewrite dial_run, Hc. cbn [snd].
  assert (∀ n, side (dialled nickname p) n = side p n) as Hside.
  { intros n. unfold side. change (effects (world (dialled nickname p))) with
      (effects (world p) ++ [SocketSent (sent_ready callId nickname nickname)]).
    rewrite made_as_app. by destruct (made_as _ n). }
  split; [done| | | |done].
  - exists (dial_handler nickname), [dial_listener (next_promise (promises p))].
    split_and!; [apply dialled_users|done|right; by eexists].
  - intros [Hn Hlt]. split; [|exact Hlt]. intros n. rewrite Hside. apply Hn.
  - unfold sent. change (effects (world (dialled nickname p))) with
      (effects (world p) ++ [SocketSent (sent_ready callId nickname nickname)]).
    apply socket_messages_app.
Qed.

(** A page that has just been opened. *)
Lemma opened_page stored nickname url ok :
  let p := opened stored nickname url ok in
  st_peers (state p) = ∅ ∧ users_listeners p = [] ∧ numbered p ∧ sent p = [].
Proof.
  split_and!; [done|done| |done]. split; [done|]. intros u n.
  change (st_peers (state (opened stored nickname url ok))) with (∅ : PeersState).
  by rewrite lookup_empty.
Qed.
End page.
