(* ===== verification/MeshCalm.v ===== *)
(** The events of a page in a room that leave its connections as they are. *)

From S2P Require Import Prelude Bytes TextCodec Encoder Decoder Objects InsertableStreams InsertableCodec Actions World Logic Streams Peers PeersSafety Media Users Notices Async Store PeerActions CallActions Chat CallSafety Session PageRules ServerRoom Mesh MeshPages.

#[local] Abbreviation list := Datatypes.list.

(** * The world *)

(** Peers may have been made, but under new numbers, and the server has only been
    told what changes no one else's connections. *)
Record world_calm (w0 w : World) : Prop := {
  wc_next : next_peer w0 ≤ next_peer w;
  wc_sides n : n < next_peer w0 → made_as (effects w) n = made_as (effects w0) n;
  wc_none n : next_peer w ≤ n → made_as (effects w0) n = None → made_as (effects w) n = None;
  wc_sent : ∃ new, socket_messages (effects w) = socket_messages (effects w0) ++ new ∧ Forall harmless new;
}.

#[export] Instance world_calm_preorder : PreOrder world_calm.
Proof.
  split.
  - intros w. split; try done. exists []. by rewrite app_nil_r.
  - intros w1 w2 w3 [Hn Hs H0 (new & Hm & Hnew)] [Hn' Hs' H0' (new' & Hm' & Hnew')]. split.
    + lia.
    + intros n Hlt. rewrite Hs' by lia. by apply Hs.
    + intros n Hle Hnone. apply H0'; [done|]. apply H0; [lia|done].
    + exists (new ++ new'). rewrite Hm', Hm, (assoc_L (++)). split; [done|]. by apply Forall_app.
Qed.

Lemma world_calm_emit w e : not_creating e = true → world_calm w (set_effects (λ es, es ++ [e]) w).
Proof.
  intros He. split; [done| | |].
  - intros n _. cbn. rewrite made_as_app. destruct (made_as _ n); [done|]. by destruct e.
  - intros n _ Hn. cbn. rewrite made_as_app, Hn. by destruct e.
  - exists (socket_messages [e]). cbn. rewrite socket_messages_app. split; [done|].
    destruct e; try apply Forall_nil_2. constructor; [cbn in He; by rewrite He|apply Forall_nil_2].
Qed.

Lemma world_calm_new w b s :
  world_calm w (set_effects (λ es, es ++ [PeerCreated (next_peer w) b s]) (set_next_peer (S (next_peer w)) w)).
Proof.
  split; [cbn; lia| | |].
  - intros n Hlt. cbn. rewrite made_as_app. destruct (made_as _ n); [done|]. cbn.
    by rewrite decide_False by lia.
  - intros n Hle Hn. cbn in *. rewrite made_as_app, Hn. cbn. by rewrite decide_False by lia.
  - exists []. cbn. rewrite socket_messages_app. split; [done|apply Forall_nil_2].
Qed.

Lemma world_calm_same w0 w w' :
  effects w' = effects w → next_peer w' = next_peer w → world_calm w0 w → world_calm w0 w'.
Proof. intros He Hn [? ? ? ?]. split; rewrite ?He, ?Hn; done. Qed.

Section world.
Context `{Platform} `{EncodedStreams}.

Lemma emit_world_calm w0 e : not_creating e = true → keeps (world_calm w0) (World.emit e).
Proof. intros He w r w' Hw [= _ <-]. etrans; [done|by apply world_calm_emit]. Qed.

Lemma call_world_calm w0 peer call : keeps (world_calm w0) (call_peer peer call).
Proof. intros w r w' Hw [= _ <-]. etrans; [done|by apply world_calm_emit]. Qed.

Lemma codec_world_calm w0 op : keeps (world_calm w0) (codec_op op).
Proof. intros w r w' Hw. unfold codec_op. destruct (codec_call op (codec w)). intros [= _ <-]. by apply (world_calm_same _ w). Qed.

Lemma world_calm_rules w0 : world_rules (world_calm w0).
Proof.
  split.
  - intros w w' He Hn _. by apply world_calm_same.
  - intros peer call _. apply call_world_calm.
  - intros e He. apply emit_world_calm. by destruct e.
  - intros b x w r w' Hw [= _ <-]. etrans; [done|apply world_calm_new].
Qed.
End world.

(** * The page *)

(** The actions that are not about the users' connections and names. *)
Definition leaves_peers (action : Action) : bool :=
  match action with
  | AddPeerAction _ _ | RemovePeerAction _ | HangUpAction | NicknamesSetAction _
  | NicknameRemoveAction _ => false
  | _ => true
  end.

Section page.
Context `{Platform} `{Lodash} `{ObjectKeys} `{EncodedStreams} `{TextCodec} `{!JSON} `{Window}.
Context (gone : gset string) (q : Page).

Lemma calm_step p p' :
  calm gone q p → st_peers (state p') = st_peers (state p) →
  st_nicknames (state p') = st_nicknames (state p) → users_listeners p' = users_listeners p →
  world_calm (world p) (world p') → calm gone q p'.
Proof using All.
  intros [Hp Hns Hl Hn Hs Hz (new & Hsent & Hnew)] Hp' Hns' Hl' [Wn Ws W0 (new' & Wm & Hnew')]. split.
  - intros v. rewrite Hp'. apply Hp.
  - intros v. rewrite Hns'. apply Hns.
  - by rewrite Hl'.
  - lia.
  - intros n Hlt. unfold side in *. rewrite Ws by lia. by apply Hs.
  - intros n Hle Hq. unfold side in *. apply W0; [done|]. apply Hz; [lia|done].
  - exists (new ++ new'). unfold sent in *. rewrite Wm, Hsent, (assoc_L (++)). split; [done|].
    by apply Forall_app.
Qed.

Lemma lift_calm {A} (m : eff World A) :
  (∀ w0, keeps (world_calm w0) m) → keeps (calm gone q) (lift m).
Proof using All.
  intros Hm p r p' Hp. unfold lift. destruct (m (world p)) as [r1 w1] eqn:Hrun. intros [= _ <-].
  apply (calm_step p); [done..|]. by apply (Hm (world p) (world p) r1 w1).
Qed.

Lemma peers_left ps action w ps' w' :
  leaves_peers action = true → peers ps action w = (Ok ps', w') → ps' = ps.
Proof using All.
  intros Ha. assert (ensures (λ _, True) (λ ps', ps' = ps) (peers ps action)) as He;
    [|intros Hrun; by destruct (He w (Ok ps') w' I Hrun) as [_ Hs]; apply Hs].
  assert (∀ A B (Q : B → Prop) (m : eff World A) f,
    (∀ a, ensures (λ _, True) Q (f a)) → ensures (λ _ : World, True) Q (m ≫= f)) as Hbind.
  { intros A B Q m f Hf. by apply (ensures_bind _ true_of). }
  assert (ensures (λ _ : World, True) (λ ps', ps' = ps) (mret ps)) as Hret by by apply ensures_ret.
  destruct action; try done; cbn [peers]; try done;
    unfold handleRemoveLocalStream, handleLocalMediaStream, handleLocalMediaTrack, handleLocalMediaTrackEnable;
    repeat first [done|apply Hbind; intros ?|case_match].
Qed.

Lemma reducers_left time s action w s' w' :
  leaves_peers action = true → reducers time s action w = (Ok s', w') →
  st_peers s' = st_peers s ∧ st_nicknames s' = st_nicknames s.
Proof using All.
  intros Ha. unfold reducers, mbind, eff_bind.
  destruct (notifications _ _ w) as [[ns|] w1]; [|done].
  destruct (peers _ _ w1) as [[ps|] w2] eqn:Hps; [|done].
  destruct (streams _ _ w2) as [[ss|] w3]; [|done]. intros [= <- _].
  split; [by eapply peers_left|by destruct action].
Qed.

Lemma store_calm action : leaves_peers action = true → keeps (calm gone q) (store_reduce action).
Proof using All.
  intros Ha p r p' Hp. unfold store_reduce, lift, mbind, eff_bind, gets, modify.
  destruct (reducers (now p) (state p) action (world p)) as [r1 w1] eqn:Hr.
  assert (world_calm (world p) w1) as Hw.
  { by apply (reducers_world _ (world_calm_rules (world p)) (now p) (state p) action
      (λ sender, codec_world_calm _ _) (world p) r1 w1). }
  destruct r1 as [s'|e]; intros [= _ <-]; [|by apply (calm_step p)].
  destruct (reducers_left _ _ _ _ _ _ Ha Hr). by apply (calm_step p).
Qed.

Lemma same_page p p' :
  state p' = state p → world p' = world p → users_listeners p' = users_listeners p →
  calm gone q p → calm gone q p'.
Proof using All. intros Hs Hw Hl Hp. apply (calm_step p); rewrite ?Hs, ?Hw; done. Qed.

Lemma dispatch_calm action : leaves_peers action = true → keeps (calm gone q) (dispatch_plain action).
Proof using All.
  intros Ha. unfold dispatch_plain, messaging. destruct action; try (by apply store_calm).
  apply keeps_bind; [|intros _; by apply store_calm]. apply keeps_modify. intros p. by apply same_page.
Qed.

Lemma modify_calm f :
  (∀ p, state (f p) = state p ∧ world (f p) = world p ∧ users_listeners (f p) = users_listeners p) →
  keeps (calm gone q) (modify f).
Proof using All. intros Hf. apply keeps_modify. intros p. destruct (Hf p) as (? & ? & ?). by apply same_page. Qed.

Lemma call_calm peer call : keeps (calm gone q) (lift (call_peer peer call)).
Proof using All. apply lift_calm. intros w0. apply call_world_calm. Qed.

Lemma emit_calm e : not_creating e = true → keeps (calm gone q) (lift (World.emit e)).
Proof using All. intros He. apply lift_calm. intros w0. by apply emit_world_calm. Qed.

Lemma codec_calm op : keeps (calm gone q) (lift (codec_op op)).
Proof using All. apply lift_calm. intros w0. apply codec_world_calm. Qed.

Lemma getTracks_calm x : keeps (calm gone q) (lift (getTracks x)).
Proof using All. apply lift_calm. intros w0. apply keeps_gets. Qed.

Lemma addTrackToPeer_calm peer t x : keeps (calm gone q) (lift (addTrackToPeer peer t x)).
Proof using All.
  apply lift_calm. intros w0. unfold addTrackToPeer. apply keeps_bind; [apply call_world_calm|intros n].
  apply keeps_bind; [apply codec_world_calm|intros ?; apply keeps_ret].
Qed.

Lemma warning_calm args : keeps (calm gone q) (dispatch_notify warning args).
Proof using All. apply notify_calm. Qed.
Lemma error_calm args : keeps (calm gone q) (dispatch_notify error args).
Proof using All. apply notify_calm. Qed.

Lemma log_error_calm args : keeps (calm gone q) (lift (error args)).
Proof using All.
  apply lift_calm. intros w0. unfold error, notify. apply keeps_bind; [|intros ?; apply keeps_ret].
  apply uniqueId_world, world_calm_rules.
Qed.

Lemma async_calm type a : keeps (calm gone q) (dispatch_plain (async_action type a)).
Proof using All. apply dispatch_calm. by destruct type. Qed.

Lemma socket_emit_calm msg : harmless msg = true → keeps (calm gone q) (socket_emit msg).
Proof using All.
  intros Hm. unfold socket_emit. apply keeps_bind; [apply keeps_gets|]. intros [|]; [apply keeps_throw|].
  by apply emit_calm.
Qed.

Lemma take_once_calm peer ev : keeps (calm gone q) (take_once peer ev).
Proof using All. intros p r p' Hp. unfold take_once. repeat case_match; intros [= _ <-]; by try apply (same_page p). Qed.

Lemma decode_calm peer b : keeps (calm gone q) (decode_buffer peer b).
Proof using All. intros p r p' Hp. unfold decode_buffer. repeat case_match; intros [= _ <-]; by try apply (same_page p). Qed.

#[local] Hint Resolve call_calm codec_calm getTracks_calm addTrackToPeer_calm warning_calm error_calm
  log_error_calm async_calm take_once_calm decode_calm : keeps.
#[local] Hint Extern 1 (keeps (calm _ _) (dispatch_plain _)) => apply dispatch_calm; reflexivity : keeps.
#[local] Hint Extern 1 (keeps (calm _ _) (socket_emit _)) => apply socket_emit_calm; reflexivity : keeps.
#[local] Hint Extern 1 (keeps (calm _ _) (lift (World.emit _))) => apply emit_calm; reflexivity : keeps.
#[local] Hint Extern 1 (keeps (calm _ _) (modify _)) =>
  apply modify_calm; intros; split_and!; reflexivity : keeps.

(** ** The events *)

Lemma peer_event_calm n ev :
  ends_connection ev = false → keeps (calm gone q) (on_peer_event n ev).
Proof using All.
  intros Hev. unfold on_peer_event, handleConnect, handleSignal, handleTrack, handleData, peer_of.
  destruct ev; try done; repeat keeps_step.
Qed.

Lemma settle_calm n s : keeps (calm gone q) (settle n s).
Proof using All. unfold settle, with_promises. repeat keeps_step. Qed.

(** Messages that are not about the users in the room. *)
Definition about_others (ev : SocketEvent) : bool :=
  match ev with
  | ev_signal _ _ | ev_room_created _ | ev_connect | ev_disconnect => true
  | _ => false
  end.

Lemma call_listener_calm l ev : about_others ev → keeps (calm gone q) (call_listener l ev).
Proof using All.
  intros Hev. unfold call_listener, handleRemoteSignal, on_connect, on_disconnect, peer_of.
  destruct ev, l; try done; try apply keeps_ret; repeat keeps_step.
Qed.

Lemma emit_event_calm ev : about_others ev → keeps (calm gone q) (emit_event ev).
Proof using All.
  intros Hev p r p' Hp. unfold emit_event.
  rewrite (bind_runs _ _ p (filter (λ r, r_event r = event_name ev) (listeners p)) p) by done.
  apply (ensures_keeps (calm gone q) true_of); [|done]. apply ensures_for_each.
  intros r' [Hr' _]%list_elem_of_filter. apply keeps_bind; [|intros _; by apply call_listener_calm].
  destruct (r_once r'); [|apply keeps_ret]. apply modify_calm. intros p1. split_and!; [done|done|].
  unfold users_listeners. cbn [listeners set_listeners]. rewrite list_filter_filter.
  apply list_filter_iff. intros x. split; [tauto|]. intros Hx. split; [done|]. intros ->.
  rewrite Hx in Hr'. by destruct ev.
Qed.

Lemma other_event_calm ev :
  match ev with
  | server_message _ | peer_event _ _ | user_dials _ | user_hangs_up => False
  | user_acts action => leaves_peers action = true
  | _ => True
  end → keeps (calm gone q) (run ev).
Proof using All.
  intros Hev. pose proof settle_calm. destruct ev; try done; cbn [run];
    unfold on_track_event, run_reaction, on_settled, dial_timeout, run_encoder, run_worker_event,
      send_chunk, with_promises, dispatch, middleware; repeat keeps_step.
  - apply modify_calm. intros p. by destruct (scheduled (encoder p)).
  - apply lift_calm. intros w0. apply keeps_modify. intros w. by apply world_calm_same.
  - by apply dispatch_calm.
Qed.
End page.

(** ** What may happen to a page that stays in its call *)

Section stays.
Context `{Platform} `{Lodash} `{ObjectKeys} `{EncodedStreams} `{TextCodec} `{!JSON} `{Window}.

(** The user neither dials nor hangs up, and does with the page what its components
    offer; and no connection closes or fails but those with users who have gone. *)
Definition stays (gone : gset string) (p : Page) (ev : PageEvent) : Prop :=
  match ev with
  | user_dials _ | user_hangs_up => False
  | user_acts action => of_the_user action = true
  | peer_event n (peer_close | peer_error) => ∀ h, handlers p !! n = Some h → ph_user h ∈ gone
  | _ => True
  end.

Lemma stays_calm gone p ev :
  of_the_page ev = true → stays gone p ev → calm gone p (run ev p).2.
Proof.
  intros Hof Hev. destruct (run ev p) as [r p'] eqn:Hrun. cbn [snd].
  assert (keeps (calm gone p) (run ev) → calm gone p p') as Hk
    by (intros Hk; by apply (Hk p r p'); [apply calm_refl|]).
  destruct ev as [sev|c|n pev| | | | | | | | | | |nickname| |m|action|pw];
    try (by apply Hk, other_event_calm).
  - apply Hk, emit_event_calm. by destruct sev.
  - destruct (ends_connection pev) eqn:He.
    + pose proof (close_calm gone p n pev) as Hc. rewrite Hrun in Hc. apply Hc; [by rewrite He|].
      by destruct pev.
    + by apply Hk, peer_event_calm.
  - apply Hk, other_event_calm. cbn in *. by destruct action.
Qed.

(** So does a message of the server that is not about the users. *)
Lemma emit_event_calm_run gone p ev : about_others ev → calm gone p (emit_event ev p).2.
Proof.
  intros Hev. destruct (emit_event ev p) as [r p'] eqn:Hrun.
  by apply (emit_event_calm gone p ev Hev p r p'); [apply calm_refl|].
Qed.
End stays.
