(* ===== verification/MeshRoom.v ===== *)
(** A room that users join one after the other and may leave: the state it is in,
    between one who joins and the next, and what keeps it so, step by step. *)

From S2P Require Import Prelude Bytes TextCodec Encoder Decoder Objects InsertableStreams InsertableCodec Actions World Logic Streams Peers Media Users Notices Async Store PeerActions CallActions Chat CallSafety Session PageRules ServerRoom Mesh MeshPages MeshCalm.

#[local] Abbreviation list := Datatypes.list.

(** The lists of users on their way to a page. *)
Definition users_of (msgs : list ServerMessage) : list UsersPayload :=
  omap (λ msg, match msg with ws_event (ev_users payload) => Some payload | _ => None end) msgs.
Definition due (m : Mesh) (u : string) : list UsersPayload :=
  users_of (drop (received_of m u) (socket_of (server m) u)).

(** What the server has not read yet of what a page has sent. *)
Definition unread (m : Mesh) (u : string) (p : Page) : list SocketMessage :=
  drop (read_of m u) (sent p).

Definition is_ready (msg : SocketMessage) : bool :=
  match msg with sent_ready _ _ _ => true | _ => false end.

(** A handler that has a user to tell the room about. *)
Definition is_telling (h : HandlerState) : bool :=
  match h with
  | ready_marked | to_broadcast (ws_event (ev_users _)) _
  | broadcasting (ws_event (ev_users _)) _ _ => true
  | _ => false
  end.

(** Everyone who has joined has been told of to everyone: nobody's [ready] is on
    its way, nor a broadcast of the users under way. *)
Definition told_of (m : Mesh) (u : string) (p : Page) : Prop :=
  Forall (λ msg, is_ready msg = false) (unread m u p) ∧ is_telling (handler_at (server m) u) = false.
Definition nobody_joining (m : Mesh) : Prop := map_Forall (told_of m) (pages m).

#[export] Instance told_of_dec m u p : Decision (told_of m u p).
Proof. apply _. Defined.

#[export] Instance nobody_joining_dec m : Decision (nobody_joining m).
Proof. apply _. Defined.

(** * The invariant *)

(** How far the last one to join has come. *)
Inductive Stage :=
  | at_rest
  | ready_sent
  | ready_read
  | telling (payload : UsersPayload) (rest : option (list string)).

(** How many of those who have joined the room has been told of, and how many have
    their nickname in it. *)
Definition told (js : list string) (st : Stage) : nat :=
  match st with ready_sent | ready_read => length js - 1 | _ => length js end.
Definition marked (js : list string) (st : Stage) : nat :=
  match st with ready_sent => length js - 1 | _ => length js end.

Definition stage_handler (st : Stage) : option HandlerState :=
  match st with
  | at_rest | ready_sent => None
  | ready_read => Some ready_marked
  | telling payload None => Some (to_broadcast (ws_event (ev_users payload)) then_nothing)
  | telling payload (Some rest) => Some (broadcasting (ws_event (ev_users payload)) rest then_nothing)
  end.

Definition yet_to_tell (st : Stage) (u : string) : list UsersPayload :=
  match st with
  | telling payload None => [payload]
  | telling payload (Some rest) => if decide (u ∈ rest) then [payload] else []
  | _ => []
  end.

(** Those who have gone are among those who have joined, and stay there: [js] is
    everyone that ever has. *)

(** The list that tells of the [i]th to join: those before, who may only be left out
    if they have gone. *)
Record tells (js : list string) (gone : gset string) (i : nat) (payload : UsersPayload) : Prop := {
  tl_initiator : js !! i = Some (initiator payload);
  tl_NoDup : NoDup (peerIds payload);
  tl_in v : v ∈ peerIds payload → ∃ i', i' ≤ i ∧ js !! i' = Some v;
  tl_all i' v : i' ≤ i → js !! i' = Some v → v ∉ gone → v ∈ peerIds payload;
  tl_quiet : users_recordStatus payload = false;
  tl_names v : is_Some (user_nicknames payload !! v) ↔ v ∈ peerIds payload;
}.

(** The page of the [j]th to join, once it has handled the lists before the [k]th;
    it may still have a connection with someone who has gone. *)
Record in_the_call (js : list string) (gone : gset string) (j k : nat) (u : string) (p : Page) : Prop := {
  ic_listens : listens u p;
  ic_peers v n : v ∉ gone → st_peers (state p) !! v = Some n →
    ∃ i, js !! i = Some v ∧ i ≠ j ∧ i < k ∧ j < k ∧ side p n = Some (bool_decide (i < j));
  ic_all i v : js !! i = Some v → v ∉ gone → i ≠ j → i < k → j < k → is_Some (st_peers (state p) !! v);
  ic_names : ME ∉ js → ∀ i v, js !! i = Some v → v ∉ gone → i ≠ j → i < k → j < k →
    is_Some (st_nicknames (state p) !! v);
}.

Definition handler_ok (js : list string) (st : Stage) (u : string) (h : HandlerState) : Prop :=
  if decide (last js = Some u ∧ is_Some (stage_handler st)) then stage_handler st = Some h
  else h = next_message ∨ h = room_missing.

(** Someone who has gone may have hung up. *)
Definition may_send (gone : gset string) (u : string) (msg : SocketMessage) : bool :=
  if decide (u ∈ gone) then parting msg else harmless msg.

(** Its message is still on its way. *)
Definition unheard (st : Stage) : bool := match st with ready_sent => true | _ => false end.

Definition unread_ok (js : list string) (gone : gset string) (st : Stage) (u : string)
    (msgs : list SocketMessage) : Prop :=
  if decide (last js = Some u ∧ unheard st) then
    ∃ l1 r nickname x l2, msgs = l1 ++ sent_ready r nickname x :: l2 ∧
      nickname ≠ "" ∧ Forall harmless l1 ∧ Forall (may_send gone u) l2
  else Forall (may_send gone u) msgs.

Definition room_message (msg : ServerMessage) : bool :=
  match msg with
  | ws_event (ev_users _) | ws_room_join _ _ | ws_room_leave _ => true
  | ws_event ev => about_others ev
  end.

Definition stage_ok (js : list string) (gone : gset string) (st : Stage) : Prop :=
  match st with
  | at_rest => True
  | ready_sent | ready_read => js ≠ []
  | telling payload rest => js ≠ [] ∧ tells js gone (length js - 1) payload ∧
      (∀ l, rest = Some l → NoDup l)
  end.

Record room_ok (js : list string) (gone : gset string) (st : Stage) (m : Mesh) : Prop := {
  ro_nodup : NoDup js;
  ro_gone u : u ∈ gone → u ∈ js;
  ro_stage : stage_ok js gone st;
  ro_page u p : pages m !! u = Some p →
    (u ∉ gone → numbered p) ∧ read_of m u ≤ length (sent p) ∧ unread_ok js gone st u (unread m u p) ∧
    (u ∉ js → st_peers (state p) = ∅ ∧ users_listeners p = []);
  ro_closed u : pages m !! u = None → read_of m u = 0;
  ro_joined j u : js !! j = Some u → u ∉ gone →
    is_Some (clients (server m) !! u) ∧
    ∃ p k, pages m !! u = Some p ∧ j ≤ k ∧ in_the_call js gone j k u p ∧
      k + length (due m u ++ yet_to_tell st u) = told js st ∧
      ∀ i payload, (due m u ++ yet_to_tell st u) !! i = Some payload → tells js gone (k + i) payload;
  (** the last one to join is there, at least until everyone has been told *)
  ro_last u : last js = Some u → st ≠ at_rest → is_Some (clients (server m) !! u);
  ro_clients u md : clients (server m) !! u = Some md →
    is_Some (pages m !! u) ∧ (md ≠ "" → ∃ i, i < marked js st ∧ js !! i = Some u);
  ro_marked i u md : i < marked js st → js !! i = Some u → clients (server m) !! u = Some md →
    u ∉ gone ∨ st = ready_read ∧ last js = Some u → md ≠ "";
  ro_handlers u : handler_ok js st u (handler_at (server m) u);
  ro_sockets u : received_of m u ≤ length (socket_of (server m) u) ∧
    Forall room_message (socket_of (server m) u);
  ro_rooms r x : activeRooms (server m) !! r = Some x → recordingStatus x = false;
}.

(** * Pages *)

(** The next list makes the page's connections those of one more. *)
Lemma next_list js gone j k u p payload q :
  NoDup js → js !! j = Some u → in_the_call js gone j k u p → j ≤ k → tells js gone k payload →
  connected_to u payload p q → in_the_call js gone j (S k) u q.
Proof.
  intros Hnd Hj [Hl Hp Ha _] Hjk [Hi Hids Hin Hall Hrec Hnm] [Hl' _ _ Hkept Hnew Hnames Hoth].
  assert (∀ i i' v, js !! i = Some v → js !! i' = Some v → i = i') as Hinj
    by (intros; by eapply (NoDup_lookup js)).
  assert (∀ i v n, js !! i = Some v → v ∉ gone → i ≤ k → st_peers (state p) !! v = None →
    side q n = Some (bool_decide (initiator payload = u)) → i ≠ j → side q n = Some (bool_decide (i < j))) as Hside.
  { intros i v n Hiv Hg Hik Hno -> Hij. f_equal. apply bool_decide_ext. split.
    - intros Hu. rewrite Hu in Hi. rewrite (Hinj _ _ _ Hj Hi). assert (k = j) by eauto. lia.
    - intros Hlt. destruct (decide (j = k)) as [->|Hne]; [congruence|].
      destruct (Ha i v Hiv Hg Hij) as [x Hx]; [lia|lia|congruence]. }
  split; [done| | |].
  - intros v n Hg Hv. destruct (st_peers (state p) !! v) as [n'|] eqn:Hpv.
    + destruct (Hkept v n' Hpv) as [Hv' Hs]. assert (n' = n) as -> by congruence.
      destruct (Hp v n Hg Hpv) as (i & Hi1 & Hi2 & Hi3 & Hi4 & Hi5).
      exists i. split_and!; [done|done|lia|lia|by rewrite Hs].
    + destruct (decide (v ∈ peerIds payload ∧ v ≠ u)) as [[Hv1 Hv2]|Hn].
      * destruct (Hnew v Hv1 Hv2 Hpv) as (n' & Hv' & Hs). assert (n' = n) as -> by congruence.
        apply Hin in Hv1 as (i & Hik & Hiv). assert (i ≠ j) by (intros ->; congruence).
        exists i. split_and!; [done|done|lia|lia|by eapply Hside].
      * rewrite Hoth in Hv; [congruence|]. destruct (decide (v = u)); [by right|left]. tauto.
  - intros i v Hiv Hg Hij Hik _. destruct (st_peers (state p) !! v) as [n|] eqn:Hpv.
    + destruct (Hkept v n Hpv) as [Hv _]. by eexists.
    + destruct (Hnew v) as (n & Hn & _); [apply (Hall i v); [lia|done..]| |done|by eexists].
      intros ->. by apply Hij, (Hinj i j u).
  - intros HME i v Hiv Hg Hij Hik _.
    assert (∀ w i', js !! i' = Some w → w ≠ ME) as Hne.
    { intros w i' Hw ->. by apply HME, (list_elem_of_lookup_2 _ i'). }
    rewrite Hnames; [|by eapply Hne| |by eapply Hne|].
    + apply Hnm, (Hall i v); [lia|done..].
    + apply eq_None_not_Some. rewrite Hnm. intros (i' & _ & Hi')%Hin. by apply (Hne ME i').
    + intros ->. by apply Hij, (Hinj i j u).
Qed.

Lemma listener_calm js gone j k u p q :
  numbered p → calm gone p q → in_the_call js gone j k u p → in_the_call js gone j k u q.
Proof.
  intros Hnum Hc [Hl Hp Ha Hn]. split.
  - by eapply calm_listens.
  - intros v n Hg. rewrite (calm_peer_of _ _ _ _ Hc Hg). intros Hv.
    rewrite (calm_side _ p q v n Hc Hnum Hv). by apply Hp.
  - intros i v Hi Hg. rewrite (calm_peer_of _ _ _ _ Hc Hg). by apply Ha.
  - intros HME i v Hi Hg. rewrite (ca_names _ _ _ Hc v Hg). by apply Hn.
Qed.

(** ** One more has gone *)

Lemma tells_gone js gone u i payload : tells js gone i payload → tells js ({[u]} ∪ gone) i payload.
Proof. intros [Hi Hnd Hin Hall Hr Hn]. split; try done. intros i' v Hi' Hv Hg. apply (Hall i' v); set_solver. Qed.

Lemma in_the_call_gone js gone w j k u p : in_the_call js gone j k u p → in_the_call js ({[w]} ∪ gone) j k u p.
Proof.
  intros [Hl Hp Ha Hn]. split; [done| | |].
  - intros v n Hg. apply Hp. set_solver.
  - intros i v Hi Hg. apply (Ha i v); [done|set_solver].
  - intros HME i v Hi Hg. apply (Hn HME i v); [done|set_solver].
Qed.

Lemma harmless_parting msg : harmless msg → parting msg.
Proof. by destruct msg. Qed.
Lemma harmless_may_send gone u msg : harmless msg → may_send gone u msg.
Proof. unfold may_send. case_decide; [apply harmless_parting|done]. Qed.
Lemma may_send_parting gone u msg : may_send gone u msg → parting msg.
Proof. unfold may_send. case_decide; [done|apply harmless_parting]. Qed.

Lemma may_send_gone gone w u msgs : Forall (may_send gone u) msgs → Forall (may_send ({[w]} ∪ gone) u) msgs.
Proof.
  intros Hall. eapply Forall_impl; [exact Hall|]. intros msg Hm. cbn beta in *. unfold may_send at 1. case_decide as Hu.
  - by eapply may_send_parting.
  - unfold may_send in Hm. by rewrite decide_False in Hm by set_solver.
Qed.

Lemma unread_ok_gone js gone st w u msgs :
  unread_ok js gone st u msgs → unread_ok js ({[w]} ∪ gone) st u msgs.
Proof.
  unfold unread_ok. case_decide; [|apply may_send_gone]. intros (l1 & r & n & x & l2 & Heq & Hn & H1 & H2).
  exists l1, r, n, x, l2. split_and!; try done. by apply may_send_gone.
Qed.

Lemma ok_gone js gone st m u : room_ok js gone st m → u ∈ js → room_ok js ({[u]} ∪ gone) st m.
Proof.
  intros [Hnd Hg Hst Hp Hcl Hj Hl Hcs Hmk Hh Hs Hr] Hu. split; try done.
  - intros v [->%elem_of_singleton|Hv]%elem_of_union; [done|by apply Hg].
  - destruct st; try done. destruct Hst as (Hjs & Ht & Hx). split_and!; [done|by apply tells_gone|done].
  - intros v p Hv. destruct (Hp v p Hv) as (Hnum & Hrd & Hun & Hout). split_and!; try done.
    + intros Hv'. apply Hnum. set_solver.
    + by apply unread_ok_gone.
  - intros j v Hv Hgv. destruct (Hj j v Hv) as (Hc & p & k & Hpv & Hjk & Hin & Hk & Hlists); [set_solver|].
    split; [done|]. exists p, k. split_and!; try done; [by apply in_the_call_gone|].
    intros i payload Hi. by apply tells_gone, Hlists.
  - intros i v md Hi Hv Hmd Hor. apply (Hmk i v md Hi Hv Hmd). set_solver.
Qed.

(** * What keeps the invariant *)

Lemma users_of_app l l' : users_of (l ++ l') = users_of l ++ users_of l'.
Proof. apply omap_app. Qed.

Lemma due_more m s' u new :
  received_of m u ≤ length (socket_of (server m) u) → socket_of s' u = socket_of (server m) u ++ new →
  due (set_server s' m) u = due m u ++ users_of new.
Proof. intros Hle Hs. unfold due. cbn [server set_server]. by rewrite Hs, drop_app_le, users_of_app. Qed.

Lemma page_set u v p m : pages (set_page u p m) !! v = if decide (v = u) then Some p else pages m !! v.
Proof.
  cbn [pages set_page]. case_decide as Hv; [subst; apply lookup_insert_eq|by apply lookup_insert_ne].
Qed.
Lemma read_set u n v m : read_of (set_read u n m) v = if decide (v = u) then n else read_of m v.
Proof.
  unfold read_of. cbn [messages_read set_read].
  case_decide as Hv; [subst; by rewrite lookup_insert_eq|by rewrite lookup_insert_ne].
Qed.
Lemma received_set u n v m :
  received_of (set_received u n m) v = if decide (v = u) then n else received_of m v.
Proof.
  unfold received_of. cbn [messages_received set_received].
  case_decide as Hv; [subst; by rewrite lookup_insert_eq|by rewrite lookup_insert_ne].
Qed.

Lemma unread_ok_more js gone st u l new :
  unread_ok js gone st u l → Forall (may_send gone u) new → unread_ok js gone st u (l ++ new).
Proof.
  unfold unread_ok. intros Hl Hnew. case_decide; [|by apply Forall_app].
  destruct Hl as (l1 & r & nickname & x & l2 & -> & Hn & H1 & H2).
  exists l1, r, nickname, x, (l2 ++ new). rewrite <-(assoc_L (++)). split_and!; try done. by apply Forall_app.
Qed.

Lemma unread_ok_read js gone st u msg l :
  unread_ok js gone st u (msg :: l) → is_ready msg = false → unread_ok js gone st u l.
Proof.
  unfold unread_ok. intros Hl Hm. case_decide; [|by apply Forall_cons in Hl as [_ ?]].
  destruct Hl as ([|m1 l1] & r & nickname & x & l2 & Heq & Hn & H1 & H2).
  - by injection Heq as -> _.
  - injection Heq as -> ->. apply Forall_cons in H1 as [_ H1]. by exists l1, r, nickname, x, l2.
Qed.

Lemma unread_ok_heard js gone st u l : unheard st = false → unread_ok js gone st u l ↔ Forall (may_send gone u) l.
Proof. intros Hst. unfold unread_ok. rewrite decide_False; [done|]. rewrite Hst. by intros [_ []]. Qed.

Lemma unread_ok_other js gone st u l :
  last js ≠ Some u → unread_ok js gone st u l ↔ Forall (may_send gone u) l.
Proof. intros Hl. unfold unread_ok. rewrite decide_False; [done|]. by intros [? _]. Qed.

Lemma unread_ok_none js gone st u : last js ≠ Some u ∨ unheard st = false → unread_ok js gone st u [].
Proof. intros [Hl|Hst]; [by apply unread_ok_other|by apply unread_ok_heard]. Qed.

Lemma last_lookup_NoDup (js : list string) j u :
  NoDup js → js !! j = Some u → last js = Some u → j = length js - 1.
Proof.
  intros Hnd Hj Hl. rewrite last_lookup in Hl. pose proof (NoDup_lookup _ _ _ _ Hnd Hj Hl). lia.
Qed.

Section kept.
Variables (js : list string) (gone : gset string) (st : Stage) (m : Mesh).
Hypothesis (Hok : room_ok js gone st m).

(** A page goes on: calmly, or, if its user has gone, as it likes. *)
Lemma ok_page u p q :
  pages m !! u = Some p →
  (∃ new, sent q = sent p ++ new ∧ Forall (may_send gone u) new) →
  (u ∉ gone → calm gone p q) →
  room_ok js gone st (set_page u q m).
Proof using Hok.
  intros Hu (new & Hsent & Hnew) Hc. destruct Hok as [Hnd Hg Hst Hp Hcl Hj Hl Hcs Hmk Hh Hs Hr].
  destruct (Hp u p Hu) as (Hnum & Hrd & Hun & Hout).
  split; try done.
  - intros v q'. rewrite page_set. case_decide as Hv; [|by apply Hp].
    subst v. intros [= <-]. split_and!.
    + intros Hug. eapply calm_numbered; [by apply Hc|by apply Hnum].
    + change (read_of m u ≤ length (sent q)). rewrite Hsent, length_app. lia.
    + unfold unread. change (read_of (set_page u q m) u) with (read_of m u).
      rewrite Hsent, drop_app_le by done. by apply unread_ok_more.
    + intros Hv. specialize (Hc (λ H, Hv (Hg u H))). destruct (Hout Hv) as [Hpe Hls].
      split; [by eapply calm_no_peers|]. by rewrite (ca_listeners _ _ _ Hc).
  - intros v. rewrite page_set. case_decide; [done|]. apply Hcl.
  - intros j v Hv Hgv. destruct (Hj j v Hv Hgv) as (Hcv & p' & k & Hp' & Hjk & Hin & Hlists).
    split; [done|]. destruct (decide (v = u)) as [->|Hvu].
    + exists q, k. rewrite page_set, decide_True by done.
      split; [done|]. split; [done|]. split; [|exact Hlists].
      assert (p' = p) as -> by congruence. eapply listener_calm; [by apply Hnum|by apply Hc|done].
    + exists p', k. by rewrite page_set, decide_False.
  - intros v md Hmd. destruct (Hcs v md Hmd) as (Hpg & Hiff). split; [|done].
    rewrite page_set. by case_decide.
Qed.

Lemma ok_calm u p q :
  pages m !! u = Some p → calm gone p q → room_ok js gone st (set_page u q m).
Proof using Hok.
  intros Hu Hc. apply (ok_page u p q Hu); [|done]. destruct (ca_sent _ _ _ Hc) as (new & Hsent & Hnew).
  exists new. split; [done|]. eapply Forall_impl; [exact Hnew|]. intros msg. apply harmless_may_send.
Qed.

Lemma ok_parting u p q :
  pages m !! u = Some p → u ∈ gone → (∃ new, sent q = sent p ++ new ∧ Forall parting new) →
  room_ok js gone st (set_page u q m).
Proof using Hok.
  intros Hu Hug (new & Hsent & Hnew). apply (ok_page u p q Hu); [|done]. exists new. split; [done|].
  eapply Forall_impl; [exact Hnew|]. intros msg. unfold may_send. by rewrite decide_True.
Qed.

(** A page takes a message that is not about the users, or is of someone who has
    gone. *)
Lemma ok_received u msg :
  socket_of (server m) u !! received_of m u = Some msg → users_of [msg] = [] ∨ u ∉ js ∨ u ∈ gone →
  room_ok js gone st (set_received u (S (received_of m u)) m).
Proof using Hok.
  intros Hmsg Hno. destruct Hok as [Hnd Hg Hst Hp Hcl Hj Hl Hcs Hmk Hh Hs Hr].
  assert (∀ v, v ≠ u ∨ users_of [msg] = [] → due (set_received u (S (received_of m u)) m) v = due m v) as Hdue.
  { intros v Hv. unfold due. rewrite received_set. case_decide as Hvu; [|done]. subst v.
    change (server (set_received _ _ m)) with (server m). rewrite (drop_S _ _ _ Hmsg).
    change (msg :: ?l) with ([msg] ++ l). rewrite users_of_app. by destruct Hv as [?| ->]. }
  split; try done.
  - intros j v Hv Hgv. rewrite Hdue; [by apply Hj|]. destruct Hno as [Hno|Hu]; [by right|left].
    intros ->. apply list_elem_of_lookup_2 in Hv. tauto.
  - intros v. rewrite received_set. case_decide as Hv; [|by apply Hs]. subst v.
    split; [|by apply Hs]. apply lookup_lt_Some in Hmsg. exact Hmsg.
Qed.

(** The server reads a message that is not about joining. *)
Lemma ok_read u p msg :
  pages m !! u = Some p → sent p !! read_of m u = Some msg → is_ready msg = false →
  room_ok js gone st (set_read u (S (read_of m u)) m).
Proof using Hok.
  intros Hu Hmsg Hh'. destruct Hok as [Hnd Hg Hst Hp Hcl Hj Hl Hcs Hmk Hh Hs Hr].
  split; try done.
  - intros v q Hv. cbn [pages set_read] in Hv. destruct (Hp v q Hv) as (Hnum & Hrd & Hun & Hout).
    unfold unread. rewrite read_set. case_decide as Hvu; [|done]. subst v.
    assert (q = p) as -> by congruence. split_and!; [done| | |done].
    + apply lookup_lt_Some in Hmsg. exact Hmsg.
    + unfold unread in Hun. rewrite (drop_S _ _ _ Hmsg) in Hun. by eapply unread_ok_read.
  - intros v Hv. cbn [pages set_read] in Hv. rewrite read_set. case_decide as Hvu; [|by apply Hcl]. congruence.
Qed.

(** The server goes on without telling anything about the users. *)
Lemma ok_server s' :
  clients s' = clients (server m) →
  (∀ u, ∃ new, socket_of s' u = socket_of (server m) u ++ new ∧ users_of new = [] ∧
     Forall room_message new) →
  (∀ u, handler_ok js st u (handler_at s' u)) →
  (∀ r x, activeRooms s' !! r = Some x → recordingStatus x = false) →
  room_ok js gone st (set_server s' m).
Proof using Hok.
  intros Hc Hso Hh' Hr'. destruct Hok as [Hnd Hg Hst Hp Hcl Hj Hl Hcs Hmk Hh Hs Hr].
  split; try done; cbn [server set_server]; rewrite ?Hc; try done.
  - intros j v Hv Hgv. destruct (Hj j v Hv Hgv) as (Hcv & p' & k & Hp' & Hjk & Hin & Hlists).
    split; [done|]. exists p', k. destruct (Hso v) as (new & Hnew & Hno & _).
    rewrite (due_more m s' v new) by (try done; apply Hs). by rewrite Hno, app_nil_r.
  - intros v. destruct (Hso v) as (new & -> & _ & Hnew). split.
    + rewrite length_app. change (received_of (set_server s' m) v) with (received_of m v).
      destruct (Hs v). lia.
    + apply Forall_app. split; [apply Hs|done].
Qed.

(** A page takes a list of users: it connects to one more. *)
Lemma ok_users u p q payload :
  pages m !! u = Some p → u ∈ js → u ∉ gone →
  socket_of (server m) u !! received_of m u = Some (ws_event (ev_users payload)) →
  connected_to u payload p q →
  room_ok js gone st (set_received u (S (received_of m u)) (set_page u q m)).
Proof using Hok.
  intros Hu Hujs Hug Hmsg Hq. destruct Hok as [Hnd Hg Hst Hp Hcl Hj Hl Hcs Hmk Hh Hs Hr].
  set (m' := set_received _ _ _). destruct (Hp u p Hu) as (Hnum & Hrd & Hun & Hout).
  assert (∀ v, v ≠ u → due m' v = due m v) as Hdue.
  { intros v Hv. unfold due, m'. by rewrite received_set, decide_False. }
  assert (due m u = payload :: due m' u) as Hdueu.
  { unfold due, m'. rewrite received_set, decide_True by done. by rewrite (drop_S _ _ _ Hmsg). }
  assert (numbered q ∧ sent q = sent p) as [Hnumq Hsent] by (by destruct Hq).
  assert (∀ v, pages m' !! v = if decide (v = u) then Some q else pages m !! v) as Hpages
    by (intros v; exact (page_set u v q m)).
  split; try done.
  - intros v q' Hv. rewrite Hpages in Hv. destruct (decide (v = u)) as [->|Hvu]; [|by apply Hp].
    injection Hv as <-. unfold unread. rewrite Hsent. split_and!; [done|done|exact Hun|done].
  - intros v. rewrite Hpages. destruct (decide (v = u)); [done|]. apply Hcl.
  - intros j v Hv Hgv. destruct (Hj j v Hv Hgv) as (Hcv & p' & k & Hp' & Hjk & Hin & Hk & Hlists).
    split; [done|]. destruct (decide (v = u)) as [->|Hvu].
    + rewrite Hdueu in Hk, Hlists. exists q, (S k). rewrite Hpages, decide_True by done.
      assert (p' = p) as -> by congruence. split_and!; [done|lia| |simpl in Hk; lia|].
      * eapply next_list; [done|done|done|done| |done].
        pose proof (Hlists 0 payload eq_refl) as Ht. by rewrite Nat.add_0_r in Ht.
      * intros i payload' Hi. rewrite Nat.add_succ_l, <-Nat.add_succ_r. by apply Hlists.
    + exists p', k. rewrite Hpages, decide_False, (Hdue v) by done. by split_and!.
  - intros v md Hmd. destruct (Hcs v md Hmd) as (Hpg & Hiff). split; [|done].
    rewrite Hpages. by destruct (decide (v = u)).
  - intros v. change (server m') with (server m). split; [|by apply Hs].
    unfold m'. rewrite received_set. destruct (decide (v = u)) as [->|]; [|by apply Hs].
    apply lookup_lt_Some in Hmsg. exact Hmsg.
Qed.

(** A page opens. *)
Lemma ok_opens u p :
  pages m !! u = None → numbered p → st_peers (state p) = ∅ → users_listeners p = [] → sent p = [] →
  room_ok js gone st (set_page u p m).
Proof using Hok.
  intros Hu Hnum Hpe Hls Hsent. destruct Hok as [Hnd Hg Hst Hp Hcl Hj Hl Hcs Hmk Hh Hs Hr].
  split; try done.
  - intros v q. rewrite page_set. case_decide as Hv; [|by apply Hp]. intros [= <-]. subst v.
    unfold unread. rewrite Hsent. cbn [length]. change (read_of (set_page u p m) u) with (read_of m u).
    rewrite (Hcl u Hu). split_and!; [done|done| |done]. apply unread_ok_none.
    destruct (decide (last js = Some u)) as [Hlast|]; [|by left]. right. destruct st; try done.
    destruct (Hl u Hlast) as [md Hmd]; [done|]. destruct (Hcs u md Hmd) as ([? ?] & _). congruence.
  - intros v. rewrite page_set. case_decide; [done|]. apply Hcl.
  - intros j v Hv Hgv. destruct (Hj j v Hv Hgv) as (Hcv & p' & k & Hp' & Hrest). split; [done|].
    exists p', k. rewrite page_set. rewrite decide_False; [done|]. intros ->. congruence.
  - intros v md Hmd. destruct (Hcs v md Hmd) as (Hpg & Hiff). split; [|done].
    rewrite page_set. by case_decide.
Qed.

(** Someone who has not joined, or has gone, comes, goes or hangs up. *)
Lemma ok_clients u s' :
  u ∉ js ∨ u ∈ gone →
  (last js = Some u → st ≠ at_rest → is_Some (clients s' !! u) ∧ st ≠ ready_read) →
  (∀ v, v ≠ u → clients s' !! v = clients (server m) !! v) →
  (∀ md, clients s' !! u = Some md → md = "" ∧ is_Some (pages m !! u)) →
  (∀ v, ∃ new, socket_of s' v = socket_of (server m) v ++ new ∧ users_of new = [] ∧
     Forall room_message new) →
  activeRooms s' = activeRooms (server m) → serving s' = serving (server m) →
  room_ok js gone st (set_server s' m).
Proof using Hok.
  intros Hu Hlast Hothers Hat Hsock Ha Hse.
  destruct Hok as [Hnd Hg Hst Hp Hcl Hj Hl Hcs Hmk Hh Hs Hr].
  assert (∀ v j, js !! j = Some v → v ∉ gone → v ≠ u) as Hne.
  { intros v j Hv Hgv ->. apply list_elem_of_lookup_2 in Hv. tauto. }
  split; try done; cbn [server set_server].
  - intros j v Hv Hgv. destruct (Hj j v Hv Hgv) as (Hcx & p' & k & Hp' & Hrest').
    rewrite Hothers by (by eapply Hne). split; [done|]. exists p', k.
    destruct (Hsock v) as (new & Hnew & Hno & _).
    rewrite (due_more m s' v new) by (try done; apply Hs). by rewrite Hno, app_nil_r.
  - intros v Hv Hn. destruct (decide (v = u)) as [->|Hvu]; [by apply Hlast|].
    rewrite Hothers by done. by apply Hl.
  - intros v md. destruct (decide (v = u)) as [->|Hvu]; [by intros [-> ?]%Hat|].
    rewrite Hothers by done. apply Hcs.
  - intros i v md Hi Hv. destruct (decide (v = u)) as [->|Hvu]; [|rewrite Hothers by done; by eapply Hmk].
    intros _ [Hgv|[-> Hlv]]; [by destruct (Hne u i Hv Hgv)|by destruct (Hlast Hlv)].
  - intros v. unfold handler_at. rewrite Hse. apply Hh.
  - intros v. destruct (Hsock v) as (new & -> & _ & Hnew). destruct (Hs v) as [Hle Hall].
    change (received_of (set_server s' m) v) with (received_of m v).
    rewrite length_app. split; [lia|by apply Forall_app].
  - intros r x. rewrite Ha. apply Hr.
Qed.

(** A client is entered, or left out, and the others are told. *)
Lemma ok_broadcast_locked u msg f :
  u ∉ js ∨ u ∈ gone → (last js = Some u → st = at_rest) →
  (∀ v, v ≠ u → f (clients (server m)) !! v = clients (server m) !! v) →
  (∀ md, f (clients (server m)) !! u = Some md → md = "" ∧ is_Some (pages m !! u)) →
  users_of [msg] = [] → room_message msg →
  room_ok js gone st (set_server (broadcast_locked msg (set_clients f (server m))) m).
Proof using Hok.
  intros Hu Hrest Hothers Hat Hno Hmsg.
  destruct (broadcast_locked_run msg (set_clients f (server m))) as (Hc & Ha & Hse & Hk).
  apply (ok_clients u); rewrite ?Hc, ?Ha, ?Hse; try done.
  - intros Hlast Hnr. by destruct Hnr; apply Hrest.
  - intros v. eexists. split; [apply Hk|]. case_decide; [|done]. split; [done|by constructor].
Qed.

(** A socket begins where the page and the server are. *)
Lemma ok_resync u p :
  u ∉ js ∨ u ∈ gone → (last js = Some u → st = at_rest) → pages m !! u = Some p →
  room_ok js gone st (set_read u (length (sent p)) (set_received u (length (socket_of (server m) u)) m)).
Proof using Hok.
  intros Hu Hrest Hp0. destruct Hok as [Hnd Hg Hst Hp Hcl Hj Hl Hcs Hmk Hh Hs Hr]. set (m' := set_read _ _ _).
  assert (∀ v, read_of m' v = if decide (v = u) then length (sent p) else read_of m v) as Hread
    by (intros v; exact (read_set u _ v (set_received u _ m))).
  assert (∀ v, received_of m' v = if decide (v = u) then length (socket_of (server m) u) else received_of m v)
    as Hreceived by (intros v; exact (received_set u _ v m)).
  split; try done.
  - intros v q Hq. change (pages m') with (pages m) in Hq. destruct (Hp v q Hq) as (Hnum & Hrd & Hun & Hout).
    unfold unread. rewrite Hread. case_decide as Hv; [|done]. subst v. assert (q = p) as -> by congruence.
    split_and!; [done|done| |done]. rewrite drop_all. apply unread_ok_none.
    destruct (decide (last js = Some u)) as [Hlast|]; [right|by left]. by rewrite (Hrest Hlast).
  - intros v Hv. rewrite Hread. case_decide; [|by apply Hcl]. change (pages m') with (pages m) in Hv. congruence.
  - intros j v Hv Hgv. assert (v ≠ u) as Hvu by (intros ->; apply list_elem_of_lookup_2 in Hv; tauto).
    unfold due. rewrite Hreceived, decide_False by done. by apply Hj.
  - intros v. rewrite Hreceived. case_decide as Hv; [|apply Hs]. subst v. split; [done|apply Hs].
Qed.

(** The last one to join has been told of. *)
Lemma told_at_rest u p : last js = Some u → pages m !! u = Some p → told_of m u p → st = at_rest.
Proof using Hok.
  intros Hl Hu [Hready Htell]. pose proof (ro_handlers _ _ _ _ Hok u) as Hh. unfold handler_ok in Hh.
  destruct st as [| | |payload rest]; [done| | |].
  - destruct (ro_page _ _ _ _ Hok u p Hu) as (_ & _ & Hun & _). unfold unread_ok in Hun.
    rewrite decide_True in Hun by done. destruct Hun as (l1 & r & nickname & x & l2 & Heq & _).
    rewrite Heq in Hready. by apply Forall_app in Hready as [_ [[=] _]%Forall_cons].
  - rewrite decide_True in Hh by (split; [done|by eexists]). injection Hh as Hh. by rewrite <-Hh in Htell.
  - rewrite decide_True in Hh by (split; [done|destruct rest; by eexists]).
    destruct rest; injection Hh as Hh; by rewrite <-Hh in Htell.
Qed.

(** A socket closes: of someone who has not joined, or has gone. *)
Lemma ok_closes u s' :
  u ∉ js ∨ u ∈ gone ∧ map_Forall (λ v p, v = u → told_of m v p) (pages m) →
  is_Some (clients (server m) !! u) → adapter_Remove u (server m) = Some s' →
  room_ok js gone st (set_server s' m).
Proof using Hok.
  intros Hu [md0 Hc0] Hrm. unfold adapter_Remove in Hrm.
  destruct (read_locked (server m)); [done|]. injection Hrm as <-.
  apply (ok_broadcast_locked u); [tauto| | | |done|done].
  - intros Hlast. destruct (ro_clients _ _ _ _ Hok u md0 Hc0) as [[p Hp] _].
    destruct Hu as [Hu|[_ Hu]]; [by destruct Hu; apply last_Some_elem_of|]. by eapply told_at_rest, Hu.
  - intros v Hv. by apply lookup_delete_ne.
  - intros md. by rewrite lookup_delete_eq.
Qed.

(** The server reads that someone has hung up. *)
Lemma ok_hung_up u s' :
  u ∈ gone → handler_at (server m) u = next_message → adapter_SetMetadata u "" (server m) = Some s' →
  room_ok js gone st (set_server s' m).
Proof using Hok.
  intros Hu Hn Hset. unfold adapter_SetMetadata in Hset. destruct (read_locked (server m)); [done|].
  injection Hset as <-. apply (ok_clients u); cbn [clients set_clients]; try done; [by right|..].
  - intros Hlast Hnr. split; [apply lookup_alter_is_Some; by apply (ro_last _ _ _ _ Hok)|].
    intros Hst. pose proof (ro_handlers _ _ _ _ Hok u) as Hhu. unfold handler_ok in Hhu.
    rewrite decide_True, Hst, Hn in Hhu by (rewrite Hst; split; [done|by eexists]). discriminate.
  - intros v Hv. by apply lookup_alter_ne.
  - intros md. rewrite lookup_alter_eq. destruct (clients (server m) !! u) as [x|] eqn:Hx; [|done].
    intros [= <-]. split; [done|]. by apply (ro_clients _ _ _ _ Hok u x).
  - intros v. exists []. by rewrite app_nil_r.
Qed.
End kept.

(** A socket opens: of someone who has not joined, or has gone. *)
Lemma ok_connects js gone st m u p s' :
  room_ok js gone st m → pages m !! u = Some p → clients (server m) !! u = None →
  adapter_Add u (server m) = Some s' →
  room_ok js gone st (set_read u (length (sent p)) (set_received u (length (socket_of (server m) u))
    (set_page u (set_connecting false p) (set_server s' m)))).
Proof.
  intros Hok Hu Hcu Hadd.
  assert (u ∉ js ∨ u ∈ gone) as Hout.
  { destruct (decide (u ∈ gone)) as [|Hug]; [by right|left]. intros [j Hj]%list_elem_of_lookup.
    destruct (ro_joined _ _ _ _ Hok j u Hj Hug) as ([x Hx] & _). congruence. }
  assert (last js = Some u → st = at_rest) as Hrest.
  { intros Hlast. destruct st; try done;
      (destruct (ro_last _ _ _ _ Hok u Hlast) as [? ?]; [done|congruence]). }
  unfold adapter_Add in Hadd. destruct (read_locked (server m)); [done|]. injection Hadd as <-.
  pose proof (ok_resync _ _ _ _ Hok u p Hout Hrest Hu) as Hok1. set (m1 := set_read _ _ _) in Hok1.
  assert (room_ok js gone st (set_server (broadcast_locked (ws_room_join u "")
    (set_clients (λ c, <[u := ""]> c) (server m))) m1)) as Hok2.
  { apply (ok_broadcast_locked _ _ _ m1 Hok1 u); try done.
    - intros v Hv. by apply lookup_insert_ne.
    - intros md. rewrite lookup_insert_eq. intros [= <-]. split; [done|by eexists]. }
  apply (ok_page _ _ _ _ Hok2 u p (set_connecting false p) Hu); [exists []; by rewrite app_nil_r|].
  intros _. apply (same_calm gone p p); try done. apply calm_refl.
Qed.

(** * Joining, step by step *)

Lemma last_lookup_length (js : list string) u : last js = Some u → js !! (length js - 1) = Some u.
Proof. rewrite last_lookup. by rewrite Nat.sub_1_r. Qed.

(** Where a handler is tells the stage. *)
Lemma handler_stage js st u h :
  handler_ok js st u h → h ≠ next_message → h ≠ room_missing → last js = Some u ∧ stage_handler st = Some h.
Proof. unfold handler_ok. case_decide as Hd; [|naive_solver]. intros -> _ _. tauto. Qed.

Lemma handler_ok_other js st st' u v h :
  last js = Some u → v ≠ u → handler_ok js st v h → handler_ok js st' v h.
Proof.
  intros Hl Hv. unfold handler_ok. rewrite !decide_False; [done|..]; intros [Hl' _]; congruence.
Qed.

Lemma handler_ok_next js st u v h :
  last js = Some u → handler_ok js st v h → v ≠ u → h = next_message ∨ h = room_missing.
Proof. intros Hl Hh Hv. unfold handler_ok in Hh. rewrite decide_False in Hh; [done|]. intros [? _]. congruence. Qed.

Lemma handler_ok_set js st u v h s :
  last js = Some u → stage_handler st = Some h → handler_ok js st v (handler_at s v) ∨ v = u →
  handler_ok js st v (handler_at (set_serving u h s) v).
Proof.
  intros Hl Hst Hv. rewrite handler_at_set. case_decide as Hvu.
  - subst v. unfold handler_ok. by rewrite decide_True by eauto.
  - by destruct Hv.
Qed.

Section joining.
Variables (js : list string) (gone : gset string) (m : Mesh) (u : string).
Hypothesis (Hlast : last js = Some u).

(** Its message is read. *)
Lemma ok_ready p r nickname x s1 :
  room_ok js gone ready_sent m → pages m !! u = Some p → nickname ≠ "" →
  sent p !! read_of m u = Some (sent_ready r nickname x) →
  adapter_SetMetadata u nickname (server m) = Some s1 →
  room_ok js gone ready_read (set_read u (S (read_of m u)) (set_server (set_serving u ready_marked s1) m)).
Proof using Hlast.
  intros [Hnd Hg Hst Hp Hcl Hj Hl Hcs Hmk Hh Hs Hr] Hu Hn Hmsg Hset. set (m' := set_read _ _ _).
  unfold adapter_SetMetadata in Hset. destruct (read_locked (server m)); [done|]. injection Hset as <-.
  pose proof (last_lookup_length js u Hlast) as Hlen.
  assert (∀ v, read_of m' v = if decide (v = u) then S (read_of m u) else read_of m v) as Hread
    by (intros v; exact (read_set u _ v (set_server _ m))).
  assert (clients (server m') = alter (λ _, nickname) u (clients (server m))) as Hclients by done.
  split; try done.
  - intros v q Hv. change (pages m') with (pages m) in Hv.
    destruct (Hp v q Hv) as (Hnum & Hrd & Hun & Hout). unfold unread. rewrite Hread.
    case_decide as Hvu.
    + subst v. assert (q = p) as -> by congruence.
      split_and!; [done| | |done]; [by apply lookup_lt_Some in Hmsg|].
      unfold unread in Hun. rewrite (drop_S _ _ _ Hmsg) in Hun. unfold unread_ok in Hun.
      rewrite decide_True in Hun by done. apply unread_ok_heard; [done|].
      destruct Hun as ([|m1 l1] & r' & n' & x' & l2 & Heq & _ & H1 & H2).
      * by injection Heq as _ _ _ ->.
      * injection Heq as <- _. by apply Forall_cons in H1 as [? _].
    + split_and!; [done|done| |done]. apply unread_ok_heard; [done|].
      by apply unread_ok_other in Hun; [|congruence].
  - intros v Hv. rewrite Hread. case_decide; [|by apply Hcl].
    change (pages m') with (pages m) in Hv. congruence.
  - intros j v Hv Hgv. destruct (Hj j v Hv Hgv) as ([md Hmd] & Hrest). split; [|exact Hrest].
    rewrite Hclients. apply lookup_alter_is_Some. by eexists.
  - intros v Hv _. rewrite Hclients. apply lookup_alter_is_Some. by apply Hl.
  - intros v md. rewrite Hclients. intros [(<- & md0 & Hc & <-)|[Hv Hmd]]%lookup_alter_Some.
    + split; [by apply (Hcs u md0)|]. intros _. exists (length js - 1). split; [|done].
      by apply lookup_lt_Some in Hlen.
    + destruct (Hcs v md Hmd) as (Hpg & Hiff). split; [done|]. intros (i & Hi & Hiv)%Hiff.
      exists i. cbn [marked] in *. split; [lia|done].
  - intros i v md Hi Hv. rewrite Hclients. intros [(_ & _ & _ & <-)|[Hvu Hmd]]%lookup_alter_Some; [done|].
    intros [Hgv|[_ Hlv]]; [|congruence]. apply (Hmk i v md); [|done|done|by left].
    cbn [marked] in *. destruct (decide (i = length js - 1)) as [->|]; [congruence|lia].
  - intros v. change (server m') with (set_serving u ready_marked (set_clients (alter (λ _, nickname) u) (server m))).
    apply handler_ok_set; [done|done|]. destruct (decide (v = u)) as [|Hv]; [by right|left].
    eapply handler_ok_other; [done|done|]. apply (Hh v).
Qed.

(** The list of users is made. *)
Lemma ready_clients :
  room_ok js gone ready_read m →
  (∀ v, is_Some (getReadyClients (server m) !! v) → v ∈ js) ∧
  (∀ v, v ∈ js → v ∉ gone ∨ v = u → is_Some (getReadyClients (server m) !! v)).
Proof using Hlast.
  intros [_ _ _ _ _ Hj Hl Hcs Hmk _ _ _]. unfold getReadyClients. split.
  - intros v [md [Hmd Hne]%map_lookup_filter_Some]. apply (Hcs v md Hmd) in Hne as (i & _ & Hi).
    by eapply list_elem_of_lookup_2.
  - intros v [i Hi]%list_elem_of_lookup Hor. pose proof (lookup_lt_Some _ _ _ Hi) as Hlt.
    assert (is_Some (clients (server m) !! v)) as [md Hmd].
    { destruct (decide (v = u)) as [->|]; [by apply Hl|]. apply (Hj i v Hi). tauto. }
    exists md. apply map_lookup_filter_Some. split; [done|]. apply (Hmk i v md); [done..|].
    destruct Hor as [?| ->]; [by left|by right].
Qed.

(** The server goes on with its clients as they are, and every page that has joined
    is due the same lists, or, when the stage tells of one more, that one more. *)
Lemma ok_stage st st' s' (more : list UsersPayload) :
  room_ok js gone st m → unheard st = false → st ≠ at_rest → unheard st' = false → st' ≠ ready_read →
  stage_ok js gone st' →
  clients s' = clients (server m) → activeRooms s' = activeRooms (server m) →
  (∀ v, handler_ok js st' v (handler_at s' v)) →
  (∀ v, ∃ new, socket_of s' v = socket_of (server m) v ++ new ∧ Forall room_message new ∧
     (v ∈ js → v ∉ gone → users_of new ++ yet_to_tell st' v = yet_to_tell st v ++ more)) →
  length more + told js st = told js st' →
  (∀ i payload, more !! i = Some payload → tells js gone (told js st + i) payload) →
  room_ok js gone st' (set_server s' m).
Proof using Type.
  intros [Hnd Hg Hst Hp Hcl Hj Hl Hcs Hmk Hh Hs Hr] Hn1 Hn2 Hn3 Hn4 Hst' Hc Ha Hh' Hk Htold Hmore.
  assert (∀ st, unheard st = false → marked js st = length js) as Hm by (by intros []).
  split; try done; cbn [server set_server]; rewrite ?Hc, ?Ha; try done.
  - intros v q Hv. destruct (Hp v q Hv) as (Hnum & Hrd & Hu & Hout). split_and!; [done|done| |done].
    apply unread_ok_heard; [done|]. by apply unread_ok_heard in Hu.
  - intros j v Hv Hgv. destruct (Hj j v Hv Hgv) as (Hcv & q & k & Hq & Hjk & Hin & Hlen & Hlists).
    split; [done|].
    destruct (Hk v) as (new & Hnew & _ & Hnx). specialize (Hnx (list_elem_of_lookup_2 _ _ _ Hv) Hgv).
    assert (due (set_server s' m) v ++ yet_to_tell st' v = (due m v ++ yet_to_tell st v) ++ more) as Hdue.
    { rewrite (due_more m s' v new) by (try done; apply Hs). by rewrite <-!(assoc_L (++)), Hnx. }
    exists q, k. rewrite Hdue. split_and!; [done|done|done|rewrite length_app; lia|].
    intros i payload [Hi|[Hle Hi]]%lookup_app_Some; [by apply Hlists|].
    replace (k + i) with (told js st + (i - length (due m v ++ yet_to_tell st v))) by lia.
    by apply Hmore.
  - intros v Hv _. by apply Hl.
  - intros v md Hmd. rewrite Hm by done. rewrite <-(Hm st) by done. by apply Hcs.
  - intros i v md Hi Hv Hmd Hor. rewrite Hm in Hi by done. rewrite <-(Hm st) in Hi by done.
    apply (Hmk i v md Hi Hv Hmd). tauto.
  - intros v. destruct (Hk v) as (new & -> & Hnew & _).
    destruct (Hs v) as [Hle Hall]. rewrite length_app. split; [|by apply Forall_app].
    change (received_of (set_server s' m) v) with (received_of m v). lia.
Qed.

(** The handler alone goes on. *)
Lemma ok_stage_handler st st' h more :
  room_ok js gone st m → unheard st = false → st ≠ at_rest → unheard st' = false → st' ≠ ready_read →
  stage_ok js gone st' → stage_handler st' = Some h →
  (∀ v, v ∈ js → v ∉ gone → yet_to_tell st' v = yet_to_tell st v ++ more) →
  length more + told js st = told js st' →
  (∀ i payload, more !! i = Some payload → tells js gone (told js st + i) payload) →
  room_ok js gone st' (set_server (set_serving u h (server m)) m).
Proof using Hlast.
  intros Hok Hn1 Hn2 Hn3 Hn4 Hst' Hh' Hy Ht Hmore. eapply (ok_stage st st' _ more); try done.
  - intros v. apply handler_ok_set; [done|done|]. destruct (decide (v = u)); [by right|left].
    eapply handler_ok_other; [done|done|]. apply (ro_handlers _ _ _ _ Hok).
  - intros v. exists []. split_and!; [by rewrite app_nil_r|done|apply Hy].
Qed.

Context `{GoMaps}.
Variable (room : string).

(** The list the server makes names all who have joined and not gone. *)
Lemma users_message_tells n :
  room_ok js gone ready_read m →
  getReadyClients (server m) ≠ ∅ ∧
  ∃ payload, users_message room n u (server m) = ws_event (ev_users payload) ∧
    tells js gone (length js - 1) payload.
Proof using Hlast.
  intros Hok. destruct (ready_clients Hok) as [Hin Hall].
  pose proof (last_lookup_length js u Hlast) as Hlen.
  assert (getReadyClients (server m) ≠ ∅) as Hne.
  { intros He. destruct (Hall u) as [x Hx]; [by eapply list_elem_of_lookup_2|by right|].
    by rewrite He, lookup_empty in Hx. }
  split; [done|]. unfold users_message. rewrite decide_False by done.
  eexists. split; [done|]. split; [done|..]; cbn [peerIds user_nicknames users_recordStatus].
  - rewrite range_keys. apply NoDup_fst_map_to_list.
  - intros v [i Hi]%elem_of_range%Hin%list_elem_of_lookup. exists i. split; [|done].
    apply lookup_lt_Some in Hi. lia.
  - intros i v _ Hi Hgv. apply elem_of_range, Hall; [by eapply list_elem_of_lookup_2|by left].
  - unfold getRoomRecordStatus. destruct (activeRooms (server m) !! room) eqn:Hx; [|done].
    cbn. by eapply ro_rooms.
  - intros v. by rewrite elem_of_range.
Qed.

Lemma ok_tell payload :
  room_ok js gone ready_read m → tells js gone (length js - 1) payload →
  room_ok js gone (telling payload None)
    (set_server (set_serving u (to_broadcast (ws_event (ev_users payload)) then_nothing) (server m)) m).
Proof using Hlast.
  intros Hok Ht. assert (js ≠ []) as Hjs by (by intros ->).
  apply (ok_stage_handler ready_read _ _ [payload]); try done.
  - cbn. destruct js; [done|]. simpl. lia.
  - intros [|i] payload' Hi; [|done]. injection Hi as <-. by rewrite Nat.add_0_r.
Qed.

(** The broadcast begins: whoever is there is written to. *)
Lemma ok_broadcast payload n :
  room_ok js gone (telling payload None) m →
  room_ok js gone (telling payload (Some (range n (clients (server m)))))
    (set_server (set_serving u (broadcasting (ws_event (ev_users payload)) (range n (clients (server m)))
       then_nothing) (server m)) m).
Proof using Hlast.
  intros Hok. destruct (ro_stage _ _ _ _ Hok) as (Hjs & Ht & _).
  apply (ok_stage_handler (telling payload None) _ _ []); try done.
  - split_and!; [done|done|]. intros l [= <-]. rewrite range_keys. apply NoDup_fst_map_to_list.
  - intros v [j Hv]%list_elem_of_lookup Hgv. cbn. rewrite decide_True; [done|].
    apply elem_of_range. by destruct (ro_joined _ _ _ _ Hok j v Hv Hgv).
Qed.

(** One is written to. *)
Lemma ok_write payload v rest :
  room_ok js gone (telling payload (Some (v :: rest))) m →
  room_ok js gone (telling payload (Some rest))
    (set_server (set_serving u (broadcasting (ws_event (ev_users payload)) rest then_nothing)
       (adapter_emit v (ws_event (ev_users payload)) (server m))) m).
Proof using Hlast.
  intros Hok. destruct (ro_stage _ _ _ _ Hok) as (Hjs & Ht & Hnd). specialize (Hnd _ eq_refl).
  apply NoDup_cons in Hnd as [Hv Hnd].
  destruct (adapter_emit_frame v (ws_event (ev_users payload)) (server m)) as (Hc & Ha & Hse).
  eapply (ok_stage (telling payload (Some (v :: rest))) (telling payload (Some rest)) _ []); try done.
  - split_and!; [done|done|]. by intros l [= <-].
  - intros w. apply handler_ok_set; [done|done|]. destruct (decide (w = u)) as [|Hw]; [by right|left].
    unfold handler_at. rewrite Hse. eapply handler_ok_other; [done|done|]. apply (ro_handlers _ _ _ _ Hok w).
  - intros w. eexists. split; [apply adapter_emit_socket|]. split.
    + case_decide; [by constructor|done].
    + intros [j Hw]%list_elem_of_lookup Hgw. destruct (ro_joined _ _ _ _ Hok j w Hw Hgw) as (Hcw & _). cbn.
      destruct (decide (w = v)) as [->|Hwv].
      * rewrite decide_True by done. rewrite decide_False by done. by rewrite decide_True by left.
      * rewrite decide_False by tauto. rewrite app_nil_r. apply decide_ext. set_solver.
Qed.

(** The broadcast is over. *)
Lemma ok_broadcast_over payload :
  room_ok js gone (telling payload (Some [])) m →
  room_ok js gone at_rest (set_server (set_serving u next_message (server m)) m).
Proof using Hlast.
  intros Hok. eapply (ok_stage (telling payload (Some [])) at_rest _ []); try done.
  - intros v. rewrite handler_at_set. unfold handler_ok at 1.
    rewrite decide_False by (intros [_ [? ?]]; done). case_decide as Hv; [by left|].
    eapply handler_ok_next; [exact Hlast|apply (ro_handlers _ _ _ _ Hok)|done].
  - intros v. exists []. by rewrite app_nil_r.
Qed.

Lemma ok_telling token st n reply :
  room_ok js gone st m → stage_handler st = Some (handler_at (server m) u) →
  ∃ st', room_ok js gone st' (set_server (serve_on room token u n reply (server m)) m).
Proof using Hlast.
  intros Hok Hh. unfold serve_on. destruct st as [| | |payload [[|v rest]|]]; try done; injection Hh as <-.
  - destruct (users_message_tells n Hok) as (Hne & payload & Hmsg & Ht). rewrite Hmsg, decide_False by done.
    eexists. by eapply ok_tell.
  - eexists. by eapply ok_broadcast_over.
  - eexists. by apply ok_write.
  - eexists. by apply ok_broadcast.
Qed.
End joining.
