(* ===== verification/MeshCall.v ===== *)
(** How a call comes about: pages that join a room one after the other, while
    messages are under way to and from the others and some of those who have joined
    leave again, end up connected in pairs, each pair with one initiator; two that
    join at the same time do not. *)

From S2P Require Import Prelude Bytes TextCodec Encoder Decoder Objects InsertableStreams InsertableCodec Actions World Logic Streams Peers Media Users Notices Async Store PeerActions CallActions Chat CallSafety Session PageRules Videos ServerRoom Mesh MeshPages MeshCalm MeshRoom.

#[local] Abbreviation list := Datatypes.list.


(** Everything that was written has been taken. *)
Definition all_taken (m : Mesh) : Prop :=
  nobody_joining m ∧ map_Forall (λ u _, received_of m u = length (socket_of (server m) u)) (pages m).
#[export] Instance all_taken_dec m : Decision (all_taken m).
Proof. apply _. Defined.

(** The two ends of a connection. *)
Definition ends (m : Mesh) (u v : string) (n : PeerRef) (side_of : bool) : Prop :=
  ∃ p, pages m !! u = Some p ∧ st_peers (state p) !! v = Some n ∧ side p n = Some side_of.

Definition is_end (m : Mesh) (u v : string) (side_of : bool) : bool :=
  match pages m !! u with
  | Some p =>
    match st_peers (state p) !! v with
    | Some n => bool_decide (side p n = Some side_of)
    | None => false
    end
  | None => false
  end.

Lemma is_end_ends m u v b : is_end m u v b = true → ∃ n, ends m u v n b.
Proof.
  unfold is_end, ends. destruct (pages m !! u) as [p|]; [|done].
  destruct (st_peers (state p) !! v) as [n|] eqn:Hn; [|done]. intros Hs%bool_decide_eq_true. by exists n, p.
Qed.

Section orderly.
Context `{Platform} `{Lodash} `{ObjectKeys} `{EncodedStreams} `{TextCodec} `{!JSON} `{GoMaps}.
Context (room url : string) (token : string → string).
Context (locale : string → string) (engine_message : js_error → string).

#[local] Abbreviation step := (mesh_step room url token locale engine_message).
#[local] Abbreviation page_run := (page_run room locale engine_message).

(** What may happen while nobody joins or leaves.  To a page of someone who has not
    gone anything may happen, except that a connection with someone who has not gone
    either closes or fails, and except that its user dials or hangs up.  The page of
    someone who has gone may do anything but join again, and its socket may close
    once everyone has been told of its user, as may that of someone who has not
    joined. *)
Definition undisturbed (js : list string) (gone : gset string) (m : Mesh) (ev : MeshEvent) : Prop :=
  match ev with
  | socket_closes u => u ∉ js ∨ u ∈ gone ∧ map_Forall (λ v p, v = u → told_of m v p) (pages m)
  | page_does u ev =>
    if decide (u ∈ gone) then ∀ nickname, ev ≠ user_dials nickname
    else ∀ p, pages m !! u = Some p → stays gone p ev
  | _ => True
  end.

(** A room which users join one after the other, in this order, and which some of
    them have [gone] from: a user joins, once, when nobody else is joining and no list
    of users is on its way to the page; and leaves at any time after that. *)
Inductive orderly : list string → gset string → Mesh → Prop :=
  | orderly_starts : orderly [] ∅ empty_room
  | orderly_goes_on js gone m ev m' :
      orderly js gone m → undisturbed js gone m ev → step ev m = Some m' → orderly js gone m'
  | orderly_joins js gone m u p nickname m' :
      orderly js gone m → u ∉ js → nickname ≠ "" → nobody_joining m → due m u = [] →
      pages m !! u = Some p → connecting p = false → is_Some (clients (server m) !! u) →
      step (page_does u (user_dials nickname)) m = Some m' → orderly (js ++ [u]) gone m'
  | orderly_leaves js gone m u :
      orderly js gone m → u ∈ js → orderly js ({[u]} ∪ gone) m.


(** * Every step keeps it *)






















(** * The call comes about *)
















(** * The theorems *)







(** Runs in which nobody does anything, and one more that joins. *)
Definition left_alone (ev : MeshEvent) : bool :=
  match ev with socket_closes _ | page_does _ _ => false | _ => true end.

Lemma orderly_run evs : ∀ js gone m m',
  forallb left_alone evs = true → orderly js gone m →
  mesh_run room url token locale engine_message evs m = Some m' → orderly js gone m'.
Proof using Type.
  induction evs as [|ev evs IH]; intros js gone m m' Hv Hm Hrun; [by injection Hrun as <-|].
  cbn in Hv. apply andb_true_iff in Hv as [Hev Hv]. rewrite mesh_run_cons in Hrun.
  destruct (step ev m) as [m1|] eqn:Hs; [|done]. cbn in Hrun.
  apply (IH js gone m1); [done| |done]. apply (orderly_goes_on js gone m ev); [done| |done]. by destruct ev.
Qed.

Definition can_join (js : list string) (m : Mesh) (u : string) : bool :=
  bool_decide (u ∉ js) && bool_decide (nobody_joining m) &&
  match due m u, pages m !! u, clients (server m) !! u with
  | [], Some p, Some _ => negb (connecting p)
  | _, _, _ => false
  end.

Lemma orderly_joins_run js gone m u nickname m' :
  orderly js gone m → can_join js m u = true → nickname ≠ "" →
  mesh_run room url token locale engine_message [page_does u (user_dials nickname)] m = Some m' →
  orderly (js ++ [u]) gone m'.
Proof using Type.
  intros Hm Hj Hn Hs. unfold can_join in Hj. apply andb_true_iff in Hj as [Hj Hrest].
  apply andb_true_iff in Hj as [Hu%bool_decide_eq_true Hno%bool_decide_eq_true].
  destruct (due m u) eqn:Hd; [|done]. destruct (pages m !! u) as [p|] eqn:Hp; [|done].
  destruct (clients (server m) !! u) eqn:Hc; [|done]. apply negb_true_iff in Hrest.
  by eapply orderly_joins.
Qed.

End orderly.

(** * Instances *)

#[local] Existing Instance some_platform.
#[local] Existing Instance some_lodash.
#[local] Existing Instance some_object_keys.
#[local] Existing Instance once_streams.
#[local] Existing Instance ascii_codec.
#[local] Existing Instance some_json.
#[local] Existing Instance some_go_maps.

#[local] Abbreviation demo_run := (mesh_run "room" "/" id id (λ _, "")).
#[local] Abbreviation demo_reachable := (reachable "room" "/" id id (λ _, "")).
#[local] Abbreviation demo_orderly := (orderly "room" "/" id id (λ _, "")).

Definition both_open : list MeshEvent :=
  [page_opens "alice" None "" true; page_opens "bob" None "" true; socket_opens "alice"; socket_opens "bob"].
Definition serves (u : string) (n : nat) : list MeshEvent := replicate n (server_goes u 0 None).
Definition takes (u : string) (n : nat) : list MeshEvent := replicate n (page_takes u).

(** Both click before the server has read either message; the server reads them one
    after the other. *)
Definition one_list_each : list MeshEvent :=
  both_open ++ [page_does "alice" (user_dials "Alice"); page_does "bob" (user_dials "Bob")] ++
  serves "alice" 6 ++ serves "bob" 6 ++ takes "alice" 4 ++ takes "bob" 3.

(** The same, but the two broadcasts overlap and go round the room in two orders. *)
Definition crossed_lists : list MeshEvent :=
  both_open ++ [page_does "alice" (user_dials "Alice"); page_does "bob" (user_dials "Bob")] ++
  serves "alice" 1 ++ serves "bob" 1 ++ serves "alice" 1 ++ serves "bob" 1 ++
  [server_goes "alice" 0 None; server_goes "bob" 1 None] ++
  serves "alice" 1 ++ serves "bob" 1 ++ serves "alice" 2 ++ serves "bob" 2 ++ takes "alice" 4 ++ takes "bob" 3.

Definition room_after (evs : list MeshEvent) : Mesh := default empty_room (demo_run evs empty_room).

(** C25. Two users that join at the same time may never be connected: with both
    messages sent before the server reads the first, the list of users that names
    the first to be read makes the other's page connect to it without being the
    initiator, and the list that names the other finds the connection made, so
    that neither is the initiator; and when the two broadcasts overlap both are.
    Either way each of the pages has a peer for the other, and nothing more is on
    its way. *)
Theorem simultaneous_joins :
  (∃ m n n', demo_reachable m ∧ all_taken m ∧ ends m "alice" "bob" n false ∧ ends m "bob" "alice" n' false) ∧
  (∃ m n n', demo_reachable m ∧ all_taken m ∧ ends m "alice" "bob" n true ∧ ends m "bob" "alice" n' true).
Proof.
  assert (∀ evs b, forallb always_valid evs = true → is_Some (demo_run evs empty_room) →
    bool_decide (all_taken (room_after evs)) = true →
    is_end (room_after evs) "alice" "bob" b = true → is_end (room_after evs) "bob" "alice" b = true →
    ∃ m n n', demo_reachable m ∧ all_taken m ∧ ends m "alice" "bob" n b ∧ ends m "bob" "alice" n' b) as Hgen.
  { intros evs b Hv [m Hrun] Ht%bool_decide_eq_true [n Hn]%is_end_ends [n' Hn']%is_end_ends.
    exists (room_after evs), n, n'. split_and!; [|done..].
    unfold room_after. rewrite Hrun. by eapply reachable_run; [exact Hv|apply room_starts|]. }
  split.
  - apply (Hgen one_list_each); [done|by vm_compute; eexists|vm_compute; reflexivity..].
  - apply (Hgen crossed_lists); [done|by vm_compute; eexists|vm_compute; reflexivity..].
Qed.

(** A run, as a boolean, for evaluation. *)
Definition runs (evs : list MeshEvent) : bool :=
  match demo_run evs empty_room with Some _ => true | None => false end.

Lemma runs_after evs : runs evs = true → demo_run evs empty_room = Some (room_after evs).
Proof. unfold runs, room_after. by destruct (demo_run evs empty_room). Qed.

Lemma room_left_alone js gone evs evs' :
  demo_orderly js gone (room_after evs) → forallb left_alone evs' = true → runs evs = true →
  runs (evs ++ evs') = true → demo_orderly js gone (room_after (evs ++ evs')).
Proof.
  intros Hm Hv H1%runs_after H2%runs_after. rewrite mesh_run_app, H1 in H2. by eapply orderly_run.
Qed.

Lemma room_joined js gone evs u nickname :
  demo_orderly js gone (room_after evs) → can_join js (room_after evs) u = true → nickname ≠ "" →
  runs evs = true → runs (evs ++ [page_does u (user_dials nickname)]) = true →
  demo_orderly (js ++ [u]) gone (room_after (evs ++ [page_does u (user_dials nickname)])).
Proof.
  intros Hm Hj Hn H1%runs_after H2%runs_after. rewrite mesh_run_app, H1 in H2. by eapply orderly_joins_run.
Qed.


(** Bob joins when Alice has, and the server has not read it yet; then it reads it
    and tells of him. *)
Definition alice_joined : list MeshEvent :=
  (both_open ++ [page_does "alice" (user_dials "Alice")]) ++ serves "alice" 6 ++ takes "alice" 3 ++ takes "bob" 2.
Definition bob_joined : list MeshEvent := alice_joined ++ [page_does "bob" (user_dials "Bob")].
Definition bob_told : list MeshEvent := bob_joined ++ serves "bob" 6 ++ takes "bob" 1.

Lemma bob_joined_orderly : demo_orderly ["alice"; "bob"] ∅ (room_after bob_joined).
Proof.
  apply (room_joined ["alice"] ∅ alice_joined "bob" "Bob"); [|vm_compute; reflexivity|done|vm_compute; reflexivity..].
  apply room_left_alone; [|done|vm_compute; reflexivity..].
  apply (room_joined [] ∅ both_open "alice" "Alice"); [|vm_compute; reflexivity|done|vm_compute; reflexivity..].
  apply (room_left_alone [] ∅ []); [apply orderly_starts|done|vm_compute; reflexivity..].
Qed.

Lemma bob_told_orderly : demo_orderly ["alice"; "bob"] ∅ (room_after bob_told).
Proof. apply room_left_alone; [apply bob_joined_orderly|done|vm_compute; reflexivity..]. Qed.




(** Alice and Bob are connected, and nothing is on its way. *)
Definition both_connected : list MeshEvent := bob_told ++ takes "alice" 1.

Lemma both_connected_orderly : demo_orderly ["alice"; "bob"] ∅ (room_after both_connected).
Proof. apply room_left_alone; [apply bob_told_orderly|done|vm_compute; reflexivity..]. Qed.

Record connected_pair (m : Mesh) (n n' : PeerRef) : Prop := {
  cp_orderly : demo_orderly ["alice"; "bob"] ∅ m;
  cp_taken : all_taken m;
  cp_alice : ends m "alice" "bob" n false;
  cp_bob : ends m "bob" "alice" n' true;
}.

Lemma is_end_at m u v n b :
  (pages m !! u ≫= λ p, st_peers (state p) !! v) = Some n → is_end m u v b = true → ends m u v n b.
Proof.
  intros Hn [n' (p & Hp & Hv & Hs)]%is_end_ends. rewrite Hp in Hn. cbn in Hn. rewrite Hv in Hn.
  injection Hn as ->. by exists p.
Qed.

Lemma pair_connected : connected_pair (room_after both_connected) 0 0.
Proof.
  assert (bool_decide (all_taken (room_after both_connected)) = true) as Ht%bool_decide_eq_true
    by (vm_compute; reflexivity).
  split; [apply both_connected_orderly|done|apply is_end_at; vm_compute; reflexivity..].
Qed.

Lemma runs_on evs evs' : runs evs = true → runs (evs ++ evs') = true →
  demo_run evs' (room_after evs) = Some (room_after (evs ++ evs')).
Proof. intros H1%runs_after H2%runs_after. rewrite mesh_run_app, H1 in H2. exact H2. Qed.

(** Someone who hangs up and joins again at once is lost to the others.  Two are
    connected, and nothing is on its way; one hangs up, and joins again before the
    other's connection with them has closed.  The list of users finds the other
    connected still, so that their page makes no new connection; and when the old
    one closes it has none, while the one who came back waits at the other end of a
    new one. *)
Theorem quick_return :
  ∃ m n n' evs m' n2 p, connected_pair m n n' ∧ forallb left_alone evs = true ∧
    demo_run ([page_does "bob" user_hangs_up; page_does "bob" (user_dials "Bob")] ++ evs ++
      [page_does "alice" (peer_event n peer_close)]) m = Some m' ∧
    all_taken m' ∧ ends m' "bob" "alice" n2 true ∧
    pages m' !! "alice" = Some p ∧ st_peers (state p) !! "bob" = None.
Proof.
  set (evs := serves "bob" 7 ++ takes "alice" 1 ++ takes "bob" 1).
  set (after := [page_does "bob" user_hangs_up; page_does "bob" (user_dials "Bob")] ++ evs ++
    [page_does "alice" (peer_event 0 peer_close)]).
  assert (bool_decide (all_taken (room_after (both_connected ++ after))) = true) as Ht%bool_decide_eq_true
    by (vm_compute; reflexivity).
  destruct (is_end_ends (room_after (both_connected ++ after)) "bob" "alice" true) as [n2 Hn2];
    [vm_compute; reflexivity|].
  assert (pages (room_after (both_connected ++ after)) !! "alice" ≫=
    (λ p, Some (bool_decide (st_peers (state p) !! "bob" = None))) = Some true) as Hno by (vm_compute; reflexivity).
  destruct (pages (room_after (both_connected ++ after)) !! "alice") as [p|] eqn:Hp; [|discriminate].
  exists (room_after both_connected), 0, 0, evs, (room_after (both_connected ++ after)), n2, p.
  split_and!; [apply pair_connected|reflexivity|apply runs_on; vm_compute; reflexivity|done|done|done|].
  injection Hno as Hno. by apply bool_decide_eq_true in Hno.
Qed.



