(* ===== verification/Signalling.v ===== *)
(** What holds in every room, whatever its users do: a page never takes back what it
    has done; every page is in a session of its own; and the server passes signals
    on in order, none twice, each under the name of the page it came from. *)

From S2P Require Import Prelude Bytes TextCodec Encoder Decoder Objects InsertableStreams InsertableCodec Actions World Logic Streams Peers Media Users Notices Async Store PeerActions CallActions Chat Session PageRules ServerRoom Mesh MeshPages MeshRoom MeshCall.

#[local] Abbreviation list := Datatypes.list.

Section page.
Context `{Platform} `{Lodash} `{ObjectKeys} `{EncodedStreams} `{TextCodec} `{!JSON} `{Window}.

Lemma sent_grows ev p : sent p `prefix_of` sent (run ev p).2.
Proof.
  destruct (run_grows ev p) as [es He]. unfold sent. rewrite He.
  exists (socket_messages es). apply omap_app.
Qed.
End page.

(** * Every room *)

Section room.
Context `{Platform} `{Lodash} `{ObjectKeys} `{EncodedStreams} `{TextCodec} `{!JSON} `{GoMaps}.
Context (room url : string) (token : string → string).
Context (locale : string → string) (engine_message : js_error → string).

#[local] Abbreviation step := (mesh_step room url token locale engine_message).
#[local] Abbreviation room_reachable := (reachable room url token locale engine_message).
#[local] Abbreviation window u := (window_of room locale engine_message u).

(** A page takes part in a room by events of its own. *)
Lemma mesh_step_page m ev m' u p' :
  step ev m = Some m' → valid_mesh_event m ev → pages m' !! u = Some p' →
  pages m !! u = Some p' ∨
  (∃ stored nickname ok, pages m !! u = None ∧ p' = opened (H5 := window u) stored nickname url ok) ∨
  ∃ p ev, pages m !! u = Some p ∧ valid_event p ev ∧ p' = (run (H5 := window u) ev p).2.
Proof.
  intros Hs Hv Hp'. destruct ev as [v stored nickname ok|v|v|v ev|v|v n reply]; cbn [mesh_step] in Hs.
  - destruct (pages m !! v) eqn:Hv'; [done|]. injection Hs as <-. rewrite page_set in Hp'.
    case_decide as Hu; [|by left]. subst v. injection Hp' as <-. right. left. by exists stored, nickname, ok.
  - destruct (pages m !! v) as [p|] eqn:Hpv; [|done]. cbn [mbind option_bind] in Hs.
    destruct (clients (server m) !! v); [done|]. destruct (handler_at (server m) v); try done.
    destruct (adapter_Add v (server m)) as [s|]; [|done]. injection Hs as <-.
    cbn [pages set_read set_received] in Hp'. rewrite page_set in Hp'.
    case_decide as Hu; [|by left]. subst v. injection Hp' as <-. right. right.
    by exists p, (socket_changes false).
  - destruct (clients (server m) !! v); [|done]. destruct (adapter_Remove v (server m)); [|done].
    injection Hs as <-. by left.
  - destruct (pages m !! v) as [p|] eqn:Hpv; [|done]. cbn [mbind option_bind] in Hs.
    destruct (of_the_page ev); [|done]. apply (inj Some) in Hs as <-. rewrite page_set in Hp'.
    case_decide as Hu; [|by left]. subst v. apply (inj Some) in Hp' as <-. right. right.
    exists p, ev. split_and!; [done|by apply Hv|done].
  - destruct (pages m !! v) as [p|] eqn:Hpv; [|done]. cbn [mbind option_bind] in Hs.
    destruct (socket_of (server m) v !! received_of m v) as [msg|]; [|done]. cbn [mbind option_bind] in Hs.
    apply (inj Some) in Hs as <-. cbn [pages set_received] in Hp'. rewrite page_set in Hp'.
    case_decide as Hu; [|by left]. subst v. apply (inj Some) in Hp' as <-.
    destruct msg as [ev| |]; [|by left..]. right. right. by exists p, (server_message ev).
  - left. destruct (handler_at (server m) v).
    1: { destruct (clients (server m) !! v); [|done]. destruct (pages m !! v) as [p|]; [|done].
      cbn [mbind option_bind] in Hs. destruct (sent p !! read_of m v); [|done]. cbn [mbind option_bind] in Hs.
      destruct (serve _ _ _ _ _); [|done]. by injection Hs as <-. }
    all: by injection Hs as <-.
Qed.

(** Whatever happens in a room, each of its pages is in a session of its own: what
    holds in every session holds of every page of every room. *)
Lemma room_of_sessions m u p :
  room_reachable m → pages m !! u = Some p → session (H5 := window u) url p.
Proof.
  intros Hm. revert u p. induction Hm as [|m ev m' _ IH Hv Hs]; intros u p Hp; [done|].
  destruct (mesh_step_page m ev m' u p Hs Hv Hp)
    as [Hu|[(stored & nickname & ok & _ & ->)|(q & ev' & Hu & Hv' & ->)]].
  - by apply IH.
  - apply session_opens.
  - eapply session_goes_on; [by apply IH|exact Hv'|apply surjective_pairing].
Qed.

(** * Signals *)

(** The signals among a page's messages that are for [v], and those among what is
    written to a socket that are given as [u]'s. *)
Definition signals_to (v : string) (msgs : list SocketMessage) : list string :=
  omap (λ msg, match msg with
    | sent_signal target signal => if decide (target = v) then Some signal else None
    | _ => None
    end) msgs.
Definition signals_from (u : string) (msgs : list ServerMessage) : list string :=
  omap (λ msg, match msg with
    | ws_event (ev_signal from signal) => if decide (from = u) then Some signal else None
    | _ => None
    end) msgs.

(** What the server has read of what the page of [u] has sent. *)
Definition served (m : Mesh) (u : string) : list SocketMessage :=
  match pages m !! u with Some p => take (read_of m u) (sent p) | None => [] end.

(** The broadcasts are not of signals. *)
Definition no_signal (msg : ServerMessage) : bool :=
  match msg with ws_event (ev_signal _ _) => false | _ => true end.
Definition tells_no_signal (h : HandlerState) : Prop :=
  match h with to_broadcast msg _ | broadcasting msg _ _ => no_signal msg = true | _ => True end.

Record relaying (m : Mesh) : Prop := {
  rl_read u p : pages m !! u = Some p → read_of m u ≤ length (sent p);
  rl_closed u : pages m !! u = None → read_of m u = 0;
  rl_handlers u : tells_no_signal (handler_at (server m) u);
  rl_signals u v : signals_from u (socket_of (server m) v) `sublist_of` signals_to v (served m u);
}.

Lemma signals_from_app u l l' : signals_from u (l ++ l') = signals_from u l ++ signals_from u l'.
Proof. apply omap_app. Qed.
Lemma signals_to_app v l l' : signals_to v (l ++ l') = signals_to v l ++ signals_to v l'.
Proof. apply omap_app. Qed.

Lemma no_signal_from u msg : no_signal msg = true → signals_from u [msg] = [].
Proof. destruct msg as [[]| |]; done. Qed.

Lemma signals_from_other u v signal : u ≠ v → signals_from u [ws_event (ev_signal v signal)] = [].
Proof. intros Hne. cbn. by rewrite decide_False. Qed.

(** What keeps the signals of the sockets. *)
Definition same_signals (s s' : Server) : Prop :=
  ∀ u v, signals_from u (socket_of s' v) = signals_from u (socket_of s v).

Lemma emit_same_signals w msg s : no_signal msg = true → same_signals s (adapter_emit w msg s).
Proof.
  intros Hm u v. rewrite adapter_emit_socket, signals_from_app.
  case_decide; [rewrite no_signal_from by done|]; apply app_nil_r.
Qed.

Lemma broadcast_same_signals msg s : no_signal msg = true → same_signals s (broadcast_locked msg s).
Proof.
  intros Hm u v. destruct (broadcast_locked_run msg s) as (_ & _ & _ & ->). rewrite signals_from_app.
  case_decide; [rewrite no_signal_from by done|]; apply app_nil_r.
Qed.

(** A handler that goes on writes no signal, and goes on to write none. *)
Lemma serve_on_signals u n reply s :
  (∀ v, tells_no_signal (handler_at s v)) →
  same_signals s (serve_on room token u n reply s) ∧
  ∀ v, tells_no_signal (handler_at (serve_on room token u n reply s) v).
Proof using Type.
  intros Hh. unfold serve_on. pose proof (Hh u) as Hu.
  assert (∀ h s', serving s' = serving s → tells_no_signal h →
    ∀ v, tells_no_signal (handler_at (set_serving u h s') v)) as Hset.
  { intros h s' He Hn v. rewrite handler_at_set. case_decide; [done|].
    unfold handler_at. rewrite He. apply Hh. }
  assert (∀ w msg, serving (adapter_emit w msg s) = serving s) as Hse by (intros; apply adapter_emit_frame).
  destruct (handler_at s u) as [| | |status|msg after|msg [|w rest] after] eqn:Hhu; cbn [tells_no_signal] in Hu.
  - done.
  - split; [done|]. apply Hset; [done|]. unfold users_message. by case_decide.
  - split; [by apply (emit_same_signals _ _ (set_activeRooms _ s))|]. apply Hset; [|done].
    by destruct (adapter_emit_frame u (ws_event (ev_room_created (token u))) (set_activeRooms
      (λ m, <[room := {| room_creatorId := token u; recordingStatus := false |}]> m) s)) as (_ & _ & ->).
  - destruct reply as [[body|]|]; [destruct status|..]; (split; [|apply Hset]); try done;
      by apply emit_same_signals.
  - split; [done|]. by apply Hset.
  - split; [by destruct after|]. apply Hset; [by destruct after|done].
  - split; [by apply emit_same_signals|]. apply Hset; [apply Hse|done].
Qed.

(** The signals read so far stay read. *)
Lemma served_mono m m' u :
  (∀ p, pages m !! u = Some p → read_of m u ≤ length (sent p) ∧ read_of m u ≤ read_of m' u ∧
     ∃ p', pages m' !! u = Some p' ∧ sent p `prefix_of` sent p') →
  served m u `prefix_of` served m' u.
Proof.
  intros Hp. unfold served. destruct (pages m !! u) as [p|]; [|apply prefix_nil].
  destruct (Hp p eq_refl) as (Hle & Hr & p' & -> & k & ->).
  exists (drop (read_of m u) (take (read_of m' u) (sent p ++ k))).
  rewrite <-(take_app_le (sent p) k) at 1 by done.
  rewrite <-(take_drop (read_of m u) (take (read_of m' u) (sent p ++ k))) at 1.
  f_equal. by rewrite take_take, Nat.min_l.
Qed.

Lemma signals_mono v l l' : l `prefix_of` l' → signals_to v l `sublist_of` signals_to v l'.
Proof. intros [k ->]. rewrite signals_to_app. by apply sublist_inserts_r. Qed.

Lemma mesh_step_pages m ev m' u :
  step ev m = Some m' → is_Some (pages m !! u) → is_Some (pages m' !! u).
Proof.
  intros Hs Hu. assert (∀ v p (x : Mesh), pages x = pages m → is_Some (pages (set_page v p x) !! u)) as Hset.
  { intros v p x Hx. rewrite page_set. case_decide; [by eexists|by rewrite Hx]. }
  destruct ev as [v stored nickname ok|v|v|v ev|v|v n reply]; cbn [mesh_step] in Hs.
  - destruct (pages m !! v); [done|]. injection Hs as <-. by apply Hset.
  - destruct (pages m !! v) as [p|]; [|done]. cbn [mbind option_bind] in Hs.
    destruct (clients (server m) !! v); [done|]. destruct (handler_at (server m) v); try done.
    destruct (adapter_Add v (server m)) as [s|]; [|done]. injection Hs as <-. by apply (Hset v _ (set_server s m)).
  - destruct (clients (server m) !! v); [|done]. destruct (adapter_Remove v (server m)); [|done].
    by injection Hs as <-.
  - destruct (pages m !! v) as [p|]; [|done]. cbn [mbind option_bind] in Hs.
    destruct (of_the_page ev); [|done]. apply (inj Some) in Hs as <-. by apply Hset.
  - destruct (pages m !! v) as [p|]; [|done]. cbn [mbind option_bind] in Hs.
    destruct (socket_of (server m) v !! received_of m v) as [msg|]; [|done]. cbn [mbind option_bind] in Hs.
    apply (inj Some) in Hs as <-. by apply Hset.
  - destruct (handler_at (server m) v).
    1: { destruct (clients (server m) !! v); [|done]. destruct (pages m !! v) as [p|]; [|done].
      cbn [mbind option_bind] in Hs. destruct (sent p !! read_of m v); [|done]. cbn [mbind option_bind] in Hs.
      destruct (serve _ _ _ _ _); [|done]. by injection Hs as <-. }
    all: by injection Hs as <-.
Qed.

Lemma page_sent_grows m ev m' u p :
  step ev m = Some m' → valid_mesh_event m ev → pages m !! u = Some p →
  ∃ p', pages m' !! u = Some p' ∧ sent p `prefix_of` sent p'.
Proof.
  intros Hs Hv Hp. destruct (mesh_step_pages m ev m' u Hs) as [p' Hp']; [by eexists|].
  exists p'. split; [done|].
  destruct (mesh_step_page m ev m' u p' Hs Hv Hp')
    as [Hu|[(stored & nickname & ok & Hno & _)|(q & ev' & Hu & _ & ->)]].
  - by assert (p' = p) as -> by congruence.
  - congruence.
  - assert (q = p) as -> by congruence. apply sent_grows.
Qed.

(** A step that adds no signal to a socket. *)
Lemma relaying_on m ev m' :
  relaying m → step ev m = Some m' → valid_mesh_event m ev →
  same_signals (server m) (server m') → (∀ u, tells_no_signal (handler_at (server m') u)) →
  (∀ u, read_of m' u = read_of m u ∨ ∃ p, pages m !! u = Some p ∧
     read_of m u ≤ read_of m' u ∧ read_of m' u ≤ length (sent p)) →
  relaying m'.
Proof using Type.
  intros [Hr Hc Hh Hsg] Hs Hv Hsame Hh' Hread. split; [| |done|].
  - intros u p' Hp'. destruct (pages m !! u) as [p|] eqn:Hp.
    + destruct (page_sent_grows m ev m' u p Hs Hv Hp) as (q & Hq & Hpre%prefix_length).
      assert (q = p') as -> by congruence. specialize (Hr u p Hp).
      destruct (Hread u) as [->|(p1 & Hp1 & _ & Hle)]; [lia|].
      assert (p1 = p) as -> by congruence. lia.
    + destruct (Hread u) as [->|(p1 & Hp1 & _)]; [|congruence]. rewrite (Hc u Hp). lia.
  - intros u Hu. destruct (pages m !! u) as [p|] eqn:Hp.
    + destruct (page_sent_grows m ev m' u p Hs Hv Hp) as (q & Hq & _). congruence.
    + destruct (Hread u) as [->|(p1 & Hp1 & _)]; [by apply Hc|congruence].
  - intros u v. rewrite Hsame. etransitivity; [apply Hsg|]. apply signals_mono, served_mono.
    intros p Hp. split_and!; [by apply Hr| |by eapply page_sent_grows].
    destruct (Hread u) as [->|(p1 & _ & Hle & _)]; lia.
Qed.

(** The server passes a signal on. *)
Lemma relaying_signal m u p target signal :
  relaying m → pages m !! u = Some p → sent p !! read_of m u = Some (sent_signal target signal) →
  relaying (set_read u (S (read_of m u))
    (set_server (adapter_emit target (ws_event (ev_signal u signal)) (server m)) m)).
Proof using Type.
  intros [Hr Hc Hh Hsg] Hp Hmsg. set (m' := set_read _ _ _).
  assert (∀ v, read_of m' v = if decide (v = u) then S (read_of m u) else read_of m v) as Hread
    by (intros v; exact (read_set u _ v (set_server _ m))).
  assert (∀ v, serving (adapter_emit v (ws_event (ev_signal u signal)) (server m)) = serving (server m))
    as Hse by (intros; apply adapter_emit_frame).
  split.
  - intros v q Hq. change (pages m' !! v = Some q) with (pages m !! v = Some q) in Hq. rewrite Hread.
    case_decide as Hv; [|by apply Hr]. subst v. assert (q = p) as -> by congruence.
    by apply lookup_lt_Some in Hmsg.
  - intros v Hv. change (pages m' !! v = None) with (pages m !! v = None) in Hv. rewrite Hread.
    case_decide as Hvu; [congruence|by apply Hc].
  - intros v. change (server m') with (adapter_emit target (ws_event (ev_signal u signal)) (server m)).
    unfold handler_at. rewrite Hse. apply Hh.
  - intros w v. change (server m') with (adapter_emit target (ws_event (ev_signal u signal)) (server m)).
    rewrite adapter_emit_socket, signals_from_app. unfold served. rewrite Hread.
    change (pages m') with (pages m). specialize (Hsg w v). unfold served in Hsg.
    destruct (decide (w = u)) as [->|Hw].
    + rewrite Hp in Hsg |- *. rewrite (take_S_r _ _ _ Hmsg), signals_to_app.
      apply sublist_app; [done|]. destruct (decide (v = target ∧ _)) as [[-> _]|_].
      * cbn. by rewrite !decide_True.
      * apply sublist_nil_l.
    + destruct (decide (v = target ∧ _)); [rewrite signals_from_other by done|]; by rewrite app_nil_r.
Qed.

Lemma serve_signals u msg s s' :
  (∀ v, tells_no_signal (handler_at s v)) → (∀ target signal, msg ≠ sent_signal target signal) →
  serve room token u msg s = Some s' →
  same_signals s s' ∧ ∀ v, tells_no_signal (handler_at s' v).
Proof using Type.
  intros Hh Hno Hs.
  assert (∀ h s', serving s' = serving s → tells_no_signal h →
    ∀ v, tells_no_signal (handler_at (set_serving u h s') v)) as Hset.
  { intros h s1 He Hn v. rewrite handler_at_set. case_decide; [done|].
    unfold handler_at. rewrite He. apply Hh. }
  destruct msg as [target signal|r nickname x| |roomReq x|status]; cbn [serve] in Hs.
  - by destruct (Hno target signal).
  - unfold adapter_SetMetadata in Hs. destruct (read_locked s); [done|]. injection Hs as <-.
    split; [done|]. by apply Hset.
  - unfold adapter_SetMetadata in Hs. destruct (read_locked s); [done|]. by injection Hs as <-.
  - injection Hs as <-. case_decide.
    + split; [by apply emit_same_signals|]. intros v. unfold handler_at.
      destruct (adapter_emit_frame u (ws_event (ev_room_created (getRoomCreator roomReq s))) s)
        as (_ & _ & ->). apply Hh.
    + split; [done|]. by apply Hset.
  - injection Hs as <-. case_decide; (split; [done|]); by apply Hset.
Qed.

Lemma reachable_relaying m : room_reachable m → relaying m.
Proof using Type.
  induction 1 as [|m ev m' _ IH Hv Hs].
  { by split. }
  pose proof IH as [Hr Hc Hh Hsg]. pose proof Hs as Hstep.
  destruct ev as [v stored nickname ok|v|v|v ev|v|v n reply]; cbn [mesh_step] in Hs.
  - destruct (pages m !! v); [done|]. injection Hs as <-. eapply relaying_on; try done. by left.
  - destruct (pages m !! v) as [p|] eqn:Hp; [|done]. cbn [mbind option_bind] in Hs.
    destruct (clients (server m) !! v); [done|]. destruct (handler_at (server m) v); try done.
    unfold adapter_Add in *. destruct (read_locked (server m)); [done|]. cbn [mbind option_bind] in Hs.
    destruct (broadcast_locked_run (ws_room_join v "") (set_clients (λ m, <[v := ""]> m) (server m)))
      as (_ & _ & Hse & _).
    injection Hs as <-. eapply relaying_on; [done|exact Hstep|done| | |].
    + by apply (broadcast_same_signals _ (set_clients _ _)).
    + intros u. unfold handler_at. cbn [server set_read set_received set_page set_server]. rewrite Hse. apply Hh.
    + intros u. rewrite read_set. case_decide as Hu; [right|by left]. subst u. exists p. split; [done|].
      split; [by apply Hr|done].
  - destruct (clients (server m) !! v); [|done]. unfold adapter_Remove in *.
    destruct (read_locked (server m)); [done|]. cbn [mbind option_bind] in Hs.
    destruct (broadcast_locked_run (ws_room_leave v) (set_clients (delete v) (server m))) as (_ & _ & Hse & _).
    injection Hs as <-. eapply relaying_on; [done|exact Hstep|done| | |by left].
    + by apply (broadcast_same_signals _ (set_clients _ _)).
    + intros u. unfold handler_at. cbn [server set_server]. rewrite Hse. apply Hh.
  - destruct (pages m !! v) as [p|]; [|done]. cbn [mbind option_bind] in Hs.
    destruct (of_the_page ev); [|done]. apply (inj Some) in Hs as <-.
    eapply relaying_on; [done|exact Hstep|done|done|done|by left].
  - destruct (pages m !! v) as [p|]; [|done]. cbn [mbind option_bind] in Hs.
    destruct (socket_of (server m) v !! received_of m v) as [msg|]; [|done]. cbn [mbind option_bind] in Hs.
    apply (inj Some) in Hs as <-. eapply relaying_on; [done|exact Hstep|done|done|done|by left].
  - pose proof (serve_on_signals v n reply (server m) Hh) as [Hsame Hh'].
    destruct (handler_at (server m) v).
    1: { destruct (clients (server m) !! v); [|done]. destruct (pages m !! v) as [p|] eqn:Hp; [|done].
      cbn [mbind option_bind] in Hs. destruct (sent p !! read_of m v) as [msg|] eqn:Hmsg; [|done].
      cbn [mbind option_bind] in Hs. destruct (serve room token v msg (server m)) as [s'|] eqn:Hserve; [|done].
      assert ((∃ target signal, msg = sent_signal target signal) ∨
        ∀ target signal, msg ≠ sent_signal target signal) as [(target & signal & ->)|Hno]
        by (destruct msg; [left; by eexists _, _|right; discriminate..]).
      - injection Hserve as <-. apply (inj Some) in Hs as <-. by eapply relaying_signal.
      - destruct (serve_signals v msg (server m) s' Hh Hno Hserve) as [Hsame1 Hh1].
        injection Hs as <-. eapply relaying_on; [done|exact Hstep|done|done|done|].
        intros u. rewrite read_set. case_decide as Hu; [right|by left]. subst u. exists p.
        apply lookup_lt_Some in Hmsg. split_and!; [done|lia|lia]. }
    all: injection Hs as <-; eapply relaying_on; [done|exact Hstep|done|done|done|by left].
Qed.

(** C19. In every room, whoever comes and goes: the signals written to the socket of
    [v] under the name of [u] are signals the page of [u] has sent to [v], in the
    order in which it sent them, and none more often than it was sent. *)
Theorem signals_relayed m u v p :
  room_reachable m → pages m !! u = Some p →
  signals_from u (socket_of (server m) v) `sublist_of` signals_to v (sent p).
Proof using Type.
  intros Hm Hp. destruct (reachable_relaying m Hm) as [_ _ _ Hsg].
  etransitivity; [apply Hsg|]. unfold served. rewrite Hp. apply signals_mono.
  exists (drop (read_of m u) (sent p)). by rewrite take_drop.
Qed.
End room.

(** * Instances *)

#[local] Existing Instance some_platform.
#[local] Existing Instance some_lodash.
#[local] Existing Instance some_object_keys.
#[local] Existing Instance once_streams.
#[local] Existing Instance ascii_codec.
#[local] Existing Instance some_json.
#[local] Existing Instance some_go_maps.

(** Bob, the initiator, makes an offer, and Alice's page gets it. *)
Definition bob_offers : list MeshEvent :=
  bob_told ++ takes "alice" 1 ++
  [page_does "bob" (peer_event 0 (peer_signal "offer"))] ++ serves "bob" 1 ++ takes "alice" 1.

Lemma room_after_reachable evs :
  forallb always_valid evs = true → runs evs = true →
  reachable "room" "/" id id (λ _, "") (room_after evs).
Proof. intros Hv Hr%runs_after. by eapply reachable_run; [exact Hv|apply room_starts|]. Qed.

Lemma page_there evs u :
  match pages (room_after evs) !! u with Some _ => true | None => false end = true →
  ∃ p, pages (room_after evs) !! u = Some p.
Proof. destruct (pages (room_after evs) !! u); [by eexists|done]. Qed.

Lemma signals_relayed_witness :
  ∃ p, pages (room_after bob_offers) !! "bob" = Some p ∧ signals_to "alice" (sent p) = ["offer"] ∧
    signals_from "bob" (socket_of (server (room_after bob_offers)) "alice") = ["offer"] ∧
    signals_from "bob" (socket_of (server (room_after bob_offers)) "alice")
      `sublist_of` signals_to "alice" (sent p).
Proof.
  destruct (page_there bob_offers "bob") as [p Hp]; [vm_compute; reflexivity|].
  exists p. split; [exact Hp|]. split.
  { assert ((λ q, signals_to "alice" (sent q)) <$> pages (room_after bob_offers) !! "bob" = Some ["offer"]) as Hs
      by (vm_compute; reflexivity).
    rewrite Hp in Hs. injection Hs as Hs. exact Hs. }
  split; [vm_compute; reflexivity|].
  apply (signals_relayed "room" "/" id id (λ _, "") (room_after bob_offers) "bob" "alice" p); [|exact Hp].
  apply room_after_reachable; vm_compute; reflexivity.
Defined.
