(* ===== verification/Dom.v ===== *)
(** What the components render: a tree of elements, with the handlers of their events,
    and the small components the others are built from ([src/client/components/]:
    [ToolbarButton.tsx], [Backdrop.tsx], [Dropdown.tsx], [Alerts.tsx], [Message.tsx],
    [Unsupported.tsx]; [src/client/features.ts]).  Keys are left out: they are for
    React to tell one rendering from the next. *)

From S2P Require Import Prelude Actions.

#[local] Abbreviation list := Datatypes.list.

(** What a handler is given of the event: the time, the value of the target, the key,
    the constraint whose text is the value of a menu, and the files chosen. *)
Record DomEvent := {
  e_time : string;
  e_value : string;
  e_key : string;
  e_shiftKey : bool;
  e_constraint : Constraint;
  e_files : list (string * Z * string * string * string);
}.

Section nodes.
Context {C : Type}.

(** An attribute; [value_of c] is [value={JSON.stringify(c)}]. *)
Inductive Attr :=
  | className (names : string)
  | attr (name value : string)
  | flag (name : string) (b : bool)
  | value_of (c : Constraint)
  | on (event : string) (f : DomEvent → C).

(** [null], [false] and fragments are lists of children; an icon of [react-icons] is
    its name. *)
Inductive Node :=
  | text (s : string)
  | icon (name : string)
  | element (tag : string) (attrs : list Attr) (children : list Node).

(** [cond && node] *)
Definition when {A} (b : bool) (l : list A) : list A := if b then l else [].

(** ** What can be found in a tree *)

Definition attrs_of (n : Node) : list Attr :=
  match n with element _ attrs _ => attrs | _ => [] end.

(** The node itself, and all those below it, in the order of the page. *)
Fixpoint nodes (n : Node) : list Node :=
  n :: match n with
       | element _ _ children => concat (map nodes children)
       | _ => []
       end.
Definition all_nodes (l : list Node) : list Node := concat (map nodes l).

(** The handlers, with the events they are for. *)
Definition handlers_of (n : Node) : list (string * (DomEvent → C)) :=
  omap (λ a, match a with on event f => Some (event, f) | _ => None end) (attrs_of n).
Definition all_handlers (l : list Node) : list (string * (DomEvent → C)) :=
  concat (map handlers_of (all_nodes l)).

(** What can be read. *)
Fixpoint texts (n : Node) : list string :=
  match n with
  | text s => [s]
  | icon _ => []
  | element _ _ children => concat (map texts children)
  end.
Definition all_texts (l : list Node) : list string := concat (map texts l).

Definition shows_icon (name : string) (l : list Node) : bool :=
  existsb (λ n, match n with icon i => bool_decide (i = name) | _ => false end) (all_nodes l).

Definition has_flag (name : string) (n : Node) : bool :=
  existsb (λ a, match a with flag x b => bool_decide (x = name) && b | _ => false end) (attrs_of n).
Definition has_attr (name value : string) (n : Node) : bool :=
  existsb (λ a, match a with attr x v => bool_decide (x = name ∧ v = value) | _ => false end) (attrs_of n).
Definition tag_is (tag : string) (n : Node) : bool :=
  match n with element t _ _ => bool_decide (t = tag) | _ => false end.

(** A browser submits a form when it has a button for that which is not disabled, and
    every required input has a value. *)
Definition submit_button (n : Node) : bool :=
  has_attr "type" "submit" n && (tag_is "button" n || tag_is "input" n) && negb (has_flag "disabled" n).
Definition satisfied (n : Node) : bool := negb (has_flag "required" n && has_attr "value" "" n).
Definition submits (n : Node) : bool :=
  tag_is "form" n && existsb submit_button (nodes n) && forallb satisfied (nodes n).

(** The ways from a node to the root of its tree. *)
Fixpoint paths (n : Node) : list (list Node) :=
  [n] :: match n with
         | element _ _ children => map (λ p, p ++ [n]) (concat (map paths children))
         | _ => []
         end.
Definition all_paths (l : list Node) : list (list Node) := concat (map paths l).

Definition handlers_for (event : string) (n : Node) : list (DomEvent → C) :=
  omap (λ h, if decide (h.1 = event) then Some h.2 else None) (handlers_of n).

(** What a click does: the event goes up from the node that is clicked; a click on a
    button that submits then submits the form it is in. *)
Definition clicked (path : list Node) : list (DomEvent → C) :=
  concat (map (handlers_for "click") path) ++
  when (existsb submit_button path) (concat (map (handlers_for "submit") (filter submits path))).

Lemma all_nodes_app l l' : all_nodes (l ++ l') = all_nodes l ++ all_nodes l'.
Proof. unfold all_nodes. by rewrite map_app, concat_app. Qed.
Lemma all_texts_app l l' : all_texts (l ++ l') = all_texts l ++ all_texts l'.
Proof. unfold all_texts. by rewrite map_app, concat_app. Qed.
Lemma shows_icon_app name l l' : shows_icon name (l ++ l') = shows_icon name l || shows_icon name l'.
Proof. unfold shows_icon. by rewrite all_nodes_app, existsb_app. Qed.

(** ** Looking at every node *)

Lemma Node_rules (P : Node → Prop) :
  (∀ s, P (text s)) → (∀ i, P (icon i)) →
  (∀ tag attrs children, Forall P children → P (element tag attrs children)) → ∀ n, P n.
Proof.
  intros Ht Hi He. fix rules 1. intros [s|i|tag attrs children]; [apply Ht|apply Hi|].
  apply He. induction children as [|n l IH]; constructor; [apply rules|apply IH].
Qed.

Lemma nodes_root n : n ∈ nodes n.
Proof. destruct n; left. Qed.

Lemma elem_of_all_nodes n l : n ∈ all_nodes l ↔ ∃ m, m ∈ l ∧ n ∈ nodes m.
Proof. apply elem_of_concat_map. Qed.

Lemma all_nodes_element tag attrs children :
  all_nodes [element tag attrs children] = element tag attrs children :: all_nodes children.
Proof. unfold all_nodes. cbn. by rewrite app_nil_r. Qed.

Definition every (P : Node → Prop) (l : list Node) : Prop := Forall P (all_nodes l).

Lemma every_nil P : every P [].
Proof. constructor. Qed.
Lemma every_app P l l' : every P l → every P l' → every P (l ++ l').
Proof. unfold every. rewrite all_nodes_app. by apply Forall_app_2. Qed.
Lemma every_cons P n l : every P [n] → every P l → every P (n :: l).
Proof. apply (every_app P [n]). Qed.
Lemma every_element P tag attrs children :
  P (element tag attrs children) → every P children → every P [element tag attrs children].
Proof. unfold every. rewrite all_nodes_element. by constructor. Qed.
Lemma every_leaf P n : P n → match n with element _ _ _ => False | _ => True end → every P [n].
Proof. intros Hn. destruct n; [..|done]; intros _; repeat constructor; done. Qed.
Lemma every_when P (b : bool) l : (b = true → every P l) → every P (when b l).
Proof. destruct b; [auto|intros _; apply every_nil]. Qed.
Lemma every_map P {A} (f : A → Node) xs : (∀ x, x ∈ xs → every P [f x]) → every P (map f xs).
Proof.
  induction xs as [|x xs IH]; intros Hf; [apply every_nil|]. apply every_cons; [apply Hf; left|].
  apply IH. intros y Hy. apply Hf. by right.
Qed.
Lemma every_omap P {A} (f : A → option Node) xs :
  (∀ x n, x ∈ xs → f x = Some n → every P [n]) → every P (omap f xs).
Proof.
  induction xs as [|x xs IH]; intros Hf; [apply every_nil|]. cbn.
  assert (every P (omap f xs)) as Hxs by (apply IH; intros y n Hy; apply Hf; by right).
  destruct (f x) eqn:Hx; [|done]. apply every_cons; [|done]. by eapply Hf; [left|].
Qed.

(** The other way round: where a node is. *)
Lemma here n l : n ∈ all_nodes (n :: l).
Proof. apply elem_of_all_nodes. exists n. split; [left|apply nodes_root]. Qed.
Lemma next n m l : n ∈ all_nodes l → n ∈ all_nodes (m :: l).
Proof. rewrite !elem_of_all_nodes. intros (k & ? & ?). exists k. split; [by right|done]. Qed.
Lemma below n tag attrs children l :
  n ∈ all_nodes children → n ∈ all_nodes (element tag attrs children :: l).
Proof.
  rewrite !elem_of_all_nodes. intros (k & ? & ?). exists (element tag attrs children).
  split; [left|]. right. apply elem_of_concat_map. eauto.
Qed.
Lemma in_first n l l' : n ∈ all_nodes l → n ∈ all_nodes (l ++ l').
Proof. rewrite all_nodes_app, elem_of_app. by left. Qed.
Lemma in_second n l l' : n ∈ all_nodes l' → n ∈ all_nodes (l ++ l').
Proof. rewrite all_nodes_app, elem_of_app. by right. Qed.
Lemma in_when n (b : bool) l : b = true → n ∈ all_nodes l → n ∈ all_nodes (when b l).
Proof. by intros ->. Qed.
Lemma in_map n {A} (f : A → Node) xs x :
  x ∈ xs → n ∈ all_nodes [f x] → n ∈ all_nodes (map f xs).
Proof.
  rewrite !elem_of_all_nodes. intros Hx (k & ->%list_elem_of_singleton & ?). exists (f x).
  split; [by apply list_elem_of_fmap_2|done].
Qed.

(** ** The ways up *)

(** A path of a child goes on to the root. *)
Lemma paths_child tag attrs children c q :
  c ∈ children → q ∈ paths c →
  q ++ [element tag attrs children] ∈ paths (element tag attrs children).
Proof.
  intros Hc Hq. right. apply (list_elem_of_fmap_2 (λ p, p ++ [element tag attrs children])).
  apply elem_of_concat_map. eauto.
Qed.

Lemma paths_nodes n : ∀ path, path ∈ paths n → ∀ m, m ∈ path → m ∈ nodes n.
Proof.
  induction n as [s|i|tag attrs children IH] using Node_rules; intros path Hp m Hm;
    apply elem_of_cons in Hp as [->|Hp];
    try (apply list_elem_of_singleton in Hm as ->; apply nodes_root); try by apply elem_of_nil in Hp.
  apply list_elem_of_fmap in Hp as (q & -> & Hq). apply elem_of_concat_map in Hq as (c & Hc & Hq).
  apply elem_of_app in Hm as [Hm|Hm]; [|apply list_elem_of_singleton in Hm as ->; apply nodes_root].
  right. apply elem_of_concat_map. exists c. split; [done|].
  rewrite Forall_forall in IH. by eapply IH.
Qed.

(** From a node below another one, up through it to the root. *)
Lemma nodes_paths n : ∀ k m, k ∈ nodes n → m ∈ nodes k →
  ∃ path, path ∈ paths n ∧ m ∈ path ∧ k ∈ path.
Proof.
  induction n as [s|i|tag attrs children IH] using Node_rules; intros k m Hk Hm.
  1,2: apply list_elem_of_singleton in Hk as ->; apply list_elem_of_singleton in Hm as ->;
    eexists; split_and!; left.
  rewrite Forall_forall in IH. set (n := element tag attrs children).
  assert (∀ c, c ∈ children → ∀ k m, k ∈ nodes c → m ∈ nodes k →
    ∃ path, path ∈ paths n ∧ m ∈ path ∧ k ∈ path ∧ n ∈ path) as Hbelow.
  { intros c Hc k' m' Hk' Hm'. destruct (IH c Hc k' m' Hk' Hm') as (q & Hq & ? & ?).
    exists (q ++ [n]). split; [by eapply paths_child|]. split_and!; apply elem_of_app; [by left..|].
    right. left. }
  apply elem_of_cons in Hk as [->|Hk].
  - apply elem_of_cons in Hm as [->|Hm]; [eexists; split_and!; left|].
    apply elem_of_concat_map in Hm as (c & Hc & Hm).
    destruct (Hbelow c Hc m m Hm (nodes_root m)) as (q & ? & ? & _ & ?). eauto.
  - apply elem_of_concat_map in Hk as (c & Hc & Hk). destruct (Hbelow c Hc k m Hk Hm) as (q & ? & ? & ? & _). eauto.
Qed.

(** ** Handlers *)

Lemma elem_of_all_handlers event f l :
  (event, f) ∈ all_handlers l ↔ ∃ n, n ∈ all_nodes l ∧ (event, f) ∈ handlers_of n.
Proof. apply elem_of_concat_map. Qed.

Lemma elem_of_handlers_for event f n : f ∈ handlers_for event n ↔ (event, f) ∈ handlers_of n.
Proof.
  unfold handlers_for. rewrite list_elem_of_omap. split.
  - intros ([event' f'] & Hin & Hf). cbn in Hf. case_decide; simplify_eq. done.
  - intros Hin. exists (event, f). split; [done|]. cbn. by rewrite decide_True.
Qed.

(** The handlers a click calls. *)
Lemma elem_of_clicked f path :
  f ∈ clicked path ↔
  (∃ n, n ∈ path ∧ ("click", f) ∈ handlers_of n) ∨
  (∃ b n, b ∈ path ∧ submit_button b = true ∧ n ∈ path ∧ submits n = true ∧ ("submit", f) ∈ handlers_of n).
Proof.
  unfold clicked, when. rewrite elem_of_app, elem_of_concat_map.
  setoid_rewrite elem_of_handlers_for. apply or_iff_compat_l.
  destruct (existsb submit_button path) eqn:Hb.
  - apply existsb_exists in Hb as (b & Hb%list_elem_of_In & Hs).
    rewrite elem_of_concat_map. setoid_rewrite elem_of_handlers_for.
    setoid_rewrite list_elem_of_filter. split.
    + intros (n & (Hsub & Hn) & Hf). exists b, n. by apply Is_true_true in Hsub.
    + intros (_ & n & _ & _ & Hn & Hsub & Hf). exists n. by rewrite Is_true_true.
  - split; [set_solver|]. intros (b & _ & Hin & Hsb & _).
    assert (existsb submit_button path = true) as Ht; [|congruence].
    apply existsb_exists. exists b. by rewrite <-list_elem_of_In.
Qed.

End nodes.
Arguments Attr : clear implicits.
Arguments Node : clear implicits.

(** [classnames]: the names whose flags are set, with spaces between them. *)
Class ClassNames := {
  classnames : list (string * bool) → string;
  classnames_spec l : classnames l = String.concat " " (filter (λ nb, nb.2 = true) l).*1;
}.

(** [react-transition-group]: a [div] with its children, when no transition is under
    way; [screenfull]: whether the browser lets a page fill the screen. *)
Class Packages := {
  TransitionGroup {C} : list (Node C) → Node C;
  TransitionGroup_spec {C} (l : list (Node C)) : TransitionGroup l = element "div" [] l;
  screenfull_isEnabled : bool;
}.

(** What the browser says of itself ([features.ts], [canShare]): [typeof] of an
    expression, and what it has; and of the document. *)
Class Browser := {
  typeof : string → string;
  mediaDevices_in_navigator : bool;
  share_in_navigator : bool;
  srcObject_in_video : bool;
  has_FileReader : bool;
  location_href : string;
  network : string;
}.

Section widgets.
Context {C : Type} `{ClassNames} `{Browser}.

(** * [features.ts] *)

Record Features := {
  f_media : bool;
  f_mediaStream : bool;
  f_buffers : bool;
  f_insertableStreams : bool;
  f_webrtc : bool;
  f_websockets : bool;
  f_webworkers : bool;
}.

Definition is_function (x : string) : bool := bool_decide (typeof x = "function").

Definition getBrowserFeatures : Features := {|
  f_media :=
    mediaDevices_in_navigator &&
    bool_decide (typeof "navigator.mediaDevices" = "object") &&
    is_function "navigator.mediaDevices.getUserMedia" &&
    is_function "navigator.mediaDevices.enumerateDevices";
  f_mediaStream := is_function "MediaStream" && is_function "MediaStreamTrack";
  f_buffers :=
    is_function "TextEncoder" && is_function "TextDecoder" &&
    is_function "ArrayBuffer" && is_function "Uint8Array";
  f_insertableStreams :=
    is_function "RTCRtpSender" && is_function "RTCRtpSender.prototype.createEncodedStreams";
  f_webrtc :=
    is_function "RTCPeerConnection" &&
    bool_decide (typeof "RTCPeerConnection.prototype" = "object") &&
    is_function "RTCPeerConnection.prototype.createDataChannel";
  f_websockets := is_function "WebSocket";
  f_webworkers := is_function "Worker";
|}.

(** * [Unsupported.tsx] *)

Definition isBrowserSupported : bool :=
  let features := getBrowserFeatures in
  f_media features && f_mediaStream features && f_buffers features && f_webrtc features &&
  f_websockets features && f_webworkers features.

(** [Message.tsx] *)
Definition Message (classes : string) (children : list (Node C)) : Node C :=
  element "div" [className classes] children.

Definition link (href name : string) : Node C := element "a" [attr "href" href] [text name].

Definition Unsupported : list (Node C) :=
  when (negb isBrowserSupported)
    [Message "message-error" [icon "MdError";
       element "span" [] [
         element "strong" [] [text "You are using an unsupported browser!"];
         element "br" [] []; element "br" [] [];
         text "If you experience any issues during the call, please try joining using the latest version of";
         text " "; link "https://www.google.com/chrome/" "Chrome"; text ",";
         text " "; link "https://www.microsoft.com/en-us/edge" "Edge"; text ",";
         text " "; link "https://www.mozilla.org/en-US/firefox/new/" "Firefox"; text ", or";
         text " "; link "https://support.apple.com/en-us/HT204416" "Safari"; text ".";
         element "br" [] []; text "On iOS devices, only Safari v12+ is supported."]]].

(** * [ToolbarButton.tsx] *)

(** The optional properties: [badge] is a number here, and is shown when it is not 0. *)
Record ToolbarButtonProps := {
  tb_className : string;
  tb_badge : option Z;
  tb_blink : bool;
  tb_onClick : C;
  tb_icon : string;
  tb_offIcon : option string;
  tb_on : bool;
  tb_title : string;
}.

Definition ToolbarButton (props : ToolbarButtonProps) : Node C :=
  let Icon := match tb_on props, tb_offIcon props with
              | false, Some offIcon => offIcon
              | _, _ => tb_icon props
              end in
  element "a" [className (classnames [("button", true); (tb_className props, bool_decide (tb_className props ≠ ""));
                                      ("blink", tb_blink props); ("on", tb_on props)]);
               on "click" (λ _, tb_onClick props)]
    [element "span" [className "icon"]
       (icon Icon ::
        match tb_badge props with
        | Some badge => when (bool_decide (badge ≠ 0%Z)) [element "span" [className "badge"] [text (pretty badge)]]
        | None => []
        end);
     element "span" [className "tooltip"] [text (tb_title props)]].

(** * [Backdrop.tsx] *)

Definition Backdrop (visible : bool) (onClick : C) : list (Node C) :=
  if visible then [element "section" [className "dropdown-backdrop"; on "click" (λ _, onClick)] []] else [].

(** * [Alerts.tsx] *)

Definition Alert (children : list (Node C)) : Node C := element "div" [className "alert"] children.
Definition Alerts (children : list (Node C)) : Node C := element "div" [className "alerts"] children.

(** * [Dropdown.tsx] *)

(** An entry: an [li] with its class, what clicking it does, and what it shows. *)
Record DropdownEntry := {
  de_className : string;
  de_onClick : C;
  de_children : list (Node C);
}.

(** Each entry also closes, or opens, the menu: [both] does the one, then the other. *)
Definition Dropdown (both : C → C → C) (opened : bool) (handleClick close : C) (label : list (Node C))
    (entries : list DropdownEntry) : Node C :=
  element "div" [className "dropdown"] (
    element "button" [on "click" (λ _, handleClick)] label ::
    Backdrop opened close ++
    [element "ul" [className (classnames [("dropdown-list", true); ("dropdown-list-open", opened)])]
       (map (λ e, element "li" [className (de_className e);
                                on "click" (λ _, both handleClick (de_onClick e))] (de_children e)) entries)]).

End widgets.
Arguments ToolbarButtonProps : clear implicits.
Arguments DropdownEntry : clear implicits.

(** * Instances *)

Program Definition some_classnames : ClassNames := {|
  classnames l := String.concat " " (filter (λ nb, nb.2 = true) l).*1 |}.
Solve Obligations with done.

(** A browser that knows everything, and shares nothing. *)
Definition some_browser : Browser := {|
  typeof x := if decide (x = "navigator.mediaDevices" ∨ x = "RTCPeerConnection.prototype") then "object"
              else "function";
  mediaDevices_in_navigator := true; share_in_navigator := false; srcObject_in_video := true;
  has_FileReader := true; location_href := "https://host/call"; network := "mesh" |}.

Program Definition some_packages : Packages :=
  {| TransitionGroup C l := element "div" [] l; screenfull_isEnabled := true |}.
Solve Obligations with done.
