(* ===== verification/Views.v ===== *)
(** What the page shows: the [render] functions of the components
    ([src/client/components/]), from [Toolbar.tsx] to [App.tsx], over the whole desk of
    the user ([Desk]).  The handlers of a rendered element are lists of commands: the
    calls its code makes, in order. *)

From S2P Require Import Prelude Bytes TextCodec Encoder Decoder Objects InsertableStreams InsertableCodec Actions World Streams Peers Media Users Notices Async Store PeerActions CallActions Chat CallSafety Session Capture Devices JoinForm Videos Screen UiSession Desk Dom.

#[local] Abbreviation list := Datatypes.list.

(** * Commands *)

Inductive Command :=
  (** what the desk knows of *)
  | does (ev : DeskEvent)
  (** [Video]: [play], [handleMinimize], [handleToggleCover]; and its menu's [setState].
      A tile is in the row of the minimized ones or not, and has a key there *)
  | plays (t : StreamProps)
  | minimizes (t : StreamProps)
  | covers (place : bool * string)
  | opens_menu (place : bool * string) (open : bool)
  (** [Toolbar]: [copyInvitationURL], [handleFullscreenClick] *)
  | invites (i : Invitation)
  | toggles_fullscreen
  (** [Chat], [Input]: [handleClick], [handleSendFile] *)
  | downloads (href name : string)
  | opens_files.

Abbreviation Element := (Node (list Command)).

Definition on_click (cs : list Command) : Attr (list Command) := on "click" (λ _, cs).
Definition span (name : string) (children : list Element) : Element :=
  element "span" [className name] children.
Definition div (name : string) (children : list Element) : Element :=
  element "div" [className name] children.
Definition nbsp : string := String (Ascii.ascii_of_nat 194) (String (Ascii.ascii_of_nat 160) "").

Definition button_props (name icon title : string) (cs : list Command) :
    ToolbarButtonProps (list Command) := {|
  tb_className := name; tb_badge := None; tb_blink := false; tb_onClick := cs; tb_icon := icon;
  tb_offIcon := None; tb_on := false; tb_title := title |}.

Section views.
Context `{Platform} `{Lodash} `{ObjectKeys} `{EncodedStreams} `{TextCodec} `{!JSON} `{Window}
  `{ClassNames} `{Browser} `{Packages}.

(** The state the components show ([mapStateToProps]). *)
Definition page_of (d : Desk) : Page := page (d_screen d).
Definition media_of (d : Desk) : MediaState := st_media (state (page_of d)).

(** * [DeviceDropdown.tsx] *)

Record DeviceDropdownProps := {
  dd_className : string;
  dd_icon : string;
  dd_offIcon : string;
  dd_title : string;
}.

(** [mapVideoStateToProps], [mapAudioStateToProps]; the rest of them is in [device_options]. *)
Definition dropdown_props (kind : DeviceKind) : DeviceDropdownProps :=
  match kind with
  | videoinput => {| dd_className := "video"; dd_icon := "MdVideocamOff";
                     dd_offIcon := "MdVideocam"; dd_title := "Camera" |}
  | audioinput => {| dd_className := "audio"; dd_icon := "MdMicOff"; dd_offIcon := "MdMic";
                     dd_title := "Microphone" |}
  end.

Definition DeviceOption_render (kind : DeviceKind) (o : DeviceOption) : Element :=
  element "li" [on_click [does (menu_picks kind (o_device o))]]
    [icon (if o_selected o then "MdRadioButtonChecked" else "MdRadioButtonUnchecked");
     text " "; text (o_name o)].

Definition DeviceDropdown_render (kind : DeviceKind) (d : Desk) : Element :=
  let props := dropdown_props kind in
  let menu := d_menus d kind in
  div "dropdown"
    (ToolbarButton {| tb_className := dd_className props; tb_badge := None; tb_blink := false;
                      tb_onClick := [does (menu_toggles kind)]; tb_icon := dd_icon props;
                      tb_offIcon := Some (dd_offIcon props);
                      tb_on := bool_decide (selectedDevice kind (media_of d) = flag_constraint false);
                      tb_title := dd_title props |} ::
     Backdrop (open menu) [does (menu_closes kind)] ++
     [element "ul" [className (classnames [("dropdown-list dropdown-center", true);
                                           ("dropdown-list-open", open menu)])]
        (map (DeviceOption_render kind) (device_options kind (media_of d)))]).

(** * [Toolbar.tsx] *)

Definition nickname_text (d : Desk) : string :=
  default "undefined" (st_nicknames (state (page_of d)) !! ME).

Definition copy_button (d : Desk) : Element :=
  ToolbarButton (button_props "copy-url" (if share_in_navigator then "MdShare" else "MdContentCopy")
    (if share_in_navigator then "Share" else "Copy Invitation URL")
    [invites (copyInvitationURL share_in_navigator (nickname_text d) location_href)]).

Definition chat_button (d : Desk) : Element :=
  let s := d_screen d in
  ToolbarButton {| tb_className := "chat"; tb_badge := Some (unreadCount s); tb_blink := blinks s;
                   tb_onClick := [does (on_screen clicks_chat)]; tb_icon := "MdQuestionAnswer";
                   tb_offIcon := None; tb_on := chatVisible (ui s); tb_title := "Toggle Chat" |}.

Definition encryption_button (d : Desk) : Element :=
  let u := ui (d_screen d) in
  ToolbarButton {| tb_className := classnames [("encryption", true); ("encryption-enabled", encrypted u)];
                   tb_badge := None; tb_blink := false;
                   tb_onClick := [does (on_screen clicks_encryption)];
                   tb_icon := if encrypted u then "MdLock" else "MdLockOpen"; tb_offIcon := None;
                   tb_on := encryptionDialogVisible u || encrypted u; tb_title := "Setup Encryption" |}.

Definition encryption_dialog (d : Desk) : Element :=
  element "div" [className (classnames [("encryption-dialog", true);
                   ("encryption-dialog-visible", encryptionDialogVisible (ui (d_screen d)))])]
    [div "encryption-form"
       [element "input" [attr "autoComplete" "off"; attr "name" "encryption-key";
                         className "encryption-key"; attr "placeholder" "Enter Passphrase";
                         attr "type" "password";
                         on "keyup" (λ e, [does (on_screen (presses_key_on_passphrase (e_key e)))])] [];
        element "button" [on_click [does (on_screen clicks_save)]] [text "Save"]];
     div "note"
       (element "p" [] [icon "MdWarning"; text " Experimental functionality for A/V only."] ::
        when (negb (f_insertableStreams getBrowserFeatures))
          [element "p" [] [text "Your browser does not support Insertable Streams; currently only Chrome has support. If you are using Chrome, please make sure Experimental Web Platform Features are enabled in chrome://flags."]] ++
        [text " "])].

Definition desktop_button (d : Desk) : Element :=
  ToolbarButton {| tb_className := "stream-desktop"; tb_badge := None; tb_blink := false;
                   tb_onClick := [does (on_screen clicks_share_desktop)];
                   tb_icon := "MdStopScreenShare"; tb_offIcon := Some "MdScreenShare";
                   tb_on := bool_decide (is_Some
                     (localStreams (st_streams (state (page_of d))) !! stream_type_key StreamTypeDesktop));
                   tb_title := "Share Desktop" |}.

Definition recording_button (d : Desk) : Element :=
  let status := recordStatus (media_of d) in
  ToolbarButton {| tb_className := "recording"; tb_badge := None; tb_blink := false;
                   tb_onClick := [does (on_screen clicks_record)];
                   tb_icon := "MdRadioButtonUnchecked"; tb_offIcon := Some "MdRadioButtonChecked";
                   tb_on := status;
                   tb_title := if status then "Stop Recording" else "Start Recording" |}.

Definition fullscreen_button (fullScreenEnabled : bool) : Element :=
  ToolbarButton {| tb_className := "fullscreen"; tb_badge := None; tb_blink := false;
                   tb_onClick := when screenfull_isEnabled [toggles_fullscreen];
                   tb_icon := "MdFullscreenExit"; tb_offIcon := Some "MdFullscreen";
                   tb_on := fullScreenEnabled; tb_title := "Toggle Fullscreen" |}.

(** The part that is there in a call. *)
Definition toolbar_call (fullScreenEnabled : bool) (d : Desk) : list Element :=
  [desktop_button d;
   DeviceDropdown_render videoinput d;
   TransitionGroup (when (copiedToastStatus (ui (d_screen d))) [span "copied-toast" [text "Copied!"]]);
   recording_button d;
   ToolbarButton (button_props "hangup" "MdCallEnd" "Hang Up" [does (on_screen clicks_hang_up)]);
   DeviceDropdown_render audioinput d;
   fullscreen_button fullScreenEnabled].

Definition Toolbar_render (fullScreenEnabled : bool) (d : Desk) : list Element :=
  let name := classnames [("toolbar", true); ("toolbar-hidden", toolbar_hidden (d_screen d))] in
  div ("toolbar-other " +:+ name)
    (copy_button d ::
     when (isInCall (d_screen d)) [chat_button d] ++
     [div "encryption-wrapper" [encryption_button d; encryption_dialog d]]) ::
  when (isInCall (d_screen d)) [div ("toolbar-call " +:+ name) (toolbar_call fullScreenEnabled d)].

(** * [Notifications.tsx] *)

Definition type_name (t : NotifyType) : string :=
  match t with notify_info => "info" | notify_warning => "warning" | notify_error => "error" end.

Definition Notification_render (n : Notification) : Element :=
  div (classnames [(type_name (n_type n), true); ("notification", true)]) [text (n_message n)].

(** [Object.keys(notifications).slice(-max).reverse()] *)
Definition shown_ids (max : nat) (ns : NotificationState) : list string :=
  reverse (drop (length (object_keys ns) - max) (object_keys ns)).

Definition Notifications_render (name : string) (max : nat) (ns : NotificationState) : Element :=
  element "div" [className (classnames [("notifications", true); (name, bool_decide (name ≠ ""))]);
                 attr "tabindex" "0"]
    [TransitionGroup (omap (λ id, Notification_render <$> ns !! id) (shown_ids max ns))].

(** * [Input.tsx] *)

Definition smiles : list string := ["😑"; "😕"; "😊"; "😎"; "💪"].

Definition smile_render (smile : string) : Element :=
  element "span" [className "chat-controls-buttons-smile"; on_click [does (on_screen (clicks_smile smile))]]
    [text smile].

Definition Input_render (message : string) : Element :=
  element "form" [className "chat-controls";
                  on "submit" (λ e, [does (on_screen (submits_text (e_time e)))])]
    [element "input" [attr "style" "display: none"; attr "type" "file"; flag "multiple" true;
                      on "change" (λ e, [does (on_screen (selects_files has_FileReader (e_files e)))])] [];
     element "textarea" [className "chat-controls-textarea";
                         on "change" (λ e, [does (on_screen (types_text (e_value e)))]);
                         on "keypress" (λ e, [does (on_screen
                           (presses_key_on_text (e_key e) (e_shiftKey e) (e_time e)))]);
                         attr "placeholder" "Type a message"; attr "value" message] [];
     div "chat-controls-buttons"
       [element "input" [attr "type" "submit"; attr "value" "Send";
                         className "chat-controls-buttons-send"] [];
        element "input" [attr "type" "submit"; attr "value" "Send File";
                         className "chat-controls-buttons-send-file"; on_click [opens_files]] [];
        div "chat-controls-buttons-wrapper"
          [div "emoji"
             [div "chat-controls-buttons-smiles"
                [icon "MdSentimentSatisfied";
                 div "chat-controls-buttons-smiles-menu" (map smile_render smiles)]]]]].

(** * [Chat.tsx] *)

(** The empty string is as good as nothing here. *)
Definition given (data : option string) : option string :=
  data ≫= λ s, if decide (s = "") then None else Some s.

Definition MessageEntry (m : Notices.Message) : Element :=
  element "p" [className "message-text"]
    (when (default false (m_image m))
       [element "img" (match m_data m with Some s => [attr "src" s] | None => [] end ++
                       [attr "width" "100%"]) []] ++
     match given (m_data m) with
     | Some data =>
       [element "button" [className "message-download"; on_click [downloads data (m_message m)]]
          [element "span" [] [text (m_message m)]; icon "MdFileDownload"]]
     | None => [text (m_message m)]
     end).

Definition message_render (names : Nicknames) (m : Notices.Message) : Element :=
  div "message"
    [span "message-user-name" [text (getNickname names (m_userId m))];
     element "time" [className "message-time"] [text (m_timestamp m)];
     MessageEntry m].

Definition face : Element := span "chat-item-img" [icon "MdFace"].

Definition chat_item (names : Nicknames) (m : Notices.Message) : Element :=
  element "div" []
    [if decide (m_userId m = ME)
     then div "chat-item chat-item-me" [message_render names m; face]
     else div "chat-item chat-item-other" [face; message_render names m]].

Definition chat_history (names : Nicknames) (messages : list Notices.Message) : Element :=
  div "chat-history"
    (match messages with
     | [] => [div "chat-empty" [span "chat-empty-icon" [icon "MdQuestionAnswer"];
                                div "chat-empty-message" [text "No Notifications"]]]
     | _ => map (chat_item names) messages
     end).

Definition Chat_render (visible : bool) (names : Nicknames) (messages : list Notices.Message)
    (message : string) : Element :=
  div (classnames [("chat-container", true); ("show", visible)])
    [div "chat-header"
       [element "div" [className "chat-close"; on_click [does (on_screen clicks_chat_cross)]] [icon "MdClose"];
        div "chat-title" [text "Chat"]];
     chat_history names messages;
     Input_render message].

(** * [Media.tsx] *)

Definition option_render (o : Constraint * string) : Element :=
  element "option" [value_of o.1] [text o.2].

Definition nickname_input (nickname : string) : Element :=
  div "form-item"
    [element "label" [className (classnames [("label-error", bool_decide (nickname = ""))])]
       [text "Enter your name"];
     element "input" [flag "required" true; className (classnames [("error", bool_decide (nickname = ""))]);
                      attr "name" "nickname"; attr "type" "text"; attr "placeholder" "Name";
                      flag "autofocus" true; on "change" (λ e, [does (form_types (e_value e))]);
                      attr "value" nickname] []].

Definition device_select (kind : DeviceKind) (name : string) (m : MediaState) : Element :=
  div "form-item"
    [element "select" [attr "name" name; on "change" (λ e, [does (form_picks kind (e_constraint e))]);
                       value_of (selectedDevice kind m); attr "autoComplete" "off"]
       (map option_render (Options kind (devices m)))].

Definition MediaForm_render (d : Desk) : list Element :=
  if visible (page_of d) then
    [element "form" [className "media"; on "submit" (λ _, [does form_submits])]
       ([nickname_input (form_nickname (d_form d));
         device_select videoinput "video-input" (media_of d);
         device_select audioinput "audio-input" (media_of d);
         element "button" [attr "type" "submit"; flag "disabled" (negb (joinEnabled (page_of d)))]
           [text "Join Call"]] ++
        when (form_error (d_form d))
          [Dom.Message "message-error" [icon "MdError"; element "span" []
             [text "Could not get access to microphone or camera. Please grant the necessary permissions and try again."]]] ++
        Unsupported ++
        [div "network-info" [element "span" [] [text "Network: "; text network]]])]
  else [].

Definition AutoplayMessage : list Element :=
  [text "Your browser has blocked video autoplay on this page. To continue with your call, please press the play button: ";
   text nbsp;
   element "button" [className "button"; on_click [does presses_play]] [text "Play"]].

Definition Media_render (d : Desk) : Element :=
  div "media-container"
    (Alerts (when (autoplayError (media_of d)) [Alert AutoplayMessage]) :: MediaForm_render d).

(** * [Video.tsx], [Videos.tsx] *)

Definition menu_entry (name : string) (cs : list Command) (children : list Element) :
    DropdownEntry (list Command) :=
  {| de_className := name; de_onClick := cs; de_children := children |}.

(** The row a tile is in, and its key there. *)
Definition place_of (t : StreamProps) : bool * string := (sp_minimized t, sp_key t).

Definition Video_menu (menu_open : bool) (t : StreamProps) : Element :=
  Dropdown app menu_open [opens_menu (place_of t) (negb menu_open)] [opens_menu (place_of t) false]
    [icon "MdMenu"]
    [menu_entry "action-minimize" [minimizes t]
       [icon (if sp_minimized t then "MdZoomIn" else "MdZoomOut"); text nbsp;
        text (if sp_minimized t then "Maximize" else "Minimize")];
     menu_entry "action-toggle-fit" [covers (place_of t)] [icon "MdCrop"; text " Toggle Fit"]].

Definition Video_render (names : Nicknames) (menu_open : bool) (t : StreamProps) : Element :=
  element "div" [className (classnames [("video-container", true); ("minimized", sp_minimized t);
                                        ("mirrored", sp_mirrored t)])]
    [element "video" [attr "id" ("video-" +:+ sp_userId t); flag "playsInline" true;
                      on_click [plays t]; on "loadedmetadata" (λ _, [plays t])] [];
     div "video-footer"
       [span "nickname" [text (getNickname names (sp_userId t))]; Video_menu menu_open t]].

Definition page_streams (p : Page) : Lists :=
  getStreams (st_windowStates (state p)) (st_nicknames (state p)) (st_streams (state p)).

Definition Videos_render (menu_open : bool * string → bool) (p : Page) : list Element :=
  let row := map (λ t, Video_render (st_nicknames (state p)) (menu_open (place_of t)) t) in
  [div "videos videos-toolbar" (row (page_streams p).1);
   div "videos videos-grid" (row (page_streams p).2)].

(** * [App.tsx] *)

Definition App_render (fullScreenEnabled : bool) (menu_open : bool * string → bool) (d : Desk) : Element :=
  let s := state (page_of d) in
  let u := ui (d_screen d) in
  div "app"
    (Toolbar_render fullScreenEnabled d ++
     [Notifications_render (classnames [("chat-visible", chatVisible u)]) 20 (st_notifications s);
      Chat_render (chatVisible u) (st_nicknames s) (Notices.list (st_messages s)) (typed_message u);
      Media_render d] ++
     when (negb (hung_up (page_of d))) (Videos_render menu_open (page_of d))).

End views.
