(* ===== verification/Display.v ===== *)
(** The page as its user has it before them: the desk, with what the components of the
    tiles and the browser keep between renderings, and what a user can do with it,
    which is what the rendered elements offer. *)

From S2P Require Import Prelude Bytes TextCodec Encoder Decoder Objects InsertableStreams InsertableCodec Actions World Streams Peers Media Users Notices Async Store PeerActions CallActions Chat CallSafety Session Capture Devices JoinForm Videos Screen UiSession Desk Dom Views.

#[local] Abbreviation list := Datatypes.list.

(** The menu of a tile ([Dropdown]), and its [<video>]. *)
Record TileState := {
  menu_open : bool;
  video_element : VideoElement;
}.

Definition set_menu_open (b : bool) (ts : TileState) : TileState :=
  {| menu_open := b; video_element := video_element ts |}.
Definition set_video_element (v : VideoElement) (ts : TileState) : TileState :=
  {| menu_open := menu_open ts; video_element := v |}.

Record Display := {
  desk : Desk;
  (** [Toolbar.state.fullScreenEnabled] *)
  fullScreenEnabled : bool;
  (** the tiles mounted, by the row they are in and their keys *)
  tiles : gmap (bool * string) TileState;
  (** what was given to the browser, in order *)
  outside : list Command;
}.

Definition set_desk (d : Desk) (x : Display) : Display :=
  {| desk := d; fullScreenEnabled := fullScreenEnabled x; tiles := tiles x; outside := outside x |}.
Definition set_fullScreenEnabled (b : bool) (x : Display) : Display :=
  {| desk := desk x; fullScreenEnabled := b; tiles := tiles x; outside := outside x |}.
Definition set_tiles (f : gmap (bool * string) TileState → gmap (bool * string) TileState) (x : Display) : Display :=
  {| desk := desk x; fullScreenEnabled := fullScreenEnabled x; tiles := f (tiles x); outside := outside x |}.
Definition add_outside (c : Command) (x : Display) : Display :=
  {| desk := desk x; fullScreenEnabled := fullScreenEnabled x; tiles := tiles x; outside := outside x ++ [c] |}.

Section display.
Context `{Platform} `{Lodash} `{ObjectKeys} `{EncodedStreams} `{TextCodec} `{!JSON} `{Window}
  `{ClassNames} `{Browser} `{Packages}.

(** * Rendering *)

Definition tile_menu (x : Display) (place : bool * string) : bool :=
  default false (menu_open <$> tiles x !! place).

Definition displayed (x : Display) : list Element :=
  [App_render (fullScreenEnabled x) (tile_menu x) (desk x)].

Definition rendered_tiles (p : Page) : list StreamProps :=
  if hung_up p then [] else (page_streams p).1 ++ (page_streams p).2.

(** A new instance of [Video]. *)
Definition new_tile : TileState := {|
  menu_open := false;
  video_element := {| has_srcObject := srcObject_in_video; srcObject := None; src := "";
                      v_muted := false; objectFit := "" |} |}.

(** [componentDidMount], [componentDidUpdate]; for an instance with the same
    properties as before the second is not called, and would change nothing. *)
Definition Video_updated (t : StreamProps) (ts : TileState) : TileState :=
  set_video_element (default (video_element ts) (setVideoMetaData t (Some (video_element ts)))) ts.

(** After a rendering: an instance whose key is still in its row is kept, one whose
    key is not goes, and the others are new. *)
Definition commit (x : Display) : Display :=
  set_tiles (λ old, list_to_map ((λ t,
    (place_of t, Video_updated t (default new_tile (old !! place_of t)))) <$> rendered_tiles (page_of (desk x)))) x.

(** * What commands do *)

Definition desk_op {A} (m : eff Desk A) : eff Display A := λ x,
  let '(r, d) := m (desk x) in (r, set_desk d x).

Definition run_command (c : Command) : eff Display unit :=
  match c with
  | does ev => desk_op (desk_run ev)
  | plays t => desk_op (screen_op (on_page (Video_play t)))
  | minimizes t => desk_op (screen_op (on_page (handleMinimize t)))
  | covers place => modify (set_tiles (alter (λ ts, set_video_element
      (default (video_element ts) (handleToggleCover (Some (video_element ts)))) ts) place))
  | opens_menu place b => modify (set_tiles (alter (set_menu_open b) place))
  | invites _ | toggles_fullscreen | downloads _ _ | opens_files => modify (add_outside c)
  end.

Definition run_commands (cs : list Command) : eff Display unit := for_each run_command cs.

(** * What a user can do *)

Definition commands (fs : list (DomEvent → list Command)) (e : DomEvent) : list Command :=
  concat (map (λ f, f e) fs).

(** A click on any node of the page; any other event an element has a handler for. *)
Inductive offered (x : Display) : list Command → Prop :=
  | by_click path e :
      path ∈ all_paths (displayed x) → offered x (commands (clicked path) e)
  | by_event event f e :
      (event, f) ∈ all_handlers (displayed x) → event ≠ "click" → event ≠ "submit" → offered x (f e).

(** What the handlers of an element can do; a form is only submitted when it may be. *)
Definition permits (c : Command) (n : Element) : Prop :=
  ∃ event f e, (event, f) ∈ handlers_of n ∧ (event = "submit" → submits n = true) ∧ c ∈ f e.

(** What is offered is what some element permits. *)
Lemma offered_permits x c :
  (∃ cs, offered x cs ∧ c ∈ cs) ↔ ∃ n, n ∈ all_nodes (displayed x) ∧ permits c n.
Proof using Type.
  split.
  - intros (cs & Ho & Hc). destruct Ho as [path e Hpath|event f e Hin Hnc Hns].
    + unfold all_paths in Hpath. apply elem_of_concat_map in Hpath as (root & Hroot & Hpath).
      assert (∀ n, n ∈ path → n ∈ all_nodes (displayed x)) as Hall.
      { intros n Hn. apply elem_of_all_nodes. exists root. split; [done|]. by eapply paths_nodes. }
      apply elem_of_concat_map in Hc as (f & Hf & Hc).
      apply elem_of_clicked in Hf as [(n & Hn & Hf)|(b & n & _ & _ & Hn & Hs & Hf)];
        exists n; (split; [by apply Hall|]).
      * by exists "click", f, e.
      * by exists "submit", f, e.
    + apply elem_of_all_handlers in Hin as (n & Hn & Hin). exists n. split; [done|].
      exists event, f, e. by split_and!.
  - intros (n & Hn & event & f & e & Hin & Hs & Hc).
    apply elem_of_all_nodes in Hn as (root & Hroot & Hn).
    assert (∀ path, path ∈ paths root → f ∈ clicked path → ∃ cs, offered x cs ∧ c ∈ cs) as Hclick.
    { intros path Hp Hf. exists (commands (clicked path) e). split.
      - apply by_click. apply elem_of_concat_map. eauto.
      - apply elem_of_concat_map. eauto. }
    destruct (decide (event = "click")) as [->|Hnc]; [|destruct (decide (event = "submit")) as [->|Hns]].
    + destruct (nodes_paths root n n Hn (nodes_root n)) as (path & Hp & Hin' & _).
      apply (Hclick path Hp). apply elem_of_clicked. left. eauto.
    + pose proof (Hs eq_refl) as Hsub. unfold submits in Hs. specialize (Hs eq_refl).
      apply andb_true_iff in Hs as [[_ Hb]%andb_true_iff _].
      apply existsb_exists in Hb as (b & Hb%list_elem_of_In & Hsb).
      destruct (nodes_paths root n b Hn Hb) as (path & Hp & Hbp & Hnp).
      apply (Hclick path Hp). apply elem_of_clicked. right. by exists b, n.
    + exists (f e). split; [|done]. apply (by_event x event); [|done|done].
      apply elem_of_all_handlers. exists n. split; [|done]. apply elem_of_all_nodes. eauto.
Qed.

(** What does not go through a handler of an element: typing the passphrase, which is
    kept by the input itself, clicks on the document, and all that is not the user's. *)
Definition of_user (ev : PageEvent) : bool :=
  match ev with
  | user_requests _ | user_dials _ | user_hangs_up | user_sends _ | user_acts _
  | user_sets_password _ => true
  | _ => false
  end.
Definition beyond (ev : DeskEvent) : bool :=
  match ev with
  | on_screen (happens ev) => negb (of_user ev)
  | on_screen toast_times_out | on_screen (clicks_page _) | on_screen (types_passphrase _) => true
  | form_appears | form_goes_on _ _ => true
  | _ => false
  end.

Definition opened_display (stored : option string) (nickname url : string) (codec_ok : bool) : Display :=
  {| desk := opened_desk stored nickname url codec_ok; fullScreenEnabled := false; tiles := ∅;
     outside := [] |}.

Inductive display_session (url : string) : Display → Prop :=
  | display_opens stored nickname codec_ok :
      display_session url (commit (opened_display stored nickname url codec_ok))
  | user_uses x cs r x' :
      display_session url x → offered x cs → run_commands cs x = (r, x') →
      display_session url (commit x')
  | world_goes_on x ev r x' :
      display_session url x → beyond ev = true → desk_op (desk_run ev) x = (r, x') →
      display_session url (commit x')
  | fullscreenChange x b :
      display_session url x →
      display_session url (commit (set_fullScreenEnabled (screenfull_isEnabled && b) x)).

End display.
