(* ===== verification/ViewsSafety.v ===== *)
(** What the page offers its user, in every state of the desk; and what is true of
    sessions in which users do what they are offered. *)

From S2P Require Import Prelude Bytes TextCodec Encoder Decoder Objects InsertableStreams KeyManagement KeySafety FrameSecurity InsertableCodec Actions World Streams Peers Media Users Notices Async Store PeerActions CallActions Chat CallSafety Session Capture Devices JoinForm Videos Screen UiSession Desk Dom Views Display.

#[local] Abbreviation list := Datatypes.list.

Section views.
Context `{Platform} `{Lodash} `{ObjectKeys} `{EncodedStreams} `{TextCodec} `{!JSON} `{Window}
  `{ClassNames} `{Browser} `{Packages}.

(** * What may be offered *)

Definition in_call (x : Display) : Prop := isInCall (d_screen (desk x)) = true.

(** A tile that is on the page. *)
Definition on_page_tile (x : Display) (t : StreamProps) : Prop := t ∈ rendered_tiles (page_of (desk x)).

Definition allowed (x : Display) (c : Command) : Prop :=
  let d := desk x in
  match c with
  (* the toolbar *)
  | invites i => i = copyInvitationURL share_in_navigator (nickname_text d) location_href
  | does (on_screen (clicks_chat | clicks_share_desktop | clicks_record | clicks_hang_up)) => in_call x
  | does (on_screen (clicks_encryption | clicks_save | presses_key_on_passphrase _)) => True
  | does (menu_toggles _) => in_call x
  | does (menu_closes kind) => in_call x ∧ open (d_menus d kind) = true
  | does (menu_picks kind c) => in_call x ∧ c ∈ o_device <$> device_options kind (media_of d)
  | toggles_fullscreen => in_call x ∧ screenfull_isEnabled = true
  (* the chat *)
  | does (on_screen (clicks_chat_cross | types_text _ | submits_text _ | presses_key_on_text _ _ _)) => True
  | does (on_screen (clicks_smile smile)) => smile ∈ smiles
  | does (on_screen (selects_files b _)) => b = has_FileReader
  | opens_files => True
  | downloads href name =>
      ∃ m, m ∈ Notices.list (st_messages (state (page_of d))) ∧ m_data m = Some href ∧ href ≠ "" ∧
           m_message m = name
  (* the form *)
  | does (form_types _) | does (form_picks _ _) => hung_up (page_of d) = true
  | does form_submits => joinEnabled (page_of d) = true ∧ form_nickname (d_form d) ≠ ""
  | does presses_play => autoplayError (media_of d) = true
  (* the tiles *)
  | plays t | minimizes t => on_page_tile x t
  | covers place => ∃ t, on_page_tile x t ∧ place = place_of t
  | opens_menu place b => ∃ t, on_page_tile x t ∧ place = place_of t ∧ b = negb (tile_menu x place)
  | does _ => False
  end.

(** ** Nothing else is *)

Lemma permits_rule (P : Command → Prop) n :
  Forall (λ h, (h.1 = "submit" → submits n = true) → ∀ e, Forall P (h.2 e)) (handlers_of n) →
  ∀ c, permits c n → P c.
Proof using Type.
  intros Hall c (event & f & e & Hin & Hs & Hc). rewrite Forall_forall in Hall.
  specialize (Hall (event, f) Hin Hs e). rewrite Forall_forall in Hall. by apply Hall.
Qed.

Definition only_allowed (x : Display) (n : Element) : Prop := ∀ c, permits c n → allowed x c.

Lemma every_Backdrop (P : Element → Prop) (b : bool) cs :
  (b = true → P (element "section" [className "dropdown-backdrop"; on "click" (λ _, cs)] [])) →
  every P (Backdrop b cs).
Proof using Type.
  intros HP. unfold Backdrop. destruct b; [|apply every_nil]. apply every_element; [auto|apply every_nil].
Qed.

(** Down one level of a tree. *)
Ltac see :=
  lazymatch goal with
  | |- every _ [] => apply every_nil
  | |- every _ [TransitionGroup _] => rewrite TransitionGroup_spec
  | |- every ?P [?n] =>
    let n' := eval hnf in n in
    change (every P [n']);
    lazymatch n' with
    | element _ _ _ => apply every_element
    | _ => apply every_leaf; [|exact I]
    end
  | |- every _ (_ :: _) => apply every_cons
  | |- every _ (_ ++ _) => apply every_app
  | |- every _ (when _ _) => apply every_when; intros
  | |- every _ (map _ _) => apply every_map; intros
  | |- every _ (Backdrop _ _) => apply every_Backdrop; intros
  | |- every ?P ?l => let l' := eval hnf in l in
    lazymatch l' with _ :: _ => idtac | [] => idtac end; change (every P l')
  end.

(** Elements without handlers, and leaves. *)
Ltac no_handlers := unfold only_allowed; apply permits_rule; exact (Forall_nil_2 _).
Ltac handlers :=
  unfold only_allowed; apply permits_rule; cbn [handlers_of attrs_of omap list_omap on_click];
  repeat lazymatch goal with
  | |- Forall _ (_ :: _) => apply Forall_cons; split; [cbn [fst snd]|]
  | |- Forall _ [] => apply Forall_nil_2
  end.
Ltac handler := handlers; intros _ ?; apply Forall_singleton; cbn [allowed]; auto.
Ltac look := repeat see; try no_handlers.

Lemma ToolbarButton_allowed x props :
  Forall (allowed x) (tb_onClick props) → every (only_allowed x) [ToolbarButton props].
Proof using Type.
  intros Hc. unfold ToolbarButton. look.
  - handlers. by intros _ _.
  - destruct (tb_badge props); look.
Qed.

Ltac button := apply ToolbarButton_allowed; apply Forall_singleton; cbn; auto.

Lemma DeviceDropdown_allowed x kind :
  in_call x → every (only_allowed x) [DeviceDropdown_render kind (desk x)].
Proof using Type.
  intros Hcall. unfold DeviceDropdown_render. apply every_element; [no_handlers|].
  apply every_cons; [button|]. apply every_app.
  - apply every_Backdrop. intros Hopen. handler.
  - look. handler. split; [done|]. by apply list_elem_of_fmap_2.
Qed.

Lemma Toolbar_allowed x : every (only_allowed x) (Toolbar_render (fullScreenEnabled x) (desk x)).
Proof using Type.
  unfold Toolbar_render. apply every_cons; [apply every_element; [no_handlers|]; apply every_cons; [button|]|].
  - apply every_app; [apply every_when; intros Hcall; button|]. apply every_element; [no_handlers|].
    apply every_cons; [button|]. unfold encryption_dialog. look; handler.
  - apply every_when. intros Hcall. apply every_element; [no_handlers|]. unfold toolbar_call.
    rewrite TransitionGroup_spec.
    apply every_cons; [button|]. apply every_cons; [by apply DeviceDropdown_allowed|].
    apply every_cons; [look|]. do 2 (apply every_cons; [button|]).
    apply every_cons; [by apply DeviceDropdown_allowed|].
    apply ToolbarButton_allowed. cbn. unfold when. destruct screenfull_isEnabled eqn:Hfull; [|constructor].
    by apply Forall_singleton.
Qed.

Lemma Notifications_allowed x name max ns : every (only_allowed x) [Notifications_render name max ns].
Proof using Type.
  unfold Notifications_render. rewrite TransitionGroup_spec. look.
  apply every_omap. intros id n _ Hn. destruct (ns !! id); [|done]. injection Hn as <-. look.
Qed.

Lemma Chat_allowed x message :
  let s := state (page_of (desk x)) in
  every (only_allowed x) [Chat_render (chatVisible (ui (d_screen (desk x)))) (st_nicknames s)
                            (Notices.list (st_messages s)) message].
Proof using Type.
  intros s. unfold Chat_render. look.
  - handler.
  - fold s. set (ms := Notices.list (st_messages s)).
    assert (∀ m, m ∈ ms → every (only_allowed x) [chat_item (st_nicknames s) m]) as Hitem.
    { intros m Hm. assert (every (only_allowed x) [message_render (st_nicknames s) m]) as Hmsg.
      { look. unfold MessageEntry. look.
        - destruct (m_data m); cbn; handlers.
        - destruct (given (m_data m)) as [data|] eqn:Hd; look. handler.
          exists m. unfold given in Hd. destruct (m_data m) as [s'|] eqn:Hdata; [|done]. cbn in Hd.
          case_decide; simplify_eq. done. }
      unfold chat_item. see; [no_handlers|]. case_decide; (see; [no_handlers|]);
        repeat (apply every_cons; [first [done|look]|]); apply every_nil || done || look. }
    destruct ms as [|m ms'] eqn:Hms; [look|]. apply every_map. intros m' Hm'. by apply Hitem.
  - handler.
  - handler.
  - handler.
  - handler.
  - handler.
Qed.

(** ** The form *)

(** Nothing in the form but its button submits it, and nothing but the nickname is
    required. *)
Definition form_children (d : Desk) : list Element :=
  [nickname_input (form_nickname (d_form d));
   device_select videoinput "video-input" (media_of d);
   device_select audioinput "audio-input" (media_of d);
   element "button" [attr "type" "submit"; flag "disabled" (negb (joinEnabled (page_of d)))]
     [text "Join Call"]] ++
  when (form_error (d_form d))
    [Dom.Message "message-error" [icon "MdError"; element "span" []
       [text "Could not get access to microphone or camera. Please grant the necessary permissions and try again."]]] ++
  Unsupported ++
  [div "network-info" [element "span" [] [text "Network: "; text network]]].

Definition join_form (d : Desk) : Element :=
  element "form" [className "media"; on "submit" (λ _, [does form_submits])] (form_children d).

Lemma form_children_every (P : Element → Prop) d :
  (∀ s, P (text s)) → (∀ i, P (icon i)) →
  (∀ tag attrs children, submit_button (element tag attrs children) = false →
     satisfied (element tag attrs children) = true → P (element tag attrs children)) →
  every P (nickname_input (form_nickname (d_form d)) :: []) →
  P (element "button" [attr "type" "submit"; flag "disabled" (negb (joinEnabled (page_of d)))]
       [text "Join Call"]) →
  every P (form_children d).
Proof using Type.
  intros Ht Hi He Hn Hb. unfold form_children, Unsupported. apply every_app; [|repeat see; auto].
  apply every_cons; [done|]. repeat see; auto.
Qed.
Lemma join_form_nodes d n :
  n ∈ nodes (join_form d) ↔ n = join_form d ∨ n ∈ all_nodes (form_children d).
Proof using Type. unfold join_form. cbn [nodes]. apply elem_of_cons. Qed.

Lemma join_form_submits d :
  submits (join_form d) = true ↔ joinEnabled (page_of d) = true ∧ form_nickname (d_form d) ≠ "".
Proof using Type.
  unfold submits. rewrite !andb_true_iff, existsb_exists, forallb_forall.
  setoid_rewrite <-list_elem_of_In. setoid_rewrite join_form_nodes. split.
  - intros [[_ (b & Hb & Hsub)] Hsat]. split.
    + destruct Hb as [->|Hb]; [done|].
      assert (every (λ n, submit_button n = true → joinEnabled (page_of d) = true) (form_children d)) as Hall.
      { apply form_children_every; try done; [congruence|repeat see; done|].
        cbn. by destruct (joinEnabled (page_of d)). }
      unfold every in Hall. rewrite Forall_forall in Hall. by eapply Hall.
    + intros Hn. specialize (Hsat _ (or_intror (in_first _ _ _ (below _ _ _ _ _ (next _ _ _ (here _ _)))))).
      rewrite Hn in Hsat. cbn in Hsat. by destruct (bool_decide _).
  - intros [Hj Hn]. split; [split; [done|]|].
    + eexists. split; [right; apply in_first; do 3 apply next; apply here|]. cbn. by rewrite Hj.
    + assert (every (λ n, satisfied n = true) (form_children d)) as Hall.
      { apply form_children_every; try done. repeat see; try done. unfold satisfied. cbn.
        rewrite !(bool_decide_false (_ ∧ _)) by (by intros [? ?]). apply negb_true_iff, andb_false_r. }
      intros n [->|Hin]; [done|]. unfold every in Hall. rewrite Forall_forall in Hall. by apply Hall.
Qed.

Lemma Media_allowed x : every (only_allowed x) [Media_render (desk x)].
Proof using Type.
  unfold Media_render. apply every_element; [no_handlers|]. apply every_cons.
  - look. handler.
  - unfold MediaForm_render. destruct (visible _) eqn:Hv; [|apply every_nil].
    apply (every_element _ "form" _ (form_children (desk x))).
    + handlers. intros Hs e. apply Forall_singleton. by apply join_form_submits, Hs.
    + unfold form_children, Unsupported. look; handler.
Qed.

(** ** The tiles *)

Lemma Video_allowed x names t :
  on_page_tile x t → every (only_allowed x) [Video_render names (tile_menu x (place_of t)) t].
Proof using Type.
  intros Ht. unfold Video_render, Video_menu, Dropdown. apply every_element; [no_handlers|].
  apply every_cons; [see; [|apply every_nil]|]. 
  - handler.
  - apply every_element; [no_handlers|]. apply every_cons; [look|].
    apply every_element; [no_handlers|]. apply every_cons; [look|apply every_app].
    + handler. eauto.
    + apply every_Backdrop. intros Hopen. handler. exists t. by rewrite Hopen.
    + apply every_element; [no_handlers|]. cbn [map]. look.
      * handlers. intros _ e. repeat apply Forall_cons_2; [..|apply Forall_nil_2]; cbn [allowed]; eauto.
      * handlers. intros _ e. repeat apply Forall_cons_2; [..|apply Forall_nil_2]; cbn [allowed]; eauto.
Qed.

Lemma Videos_allowed x :
  hung_up (page_of (desk x)) = false →
  every (only_allowed x) (Videos_render (tile_menu x) (page_of (desk x))).
Proof using Type.
  intros Hv. unfold Videos_render. apply every_cons;
    (apply every_element; [no_handlers|]); apply every_map; intros t Ht; apply Video_allowed;
    unfold on_page_tile, rendered_tiles; rewrite Hv; apply elem_of_app; auto.
Qed.

(** Whatever is offered is allowed. *)
Lemma displayed_allowed x : every (only_allowed x) (displayed x).
Proof using Type.
  unfold displayed, App_render. apply every_element; [no_handlers|].
  apply every_app; [apply Toolbar_allowed|]. apply every_app.
  - apply every_cons; [apply Notifications_allowed|]. apply every_cons; [apply Chat_allowed|].
    apply Media_allowed.
  - apply every_when. intros Hv%negb_true_iff. by apply Videos_allowed.
Qed.
(** ** All of it is *)

Definition offers (l : list Element) (c : Command) : Prop := ∃ n, n ∈ all_nodes l ∧ permits c n.

Lemma offers_below c tag attrs children l :
  offers children c → offers (element tag attrs children :: l) c.
Proof using Type. intros (n & ? & ?). exists n. split; [by apply below|done]. Qed.
Lemma offers_here c n l : permits c n → offers (n :: l) c.
Proof using Type. exists n. split; [apply here|done]. Qed.
Lemma offers_next c n l : offers l c → offers (n :: l) c.
Proof using Type. intros (m & ? & ?). exists m. split; [by apply next|done]. Qed.
Lemma offers_first c l l' : offers l c → offers (l ++ l') c.
Proof using Type. intros (m & ? & ?). exists m. split; [by apply in_first|done]. Qed.
Lemma offers_second c l l' : offers l' c → offers (l ++ l') c.
Proof using Type. intros (m & ? & ?). exists m. split; [by apply in_second|done]. Qed.
Lemma offers_when c (b : bool) l : b = true → offers l c → offers (when b l) c.
Proof using Type. by intros ->. Qed.
Lemma offers_map c {A} (f : A → Element) xs x : x ∈ xs → offers [f x] c → offers (map f xs) c.
Proof using Type. intros ? (m & ? & ?). exists m. split; [by eapply in_map|done]. Qed.

Lemma permits_event c n event f e :
  (event, f) ∈ handlers_of n → event ≠ "submit" → c ∈ f e → permits c n.
Proof using Type. intros Hin Hs Hc. exists event, f, e. by split_and!. Qed.

Lemma permits_button c props : c ∈ tb_onClick props → permits c (ToolbarButton props).
Proof using Type.
  intros Hc. refine (permits_event _ _ "click" (λ _, tb_onClick props) (Build_DomEvent "" "" "" false
    (flag_constraint false) []) _ _ Hc); [left|done].
Qed.

(** An event with this much of it given. *)
Definition event_with (time value key : string) (shift : bool) (c : Constraint)
    (files : list (string * Z * string * string * string)) : DomEvent :=
  {| e_time := time; e_value := value; e_key := key; e_shiftKey := shift; e_constraint := c;
     e_files := files |}.
Definition plain_event : DomEvent := event_with "" "" "" false (flag_constraint false) [].

(** The handler of an element for an event. *)
Ltac permit event e := eapply (permits_event _ _ event _ e); [cbn; repeat first [left|right]|done|left].

Lemma toolbar_offers x c :
  offers (Toolbar_render (fullScreenEnabled x) (desk x)) c → offers (displayed x) c.
Proof using Type. intros Hc. apply offers_below, offers_first, Hc. Qed.
Lemma call_offers x c :
  in_call x → offers (toolbar_call (fullScreenEnabled x) (desk x)) c → offers (displayed x) c.
Proof using Type.
  intros Hcall Hc. apply toolbar_offers, offers_next, offers_when; [done|]. by apply offers_below.
Qed.
Lemma chat_offers x c :
  (let s := state (page_of (desk x)) in let u := ui (d_screen (desk x)) in
   offers [Chat_render (chatVisible u) (st_nicknames s) (Notices.list (st_messages s)) (typed_message u)] c) →
  offers (displayed x) c.
Proof using Type.
  intros Hc. apply offers_below, offers_second, offers_first, offers_next.
  by apply (offers_first _ [_]).
Qed.
Lemma media_offers x c : offers [Media_render (desk x)] c → offers (displayed x) c.
Proof using Type. intros Hc. apply offers_below, offers_second, offers_first. by do 2 apply offers_next. Qed.
Lemma form_offers x c :
  hung_up (page_of (desk x)) = true → offers [join_form (desk x)] c → offers (displayed x) c.
Proof using Type.
  intros Hv Hc. apply media_offers, offers_below, offers_next. unfold MediaForm_render, visible.
  by rewrite Hv.
Qed.
Lemma video_offers x c t :
  on_page_tile x t →
  offers [Video_render (st_nicknames (state (page_of (desk x)))) (tile_menu x (place_of t)) t] c →
  offers (displayed x) c.
Proof using Type.
  unfold on_page_tile, rendered_tiles. destruct (hung_up _) eqn:Hv; [by intros ?%elem_of_nil|].
  intros Ht Hc. apply offers_below, offers_second, offers_second, offers_when; [by rewrite Hv|].
  apply elem_of_app in Ht as [Ht|Ht]; [|apply offers_next]; apply offers_below;
    by apply (offers_map _ _ _ t).
Qed.
Lemma dropdown_offers x c kind :
  in_call x → offers [DeviceDropdown_render kind (desk x)] c → offers (displayed x) c.
Proof using Type.
  intros Hcall Hc. apply call_offers; [done|]. unfold toolbar_call. destruct kind.
  - apply offers_next. by apply (offers_first _ [_]).
  - do 5 apply offers_next. by apply (offers_first _ [_]).
Qed.
Lemma Input_submits message : submits (Input_render message) = true.
Proof using Type. reflexivity. Qed.

Lemma input_offers x c : offers [Input_render (typed_message (ui (d_screen (desk x))))] c → offers (displayed x) c.
Proof using Type. intros Hc. apply chat_offers, offers_below. by do 2 apply offers_next. Qed.

Lemma dialog_offers x c : offers [encryption_dialog (desk x)] c → offers (displayed x) c.
Proof using Type.
  intros Hc. apply toolbar_offers, offers_below, offers_next, offers_second, offers_below.
  by apply offers_next.
Qed.

Lemma screen_offers x ev : allowed x (does (on_screen ev)) → offers (displayed x) (does (on_screen ev)).
Proof using Type.
  destruct ev as [| | | | | | | | |text| |key|text|time|key shift time|smile|b files]; cbn [allowed]; intros Ha; try done.
  - apply toolbar_offers, offers_below, offers_next, offers_first, offers_when; [done|].
    apply offers_here, permits_button. left.
  - apply chat_offers, offers_below, offers_below, offers_here. permit "click" plain_event.
  - apply call_offers; [done|]. do 3 apply offers_next. apply offers_here, permits_button. left.
  - apply call_offers; [done|]. do 4 apply offers_next. apply offers_here, permits_button. left.
  - apply call_offers; [done|]. apply offers_here, permits_button. left.
  - apply toolbar_offers, offers_below, offers_next, offers_second, offers_below, offers_here, permits_button.
    left.
  - apply dialog_offers, offers_below, offers_below, offers_next, offers_here. permit "click" plain_event.
  - apply dialog_offers, offers_below, offers_below, offers_here.
    permit "keyup" (event_with "" "" key false (flag_constraint false) []).
  - apply input_offers, offers_below, offers_next, offers_here.
    permit "change" (event_with "" text "" false (flag_constraint false) []).
  - apply input_offers, offers_here. eexists "submit", _, (event_with time "" "" false (flag_constraint false) []).
    split; [cbn; left|]. split; [intros _; apply Input_submits|left].
  - apply input_offers, offers_below, offers_next, offers_here.
    permit "keypress" (event_with time "" key shift (flag_constraint false) []).
  - apply input_offers, offers_below. do 2 apply offers_next. apply offers_below. do 2 apply offers_next.
    apply offers_below, offers_below, offers_below, offers_next, offers_below, (offers_map _ _ _ smile); [done|].
    apply offers_here. permit "click" plain_event.
  - subst b. apply input_offers, offers_below, offers_here.
    permit "change" (event_with "" "" "" false (flag_constraint false) files).
Qed.
Lemma desk_offers x ev : allowed x (does ev) → offers (displayed x) (does ev).
Proof using Type.
  destruct ev as [ev| |v|kind k| | | |kind|kind|kind k]; cbn [allowed]; [apply screen_offers| | | | | | | | |]; intros Ha; try done.
  - apply form_offers; [done|]. apply offers_below, offers_below, offers_next, offers_here.
    permit "change" (event_with "" v "" false (flag_constraint false) []).
  - apply form_offers; [done|]. apply offers_below. destruct kind; [do 1 apply offers_next|do 2 apply offers_next];
      apply offers_below, offers_here; permit "change" (event_with "" "" "" false k []).
  - assert (hung_up (page_of (desk x)) = true) as Hv.
    { destruct Ha as [Hj _]. unfold joinEnabled in Hj. by apply andb_true_iff in Hj as [[? _]%andb_true_iff _]. }
    apply form_offers; [done|]. apply offers_here.
    eexists "submit", _, plain_event. split; [cbn; left|]. split; [|left].
    intros _. by apply join_form_submits.
  - apply media_offers, offers_below, offers_below, offers_when; [done|].
    apply offers_below. do 2 apply offers_next. apply offers_here. permit "click" plain_event.
  - apply (dropdown_offers _ _ kind); [done|]. apply offers_below, offers_here, permits_button. left.
  - destruct Ha as [Hcall Hopen]. apply (dropdown_offers _ _ kind); [done|].
    apply offers_below, offers_next, offers_first. rewrite Hopen. apply offers_here. permit "click" plain_event.
  - destruct Ha as [Hcall (o & -> & Ho)%list_elem_of_fmap]. apply (dropdown_offers _ _ kind); [done|].
    apply offers_below, offers_next, offers_second, offers_below, (offers_map _ _ _ o); [done|].
    apply offers_here. permit "click" plain_event.
Qed.

Lemma allowed_offers x c : allowed x c → offers (displayed x) c.
Proof using Type.
  destruct c as [ev|t|t|place|place b|i| |href name|]; [apply desk_offers|..]; cbn [allowed]; intros Ha.
  - apply (video_offers _ _ t); [done|]. apply offers_below, offers_here. permit "click" plain_event.
  - apply (video_offers _ _ t); [done|].
    apply offers_below, offers_next, offers_below, offers_next, offers_below, offers_next, offers_second,
      offers_below, offers_here.
    eapply (permits_event _ _ "click" _ plain_event); [left|done|right; left].
  - destruct Ha as (t & Ht & ->). apply (video_offers _ _ t); [done|].
    apply offers_below, offers_next, offers_below, offers_next, offers_below, offers_next, offers_second,
      offers_below, offers_next, offers_here.
    eapply (permits_event _ _ "click" _ plain_event); [left|done|right; left].
  - destruct Ha as (t & Ht & -> & ->). apply (video_offers _ _ t); [done|].
    apply offers_below, offers_next, offers_below, offers_next, offers_below, offers_here.
    permit "click" plain_event.
  - subst i. apply toolbar_offers, offers_below, offers_here, permits_button. left.
  - destruct Ha as [Hcall Hfull]. apply call_offers; [done|]. do 6 apply offers_next.
    apply offers_here, permits_button. cbn. rewrite Hfull. left.
  - destruct Ha as (m & Hm & Hd & Hne & <-). apply chat_offers, offers_below, offers_next, offers_below.
    destruct (Notices.list _) as [|m0 ms] eqn:Hms; [by apply elem_of_nil in Hm|].
    apply (offers_map _ _ _ m); [done|]. apply offers_below.
    assert (∀ l, offers (message_render (st_nicknames (state (page_of (desk x)))) m :: l) (downloads href (m_message m))) as Hmsg.
    { intros l. apply offers_below. do 2 apply offers_next. apply offers_below, offers_second.
      rewrite Hd. cbn [given mbind option_bind]. rewrite decide_False by done. apply offers_here.
      permit "click" plain_event. }
    case_decide; apply offers_below; [|apply offers_next]; apply Hmsg.
  - apply input_offers, offers_below. do 2 apply offers_next. apply offers_below, offers_next, offers_here.
    permit "click" plain_event.
Qed.

(** C8. The page offers its user exactly what the state of the call allows.  By clicks
    and other events on the elements that are rendered, with forms submitted only
    when a browser would, a user can: hang up, record, share the desktop, open the
    chat and choose a device if and only if the call is on; type a nickname and pick
    the devices if and only if it is off; join it if and only if moreover the socket
    is connected, no stream is being asked for and there is a nickname; use a tile if
    and only if it is on the page; download a file if and only if a message brought
    it; and no other handler can be reached. *)
Theorem offered_iff_allowed x c : (∃ cs, offered x cs ∧ c ∈ cs) ↔ allowed x c.
Proof.
  rewrite offered_permits. split; [|apply allowed_offers].
  intros (n & Hn & Hc). pose proof (displayed_allowed x) as Hall. unfold every in Hall.
  rewrite Forall_forall in Hall. by apply (Hall n).
Qed.
(** * Sessions of the page *)

Definition legal (c : Command) : Prop := match c with does ev => desk_event ev | _ => True end.

Lemma allowed_legal x c : allowed x c → legal c.
Proof using Type. by destruct c as [[[]| | | | | | | | |]| | | | | | | |]. Qed.

Lemma offered_legal x cs : offered x cs → Forall legal cs.
Proof using Type.
  intros Ho. apply Forall_forall. intros c Hc. apply (allowed_legal x).
  assert (∃ n, n ∈ all_nodes (displayed x) ∧ permits c n) as (n & Hn & Hp)
    by (apply offered_permits; eauto).
  pose proof (displayed_allowed x) as Hall. unfold every in Hall. rewrite Forall_forall in Hall.
  by apply (Hall n).
Qed.

(** A command is an event of the desk, or leaves the desk alone. *)
Lemma run_command_desk c x r x' :
  legal c → run_command c x = (r, x') →
  desk x' = desk x ∨ ∃ ev r', desk_event ev ∧ desk_run ev (desk x) = (r', desk x').
Proof using Type.
  intros Hc Hrun. destruct c as [ev|t|t|place|place b|i| |href name|]; cbn [run_command] in Hrun;
    try (left; by injection Hrun as <- <-).
  - right. unfold desk_op in Hrun. destruct (desk_run ev (desk x)) as [r' d] eqn:Hd.
    injection Hrun as <- <-. by exists ev, r'.
  - unfold Video_play in Hrun. destruct (sp_stream t).
    + right. unfold desk_op in Hrun. destruct (screen_op _ (desk x)) as [r' d] eqn:Hd.
      injection Hrun as <- <-. exists (on_screen (happens (user_requests MEDIA_PLAY))), r'.
      split; [by intros pw|]. done.
    + left. destruct x as [[[]]]. by injection Hrun as <- <-.
  - right. unfold desk_op, handleMinimize in Hrun. destruct (screen_op _ (desk x)) as [r' d] eqn:Hd.
    injection Hrun as <- <-. exists (on_screen (happens (user_acts
      (MinimizeToggleAction (sp_userId t) (streamId ∘ shown_stream <$> sp_stream t))))), r'.
    split; [by intros pw|]. done.
Qed.

Lemma run_commands_session url cs : ∀ x r x',
  desk_session url (desk x) → Forall legal cs → run_commands cs x = (r, x') → desk_session url (desk x').
Proof using Type.
  induction cs as [|c cs IH]; intros x r x' Hx Hall Hrun; [by injection Hrun as <- <-|].
  apply Forall_cons in Hall as [Hc Hall]. unfold run_commands in Hrun. cbn [for_each] in Hrun.
  unfold mbind, eff_bind in Hrun. destruct (run_command c x) as [rc x1] eqn:Hr1.
  assert (desk_session url (desk x1)) as Hx1.
  { destruct (run_command_desk c x rc x1 Hc Hr1) as [->|(ev & r' & Hev & Hr)]; [done|].
    by eapply desk_goes_on. }
  destruct rc as [[]|e]; [by eapply (IH x1)|]. by injection Hrun as <- <-.
Qed.

Lemma beyond_event ev : beyond ev = true → desk_event ev.
Proof using Type.
  destruct ev as [[ev| | | | | | | | | | | | | | | |]| | | | | | | | |]; try done;
    intros Hb pw [=]. by subst ev.
Qed.

(** What users do with what is offered stays within what the desk allows for. *)
Lemma display_desk_session url x : display_session url x → desk_session url (desk x).
Proof using Type.
  induction 1 as [stored nickname ok|x cs r x' _ IH Ho Hrun|x ev r x' _ IH Hb Hrun|x b _ IH].
  - apply (desk_opens url stored nickname ok).
  - apply (run_commands_session url cs x r x'); [exact IH|by eapply offered_legal|exact Hrun].
  - unfold desk_op in Hrun. destruct (desk_run ev (desk x)) as [r' d] eqn:Hd. injection Hrun as <- <-.
    eapply desk_goes_on; [exact IH|by apply beyond_event|exact Hd].
  - done.
Qed.

(** ** The icon of the lock *)

Definition lock_says (x : Display) (n : Element) : Prop :=
  match n with
  | icon i => (i = "MdLock" → encrypted (ui (d_screen (desk x))) = true) ∧
              (i = "MdLockOpen" → encrypted (ui (d_screen (desk x))) = false)
  | _ => True
  end.

(** The other icons are not locks. *)
Ltac other_icons := repeat first [see | exact I | by split | progress cbn | case_match].

Lemma displayed_lock x : every (lock_says x) (displayed x).
Proof using Type.
  unfold displayed, App_render. apply every_element; [exact I|]. apply every_app; [|apply every_app].
  - other_icons.
  - apply every_cons; [|apply every_cons].
    + unfold Notifications_render. repeat see; try exact I.
      apply every_omap. intros id n _ Hn. destruct (_ !! id); [|done]. injection Hn as <-. other_icons.
    + other_icons.
    + unfold Media_render, MediaForm_render, Unsupported. other_icons.
  - other_icons.
    all: match goal with Hin : _ ∈ [_; _] |- _ =>
      apply elem_of_cons in Hin as [->|Hin]; [|apply list_elem_of_singleton in Hin as ->]; other_icons end.
Qed.

Lemma shows_icon_spec (name : string) (l : list Element) : shows_icon name l = true ↔ icon name ∈ all_nodes l.
Proof using Type.
  unfold shows_icon. rewrite existsb_exists. setoid_rewrite <-list_elem_of_In. split.
  - intros (n & Hn & Hi). destruct n; try done. by apply bool_decide_eq_true in Hi as ->.
  - intros Hn. exists (icon name). by rewrite bool_decide_true.
Qed.

(** Exactly one lock is shown. *)
Lemma lock_icons x :
  shows_icon "MdLock" (displayed x) = encrypted (ui (d_screen (desk x))) ∧
  shows_icon "MdLockOpen" (displayed x) = negb (encrypted (ui (d_screen (desk x)))).
Proof using Type.
  pose proof (displayed_lock x) as Hall. unfold every in Hall. rewrite Forall_forall in Hall.
  assert (icon (if encrypted (ui (d_screen (desk x))) then "MdLock" else "MdLockOpen")
    ∈ all_nodes (displayed x)) as Hin.
  { apply below, in_first, below, next, in_second, below.
    apply below, below.
    match goal with |- icon ?a ∈ all_nodes (icon ?b :: _) => assert (b = a) as ->; [|apply here] end.
    cbn. by repeat case_match. }
  split; apply eq_true_iff_eq; rewrite shows_icon_spec.
  - split; [intros Hi; by apply (proj1 (Hall _ Hi))|]. intros He. by rewrite He in Hin.
  - rewrite negb_true_iff. split; [intros Hi; by apply (proj2 (Hall _ Hi))|]. intros He. by rewrite He in Hin.
Qed.

Context `{SubtleCrypto}.

(** C5. The lock of the toolbar can be relied on, and it is always there.  Whatever
    users do with what the page offers them, and whatever happens to the page: either
    the closed lock is shown or the open one, not both; and of a worker that has
    handled exactly what it was posted: while the closed one is shown a password is
    set, and all that leaves the worker for a frame is sealed with a key of a
    password, of the last one when no derivation is under way; while the open one is
    shown, the worker has no password.  (Between the user's click and the worker's
    handling of the password, frames still leave as they did before.) *)
Theorem lock_is_honest url x es w :
  display_session url x →
  omap (λ e, match e with Posted msg => Some msg | KeyReady _ => None end) es
    = posted (codec (world (page_of (desk x)))) →
  worker_run es new_worker = Some w →
  shows_icon "MdLockOpen" (displayed x) = negb (shows_icon "MdLock" (displayed x)) ∧
  (shows_icon "MdLock" (displayed x) = true →
     password w ≠ "" ∧
     ∀ iv f out, InsertableStreams.encrypt w iv f = Ok out →
       out = [] ∨ ∃ pw, pw ≠ "" ∧ (InsertableStreams.pending w = [] → pw = password w) ∧
                        out = [sealed (derived pw url userId) iv f]) ∧
  (shows_icon "MdLockOpen" (displayed x) = true → password w = "").
Proof.
  intros Hx%display_desk_session Hes Hrun. destruct (desk_lock _ _ _ _ Hx Hes Hrun) as [Hlock Hopen].
  destruct (lock_icons x) as [-> ->]. split_and!; [done|done|]. by intros ?%negb_true_iff%Hopen.
Qed.
End views.

(** * Instances *)

#[local] Existing Instance some_platform.
#[local] Existing Instance some_lodash.
#[local] Existing Instance some_object_keys.
#[local] Existing Instance once_streams.
#[local] Existing Instance ascii_codec.
#[local] Existing Instance some_json.
#[local] Existing Instance toy_crypto.
#[local] Existing Instance CallSafety.demo_window.
#[local] Existing Instance some_classnames.
#[local] Existing Instance some_browser.
#[local] Existing Instance some_packages.

Definition fresh_display : Display := commit (opened_display None "Alice" "url" true).
Definition after_event (ev : DeskEvent) (x : Display) : Display := commit (desk_op (desk_run ev) x).2.
Definition after_commands (cs : list Command) (x : Display) : Display := commit (run_commands cs x).2.
(** The commands of a click on the node that comes at this place on the page. *)
Definition click_on (i : nat) (x : Display) : list Command :=
  commands (clicked (nth i (all_paths (displayed x)) [])) plain_event.

(** ** The closed lock *)

(** Alice types a passphrase and presses the button to save it. *)
Definition typed_display : Display := after_event (on_screen (types_passphrase "secret")) fresh_display.
Definition save_place : nat := 16.
Definition locked_display : Display := after_commands (click_on save_place typed_display) typed_display.

(** A click somewhere on the page is offered. *)
Lemma click_offered i x p : all_paths (displayed x) !! i = Some p → offered x (click_on i x).
Proof.
  intros Hp. unfold click_on. rewrite (nth_lookup_Some _ _ [] _ Hp).
  apply by_click. by eapply list_elem_of_lookup_2.
Qed.

Lemma click_session url i x p :
  display_session url x → all_paths (displayed x) !! i = Some p →
  display_session url (after_commands (click_on i x) x).
Proof.
  intros Hx Hp. unfold after_commands. destruct (run_commands _ x) as [r x'] eqn:Hr.
  by eapply user_uses; [exact Hx|by eapply click_offered|].
Qed.

Lemma event_session url ev x :
  display_session url x → beyond ev = true → display_session url (after_event ev x).
Proof.
  intros Hx Hev. unfold after_event. destruct (desk_op _ x) as [r x'] eqn:Hr. by eapply world_goes_on.
Qed.

Lemma locked_session : display_session "url" locked_display.
Proof.
  unfold locked_display. eapply click_session; [|unfold typed_display; vm_compute; reflexivity].
  apply event_session; [apply display_opens|done].
Qed.

(** The worker once it has the key. *)
Definition locked_events : list WorkerEvent :=
  [Posted (InitEvent "url" "alice"); Posted (PasswordEvent "secret"); KeyReady 0].

Definition locked_worker : Worker := default new_worker (worker_run locked_events new_worker).

Lemma locked_worker_run : worker_run locked_events new_worker = Some locked_worker.
Proof. vm_compute. reflexivity. Qed.

Lemma locked_posted :
  omap (λ e, match e with Posted msg => Some msg | KeyReady _ => None end) locked_events
  = posted (codec (world (page_of (desk locked_display)))).
Proof. vm_compute. reflexivity. Qed.

Lemma locked_shown : shows_icon "MdLock" (displayed locked_display) = true.
Proof. vm_compute. reflexivity. Qed.

Lemma lock_is_honest_witness :
  shows_icon "MdLock" (displayed locked_display) = true ∧
  shows_icon "MdLockOpen" (displayed locked_display) = false ∧
  password locked_worker ≠ "" ∧
  ∀ iv f out, InsertableStreams.encrypt locked_worker iv f = Ok out →
    out = [] ∨ ∃ pw, pw ≠ "" ∧ (InsertableStreams.pending locked_worker = [] → pw = password locked_worker) ∧
                     out = [sealed (derived pw "url" "alice") iv f].
Proof.
  destruct (lock_is_honest "url" locked_display locked_events locked_worker locked_session
    locked_posted locked_worker_run) as (Hopen & Hsealed & _).
  split; [exact locked_shown|]. split; [by rewrite Hopen, locked_shown|]. exact (Hsealed locked_shown).
Defined.
