(* ===== verification/ChatScreen.v ===== *)
(** The chat from the text area of one page to the screen of another. *)

From S2P Require Import Prelude Numbers Bytes Header TextCodec Encoder Decoder Codec Objects InsertableStreams InsertableCodec Actions World Streams Peers Media Users Notices Async Store PeerActions CallActions Chat CallSafety Session Capture Devices JoinForm Videos Screen UiSession Desk Dom Views Display.

#[local] Abbreviation list := Datatypes.list.

(** * What can be read in the panel *)

(** Who, when and what. *)
Definition entry (names : Nicknames) (m : Notices.Message) : list string :=
  [getNickname names (m_userId m); m_timestamp m; m_message m].

Definition names_of (p : Page) : Nicknames := st_nicknames (state p).

(** The panel with the messages. *)
Definition history (p : Page) : list string := texts (chat_history (names_of p) (messages_of p)).

Lemma chat_item_texts names m : texts (chat_item names m) = entry names m.
Proof.
  assert (texts (MessageEntry m) = [m_message m]) as Hm.
  { unfold MessageEntry. cbn. rewrite map_app, concat_app.
    destruct (default false (m_image m)); cbn; by destruct (given (m_data m)). }
  assert (texts (message_render names m) = entry names m) as Hr.
  { transitivity ([getNickname names (m_userId m); m_timestamp m] ++ texts (MessageEntry m) ++ []); [done|].
    by rewrite Hm. }
  rewrite <-Hr. unfold chat_item. case_decide.
  - transitivity ((texts (message_render names m) ++ []) ++ []); [done|]. by rewrite !app_nil_r.
  - transitivity ((texts (message_render names m) ++ []) ++ []); [done|]. by rewrite !app_nil_r.
Qed.

Lemma history_texts names ms :
  ms ≠ [] → texts (chat_history names ms) = concat (map (entry names) ms).
Proof.
  intros Hne. assert (∀ ms, concat (map texts (map (chat_item names) ms)) = concat (map (entry names) ms)) as Hall.
  { intros l. induction l as [|m l IH]; [done|]. cbn [map concat]. by rewrite chat_item_texts, IH. }
  destruct ms as [|m ms]; [done|]. apply (Hall (m :: ms)).
Qed.

(** One more message comes after those there were; before the first there is a
    notice, and nothing else. *)
Definition so_far (p : Page) : list string := match messages_of p with [] => [] | _ => history p end.

Lemma history_snoc p q m :
  names_of q = names_of p → messages_of q = messages_of p ++ [m] →
  history q = so_far p ++ entry (names_of p) m.
Proof.
  intros Hn Hm. unfold history, so_far. rewrite Hn, Hm, history_texts by (by destruct (messages_of p)).
  rewrite map_app, concat_app. f_equal. destruct (messages_of p) eqn:Hp; [done|].
  rewrite <-Hp. unfold history. rewrite history_texts; [done|]. by rewrite Hp.
Qed.

(** * The buttons *)

Definition send_button : Element :=
  element "input" [attr "type" "submit"; attr "value" "Send"; className "chat-controls-buttons-send"] [].
Definition send_file_button : Element :=
  element "input" [attr "type" "submit"; attr "value" "Send File";
                   className "chat-controls-buttons-send-file"; on_click [opens_files]] [].

Section screen.
Context `{Platform} `{Lodash} `{ObjectKeys} `{EncodedStreams} `{TextCodec} `{!JSON} `{Window}
  `{ClassNames} `{Browser} `{Packages}.

(** The way from a button up to the page. *)
Definition controls (x : Display) : Element :=
  nth 2 (match Input_render (typed_message (ui (d_screen (desk x)))) with
         | element _ _ children => children
         | _ => []
         end) (text "").
Definition form_path (x : Display) (n : Element) : list Element :=
  let s := state (page_of (desk x)) in
  let u := ui (d_screen (desk x)) in
  [n; controls x; Input_render (typed_message u);
   Chat_render (chatVisible u) (st_nicknames s) (Notices.list (st_messages s)) (typed_message u);
   App_render (fullScreenEnabled x) (tile_menu x) (desk x)].

Lemma form_path_there x n :
  n = send_button ∨ n = send_file_button → form_path x n ∈ all_paths (displayed x).
Proof using Type.
  intros Hn. apply elem_of_concat_map. eexists. split; [left|]. unfold form_path.
  set (form := Input_render _). set (chat := Chat_render _ _ _ _).
  apply (paths_child _ _ _ chat [n; controls x; form; chat]).
  { apply elem_of_app. right. apply elem_of_app. left. right. left. }
  apply (paths_child _ _ _ form [n; controls x; form]); [right; right; left|].
  apply (paths_child _ _ _ (controls x) [n; controls x]); [right; right; left|].
  apply (paths_child _ _ _ n [n]); [|destruct Hn as [-> | ->]; left].
  destruct Hn as [-> | ->]; [left|right; left].
Qed.

Lemma send_clicked x e :
  commands (clicked (form_path x send_button)) e = [does (on_screen (submits_text (e_time e)))].
Proof using Type. reflexivity. Qed.
Lemma send_file_clicked x e :
  commands (clicked (form_path x send_file_button)) e =
  [opens_files; does (on_screen (submits_text (e_time e)))].
Proof using Type. reflexivity. Qed.
(** ** Submitting *)

(** The page once the text in the text area has been sent. *)
Definition text_sent (text time : string) (p : Page) : Page :=
  show_message (TextMessage ME text time)
    (set_encoder (encode (encoder p) (message_data (TextMessage userId text time))).1 (worker_events p) p).

Definition with_text_sent (time : string) (x : Display) : Display :=
  let s := d_screen (desk x) in
  set_desk (set_screen {| ui := set_typed_message "" (ui s);
                          page := text_sent (typed_message (ui s)) time (page s) |} (desk x)) x.

Lemma submit_run time x :
  typed_message (ui (d_screen (desk x))) ≠ "" →
  run_command (does (on_screen (submits_text time))) x = (Ok tt, with_text_sent time x).
Proof using Type.
  intros Hne. cbn [run_command desk_run ui_run]. unfold desk_op, screen_op, submit.
  rewrite (bind_runs _ _ (d_screen (desk x)) (typed_message (ui (d_screen (desk x)))) (d_screen (desk x))) by done.
  rewrite decide_False by done.
  rewrite (bind_runs _ _ (d_screen (desk x)) tt {| ui := ui (d_screen (desk x));
    page := text_sent (typed_message (ui (d_screen (desk x)))) time (page (d_screen (desk x))) |}).
  - done.
  - unfold on_page, sendText, sendMessage. by rewrite dispatch_send.
Qed.

(** C40. Choosing a file to send sends the text that is being written: the button for
    that submits the form too.  Clicking it opens the browser's dialog and at once
    sends whatever is in the text area, to everyone and into the chat of this page,
    and empties the text area. *)
Theorem send_file_sends_text x e :
  let text := typed_message (ui (d_screen (desk x))) in
  text ≠ "" →
  ∃ path x', path ∈ all_paths (displayed x) ∧ head path = Some send_file_button ∧
    run_commands (commands (clicked path) e) x = (Ok tt, x') ∧
    outside x' = outside x ++ [opens_files] ∧
    typed_message (ui (d_screen (desk x'))) = "" ∧
    encoder (page_of (desk x')) =
      (encode (encoder (page_of (desk x))) (message_data (TextMessage userId text (e_time e)))).1 ∧
    history (page_of (desk x')) = so_far (page_of (desk x)) ++
      [getNickname (names_of (page_of (desk x))) ME; toLocaleString (e_time e); text].
Proof.
  intros text Hne. exists (form_path x send_file_button), (with_text_sent (e_time e) (add_outside opens_files x)).
  split; [by apply form_path_there; right|]. split; [done|]. split.
  - rewrite send_file_clicked. unfold run_commands. cbn [for_each].
    rewrite (bind_runs _ _ x tt (add_outside opens_files x)) by done.
    by rewrite (bind_runs _ _ _ _ _ (submit_run (e_time e) (add_outside opens_files x) Hne)).
  - split_and!; [done|done|done|]. by apply (history_snoc (page_of (desk x))
      (page_of (desk (with_text_sent (e_time e) (add_outside opens_files x))))
      {| m_userId := ME; m_message := text; m_timestamp := toLocaleString (e_time e);
         m_data := None; m_image := None; m_system := None |}).
Qed.
End screen.

(** * From page to page *)

Section delivery.
Context `{Lodash} `{ObjectKeys} `{TextCodec} `{!JSON} `{ClassNames} `{Browser} `{Packages}.
Context (P_s P_r : Platform) (E_s E_r : EncodedStreams) (W_s W_r : Window).

(** The sender's page on the screen, and what its commands do. *)
Definition sender_sees (x : Display) : list Element := @displayed _ W_s _ _ _ x.
Definition sender_runs (cs : list Command) : eff Display unit :=
  @run_commands P_s _ _ E_s _ _ W_s cs.

(** C10. What one user types is what the others read.  When a user with text in the text
    area clicks the button that sends it, the text area is emptied and the chat of
    the page shows the text under their own name; once the encoder has run, every
    chunk of the message has been sent on each of the peers there are, in order,
    whichever of them throw; and on a page that is given those chunks by its peer,
    the chat shows one more entry: the name that page has for the sender, the time
    as it writes it, and the text as it was typed. *)
Theorem chat_delivery x e :
  let p := page_of (desk x) in
  let text := typed_message (ui (d_screen (desk x))) in
  let m := TextMessage (@userId W_s) text (e_time e) in
  text ≠ "" → counter_ok (counter (encoder p)) → encodable (encoder p) (sender_data W_s m) →
  scheduled (encoder p) = [] → worker_events p = [] →
  ∃ path x1 p2 p3 n chunks,
    path ∈ all_paths (sender_sees x) ∧ head path = Some send_button ∧
    sender_runs (commands (clicked path) e) x = (Ok tt, x1) ∧
    typed_message (ui (d_screen (desk x1))) = "" ∧
    history (page_of (desk x1)) =
      so_far p ++ [getNickname (names_of p) ME; @toLocaleString W_s (e_time e); text] ∧
    run_encoder (page_of (desk x1)) = (Ok tt, p2) ∧
    @run_worker_events P_s _ _ E_s _ _ W_s n p2 = (Ok tt, p3) ∧
    worker_events p3 = [] ∧ state p3 = state (page_of (desk x1)) ∧
    effects (world p3) = effects (world p) ++ (chunks ≫= chunk_log (st_peers (state p))) ∧
    ∀ r peer h,
      handlers r !! peer = Some h →
      ph_decoder h !! chunk_id (@userId W_s) (encode (encoder p) (sender_data W_s m)).2 = None →
      ∃ q, for_each (page_receives P_r E_r W_r peer) chunks r = (Ok tt, q) ∧
        history q =
          so_far r ++ [getNickname (names_of r) (@userId W_s); @toLocaleString W_r (e_time e); text].
Proof.
  intros p text m Hne Hc He Hsch Hw.
  destruct (chat_delivered P_s P_r E_s E_r W_s W_r m p Hc He Hsch Hw)
    as (s1 & p2 & p3 & n & chunks & Hsend & _ & Henc & Hrun & Hev & Hst & Heff & Hall).
  exists (@form_path _ W_s _ _ _ x send_button), (@with_text_sent _ _ W_s (e_time e) x), p2, p3, n, chunks.
  assert (s1 = page_of (desk (@with_text_sent _ _ W_s (e_time e) x))) as ->.
  { unfold page_sends in Hsend. rewrite dispatch_send in Hsend. by injection Hsend as <-. }
  split_and!; [by apply form_path_there; left|done| |done| |done|done|done|done|done|].
  - unfold sender_runs. rewrite send_clicked. unfold run_commands. cbn [for_each].
    by rewrite (bind_runs _ _ _ _ _ (submit_run (e_time e) x Hne)).
  - by apply (history_snoc p (page_of (desk (@with_text_sent _ _ W_s (e_time e) x)))
      {| m_userId := ME; m_message := text; m_timestamp := @toLocaleString W_s (e_time e);
         m_data := None; m_image := None; m_system := None |}).
  - intros r peer h Hh Hd. exists (receiver_shows W_r m r). split; [by eapply Hall|].
    by apply (history_snoc r (receiver_shows W_r m r)
      {| m_userId := @userId W_s; m_message := text; m_timestamp := @toLocaleString W_r (e_time e);
         m_data := None; m_image := None; m_system := None |}).
Qed.
End delivery.

(** * Instances *)

#[local] Existing Instance some_platform.
#[local] Existing Instance some_lodash.
#[local] Existing Instance some_object_keys.
#[local] Existing Instance once_streams.
#[local] Existing Instance ascii_codec.
#[local] Existing Instance some_json.
#[local] Existing Instance some_classnames.
#[local] Existing Instance some_browser.
#[local] Existing Instance some_packages.

(** Alice has written something. *)
Definition writing : Display := {|
  desk := {| d_screen := {| ui := set_typed_message "hello" (new_ui 0); page := alice_page |};
             d_form := new_form alice_page; d_storage := None; d_menus := λ _, new_dropdown; d_waiting := [] |};
  fullScreenEnabled := false; tiles := ∅; outside := [] |}.
Definition at_ten : DomEvent :=
  {| e_time := "10:00"; e_value := ""; e_key := ""; e_shiftKey := false;
     e_constraint := flag_constraint false; e_files := [] |}.

Lemma chat_delivery_witness :
  let alice := some_window "alice" in
  ∃ x1 p2 p3 n chunks,
    history (page_of (desk x1)) = ["Alice"; "10:00"; "hello"] ∧
    @run_encoder (page_of (desk x1)) = (Ok tt, p2) ∧
    @run_worker_events _ _ _ _ _ _ alice n p2 = (Ok tt, p3) ∧
    effects (world p3) = chunks ≫= chunk_log {["bob" := 3]} ∧
    ∃ q, for_each (page_receives some_platform once_streams (some_window "bob") 7) chunks bob_page = (Ok tt, q) ∧
      history q = ["alice"; "10:00"; "hello"].
Proof.
  intros alice.
  destruct (chat_delivery some_platform some_platform once_streams once_streams alice
    (some_window "bob") writing at_ten)
    as (path & x1 & p2 & p3 & n & chunks & _ & _ & _ & _ & H1' & H2' & H3' & _ & _ & H4' & H5').
  - discriminate.
  - vm_compute. split; congruence.
  - vm_compute. split_and!; congruence || done.
  - reflexivity.
  - reflexivity.
  - exists x1, p2, p3, n, chunks. split; [exact H1'|]. split; [exact H2'|]. split; [exact H3'|]. split; [exact H4'|].
    apply (H5' bob_page 7 (new_handler "alice")); vm_compute; reflexivity.
Defined.

Lemma send_file_sends_text_witness :
  let _ := some_window "alice" in
  ∃ path x', path ∈ all_paths (displayed writing) ∧
    run_commands (commands (clicked path) at_ten) writing = (Ok tt, x') ∧
    outside x' = [opens_files] ∧ history (page_of (desk x')) = ["Alice"; "10:00"; "hello"].
Proof.
  intros W. destruct (send_file_sends_text writing at_ten) as (path & x' & Hp & _ & Hr & Ho & _ & _ & Hh);
    [discriminate|].
  by exists path, x'.
Defined.
