(* ===== verification/Tiles.v ===== *)
(** The tiles of the videos on the screen: which instances of [Video] are mounted, and
    what their elements play. *)

From S2P Require Import Prelude Bytes TextCodec Encoder Decoder Objects InsertableStreams InsertableCodec Actions World Streams StreamsInv StreamsSafety Peers Media Users Notices Async Store PeerActions CallActions Chat CallSafety Session SessionSafety Capture Devices JoinForm Videos Screen UiSession Desk Dom Views Display ViewsSafety.

#[local] Abbreviation list := Datatypes.list.

(** * Keys of tiles *)

(** The id of a user of the server: not empty, and without the underscore that keys
    are made with. *)
Fixpoint no_underscore (s : string) : bool :=
  match s with
  | EmptyString => true
  | String c s => bool_decide (c ≠ "_"%char) && no_underscore s
  end.

Definition plain_id (u : string) : Prop := u ≠ "" ∧ no_underscore u = true.

Lemma key_parts u u' x x' :
  no_underscore u = true → no_underscore u' = true →
  u +:+ "_" +:+ x = u' +:+ "_" +:+ x' → u = u' ∧ x = x'.
Proof.
  revert u'. induction u as [|c u IH]; intros [|c' u']; cbn; intros Hu Hu' Heq.
  - injection Heq as Heq. done.
  - injection Heq as <- _. done.
  - injection Heq as -> _. done.
  - injection Heq as <- Heq. apply andb_true_iff in Hu as [_ Hu], Hu' as [_ Hu'].
    by destruct (IH u' Hu Hu' Heq) as [-> ->].
Qed.

Lemma key_not_ME u x x' : plain_id u → getStreamKey u x ≠ getStreamKey ME x'.
Proof.
  intros [Hne Hu] Hk. destruct u as [|c u]; [done|]. injection Hk as -> _. done.
Qed.

Lemma key_inj u x x' : getStreamKey u (Some x) = getStreamKey u (Some x') → x = x'.
Proof.
  unfold getStreamKey. intros Hk. assert (∀ a b, u +:+ a = u +:+ b → a = b) as Hu.
  { clear Hk. induction u as [|c u IH]; [done|]. intros a b [= Hab]. by apply IH. }
  apply Hu in Hk. by injection Hk.
Qed.

Lemma tiles_of_keys ws l u ss :
  NoDup (streamId ∘ shown_stream <$> ss) → NoDup (sp_key <$> tiles_of ws l u ss).
Proof.
  intros Hnd. destruct ss as [|s ss]; [apply NoDup_singleton|]. cbn [tiles_of].
  assert (sp_key <$> (tile ws l u ∘ Some <$> s :: ss)
    = (λ x, getStreamKey u (Some x)) <$> (streamId ∘ shown_stream <$> s :: ss)) as ->
    by (by rewrite <-!list_fmap_compose).
  apply NoDup_fmap_2_strong; [|done]. intros x y _ _. apply key_inj.
Qed.

Section tiles.
Context `{Platform} `{Lodash} `{ObjectKeys} `{EncodedStreams} `{TextCodec} `{!JSON} `{Window}
  `{ClassNames} `{Browser} `{Packages}.

(** Tiles have different keys when the users' ids are plain, and this user's streams
    have different ids. *)
Lemma all_tiles_keys ws names ss :
  (∀ u, is_Some (names !! u) → u ≠ ME → plain_id u) →
  NoDup (streamId ∘ ls_stream <$> (object_entries (localStreams ss)).*2) →
  (∀ u, NoDup (streamId <$> streams_of ss u)) →
  NoDup (sp_key <$> all_tiles ws names ss).
Proof using Type.
  intros Hn Hl Hs. unfold all_tiles. rewrite fmap_app. fold (remote_tiles ws names ss).
  apply NoDup_app. split_and!.
  - apply tiles_of_keys. by rewrite <-list_fmap_compose.
  - intros k (t & -> & Ht)%list_elem_of_fmap (t' & Hk & Ht')%list_elem_of_fmap.
    apply tiles_of_key in Ht as (Hkt & _ & Hu & _).
    apply elem_of_remote_tiles in Ht' as (_ & Hu' & Hn' & _ & Ht').
    rewrite Hkt, Hu, Ht' in Hk. cbn [sp_key tile] in Hk. symmetry in Hk. revert Hk.
    apply key_not_ME. by apply Hn.
  - unfold remote_tiles. pose proof (object_entries_keys names) as Hnd.
    assert (∀ u, u ∈ filter (λ u, u ≠ ME) (object_entries names).*1 → plain_id u) as Hp.
    { intros u [Hu Hin]%list_elem_of_filter. apply Hn; [by apply object_entries_key|done]. }
    apply (NoDup_filter (λ u, u ≠ ME)) in Hnd.
    induction (filter (λ u, u ≠ ME) (object_entries names).*1) as [|u us IH]; [constructor|].
    cbn [mbind list_bind]. rewrite fmap_app. apply NoDup_cons in Hnd as [Hnin Hnd].
    apply NoDup_app. split_and!.
    + apply tiles_of_keys. rewrite streams_of_user_streams, <-list_fmap_compose. apply Hs.
    + intros k (t & -> & Ht)%list_elem_of_fmap (t' & Hk & Ht')%list_elem_of_fmap.
      apply list_elem_of_bind in Ht' as (u' & Ht' & Hu').
      apply tiles_of_key in Ht as (Hkt & _ & Hu & _), Ht' as (Hkt' & _ & Hu2 & _).
      rewrite Hkt, Hkt', Hu, Hu2 in Hk.
      apply key_parts in Hk as [-> _]; [done|apply Hp; by left|apply Hp; by right].
    + apply IH; [done|]. intros u' Hu'. apply Hp. by right.
Qed.

(** What an element plays. *)
Definition plays_stream (v : VideoElement) (s : option ShownStream) : Prop :=
  if has_srcObject v then srcObject v = stream ∘ shown_stream <$> s
  else src v = default "" (s ≫= url ∘ shown_stream).

(** The element is of this browser. *)
Definition native (ts : TileState) : Prop := has_srcObject (video_element ts) = srcObject_in_video.
Definition all_native (x : Display) : Prop := map_Forall (λ _, native) (tiles x).

Lemma Video_updated_plays t ts :
  native ts →
  native (Video_updated t ts) ∧ v_muted (video_element (Video_updated t ts)) = sp_muted t ∧
  plays_stream (video_element (Video_updated t ts)) (sp_stream t).
Proof using Type.
  intros Hn. destruct (setVideoMetaData_plays t (video_element ts)) as (v' & Hv & Hm & Hp).
  assert (Video_updated t ts = set_video_element v' ts) as -> by (unfold Video_updated; by rewrite Hv).
  unfold native, plays_stream. cbn [set_video_element video_element].
  assert (has_srcObject v' = has_srcObject (video_element ts)) as Heq.
  { cbn in Hv. injection Hv as <-. cbn. by repeat case_match. }
  by rewrite Heq.
Qed.

Lemma page_streams_rendered p :
  rendered_tiles p ≡ₚ if hung_up p then [] else page_tiles p.
Proof using Type.
  unfold rendered_tiles, page_streams, page_tiles. destruct (hung_up p); [done|].
  rewrite getStreams_filters. cbn [fst snd]. apply filter_app_complement.
Qed.

(** ** After a rendering *)

Lemma commit_tile x t :
  NoDup (place_of <$> rendered_tiles (page_of (desk x))) → t ∈ rendered_tiles (page_of (desk x)) →
  tiles (commit x) !! place_of t = Some (Video_updated t (default new_tile (tiles x !! place_of t))).
Proof using Type.
  intros Hnd Ht. unfold commit. cbn. apply elem_of_list_to_map_1.
  - by rewrite <-list_fmap_compose.
  - by apply (list_elem_of_fmap_2 (λ t, (place_of t, Video_updated t (default new_tile (tiles x !! place_of t))))).
Qed.

Lemma commit_native x : all_native x → all_native (commit x).
Proof using Type.
  intros Hx place ts Hts%elem_of_list_to_map_2. apply list_elem_of_fmap in Hts as (t & [= -> ->] & _).
  apply Video_updated_plays. destruct (tiles x !! place_of t) as [ts'|] eqn:Ht; [by apply (Hx _ _ Ht)|done].
Qed.

Lemma run_command_native c x r x' : run_command c x = (r, x') → all_native x → all_native x'.
Proof using Type.
  assert (∀ (m : eff Desk unit), desk_op m x = (r, x') → all_native x → all_native x') as Hdesk.
  { intros m. unfold desk_op. destruct (m (desk x)). by intros [= <- <-]. }
  assert (∀ f place, (∀ ts, native ts → native (f ts)) →
    all_native x → all_native (set_tiles (alter f place) x)) as Halter.
  { intros f place Hf Hx pl ts. cbn. rewrite lookup_alter_Some.
    intros [(-> & ts' & Hts & ->)|[_ Hts]]; [|by eapply Hx]. by eapply Hf, Hx. }
  destruct c; cbn [run_command]; try (by apply Hdesk); intros [= <- <-] Hx; try done; by apply Halter.
Qed.

Lemma run_commands_native cs : ∀ x r x', run_commands cs x = (r, x') → all_native x → all_native x'.
Proof using Type.
  unfold run_commands. induction cs as [|c cs IH]; intros x r x' Hrun Hx; [by injection Hrun as <- <-|].
  cbn [for_each] in Hrun. unfold mbind, eff_bind in Hrun.
  destruct (run_command c x) as [[[]|e] x1] eqn:Hc.
  - apply (IH x1 r x' Hrun). by eapply run_command_native.
  - injection Hrun as <- <-. by eapply run_command_native.
Qed.

Lemma session_committed url x : display_session url x → ∃ y, x = commit y ∧ all_native y.
Proof using Type.
  induction 1 as [stored nickname ok|x cs r x' _ (y & -> & Hy) _ Hrun|x ev r x' _ (y & -> & Hy) _ Hrun|x b _ (y & -> & Hy)];
    eexists; (split; [reflexivity|]).
  - intros place ts. cbn. by rewrite lookup_empty.
  - eapply run_commands_native; [exact Hrun|]. by apply commit_native.
  - unfold desk_op in Hrun. destruct (desk_run _ _). injection Hrun as <- <-. by apply commit_native in Hy.
  - by apply commit_native in Hy.
Qed.

(** Places differ when keys do; and keys do when ids are as they should be. *)
Lemma places_differ p :
  NoDup (sp_key <$> page_tiles p) → NoDup (place_of <$> rendered_tiles p).
Proof using Type.
  intros Hnd. apply (NoDup_fmap_1 snd). rewrite <-list_fmap_compose, page_streams_rendered.
  destruct (hung_up p); [apply NoDup_nil_2|exact Hnd].
Qed.

Lemma session_places url p :
  session url p →
  (∀ u, is_Some (st_nicknames (state p) !! u) → u ≠ ME → plain_id u) →
  NoDup (streamId ∘ ls_stream <$> (object_entries (localStreams (st_streams (state p)))).*2) →
  NoDup (place_of <$> rendered_tiles p).
Proof using Type.
  intros (L & [_ [[Hi _] _ _ _ _ _]] & _)%session_inv Hn Hl. apply places_differ, all_tiles_keys; [done..|].
  apply (inv_streams _ _ _ Hi).
Qed.

(** C16. The videos on the screen play what they should.  Whatever users do with what the
    page offers, and whatever happens to the page: while the page is in a call, or
    trying to be, the two rows that [getStreams] fills show every tile once and no
    other, and none when it has hung up; and as long as no two tiles of a row have
    the same key, the video element of each tile plays the stream of the tile, if
    there is one, and is muted exactly when the stream is this user's own.  No two
    tiles have the same key in a session where the users' ids are not empty and
    have no underscore, and this user's own streams have different ids. *)
Theorem videos_play url x :
  display_session url x →
  let p := page_of (desk x) in
  rendered_tiles p ≡ₚ (if hung_up p then [] else page_tiles p) ∧
  (NoDup (place_of <$> rendered_tiles p) → ∀ t, t ∈ rendered_tiles p →
     ∃ ts, tiles x !! place_of t = Some ts ∧
       has_srcObject (video_element ts) = srcObject_in_video ∧
       plays_stream (video_element ts) (sp_stream t) ∧
       v_muted (video_element ts) = bool_decide (sp_userId t = ME ∧ is_Some (sp_stream t))) ∧
  (session url p →
   (∀ u, is_Some (st_nicknames (state p) !! u) → u ≠ ME → plain_id u) →
   NoDup (streamId ∘ ls_stream <$> (object_entries (localStreams (st_streams (state p)))).*2) →
   NoDup (place_of <$> rendered_tiles p)).
Proof.
  intros (y & -> & Hy)%session_committed p. split; [apply page_streams_rendered|].
  split; [|apply session_places]. intros Hnd t Ht. eexists. split; [by apply commit_tile|].
  destruct (Video_updated_plays t (default new_tile (tiles y !! place_of t))) as (Hn & Hm & Hp).
  { destruct (tiles y !! place_of t) eqn:Htl; [by apply (Hy _ _ Htl)|done]. }
  split_and!; [exact Hn|exact Hp|]. rewrite Hm.
  rewrite page_streams_rendered in Ht. destruct (hung_up _); [by apply elem_of_nil in Ht|].
  unfold page_tiles, all_tiles in Ht. apply elem_of_app in Ht as [Ht|Ht].
  - apply tiles_of_key in Ht as (_ & _ & Hu & _ & _ & Ht). rewrite Hu, Ht. cbn.
    apply bool_decide_ext. naive_solver.
  - apply elem_of_remote_tiles in Ht as (_ & Hu & _ & _ & Ht). rewrite Ht. cbn.
    symmetry. apply bool_decide_eq_false. naive_solver.
Qed.
End tiles.

(** * Instances *)

#[local] Existing Instance some_platform.
#[local] Existing Instance some_lodash.
#[local] Existing Instance some_object_keys.
#[local] Existing Instance once_streams.
#[local] Existing Instance ascii_codec.
#[local] Existing Instance some_json.
#[local] Existing Instance CallSafety.demo_window.
#[local] Existing Instance some_classnames.
#[local] Existing Instance some_browser.
#[local] Existing Instance some_packages.

(** Alice presses the button to join the call, the browser gives her camera's stream,
    and the page dials. *)
Definition camera : MediaStream := {| stream_ref := 0; stream_id := "camera" |}.
Definition camera_payload : AddLocalStreamPayload :=
  {| als_stream := camera; als_type := StreamTypeCamera |}.
Definition connected_display : Display :=
  after_event (on_screen (happens (server_message ev_connect))) fresh_display.
Definition join_place : nat := 85.
Definition dialling_events : list DeskEvent :=
  [on_screen (happens (stream_given []));
   on_screen (happens (media_settled (settlement MEDIA_STREAM (inl camera_payload))));
   on_screen (happens Session.reaction_due); form_goes_on 0 None].
Definition dialling_display : Display :=
  foldl (λ x ev, after_event ev x) (after_commands (click_on join_place connected_display) connected_display)
    dialling_events.

Lemma dialling_session : display_session "url" dialling_display.
Proof.
  unfold dialling_display, dialling_events. cbn [foldl]. do 4 (apply event_session; [|done]).
  eapply click_session; [apply event_session; [apply display_opens|done]|vm_compute; reflexivity].
Qed.

Definition dialling_tile : StreamProps :=
  nth 0 (rendered_tiles (page_of (desk dialling_display))) (tile ∅ true ME None).

Lemma videos_play_witness :
  click_on join_place connected_display = [does form_submits] ∧
  rendered_tiles (page_of (desk dialling_display)) = [dialling_tile] ∧
  ∃ ts, tiles dialling_display !! place_of dialling_tile = Some ts ∧ v_muted (video_element ts) = true ∧
    srcObject (video_element ts) = Some camera.
Proof.
  split; [vm_compute; reflexivity|].
  assert (rendered_tiles (page_of (desk dialling_display)) = [dialling_tile]) as Ht by (vm_compute; reflexivity).
  split; [exact Ht|].
  destruct (videos_play "url" dialling_display dialling_session) as (_ & Hall & _). rewrite Ht in Hall.
  destruct (Hall (NoDup_singleton _) dialling_tile (list_elem_of_here _ _)) as (ts & Hts & Hn & Hp & Hm).
  exists ts. split; [exact Hts|]. split.
  - rewrite Hm. vm_compute. reflexivity.
  - unfold plays_stream in Hp. rewrite Hn in Hp. rewrite Hp. vm_compute. reflexivity.
Defined.
